(* ===== verification/_CoqProject ===== *)
-Q . S2P
Prelude.v
RaftNode.v
RaftLog.v
RaftServer.v
RaftFrame.v
RaftEnv.v
RaftSafety.v
RaftAppend.v
RaftSpec.v
RaftClient.v
RaftDefects.v
RaftElection.v
Scheduler.v
CircularLog.v
Comm.v
Cyclone.v
CycloneSafe.v
Rendezvous.v
EventLoop.v
EventLoopSafe.v
Batching.v
Dispatcher.v
Client.v
ClientSafe.v
ClientAsync.v
PriorityQueue.v
PriorityQueueSafe.v
BTree.v
BTreeNode.v
BTreeCrash.v
BTreeRep.v
BTreeSplit.v
BTreeLeafSplit.v
BTreeSafe.v
BTreeInsert.v
BTreeEngine.v
BTreeRecovery.v
PmemDS.v
PmemSafe.v
PmemClient.v
PmemClientSafe.v
