(* ===== verification/Prelude.v ===== *)
(** * Verification of Cyclone

    Cyclone replicates a state machine over a DPDK network: clients send requests
    to a server, the server puts them through Raft, and executor threads run the
    committed requests and answer.  This library models the server (Raft, its
    persistent log, the event loop, the executors and their rendezvous) and the
    client library, and proves what they promise.

    ** Parts and files

    - [Prelude] (this file): the state and fault monad in which the C and C++ code
      is written down, its weakest-precondition rules, machine integers, arrays,
      record update and the frame automation.
    - [RaftNode], [RaftLog], [RaftServer]: src/raft/src/raft_node.c, raft_log.c,
      raft_server.c and raft_server_properties.c.  The server's state is
      [RaftServer.server] inside [rstate], with a heap of peers, the random
      numbers drawn and the world the callbacks act on.
    - [RaftFrame], [RaftEnv]: what the routines leave alone; a recording
      environment on which examples run.
    - [RaftSafety], [RaftAppend], [RaftSpec], [RaftClient], [RaftElection],
      [RaftDefects]: theorems about the server.
    - [Scheduler]: src/core/scheduler.hpp, the list of operations that waits for
      commuting ones.
    - [CircularLog]: src/core/circular_log.h, pmem_layout.h and clwb_sim.hpp.
    - [Comm]: src/core/cyclone_comm_dpdk.hpp.
    - [Cyclone], [CycloneSafe]: the callbacks of src/core/cyclone.cpp and the proof
      that they meet the contract of [RaftSafety].
    - [EventLoop], [EventLoopSafe], [Batching]: the monitor loop of
      src/core/cyclone_context.hpp around the Raft server: message bursts, client
      requests and their batching, snapshots, the kicker entry.  Its state is the
      [rstate] of [Cyclone].
    - [Rendezvous]: the barrier of src/core/cyclone.hpp that the cores of a
      multi-core request go through, as a step relation on shared memory.
    - [Dispatcher]: the executor threads of src/core/dispatcher.cpp, which take
      requests from the event loop's rings and go through the rendezvous.
    - [Client], [ClientSafe], [ClientAsync]: src/core/dispatch_client.cpp.  The
      constant part of [rpc_client_t] is [client_cfg]; the requests sent and the
      callbacks made are recorded in the state.
    - [PriorityQueue], [PriorityQueueSafe]: src/pmemds/include/priority_queue/
      persistent_priority_queue.hpp, the top K in a min-heap and the rest in a
      max-heap of pointers, with an index of keys.
    - [BTree]: src/pmemds/include/tree/btree/persistent_b_tree.h, a B+ tree in
      persistent memory.  Nodes are in a store by address; a leaf has two copies of
      its index, an inner node two copies of its keys and children, of which one is
      written while the other is valid.
    - [BTreeNode], [BTreeRep], [BTreeSplit], [BTreeLeafSplit], [BTreeSafe],
      [BTreeInsert]: what a node holds, what a store holds (a tree of pointers, the
      path to a leaf in it, the chain of leaves), the splits, the operations.
    - [BTreeCrash]: the stores and persists of a change of a leaf, one by one, and
      what a crash leaves of them.
    - [BTreeEngine], [BTreeRecovery]: the strings of tree/btree/pstring.h, the
      operations of src/pmemds/src/tree/btree.cc on the tree, and its recovery.
    - [PmemDS], [PmemSafe]: the application library of src/pmemds/src: the request
      words, the engines and the router [PMLib::exec].
    - [PmemClient], [PmemClientSafe]: its clients, src/pmemds/src/pmemds-client.cc,
      dpdk_client.cc and the wrappers tree/btree-client.cc, hashmap/hashmap-client.cc,
      priority_queue/priority_queue-client.cc and vector/adjvector-client.cc.  The
      interface [PMClient] is the class [Transport], with the DPDK client on top of
      [Client] and the direct call of the library in tests/test_client.h as instances.

    ** How code is modelled

    A routine is a function from a state to [Ret] of a result and a new state or
    [Stop] of a fault: undefined behaviour, a failed assertion, an exit, or a loop
    that has used up its fuel.  Signed arithmetic faults on overflow, array
    accesses out of bounds fault, unsigned arithmetic wraps.  Loops that are not
    structural take fuel, the length of the list or ring they run over, or a bound
    on the rounds of a wait (in [Comm] the timeout times the readings of the clock
    that fit into a microsecond, on a clock that is not set back; in [ClientSafe] that
    and the number of replicas and refusals), or the number of nodes of the B-tree, above its
    height; theorems
    that a routine returns are stated as such ([wp _ none], or an equation with
    [Ret]), so the fuel is shown to be enough.  Code outside the repository (DPDK,
    the allocator, the clock, PMDK) is a parameter; theorems that need something of it
    name it in a hypothesis, and where the source handles a failure of it (a full ring,
    no buffer) the theorem says what happens then.

    ** What is shown

    - [RaftElection]: at most one leader per term in a cluster, one vote per term.
    - [RaftSafety]: committed entries never change, for any callbacks that keep a
      mirror of the log ([SafeCbs]).  [CycloneSafe] shows that the production
      callbacks do, with the persistent ring as the mirror.
    - [RaftLog]: the ring buffer refines a list.
    - [RaftAppend], [RaftSpec], [RaftClient]: the functional behaviour of the
      handlers, the commit rule, the apply loop and compaction.
    - [Scheduler]: the queue is safe and issues in order; the loops terminate.
    - [CircularLog]: the persistent ring is a queue; what is durable when.
    - [Comm]: queue placement, the round trip of a packet, waiting terminates.
    - [EventLoopSafe]: any number of rounds of the event loop keep the committed
      entries and their persistent mirror; responses to a burst of messages.
    - [Batching]: the batches built from a burst hold its requests in order.
    - [Rendezvous]: success means that all cores came, and the cores agree unless
      one that is back moves to a newer term first.
    - [Dispatcher]: a decided update of a single core is run once and answered, or the
      process exits for want of a buffer; what an executor holds is given back exactly
      once.
    - [ClientSafe], [ClientAsync]: an answer belongs to the last request, a live
      replica is found with a bounded number of messages, learned terms pass the
      server's check, and every asynchronous request that is transmitted is called
      back once or pending, however the two threads interleave.
    - [PriorityQueueSafe]: the priority queue refines a map from keys to priorities
      until a transaction that has moved an element is left without a commit, but the
      top K need not be the highest.
    - [BTreeEngine]: any sequence of operations on the B-tree answers what a map
      answers and stops only when the pool is full.  [BTreeCrash]: insertion into a
      leaf and removal from it are atomic and durable, but since the epoch
      is not persisted, a crash can lose an insertion that was complete.  [BTreeRecovery]: recovery from a crash in a split of a leaf can free
      a leaf that is in use.
    - [PmemSafe]: an engine that is sent a put request and then a get request answers
      with the value.  [PmemClientSafe]: so a client reads what it has stored, from its
      call down to the nodes of the tree, in the B-tree with zeros behind it; the list
      of top articles is printed as it was chosen.  These calls reach the library
      directly; the way through the network and Raft is not composed with them.
    - [RaftDefects] and a few theorems elsewhere: where the code does not do what
      it means to.

    ** Not modelled

    - Device and pool set-up, configuration files, memory mapping and thread launch
      (the start-up parts of cyclone.cpp, dispatcher.cpp, dispatch_client.cpp and
      cyclone_comm_dpdk.hpp): calls into libraries without logic of their own.
    - [compact] of cyclone_context.hpp, which nothing calls, and the junk removal
      under WORKAROUND0, which the build leaves out.
    - Tracing (latency_tracer.hpp, logging.hpp), and src/core/flash_log.cpp, which
      the build does not use.
    - In src/pmemds: PMDK's hash maps, which enter as the class [Container] with the
      laws of a map; PMDK's allocator and transactions, by which a node is allocated
      or deleted as a whole; persistent-vector.h and volatile_priority_queue.hpp,
      which no file includes; of crashes those in the splits of inner nodes, whose
      repair is a definition of [BTree] without a theorem; members of the client
      wrappers that are declared without a body, and printing.  The server sees an
      application only as [rpc_callback], a parameter of [Dispatcher].
    - src/benchmarks and src/scripts: load generators and deployment. *)

From stdpp Require Export base tactics option list list_numbers numbers gmap.
From Stdlib Require Export ZArith Lia ZifyBool.

#[global] Open Scope Z_scope.

(** ** Outcomes of C code

    A C or C++ routine either returns a value together with the new state or
    stops.  [UB] covers the undefined behaviours the source can reach (a NULL
    or freed pointer, an index outside an array, signed overflow, division by
    zero), [Assert] a failed [assert], [Exit] a call of [exit] and [Hang] a
    loop that does not end. *)
Inductive fault :=
| UB
| Assert
| Exit (code : Z)
| Hang.

#[export] Instance fault_eq_dec : EqDecision fault.
Proof. solve_decision. Defined.

Inductive outcome (S A : Type) :=
| Ret (a : A) (s : S)
| Stop (f : fault).
Arguments Ret {S A} _ _.
Arguments Stop {S A} _.

Definition M (S A : Type) : Type := S → outcome S A.

#[export] Instance M_ret S : MRet (M S) := λ A a s, Ret a s.
#[export] Instance M_bind S : MBind (M S) := λ A B k m s,
  match m s with
  | Ret a s' => k a s'
  | Stop f => Stop f
  end.

Section monad.
Context {S : Type}.

Definition fail {A} (f : fault) : M S A := λ _, Stop f.
Definition get : M S S := λ s, Ret s s.
Definition gets {A} (f : S → A) : M S A := λ s, Ret (f s) s.
Definition modify (f : S → S) : M S () := λ s, Ret tt (f s).

(** [assert(b)]; the build files never define NDEBUG. *)
Definition assert (b : bool) : M S () := if b then mret tt else fail Assert.
Definition when (b : bool) (m : M S ()) : M S () := if b then m else mret tt.

(** Dereferencing: [None] is a NULL or dangling pointer. *)
Definition deref {A} (o : option A) : M S A :=
    match o with Some a => mret a | None => fail UB end.
End monad.

(** ** Machine integers *)
Definition INT_MIN : Z := - 2 ^ 31.
Definition INT_MAX : Z := 2 ^ 31 - 1.
Definition in_int (z : Z) : bool := (INT_MIN <=? z) && (z <=? INT_MAX).

(** Conversion to [unsigned int] and to [unsigned long]. *)
Definition u32 (z : Z) : Z := z mod 2 ^ 32.
Definition u64 (z : Z) : Z := z mod 2 ^ 64.
(** Conversion of an [unsigned int] to [int], as gcc defines it. *)
Definition i32 (z : Z) : Z := (z + 2 ^ 31) mod 2 ^ 32 - 2 ^ 31.

Section int.
Context {S : Type}.
Definition int_of (z : Z) : M S Z := if in_int z then mret z else fail UB.
Definition iadd (a b : Z) : M S Z := int_of (a + b).
Definition isub (a b : Z) : M S Z := int_of (a - b).
Definition imul (a b : Z) : M S Z := int_of (a * b).
(** [a % b] on [int]: truncation towards zero, undefined for [b = 0]. *)
Definition irem (a b : Z) : M S Z := if b =? 0 then fail UB else mret (Z.rem a b).
End int.

(** ** Arrays, indexed by C integers; an access outside the array is [UB]. *)
Definition in_range {A} (l : list A) (i : Z) : bool := (0 <=? i) && (i <? Z.of_nat (length l)).

Definition zlookup {A} (l : list A) (i : Z) : option A :=
  if 0 <=? i then l !! Z.to_nat i else None.

Definition zinsert {A} (l : list A) (i : Z) (x : A) : list A := <[Z.to_nat i := x]> l.

Section array.
Context {S : Type} {A : Type}.
Definition aget (l : list A) (i : Z) : M S A := deref (zlookup l i).
Definition aset (l : list A) (i : Z) (x : A) : M S (list A) :=
    if in_range l i then mret (zinsert l i x) else fail UB.
(** [memcpy(&dst[pos], src, n * sizeof(A))]. *)
Definition memcpy (dst : list A) (pos : Z) (src : list A) (n : Z) : M S (list A) :=
    if (0 <=? n) && (0 <=? pos) && (pos + n <=? Z.of_nat (length dst))
       && (n <=? Z.of_nat (length src))
    then mret (take (Z.to_nat pos) dst ++ take (Z.to_nat n) src
                 ++ drop (Z.to_nat (pos + n)) dst)
    else fail UB.
End array.

(** ** Record update: [r <| field := v |>]

    [fields_of] gives a record's eta expansion; the setter of a projection is
    that expansion with the projection abstracted. *)
Class FieldsOf (R : Type) := fields_of : R → R.
Class FieldSetter {R T : Type} (proj : R → T) := field_update : (T → T) → R → R.
Arguments field_update {R T} proj {_} f r /.

Ltac derive_setter proj :=
  match type of proj with
  | ?R → _ =>
    let eta := eval red in (fields_of : R → R) in
    let eta := eval unfold fields_of in eta in
    let eta := eval hnf in eta in
    let abs := (eval pattern proj in eta) in
    lazymatch abs with
    | (fun _ => ?b) _ => fail "not a field"
    | ?build _ => exact (λ f r, build (λ r', f (proj r')) r)
    end
  end.
#[export] Hint Extern 1 (FieldSetter ?proj) => derive_setter proj : typeclass_instances.

Notation "r <| f := v |>" := (field_update f (λ _, v) r)
  (at level 12, f at next level, v at level 200, left associativity,
   format "r  <| f  :=  v |>") : stdpp_scope.

(** ** Weakest preconditions

    [wp m E Q s]: run from [s], [m] either returns with [Q] or stops with a
    fault allowed by [E].  [E = none] is total correctness, [E = any] partial
    correctness. *)
Definition wp {S A} (m : M S A) (E : fault → Prop) (Q : A → S → Prop) (s : S) : Prop :=
  match m s with
  | Ret a s' => Q a s'
  | Stop f => E f
  end.
Definition any : fault → Prop := λ _, True.
Definition none : fault → Prop := λ _, False.

Section wp.
Context {S : Type}.

Lemma wp_bind {A B} (m : M S A) (k : A → M S B) E Q s :
  wp (m ≫= k) E Q s ↔ wp m E (λ a s', wp (k a) E Q s') s.
Proof. unfold wp, mbind, M_bind. by destruct (m s). Qed.

Lemma wp_ret {A} (a : A) E Q (s : S) : wp (mret a : M S A) E Q s ↔ Q a s.
Proof. done. Qed.

Lemma wp_fail {A} f E (Q : A → S → Prop) s : wp (fail f) E Q s ↔ E f.
Proof. done. Qed.

Lemma wp_get E Q (s : S) : wp get E Q s ↔ Q s s.
Proof. done. Qed.

Lemma wp_gets {A} (f : S → A) E Q s : wp (gets f) E Q s ↔ Q (f s) s.
Proof. done. Qed.

Lemma wp_modify (f : S → S) E Q s : wp (modify f) E Q s ↔ Q tt (f s).
Proof. done. Qed.

Lemma wp_assert b E (Q : () → S → Prop) s :
  wp (assert b) E Q s ↔ if b then Q tt s else E Assert.
Proof. by destruct b. Qed.

Lemma wp_when b (m : M S ()) E Q s :
  wp (when b m) E Q s ↔ if b then wp m E Q s else Q tt s.
Proof. by destruct b. Qed.

Lemma wp_deref {A} (o : option A) E Q (s : S) :
  wp (deref o) E Q s ↔ match o with Some a => Q a s | None => E UB end.
Proof. by destruct o. Qed.

Lemma wp_mono {A} (m : M S A) (E E' : fault → Prop) (Q Q' : A → S → Prop) s :
  wp m E Q s → (∀ f, E f → E' f) → (∀ a s', Q a s' → Q' a s') → wp m E' Q' s.
Proof. unfold wp. destruct (m s); auto. Qed.

Lemma wp_int_of z E Q (s : S) :
  wp (int_of z) E Q s ↔ if in_int z then Q z s else E UB.
Proof. unfold int_of. by destruct (in_int z). Qed.

Lemma wp_any_ret {A} (m : M S A) (Q : A → S → Prop) s a s' :
  wp m any Q s → m s = Ret a s' → Q a s'.
Proof. unfold wp. intros H Hm. by rewrite Hm in H. Qed.

Lemma wp_run {A} (m : M S A) (E : fault → Prop) (Q : A → S → Prop) s a s' :
  m s = Ret a s' → wp m E Q s ↔ Q a s'.
Proof. unfold wp. by intros ->. Qed.

Lemma wp_none_ret {A} (m : M S A) (Q : A → S → Prop) s :
  wp m none Q s ↔ ∃ a s', m s = Ret a s' ∧ Q a s'.
Proof.
  unfold wp. destruct (m s) as [a s'|f] eqn:E; split.
  - eauto.
  - intros (? & ? & [= <- <-] & ?). done.
  - intros [].
  - intros (? & ? & ? & ?). done.
Qed.

Lemma wp_any_intro {A} (m : M S A) (Q : A → S → Prop) s :
  (∀ a s', m s = Ret a s' → Q a s') → wp m any Q s.
Proof. unfold wp. destruct (m s); naive_solver. Qed.

Lemma wp_bind_assoc {A B C} (m : M S A) (f : A → M S B) (g : B → M S C) E Q s :
  wp ((m ≫= f) ≫= g) E Q s ↔ wp (m ≫= λ a, f a ≫= g) E Q s.
Proof. unfold wp, mbind, M_bind. by destruct (m s). Qed.

Lemma wp_conj {A} (m : M S A) E (Q Q' : A → S → Prop) s :
  wp m E Q s → wp m any Q' s → wp m E (λ a s', Q a s' ∧ Q' a s') s.
Proof. unfold wp. by destruct (m s). Qed.
End wp.

(** [wp_step] peels one primitive of the monad off a [wp] goal. *)
Ltac wp_step :=
  first
    [ rewrite wp_bind | rewrite wp_ret | rewrite wp_get | rewrite wp_gets
    | rewrite wp_modify | rewrite wp_fail | rewrite wp_assert
    | rewrite wp_when | rewrite wp_deref | rewrite wp_int_of ].
Ltac wp_simpl := repeat wp_step.

(** ** Bits *)
Lemma land_pow2_eqb x n :
  0 ≤ n → negb (Z.land x (2 ^ n) =? 0) = Z.testbit x n.
Proof.
  intros Hn. destruct (Z.testbit x n) eqn:Hb.
  - assert (Z.land x (2 ^ n) ≠ 0) as Hz; [|lia].
    intros Hz. apply (f_equal (λ y, Z.testbit y n)) in Hz.
    rewrite Z.land_spec, Hb, Z.pow2_bits_true, Z.bits_0 in Hz; done.
  - assert (Z.land x (2 ^ n) = 0) as ->; [|done].
    apply Z.bits_inj. intros m. rewrite Z.land_spec, Z.bits_0.
    destruct (decide (m = n)) as [->|Hm].
    + by rewrite Hb.
    + rewrite Z.pow2_bits_false by done. by rewrite andb_false_r.
Qed.

(** ** Arrays *)
Section zlookup.
Context {A : Type}.
Implicit Types (l : list A) (i j : Z).

Lemma zlookup_nonneg l i : 0 ≤ i → zlookup l i = l !! Z.to_nat i.
Proof. unfold zlookup. intros. by destruct (Z.leb_spec 0 i); [|lia]. Qed.

Lemma zlookup_neg l i : i < 0 → zlookup l i = None.
Proof. unfold zlookup. intros. by destruct (Z.leb_spec 0 i); [lia|]. Qed.

Lemma zlookup_Some_range l i x : zlookup l i = Some x → 0 ≤ i < Z.of_nat (length l).
Proof.
  unfold zlookup. destruct (Z.leb_spec 0 i); [|done].
  intros ?%lookup_lt_Some. lia.
Qed.

Lemma zlookup_Some_elem l i x : zlookup l i = Some x → x ∈ l.
Proof.
  intros Hx. pose proof (zlookup_Some_range l i x Hx). rewrite zlookup_nonneg in Hx by lia.
  by apply list_elem_of_lookup_2 in Hx.
Qed.

Lemma zlookup_is_Some l i : is_Some (zlookup l i) ↔ 0 ≤ i < Z.of_nat (length l).
Proof.
  split; [intros [x ?]; by eapply zlookup_Some_range|].
  intros ?. rewrite zlookup_nonneg by lia. apply lookup_lt_is_Some. lia.
Qed.

Lemma zlookup_None l i : zlookup l i = None ↔ ¬ (0 ≤ i < Z.of_nat (length l)).
Proof. rewrite <- zlookup_is_Some, eq_None_not_Some. done. Qed.

Lemma zlookup_app l k i :
  zlookup (l ++ k) i
  = if i <? Z.of_nat (length l) then zlookup l i else zlookup k (i - Z.of_nat (length l)).
Proof.
  destruct (Z.ltb_spec i (Z.of_nat (length l))).
  - destruct (decide (0 ≤ i)).
    + rewrite !zlookup_nonneg by lia. rewrite lookup_app_l by lia. done.
    + by rewrite !zlookup_neg by lia.
  - rewrite !zlookup_nonneg by lia. rewrite lookup_app_r by lia. f_equal. lia.
Qed.

Lemma zlookup_zinsert l i j x :
  0 ≤ i < Z.of_nat (length l) →
  zlookup (zinsert l i x) j = if j =? i then Some x else zlookup l j.
Proof.
  intros Hi. unfold zinsert. destruct (Z.eqb_spec j i) as [->|Hne].
  - rewrite zlookup_nonneg by lia. apply list_lookup_insert_eq. lia.
  - destruct (decide (0 ≤ j)).
    + rewrite !zlookup_nonneg by lia. apply list_lookup_insert_ne. lia.
    + by rewrite !zlookup_neg by lia.
Qed.

Lemma length_zinsert l i x : length (zinsert l i x) = length l.
Proof. apply length_insert. Qed.

Lemma zlookup_take l n i :
  zlookup (take (Z.to_nat n) l) i = if i <? n then zlookup l i else None.
Proof.
  destruct (Z.ltb_spec i n).
  - destruct (decide (0 ≤ i)).
    + rewrite !zlookup_nonneg by lia. apply lookup_take_lt. lia.
    + by rewrite !zlookup_neg by lia.
  - apply zlookup_None. rewrite length_take. lia.
Qed.

Lemma zlookup_drop l n i :
  0 ≤ n → zlookup (drop (Z.to_nat n) l) i = if 0 <=? i then zlookup l (n + i) else None.
Proof.
  intros. destruct (Z.leb_spec 0 i).
  - rewrite !zlookup_nonneg by lia. rewrite lookup_drop. f_equal. lia.
  - by rewrite zlookup_neg.
Qed.

Lemma zlookup_ext l k :
  length l = length k →
  (∀ i, 0 ≤ i < Z.of_nat (length l) → zlookup l i = zlookup k i) → l = k.
Proof.
  intros Hlen Heq. apply list_eq. intros n. destruct (decide (n < length l)%nat).
  - specialize (Heq (Z.of_nat n) ltac:(lia)).
    rewrite !zlookup_nonneg, !Nat2Z.id in Heq by lia. done.
  - rewrite !lookup_ge_None_2 by lia. done.
Qed.

(** The array [memcpy] leaves. *)
Definition copied l (pos : Z) k (n : Z) : list A :=
  take (Z.to_nat pos) l ++ take (Z.to_nat n) k ++ drop (Z.to_nat (pos + n)) l.

Lemma length_copied l pos k n :
  0 ≤ pos → 0 ≤ n → pos + n ≤ Z.of_nat (length l) → n ≤ Z.of_nat (length k) →
  length (copied l pos k n) = length l.
Proof.
  intros. unfold copied. rewrite !length_app, !length_take, length_drop. lia.
Qed.

Lemma zlookup_copied l pos k n i :
  0 ≤ pos → 0 ≤ n → pos + n ≤ Z.of_nat (length l) → n ≤ Z.of_nat (length k) →
  zlookup (copied l pos k n) i
  = if (pos <=? i) && (i <? pos + n) then zlookup k (i - pos) else zlookup l i.
Proof.
  intros. unfold copied. rewrite !zlookup_app, !length_take.
  destruct (Z.ltb_spec i (Z.of_nat (Z.to_nat pos `min` length l))).
  - rewrite zlookup_take. destruct (Z.ltb_spec i pos); [|lia].
    destruct (Z.leb_spec pos i); [lia|done].
  - destruct (Z.leb_spec pos i); [|lia]. simpl.
    destruct (Z.ltb_spec (i - Z.of_nat (Z.to_nat pos `min` length l))
                (Z.of_nat (Z.to_nat n `min` length k))).
    + rewrite zlookup_take. destruct (Z.ltb_spec i (pos + n)); [|lia].
      case_match; [f_equal; lia|lia].
    + destruct (Z.ltb_spec i (pos + n)); [lia|].
      rewrite zlookup_drop by lia.
      destruct (Z.leb_spec 0
        (i - Z.of_nat (Z.to_nat pos `min` length l) - Z.of_nat (Z.to_nat n `min` length k)));
        [|lia].
      f_equal. lia.
Qed.
End zlookup.

(** ** Indices modulo the size of a ring *)
Lemma mod_window_inj n a b :
  0 < n → - n < a - b < n → a mod n = b mod n → a = b.
Proof.
  intros Hn Hab Heq.
  pose proof (Z.div_mod a n ltac:(lia)). pose proof (Z.div_mod b n ltac:(lia)).
  assert (a - b = n * (a / n - b / n)) as Hq by lia.
  assert (a / n - b / n = 0) as Hz; [|lia].
  rewrite Hq in Hab. nia.
Qed.

Lemma mod_add_window n a j :
  0 < n → 0 ≤ j ≤ n →
  (a + j) mod n = if a mod n + j <? n then a mod n + j
                  else if a mod n + j <? 2 * n then a mod n + j - n else 0.
Proof.
  intros Hn Hj. pose proof (Z.mod_pos_bound a n Hn).
  rewrite <- Zplus_mod_idemp_l.
  destruct (Z.ltb_spec (a mod n + j) n).
  - apply Z.mod_small. lia.
  - destruct (Z.ltb_spec (a mod n + j) (2 * n)); [|lia].
    symmetry. apply (Zmod_unique _ _ 1); lia.
Qed.

Section wp_array.
Context {S : Type}.

Lemma wp_iadd a b E Q (s : S) :
  in_int (a + b) = true → wp (iadd a b) E Q s ↔ Q (a + b) s.
Proof. unfold iadd. rewrite wp_int_of. by intros ->. Qed.

(** The partial-correctness form: either the sum fits or overflow is allowed. *)
Lemma wp_iadd_or a b (E : fault → Prop) Q (s : S) :
  in_int (a + b) = true ∨ E UB → (in_int (a + b) = true → Q (a + b) s) → wp (iadd a b) E Q s.
Proof. unfold iadd. rewrite wp_int_of. destruct (in_int (a + b)); intros [?|?]; auto; done. Qed.

Lemma wp_isub_or a b (E : fault → Prop) Q (s : S) :
  in_int (a - b) = true ∨ E UB → (in_int (a - b) = true → Q (a - b) s) → wp (isub a b) E Q s.
Proof. unfold isub. rewrite wp_int_of. destruct (in_int (a - b)); intros [?|?]; auto; done. Qed.

Lemma wp_isub a b E Q (s : S) :
  in_int (a - b) = true → wp (isub a b) E Q s ↔ Q (a - b) s.
Proof. unfold isub. rewrite wp_int_of. by intros ->. Qed.

Lemma wp_imul a b E Q (s : S) :
  in_int (a * b) = true → wp (imul a b) E Q s ↔ Q (a * b) s.
Proof. unfold imul. rewrite wp_int_of. by intros ->. Qed.

Lemma wp_irem a b E Q (s : S) :
  0 ≤ a → 0 < b → wp (irem a b) E Q s ↔ Q (a mod b) s.
Proof.
  intros. unfold irem. destruct (Z.eqb_spec b 0); [lia|].
  rewrite wp_ret, Z.rem_mod_nonneg by lia. done.
Qed.

Lemma wp_aget {A} (l : list A) i x E Q (s : S) :
  zlookup l i = Some x → wp (aget l i) E Q s ↔ Q x s.
Proof. unfold aget. by intros ->. Qed.

Lemma wp_aset {A} (l : list A) i x E Q (s : S) :
  0 ≤ i < Z.of_nat (length l) → wp (aset l i x) E Q s ↔ Q (zinsert l i x) s.
Proof. intros. unfold aset, in_range. by replace (_ && _) with true by lia. Qed.

Lemma wp_memcpy {A} (l : list A) pos k n E Q (s : S) :
  0 ≤ pos → 0 ≤ n → pos + n ≤ Z.of_nat (length l) → n ≤ Z.of_nat (length k) →
  wp (memcpy l pos k n) E Q s ↔ Q (copied l pos k n) s.
Proof. intros. unfold memcpy. by replace (_ && _) with true by lia. Qed.
End wp_array.

Lemma in_int_iff z : in_int z = true ↔ - 2 ^ 31 ≤ z ≤ 2 ^ 31 - 1.
Proof. unfold in_int, INT_MIN, INT_MAX. lia. Qed.

Ltac int_range :=
  rewrite ?in_int_iff in *; unfold INT_MAX, INT_MIN in *; lia.

(** ** Relations kept by every returning run

    [Pres R m]: whenever [m] returns, its initial and final states are related
    by [R].  With [R] a preorder this composes, so a step property or an
    invariant of all handlers is proved by cutting each handler into its
    primitive steps. *)
Definition Pres {S A} (R : relation S) (m : M S A) : Prop :=
  ∀ s, wp m any (λ _ s', R s s') s.

Create HintDb pres.

Section pres.
Context {S : Type} (R : relation S) `{!PreOrder R}.

Lemma pres_ret {A} (a : A) : Pres R (mret a : M S A).
Proof. intros s. rewrite wp_ret. done. Qed.

Lemma pres_bind {A B} (m : M S A) (k : A → M S B) :
  Pres R m → (∀ a, Pres R (k a)) → Pres R (m ≫= k).
Proof.
  intros Hm Hk s. rewrite wp_bind. eapply wp_mono; [apply Hm|done|].
  intros a s1 H1. eapply wp_mono; [apply Hk|done|]. intros b s2 H2. by transitivity s1.
Qed.

Lemma pres_fail {A} f : Pres R (fail f : M S A).
Proof. done. Qed.

Lemma pres_get : Pres R get.
Proof. intros s. rewrite wp_get. done. Qed.

Lemma pres_gets {A} (f : S → A) : Pres R (gets f).
Proof. intros s. rewrite wp_gets. done. Qed.

Lemma pres_modify (f : S → S) : (∀ s, R s (f s)) → Pres R (modify f).
Proof. intros Hf s. rewrite wp_modify. done. Qed.

Lemma pres_when b (m : M S ()) : Pres R m → Pres R (when b m).
Proof. destruct b; [done|]. intros _. apply pres_ret. Qed.

Lemma pres_assert b : Pres R (assert b).
Proof. destruct b; [apply pres_ret|apply pres_fail]. Qed.

Lemma pres_deref {A} (o : option A) : Pres R (deref o).
Proof. destruct o; [apply pres_ret|apply pres_fail]. Qed.

Lemma pres_int_of z : Pres R (int_of z).
Proof. unfold int_of. destruct (in_int z); [apply pres_ret|apply pres_fail]. Qed.

Lemma pres_iadd a b : Pres R (iadd a b).
Proof. apply pres_int_of. Qed.
Lemma pres_isub a b : Pres R (isub a b).
Proof. apply pres_int_of. Qed.
Lemma pres_imul a b : Pres R (imul a b).
Proof. apply pres_int_of. Qed.
Lemma pres_irem a b : Pres R (irem a b).
Proof. unfold irem. case_match; [apply pres_fail|apply pres_ret]. Qed.

Lemma pres_aget {A} (l : list A) i : Pres R (aget l i).
Proof. apply pres_deref. Qed.
Lemma pres_aset {A} (l : list A) i x : Pres R (aset l i x).
Proof. unfold aset. case_match; [apply pres_ret|apply pres_fail]. Qed.
Lemma pres_memcpy {A} (d : list A) p c n : Pres R (memcpy d p c n).
Proof. unfold memcpy. case_match; [apply pres_ret|apply pres_fail]. Qed.

(** Continuing from a state already related to the initial one. *)
Lemma pres_from {A} (m : M S A) s s1 :
  R s s1 → Pres R m → wp m any (λ _ s', R s s') s1.
Proof.
  intros H1 Hm. eapply wp_mono; [apply Hm|done|]. intros ? s' ?. by transitivity s1.
Qed.

Lemma pres_run {A} (m : M S A) s a s' : Pres R m → m s = Ret a s' → R s s'.
Proof. intros Hm Hr. exact (wp_any_ret _ _ _ _ _ (Hm s) Hr). Qed.
End pres.

#[export] Hint Resolve pres_ret pres_fail pres_get pres_gets pres_assert pres_deref pres_int_of
  pres_iadd pres_isub pres_imul pres_irem pres_aget pres_aset pres_memcpy : pres.

(** [pres] cuts a [Pres] goal along the program and closes the primitive steps
    with the lemmas of the database [pres] and the context. *)
Ltac pres_step :=
  lazymatch goal with
  | |- Pres _ (mbind _ _) => apply pres_bind; [apply _| |intros]
  | |- Pres _ (when _ _) => apply pres_when; [apply _|]
  | |- Pres _ (if ?b then _ else _) => destruct b eqn:?
  | |- Pres _ (match ?x with _ => _ end) => destruct x eqn:?
  | |- Pres _ (let _ := _ in _) => cbv zeta
  end.
Ltac pres := repeat first [pres_step | solve [eauto with pres typeclass_instances]].
