(* ===== verification/RaftNode.v ===== *)
(** Raft data types and peers: [raft/include/raft.h], [raft/src/raft_node.c].

    The enumerations, the log entry and the four messages of [raft.h], and the
    peer record of [raft_node.c] with its flag word.  The flag macros are
    expanded as the preprocessor expands them, without parentheses. *)

From S2P Require Import Prelude.

(** [raft_state_e]. *)
Inductive raft_state_e :=
| RAFT_STATE_NONE
| RAFT_STATE_FOLLOWER
| RAFT_STATE_CANDIDATE
| RAFT_STATE_LEADER.

#[export] Instance raft_state_e_eq_dec : EqDecision raft_state_e.
Proof. solve_decision. Defined.

(** [raft_logtype_e]; [raft_entry_t.type] is an [int]. *)
Definition RAFT_LOGTYPE_NORMAL : Z := 0.
Definition RAFT_LOGTYPE_ADD_NONVOTING_NODE : Z := 1.
Definition RAFT_LOGTYPE_ADD_NODE : Z := 2.
Definition RAFT_LOGTYPE_REMOVE_NODE : Z := 3.

Definition RAFT_ERR_NOT_LEADER : Z := -2.
Definition RAFT_ERR_ONE_VOTING_CHANGE_ONLY : Z := -3.
Definition RAFT_ERR_SHUTDOWN : Z := -4.

(** [raft_entry_t] (also [msg_entry_t]): [term], [id] and [data_len] are
    [unsigned int], [pkt] and [data_buf] are addresses. *)
Record raft_entry := mk_entry {
  term : Z;
  id : Z;
  pkt : Z;
  type : Z;
  data_buf : Z;
  data_len : Z
}.
#[export] Instance raft_entry_fields : FieldsOf raft_entry :=
  λ r, mk_entry (term r) (id r) (pkt r) (type r) (data_buf r) (data_len r).
#[export] Instance raft_entry_eq_dec : EqDecision raft_entry.
Proof. solve_decision. Defined.

(** The all-zero entry of a [calloc]ed array. *)
Definition zero_entry : raft_entry := mk_entry 0 0 0 0 0 0.

(** [msg_requestvote_t]. *)
Record msg_requestvote := mk_rv {
  rv_term : Z;
  rv_candidate_id : Z;
  rv_last_log_idx : Z;
  rv_last_log_term : Z
}.

(** [msg_requestvote_response_t]. *)
Record msg_requestvote_response := mk_rvr {
  rvr_term : Z;
  rvr_vote_granted : Z
}.

(** [msg_appendentries_t]; [ae_entries] is the array [entries[0..n_entries)]. *)
Record msg_appendentries := mk_ae {
  ae_term : Z;
  ae_prev_log_idx : Z;
  ae_prev_log_term : Z;
  ae_leader_commit : Z;
  ae_entries : list raft_entry
}.
Definition ae_n_entries (ae : msg_appendentries) : Z := Z.of_nat (length (ae_entries ae)).

(** [msg_appendentries_response_t]. *)
Record msg_appendentries_response := mk_aer {
  aer_term : Z;
  aer_success : Z;
  aer_current_idx : Z;
  aer_first_idx : Z
}.
#[export] Instance aer_fields : FieldsOf msg_appendentries_response :=
  λ r, mk_aer (aer_term r) (aer_success r) (aer_current_idx r) (aer_first_idx r).

(** [msg_entry_response_t]. *)
Record msg_entry_response := mk_er {
  er_id : Z;
  er_term : Z;
  er_idx : Z
}.

(** ** Entry kinds: [raft_server.c] *)
Definition raft_entry_is_voting_cfg_change (ety : raft_entry) : bool :=
  (type ety =? RAFT_LOGTYPE_ADD_NONVOTING_NODE) || (type ety =? RAFT_LOGTYPE_REMOVE_NODE).

Definition raft_entry_is_cfg_change (ety : raft_entry) : bool :=
  (type ety =? RAFT_LOGTYPE_ADD_NODE) || (type ety =? RAFT_LOGTYPE_ADD_NONVOTING_NODE)
  || (type ety =? RAFT_LOGTYPE_REMOVE_NODE).

(** ** Peers *)

(** [raft_node_private_t]. *)
Record raft_node := mk_node {
  udata : Z;
  next_idx : Z;
  match_idx : Z;
  node_elapsed : Z;
  flags : Z;
  node_id : Z
}.
#[export] Instance raft_node_fields : FieldsOf raft_node :=
  λ r, mk_node (udata r) (next_idx r) (match_idx r) (node_elapsed r) (flags r) (node_id r).

(** [#define RAFT_NODE_VOTED_FOR_ME 1], [RAFT_NODE_VOTING 1 << 1] and
    [RAFT_NODE_HAS_SUFFICIENT_LOG 1 << 2]. *)
Definition RAFT_NODE_VOTED_FOR_ME : Z := 1.
Definition RAFT_NODE_VOTING : Z := Z.shiftl 1 1.
Definition RAFT_NODE_HAS_SUFFICIENT_LOG : Z := Z.shiftl 1 2.

Definition raft_node_new (ud : Z) (nid : Z) : raft_node :=
  {| udata := ud; next_idx := 1; match_idx := 0; node_elapsed := 0;
     flags := RAFT_NODE_VOTING; node_id := nid |}.

Definition raft_node_get_next_idx (me : raft_node) : Z := next_idx me.

Definition raft_node_set_next_idx (nextIdx : Z) (me : raft_node) : raft_node :=
  me <| next_idx := if nextIdx <? 1 then 1 else nextIdx |>.

Definition raft_node_get_elapsed (me : raft_node) : Z := node_elapsed me.

Definition raft_node_set_elapsed (elapsed : Z) (me : raft_node) : raft_node :=
  me <| node_elapsed := elapsed |>.

Definition raft_node_get_match_idx (me : raft_node) : Z := match_idx me.

Definition raft_node_set_match_idx (matchIdx : Z) (me : raft_node) : raft_node :=
  me <| match_idx := matchIdx |>.

Definition raft_node_get_udata (me : raft_node) : Z := udata me.

Definition raft_node_set_udata (ud : Z) (me : raft_node) : raft_node :=
  me <| udata := ud |>.

(** [flags |= RAFT_NODE_VOTED_FOR_ME] and [flags &= ~RAFT_NODE_VOTED_FOR_ME]. *)
Definition raft_node_vote_for_me (vote : bool) (me : raft_node) : raft_node :=
  if vote
  then me <| flags := Z.lor (flags me) RAFT_NODE_VOTED_FOR_ME |>
  else me <| flags := Z.land (flags me) (Z.lnot RAFT_NODE_VOTED_FOR_ME) |>.

Definition raft_node_has_vote_for_me (me : raft_node) : bool :=
  negb (Z.land (flags me) RAFT_NODE_VOTED_FOR_ME =? 0).

(** [flags &= ~RAFT_NODE_VOTING] is [flags &= ~1 << 1]: [~] binds tighter than
    [<<], so the mask is [(~1) << 1]. *)
Definition raft_node_set_voting (voting : bool) (me : raft_node) : raft_node :=
  if voting
  then me <| flags := Z.lor (flags me) RAFT_NODE_VOTING |>
  else me <| flags := Z.land (flags me) (Z.shiftl (Z.lnot 1) 1) |>.

Definition raft_node_is_voting (me : raft_node) : bool :=
  negb (Z.land (flags me) RAFT_NODE_VOTING =? 0).

Definition raft_node_set_has_sufficient_logs (me : raft_node) : raft_node :=
  me <| flags := Z.lor (flags me) RAFT_NODE_HAS_SUFFICIENT_LOG |>.

Definition raft_node_has_sufficient_logs (me : raft_node) : bool :=
  negb (Z.land (flags me) RAFT_NODE_HAS_SUFFICIENT_LOG =? 0).

Definition raft_node_get_id (me : raft_node) : Z := node_id me.

(** ** The flag word *)
Lemma has_vote_bit n : raft_node_has_vote_for_me n = Z.testbit (flags n) 0.
Proof. exact (land_pow2_eqb (flags n) 0 ltac:(lia)). Qed.

Lemma is_voting_bit n : raft_node_is_voting n = Z.testbit (flags n) 1.
Proof. exact (land_pow2_eqb (flags n) 1 ltac:(lia)). Qed.

Lemma has_sufficient_bit n : raft_node_has_sufficient_logs n = Z.testbit (flags n) 2.
Proof. exact (land_pow2_eqb (flags n) 2 ltac:(lia)). Qed.

(** [flag_bits] reduces a flag query after a setter to bits of constants. *)
#[local] Arguments Z.testbit : simpl never.
Ltac flag_bits :=
  rewrite ?has_vote_bit, ?is_voting_bit, ?has_sufficient_bit; simpl;
  rewrite ?Z.lor_spec, ?Z.land_spec;
  repeat match goal with
  | |- context [Z.testbit ?c ?k] =>
    lazymatch c with
    | flags _ => fail
    | _ => let v := eval vm_compute in (Z.testbit c k) in change (Z.testbit c k) with v
    end
  end;
  rewrite ?orb_true_r, ?orb_false_r, ?andb_true_r, ?andb_false_r; try done.

Lemma has_vote_set_vote b n :
  raft_node_has_vote_for_me (raft_node_vote_for_me b n) = b.
Proof. destruct b; flag_bits. Qed.

Lemma is_voting_set_vote b n :
  raft_node_is_voting (raft_node_vote_for_me b n) = raft_node_is_voting n.
Proof. destruct b; flag_bits. Qed.

Lemma is_voting_set_voting b n :
  raft_node_is_voting (raft_node_set_voting b n) = b.
Proof. destruct b; flag_bits. Qed.

Lemma is_voting_set_sufficient n :
  raft_node_is_voting (raft_node_set_has_sufficient_logs n) = raft_node_is_voting n.
Proof. flag_bits. Qed.

Lemma has_vote_set_sufficient n :
  raft_node_has_vote_for_me (raft_node_set_has_sufficient_logs n) = raft_node_has_vote_for_me n.
Proof. flag_bits. Qed.

(** The three flags of a peer are independent under every setter but
    [raft_node_set_voting(node, 0)]: recording or clearing a vote, granting
    voting rights and marking sufficient logs each set their own flag to the
    asked value and leave the other two alone. *)
Theorem node_flags_independent (n : raft_node) (b : bool) :
  (raft_node_has_vote_for_me (raft_node_vote_for_me b n) = b
   ∧ raft_node_is_voting (raft_node_vote_for_me b n) = raft_node_is_voting n
   ∧ raft_node_has_sufficient_logs (raft_node_vote_for_me b n)
     = raft_node_has_sufficient_logs n)
  ∧ (raft_node_is_voting (raft_node_set_voting true n) = true
     ∧ raft_node_has_vote_for_me (raft_node_set_voting true n) = raft_node_has_vote_for_me n
     ∧ raft_node_has_sufficient_logs (raft_node_set_voting true n)
       = raft_node_has_sufficient_logs n)
  ∧ (raft_node_has_sufficient_logs (raft_node_set_has_sufficient_logs n) = true
     ∧ raft_node_has_vote_for_me (raft_node_set_has_sufficient_logs n)
       = raft_node_has_vote_for_me n
     ∧ raft_node_is_voting (raft_node_set_has_sufficient_logs n) = raft_node_is_voting n).
Proof. repeat split; destruct b; flag_bits. Qed.

(** [raft_node_set_voting(node, 0)] also erases the peer's recorded vote,
    because the unparenthesised mask [~1 << 1] has bit 0 clear. *)
Theorem set_voting_false_erases_vote (n : raft_node) :
  raft_node_is_voting (raft_node_set_voting false n) = false
  ∧ raft_node_has_vote_for_me (raft_node_set_voting false n) = false
  ∧ raft_node_has_sufficient_logs (raft_node_set_voting false n)
    = raft_node_has_sufficient_logs n.
Proof. repeat split; flag_bits. Qed.
