(* ===== verification/RaftLog.v ===== *)
(** The Raft log: [raft/src/raft_log.c].

    A ring buffer of entries addressed by absolute indices [front] and [back],
    doubled when it is full.  The routines run the log callbacks, which may
    touch the whole server, so they are written over any state that holds a
    log ([HasLog]); [RaftServer.v] instantiates it with the server.  The
    abstract log is a list of entries and its first index, and each routine
    refines the obvious operation on it. *)

From S2P Require Import Prelude RaftNode.

(** [log_private_t]; the [cb] and [raft] members are the section variables
    below. *)
Record log_private := mk_log {
  size : Z;
  count : Z;
  front : Z;
  back : Z;
  entries : list raft_entry
}.
#[export] Instance log_private_fields : FieldsOf log_private :=
  λ r, mk_log (size r) (count r) (front r) (back r) (entries r).

Definition INITIAL_CAPACITY : Z := 10.

(** A state that holds a log. *)
Class HasLog (St : Type) := {
  the_log : St → log_private;
  put_log : log_private → St → St
}.

Class HasLogLaws (St : Type) `{HasLog St} := {
  the_put_log : ∀ l s, the_log (put_log l s) = l;
  put_the_log : ∀ s, put_log (the_log s) s = s;
  put_put_log : ∀ l l' s, put_log l (put_log l' s) = put_log l s
}.

(** The log callbacks of [raft_cbs_t]; [None] is a NULL pointer.  An offer
    callback may rewrite the entries it is given (it owns their memory), so it
    returns them. *)
Record log_cbs (St : Type) := mk_log_cbs {
  cb_log_offer : option (raft_entry → option raft_entry → Z → M St (Z * raft_entry));
  cb_log_offer_batch :
    option (list raft_entry → option raft_entry → Z → Z → M St (Z * list raft_entry));
  cb_log_poll : option (raft_entry → Z → M St Z);
  cb_log_poll_batch : option (list raft_entry → Z → Z → M St Z);
  cb_log_pop : option (raft_entry → Z → M St Z)
}.
Arguments mk_log_cbs {St} _ _ _ _ _.
Arguments cb_log_offer {St} _.
Arguments cb_log_offer_batch {St} _.
Arguments cb_log_poll {St} _.
Arguments cb_log_poll_batch {St} _.
Arguments cb_log_pop {St} _.

(** [log_new]. *)
Definition log_new : log_private :=
  {| size := INITIAL_CAPACITY; count := 0; front := 0; back := 0;
     entries := replicate (Z.to_nat INITIAL_CAPACITY) zero_entry |}.

Section operations.
Context {St : Type} `{HasLog St} (cb : log_cbs St).

Definition get_log : M St log_private := gets the_log.
Definition update_log (f : log_private → log_private) : M St () :=
  modify (λ s, put_log (f (the_log s)) s).

(** [REL_POS(_i, _s)]. *)
Definition REL_POS (i s : Z) : M St Z := irem i s.

(** The copy loop of the two capacity routines: [n] rounds from index [i]. *)
Fixpoint copy_loop (n : nat) (i : Z) (me : log_private) (temp : list raft_entry)
  : M St (list raft_entry) :=
  match n with
  | O => mret temp
  | S n' =>
    size2 ← imul 2 (size me);
    dst ← REL_POS i size2;
    src ← REL_POS i (size me);
    e ← aget (entries me) src;
    temp' ← aset temp dst e;
    copy_loop n' (i + 1) me temp'
  end.

(** One doubling of the ring. *)
Definition grow : M St () :=
  me ← get_log;
  let temp := replicate (Z.to_nat (size me * 2)) zero_entry in
  temp' ← copy_loop (Z.to_nat (back me - front me)) (front me) me temp;
  size' ← imul (size me) 2;
  update_log (λ l, l <| size := size' |> <| entries := temp' |>).

Definition ensurecapacity : M St () :=
  me ← get_log;
  if count me <? size me then mret tt else grow.

Fixpoint ensurecapacity_batch_loop (fuel : nat) (cnt : Z) : M St () :=
  me ← get_log;
  need ← iadd (count me) cnt;
  if need >? size me then
    match fuel with
    | O => fail Hang
    | S n => grow ;; ensurecapacity_batch_loop n cnt
    end
  else mret tt.

Definition ensurecapacity_batch (cnt : Z) : M St () :=
  me ← get_log;
  need ← iadd (count me) cnt;
  if need <=? size me then mret tt
  else ensurecapacity_batch_loop (Z.to_nat need) cnt.

Definition log_clear : M St () :=
  update_log (λ l, l <| count := 0 |> <| back := 0 |> <| front := 0 |>).

(** The entry before [back], as both append routines compute it. *)
Definition log_prev (me : log_private) : M St (option raft_entry) :=
  if back me >? 0 then
    p ← isub (back me) 1;
    i ← REL_POS p (size me);
    e ← aget (entries me) i;
    mret (Some e)
  else mret None.

Definition log_append_entry (c : raft_entry) : M St Z :=
  ensurecapacity ;;
  '(retval, c') ←
    (match cb_log_offer cb with
     | Some log_offer =>
       me ← get_log;
       prev ← log_prev me;
       log_offer c prev (back me)
     | None => mret (0, c)
     end);
  me ← get_log;
  i ← REL_POS (back me) (size me);
  es ← aset (entries me) i c';
  count' ← iadd (count me) 1;
  back' ← iadd (back me) 1;
  update_log (λ l, l <| entries := es |> <| count := count' |> <| back := back' |>) ;;
  mret retval.

(** The batch copied behind [back], in two parts when it crosses the end of the
    array. *)
Definition batch_write (me : log_private) (c : list raft_entry) (cnt : Z)
  : M St (list raft_entry) :=
  bc ← iadd (back me) cnt;
  last ← isub bc 1;
  plast ← REL_POS last (size me);
  pback ← REL_POS (back me) (size me);
  if plast >=? pback then memcpy (entries me) pback c cnt
  else
    let part1 := size me - pback in
    es1 ← memcpy (entries me) pback c part1;
    memcpy es1 0 (drop (Z.to_nat part1) c) (cnt - part1).

(** The result carries the entries as the callback left them: the caller's
    array is the same memory. *)
Definition log_append_batch (c : list raft_entry) (cnt : Z) : M St (Z * list raft_entry) :=
  ensurecapacity_batch cnt ;;
  '(retval, c') ←
    (match cb_log_offer_batch cb with
     | Some log_offer_batch =>
       me ← get_log;
       prev ← log_prev me;
       log_offer_batch c prev (back me) cnt
     | None => mret (0, c)
     end);
  me ← get_log;
  es ← batch_write me c' cnt;
  count' ← iadd (count me) cnt;
  back' ← iadd (back me) cnt;
  update_log (λ l, l <| entries := es |> <| count := count' |> <| back := back' |>) ;;
  mret (retval, c').

(** [log_get_from_idx]: [Some] of the [*n_etys] entries the returned pointer
    addresses, [None] for NULL with [*n_etys = 0]. *)
Definition log_get_from_idx (idx : Z) : M St (option (list raft_entry)) :=
  me ← get_log;
  if idx =? 0 then mret None else
  idx' ← isub idx 1;
  if (front me >? idx') || (idx' >=? back me) then mret None else
  i ← REL_POS idx' (size me);
  bk ← REL_POS (back me) (size me);
  let logs_till_end_of_log := if i <? bk then bk - i else size me - i in
  mret (Some (take (Z.to_nat logs_till_end_of_log) (drop (Z.to_nat i) (entries me)))).

Definition log_get_at_idx (idx : Z) : M St (option raft_entry) :=
  me ← get_log;
  if idx =? 0 then mret None else
  idx' ← isub idx 1;
  if (front me >? idx') || (idx' >=? back me) then mret None else
  i ← REL_POS idx' (size me);
  e ← aget (entries me) i;
  mret (Some e).

Definition log_count : M St Z := gets (λ s, count (the_log s)).

(** [while(me->back != idx)]: one round pops the youngest entry. *)
Fixpoint log_delete_loop (fuel : nat) (idx : Z) : M St () :=
  me ← get_log;
  if back me =? idx then mret tt else
  match fuel with
  | O => fail Hang
  | S n =>
    back' ← isub (back me) 1;
    update_log (λ l, l <| back := back' |>) ;;
    (match cb_log_pop cb with
     | Some log_pop =>
       me ← get_log;
       i ← REL_POS (back me) (size me);
       e ← aget (entries me) i;
       log_pop e (back me) ;; mret tt
     | None => mret tt
     end) ;;
    me ← get_log;
    count' ← isub (count me) 1;
    update_log (λ l, l <| count := count' |>) ;;
    log_delete_loop n idx
  end.

(** [log_delete]; the loop runs [back - (idx - 1)] rounds.  When
    [idx - 1 > back] it leaves the array below index 0 (or, with no callback,
    overflows [back]), which the model reports at once. *)
Definition log_delete (idx : Z) : M St () :=
  idx' ← isub idx 1;
  me ← get_log;
  if back me <? idx' then fail UB
  else log_delete_loop (Z.to_nat (back me - idx')) idx'.

(** The callback sees the polled entries in one or two runs, as they lie in the
    array. *)
Definition poll_batch_calls (me : log_private) (cnt : Z) : M St () :=
  match cb_log_poll_batch cb with
  | Some poll_batch =>
    fc ← iadd (front me) cnt;
    last ← isub fc 1;
    plast ← REL_POS last (size me);
    pfront ← REL_POS (front me) (size me);
    if plast >=? pfront then
      poll_batch (drop (Z.to_nat pfront) (entries me)) (front me) cnt ;; mret tt
    else
      let part1 := size me - pfront in
      poll_batch (drop (Z.to_nat pfront) (entries me)) (front me) part1 ;;
      poll_batch (entries me) (front me + part1) (cnt - part1) ;; mret tt
  | None => mret tt
  end.

Definition log_poll_batch (cnt : Z) : M St () :=
  n ← log_count;
  let cnt := if cnt >? n then n else cnt in
  me ← get_log;
  poll_batch_calls me cnt ;;
  me ← get_log;
  front' ← iadd (front me) cnt;
  count' ← isub (count me) cnt;
  update_log (λ l, l <| front := front' |> <| count := count' |>).

Definition log_poll : M St Z :=
  n ← log_count;
  if n =? 0 then mret 0 else
  me ← get_log;
  i ← REL_POS (front me) (size me);
  elem ← aget (entries me) i;
  e ← (match cb_log_poll cb with
       | Some poll => poll elem (front me)
       | None => mret 0
       end);
  me ← get_log;
  front' ← iadd (front me) 1;
  count' ← isub (count me) 1;
  update_log (λ l, l <| front := front' |> <| count := count' |>) ;;
  mret e.

Definition log_peektail : M St (option raft_entry) :=
  n ← log_count;
  if n =? 0 then mret None else
  me ← get_log;
  p ← isub (back me) 1;
  i ← REL_POS p (size me);
  e ← aget (entries me) i;
  mret (Some e).

Definition log_empty : M St () :=
  update_log (λ l, l <| front := 0 |> <| back := 0 |> <| count := 0 |>).

Definition log_get_current_idx : M St Z := gets (λ s, back (the_log s)).
End operations.

(** ** Representation *)

(** The ring is well formed: the live indices [front..back) fit the array and
    [int]. *)
Record log_wf (l : log_private) : Prop := {
  wf_size : 0 < size l ≤ INT_MAX;
  wf_length : Z.of_nat (length (entries l)) = size l;
  wf_front : 0 ≤ front l ≤ back l;
  wf_back : back l ≤ INT_MAX;
  wf_count : count l = back l - front l;
  wf_fits : count l ≤ size l
}.

(** [l] stores exactly [es], oldest first. *)
Record log_rep (l : log_private) (es : list raft_entry) : Prop := {
  rep_wf : log_wf l;
  rep_length : Z.of_nat (length es) = count l;
  rep_lookup : ∀ k, 0 ≤ k < count l →
    zlookup (entries l) ((front l + k) mod size l) = zlookup es k
}.

(** Executable reading of the ring, for witnesses. *)
Definition log_contents (l : log_private) : list raft_entry :=
  omap (λ k, zlookup (entries l) ((front l + Z.of_nat k) mod size l))
    (seq 0 (Z.to_nat (count l))).

(** Deciding the representation of a concrete ring. *)
Lemma log_rep_decide l es :
  log_wf l → Z.of_nat (length es) = count l →
  bool_decide (Forall (λ k, zlookup (entries l) ((front l + k) mod size l) = zlookup es k)
    (seqZ 0 (count l))) = true →
  log_rep l es.
Proof.
  intros Hwf Hlen Hb. split; [done..|]. intros k Hk.
  apply bool_decide_eq_true, Forall_forall with (x := k) in Hb; [done|].
  apply elem_of_seqZ. lia.
Qed.

Lemma log_rep_range l es :
  log_rep l es →
  0 < size l ≤ INT_MAX ∧ Z.of_nat (length (entries l)) = size l
  ∧ 0 ≤ front l ≤ back l ∧ back l ≤ INT_MAX ∧ count l = back l - front l
  ∧ count l ≤ size l ∧ Z.of_nat (length es) = count l.
Proof. intros [[] ? ?]. lia. Qed.

(** [rep_facts H] puts the arithmetic content of [H : log_rep l es] in the
    context. *)
Ltac rep_facts H :=
  let F := fresh "F" in
  pose proof (log_rep_range _ _ H) as F;
  destruct F as ([? ?] & ? & [? ?] & ? & ? & ? & ?).

(** An index in [front..back) holds the expected entry. *)
Lemma log_rep_at l es i :
  log_rep l es → front l ≤ i < back l →
  ∃ e, zlookup (entries l) (i mod size l) = Some e ∧ zlookup es (i - front l) = Some e.
Proof.
  intros H Hi. rep_facts H.
  pose proof (rep_lookup _ _ H (i - front l) ltac:(lia)) as Hl.
  replace (front l + (i - front l)) with i in Hl by lia.
  destruct (proj2 (zlookup_is_Some es (i - front l)) ltac:(lia)) as [e He].
  rewrite He in Hl. eauto.
Qed.

(** Two representations of the same live window agree. *)
Lemma log_rep_inj l es es' : log_rep l es → log_rep l es' → es = es'.
Proof.
  intros H H'. rep_facts H. rep_facts H'.
  apply zlookup_ext; [lia|]. intros i Hi.
  rewrite <- (rep_lookup _ _ H), <- (rep_lookup _ _ H') by lia. done.
Qed.

Lemma log_new_rep : log_rep log_new [].
Proof. split; [split; vm_compute; intuition congruence|done|simpl; lia]. Qed.

(** The callback contract: [J f es s] says that the callbacks' own state in
    [s] mirrors the log [es] that starts at index [f].  Offering, popping and
    polling keep the mirror in step, do not touch the ring and rewrite at most
    the identifier and addresses of an entry; [E] bounds the faults they may
    raise. *)
Definition same_entry (c c' : raft_entry) : Prop :=
  term c' = term c ∧ type c' = type c ∧ data_len c' = data_len c.

Section runs.
Context {St : Type} `{HasLog St} (cb : log_cbs St).
Definition run_offer (c : raft_entry) (prev : option raft_entry) (i : Z)
  : M St (Z * raft_entry) :=
  match cb_log_offer cb with Some f => f c prev i | None => mret (0, c) end.
Definition run_offer_batch (c : list raft_entry) (prev : option raft_entry) (i n : Z)
  : M St (Z * list raft_entry) :=
  match cb_log_offer_batch cb with Some f => f c prev i n | None => mret (0, c) end.
Definition run_poll (e : raft_entry) (i : Z) : M St Z :=
  match cb_log_poll cb with Some f => f e i | None => mret 0 end.
Definition run_poll_batch (es : list raft_entry) (i n : Z) : M St Z :=
  match cb_log_poll_batch cb with Some f => f es i n | None => mret 0 end.
Definition run_pop (e : raft_entry) (i : Z) : M St Z :=
  match cb_log_pop cb with Some f => f e i | None => mret 0 end.
End runs.

Class LogMirror {St : Type} `{HasLog St} (cb : log_cbs St) (E : fault → Prop)
    (J : Z → list raft_entry → St → Prop) : Prop := {
  mirror_put : ∀ f es l s, J f es s → J f es (put_log l s);
  mirror_offer : ∀ c prev f es s,
    J f es s → (es ≠ [] → prev = last es) →
    wp (run_offer cb c prev (f + Z.of_nat (length es))) E
      (λ rc s', the_log s' = the_log s ∧ same_entry c rc.2 ∧ J f (es ++ [rc.2]) s') s;
  mirror_offer_batch : ∀ c prev f es s,
    J f es s → (es ≠ [] → prev = last es) → c ≠ [] →
    wp (run_offer_batch cb c prev (f + Z.of_nat (length es)) (Z.of_nat (length c))) E
      (λ rc s', the_log s' = the_log s ∧ Forall2 same_entry c rc.2 ∧ J f (es ++ rc.2) s') s;
  mirror_poll : ∀ e f es s,
    J f (e :: es) s →
    wp (run_poll cb e f) E (λ _ s', the_log s' = the_log s ∧ J (f + 1) es s') s;
  mirror_poll_batch : ∀ (ptr : list raft_entry) n f es s,
    J f es s → 0 < n ≤ Z.of_nat (length ptr) → n ≤ Z.of_nat (length es) →
    take (Z.to_nat n) ptr = take (Z.to_nat n) es →
    wp (run_poll_batch cb ptr f n) E
      (λ _ s', the_log s' = the_log s ∧ J (f + n) (drop (Z.to_nat n) es) s') s;
  mirror_pop : ∀ e f es s,
    J f (es ++ [e]) s →
    wp (run_pop cb e (f + Z.of_nat (length es))) E
      (λ _ s', the_log s' = the_log s ∧ J f es s') s
}.

(** ** Correctness of the routines *)
Section correctness.
Context {St : Type} `{!HasLog St, !HasLogLaws St}.
Context (cb : log_cbs St) (E : fault → Prop) (J : Z → list raft_entry → St → Prop).
Context `{!LogMirror cb E J}.
Implicit Types (s : St) (l : log_private) (es : list raft_entry).

Lemma wp_update_log (f : log_private → log_private) E' Q s :
  wp (update_log f) E' Q s ↔ Q tt (put_log (f (the_log s)) s).
Proof. done. Qed.

Lemma wp_REL_POS i n E' Q s :
  0 ≤ i → 0 < n → wp (REL_POS i n) E' Q s ↔ Q (i mod n) s.
Proof. apply wp_irem. Qed.

(** The copy loop moves the live window to its places in the larger array. *)
Lemma copy_loop_spec n i l es temp s :
  log_rep l es → 2 * size l ≤ INT_MAX →
  Z.of_nat (length temp) = 2 * size l →
  front l ≤ i → i + Z.of_nat n = back l →
  (∀ k, front l ≤ k < i →
    zlookup temp (k mod (2 * size l)) = zlookup es (k - front l)) →
  wp (copy_loop n i l temp) none
    (λ temp' s', s' = s ∧ Z.of_nat (length temp') = 2 * size l ∧
       ∀ k, front l ≤ k < back l →
         zlookup temp' (k mod (2 * size l)) = zlookup es (k - front l)) s.
Proof.
  intros Hrep Hmax. rep_facts Hrep. revert i temp.
  induction n as [|n IH]; intros i temp Hlen Hi Hn Hcopied; simpl.
  { rewrite wp_ret. split_and!; [done..|]. intros k Hk. apply Hcopied. lia. }
  destruct (log_rep_at _ _ i Hrep ltac:(lia)) as (e & He & Hes).
  rewrite wp_bind, wp_imul by int_range.
  rewrite wp_bind, wp_REL_POS by lia. rewrite wp_bind, wp_REL_POS by lia.
  rewrite wp_bind, (wp_aget _ _ e) by done.
  pose proof (Z.mod_pos_bound i (2 * size l) ltac:(lia)).
  rewrite wp_bind, wp_aset by lia.
  apply IH; [by rewrite length_zinsert|lia|lia|].
  intros k Hk. rewrite zlookup_zinsert by lia.
  destruct (Z.eqb_spec (k mod (2 * size l)) (i mod (2 * size l))) as [Heq|Hne].
  - apply mod_window_inj in Heq; [by subst|lia..].
  - apply Hcopied. destruct (decide (k = i)); [congruence|lia].
Qed.

Lemma grow_overflow (Q : () → St → Prop) s :
  INT_MAX < 2 * size (the_log s) → E UB → wp grow E Q s.
Proof.
  intros Hov HE. unfold grow, get_log, imul.
  assert (in_int (2 * size (the_log s)) = false) as H2
    by (apply not_true_is_false; int_range).
  assert (in_int (size (the_log s) * 2) = false) as H2' by (by rewrite Z.mul_comm).
  rewrite wp_bind, wp_gets, wp_bind. destruct (Z.to_nat _); simpl.
  - rewrite wp_ret, wp_bind, wp_int_of. by rewrite H2'.
  - unfold imul. rewrite !wp_bind, wp_int_of. by rewrite H2.
Qed.

Lemma grow_spec es s :
  log_rep (the_log s) es → 2 * size (the_log s) ≤ INT_MAX ∨ E UB →
  wp grow E
    (λ _ s', ∃ l', s' = put_log l' s ∧ log_rep l' es
       ∧ size l' = 2 * size (the_log s)
       ∧ front l' = front (the_log s) ∧ back l' = back (the_log s)) s.
Proof.
  intros Hrep Hor. rep_facts Hrep.
  destruct (decide (2 * size (the_log s) ≤ INT_MAX)) as [Hmax|].
  2: { apply grow_overflow; [lia|by destruct Hor]. }
  unfold grow, get_log. rewrite wp_bind, wp_gets, wp_bind.
  eapply wp_mono; [eapply copy_loop_spec; try done; try lia|done|].
  { rewrite length_replicate. lia. }
  intros temp' s' (-> & Hlen & Hcopy).
  rewrite wp_bind, wp_imul by int_range.
  rewrite wp_update_log. eexists. split_and!; [done| |simpl; lia|done|done].
  split; [split|..]; simpl; try lia.
  intros k Hk. replace (size (the_log s) * 2) with (2 * size (the_log s)) by lia.
  rewrite Hcopy by lia. f_equal. lia.
Qed.

Lemma ensurecapacity_spec es s :
  log_rep (the_log s) es → 2 * size (the_log s) ≤ INT_MAX ∨ E UB →
  wp ensurecapacity E
    (λ _ s', ∃ l', s' = put_log l' s ∧ log_rep l' es ∧ count l' < size l'
       ∧ front l' = front (the_log s) ∧ back l' = back (the_log s)) s.
Proof.
  intros Hrep Hmax. unfold ensurecapacity, get_log. rewrite wp_bind, wp_gets.
  rep_facts Hrep. destruct (Z.ltb_spec (count (the_log s)) (size (the_log s))).
  - rewrite wp_ret. exists (the_log s). rewrite put_the_log. done.
  - eapply wp_mono; [by apply grow_spec|done|].
    intros _ s' (l' & -> & Hrep' & ? & ? & ?). rep_facts Hrep'.
    exists l'. split_and!; try done; lia.
Qed.

(** Doubling stops: after [n] rounds the ring has grown by [n] at least. *)
Lemma ensurecapacity_batch_loop_spec fuel cnt es s :
  log_rep (the_log s) es → 0 ≤ cnt →
  count (the_log s) + cnt ≤ size (the_log s) + Z.of_nat fuel →
  2 * (count (the_log s) + cnt) ≤ INT_MAX ∨ E UB →
  wp (ensurecapacity_batch_loop fuel cnt) E
    (λ _ s', ∃ l', s' = put_log l' s ∧ log_rep l' es ∧ count l' + cnt ≤ size l'
       ∧ front l' = front (the_log s) ∧ back l' = back (the_log s)) s.
Proof.
  revert s. induction fuel as [|n IH]; intros s Hrep Hcnt Hfuel Hmax; simpl;
    rep_facts Hrep; unfold get_log; rewrite wp_bind, wp_gets;
    rewrite wp_bind; (apply wp_iadd_or; [destruct Hmax; [left; int_range|by right]|intros _]);
    rewrite Z.gtb_ltb;
    destruct (Z.ltb_spec (size (the_log s)) (count (the_log s) + cnt)); try lia.
  1, 3: rewrite wp_ret; exists (the_log s); rewrite put_the_log; split_and!; try done; lia.
  rewrite wp_bind. eapply wp_mono;
    [apply grow_spec; [done|destruct Hmax; [left; lia|by right]]|done|].
  intros _ s' (l' & -> & Hrep' & ? & ? & ?). rep_facts Hrep'.
  eapply wp_mono; [apply IH; rewrite ?the_put_log;
    [done|lia..|destruct Hmax; [left; lia|by right]]|done|].
  rewrite the_put_log. intros _ s' (l'' & -> & ? & ? & ? & ?).
  exists l''. rewrite put_put_log. split_and!; try done; lia.
Qed.

Lemma ensurecapacity_batch_spec cnt es s :
  log_rep (the_log s) es → 0 ≤ cnt → 2 * (count (the_log s) + cnt) ≤ INT_MAX ∨ E UB →
  wp (ensurecapacity_batch cnt) E
    (λ _ s', ∃ l', s' = put_log l' s ∧ log_rep l' es ∧ count l' + cnt ≤ size l'
       ∧ front l' = front (the_log s) ∧ back l' = back (the_log s)) s.
Proof.
  intros Hrep Hcnt Hmax. rep_facts Hrep. unfold ensurecapacity_batch, get_log.
  rewrite wp_bind, wp_gets, wp_bind.
  apply wp_iadd_or; [destruct Hmax; [left; int_range|by right]|intros _].
  destruct (Z.leb_spec (count (the_log s) + cnt) (size (the_log s))).
  - rewrite wp_ret. exists (the_log s). rewrite put_the_log. split_and!; done || lia.
  - apply ensurecapacity_batch_loop_spec; try done. lia.
Qed.

(** The predecessor handed to the offer callbacks. *)
Lemma log_prev_spec l es s :
  log_rep l es →
  wp (log_prev l) E (λ prev s', s' = s ∧ (es ≠ [] → prev = last es)) s.
Proof.
  intros Hrep. rep_facts Hrep. unfold log_prev. rewrite Z.gtb_ltb.
  destruct (Z.ltb_spec 0 (back l)).
  - rewrite wp_bind, wp_isub by int_range. rewrite wp_bind, wp_REL_POS by lia.
    pose proof (Z.mod_pos_bound (back l - 1) (size l) ltac:(lia)).
    destruct (proj2 (zlookup_is_Some (entries l) ((back l - 1) mod size l)) ltac:(lia))
      as [e He].
    rewrite wp_bind, (wp_aget _ _ e) by done. rewrite wp_ret. split; [done|].
    intros Hne. assert (length es ≠ 0%nat) by (by destruct es).
    destruct (log_rep_at _ _ (back l - 1) Hrep ltac:(lia)) as (e' & He' & Hes).
    rewrite last_lookup. rewrite He in He'. simplify_eq.
    rewrite zlookup_nonneg in Hes by lia. rewrite <- Hes. f_equal. lia.
  - rewrite wp_ret. split; [done|]. intros Hne. destruct es; simpl in *; [done|lia].
Qed.

(** Writing [c] at [back] in a ring with room appends it. *)
Lemma log_rep_push l es c :
  log_rep l es → count l < size l → back l + 1 ≤ INT_MAX →
  log_rep (l <| entries := zinsert (entries l) (back l mod size l) c |>
             <| count := count l + 1 |> <| back := back l + 1 |>) (es ++ [c]).
Proof.
  intros Hrep Hroom Hmax. rep_facts Hrep.
  pose proof (Z.mod_pos_bound (back l) (size l) ltac:(lia)).
  split; [split|..]; simpl; rewrite ?length_zinsert, ?length_app; simpl; try lia.
  intros k Hk. rewrite zlookup_zinsert by lia. rewrite zlookup_app.
  destruct (Z.eqb_spec ((front l + k) mod size l) (back l mod size l)) as [Heq|Hne].
  - apply mod_window_inj in Heq; [|lia..].
    destruct (Z.ltb_spec k (Z.of_nat (length es))); [lia|].
    by replace (k - Z.of_nat (length es)) with 0 by lia.
  - destruct (Z.ltb_spec k (Z.of_nat (length es))).
    + apply (rep_lookup _ _ Hrep). lia.
    + destruct Hne. f_equal. lia.
Qed.

Lemma log_append_entry_wp c es s :
  log_rep (the_log s) es → J (front (the_log s)) es s →
  (2 * size (the_log s) ≤ INT_MAX ∧ back (the_log s) + 1 ≤ INT_MAX) ∨ E UB →
  wp (log_append_entry cb c) E
    (λ _ s', ∃ c', same_entry c c' ∧ log_rep (the_log s') (es ++ [c'])
       ∧ front (the_log s') = front (the_log s) ∧ J (front (the_log s)) (es ++ [c']) s') s.
Proof.
  intros Hrep HJ Hmax. unfold log_append_entry. rewrite wp_bind.
  eapply wp_mono; [apply ensurecapacity_spec; [done|tauto]|done|].
  intros _ s1 (l & -> & Hrep1 & Hroom & Hf & Hb). rep_facts Hrep1.
  rewrite wp_bind.
  assert (wp (match cb_log_offer cb with
              | Some log_offer =>
                me ← get_log; prev ← log_prev me; log_offer c prev (back me)
              | None => mret (0, c)
              end) E
            (λ rc s2, the_log s2 = l ∧ same_entry c rc.2
               ∧ J (front (the_log s)) (es ++ [rc.2]) s2) (put_log l s)) as Hoffer.
  { pose proof (λ prev, mirror_offer c prev (front (the_log s)) es (put_log l s)
      (mirror_put _ _ l _ HJ)) as Hm.
    unfold run_offer in Hm. rewrite the_put_log in Hm.
    destruct (cb_log_offer cb) as [f|].
    - unfold get_log. rewrite wp_bind, wp_gets, the_put_log, wp_bind.
      eapply wp_mono; [by apply log_prev_spec|done|].
      intros prev s' (-> & Hprev).
      replace (back l) with (front (the_log s) + Z.of_nat (length es)) by lia. by apply Hm.
    - rewrite wp_ret. by apply (Hm (last es)). }
  eapply wp_mono; [apply Hoffer|done|]. intros [r c'] s2 (Hl & Hsame & HJ2). simpl in *.
  unfold get_log. rewrite wp_bind, wp_gets, Hl.
  rewrite wp_bind, wp_REL_POS by lia.
  pose proof (Z.mod_pos_bound (back l) (size l) ltac:(lia)).
  rewrite wp_bind, wp_aset by lia. rewrite wp_bind, wp_iadd by int_range.
  rewrite wp_bind. apply wp_iadd_or; [destruct Hmax as [[]|]; [left; int_range|by right]|].
  intros Hint%in_int_iff. rewrite wp_bind, wp_update_log, wp_ret, the_put_log, Hl.
  exists c'. split_and!; [done|apply log_rep_push; done || int_range|done|].
  by apply mirror_put.
Qed.

(** Writing a batch at [back], split at the end of the array, appends it. *)
Lemma log_rep_push_batch l es c arr :
  log_rep l es → c ≠ [] →
  count l + Z.of_nat (length c) ≤ size l → back l + Z.of_nat (length c) ≤ INT_MAX →
  Z.of_nat (length arr) = size l →
  (∀ i, 0 ≤ i < size l →
    zlookup arr i =
      if (back l mod size l <=? i) && (i <? back l mod size l + Z.of_nat (length c))
      then zlookup c (i - back l mod size l)
      else if i <? back l mod size l + Z.of_nat (length c) - size l
      then zlookup c (i + size l - back l mod size l)
      else zlookup (entries l) i) →
  log_rep (l <| entries := arr |> <| count := count l + Z.of_nat (length c) |>
             <| back := back l + Z.of_nat (length c) |>) (es ++ c).
Proof.
  intros Hrep Hne Hroom Hmax Hlen Harr. rep_facts Hrep.
  pose proof (Z.mod_pos_bound (back l) (size l) ltac:(lia)).
  split; [split|..]; simpl; rewrite ?length_app; try lia.
  intros k Hk. rewrite zlookup_app.
  pose proof (Z.mod_pos_bound (front l + k) (size l) ltac:(lia)).
  rewrite Harr by lia.
  destruct (Z.ltb_spec k (Z.of_nat (length es))).
  - rewrite <- (rep_lookup _ _ Hrep) by lia.
    pose proof (mod_add_window (size l) (front l + k) (back l - front l - k)
      ltac:(lia) ltac:(lia)) as Hm.
    replace (front l + k + (back l - front l - k)) with (back l) in Hm by lia.
    destruct ((front l + k) mod size l + (back l - front l - k) <? size l) eqn:?;
      destruct ((front l + k) mod size l + (back l - front l - k) <? 2 * size l) eqn:?;
      repeat case_match; try lia; done.
  - pose proof (mod_add_window (size l) (back l) (k - Z.of_nat (length es))
      ltac:(lia) ltac:(lia)) as Hm.
    replace (back l + (k - Z.of_nat (length es))) with (front l + k) in Hm by lia.
    destruct (back l mod size l + (k - Z.of_nat (length es)) <? size l) eqn:?;
      destruct (back l mod size l + (k - Z.of_nat (length es)) <? 2 * size l) eqn:?;
      repeat case_match; try lia; f_equal; lia.
Qed.

(** The two-part [memcpy] of [log_append_batch] computes that array. *)
Lemma batch_write_spec l es c s :
  log_rep l es → c ≠ [] →
  count l + Z.of_nat (length c) ≤ size l → back l + Z.of_nat (length c) ≤ INT_MAX ∨ E UB →
  wp (batch_write l c (Z.of_nat (length c))) E
    (λ arr s', s' = s
       ∧ log_rep (l <| entries := arr |> <| count := count l + Z.of_nat (length c) |>
                    <| back := back l + Z.of_nat (length c) |>) (es ++ c)
       ∧ back l + Z.of_nat (length c) ≤ INT_MAX) s.
Proof.
  intros Hrep Hne Hroom Hor. rep_facts Hrep.
  assert (length c ≠ 0%nat) by (by destruct c). unfold batch_write. rewrite wp_bind.
  apply wp_iadd_or; [destruct Hor; [left; int_range|by right]|intros Hint].
  assert (back l + Z.of_nat (length c) ≤ INT_MAX) as Hmax by int_range.
  rewrite wp_bind, wp_isub by int_range.
  rewrite wp_bind, wp_REL_POS by lia. rewrite wp_bind, wp_REL_POS by lia.
  pose proof (Z.mod_pos_bound (back l) (size l) ltac:(lia)).
  pose proof (mod_add_window (size l) (back l) (Z.of_nat (length c) - 1)
    ltac:(lia) ltac:(lia)) as Hm.
  replace (back l + (Z.of_nat (length c) - 1)) with (back l + Z.of_nat (length c) - 1)
    in Hm by lia.
  rewrite Hm, Z.geb_leb.
  destruct (Z.ltb_spec (back l mod size l + (Z.of_nat (length c) - 1)) (size l)).
  - replace (_ <=? _) with true by lia. rewrite wp_memcpy by lia. split_and!; [done| |done].
    apply log_rep_push_batch; try done; [by rewrite length_copied by lia|].
    intros i Hi. rewrite zlookup_copied by lia. repeat case_match; try lia; done.
  - replace (_ <=? _) with false by (destruct (_ <? 2 * size l) eqn:?; lia).
    rewrite wp_bind, wp_memcpy by lia.
    rewrite wp_memcpy by (rewrite ?length_copied, ?length_drop; lia). split_and!; [done| |done].
    apply log_rep_push_batch; try done.
    { rewrite !length_copied; rewrite ?length_copied, ?length_drop; lia. }
    intros i Hi. rewrite zlookup_copied by (rewrite ?length_copied, ?length_drop; lia).
    rewrite zlookup_copied by lia. rewrite zlookup_drop by lia.
    repeat case_match; try lia; try done; f_equal; lia.
Qed.

Lemma log_append_batch_wp c es s :
  log_rep (the_log s) es → J (front (the_log s)) es s → c ≠ [] →
  (2 * (count (the_log s) + Z.of_nat (length c)) ≤ INT_MAX
   ∧ back (the_log s) + Z.of_nat (length c) ≤ INT_MAX) ∨ E UB →
  wp (log_append_batch cb c (Z.of_nat (length c))) E
    (λ rc s', Forall2 same_entry c rc.2 ∧ log_rep (the_log s') (es ++ rc.2)
       ∧ front (the_log s') = front (the_log s) ∧ J (front (the_log s)) (es ++ rc.2) s') s.
Proof.
  intros Hrep HJ Hne Hmax. unfold log_append_batch. rewrite wp_bind.
  eapply wp_mono; [apply ensurecapacity_batch_spec; done || lia || tauto|done|].
  intros _ s1 (l & -> & Hrep1 & Hroom & Hf & Hb). rep_facts Hrep1.
  rewrite wp_bind.
  assert (wp (match cb_log_offer_batch cb with
              | Some log_offer_batch =>
                me ← get_log; prev ← log_prev me;
                log_offer_batch c prev (back me) (Z.of_nat (length c))
              | None => mret (0, c)
              end) E
            (λ rc s2, the_log s2 = l ∧ Forall2 same_entry c rc.2
               ∧ J (front (the_log s)) (es ++ rc.2) s2) (put_log l s)) as Hoffer.
  { pose proof (λ prev, mirror_offer_batch c prev (front (the_log s)) es (put_log l s)
      (mirror_put _ _ l _ HJ)) as Hm.
    unfold run_offer_batch in Hm. rewrite the_put_log in Hm.
    destruct (cb_log_offer_batch cb) as [f|].
    - unfold get_log. rewrite wp_bind, wp_gets, the_put_log, wp_bind.
      eapply wp_mono; [by apply log_prev_spec|done|].
      intros prev s' (-> & Hprev).
      replace (back l) with (front (the_log s) + Z.of_nat (length es)) by lia. by apply Hm.
    - rewrite wp_ret. by apply (Hm (last es)). }
  eapply wp_mono; [apply Hoffer|done|]. intros [r c'] s2 (Hl & Hsame & HJ2). simpl in *.
  unfold get_log. rewrite wp_bind, wp_gets, Hl.
  pose proof (Forall2_length _ _ _ Hsame) as Hlc. rewrite Hlc in *.
  assert (c' ≠ []) by (destruct c, c'; done).
  rewrite wp_bind. eapply wp_mono;
    [apply (batch_write_spec l es); try done; destruct Hmax; [left; lia|by right]|done|].
  intros arr s5 (-> & Hrep5 & Hback). rewrite wp_bind, wp_iadd by int_range.
  rewrite wp_bind, wp_iadd by int_range.
  rewrite wp_bind, wp_update_log, wp_ret, the_put_log, Hl.
  split_and!; [done..|]. by apply mirror_put.
Qed.

(** Lookup by the external, one-based index. *)
Lemma log_get_at_idx_wp idx es s :
  log_rep (the_log s) es → in_int (idx - 1) = true →
  wp (log_get_at_idx idx) none
    (λ o s', s' = s ∧ o = zlookup es (idx - 1 - front (the_log s))) s.
Proof.
  intros Hrep Hidx. rep_facts Hrep. unfold log_get_at_idx, get_log.
  rewrite wp_bind, wp_gets. destruct (Z.eqb_spec idx 0) as [->|Hne].
  { rewrite wp_ret. split; [done|]. symmetry. apply zlookup_None. lia. }
  rewrite wp_bind, wp_isub by done.
  destruct ((front (the_log s) >? idx - 1) || (idx - 1 >=? back (the_log s))) eqn:Hout.
  { rewrite wp_ret. split; [done|]. symmetry. apply zlookup_None. lia. }
  destruct (log_rep_at _ _ (idx - 1) Hrep ltac:(lia)) as (e & He & Hes).
  rewrite wp_bind, wp_REL_POS by lia. rewrite wp_bind, (wp_aget _ _ e) by done.
  rewrite wp_ret. split; [done|]. by rewrite Hes.
Qed.

(** The slice of the array behind [i] starts with the entries from [i] on. *)
Lemma log_rep_slice l es i n :
  log_rep l es → front l ≤ i → 0 ≤ n → i + n ≤ back l → i mod size l + n ≤ size l →
  take (Z.to_nat n) (drop (Z.to_nat (i mod size l)) (entries l))
  = take (Z.to_nat n) (drop (Z.to_nat (i - front l)) es).
Proof.
  intros Hrep Hi Hn Hin Hend. rep_facts Hrep.
  pose proof (Z.mod_pos_bound i (size l) ltac:(lia)).
  apply zlookup_ext; [rewrite !length_take, !length_drop; lia|].
  intros k Hk. rewrite length_take, length_drop in Hk.
  rewrite !zlookup_take, !zlookup_drop by lia.
  replace (k <? n) with true by lia. replace (0 <=? k) with true by lia.
  rewrite <- (rep_lookup _ _ Hrep) by lia. f_equal.
  pose proof (mod_add_window (size l) i k ltac:(lia) ltac:(lia)) as Hk'.
  replace (front l + (i - front l + k)) with (i + k) by lia. repeat case_match; lia.
Qed.

(** The run returned by [log_get_from_idx] is a non-empty prefix of the entries
    from [idx] on: it stops at [back] or at the end of the array. *)
Lemma log_get_from_idx_wp idx es s :
  log_rep (the_log s) es → in_int (idx - 1) = true →
  wp (log_get_from_idx idx) none
    (λ o s', s' = s ∧
       match o with
       | None => ¬ (front (the_log s) ≤ idx - 1 < back (the_log s))
       | Some run =>
         front (the_log s) ≤ idx - 1 < back (the_log s) ∧ run ≠ [] ∧
         run = take (length run) (drop (Z.to_nat (idx - 1 - front (the_log s))) es)
       end) s.
Proof.
  intros Hrep Hidx. rep_facts Hrep. unfold log_get_from_idx, get_log.
  rewrite wp_bind, wp_gets. set (l := the_log s) in *.
  destruct (Z.eqb_spec idx 0) as [->|Hne]; [rewrite wp_ret; split; [done|lia]|].
  rewrite wp_bind, wp_isub by done.
  destruct ((front l >? idx - 1) || (idx - 1 >=? back l)) eqn:Hout;
    [rewrite wp_ret; split; [done|lia]|].
  rewrite wp_bind, wp_REL_POS by lia. rewrite wp_bind, wp_REL_POS by lia.
  rewrite wp_ret. split; [done|]. split; [lia|].
  pose proof (Z.mod_pos_bound (idx - 1) (size l) ltac:(lia)).
  pose proof (Z.mod_pos_bound (back l) (size l) ltac:(lia)).
  pose proof (mod_add_window (size l) (idx - 1) (back l - (idx - 1))
    ltac:(lia) ltac:(lia)) as Hm.
  replace (idx - 1 + (back l - (idx - 1))) with (back l) in Hm by lia.
  set (i := (idx - 1) mod size l) in *. set (n := if i <? _ then _ else _).
  assert (0 < n ∧ i + n ≤ size l ∧ n ≤ back l - (idx - 1)) as (Hn0 & Hn1 & Hn2).
  { unfold n. repeat case_match; lia. }
  assert (length (take (Z.to_nat n) (drop (Z.to_nat i) (entries l))) = Z.to_nat n) as Hlen.
  { rewrite length_take, length_drop. lia. }
  split; [intros Hnil; rewrite Hnil in Hlen; simpl in Hlen; lia|].
  rewrite Hlen. apply log_rep_slice; try done; lia.
Qed.

Lemma log_rep_pop l es e :
  log_rep l (es ++ [e]) →
  zlookup (entries l) ((back l - 1) mod size l) = Some e
  ∧ back l - 1 = front l + Z.of_nat (length es)
  ∧ log_rep (l <| back := back l - 1 |> <| count := count l - 1 |>) es.
Proof.
  intros Hrep. rep_facts Hrep. rewrite length_app in *. simpl in *.
  destruct (log_rep_at _ _ (back l - 1) Hrep ltac:(lia)) as (e' & He' & Hes).
  rewrite zlookup_app in Hes.
  destruct (Z.ltb_spec (back l - 1 - front l) (Z.of_nat (length es))); [lia|].
  replace (back l - 1 - front l - Z.of_nat (length es)) with 0 in Hes by lia.
  cbv in Hes. simplify_eq. split_and!; [done|lia|].
  split; [split|..]; simpl; try lia. intros k Hk.
  rewrite (rep_lookup _ _ Hrep) by lia. rewrite zlookup_app.
  destruct (Z.ltb_spec k (Z.of_nat (length es))); [done|lia].
Qed.

Lemma log_delete_loop_wp fuel idx es s :
  log_rep (the_log s) es → J (front (the_log s)) es s →
  front (the_log s) ≤ idx → back (the_log s) = idx + Z.of_nat fuel →
  wp (log_delete_loop cb fuel idx) E
    (λ _ s', log_rep (the_log s') (take (Z.to_nat (idx - front (the_log s))) es)
       ∧ front (the_log s') = front (the_log s)
       ∧ J (front (the_log s)) (take (Z.to_nat (idx - front (the_log s))) es) s') s.
Proof.
  revert es s. induction fuel as [|n IH]; intros es s Hrep HJ Hfront Hback;
    rep_facts Hrep; simpl; unfold get_log; rewrite wp_bind, wp_gets.
  { replace (_ =? _) with true by lia. rewrite wp_ret, take_ge by lia. done. }
  replace (_ =? _) with false by lia.
  destruct (exists_last (l := es)) as (es' & e & ->); [intros ->; simpl in *; lia|].
  destruct (log_rep_pop _ _ _ Hrep) as (He & Hpos & Hrep'). rewrite length_app in *.
  rewrite wp_bind, wp_isub by int_range. rewrite wp_bind, wp_update_log.
  set (l1 := the_log s <| back := back (the_log s) - 1 |>) in *.
  rewrite wp_bind.
  assert (wp (match cb_log_pop cb with
              | Some log_pop =>
                me ← gets the_log; i ← REL_POS (back me) (size me);
                e ← aget (entries me) i; log_pop e (back me) ;; mret tt
              | None => mret tt
              end) E (λ _ s', the_log s' = l1 ∧ J (front (the_log s)) es' s')
            (put_log l1 s)) as Hpop.
  { pose proof (mirror_pop e _ _ _ (mirror_put _ _ l1 _ HJ)) as Hm.
    rewrite the_put_log in Hm. unfold run_pop in Hm. rewrite <- Hpos in Hm.
    destruct (cb_log_pop cb) as [f|]; [|done].
    rewrite wp_bind, wp_gets, the_put_log. simpl.
    rewrite wp_bind, wp_REL_POS by lia. rewrite wp_bind, (wp_aget _ _ e) by done.
    rewrite wp_bind. eapply wp_mono; [exact Hm|done|]. done. }
  eapply wp_mono; [exact Hpop|done|]. clear Hpop. intros _ s1 (Hl1 & HJ1).
  rewrite wp_bind, wp_gets, wp_bind, Hl1. simpl. rewrite wp_isub by int_range.
  rewrite wp_bind, wp_update_log, Hl1.
  eapply wp_mono; [apply (IH es')|done|]; rewrite ?the_put_log; try done; try (simpl; lia).
  { by apply mirror_put. }
  simpl. intros _ s2 (? & ? & ?). rewrite take_app_le by lia. done.
Qed.

Lemma log_delete_wp idx es s :
  log_rep (the_log s) es → J (front (the_log s)) es s →
  front (the_log s) ≤ idx - 1 → idx - 1 ≤ back (the_log s) ∨ E UB →
  wp (log_delete cb idx) E
    (λ _ s', log_rep (the_log s') (take (Z.to_nat (idx - 1 - front (the_log s))) es)
       ∧ front (the_log s') = front (the_log s) ∧ idx - 1 ≤ back (the_log s)
       ∧ J (front (the_log s)) (take (Z.to_nat (idx - 1 - front (the_log s))) es) s') s.
Proof.
  intros Hrep HJ Hidx Hor. rep_facts Hrep. unfold log_delete. rewrite wp_bind.
  apply wp_isub_or; [destruct Hor; [left; int_range|by right]|intros _].
  unfold get_log. rewrite wp_bind, wp_gets.
  destruct (Z.ltb_spec (back (the_log s)) (idx - 1)).
  { rewrite wp_fail. by destruct Hor; [lia|]. }
  eapply wp_mono; [by apply log_delete_loop_wp; try done; lia|done|].
  intros _ s' (? & ? & ?). done.
Qed.

(** Dropping the [n] oldest entries. *)
Lemma log_rep_drop l es n :
  log_rep l es → 0 ≤ n ≤ count l →
  log_rep (l <| front := front l + n |> <| count := count l - n |>) (drop (Z.to_nat n) es).
Proof.
  intros Hrep Hn. rep_facts Hrep.
  split; [split|..]; simpl; rewrite ?length_drop; try lia.
  intros k Hk. rewrite zlookup_drop by lia. replace (0 <=? k) with true by lia.
  rewrite <- (rep_lookup _ _ Hrep) by lia. do 2 f_equal. lia.
Qed.

Lemma log_poll_wp e es s :
  log_rep (the_log s) (e :: es) → J (front (the_log s)) (e :: es) s →
  wp (log_poll cb) E
    (λ _ s', log_rep (the_log s') es ∧ front (the_log s') = front (the_log s) + 1
       ∧ J (front (the_log s) + 1) es s') s.
Proof.
  intros Hrep HJ. rep_facts Hrep. simpl in *. unfold log_poll, log_count, get_log.
  rewrite wp_bind, wp_gets. replace (_ =? _) with false by lia.
  rewrite wp_bind, wp_gets. rewrite wp_bind, wp_REL_POS by lia.
  pose proof (rep_lookup _ _ Hrep 0 ltac:(lia)) as He. rewrite Z.add_0_r in He.
  rewrite wp_bind, (wp_aget _ _ e) by done. rewrite wp_bind.
  eapply wp_mono; [apply (mirror_poll e _ _ _ HJ)|done|]. intros r s1 (Hl & HJ1).
  rewrite wp_bind, wp_gets, Hl. rewrite wp_bind, wp_iadd by int_range.
  rewrite wp_bind, wp_isub by int_range.
  rewrite wp_bind, wp_update_log, wp_ret, the_put_log, Hl. split_and!; [|done|].
  - apply (log_rep_drop _ _ 1 Hrep). lia.
  - by apply mirror_put.
Qed.

(** The batch callback sees the dropped entries in order, in one call or in two
    when they cross the end of the array. *)
Lemma poll_batch_calls_wp n es s :
  log_rep (the_log s) es → J (front (the_log s)) es s → 0 < n ≤ count (the_log s) →
  let me := the_log s in
  wp (poll_batch_calls cb me n) E
    (λ _ s', the_log s' = me ∧ J (front me + n) (drop (Z.to_nat n) es) s') s.
Proof.
  intros Hrep HJ Hn me. unfold me, poll_batch_calls. set (l := the_log s) in *. rep_facts Hrep.
  pose proof mirror_poll_batch as Hm. unfold run_poll_batch in Hm.
  destruct (cb_log_poll_batch cb) as [f|].
  2: { apply (Hm es n _ es s HJ); try done; lia. }
  rewrite wp_bind, wp_iadd by int_range. rewrite wp_bind, wp_isub by int_range.
  rewrite wp_bind, wp_REL_POS by lia. rewrite wp_bind, wp_REL_POS by lia.
  pose proof (Z.mod_pos_bound (front l) (size l) ltac:(lia)).
  pose proof (mod_add_window (size l) (front l) (n - 1) ltac:(lia) ltac:(lia)) as Hw.
  replace (front l + (n - 1)) with (front l + n - 1) in Hw by lia.
  rewrite Hw, Z.geb_leb.
  destruct (Z.ltb_spec (front l mod size l + (n - 1)) (size l)).
  - replace (_ <=? _) with true by lia. rewrite wp_bind.
    eapply wp_mono; [eapply Hm; try done|done|done].
    + rewrite length_drop. lia.
    + lia.
    + rewrite (log_rep_slice l es (front l) n) by (done || lia). by rewrite Z.sub_diag.
  - replace (_ <=? _) with false by (destruct (_ <? 2 * size l) eqn:?; lia).
    set (p := size l - front l mod size l) in *. rewrite wp_bind.
    eapply wp_mono; [apply (Hm _ _ _ _ _ HJ)|done|].
    + rewrite length_drop. lia.
    + lia.
    + rewrite (log_rep_slice l es (front l) p) by (done || lia). by rewrite Z.sub_diag.
    + intros _ s1 (Hl1 & HJ1). rewrite wp_bind.
      eapply wp_mono; [apply (Hm _ _ _ _ _ HJ1)|done|]; [lia|rewrite length_drop; lia| |].
      * assert ((front l + p) mod size l = 0) as Hz.
        { pose proof (mod_add_window (size l) (front l) p ltac:(lia) ltac:(lia)).
          repeat case_match; lia. }
        pose proof (log_rep_slice l es (front l + p) (n - p) Hrep) as Hs.
        rewrite Hz in Hs. simpl in Hs. rewrite drop_0 in Hs. rewrite Hs by lia.
        do 2 f_equal. lia.
      * intros _ s2 (Hl2 & HJ2). split; [by rewrite Hl2, Hl1|].
        rewrite drop_drop in HJ2.
        replace (front l + n) with (front l + p + (n - p)) by lia.
        by replace (Z.to_nat n) with (Z.to_nat p + Z.to_nat (n - p))%nat by lia.
Qed.

Lemma log_poll_batch_wp cnt es s :
  log_rep (the_log s) es → J (front (the_log s)) es s →
  0 < cnt → es ≠ [] →
  let n := Z.min cnt (count (the_log s)) in
  wp (log_poll_batch cb cnt) E
    (λ _ s', log_rep (the_log s') (drop (Z.to_nat n) es)
       ∧ front (the_log s') = front (the_log s) + n
       ∧ J (front (the_log s) + n) (drop (Z.to_nat n) es) s') s.
Proof.
  intros Hrep HJ Hcnt Hne n. rep_facts Hrep.
  assert (length es ≠ 0%nat) by (by destruct es).
  unfold log_poll_batch, log_count, get_log. rewrite wp_bind, wp_gets.
  replace (if cnt >? count (the_log s) then count (the_log s) else cnt) with n
    by (unfold n; rewrite Z.gtb_ltb; case_match; lia).
  rewrite wp_bind, wp_gets, wp_bind.
  eapply wp_mono; [apply (poll_batch_calls_wp n es); done || lia|done|].
  intros _ s1 (Hl & HJ1). rewrite wp_bind, wp_gets, Hl.
  rewrite wp_bind, wp_iadd by int_range. rewrite wp_bind, wp_isub by int_range.
  rewrite wp_update_log, the_put_log, Hl. split_and!; [|done|by apply mirror_put].
  apply log_rep_drop; [done|lia].
Qed.

Lemma log_peektail_wp es s :
  log_rep (the_log s) es →
  wp log_peektail none (λ o s', s' = s ∧ o = last es) s.
Proof.
  intros Hrep. rep_facts Hrep. unfold log_peektail, log_count, get_log.
  rewrite wp_bind, wp_gets. destruct (Z.eqb_spec (count (the_log s)) 0).
  { rewrite wp_ret. destruct es; [done|simpl in *; lia]. }
  rewrite wp_bind, wp_gets. rewrite wp_bind, wp_isub by int_range.
  rewrite wp_bind, wp_REL_POS by lia.
  destruct (log_rep_at _ _ (back (the_log s) - 1) Hrep) as (e & He & Hes); [lia|].
  rewrite wp_bind, (wp_aget _ _ e) by done. rewrite wp_ret. split; [done|].
  rewrite last_lookup, <- Hes, zlookup_nonneg by lia. f_equal. lia.
Qed.
End correctness.

(** ** Relations kept by the log routines

    A preorder that ignores the log object and is kept by the callbacks is kept
    by every routine. *)
Class LogFrame {St : Type} `{HasLog St} (cb : log_cbs St) (R : relation St) : Prop := {
  frame_preorder :: PreOrder R;
  frame_put : ∀ l s, R s (put_log l s);
  frame_offer : ∀ f, cb_log_offer cb = Some f → ∀ c p i, Pres R (f c p i);
  frame_offer_batch : ∀ f, cb_log_offer_batch cb = Some f → ∀ c p i n, Pres R (f c p i n);
  frame_poll : ∀ f, cb_log_poll cb = Some f → ∀ e i, Pres R (f e i);
  frame_poll_batch : ∀ f, cb_log_poll_batch cb = Some f → ∀ es i n, Pres R (f es i n);
  frame_pop : ∀ f, cb_log_pop cb = Some f → ∀ e i, Pres R (f e i)
}.
#[export] Hint Resolve frame_offer frame_offer_batch frame_poll frame_poll_batch frame_pop : pres.

Section frame.
Context {St : Type} `{!HasLog St} (R : relation St).

Section read.
Context `{!PreOrder R}.
Lemma pres_get_log : Pres R get_log.
Proof. apply pres_gets, _. Qed.
Lemma pres_REL_POS i n : Pres R (REL_POS i n).
Proof. apply pres_irem, _. Qed.
Lemma pres_log_count : Pres R log_count.
Proof. apply pres_gets, _. Qed.
Lemma pres_log_get_current_idx : Pres R log_get_current_idx.
Proof. apply pres_gets, _. Qed.
#[local] Hint Resolve pres_get_log pres_REL_POS : pres.
Lemma pres_log_get_from_idx i : Pres R (log_get_from_idx i).
Proof. unfold log_get_from_idx. pres. Qed.
Lemma pres_log_get_at_idx i : Pres R (log_get_at_idx i).
Proof. unfold log_get_at_idx. pres. Qed.
Lemma pres_log_prev l : Pres R (log_prev l).
Proof. unfold log_prev. pres. Qed.
Lemma pres_copy_loop n i l temp : Pres R (copy_loop n i l temp).
Proof. revert i temp. induction n; intros; simpl; pres. Qed.
Lemma pres_batch_write l c n : Pres R (batch_write l c n).
Proof. unfold batch_write. pres. Qed.
End read.

Context (cb : log_cbs St) `{!LogFrame cb R}.
#[local] Hint Resolve pres_get_log pres_REL_POS pres_log_count pres_log_prev pres_copy_loop
  pres_batch_write : pres.

Lemma pres_update_log f : Pres R (update_log f).
Proof. apply pres_modify. intros s. apply (frame_put (cb := cb)). Qed.
#[local] Hint Resolve pres_update_log : pres.

Lemma pres_grow : Pres R grow.
Proof. unfold grow. pres. Qed.
#[local] Hint Resolve pres_grow : pres.
Lemma pres_ensurecapacity : Pres R ensurecapacity.
Proof. unfold ensurecapacity. pres. Qed.
Lemma pres_ensurecapacity_batch_loop n c : Pres R (ensurecapacity_batch_loop n c).
Proof. induction n; simpl; pres. Qed.
#[local] Hint Resolve pres_ensurecapacity pres_ensurecapacity_batch_loop : pres.
Lemma pres_ensurecapacity_batch c : Pres R (ensurecapacity_batch c).
Proof. unfold ensurecapacity_batch. pres. Qed.
#[local] Hint Resolve pres_ensurecapacity_batch : pres.

Lemma pres_log_append_entry c : Pres R (log_append_entry cb c).
Proof. unfold log_append_entry. pres. Qed.
Lemma pres_log_append_batch c n : Pres R (log_append_batch cb c n).
Proof. unfold log_append_batch. pres. Qed.
Lemma pres_log_delete_loop n i : Pres R (log_delete_loop cb n i).
Proof. induction n; simpl; pres. Qed.
#[local] Hint Resolve pres_log_delete_loop : pres.
Lemma pres_log_delete i : Pres R (log_delete cb i).
Proof. unfold log_delete. pres. Qed.
Lemma pres_poll_batch_calls l n : Pres R (poll_batch_calls cb l n).
Proof. unfold poll_batch_calls. pres. Qed.
#[local] Hint Resolve pres_poll_batch_calls : pres.
Lemma pres_log_poll_batch n : Pres R (log_poll_batch cb n).
Proof. unfold log_poll_batch. pres. Qed.
Lemma pres_log_poll : Pres R (log_poll cb).
Proof. unfold log_poll. pres. Qed.
End frame.
#[export] Hint Resolve pres_log_count pres_log_get_current_idx pres_log_get_from_idx
  pres_log_get_at_idx pres_log_append_entry pres_log_append_batch pres_log_delete
  pres_log_poll_batch pres_log_poll : pres.

(** A callback environment that keeps a copy of the log, as the persistent log
    of [core/] does: it shows that the callback contract can be met, and the
    witnesses run on it. *)
Module Shadow.
Record shadow := mk_shadow { sh_log : log_private; sh_first : Z; sh_copy : list raft_entry }.
#[export] Instance shadow_fields : FieldsOf shadow :=
  λ r, mk_shadow (sh_log r) (sh_first r) (sh_copy r).
#[export] Instance shadow_has_log : HasLog shadow :=
  {| the_log := sh_log; put_log := λ l s, s <| sh_log := l |> |}.
#[export] Instance shadow_has_log_laws : HasLogLaws shadow.
Proof. split; by intros; repeat match goal with s : shadow |- _ => destruct s end. Qed.

Definition cbs : log_cbs shadow := {|
  cb_log_offer := Some (λ c _ _,
    modify (λ s, s <| sh_copy := sh_copy s ++ [c] |>) ;; mret (0, c));
  cb_log_offer_batch := Some (λ c _ _ n,
    modify (λ s, s <| sh_copy := sh_copy s ++ take (Z.to_nat n) c |>) ;; mret (0, c));
  cb_log_poll := Some (λ _ _,
    modify (λ s, s <| sh_copy := drop 1 (sh_copy s) |> <| sh_first := sh_first s + 1 |>) ;;
    mret 0);
  cb_log_poll_batch := Some (λ _ _ n,
    modify (λ s, s <| sh_copy := drop (Z.to_nat n) (sh_copy s) |>
                   <| sh_first := sh_first s + n |>) ;;
    mret 0);
  cb_log_pop := Some (λ _ _,
    modify (λ s, s <| sh_copy := take (length (sh_copy s) - 1) (sh_copy s) |>) ;; mret 0)
|}.

Definition in_step (f : Z) (es : list raft_entry) (s : shadow) : Prop :=
  sh_first s = f ∧ sh_copy s = es.

#[export] Instance shadow_mirror : LogMirror cbs none in_step.
Proof.
  unfold in_step, same_entry. split; simpl; unfold wp; simpl.
  - done.
  - intros c _ f es s [<- <-] _. done.
  - intros c _ f es s [<- <-] _ _. rewrite Nat2Z.id, firstn_all.
    split_and!; try done. by apply Forall_Forall2_diag, Forall_true.
  - intros e f es s [<- ->]. done.
  - intros ptr n f es s [<- <-] _ _ _. done.
  - intros e f es s [<- ->]. split_and!; try done.
    rewrite length_app. simpl. rewrite take_app_le by lia. apply take_ge. lia.
Qed.

(** A ring of three slots whose live window [2..4) wraps around the array. *)
Definition wrapped : shadow := {|
  sh_log := {| size := 3; count := 2; front := 2; back := 4;
    entries := [zero_entry <| term := 5 |>; zero_entry; zero_entry <| term := 4 |>] |};
  sh_first := 2;
  sh_copy := [zero_entry <| term := 4 |>; zero_entry <| term := 5 |>]
|}.

Lemma wrapped_rep : log_rep (the_log wrapped) (sh_copy wrapped).
Proof.
  split; [split; vm_compute; intuition congruence|done|].
  simpl. intros k Hk. assert (k = 0 ∨ k = 1) as [->| ->] by lia; done.
Qed.
End Shadow.

(** ** Properties of the log *)
Section properties.
Context {St : Type} `{!HasLog St, !HasLogLaws St}.
Context (cb : log_cbs St) (J : Z → list raft_entry → St → Prop).
Context `{!LogMirror cb none J}.
Implicit Types (s : St) (es : list raft_entry).

(** Appending an entry to a log that stores [es] always returns, grows the
    ring when it is full, and leaves a log that stores [es] and the entry (as
    the offer callback filled it in), with the callbacks' copy in step. *)
Theorem log_append_entry_refines c es s :
  log_rep (the_log s) es → J (front (the_log s)) es s →
  2 * size (the_log s) ≤ INT_MAX → back (the_log s) < INT_MAX →
  ∃ r s' c', log_append_entry cb c s = Ret r s' ∧ same_entry c c'
    ∧ log_rep (the_log s') (es ++ [c'])
    ∧ front (the_log s') = front (the_log s)
    ∧ J (front (the_log s)) (es ++ [c']) s'.
Proof.
  intros Hrep HJ ? ?.
  destruct (proj1 (wp_none_ret _ _ _)
    (log_append_entry_wp cb none J c es s Hrep HJ ltac:(left; lia)))
    as (r & s' & Hr & c' & Hpost).
  exists r, s', c'. tauto.
Qed.

(** C26: appending a non-empty batch always returns, doubles the ring until
    the batch fits, and leaves exactly the old entries followed by the batch,
    also when the batch wraps around the end of the array. *)
Theorem log_append_batch_refines c es s :
  log_rep (the_log s) es → J (front (the_log s)) es s → c ≠ [] →
  2 * (count (the_log s) + Z.of_nat (length c)) ≤ INT_MAX →
  back (the_log s) + Z.of_nat (length c) ≤ INT_MAX →
  ∃ r c' s', log_append_batch cb c (Z.of_nat (length c)) s = Ret (r, c') s'
    ∧ Forall2 same_entry c c' ∧ log_rep (the_log s') (es ++ c')
    ∧ front (the_log s') = front (the_log s)
    ∧ J (front (the_log s)) (es ++ c') s'.
Proof.
  intros Hrep HJ ? ? ?.
  destruct (proj1 (wp_none_ret _ _ _)
    (log_append_batch_wp cb none J c es s Hrep HJ ltac:(done) ltac:(left; lia)))
    as ([r c'] & s' & Hr & Hpost).
  exists r, c', s'. tauto.
Qed.

(** C29: the two lookups agree with the abstract log: [log_get_at_idx] returns
    the entry of that 1-based index or NULL outside the live window, and
    [log_get_from_idx] a non-empty run of consecutive entries that starts
    there, or NULL; neither changes the state. *)
Theorem log_lookups_correct idx es s :
  log_rep (the_log s) es → INT_MIN < idx ≤ INT_MAX →
  log_get_at_idx idx s = Ret (zlookup es (idx - 1 - front (the_log s))) s
  ∧ ∃ o, log_get_from_idx idx s = Ret o s
    ∧ match o with
      | None => zlookup es (idx - 1 - front (the_log s)) = None
      | Some run => run ≠ [] ∧
        run = take (length run) (drop (Z.to_nat (idx - 1 - front (the_log s))) es)
      end.
Proof.
  intros Hrep Hidx. assert (in_int (idx - 1) = true) as Hint by int_range. split.
  - destruct (proj1 (wp_none_ret _ _ _) (log_get_at_idx_wp idx es s Hrep Hint))
      as (o & s' & -> & -> & ->). done.
  - destruct (proj1 (wp_none_ret _ _ _) (log_get_from_idx_wp idx es s Hrep Hint))
      as (o & s' & Hr & Hs & Ho). subst s'.
    exists o. split; [done|]. rep_facts Hrep.
    destruct o; [by destruct Ho as (_ & ?)|]. apply zlookup_None. lia.
Qed.

(** C27: truncation [log_delete idx] keeps exactly the entries below [idx],
    popping the others youngest first, for every [idx] from just above the
    compacted prefix to just above the tail. *)
Theorem log_delete_refines idx es s :
  log_rep (the_log s) es → J (front (the_log s)) es s →
  front (the_log s) < idx ≤ back (the_log s) + 1 →
  let kept := take (Z.to_nat (idx - 1 - front (the_log s))) es in
  ∃ s', log_delete cb idx s = Ret tt s' ∧ log_rep (the_log s') kept
    ∧ front (the_log s') = front (the_log s) ∧ back (the_log s') = idx - 1
    ∧ J (front (the_log s)) kept s'.
Proof.
  intros Hrep HJ Hidx kept.
  destruct (proj1 (wp_none_ret _ _ _)
    (log_delete_wp cb none J idx es s Hrep HJ ltac:(lia) ltac:(left; lia)))
    as ([] & s' & Hr & Hrep' & Hf & _ & HJ').
  exists s'. split_and!; try done. rep_facts Hrep. rep_facts Hrep'.
  unfold kept in *. rewrite length_take in *. lia.
Qed.

(** C28: compaction [log_poll_batch cnt] of a non-empty log drops the
    [min cnt count] oldest entries and no other, showing them to the callback
    in order, also when they wrap around the end of the array. *)
Theorem log_poll_batch_refines cnt es s :
  log_rep (the_log s) es → J (front (the_log s)) es s → 0 < cnt → es ≠ [] →
  let n := Z.min cnt (Z.of_nat (length es)) in
  ∃ s', log_poll_batch cb cnt s = Ret tt s'
    ∧ log_rep (the_log s') (drop (Z.to_nat n) es)
    ∧ front (the_log s') = front (the_log s) + n ∧ back (the_log s') = back (the_log s)
    ∧ J (front (the_log s) + n) (drop (Z.to_nat n) es) s'.
Proof.
  intros Hrep HJ Hcnt Hne n. rep_facts Hrep. assert (n = Z.min cnt (count (the_log s))) as -> by lia.
  destruct (proj1 (wp_none_ret _ _ _)
    (log_poll_batch_wp cb none J cnt es s Hrep HJ Hcnt Hne)) as ([] & s' & Hr & Hrep' & Hf & HJ').
  exists s'. split_and!; try done. rep_facts Hrep'. rewrite length_drop in *. lia.
Qed.
End properties.

Import Shadow.

Lemma log_append_entry_refines_witness :
  ∃ r s' c', log_append_entry cbs zero_entry wrapped = Ret r s' ∧ same_entry zero_entry c'
    ∧ log_rep (the_log s') (sh_copy wrapped ++ [c'])
    ∧ front (the_log s') = 2 ∧ in_step 2 (sh_copy wrapped ++ [c']) s'.
Proof.
  refine (log_append_entry_refines cbs in_step zero_entry (sh_copy wrapped) wrapped
    wrapped_rep _ _ _);
    [done|vm_compute; congruence|done].
Defined.

Lemma log_append_batch_refines_witness :
  ∃ r c' s', log_append_batch cbs (replicate 5 zero_entry) 5 wrapped = Ret (r, c') s'
    ∧ Forall2 same_entry (replicate 5 zero_entry) c' ∧ log_rep (the_log s') (sh_copy wrapped ++ c')
    ∧ front (the_log s') = 2 ∧ in_step 2 (sh_copy wrapped ++ c') s'.
Proof.
  refine (log_append_batch_refines cbs in_step (replicate 5 zero_entry) (sh_copy wrapped) wrapped
    wrapped_rep _ _ _ _);
    [done|done|vm_compute; congruence..].
Defined.

Lemma log_lookups_correct_witness :
  log_get_at_idx 3 wrapped = Ret (Some (zero_entry <| term := 4 |>)) wrapped.
Proof.
  refine (proj1 (log_lookups_correct 3 (sh_copy wrapped) wrapped wrapped_rep _)).
  split; vm_compute; congruence.
Defined.

Lemma log_delete_refines_witness :
  ∃ s', log_delete cbs 4 wrapped = Ret tt s' ∧ log_rep (the_log s') [zero_entry <| term := 4 |>]
    ∧ front (the_log s') = 2 ∧ back (the_log s') = 3
    ∧ in_step 2 [zero_entry <| term := 4 |>] s'.
Proof.
  refine (log_delete_refines cbs in_step 4 (sh_copy wrapped) wrapped wrapped_rep _ _);
    [done|split; vm_compute; congruence].
Defined.

Lemma log_poll_batch_refines_witness :
  ∃ s', log_poll_batch cbs 7 wrapped = Ret tt s' ∧ log_rep (the_log s') []
    ∧ front (the_log s') = 4 ∧ back (the_log s') = 4 ∧ in_step 4 [] s'.
Proof.
  refine (log_poll_batch_refines cbs in_step 7 (sh_copy wrapped) wrapped wrapped_rep _ _ _);
    [done|lia|done].
Defined.
