(* ===== verification/RaftServer.v ===== *)
(** The Raft server: [raft/src/raft_server.c] and
    [raft/src/raft_server_properties.c].

    [server] is [raft_server_private_t]; the peers it points to live in a heap
    of references, so that [me->node], [me->nodes[i]], [me->current_leader] and
    the handlers' [node] argument alias as pointers do and a freed peer is
    undefined behaviour to use.  The handlers run in the monad of the prelude
    over [rstate W]: the server, the heap, the number of [rand()] calls so far
    and the world [W] the callbacks act on.  Callbacks are arbitrary
    computations on the whole state, [None] being a NULL function pointer. *)

From S2P Require Import Prelude RaftNode RaftLog.

(** [raft_server_private_t].  The members [nodes] and [num_nodes] are the list
    [nodes] and its length; [cb] and [udata] are the section's [cb] and the
    world.  The log object is embedded. *)
Record server := mk_server {
  current_term : Z;
  voted_for : Z;
  log : log_private;
  commit_idx : Z;
  last_applied_idx : Z;
  state : raft_state_e;
  timeout_elapsed : Z;
  log_base : Z;
  last_compacted_idx : Z;
  nodes : list nat;
  election_timeout : Z;
  request_timeout : Z;
  nack_timeout : Z;
  log_target : Z;
  preferred_leader : bool;
  current_leader : option nat;
  node : option nat;
  voting_cfg_change_log_idx : Z;
  multi_inflight : bool
}.
#[export] Instance server_fields : FieldsOf server :=
  λ r, mk_server (current_term r) (voted_for r) (log r) (commit_idx r) (last_applied_idx r)
         (state r) (timeout_elapsed r) (log_base r) (last_compacted_idx r) (nodes r)
         (election_timeout r) (request_timeout r) (nack_timeout r) (log_target r)
         (preferred_leader r) (current_leader r) (node r) (voting_cfg_change_log_idx r)
         (multi_inflight r).

Definition num_nodes (me : server) : Z := Z.of_nat (length (nodes me)).

(** [next_ref] is the next unused reference: addresses are never reused. *)
Record rstate (W : Type) := mk_rstate {
  srv : server;
  heap : gmap nat raft_node;
  next_ref : nat;
  rnd : nat;
  world : W
}.
Arguments mk_rstate {W} _ _ _ _ _.
Arguments srv {W} _.
Arguments heap {W} _.
Arguments next_ref {W} _.
Arguments rnd {W} _.
Arguments world {W} _.
#[export] Instance rstate_fields W : FieldsOf (rstate W) :=
  λ r, mk_rstate (srv r) (heap r) (next_ref r) (rnd r) (world r).

#[export] Instance rstate_has_log W : HasLog (rstate W) :=
  {| the_log := λ s, log (srv s);
     put_log := λ l s, s <| srv := srv s <| log := l |> |> |}.
#[export] Instance rstate_has_log_laws W : HasLogLaws (rstate W).
Proof. split; by intros; repeat match goal with s : rstate W |- _ => destruct s as [[]] end. Qed.

(** [raft_cbs_t] without the two debug printers and the unused
    [send_appendentries_response]; [cb_log] holds the five log callbacks. *)
Record raft_cbs (W : Type) := mk_raft_cbs {
  cb_send_requestvote : option (nat → msg_requestvote → M (rstate W) Z);
  cb_send_appendentries : option (nat → msg_appendentries → M (rstate W) Z);
  cb_applylog : option (raft_entry → Z → M (rstate W) Z);
  cb_setmatch : option (Z → Z → M (rstate W) Z);
  cb_persist_vote : option (Z → M (rstate W) Z);
  cb_persist_term : option (Z → M (rstate W) Z);
  cb_log : log_cbs (rstate W);
  cb_node_has_sufficient_logs : option (nat → M (rstate W) Z)
}.
Arguments mk_raft_cbs {W} _ _ _ _ _ _ _ _.
Arguments cb_send_requestvote {W} _.
Arguments cb_send_appendentries {W} _.
Arguments cb_applylog {W} _.
Arguments cb_setmatch {W} _.
Arguments cb_persist_vote {W} _.
Arguments cb_persist_term {W} _.
Arguments cb_log {W} _.
Arguments cb_node_has_sufficient_logs {W} _.

(** [raft_new]: [calloc]ed memory with the defaults filled in. *)
Definition raft_new : server := {|
  current_term := 0; voted_for := -1; log := log_new; commit_idx := 0;
  last_applied_idx := 0; state := RAFT_STATE_FOLLOWER; timeout_elapsed := 0;
  log_base := 0; last_compacted_idx := 0; nodes := []; election_timeout := 1000;
  request_timeout := 200; nack_timeout := 0; log_target := 10000;
  preferred_leader := false; current_leader := None; node := None;
  voting_cfg_change_log_idx := -1; multi_inflight := false
|}.

(** [raft_votes_is_majority]. *)
Definition raft_votes_is_majority (num_nodes nvotes : Z) : bool :=
  if num_nodes <? nvotes then false else num_nodes `quot` 2 + 1 <=? nvotes.

Section server.
Context {W : Type} (cb : raft_cbs W).
(** [rand n] is the value of the [n]-th call of [rand()]. *)
Context (rand : nat → Z).
Abbreviation R := (M (rstate W)).

Definition get_srv : R server := gets srv.
Definition upd_srv (f : server → server) : R () := modify (λ s, s <| srv := f (srv s) |>).

(** Reading and updating the peer behind a reference. *)
Definition get_peer (r : nat) : R raft_node := s ← get; deref (heap s !! r).
Definition upd_peer (r : nat) (f : raft_node → raft_node) : R () :=
  n ← get_peer r;
  modify (λ s, s <| heap := <[r := f n]> (heap s) |>).

Definition call_rand : R Z :=
  s ← get;
  modify (λ s, s <| rnd := S (rnd s) |>) ;;
  mret (rand (rnd s)).

(** [if (me->cb.f) me->cb.f(...)]. *)
Definition call {A} (f : option A) (k : A → R Z) : R () :=
  match f with Some g => k g ;; mret tt | None => mret tt end.

(** [for (i = 0; i < me->num_nodes; i++)] with body [body i me->nodes[i]]: the
    bound and the array are read again each round.  The fuel is the number of
    peers at loop entry, which is enough unless a callback run by the body adds
    peers. *)
Fixpoint for_nodes_loop (fuel : nat) (i : Z) (body : Z → nat → R ()) : R () :=
  me ← get_srv;
  if i <? num_nodes me then
    match fuel with
    | O => fail Hang
    | S n => r ← aget (nodes me) i; body i r ;; for_nodes_loop n (i + 1) body
    end
  else mret tt.
Definition for_nodes (body : Z → nat → R ()) : R () :=
  me ← get_srv; for_nodes_loop (length (nodes me)) 0 body.

(** ** [raft_server_properties.c] *)
Definition raft_set_election_timeout (millisec : Z) : R () :=
  upd_srv (λ me, me <| election_timeout := millisec |>).
Definition raft_set_request_timeout (millisec : Z) : R () :=
  upd_srv (λ me, me <| request_timeout := millisec |>).
Definition raft_set_nack_timeout (millisec : Z) : R () :=
  upd_srv (λ me, me <| nack_timeout := millisec |>).
Definition raft_set_log_target (target : Z) : R () :=
  upd_srv (λ me, me <| log_target := target |>).

Definition raft_get_nodeid : R Z :=
  me ← get_srv;
  match node me with
  | None => mret (-1)
  | Some r => n ← get_peer r; mret (raft_node_get_id n)
  end.

Fixpoint num_voting_loop (rs : list nat) (num : Z) : R Z :=
  match rs with
  | [] => mret num
  | r :: rs' => n ← get_peer r; num_voting_loop rs' (if raft_node_is_voting n then num + 1 else num)
  end.
Definition raft_get_num_voting_nodes : R Z :=
  me ← get_srv; num_voting_loop (nodes me) 0.

Definition raft_get_log_count : R Z := log_count.
Definition raft_get_current_idx : R Z := log_get_current_idx.

Definition raft_set_current_term (t : Z) : R () :=
  me ← get_srv;
  when (current_term me <? t)
    (upd_srv (λ me, me <| current_term := t |> <| voted_for := -1 |>) ;;
     call (cb_persist_term cb) (λ f, f t)).

Definition raft_set_commit_idx (idx : Z) : R () :=
  me ← get_srv;
  assert (commit_idx me <=? idx) ;;
  cur ← raft_get_current_idx;
  assert (idx <=? cur) ;;
  upd_srv (λ me, me <| commit_idx := idx |>).

Definition raft_set_last_applied_idx (idx : Z) : R () :=
  upd_srv (λ me, me <| last_applied_idx := idx |>).

Definition raft_set_state (st : raft_state_e) : R () :=
  when (bool_decide (st = RAFT_STATE_LEADER))
    (upd_srv (λ me, me <| current_leader := node me |>)) ;;
  upd_srv (λ me, me <| state := st |>).

Fixpoint find_node_loop (rs : list nat) (nodeid : Z) : R (option nat) :=
  match rs with
  | [] => mret None
  | r :: rs' =>
    n ← get_peer r;
    if nodeid =? raft_node_get_id n then mret (Some r) else find_node_loop rs' nodeid
  end.
Definition raft_get_node (nodeid : Z) : R (option nat) :=
  me ← get_srv; find_node_loop (nodes me) nodeid.

Fixpoint my_node_loop (rs : list nat) : R (option nat) :=
  match rs with
  | [] => mret None
  | r :: rs' =>
    nid ← raft_get_nodeid;
    n ← get_peer r;
    if nid =? raft_node_get_id n then mret (Some r) else my_node_loop rs'
  end.
Definition raft_get_my_node : R (option nat) :=
  me ← get_srv; my_node_loop (nodes me).

Definition raft_get_node_from_idx (idx : Z) : R nat :=
  me ← get_srv; aget (nodes me) idx.

Definition raft_get_current_leader : R Z :=
  me ← get_srv;
  match current_leader me with
  | Some r => n ← get_peer r; mret (raft_node_get_id n)
  | None => mret (-1)
  end.

Definition raft_is_state (st : raft_state_e) : R bool :=
  me ← get_srv; mret (bool_decide (state me = st)).
Definition raft_is_follower : R bool := raft_is_state RAFT_STATE_FOLLOWER.
Definition raft_is_leader : R bool := raft_is_state RAFT_STATE_LEADER.
Definition raft_is_candidate : R bool := raft_is_state RAFT_STATE_CANDIDATE.

Definition raft_get_entry_from_idx (etyidx : Z) : R (option raft_entry) :=
  log_get_at_idx etyidx.

Definition raft_get_last_log_term : R Z :=
  current_idx ← raft_get_current_idx;
  if 0 <? current_idx then
    ety ← raft_get_entry_from_idx current_idx;
    match ety with Some e => mret (i32 (term e)) | None => mret 0 end
  else mret 0.

(** ** [raft_server.c] *)
Definition raft_set_multi_inflight : R () := upd_srv (λ me, me <| multi_inflight := true |>).
Definition raft_unset_multi_inflight : R () := upd_srv (λ me, me <| multi_inflight := false |>).
Definition raft_set_preferred_leader : R () := upd_srv (λ me, me <| preferred_leader := true |>).
Definition raft_unset_preferred_leader : R () :=
  upd_srv (λ me, me <| preferred_leader := false |>).

Definition raft_become_follower : R () := raft_set_state RAFT_STATE_FOLLOWER.

Definition raft_clear : R () :=
  upd_srv (λ me, me <| current_term := 0 |> <| voted_for := -1 |> <| timeout_elapsed := 0 |>
                    <| voting_cfg_change_log_idx := -1 |>) ;;
  raft_set_state RAFT_STATE_FOLLOWER ;;
  upd_srv (λ me, me <| current_leader := None |> <| commit_idx := 0 |> <| log_base := 0 |>
                    <| last_applied_idx := 0 |> <| nodes := [] |> <| node := None |>
                    <| preferred_leader := false |>) ;;
  log_clear.

(** [assert(node)] holds by the type of the argument. *)
Definition raft_send_requestvote (peer : nat) : R Z :=
  me ← get_srv;
  assert (bool_decide (Some peer ≠ node me)) ;;
  last_log_idx ← raft_get_current_idx;
  last_log_term ← raft_get_last_log_term;
  candidate_id ← raft_get_nodeid;
  let rv := {| rv_term := current_term me; rv_candidate_id := candidate_id;
               rv_last_log_idx := last_log_idx; rv_last_log_term := last_log_term |} in
  call (cb_send_requestvote cb) (λ f, f peer rv) ;;
  mret 0.

Definition raft_get_entries_from_idx (idx : Z) : R (option (list raft_entry)) :=
  log_get_from_idx idx.

(** The message [raft_send_appendentries] builds for [next_idx]. *)
Definition make_appendentries (next_idx : Z) : R msg_appendentries :=
  me ← get_srv;
  etys ← raft_get_entries_from_idx next_idx;
  '(prev_log_idx, prev_log_term) ←
    (if 1 <? next_idx then
       prev ← raft_get_entry_from_idx (next_idx - 1);
       mret (next_idx - 1, match prev with Some e => i32 (term e) | None => -1 end)
     else mret (0, 0));
  mret {| ae_term := current_term me; ae_prev_log_idx := prev_log_idx;
          ae_prev_log_term := prev_log_term; ae_leader_commit := commit_idx me;
          ae_entries := default [] etys |}.

Definition raft_send_appendentries (peer : nat) : R Z :=
  me ← get_srv;
  assert (bool_decide (Some peer ≠ node me)) ;;
  match cb_send_appendentries cb with
  | None => mret 0
  | Some send_appendentries =>
    n ← get_peer peer;
    ae ← make_appendentries (raft_node_get_next_idx n);
    sent ← send_appendentries peer ae;
    me ← get_srv;
    (if multi_inflight me then
       n ← get_peer peer;
       next ← iadd (raft_node_get_next_idx n) sent;
       upd_peer peer (raft_node_set_next_idx next) ;;
       when (sent =? 0) (upd_peer peer (raft_node_set_elapsed 0))
     else upd_peer peer (raft_node_set_elapsed 0)) ;;
    mret sent
  end.

Definition raft_send_appendentries_all : R () :=
  upd_srv (λ me, me <| timeout_elapsed := 0 |>) ;;
  for_nodes (λ _ peer,
    me ← get_srv;
    when (bool_decide (node me ≠ Some peer)) (raft_send_appendentries peer ;; mret tt)).

(** The body of the loop of [raft_become_leader]. *)
Definition leader_announce (peer : nat) : R () :=
  me ← get_srv;
  if bool_decide (node me = Some peer) then mret tt else
  n ← get_peer peer;
  if negb (raft_node_is_voting n) then mret tt else
  cur ← raft_get_current_idx;
  next ← iadd cur 1;
  upd_peer peer (raft_node_set_next_idx next) ;;
  upd_peer peer (raft_node_set_match_idx 0) ;;
  raft_send_appendentries peer ;; mret tt.

Definition raft_become_leader : R () :=
  raft_set_state RAFT_STATE_LEADER ;;
  for_nodes (λ _ peer, leader_announce peer).

Definition raft_vote_for_nodeid (nodeid : Z) : R () :=
  upd_srv (λ me, me <| voted_for := nodeid |>) ;;
  call (cb_persist_vote cb) (λ f, f nodeid).

Definition raft_vote (peer : option nat) : R () :=
  nodeid ← (match peer with
            | Some r => n ← get_peer r; mret (raft_node_get_id n)
            | None => mret (-1)
            end);
  raft_vote_for_nodeid nodeid.

(** The body of the last loop of [raft_become_candidate]. *)
Definition candidate_ask (peer : nat) : R () :=
  me ← get_srv;
  if bool_decide (node me = Some peer) then mret tt else
  n ← get_peer peer;
  when (raft_node_is_voting n) (raft_send_requestvote peer ;; mret tt).

Definition raft_become_candidate : R () :=
  me ← get_srv;
  t ← iadd (current_term me) 1;
  raft_set_current_term t ;;
  for_nodes (λ _ peer, upd_peer peer (raft_node_vote_for_me false)) ;;
  me ← get_srv;
  raft_vote (node me) ;;
  upd_srv (λ me, me <| current_leader := None |>) ;;
  raft_set_state RAFT_STATE_CANDIDATE ;;
  x ← call_rand;
  me ← get_srv;
  elapsed ← irem x (election_timeout me);
  upd_srv (λ me, me <| timeout_elapsed := elapsed |>) ;;
  for_nodes (λ _ peer, candidate_ask peer).

Definition raft_election_start : R () := raft_become_candidate.

Definition compact_log : R () :=
  me ← get_srv;
  let target := log_base me in
  t2 ← imul 2 (log_target me);
  bound ← iadd (last_compacted_idx me) t2;
  if target <=? bound then mret tt else
  target ← iadd (last_compacted_idx me) (log_target me);
  cnt ← isub target (last_compacted_idx me);
  log_poll_batch (cb_log cb) cnt ;;
  upd_srv (λ me, me <| last_compacted_idx := target |>).

Definition raft_checkpoint (log_index : Z) : R () :=
  log_index ← iadd log_index 1;
  upd_srv (λ me, me <| log_base :=
    if log_index >? last_applied_idx me then last_applied_idx me else log_index |>).

Definition raft_apply_entry : R Z :=
  me ← get_srv;
  if last_applied_idx me =? commit_idx me then mret (-1) else
  log_idx ← iadd (last_applied_idx me) 1;
  o ← raft_get_entry_from_idx log_idx;
  match o with
  | None => mret (-1)
  | Some ety =>
    upd_srv (λ me, me <| last_applied_idx := last_applied_idx me + 1 |>) ;;
    e ← (match cb_applylog cb with
         | Some applylog => applylog ety (log_idx - 1)
         | None => mret 0
         end);
    if e =? RAFT_ERR_SHUTDOWN then mret RAFT_ERR_SHUTDOWN else
    me ← get_srv;
    when (log_idx =? voting_cfg_change_log_idx me)
      (upd_srv (λ me, me <| voting_cfg_change_log_idx := -1 |>)) ;;
    mret 0
  end.

(** [while(me->last_applied_idx < me->commit_idx) { if (-1 == raft_apply_entry(me_)) ... }]:
    [false] when the loop was left on [-1].  Every other round advances
    [last_applied_idx], which bounds the rounds by the distance at entry. *)
Fixpoint apply_loop_rounds (fuel : nat) : R bool :=
  me ← get_srv;
  if last_applied_idx me <? commit_idx me then
    match fuel with
    | O => fail Hang
    | S n =>
      e ← raft_apply_entry;
      if e =? -1 then mret false else apply_loop_rounds n
    end
  else mret true.
Definition apply_loop : R bool :=
  me ← get_srv; apply_loop_rounds (Z.to_nat (commit_idx me - last_applied_idx me)).

(** [raft_apply_all] does not look for [-1]: when [raft_apply_entry] finds no
    entry it changes nothing and the loop never ends. *)
Fixpoint apply_all_rounds (fuel : nat) : R Z :=
  me ← get_srv;
  if last_applied_idx me <? commit_idx me then
    match fuel with
    | O => fail Hang
    | S n =>
      e ← raft_apply_entry;
      if e =? RAFT_ERR_SHUTDOWN then mret RAFT_ERR_SHUTDOWN else apply_all_rounds n
    end
  else mret 0.
Definition raft_apply_all : R Z :=
  me ← get_srv; apply_all_rounds (Z.to_nat (commit_idx me - last_applied_idx me)).

(** The body of the leader's loop in [raft_periodic]. *)
Definition leader_tick (msec_since_last_period : Z) (peer : nat) : R () :=
  me ← get_srv;
  if bool_decide (node me = Some peer) then mret tt else
  n ← get_peer peer;
  el ← iadd (raft_node_get_elapsed n) msec_since_last_period;
  upd_peer peer (raft_node_set_elapsed el) ;;
  n ← get_peer peer;
  if raft_node_get_elapsed n >=? request_timeout me then
    raft_send_appendentries peer ;; mret tt
  else
    cur ← raft_get_current_idx;
    when (raft_node_get_next_idx n <=? cur) (raft_send_appendentries peer ;; mret tt).

Definition raft_periodic (msec_since_last_period : Z) : R Z :=
  me ← get_srv;
  elapsed ← iadd (timeout_elapsed me) msec_since_last_period;
  upd_srv (λ me, me <| timeout_elapsed := elapsed |>) ;;
  voting ← raft_get_num_voting_nodes;
  alone ← (if voting =? 1 then
             my ← raft_get_my_node;
             r ← deref my;
             n ← get_peer r;
             leader ← raft_is_leader;
             mret (raft_node_is_voting n && negb leader)
           else mret false);
  when alone raft_become_leader ;;
  me ← get_srv;
  (if bool_decide (state me = RAFT_STATE_LEADER) then
     upd_srv (λ me, me <| timeout_elapsed := 0 |>) ;;
     for_nodes (λ _ peer, leader_tick msec_since_last_period peer)
   else if election_timeout me <=? timeout_elapsed me then
     r ← deref (node me);
     n ← get_peer r;
     when (raft_node_is_voting n && (1 <? num_nodes me)) raft_election_start
   else mret tt) ;;
  applied ← apply_loop;
  if negb applied then mret (-1) else
  compact_log ;;
  mret 0.

(** The vote count of [raft_recv_appendentries_response]: peer [i] supports
    committing [point] when the entry at its match index is of the current term
    and [point] is covered. *)
Definition count_match (peer : nat) (point : Z) (votes : Z) (i : Z) (r : nat) : R Z :=
  me ← get_srv;
  if bool_decide (node me = Some r) then mret votes else
  n ← get_peer r;
  if negb (raft_node_is_voting n) then mret votes else
  let match_idx := raft_node_get_match_idx n in
  if 0 <? match_idx then
    ety ← raft_get_entry_from_idx match_idx;
    me ← get_srv;
    let votes := match ety with
                 | Some e => if (term e =? u32 (current_term me)) && (point <=? match_idx)
                             then votes + 1 else votes
                 | None => votes
                 end in
    when (bool_decide (peer = r)) (call (cb_setmatch cb) (λ f, f i (match_idx - 1))) ;;
    mret votes
  else mret votes.

Fixpoint count_match_loop (fuel : nat) (peer : nat) (point : Z) (votes : Z) (i : Z) : R Z :=
  me ← get_srv;
  if i <? num_nodes me then
    match fuel with
    | O => fail Hang
    | S n =>
      r ← aget (nodes me) i;
      votes ← count_match peer point votes i r;
      count_match_loop n peer point votes (i + 1)
    end
  else mret votes.

(** What a successful response does after the match index moved. *)
Definition update_commit (peer : nat) (point : Z) : R () :=
  me ← get_srv;
  votes ← count_match_loop (length (nodes me)) peer point 1 0;
  voting ← raft_get_num_voting_nodes;
  me ← get_srv;
  when ((voting `quot` 2 <? votes) && (commit_idx me <? point)) (raft_set_commit_idx point).

(** A success response in the current term. *)
Definition ae_acked (peer : nat) (r : msg_appendentries_response) : R Z :=
  me ← get_srv;
  cur ← raft_get_current_idx;
  assert (aer_current_idx r <=? cur) ;;
  rnext ← iadd (aer_current_idx r) 1;
  n ← get_peer peer;
  upd_peer peer (raft_node_set_next_idx
    (if rnext <? raft_node_get_next_idx n then raft_node_get_next_idx n else rnext)) ;;
  upd_peer peer (raft_node_set_match_idx (aer_current_idx r)) ;;
  n ← get_peer peer;
  (if negb (raft_node_is_voting n) && (voting_cfg_change_log_idx me =? -1)
      && (cur <=? rnext) && negb (raft_node_has_sufficient_logs n) then
     match cb_node_has_sufficient_logs cb with
     | Some f =>
       ok ← f peer;
       when (negb (ok =? 0)) (upd_peer peer raft_node_set_has_sufficient_logs)
     | None => mret tt
     end
   else mret tt) ;;
  update_commit peer (aer_current_idx r) ;;
  n ← get_peer peer;
  more ← raft_get_entry_from_idx (raft_node_get_next_idx n);
  when (bool_decide (is_Some more)) (raft_send_appendentries peer ;; mret tt) ;;
  apply_loop ;;
  mret 0.

Definition raft_recv_appendentries_response (peer : option nat) (r : msg_appendentries_response)
  : R Z :=
  match peer with
  | None => mret (-1)
  | Some peer =>
    n ← get_peer peer;
    if (aer_current_idx r <=? raft_node_get_match_idx n)
       && negb (raft_node_get_match_idx n =? 0) then mret 0 else
    leader ← raft_is_leader;
    if negb leader then mret (-1) else
    me ← get_srv;
    if current_term me <? aer_term r then
      raft_set_current_term (aer_term r) ;; raft_become_follower ;; mret 0
    else if negb (current_term me =? aer_term r) then mret 0
    else if aer_success r =? 0 then
      cur ← raft_get_current_idx;
      rnext ← iadd (aer_current_idx r) 1;
      upd_peer peer (raft_node_set_next_idx (if rnext <? cur then rnext else cur)) ;;
      n ← get_peer peer;
      assert (raft_node_get_match_idx n <? raft_node_get_next_idx n) ;;
      raft_send_appendentries peer ;;
      mret 0
    else
      ae_acked peer r
  end.

(** ** [raft_recv_appendentries] *)

(** [if(me->voting_cfg_change_log_idx != -1 && ... >= idx) ... = -1]. *)
Definition forget_cfg_change (idx : Z) : R () :=
  me ← get_srv;
  when (negb (voting_cfg_change_log_idx me =? -1) && (voting_cfg_change_log_idx me >=? idx))
    (upd_srv (λ me, me <| voting_cfg_change_log_idx := -1 |>)).

(** Truncation before [idx], guarded by the assertion that nothing committed
    goes. *)
Definition truncate_from (idx : Z) : R () :=
  me ← get_srv;
  assert (commit_idx me <? idx) ;;
  forget_cfg_change idx ;;
  log_delete (cb_log cb) idx.

(** The labels [fail_with_current_idx] and [fail]. *)
Definition ae_fail (rterm : Z) (cur : Z) : R (Z * msg_appendentries_response) :=
  mret (-1, {| aer_term := rterm; aer_success := 0; aer_current_idx := cur;
               aer_first_idx := 0 |}).
Definition ae_fail_with_current_idx (rterm : Z) : R (Z * msg_appendentries_response) :=
  cur ← raft_get_current_idx; ae_fail rterm cur.

(** Terms and roles: [Some t] is the response term when processing goes on,
    [None] the branch for a stale term.  In the middle branch of a non-voting
    server the source calls [log_delete(me_, 1)] on the server itself instead of
    [me->log], reading and writing the server's memory as a log: undefined. *)
Definition ae_term_check (ae : msg_appendentries) : R (option Z) :=
  me ← get_srv;
  if bool_decide (state me = RAFT_STATE_CANDIDATE) && (current_term me =? ae_term ae) then
    raft_become_follower ;; mret (Some (current_term me))
  else if current_term me <? ae_term ae then
    raft_set_current_term (ae_term ae) ;;
    raft_become_follower ;;
    me ← get_srv;
    r ← deref (node me);
    n ← get_peer r;
    if raft_node_is_voting n then mret (Some (ae_term ae)) else fail UB
  else if ae_term ae <? current_term me then mret None
  else mret (Some (current_term me)).

(** The consistency check on the previous entry: [None] to go on, [Some cur]
    to fail with that current index. *)
Definition ae_prev_check (ae : msg_appendentries) : R (option Z) :=
  me ← get_srv;
  if (0 <? ae_prev_log_idx ae) && (ae_prev_log_idx ae >=? log_base me) then
    o ← raft_get_entry_from_idx (ae_prev_log_idx ae);
    cur ← raft_get_current_idx;
    match o with
    | None => mret (Some cur)
    | Some e =>
      if cur <? ae_prev_log_idx ae then mret (Some cur)
      else if negb (term e =? u32 (ae_prev_log_term ae)) then
        truncate_from (ae_prev_log_idx ae) ;;
        mret (Some (ae_prev_log_idx ae - 1))
      else mret None
    end
  else mret None.

(** The loop over entries the log may already have: stops at the first missing
    or conflicting one, whose position it returns, and truncates there on a
    conflict. *)
Fixpoint ae_match_loop (prev : Z) (etys : list raft_entry) (i : Z) : R Z :=
  match etys with
  | [] => mret i
  | ety :: etys' =>
    p1 ← iadd prev 1;
    ety_index ← iadd p1 i;
    existing ← raft_get_entry_from_idx ety_index;
    match existing with
    | Some e =>
      if negb (term e =? term ety) then truncate_from ety_index ;; mret i
      else ae_match_loop prev etys' (i + 1)
    | None => mret i
    end
  end.

(** [me->cb.log_poll(NULL, NULL, &ae->entries[xxx], -1)] for the entries that
    were already in the log. *)
Fixpoint release_loop (etys : list raft_entry) : R () :=
  match etys with
  | [] => mret tt
  | ety :: etys' => call (cb_log_poll (cb_log cb)) (λ f, f ety (-1)) ;; release_loop etys'
  end.

(** The bookkeeping loop over the appended entries. *)
Fixpoint note_cfg_loop (idx : Z) (etys : list raft_entry) : R () :=
  match etys with
  | [] => mret tt
  | ety :: etys' =>
    when (raft_entry_is_voting_cfg_change ety)
      (upd_srv (λ me, me <| voting_cfg_change_log_idx := idx |>)) ;;
    note_cfg_loop (idx + 1) etys'
  end.

(** Step 4: [commitIndex = min(leaderCommit, max(current_idx, 1))]. *)
Definition follower_commit (leader_commit : Z) : R () :=
  me ← get_srv;
  when (commit_idx me <? leader_commit)
    (cur ← raft_get_current_idx;
     let last_log_idx := if cur <? 1 then 1 else cur in
     raft_set_commit_idx
       (if last_log_idx <? leader_commit then last_log_idx else leader_commit)).

(** Step 3 and the appends: drops what conflicts, keeps what is there, appends
    the rest.  Returns how many entries were already in the log, and the
    appended ones. *)
Definition ae_store (ae : msg_appendentries) : R (Z * list raft_entry) :=
  let prev := ae_prev_log_idx ae in
  let n := ae_n_entries ae in
  cur ← raft_get_current_idx;
  (if (n =? 0) && (0 <? prev) then
     p1 ← iadd prev 1;
     when (p1 <? cur) (truncate_from p1)
   else mret tt) ;;
  i ← ae_match_loop prev (ae_entries ae) 0;
  if i <? n then
    '(_, rest) ← log_append_batch (cb_log cb) (drop (Z.to_nat i) (ae_entries ae)) (n - i);
    mret (i, rest)
  else mret (i, []).

(** Everything after the consistency check.  [r->current_idx] ends as
    [prev_log_idx + n_entries] on every path through the loops. *)
Definition ae_accept (peer : option nat) (ae : msg_appendentries) (rterm : Z)
  : R (Z * msg_appendentries_response) :=
  let prev := ae_prev_log_idx ae in
  '(i, rest) ← ae_store ae;
  release_loop (take (Z.to_nat i) (ae_entries ae)) ;;
  note_cfg_loop (prev + 1 + i) rest ;;
  follower_commit (ae_leader_commit ae) ;;
  upd_srv (λ me, me <| current_leader := peer |>) ;;
  first ← iadd prev 1;
  mret (0, {| aer_term := rterm; aer_success := 1; aer_current_idx := prev + ae_n_entries ae;
              aer_first_idx := first |}).

Definition raft_recv_appendentries (peer : option nat) (ae : msg_appendentries)
  : R (Z * msg_appendentries_response) :=
  me ← get_srv;
  when (negb (preferred_leader me) || (0 <? ae_n_entries ae))
    (upd_srv (λ me, me <| timeout_elapsed := 0 |>)) ;;
  if ae_prev_log_term ae =? -1 then fail (Exit (-1)) else
  me ← get_srv;
  go ← ae_term_check ae;
  match go with
  | None => ae_fail_with_current_idx (current_term me)
  | Some rterm =>
    bad ← ae_prev_check ae;
    match bad with
    | Some cur => ae_fail rterm cur
    | None => ae_accept peer ae rterm
    end
  end.

(** ** Elections *)
Definition raft_already_voted : R bool := me ← get_srv; mret (negb (voted_for me =? -1)).

(** [__should_grant_vote]; [e->term] is unsigned, so the comparisons convert
    the message's term. *)
Definition should_grant_vote (vr : msg_requestvote) : R bool :=
  me ← get_srv;
  if rv_term vr <? current_term me then mret false else
  voted ← raft_already_voted;
  if voted : bool then mret false else
  current_idx ← raft_get_current_idx;
  if current_idx =? 0 then mret true else
  o ← raft_get_entry_from_idx current_idx;
  e ← deref o;
  if term e <? u32 (rv_last_log_term vr) then mret true
  else mret ((u32 (rv_last_log_term vr) =? term e) && (current_idx <=? rv_last_log_idx vr)).

(** The decision and the response, after the term was adopted. *)
Definition requestvote_reply (vr : msg_requestvote) : R (Z * msg_requestvote_response) :=
  grant ← should_grant_vote vr;
  (if grant then
     leader ← raft_is_leader;
     candidate ← raft_is_candidate;
     assert (negb (leader || candidate)) ;;
     raft_vote_for_nodeid (rv_candidate_id vr) ;;
     upd_srv (λ me, me <| current_leader := None |> <| timeout_elapsed := 0 |>)
   else mret tt) ;;
  me ← get_srv;
  mret (0, {| rvr_term := current_term me; rvr_vote_granted := if grant : bool then 1 else 0 |}).

Definition raft_recv_requestvote (vr : msg_requestvote) : R (Z * msg_requestvote_response) :=
  me ← get_srv;
  when (current_term me <? rv_term vr)
    (raft_set_current_term (rv_term vr) ;; raft_become_follower) ;;
  requestvote_reply vr.

Fixpoint nvotes_loop (rs : list nat) (votes : Z) : R Z :=
  match rs with
  | [] => mret votes
  | r :: rs' =>
    me ← get_srv;
    if bool_decide (node me = Some r) then nvotes_loop rs' votes else
    n ← get_peer r;
    nvotes_loop rs'
      (if raft_node_is_voting n && raft_node_has_vote_for_me n then votes + 1 else votes)
  end.
Definition raft_get_nvotes_for_me : R Z :=
  me ← get_srv;
  votes ← nvotes_loop (nodes me) 0;
  nodeid ← raft_get_nodeid;
  mret (if voted_for me =? nodeid then votes + 1 else votes).

Definition raft_recv_requestvote_response (peer : option nat) (r : msg_requestvote_response)
  : R Z :=
  candidate ← raft_is_candidate;
  if negb candidate then mret 0 else
  me ← get_srv;
  if current_term me <? rvr_term r then
    raft_set_current_term (rvr_term r) ;; raft_become_follower ;; mret 0
  else if negb (current_term me =? rvr_term r) then mret 0
  else
    (if rvr_vote_granted r =? 1 then
       (match peer with
        | Some p => upd_peer p (raft_node_vote_for_me true)
        | None => mret tt
        end) ;;
       votes ← raft_get_nvotes_for_me;
       me ← get_srv;
       when (raft_votes_is_majority (num_nodes me) votes) raft_become_leader
     else mret tt) ;;
    mret 0.

(** ** Client entries *)

(** One peer of the round: skipped unless it is another voting member. *)
Definition round_offer (r : nat) : R () :=
  me ← get_srv;
  if bool_decide (node me = Some r) then mret tt else
  p ← get_peer r;
  when (raft_node_is_voting p) (raft_send_appendentries r ;; mret tt).

(** The [do { ... } while(i != start)] round over the peers. *)
Fixpoint round_robin (fuel : nat) (start i : Z) : R () :=
  match fuel with
  | O => fail Hang
  | S n =>
    me ← get_srv;
    r ← aget (nodes me) i;
    round_offer r ;;
    me ← get_srv;
    i1 ← iadd i 1;
    i' ← irem i1 (num_nodes me);
    if i' =? start then mret tt else round_robin n start i'
  end.
Definition send_round : R () :=
  x ← call_rand;
  me ← get_srv;
  start ← irem x (num_nodes me);
  round_robin (length (nodes me)) start start.

(** [if (1 == me->num_nodes) me->commit_idx = raft_get_current_idx(me_)]. *)
Definition commit_if_alone : R () :=
  me ← get_srv;
  cur ← raft_get_current_idx;
  when (num_nodes me =? 1) (upd_srv (λ me, me <| commit_idx := cur |>)).

(** [raft_recv_entry]; [want] is [r != NULL] and [junk_pkt] the value of the
    uninitialised member [ety.pkt]. *)
Definition raft_recv_entry (junk_pkt : Z) (e : raft_entry) (want : bool)
  : R (Z * option msg_entry_response) :=
  me ← get_srv;
  if raft_entry_is_voting_cfg_change e && negb (voting_cfg_change_log_idx me =? -1) then
    mret (RAFT_ERR_ONE_VOTING_CHANGE_ONLY, None)
  else if negb (bool_decide (state me = RAFT_STATE_LEADER)) then mret (RAFT_ERR_NOT_LEADER, None)
  else
    let ety := e <| term := u32 (current_term me) |> <| pkt := junk_pkt |> in
    log_append_entry (cb_log cb) ety ;;
    send_round ;;
    commit_if_alone ;;
    cur ← raft_get_current_idx;
    me ← get_srv;
    when (raft_entry_is_voting_cfg_change e)
      (upd_srv (λ me, me <| voting_cfg_change_log_idx := cur |>)) ;;
    mret (0, if want then Some {| er_id := id e; er_idx := cur; er_term := current_term me |}
             else None).

(** The first loop of [raft_recv_entry_batch]: stamps the terms and looks for
    a second voting change; [inl] holds the entries as left by an early
    return. *)
Fixpoint stamp_loop (etys : list raft_entry) (i : Z) (detected : Z)
  : R (list raft_entry + list raft_entry * Z) :=
  match etys with
  | [] => mret (inr ([], detected))
  | e :: etys' =>
    me ← get_srv;
    let e := e <| term := u32 (current_term me) |> in
    let cfg := raft_entry_is_voting_cfg_change e in
    if cfg && negb (detected =? -1) then mret (inl (e :: etys')) else
    cur ← raft_get_current_idx;
    c1 ← iadd cur 1;
    ci ← iadd c1 i;
    res ← stamp_loop etys' (i + 1) (if cfg then ci else detected);
    mret (match res with
          | inl es => inl (e :: es)
          | inr (es, d) => inr (e :: es, d)
          end)
  end.

(** [raft_recv_entry_batch]; returns the caller's array as well.  The response
    loop never advances [e], so every response carries the first id. *)
Definition raft_recv_entry_batch (etys : list raft_entry) (want : bool)
  : R (Z * list raft_entry * list msg_entry_response) :=
  me ← get_srv;
  if negb (bool_decide (state me = RAFT_STATE_LEADER)) then mret (RAFT_ERR_NOT_LEADER, etys, [])
  else
    res ← stamp_loop etys 0 (voting_cfg_change_log_idx me);
    match res with
    | inl etys => mret (RAFT_ERR_ONE_VOTING_CHANGE_ONLY, etys, [])
    | inr (etys, detected) =>
      upd_srv (λ me, me <| voting_cfg_change_log_idx := detected |>) ;;
      '(_, etys) ← log_append_batch (cb_log cb) etys (Z.of_nat (length etys));
      send_round ;;
      commit_if_alone ;;
      cur ← raft_get_current_idx;
      me ← get_srv;
      let id0 := match etys with e :: _ => id e | [] => 0 end in
      let r := {| er_id := id0; er_idx := cur; er_term := current_term me |} in
      mret (0, etys, if want then replicate (length etys) r else [])
    end.

Definition raft_msg_entry_response_committed (r : msg_entry_response) : R Z :=
  o ← raft_get_entry_from_idx (er_idx r);
  match o with
  | None => mret 0
  | Some ety =>
    if negb (u32 (er_term r) =? term ety) then mret (-1) else
    me ← get_srv;
    mret (if er_idx r <=? commit_idx me then 1 else 0)
  end.

Definition raft_last_applied_ety : R (option raft_entry) :=
  me ← get_srv;
  if last_applied_idx me =? 0 then mret None else log_get_at_idx (last_applied_idx me).

(** ** Membership *)
Definition raft_add_node (ud : Z) (nid : Z) (is_self : bool) : R nat :=
  o ← raft_get_node nid;
  match o with
  | Some r => upd_peer r (raft_node_set_voting true) ;; mret r
  | None =>
    s ← get;
    let r := next_ref s in
    modify (λ s, s <| heap := <[r := raft_node_new ud nid]> (heap s) |> <| next_ref := S r |>) ;;
    upd_srv (λ me, me <| nodes := nodes me ++ [r] |>) ;;
    when is_self (upd_srv (λ me, me <| node := Some r |>)) ;;
    mret r
  end.

Definition raft_add_non_voting_node (ud : Z) (nid : Z) (is_self : bool) : R nat :=
  me ← get_srv;
  r ← raft_add_node ud nid is_self;
  upd_peer r (raft_node_set_voting false) ;;
  upd_peer r (raft_node_set_next_idx (voting_cfg_change_log_idx me)) ;;
  upd_peer r (raft_node_set_match_idx 0) ;;
  mret r.

(** [raft_remove_node]: the copy loop writes past the new array when [node] is
    not among the peers.  A peer is in the array once, since [raft_add_node]
    stores a fresh one. *)
Definition raft_remove_node (peer : nat) : R () :=
  me ← get_srv;
  let kept := filter (λ r, r ≠ peer) (nodes me) in
  if negb (S (length kept) =? length (nodes me))%nat then fail UB else
  upd_srv (λ me, me <| nodes := kept |>) ;;
  modify (λ s, s <| heap := delete peer (heap s) |>).
End server.

(** ** Events

    The entry points through which the rest of the system drives a server. *)
Inductive event :=
| EvPeriodic (msec : Z)
| EvAppendEntries (peer : option nat) (ae : msg_appendentries)
| EvAppendEntriesResponse (peer : option nat) (r : msg_appendentries_response)
| EvRequestVote (vr : msg_requestvote)
| EvRequestVoteResponse (peer : option nat) (r : msg_requestvote_response)
| EvEntry (junk_pkt : Z) (e : raft_entry) (want : bool)
| EvEntryBatch (etys : list raft_entry) (want : bool)
| EvSendAll
| EvApplyAll
| EvCheckpoint (log_index : Z)
| EvAddNode (ud nid : Z) (is_self : bool)
| EvAddNonVotingNode (ud nid : Z) (is_self : bool)
| EvRemoveNode (peer : nat)
| EvSetTimeouts (election request nack : Z)
| EvSetLogTarget (target : Z)
| EvSetInflight (multi : bool)
| EvSetPreferred (preferred : bool).

Definition handle {W} (cb : raft_cbs W) (rand : nat → Z) (ev : event) : M (rstate W) () :=
  match ev with
  | EvPeriodic msec => raft_periodic cb rand msec ;; mret tt
  | EvAppendEntries peer ae => raft_recv_appendentries cb peer ae ;; mret tt
  | EvAppendEntriesResponse peer r => raft_recv_appendentries_response cb peer r ;; mret tt
  | EvRequestVote vr => raft_recv_requestvote cb vr ;; mret tt
  | EvRequestVoteResponse peer r => raft_recv_requestvote_response cb peer r ;; mret tt
  | EvEntry junk e want => raft_recv_entry cb rand junk e want ;; mret tt
  | EvEntryBatch etys want => raft_recv_entry_batch cb rand etys want ;; mret tt
  | EvSendAll => raft_send_appendentries_all cb
  | EvApplyAll => raft_apply_all cb ;; mret tt
  | EvCheckpoint i => raft_checkpoint i
  | EvAddNode ud nid self => raft_add_node ud nid self ;; mret tt
  | EvAddNonVotingNode ud nid self => raft_add_non_voting_node ud nid self ;; mret tt
  | EvRemoveNode peer => raft_remove_node peer
  | EvSetTimeouts e r n =>
    raft_set_election_timeout e ;; raft_set_request_timeout r ;; raft_set_nack_timeout n
  | EvSetLogTarget t => raft_set_log_target t
  | EvSetInflight m => if m then raft_set_multi_inflight else raft_unset_multi_inflight
  | EvSetPreferred p => if p then raft_set_preferred_leader else raft_unset_preferred_leader
  end.

(** What the callers owe: a batch is not empty, the log target is positive. *)
Definition event_ok (ev : event) : bool :=
  match ev with
  | EvEntryBatch [] _ => false
  | EvSetLogTarget t => 0 <? t
  | _ => true
  end.

(** Running a list of events. *)
Fixpoint run_events {W} (cb : raft_cbs W) (rand : nat → Z) (evs : list event)
  : M (rstate W) () :=
  match evs with
  | [] => mret tt
  | ev :: evs' => handle cb rand ev ;; run_events cb rand evs'
  end.
