(* ===== verification/RaftFrame.v ===== *)
(** What most of the server's code leaves alone.

    [core] is the part of the server that the safety arguments look at and
    [pview] the part of a peer; everything else is bookkeeping.  [ServerFrame]
    lists what a preorder on states must tolerate - bookkeeping updates, the
    callbacks, and the few steps that move the log and its indices - and the
    section derives that every routine outside the election code keeps it. *)

From S2P Require Import Prelude RaftNode RaftLog RaftServer.

(** The indices around the log, and the log with them. *)
Definition lrest (me : server) : Z * Z * Z * Z * Z :=
  (commit_idx me, last_applied_idx me, log_base me, last_compacted_idx me, log_target me).
Definition lview (me : server) : log_private * (Z * Z * Z * Z * Z) := (log me, lrest me).

Definition core (me : server) :=
  (current_term me, voted_for me, state me, node me, nodes me, lview me).

(** Identity, voting right and recorded vote of a peer. *)
Definition pview (n : raft_node) : Z * bool * bool :=
  (raft_node_get_id n, raft_node_is_voting n, raft_node_has_vote_for_me n).

Lemma pview_sufficient n : pview (raft_node_set_has_sufficient_logs n) = pview n.
Proof. unfold pview. by rewrite is_voting_set_sufficient, has_vote_set_sufficient. Qed.

(** Counting the references of a list that satisfy a test. *)
Definition count_of (p : nat → bool) (rs : list nat) : Z := Z.of_nat (length (filter p rs)).

Lemma count_of_cons p r rs : count_of p (r :: rs) = (if p r then 1 else 0) + count_of p rs.
Proof.
  unfold count_of. rewrite filter_cons. destruct (p r); case_decide; simpl; try done; lia.
Qed.

Class ServerFrame {W : Type} (cb : raft_cbs W) (R : relation (rstate W)) : Prop := {
  sf_preorder :: PreOrder R;
  sf_quiet : ∀ f, (∀ me, core (f me) = core me) → Pres R (upd_srv f);
  sf_peer : ∀ r f, (∀ n, pview (f n) = pview n) → Pres R (upd_peer r f);
  sf_rand : ∀ rand, Pres R (call_rand rand);
  sf_truncate : ∀ i, Pres R (truncate_from cb i);
  sf_append_entry : ∀ c, Pres R (log_append_entry (cb_log cb) c);
  sf_append_batch : ∀ c, c ≠ [] →
    Pres R (log_append_batch (cb_log cb) c (Z.of_nat (length c)));
  sf_compact : Pres R (compact_log cb);
  sf_checkpoint : ∀ i, Pres R (raft_checkpoint i);
  sf_set_commit : ∀ i, Pres R (raft_set_commit_idx i);
  sf_alone : Pres R commit_if_alone;
  sf_apply_entry : Pres R (raft_apply_entry cb);
  sf_release : ∀ f, cb_log_poll (cb_log cb) = Some f → ∀ e, Pres R (f e (-1));
  sf_send_requestvote : ∀ f, cb_send_requestvote cb = Some f → ∀ p m, Pres R (f p m);
  sf_send_appendentries : ∀ f, cb_send_appendentries cb = Some f → ∀ p m, Pres R (f p m);
  sf_setmatch : ∀ f, cb_setmatch cb = Some f → ∀ r i, Pres R (f r i);
  sf_sufficient : ∀ f, cb_node_has_sufficient_logs cb = Some f → ∀ p, Pres R (f p)
}.
#[export] Hint Resolve sf_rand sf_truncate sf_append_entry sf_compact sf_checkpoint sf_set_commit
  sf_alone sf_apply_entry sf_release sf_send_requestvote sf_send_appendentries sf_setmatch
  sf_sufficient : pres.
#[export] Hint Extern 2 (Pres _ (upd_srv _)) => apply sf_quiet; intros; reflexivity : pres.
#[export] Hint Extern 2 (Pres _ (upd_peer _ _)) =>
  apply sf_peer; intros; (reflexivity || apply pview_sufficient) : pres.

Lemma wp_get_peer {W A} r n (k : raft_node → M (rstate W) A) E Q s :
  heap s !! r = Some n → wp (get_peer r ≫= k) E Q s ↔ wp (k n) E Q s.
Proof. intros Hn. unfold get_peer. by rewrite wp_bind, wp_bind, wp_get, wp_deref, Hn. Qed.
Lemma wp_get_srv {W A} (k : server → M (rstate W) A) E Q s :
  wp (get_srv ≫= k) E Q s ↔ wp (k (srv s)) E Q s.
Proof. done. Qed.

(** Reading the log does not change the state. *)
Lemma wp_read_entry {W A} i (k : option raft_entry → M (rstate W) A) Q s :
  (∀ o, wp (k o) any Q s) → wp (raft_get_entry_from_idx i ≫= k) any Q s.
Proof.
  intros Hk. rewrite wp_bind.
  pose proof (pres_log_get_at_idx eq i s) as Hp. unfold raft_get_entry_from_idx, wp in *.
  destruct (log_get_at_idx i s) as [o s'|f]; [subst s'; apply Hk|done].
Qed.

(** ** Reading *)
Section read.
Context {W : Type} (R : relation (rstate W)) `{!PreOrder R}.

Lemma pres_get_srv : Pres R get_srv.
Proof. apply pres_gets, _. Qed.
Lemma pres_get_peer r : Pres R (get_peer r).
Proof. unfold get_peer. pres. Qed.
#[local] Hint Resolve pres_get_srv pres_get_peer : pres.
Lemma pres_call {A} (o : option A) (k : A → M (rstate W) Z) :
  (∀ f, o = Some f → Pres R (k f)) → Pres R (call o k).
Proof. intros Hk. unfold call. pres. Qed.
Lemma pres_for_nodes body : (∀ i r, Pres R (body i r)) → Pres R (for_nodes body).
Proof.
  intros Hb. unfold for_nodes. pres.
  generalize (length (nodes a)) as n, 0. intros n. induction n; intros i; simpl; pres.
Qed.
Lemma pres_raft_get_current_idx : Pres R raft_get_current_idx.
Proof. apply pres_log_get_current_idx, _. Qed.
Lemma pres_raft_get_entry_from_idx i : Pres R (raft_get_entry_from_idx i).
Proof. apply pres_log_get_at_idx, _. Qed.
Lemma pres_raft_get_entries_from_idx i : Pres R (raft_get_entries_from_idx i).
Proof. apply pres_log_get_from_idx, _. Qed.
#[local] Hint Resolve pres_raft_get_current_idx pres_raft_get_entry_from_idx
  pres_raft_get_entries_from_idx : pres.
Lemma pres_raft_get_nodeid : Pres R raft_get_nodeid.
Proof. unfold raft_get_nodeid. pres. Qed.
Lemma pres_raft_get_last_log_term : Pres R raft_get_last_log_term.
Proof. unfold raft_get_last_log_term. pres. Qed.
#[local] Hint Resolve pres_raft_get_nodeid : pres.
Lemma pres_raft_get_num_voting_nodes : Pres R raft_get_num_voting_nodes.
Proof.
  unfold raft_get_num_voting_nodes. pres. generalize 0.
  induction (nodes a); intros z; simpl; pres.
Qed.
Lemma pres_raft_get_my_node : Pres R raft_get_my_node.
Proof. unfold raft_get_my_node. pres. induction (nodes a); simpl; pres. Qed.
Lemma pres_raft_get_node i : Pres R (raft_get_node i).
Proof. unfold raft_get_node. pres. induction (nodes a); simpl; pres. Qed.
Lemma pres_raft_is_state st : Pres R (raft_is_state st).
Proof. unfold raft_is_state. pres. Qed.
Lemma pres_raft_get_nvotes_for_me : Pres R raft_get_nvotes_for_me.
Proof.
  unfold raft_get_nvotes_for_me. pres. generalize 0. induction (nodes a); intros z; simpl; pres.
Qed.
Lemma pres_should_grant_vote vr : Pres R (should_grant_vote vr).
Proof. unfold should_grant_vote, raft_already_voted. pres. Qed.
Lemma pres_make_appendentries i : Pres R (make_appendentries i).
Proof. unfold make_appendentries. pres. Qed.
End read.
#[export] Hint Resolve pres_get_srv pres_get_peer pres_call pres_raft_get_current_idx
  pres_raft_get_entry_from_idx pres_raft_get_entries_from_idx pres_raft_get_nodeid
  pres_raft_get_last_log_term pres_raft_get_num_voting_nodes pres_raft_get_my_node
  pres_raft_get_node pres_raft_is_state pres_raft_get_nvotes_for_me pres_should_grant_vote
  pres_make_appendentries : pres.

(** The match loop stops within the array. *)
Lemma ae_match_loop_range {W} (cb : raft_cbs W) prev etys i s :
  wp (ae_match_loop cb prev etys i) any (λ j _, i ≤ j ≤ i + Z.of_nat (length etys)) s.
Proof.
  revert i s. induction etys as [|ety etys IH]; intros i s; simpl; [rewrite wp_ret; lia|].
  rewrite wp_bind. apply wp_iadd_or; [by right|intros _].
  rewrite wp_bind. apply wp_iadd_or; [by right|intros _].
  apply wp_read_entry. intros [e|]; [|rewrite wp_ret; lia].
  case_match.
  - rewrite wp_bind. apply wp_any_intro. intros ? ? _. rewrite wp_ret. lia.
  - eapply wp_mono; [apply IH|done|]. simpl. lia.
Qed.

(** Stamping reads the server and keeps the length. *)
Lemma stamp_loop_read {W} etys i d (s : rstate W) :
  wp (stamp_loop etys i d) any
    (λ res s', s' = s ∧ match res with
                        | inl _ => True
                        | inr (etys', _) => length etys' = length etys
                        end) s.
Proof.
  revert i d. induction etys as [|e etys IH]; intros i d; simpl; [by rewrite wp_ret|].
  unfold get_srv. rewrite wp_bind, wp_gets. case_match; [by rewrite wp_ret|].
  unfold raft_get_current_idx, log_get_current_idx. rewrite wp_bind, wp_gets.
  rewrite wp_bind. apply wp_iadd_or; [by right|intros _].
  rewrite wp_bind. apply wp_iadd_or; [by right|intros _].
  rewrite wp_bind. eapply wp_mono; [apply IH|done|].
  intros [es|[es d']] s' [-> Hlen]; rewrite wp_ret; [done|]. simpl. auto.
Qed.

(** ** Acting *)
Section act.
Context {W : Type} (cb : raft_cbs W) (rand : nat → Z) (R : relation (rstate W)).
Context `{!ServerFrame cb R}.

Lemma pres_raft_send_requestvote p : Pres R (raft_send_requestvote cb p).
Proof. unfold raft_send_requestvote. pres. Qed.
Lemma pres_raft_send_appendentries p : Pres R (raft_send_appendentries cb p).
Proof. unfold raft_send_appendentries. pres. Qed.
#[local] Hint Resolve pres_raft_send_requestvote pres_raft_send_appendentries : pres.
Lemma pres_raft_send_appendentries_all : Pres R (raft_send_appendentries_all cb).
Proof. unfold raft_send_appendentries_all. pres. apply pres_for_nodes; [apply _|]. intros. pres. Qed.
Lemma pres_leader_announce p : Pres R (leader_announce cb p).
Proof. unfold leader_announce. pres. Qed.
Lemma pres_candidate_ask p : Pres R (candidate_ask cb p).
Proof. unfold candidate_ask. pres. Qed.
Lemma pres_leader_tick ms p : Pres R (leader_tick cb ms p).
Proof. unfold leader_tick. pres. Qed.

Lemma pres_apply_loop : Pres R (apply_loop cb).
Proof.
  unfold apply_loop. pres. generalize (Z.to_nat (commit_idx a - last_applied_idx a)) as n.
  intros n. induction n; simpl; pres.
Qed.
Lemma pres_raft_apply_all : Pres R (raft_apply_all cb).
Proof.
  unfold raft_apply_all. pres. generalize (Z.to_nat (commit_idx a - last_applied_idx a)) as n.
  intros n. induction n; simpl; pres.
Qed.
#[local] Hint Resolve pres_apply_loop : pres.

Lemma pres_count_match p pt v i r : Pres R (count_match cb p pt v i r).
Proof. unfold count_match. pres. Qed.
#[local] Hint Resolve pres_count_match : pres.
Lemma pres_update_commit p pt : Pres R (update_commit cb p pt).
Proof.
  unfold update_commit. pres. generalize (length (nodes a)) as n, 1 as v, 0 as i.
  intros n. induction n; intros v i; simpl; pres.
Qed.
#[local] Hint Resolve pres_update_commit : pres.
Lemma pres_ae_acked p r : Pres R (ae_acked cb p r).
Proof. unfold ae_acked. pres. Qed.

Lemma pres_ae_prev_check ae : Pres R (ae_prev_check cb ae).
Proof. unfold ae_prev_check. pres. Qed.
Lemma pres_release_loop etys : Pres R (release_loop cb etys).
Proof. induction etys; simpl; pres. Qed.
Lemma pres_note_cfg_loop i etys : Pres R (note_cfg_loop i etys).
Proof. revert i. induction etys; intros; simpl; pres. Qed.
Lemma pres_ae_match_loop prev etys i : Pres R (ae_match_loop cb prev etys i).
Proof. revert i. induction etys; intros; simpl; pres. Qed.
#[local] Hint Resolve pres_release_loop pres_note_cfg_loop pres_ae_match_loop : pres.

Lemma pres_ae_store ae : Pres R (ae_store cb ae).
Proof.
  unfold ae_store. do 2 (pres_step; [pres|]). intros s. rewrite wp_bind.
  eapply wp_mono; [apply (wp_conj _ _ _ _ _ (pres_ae_match_loop _ _ _ s)
    (ae_match_loop_range _ _ _ _ s))|done|].
  intros i s1 [Hs1 Hi]. simpl in Hi. apply (pres_from _ _ _ _ Hs1). pres.
  replace (ae_n_entries ae - i)
    with (Z.of_nat (length (drop (Z.to_nat i) (ae_entries ae))))
    by (rewrite length_drop; unfold ae_n_entries in *; lia).
  apply sf_append_batch. intros Hnil%(f_equal length). rewrite length_drop in Hnil.
  unfold ae_n_entries in *. simpl in *. lia.
Qed.
#[local] Hint Resolve pres_ae_store : pres.
Lemma pres_ae_accept p ae t : Pres R (ae_accept cb p ae t).
Proof. unfold ae_accept, follower_commit. pres. Qed.

Lemma pres_round_offer r : Pres R (round_offer cb r).
Proof. unfold round_offer. pres. Qed.
#[local] Hint Resolve pres_round_offer : pres.
Lemma pres_send_round : Pres R (send_round cb rand).
Proof.
  unfold send_round. pres. generalize (length (nodes a0)) as n.
  intros n. generalize a1 at 2. induction n; intros i; simpl; pres.
Qed.
#[local] Hint Resolve pres_send_round : pres.
Lemma pres_raft_recv_entry junk e want : Pres R (raft_recv_entry cb rand junk e want).
Proof. unfold raft_recv_entry. pres. Qed.

Lemma pres_raft_recv_entry_batch etys want :
  etys ≠ [] → Pres R (raft_recv_entry_batch cb rand etys want).
Proof.
  intros Hne. unfold raft_recv_entry_batch. pres_step; [pres|]. pres_step; [pres|].
  intros s. rewrite wp_bind. eapply wp_mono; [apply stamp_loop_read|done|].
  intros [es|[es d]] s' [-> Hlen]; [by rewrite wp_ret|].
  apply pres_from; [apply _|done|]. pres. apply sf_append_batch. by destruct es, etys.
Qed.
End act.
#[export] Hint Resolve pres_raft_send_requestvote pres_raft_send_appendentries
  pres_raft_send_appendentries_all pres_leader_announce pres_candidate_ask pres_leader_tick
  pres_apply_loop pres_raft_apply_all pres_update_commit pres_ae_acked pres_ae_prev_check
  pres_ae_accept pres_send_round pres_raft_recv_entry : pres.
