(* ===== verification/RaftEnv.v ===== *)
(** A concrete environment for the Raft server: callbacks that record messages,
    applied entries and persistent state, keep a copy of the log and checkpoint
    after each applied entry.  The witnesses of the Raft files run on it. *)

From S2P Require Import Prelude RaftNode RaftLog RaftServer.

Record env := mk_env {
  env_first : Z;
  env_copy : list raft_entry;
  env_applied : list (Z * raft_entry);
  env_term : Z;
  env_vote : Z;
  env_sent : list (nat * msg_appendentries);
  env_asked : list (nat * msg_requestvote)
}.
#[export] Instance env_fields : FieldsOf env :=
  λ r, mk_env (env_first r) (env_copy r) (env_applied r) (env_term r) (env_vote r)
         (env_sent r) (env_asked r).

Definition empty_env : env :=
  {| env_first := 0; env_copy := []; env_applied := []; env_term := 0; env_vote := -1;
     env_sent := []; env_asked := [] |}.

Abbreviation RE := (M (rstate env)).
Definition upd_env (f : env → env) : RE () := modify (λ s, s <| world := f (world s) |>).

Definition env_log_cbs : log_cbs (rstate env) := {|
  cb_log_offer := Some (λ c _ _,
    upd_env (λ w, w <| env_copy := env_copy w ++ [c] |>) ;; mret (0, c));
  cb_log_offer_batch := Some (λ c _ _ n,
    upd_env (λ w, w <| env_copy := env_copy w ++ take (Z.to_nat n) c |>) ;; mret (0, c));
  cb_log_poll := Some (λ _ i,
    when (negb (i =? -1))
      (upd_env (λ w, w <| env_copy := drop 1 (env_copy w) |>
                       <| env_first := env_first w + 1 |>)) ;;
    mret 0);
  cb_log_poll_batch := Some (λ _ _ n,
    upd_env (λ w, w <| env_copy := drop (Z.to_nat n) (env_copy w) |>
                    <| env_first := env_first w + n |>) ;;
    mret 0);
  cb_log_pop := Some (λ _ _,
    upd_env (λ w, w <| env_copy := take (length (env_copy w) - 1) (env_copy w) |>) ;; mret 0)
|}.

Definition env_cbs : raft_cbs env := {|
  cb_send_requestvote := Some (λ p m,
    upd_env (λ w, w <| env_asked := env_asked w ++ [(p, m)] |>) ;; mret 0);
  cb_send_appendentries := Some (λ p m,
    upd_env (λ w, w <| env_sent := env_sent w ++ [(p, m)] |>) ;; mret (ae_n_entries m));
  cb_applylog := Some (λ e i,
    upd_env (λ w, w <| env_applied := env_applied w ++ [(i, e)] |>) ;;
    raft_checkpoint i ;; mret 0);
  cb_setmatch := None;
  cb_persist_vote := Some (λ v, upd_env (λ w, w <| env_vote := v |>) ;; mret 0);
  cb_persist_term := Some (λ t, upd_env (λ w, w <| env_term := t |>) ;; mret 0);
  cb_log := env_log_cbs;
  cb_node_has_sufficient_logs := None
|}.

(** The copy is in step with the log. *)
Definition env_mirror (f : Z) (es : list raft_entry) (w : env) : Prop :=
  0 ≤ f ∧ env_first w = f ∧ env_copy w = es.

Definition boot : rstate env := mk_rstate raft_new ∅ 0 0 empty_env.

(** [run m s] is the state [m] leaves, for evaluating examples. *)
Definition final {S A} (m : M S A) (s : S) : option S :=
  match m s with Ret _ s' => Some s' | Stop _ => None end.

#[export] Instance env_log_mirror E :
  LogMirror env_log_cbs E (λ f es s, env_mirror f es (world s)).
Proof.
  unfold env_mirror, same_entry. split; simpl; unfold wp; simpl.
  - done.
  - intros c _ f es s (? & <- & <-) _. done.
  - intros c _ f es s (? & <- & <-) _ _. rewrite Nat2Z.id, firstn_all.
    split_and!; try done. by apply Forall_Forall2_diag, Forall_true.
  - intros e f es s (? & <- & Hc).
    unfold run_poll. simpl.
    destruct (Z.eqb_spec (env_first (world s)) (-1)); [lia|]. simpl. rewrite Hc. split_and!; done || lia.
  - intros ptr n f es s (? & <- & <-) ? _ _. split_and!; done || lia.
  - intros e f es s (? & <- & ->). split_and!; try done.
    rewrite length_app. simpl. rewrite take_app_le by lia. apply take_ge. lia.
Qed.
