(* ===== verification/RaftSafety.v ===== *)
(** Log safety of the Raft server.

    [log_step] relates two states of a server when its log is well formed and
    its indices are in order in both, no index went back and every committed
    entry still in the log is unchanged.  It is a preorder, so it is proved
    handler by handler with the automation of the prelude, for any callbacks
    that keep it themselves ([SafeCbs]): a callback may call back into the
    server, as those of [core/cyclone.cpp] do. *)

From S2P Require Import Prelude RaftNode RaftLog RaftServer RaftFrame RaftEnv.

(** The entry of one-based index [i] in the log [es] that starts at [f]. *)
Definition entry_at (f : Z) (es : list raft_entry) (i : Z) : option raft_entry :=
  zlookup es (i - 1 - f).

Record index_inv (me : server) : Prop := {
  inv_applied : front (log me) ≤ last_applied_idx me ≤ commit_idx me;
  inv_commit : commit_idx me ≤ back (log me);
  inv_base : log_base me ≤ last_applied_idx me;
  inv_compacted : last_compacted_idx me = front (log me);
  inv_target : 0 < log_target me
}.

Section safety.
Context {W : Type} (J : Z → list raft_entry → W → Prop).
Implicit Types (s : rstate W) (es : list raft_entry).

(** [es] is the log of [s], mirrored by the world. *)
Record linv es s : Prop := {
  linv_rep : log_rep (log (srv s)) es;
  linv_idx : index_inv (srv s);
  linv_mirror : J (front (log (srv s))) es (world s)
}.

(** From [s] with log [es] to [s']: the invariant holds again, the compacted
    prefix, the commit and the applied index did not go back, and the committed
    entries that are still in the log are those of [es]. *)
Definition log_moved es s s' : Prop :=
  ∃ es', linv es' s'
    ∧ front (log (srv s)) ≤ front (log (srv s'))
    ∧ commit_idx (srv s) ≤ commit_idx (srv s')
    ∧ last_applied_idx (srv s) ≤ last_applied_idx (srv s')
    ∧ ∀ i, front (log (srv s')) < i ≤ commit_idx (srv s) →
        entry_at (front (log (srv s'))) es' i = entry_at (front (log (srv s))) es i.
Definition log_step s s' : Prop := ∀ es, linv es s → log_moved es s s'.

#[export] Instance log_step_preorder : PreOrder log_step.
Proof.
  split.
  - intros s es H. exists es. split_and!; done.
  - intros s1 s2 s3 H12 H23 es H.
    destruct (H12 es H) as (es2 & HI2 & ? & ? & ? & Hat2).
    destruct (H23 es2 HI2) as (es3 & HI3 & ? & ? & ? & Hat3).
    exists es3. split_and!; [done|lia..|]. intros i Hi.
    rewrite Hat3 by lia. apply Hat2. lia.
Qed.

(** A step that leaves the view and the world alone. *)
Lemma log_step_view s s' :
  lview (srv s') = lview (srv s) → world s' = world s → log_step s s'.
Proof.
  unfold lview, lrest. intros [= Hl Hc Ha Hb Hk Ht] Hw es [Hrep [] HJ]. exists es.
  rewrite Hl, Hc, Ha. split_and!; try done.
  split; [by rewrite Hl|split; rewrite ?Hl, ?Hc, ?Ha, ?Hb, ?Hk, ?Ht; lia|by rewrite Hl, Hw].
Qed.

Lemma pres_upd_srv_view f :
  (∀ me, lview (f me) = lview me) → Pres log_step (upd_srv f).
Proof. intros Hf. apply pres_modify. intros s. apply log_step_view; [apply Hf|done]. Qed.

(** Two states that agree on everything but the log object and the world. *)
Definition same_rest s s' : Prop := lrest (srv s) = lrest (srv s').
#[export] Instance same_rest_preorder : PreOrder same_rest.
Proof. split; [done|]. intros s1 s2 s3 ? ?. by transitivity (lrest (srv s2)). Qed.

(** The contract of the callbacks. *)
Class SafeCbs (cb : raft_cbs W) : Prop := {
  safe_mirror :: LogMirror (cb_log cb) any (λ f es s, J f es (world s));
  safe_frame :: LogFrame (cb_log cb) same_rest;
  safe_release : ∀ f, cb_log_poll (cb_log cb) = Some f → ∀ e, Pres log_step (f e (-1));
  safe_send_requestvote : ∀ f, cb_send_requestvote cb = Some f → ∀ p m, Pres log_step (f p m);
  safe_send_appendentries : ∀ f, cb_send_appendentries cb = Some f → ∀ p m, Pres log_step (f p m);
  safe_applylog : ∀ f, cb_applylog cb = Some f → ∀ e i, Pres log_step (f e i);
  safe_setmatch : ∀ f, cb_setmatch cb = Some f → ∀ r i, Pres log_step (f r i);
  safe_persist_vote : ∀ f, cb_persist_vote cb = Some f → ∀ v, Pres log_step (f v);
  safe_persist_term : ∀ f, cb_persist_term cb = Some f → ∀ t, Pres log_step (f t);
  safe_sufficient : ∀ f, cb_node_has_sufficient_logs cb = Some f → ∀ p, Pres log_step (f p)
}.
End safety.

(** ** Every handler makes a [log_step] *)
Section handlers.
Context {W : Type} (J : Z → list raft_entry → W → Prop).
Context (cb : raft_cbs W) (rand : nat → Z) `{!SafeCbs J cb}.
Implicit Types (s : rstate W) (es : list raft_entry).

Lemma log_step_modify f :
  (∀ s, lview (srv (f s)) = lview (srv s) ∧ world (f s) = world s) →
  Pres (log_step J) (modify f).
Proof. intros Hf. apply pres_modify. intros s. by apply log_step_view; apply Hf. Qed.

#[local] Hint Extern 2 (Pres _ (upd_srv _)) =>
  apply pres_upd_srv_view; intros; reflexivity : pres.
#[local] Hint Extern 2 (Pres _ (modify _)) => apply log_step_modify; done : pres.
#[local] Hint Resolve safe_applylog safe_persist_vote safe_persist_term : pres.

(** *** Steps that move the log or its indices *)
Lemma log_step_intro {A} (m : M (rstate W) A) s :
  (∀ es, linv J es s → wp m any (λ _ s', log_moved J es s s') s) →
  wp m any (λ _ s', log_step J s s') s.
Proof. intros H. apply wp_any_intro. intros a s' Hr es Hes. exact (wp_any_ret _ _ _ _ _ (H es Hes) Hr). Qed.

(** The shape of a log routine's effect: a new log with the rest of the view
    unchanged. *)
Lemma linv_new_log es es' s s' :
  linv J es s → same_rest s s' → log_rep (log (srv s')) es' →
  front (log (srv s')) = front (log (srv s)) →
  commit_idx (srv s) ≤ back (log (srv s')) →
  J (front (log (srv s))) es' (world s') →
  linv J es' s' ∧ commit_idx (srv s') = commit_idx (srv s)
  ∧ last_applied_idx (srv s') = last_applied_idx (srv s).
Proof.
  intros [? [] ?] [= Hc Ha Hb Hk Ht] Hrep Hf Hback HJ.
  split; [|done]. split; [done| |by rewrite Hf].
  split; rewrite <- ?Hc, <- ?Ha, <- ?Hb, <- ?Hk, <- ?Ht, ?Hf; done || lia.
Qed.

(** Truncation above the commit index. *)
Lemma log_delete_step idx s :
  commit_idx (srv s) < idx →
  wp (log_delete (cb_log cb) idx) any (λ _ s', log_step J s s') s.
Proof.
  intros Hidx. apply log_step_intro. intros es HI. pose proof HI as [Hrep [] HJ].
  pose proof (log_delete_wp (cb_log cb) any _ idx es s Hrep HJ ltac:(simpl; lia)
    ltac:(by right)) as Hdel.
  eapply wp_mono; [apply (wp_conj _ _ _ _ _ Hdel (pres_log_delete same_rest (cb_log cb) idx s))
    |done|].
  intros _ s' [(Hrep' & Hf & Hle & HJ') Hrest]. simpl in *.
  rep_facts Hrep. rep_facts Hrep'. rewrite length_take in *.
  destruct (linv_new_log es _ s s' HI Hrest Hrep' Hf ltac:(lia) HJ') as (HI' & Hc & Ha).
  eexists. split_and!; [exact HI'|lia..|].
  intros i Hi. rewrite Hf. unfold entry_at. rewrite zlookup_take.
  by replace (_ <? _) with true by lia.
Qed.

Lemma forget_cfg_change_run idx s :
  ∃ s1, forget_cfg_change idx s = Ret tt s1 ∧ lview (srv s1) = lview (srv s)
    ∧ world s1 = world s.
Proof.
  unfold forget_cfg_change, when, get_srv, gets, mbind, M_bind.
  case_match; eexists; split_and!; done.
Qed.

Lemma pres_truncate_from idx : Pres (log_step J) (truncate_from cb idx).
Proof.
  intros s. unfold truncate_from, get_srv. rewrite wp_bind, wp_gets, wp_bind, wp_assert.
  destruct (Z.ltb_spec (commit_idx (srv s)) idx); [|done].
  destruct (forget_cfg_change_run idx s) as (s1 & Hrun & Hv & Hw).
  rewrite wp_bind. unfold wp at 1. rewrite Hrun.
  assert (commit_idx (srv s1) = commit_idx (srv s)) as Hc by (unfold lview, lrest in Hv; congruence).
  eapply wp_mono; [apply log_delete_step; lia|done|]. intros ? s' H'.
  transitivity s1; [by apply log_step_view|done].
Qed.

(** Appending keeps every old index. *)
Lemma entry_at_app f es es' i :
  i - f ≤ Z.of_nat (length es) → entry_at f (es ++ es') i = entry_at f es i.
Proof. intros. unfold entry_at. rewrite zlookup_app. by replace (_ <? _) with true by lia. Qed.

Lemma linv_append es c s s' :
  linv J es s → same_rest s s' → log_rep (log (srv s')) (es ++ c) →
  front (log (srv s')) = front (log (srv s)) →
  J (front (log (srv s))) (es ++ c) (world s') →
  log_moved J es s s'.
Proof.
  intros HI Hrest Hrep' Hf HJ. pose proof HI as [Hrep [] _].
  rep_facts Hrep. rep_facts Hrep'. rewrite length_app in *.
  destruct (linv_new_log es _ s s' HI Hrest Hrep' Hf ltac:(lia) HJ) as (HI' & Hc & Ha).
  eexists. split_and!; [exact HI'|lia..|].
  intros i Hi. rewrite Hf. apply entry_at_app. lia.
Qed.

Lemma pres_append_entry c : Pres (log_step J) (log_append_entry (cb_log cb) c).
Proof.
  intros s. apply log_step_intro. intros es HI. pose proof HI as [Hrep _ HJ].
  pose proof (log_append_entry_wp (cb_log cb) any _ c es s Hrep HJ ltac:(by right)) as Happ.
  eapply wp_mono; [apply (wp_conj _ _ _ _ _ Happ
    (pres_log_append_entry same_rest (cb_log cb) c s))|done|].
  intros _ s' [(c' & _ & Hrep' & Hf & HJ') Hrest]. by eapply linv_append.
Qed.

Lemma pres_append_batch c :
  c ≠ [] → Pres (log_step J) (log_append_batch (cb_log cb) c (Z.of_nat (length c))).
Proof.
  intros Hne s. apply log_step_intro. intros es HI. pose proof HI as [Hrep _ HJ].
  pose proof (log_append_batch_wp (cb_log cb) any _ c es s Hrep HJ Hne ltac:(by right)) as Happ.
  eapply wp_mono; [apply (wp_conj _ _ _ _ _ Happ
    (pres_log_append_batch same_rest (cb_log cb) c _ s))|done|].
  intros [r c'] s' [(_ & Hrep' & Hf & HJ') Hrest]. by eapply linv_append.
Qed.

(** Compaction drops [log_target] entries, all of them applied and below the
    checkpoint. *)
Lemma pres_compact_log : Pres (log_step J) (compact_log cb).
Proof.
  intros s. apply log_step_intro. intros es HI. pose proof HI as [Hrep [] HJ].
  unfold compact_log, get_srv. rewrite wp_bind, wp_gets, wp_bind.
  unfold imul. rewrite wp_int_of. case_match; [|done].
  rewrite wp_bind. apply wp_iadd_or; [by right|intros _].
  destruct (Z.leb_spec (log_base (srv s)) (last_compacted_idx (srv s) + 2 * log_target (srv s))).
  { rewrite wp_ret. exists es. split_and!; done. }
  rewrite wp_bind. apply wp_iadd_or; [by right|intros _].
  rewrite wp_bind. apply wp_isub_or; [by right|intros _].
  replace (last_compacted_idx (srv s) + log_target (srv s) - last_compacted_idx (srv s))
    with (log_target (srv s)) by lia.
  rep_facts Hrep. assert (es ≠ []) by (intros ->; simpl in *; lia).
  pose proof (log_poll_batch_wp (cb_log cb) any _ (log_target (srv s)) es s Hrep HJ
    ltac:(lia) ltac:(done)) as Hpoll.
  rewrite wp_bind. eapply wp_mono; [apply (wp_conj _ _ _ _ _ Hpoll
    (pres_log_poll_batch same_rest (cb_log cb) _ s))|done|].
  intros ? s1 [(Hrep1 & Hf1 & HJ1) [= Hc Ha Hb Hk Ht]]. simpl in *.
  replace (_ `min` count (log (srv s))) with (log_target (srv s)) in * by lia.
  unfold upd_srv. rewrite wp_modify. eexists. split_and!; simpl; try lia.
  - split; simpl; [exact Hrep1| |by rewrite Hf1].
    rep_facts Hrep1. rewrite length_drop in *. split; simpl; lia.
  - intros i Hi. rewrite Hf1 in *. unfold entry_at.
    rewrite zlookup_drop by lia. replace (0 <=? _) with true by lia. f_equal. lia.
Qed.

(** An update of the commit, applied or checkpoint index that keeps them in
    order. *)
Lemma log_step_indices s f :
  (∀ es, linv J es s → index_inv (f (srv s))
     ∧ commit_idx (srv s) ≤ commit_idx (f (srv s))
     ∧ last_applied_idx (srv s) ≤ last_applied_idx (f (srv s))
     ∧ log (f (srv s)) = log (srv s)) →
  log_step J s (s <| srv := f (srv s) |>).
Proof.
  intros Hf es HI. destruct (Hf es HI) as (Hidx & ? & ? & Hl). destruct HI as [Hrep ? HJ].
  exists es. simpl. rewrite Hl. split_and!; try done. split; simpl; rewrite ?Hl; done.
Qed.

Lemma pres_raft_checkpoint i : Pres (log_step J) (raft_checkpoint i).
Proof.
  unfold raft_checkpoint. pres. apply pres_modify. intros s. apply log_step_indices.
  intros es [_ [] _]. split_and!; simpl; [|lia..|done].
  split; simpl; rewrite ?Z.gtb_ltb; try lia. case_match; lia.
Qed.

Lemma pres_raft_set_commit_idx i : Pres (log_step J) (raft_set_commit_idx i).
Proof.
  intros s. unfold raft_set_commit_idx, get_srv, raft_get_current_idx, log_get_current_idx.
  rewrite wp_bind, wp_gets, wp_bind, wp_assert. case_match; [|done].
  rewrite wp_bind, wp_gets, wp_bind, wp_assert. case_match; [|done].
  unfold upd_srv. rewrite wp_modify. apply log_step_indices. simpl in *.
  intros es [_ [] _]. split_and!; simpl; [|lia..|done]. split; simpl; lia.
Qed.

Lemma pres_commit_if_alone : Pres (log_step J) commit_if_alone.
Proof.
  intros s. unfold commit_if_alone, get_srv, raft_get_current_idx, log_get_current_idx.
  rewrite wp_bind, wp_gets, wp_bind, wp_gets, wp_when. case_match; [|done].
  unfold upd_srv. rewrite wp_modify. apply log_step_indices. simpl in *.
  intros es [_ [] _]. split_and!; simpl; [|lia..|done]. split; simpl; lia.
Qed.

Lemma pres_raft_apply_entry : Pres (log_step J) (raft_apply_entry cb).
Proof.
  intros s. unfold raft_apply_entry, get_srv. rewrite wp_bind, wp_gets.
  destruct (Z.eqb_spec (last_applied_idx (srv s)) (commit_idx (srv s))) as [|Hne].
  { by rewrite wp_ret. }
  rewrite wp_bind. apply wp_iadd_or; [by right|intros _].
  apply wp_read_entry. intros [ety|]; [|by rewrite wp_ret].
  rewrite wp_bind. unfold upd_srv at 1. rewrite wp_modify.
  set (s1 := s <| srv := _ |>).
  assert (log_step J s s1) as Hs1.
  { apply log_step_indices. intros es [_ [] _]. split_and!; simpl; [|lia..|done].
    split; simpl; lia. }
  apply (pres_from _ _ _ _ Hs1). pres.
Qed.
#[export] Instance safe_server_frame : ServerFrame cb (log_step J).
Proof.
  split; try apply _; eauto using pres_truncate_from, pres_append_entry, pres_append_batch,
    pres_compact_log, pres_raft_checkpoint, pres_raft_set_commit_idx, pres_commit_if_alone,
    pres_raft_apply_entry, safe_release, safe_send_requestvote, safe_send_appendentries,
    safe_setmatch, safe_sufficient.
  - intros f Hf. apply pres_upd_srv_view. intros me. specialize (Hf me).
    unfold core in Hf. congruence.
  - intros r f _. unfold upd_peer. pres.
  - intros rnd0. unfold call_rand. pres.
Qed.

(** The election code does not touch the log. *)
Lemma pres_upd_peer_any r f : Pres (log_step J) (upd_peer r f).
Proof. unfold upd_peer. pres. Qed.
#[local] Hint Resolve pres_upd_peer_any : pres.
Lemma pres_raft_set_state st : Pres (log_step J) (raft_set_state st).
Proof. unfold raft_set_state. pres. Qed.
Lemma pres_raft_set_current_term t : Pres (log_step J) (raft_set_current_term cb t).
Proof. unfold raft_set_current_term. pres. Qed.
Lemma pres_raft_vote_for_nodeid i : Pres (log_step J) (raft_vote_for_nodeid cb i).
Proof. unfold raft_vote_for_nodeid. pres. Qed.
#[local] Hint Resolve pres_raft_set_state pres_raft_set_current_term
  pres_raft_vote_for_nodeid pres_for_nodes : pres.
Lemma pres_raft_become_leader : Pres (log_step J) (raft_become_leader cb).
Proof. unfold raft_become_leader. pres. Qed.
Lemma pres_raft_become_candidate : Pres (log_step J) (raft_become_candidate cb rand).
Proof. unfold raft_become_candidate, raft_vote. pres. Qed.
#[local] Hint Resolve pres_raft_become_leader pres_raft_become_candidate : pres.
Lemma pres_raft_periodic ms : Pres (log_step J) (raft_periodic cb rand ms).
Proof. unfold raft_periodic, raft_election_start, raft_is_leader. pres. Qed.
Lemma pres_raft_recv_appendentries_response p r :
  Pres (log_step J) (raft_recv_appendentries_response cb p r).
Proof.
  unfold raft_recv_appendentries_response, raft_is_leader, raft_become_follower. pres.
Qed.
Lemma pres_raft_recv_requestvote vr : Pres (log_step J) (raft_recv_requestvote cb vr).
Proof.
  unfold raft_recv_requestvote, requestvote_reply, raft_is_leader, raft_is_candidate, raft_become_follower. pres.
Qed.
Lemma pres_raft_recv_requestvote_response p r :
  Pres (log_step J) (raft_recv_requestvote_response cb p r).
Proof.
  unfold raft_recv_requestvote_response, raft_is_candidate, raft_become_follower. pres.
Qed.
Lemma pres_raft_recv_appendentries p ae :
  Pres (log_step J) (raft_recv_appendentries cb p ae).
Proof.
  unfold raft_recv_appendentries, ae_term_check, ae_fail_with_current_idx, ae_fail,
    raft_become_follower. pres.
Qed.
Lemma pres_raft_add_node ud nid self : Pres (log_step J) (raft_add_node ud nid self).
Proof. unfold raft_add_node. pres. Qed.
#[local] Hint Resolve pres_raft_add_node : pres.
Lemma pres_raft_add_non_voting_node ud nid self :
  Pres (log_step J) (raft_add_non_voting_node ud nid self).
Proof. unfold raft_add_non_voting_node. pres. Qed.
Lemma pres_raft_remove_node p : Pres (log_step J) (raft_remove_node p).
Proof. unfold raft_remove_node. pres. Qed.
Lemma pres_raft_set_log_target t : 0 < t → Pres (log_step J) (raft_set_log_target t).
Proof.
  intros Ht. apply pres_modify. intros s. apply log_step_indices.
  intros es [_ [] _]. split_and!; simpl; [|lia..|done]. split; simpl; lia.
Qed.
#[local] Hint Resolve pres_raft_periodic pres_raft_recv_appendentries
  pres_raft_recv_appendentries_response pres_raft_recv_requestvote
  pres_raft_recv_requestvote_response pres_raft_add_non_voting_node
  pres_raft_remove_node : pres.

Lemma pres_handle ev : event_ok ev = true → Pres (log_step J) (handle cb rand ev).
Proof.
  intros Hok.
  destruct ev; simpl; unfold raft_set_election_timeout, raft_set_request_timeout,
    raft_set_nack_timeout, raft_set_multi_inflight, raft_unset_multi_inflight,
    raft_set_preferred_leader, raft_unset_preferred_leader; pres.
  - apply pres_raft_recv_entry_batch; [apply _|]. by destruct etys.
  - apply pres_raft_set_log_target. simpl in Hok. lia.
Qed.

Lemma pres_run_events evs :
  Forall (λ ev, event_ok ev = true) evs → Pres (log_step J) (run_events cb rand evs).
Proof.
  induction 1; simpl; [apply pres_ret, _|].
  apply pres_bind; [apply _|by apply pres_handle|done].
Qed.
End handlers.

Section properties.
Context {W : Type} (J : Z → list raft_entry → W → Prop).
Context (cb : raft_cbs W) (rand : nat → Z) `{!SafeCbs J cb}.
Implicit Types (s : rstate W).

(** C2: log safety.  Over any sequence of events that returns, the log stays
    well formed and mirrored by the callbacks' copy, compacted <= applied <=
    commit <= last index holds, none of the first three goes back, and every entry
    that was committed and has not been compacted away is still at its index,
    unchanged. *)
Theorem committed_entries_stable evs es s s' :
  Forall (λ ev, event_ok ev = true) evs → linv J es s →
  run_events cb rand evs s = Ret tt s' →
  ∃ es', linv J es' s'
    ∧ front (log (srv s)) ≤ front (log (srv s'))
    ∧ commit_idx (srv s) ≤ commit_idx (srv s')
    ∧ last_applied_idx (srv s) ≤ last_applied_idx (srv s')
    ∧ ∀ i, front (log (srv s')) < i ≤ commit_idx (srv s) →
        entry_at (front (log (srv s'))) es' i = entry_at (front (log (srv s))) es i.
Proof.
  intros Hok HI Hrun. exact (pres_run _ _ _ _ _ (pres_run_events J cb rand evs Hok) Hrun es HI).
Qed.
End properties.

(** The recording environment meets the contract. *)
Lemma upd_env_step f :
  (∀ w, env_first (f w) = env_first w ∧ env_copy (f w) = env_copy w) →
  Pres (log_step env_mirror) (upd_env f).
Proof.
  intros Hf. apply pres_modify. intros s es [? ? HJ]. exists es. simpl.
  split_and!; try done. split; simpl; [done..|].
  unfold env_mirror in *. destruct (Hf (world s)) as [-> ->]. done.
Qed.

#[export] Instance env_log_frame : LogFrame env_log_cbs same_rest.
Proof.
  split; simpl; [apply _|done|..]; intros ? [= <-]; intros;
    try (apply pres_bind; [apply _| |intros; apply pres_ret, _]);
    try (apply pres_when; [apply _|]); by apply pres_modify.
Qed.

#[export] Instance env_safe : SafeCbs env_mirror env_cbs.
Proof.
  split; simpl.
  - apply _.
  - apply _.
  - intros ? [= <-] e. simpl. pres.
  - intros ? [= <-] p m. pres. by apply upd_env_step.
  - intros ? [= <-] p m. pres. by apply upd_env_step.
  - intros ? [= <-] e i. pres; [by apply upd_env_step|]. apply pres_raft_checkpoint.
  - done.
  - intros ? [= <-] v. pres. by apply upd_env_step.
  - intros ? [= <-] t. pres. by apply upd_env_step.
  - done.
Qed.

Lemma boot_linv : linv env_mirror [] boot.
Proof. split; [apply log_new_rep|split; simpl; lia|done]. Qed.

(** A lone server: it elects itself, takes three entries, commits and applies
    them and compacts the first. *)
Definition demo_events : list event :=
  [EvAddNode 0 7 true; EvSetLogTarget 1; EvPeriodic 10;
   EvEntry 0 (zero_entry <| id := 1 |>) true; EvEntry 0 (zero_entry <| id := 2 |>) true;
   EvEntryBatch [zero_entry <| id := 3 |>] true; EvPeriodic 10].
Definition demo_state : rstate env :=
  default boot (final (run_events env_cbs (λ _, 0) demo_events) boot).

Lemma committed_entries_stable_witness :
  commit_idx (srv demo_state) = 3 ∧ front (log (srv demo_state)) = 1
  ∧ ∃ es', linv env_mirror es' demo_state.
Proof.
  split; [by vm_compute|]. split; [by vm_compute|].
  destruct (committed_entries_stable env_mirror env_cbs (λ _, 0) demo_events [] boot demo_state)
    as (es' & H & _).
  - repeat constructor.
  - apply boot_linv.
  - by vm_compute.
  - by exists es'.
Defined.

(** The invariant of a concrete state of the recording environment. *)
Ltac decide_linv :=
  split;
  [apply log_rep_decide; [split; vm_compute; intuition congruence|by vm_compute|by vm_compute]
  |split; vm_compute; intuition congruence
  |by vm_compute].
