(* ===== verification/RaftAppend.v ===== *)
(** AppendEntries on the follower: what [raft_recv_appendentries] does to the
    log, with total correctness.

    The callbacks are assumed to return ([TotalCbs]), so the theorems say that
    the handler returns, with which answer, and what the log then holds. *)

From S2P Require Import Prelude RaftNode RaftLog RaftServer RaftFrame RaftEnv RaftSafety.

Section append.
Context {W : Type} (J : Z → list raft_entry → W → Prop).
Implicit Types (s : rstate W) (es : list raft_entry).

(** A callback that returns and leaves the server and the log's mirror alone. *)
Definition untouched s s' : Prop :=
  srv s' = srv s ∧ heap s' = heap s
  ∧ ∀ f es, J f es (world s) → J f es (world s').

Class TotalCbs (cb : raft_cbs W) : Prop := {
  total_mirror :: LogMirror (cb_log cb) none (λ f es s, J f es (world s));
  total_frame :: LogFrame (cb_log cb) same_rest;
  total_release : ∀ f e s, cb_log_poll (cb_log cb) = Some f →
    wp (f e (-1)) none (λ _ s', untouched s s') s;
  total_persist_term : ∀ f t s, cb_persist_term cb = Some f →
    wp (f t) none (λ _ s', untouched s s') s
}.

Context (cb : raft_cbs W) `{!TotalCbs cb}.

(** The indices are as in [s], the log of [s'] is [es']. *)
Definition at_log es s s' : Prop := linv J es s' ∧ lrest (srv s') = lrest (srv s)
  ∧ front (log (srv s')) = front (log (srv s)).

Lemma at_log_refl es s : linv J es s → at_log es s s.
Proof. done. Qed.

Lemma at_log_trans es s1 s2 s3 es' :
  at_log es s1 s2 → at_log es' s2 s3 → at_log es' s1 s3.
Proof. intros (_ & H1 & F1) (H & H2 & F2). split_and!; [done|congruence..]. Qed.

(** A change that leaves the log view and the mirror alone. *)
Lemma linv_view es s s' :
  lview (srv s') = lview (srv s) → (∀ f es, J f es (world s) → J f es (world s')) →
  linv J es s → at_log es s s'.
Proof.
  unfold lview, lrest. intros [= Hl Hc Ha Hb Hk Ht] Hw [Hrep [] HJ].
  split_and!; [|unfold lrest; congruence|by rewrite Hl].
  split; [by rewrite Hl|split; rewrite ?Hl, ?Hc, ?Ha, ?Hb, ?Hk, ?Ht; lia|rewrite Hl; auto].
Qed.

Lemma upd_view_wp es s f E :
  (∀ me, lview (f me) = lview me) → linv J es s →
  wp (upd_srv f) E (λ _ s', at_log es s s') s.
Proof.
  intros Hf HI. unfold upd_srv. rewrite wp_modify. apply linv_view; [apply Hf|done|done].
Qed.

(** ** Truncation *)
Lemma truncate_from_wp idx es s :
  linv J es s → commit_idx (srv s) < idx → idx ≤ back (log (srv s)) + 1 →
  wp (truncate_from cb idx) none
    (λ _ s', at_log (take (Z.to_nat (idx - 1 - front (log (srv s)))) es) s s') s.
Proof.
  intros HI Hc Hidx. unfold truncate_from. rewrite wp_get_srv, wp_bind, wp_assert.
  replace (_ <? _) with true by lia.
  destruct (forget_cfg_change_run idx s) as (s1 & Hrun & Hv & Hw).
  rewrite wp_bind. unfold wp at 1. rewrite Hrun.
  pose proof (linv_view es s s1 Hv ltac:(by rewrite Hw) HI) as HA1.
  assert (log (srv s1) = log (srv s)) as Hl by (unfold lview in Hv; congruence).
  destruct HA1 as (HI1 & Hr1 & _). pose proof HI1 as [Hrep1 Hidx1 HJ1].
  destruct (linv_idx _ _ _ HI).
  pose proof (log_delete_wp (cb_log cb) none _ idx es s1 Hrep1 HJ1
    ltac:(simpl; rewrite Hl; lia) ltac:(left; simpl; rewrite Hl; lia)) as Hdel.
  eapply wp_mono; [apply (wp_conj _ _ _ _ _ Hdel (pres_log_delete same_rest (cb_log cb) idx s1))
    |done|].
  intros _ s' [(Hrep' & Hf & Hle & HJ') Hrest]. simpl in *. rewrite Hl in *.
  rep_facts Hrep1. rep_facts Hrep'. rewrite length_take in *.
  assert (commit_idx (srv s1) = commit_idx (srv s)) by (unfold lrest in Hr1; congruence).
  destruct (linv_new_log J es _ s1 s' HI1 Hrest Hrep' ltac:(congruence) ltac:(lia)
    ltac:(by rewrite Hl)) as (HI' & _ & _).
  split_and!; [done|congruence|done].
Qed.

(** ** The match loop *)
Lemma read_entry_wp i es s {A} (k : option raft_entry → M (rstate W) A) E Q :
  linv J es s → in_int (i - 1) = true →
  wp (k (entry_at (front (log (srv s))) es i)) E Q s →
  wp (raft_get_entry_from_idx i ≫= k) E Q s.
Proof.
  intros HI Hi Hk. rewrite wp_bind.
  eapply wp_mono; [apply (log_get_at_idx_wp i es s); [apply HI|done]|done|].
  intros o s' [-> ->]. exact Hk.
Qed.

(** Entries [etys] agree in term with the log from index [i] on. *)
Definition agrees f es (i : Z) (etys : list raft_entry) : Prop :=
  ∀ k ety, etys !! k = Some ety →
    ∃ e, entry_at f es (i + Z.of_nat k) = Some e ∧ term e = term ety.

(** No entry of [etys] conflicts with the log at or below [c]. *)
Definition no_conflict_upto f es (c i : Z) (etys : list raft_entry) : Prop :=
  ∀ k ety e, etys !! k = Some ety → entry_at f es (i + Z.of_nat k) = Some e →
    term e ≠ term ety → c < i + Z.of_nat k.

Lemma agrees_nil f es i : agrees f es i [].
Proof. by intros k ety. Qed.

Lemma agrees_cons f es i e ety etys :
  entry_at f es i = Some e → term e = term ety → agrees f es (i + 1) etys →
  agrees f es i (ety :: etys).
Proof.
  intros He Ht Ha [|k] ety' Hk; simpl in Hk.
  - injection Hk as <-. exists e. by rewrite Z.add_0_r.
  - destruct (Ha k ety' Hk) as (e' & ? & ?). exists e'. split; [|done].
    by replace (i + Z.of_nat (S k)) with (i + 1 + Z.of_nat k) by lia.
Qed.

(** The loop from position [i]: it stops at [j] after entries that agree, and
    unless the array is exhausted the log then ends just before [prev + 1 + j]. *)
Lemma ae_match_loop_wp prev etys i es s :
  linv J es s → 0 ≤ i → front (log (srv s)) ≤ prev →
  prev + i ≤ back (log (srv s)) → prev + 1 + i + Z.of_nat (length etys) ≤ INT_MAX →
  no_conflict_upto (front (log (srv s))) es (commit_idx (srv s)) (prev + 1 + i) etys →
  wp (ae_match_loop cb prev etys i) none
    (λ j s', ∃ keep, i ≤ j ≤ i + Z.of_nat (length etys)
       ∧ at_log (take keep es) s s'
       ∧ agrees (front (log (srv s))) (take keep es) (prev + 1 + i)
           (take (Z.to_nat (j - i)) etys)
       ∧ prev + j ≤ back (log (srv s'))
       ∧ (j < i + Z.of_nat (length etys) → back (log (srv s')) = prev + j)) s.
Proof.
  intros HI Hi Hf. revert i Hi. induction etys as [|ety etys IH]; intros i Hi Hb Hmax Hnc; simpl.
  { rewrite wp_ret. exists (length es). rewrite firstn_all, Z.sub_diag.
    split_and!; try done; try (simpl; lia). }
  pose proof HI as [Hrep [] _]. rep_facts Hrep. simpl length in Hmax.
  rewrite wp_bind, wp_iadd by int_range. rewrite wp_bind, wp_iadd by int_range.
  apply (read_entry_wp _ es); [done|int_range|].
  destruct (entry_at _ _ _) as [e|] eqn:He.
  2: { rewrite wp_ret. exists (length es). rewrite firstn_all, Z.sub_diag.
    unfold entry_at in He. apply zlookup_None in He.
    split_and!; try done; try (simpl; lia). }
  apply zlookup_Some_range in He as Hrange.
  destruct (Z.eqb_spec (term e) (term ety)) as [Heq|Hne]; simpl.
  - eapply wp_mono; [apply (IH (i + 1)); try lia|done|].
    + intros k ety' e' Hk He' Hne'. specialize (Hnc (S k) ety' e' Hk).
      replace (prev + 1 + i + Z.of_nat (S k)) with (prev + 1 + (i + 1) + Z.of_nat k) in Hnc by lia.
      by apply Hnc.
    + intros j s' (keep & Hj & HA & Hag & Hback & Hend). exists keep.
      split_and!; try done; try lia.
      replace (Z.to_nat (j - i)) with (S (Z.to_nat (j - (i + 1)))) by lia. simpl.
      destruct HA as (HI' & _ & Hf'). pose proof (linv_rep _ _ _ HI') as Hrep'. rep_facts Hrep'.
      apply agrees_cons with e; [|done|].
      * rewrite <- He. unfold entry_at. rewrite <- (Nat2Z.id keep), zlookup_take.
        replace (_ <? _) with true; [done|]. rewrite length_take in *. lia.
      * by replace (prev + 1 + i + 1) with (prev + 1 + (i + 1)) by lia.
  - specialize (Hnc 0%nat ety e eq_refl). rewrite Z.add_0_r in Hnc. specialize (Hnc He Hne).
    rewrite wp_bind. eapply wp_mono; [apply truncate_from_wp; [exact HI|lia..]|done|].
    intros ? s' HA. rewrite wp_ret. eexists.
    pose proof HA as (HI' & Hr' & Hf'). pose proof (linv_rep _ _ _ HI') as Hrep'. rep_facts Hrep'.
    rewrite length_take in *.
    split_and!; [lia|lia|exact HA|rewrite Z.sub_diag; apply agrees_nil|lia|intros; lia].
Qed.

(** ** Accepting *)

(** The message fits the log: its predecessor is within the live window, it
    conflicts with nothing committed, and the integers have room. *)
Record ae_fits (ae : msg_appendentries) es s : Prop := {
  fit_prev : front (log (srv s)) ≤ ae_prev_log_idx ae ≤ back (log (srv s));
  fit_room : ae_prev_log_idx ae + 1 + ae_n_entries ae ≤ INT_MAX
    ∧ 2 * (count (log (srv s)) + ae_n_entries ae) ≤ INT_MAX
    ∧ back (log (srv s)) + ae_n_entries ae ≤ INT_MAX;
  fit_safe : no_conflict_upto (front (log (srv s))) es (commit_idx (srv s))
    (ae_prev_log_idx ae + 1) (ae_entries ae)
}.
(** A heartbeat that was overtaken: its predecessor is below the commit index and two or
    more below the last index. *)
Definition stale_beat (ae : msg_appendentries) s : bool :=
  bool_decide (ae_entries ae = []) && (0 <? ae_prev_log_idx ae)
  && (ae_prev_log_idx ae + 1 <? back (log (srv s))) && (ae_prev_log_idx ae <? commit_idx (srv s)).
(** A heartbeat with a new commit index for a log that is empty. *)
Definition empty_commit (ae : msg_appendentries) s : bool :=
  bool_decide (ae_entries ae = []) && (back (log (srv s)) =? 0) && (commit_idx (srv s) <? ae_leader_commit ae).
(** What the handler stops with on a message it should accept. *)
Definition voting s : bool :=
  match node (srv s) ≫= λ r, heap s !! r with Some n => raft_node_is_voting n | None => false end.
Definition unable (ae : msg_appendentries) s : option fault :=
  if (current_term (srv s) <? ae_term ae) && negb (voting s) then Some UB
  else if stale_beat ae s || empty_commit ae s then Some Assert else None.

Lemma release_loop_wp etys es s :
  linv J es s → wp (release_loop cb etys) none (λ _ s', at_log es s s') s.
Proof.
  revert s. induction etys as [|ety etys IH]; intros s HI; simpl.
  { rewrite wp_ret. by apply at_log_refl. }
  rewrite wp_bind. unfold call.
  destruct (cb_log_poll (cb_log cb)) as [f|] eqn:Hf; [|rewrite wp_ret; by apply IH].
  rewrite wp_bind. eapply wp_mono; [by apply total_release|done|].
  intros ? s1 (Hs & _ & Hw). rewrite wp_ret.
  pose proof (linv_view es s s1 ltac:(by rewrite Hs) Hw HI) as HA.
  eapply wp_mono; [apply IH, HA|done|]. intros ? s2 HA2. exact (at_log_trans _ _ _ _ _ HA HA2).
Qed.

Lemma note_cfg_loop_wp i etys es s :
  linv J es s → wp (note_cfg_loop i etys) none (λ _ s', at_log es s s') s.
Proof.
  revert i s. induction etys as [|ety etys IH]; intros i s HI; simpl.
  { rewrite wp_ret. by apply at_log_refl. }
  rewrite wp_bind, wp_when. case_match; [|by apply IH].
  eapply wp_mono; [by apply (upd_view_wp es)|done|]. intros ? s1 HA.
  eapply wp_mono; [apply IH, HA|done|]. intros ? s2 HA2. exact (at_log_trans _ _ _ _ _ HA HA2).
Qed.

(** Appending what is left of the message. *)
Lemma append_rest_wp rest es s :
  linv J es s →
  2 * (count (log (srv s)) + Z.of_nat (length rest)) ≤ INT_MAX →
  back (log (srv s)) + Z.of_nat (length rest) ≤ INT_MAX → rest ≠ [] →
  wp (log_append_batch (cb_log cb) rest (Z.of_nat (length rest))) none
    (λ rc s', Forall2 same_entry rest rc.2 ∧ at_log (es ++ rc.2) s s') s.
Proof.
  intros HI Hm Hb Hne. pose proof HI as [Hrep [] HJ].
  pose proof (log_append_batch_wp (cb_log cb) none _ rest es s Hrep HJ Hne
    ltac:(left; simpl; lia)) as Happ.
  eapply wp_mono; [apply (wp_conj _ _ _ _ _ Happ
    (pres_log_append_batch same_rest (cb_log cb) rest _ s))|done|].
  intros [x rest'] s' [(Hsame & Hrep' & Hf & HJ') Hrest]. simpl in *.
  rep_facts Hrep. rep_facts Hrep'. rewrite length_app in *.
  destruct (linv_new_log J es _ s s' HI Hrest Hrep' Hf ltac:(lia) HJ') as (HI' & _ & _).
  split_and!; done.
Qed.

(** The commit index after an accepted message. *)
Lemma follower_commit_wp lc es s :
  linv J es s →
  wp (follower_commit lc) (λ f, f = Assert ∧ (back (log (srv s)) =? 0) && (commit_idx (srv s) <? lc) = true)
    (λ _ s', (back (log (srv s)) =? 0) && (commit_idx (srv s) <? lc) = false ∧ linv J es s' ∧ log (srv s') = log (srv s)
       ∧ last_applied_idx (srv s') = last_applied_idx (srv s)
       ∧ commit_idx (srv s') = Z.max (commit_idx (srv s)) (Z.min (back (log (srv s))) lc)) s.
Proof.
  intros HI. pose proof HI as [Hrep [] HJ]. rep_facts Hrep. unfold follower_commit.
  rewrite wp_get_srv, wp_when.
  destruct (Z.ltb_spec (commit_idx (srv s)) lc); [|rewrite andb_false_r; split_and!; try done; lia].
  unfold raft_get_current_idx, log_get_current_idx, raft_set_commit_idx.
  rewrite wp_bind, wp_gets, wp_get_srv, wp_bind, wp_assert. simpl.
  destruct (Z.eqb_spec (back (log (srv s))) 0) as [Hb|]; simpl.
  { rewrite Hb. simpl. replace (if 1 <? lc then 1 else lc) with 1 by (case_match; lia).
    replace (_ <=? 1) with true by lia. unfold raft_get_current_idx, log_get_current_idx.
    rewrite wp_bind, wp_gets, wp_bind, wp_assert. simpl. by rewrite Hb. }
  replace (if back (log (srv s)) <? 1 then 1 else back (log (srv s))) with (back (log (srv s)))
    by (case_match; lia).
  replace (if back (log (srv s)) <? lc then back (log (srv s)) else lc)
    with (Z.min (back (log (srv s))) lc) by (case_match; lia).
  replace (_ <=? _) with true by lia.
  unfold raft_get_current_idx, log_get_current_idx. rewrite wp_bind, wp_gets, wp_bind, wp_assert.
  simpl. replace (_ <=? _) with true by lia. unfold upd_srv. rewrite wp_modify. simpl.
  split_and!; try done; [|lia]. split; [done| |done]. split; simpl; lia.
Qed.

(** What [ae_store] leaves: entries up to the predecessor untouched, the
    message's entries behind them. *)
Definition stored (ae : msg_appendentries) es es' s s' : Prop :=
  at_log es' s s'
  ∧ agrees (front (log (srv s))) es' (ae_prev_log_idx ae + 1) (ae_entries ae)
  ∧ (∀ j, front (log (srv s)) < j ≤ ae_prev_log_idx ae →
      entry_at (front (log (srv s))) es' j = entry_at (front (log (srv s))) es j)
  ∧ ae_prev_log_idx ae + ae_n_entries ae ≤ back (log (srv s'))
  ∧ (back (log (srv s')) = 0 ↔ ae_entries ae = [] ∧ back (log (srv s)) = 0).

Lemma entry_at_take f es n j :
  j - f ≤ Z.of_nat n → entry_at f (take n es) j = entry_at f es j.
Proof.
  intros. unfold entry_at. rewrite <- (Nat2Z.id n), zlookup_take.
  by replace (_ <? _) with true by lia.
Qed.

(** A heartbeat truncates behind the entry after the predecessor. *)
Lemma ae_store_heartbeat ae es s :
  linv J es s → ae_fits ae es s → ae_entries ae = [] →
  wp (ae_store cb ae) (λ f, f = Assert ∧ stale_beat ae s = true)
    (λ _ s', stale_beat ae s = false ∧ ∃ es', stored ae es es' s s') s.
Proof.
  intros HI [Hprev Hroom _] Hnil. unfold stale_beat. rewrite bool_decide_eq_true_2 by done. pose proof HI as [Hrep [] _]. rep_facts Hrep.
  unfold ae_store, ae_n_entries in *. rewrite Hnil in *. simpl in *.
  unfold raft_get_current_idx, log_get_current_idx. rewrite wp_bind, wp_gets, wp_bind.
  assert (∃ es', stored ae es es' s s) as Hsame.
  { exists es. unfold stored, ae_n_entries. rewrite Hnil. simpl.
    split_and!; [done..|apply agrees_nil|done|lia|tauto]. }
  destruct (Z.ltb_spec 0 (ae_prev_log_idx ae)); [|by split].
  rewrite wp_bind, wp_iadd by int_range. rewrite wp_when. change (the_log s) with (log (srv s)).
  destruct (Z.ltb_spec (ae_prev_log_idx ae + 1) (back (log (srv s)))); [|by split].
  destruct (Z.ltb_spec (ae_prev_log_idx ae) (commit_idx (srv s))).
  { unfold truncate_from. rewrite wp_get_srv, wp_bind, wp_assert. by replace (_ <? _) with false by lia. }
  eapply wp_mono; [apply (truncate_from_wp _ es); [done|lia|lia]|done|].
  intros ? s' HA. cut (∃ es', stored ae es es' s s'); [by split|]. eexists.
  pose proof HA as (HI' & _ & Hf'). pose proof (linv_rep _ _ _ HI') as Hrep'. rep_facts Hrep'.
  rewrite length_take in *. unfold stored, ae_n_entries. rewrite Hnil. simpl.
  split_and!; [exact HA|apply agrees_nil| |lia|split; [lia|intros [_ ?]; lia]].
  intros j Hj. apply entry_at_take. lia.
Qed.

Lemma agrees_app_r f es c i etys :
  agrees f es i etys → agrees f (es ++ c) i etys.
Proof.
  intros Ha k ety Hk. destruct (Ha k ety Hk) as (e & He & Ht). exists e. split; [|done].
  unfold entry_at in *. rewrite zlookup_app. apply zlookup_Some_range in He as ?.
  by replace (_ <? _) with true by lia.
Qed.

Lemma agrees_appended f es c etys :
  Forall2 same_entry etys c → agrees f (es ++ c) (f + Z.of_nat (length es) + 1) etys.
Proof.
  intros Hsame k ety Hk. destruct (Forall2_lookup_l _ _ _ _ _ Hsame Hk) as (e & He & Ht & _).
  exists e. split; [|done]. unfold entry_at. rewrite zlookup_app.
  replace (_ <? _) with false by lia. rewrite zlookup_nonneg by lia. rewrite <- He. f_equal. lia.
Qed.

Lemma agrees_join f es i j etys :
  0 ≤ j → agrees f es i (take (Z.to_nat j) etys) → agrees f es (i + j) (drop (Z.to_nat j) etys) →
  agrees f es i etys.
Proof.
  intros Hj H1 H2 k ety Hk. destruct (decide (Z.of_nat k < j)).
  - apply H1. rewrite lookup_take_lt by lia. done.
  - destruct (H2 (k - Z.to_nat j)%nat ety) as (e & He & Ht).
    + rewrite lookup_drop. rewrite <- Hk. f_equal. lia.
    + exists e. split; [|done]. rewrite <- He. f_equal. lia.
Qed.

Lemma ae_store_entries ae es s :
  linv J es s → ae_fits ae es s → ae_entries ae ≠ [] →
  wp (ae_store cb ae) none (λ _ s', ∃ es', stored ae es es' s s') s.
Proof.
  intros HI [Hprev Hroom Hsafe] Hne. pose proof HI as [Hrep [] _]. rep_facts Hrep.
  assert (length (ae_entries ae) ≠ 0%nat) by (by destruct (ae_entries ae)).
  unfold ae_store, stored, ae_n_entries in *.
  replace (_ =? 0) with false by lia. cbn [andb].
  unfold raft_get_current_idx, log_get_current_idx.
  rewrite wp_bind, wp_gets, wp_bind, wp_ret, wp_bind.
  eapply wp_mono; [apply (ae_match_loop_wp _ _ 0 es); try done; rewrite ?Z.add_0_r; done || lia
    |done|].
  intros j s1 (keep & Hj & HA & Hag & Hb & Hend). rewrite Z.add_0_r, Z.sub_0_r in Hag.
  pose proof HA as (HI1 & _ & Hf1). pose proof (linv_rep _ _ _ HI1) as Hrep1. rep_facts Hrep1.
  assert (∀ k, front (log (srv s)) < k ≤ ae_prev_log_idx ae →
    entry_at (front (log (srv s))) (take keep es) k = entry_at (front (log (srv s))) es k) as Hold.
  { intros k Hk. apply entry_at_take. rewrite length_take in *. lia. }
  destruct (Z.ltb_spec j (Z.of_nat (length (ae_entries ae)))).
  - specialize (Hend ltac:(lia)). rewrite wp_bind.
    replace (Z.of_nat (length (ae_entries ae)) - j)
      with (Z.of_nat (length (drop (Z.to_nat j) (ae_entries ae)))) by (rewrite length_drop; lia).
    eapply wp_mono; [apply (append_rest_wp _ (take keep es)); try done; rewrite ?length_drop;
      try (rewrite length_take in *; lia)|done|].
    { intros Hnil%(f_equal length). rewrite length_drop in Hnil. simpl in *. lia. }
    intros [x rest] s2 [Hsame HA2]. simpl in *. rewrite wp_ret. exists (take keep es ++ rest).
    pose proof (at_log_trans _ _ _ _ _ HA HA2) as HA'.
    pose proof HA' as (HI' & _ & Hf'). pose proof (linv_rep _ _ _ HI') as Hrep'. rep_facts Hrep'.
    pose proof (Forall2_length _ _ _ Hsame) as Hlr. rewrite length_drop in Hlr.
    rewrite length_app in *. split_and!; [exact HA'| | |lia|split; [lia|by intros [? _]]].
    + apply (agrees_join _ _ _ j); [lia|by apply agrees_app_r|].
      replace (ae_prev_log_idx ae + 1 + j)
        with (front (log (srv s)) + Z.of_nat (length (take keep es)) + 1) by lia.
      by apply agrees_appended.
    + intros k Hk. rewrite entry_at_app by lia. by apply Hold.
  - rewrite wp_ret. exists (take keep es). split_and!; [exact HA| |done|lia|split; [lia|by intros [? _]]].
    by rewrite (take_ge (ae_entries ae)) in Hag by lia.
Qed.

Lemma ae_store_wp ae es s :
  linv J es s → ae_fits ae es s →
  wp (ae_store cb ae) (λ f, f = Assert ∧ stale_beat ae s = true)
    (λ _ s', stale_beat ae s = false ∧ ∃ es', stored ae es es' s s') s.
Proof.
  intros HI Hfit. destruct (decide (ae_entries ae = [])).
  - by apply ae_store_heartbeat.
  - eapply wp_mono; [by apply ae_store_entries|done|]. intros ? s' Hst. split; [|done].
    unfold stale_beat. by rewrite bool_decide_eq_false_2.
Qed.

Lemma ae_accept_wp peer ae rterm es s :
  linv J es s → ae_fits ae es s →
  wp (ae_accept cb peer ae rterm) (λ f, f = Assert ∧ stale_beat ae s || empty_commit ae s = true)
    (λ xr s', stale_beat ae s || empty_commit ae s = false ∧ ∃ es', xr = (0, {| aer_term := rterm; aer_success := 1;
                           aer_current_idx := ae_prev_log_idx ae + ae_n_entries ae;
                           aer_first_idx := ae_prev_log_idx ae + 1 |})
       ∧ linv J es' s' ∧ front (log (srv s')) = front (log (srv s))
       ∧ agrees (front (log (srv s))) es' (ae_prev_log_idx ae + 1) (ae_entries ae)
       ∧ (∀ j, front (log (srv s)) < j ≤ ae_prev_log_idx ae →
           entry_at (front (log (srv s))) es' j = entry_at (front (log (srv s))) es j)
       ∧ last_applied_idx (srv s') = last_applied_idx (srv s)
       ∧ commit_idx (srv s') = Z.max (commit_idx (srv s))
           (Z.min (back (log (srv s'))) (ae_leader_commit ae))) s.
Proof.
  intros HI Hfit. unfold ae_accept. rewrite wp_bind.
  eapply wp_mono; [by apply ae_store_wp|by intros f [-> ->]|].
  intros [i rest] s1 (Hstale & es' & HA & Hag & Hold & Hlen & Hnull). rewrite Hstale. simpl orb.
  rewrite wp_bind. eapply wp_mono; [apply release_loop_wp, HA|done|]. intros ? s2 HA2.
  rewrite wp_bind. eapply wp_mono; [apply note_cfg_loop_wp, HA2|done|]. intros ? s3 HA3.
  pose proof (at_log_trans _ _ _ _ _ (at_log_trans _ _ _ _ _ HA HA2) HA3) as HA'.
  pose proof HA' as (HI3 & Hr3 & Hf3). destruct Hfit as [Hprev Hroom _].
  pose proof HI as [Hrep [] _]. rep_facts Hrep.
  assert (back (log (srv s3)) = back (log (srv s1))) as Hb3.
  { pose proof (linv_rep _ _ _ HI3) as Hrep3. pose proof (linv_rep _ _ _ (proj1 HA)) as Hrep1.
    rep_facts Hrep3. rep_facts Hrep1. destruct HA as (_ & _ & Hf1). lia. }
  assert (commit_idx (srv s3) = commit_idx (srv s) ∧
    last_applied_idx (srv s3) = last_applied_idx (srv s)) as [Hc3 Ha3]
    by (unfold lrest in Hr3; split; congruence).
  assert ((back (log (srv s3)) =? 0) && (commit_idx (srv s3) <? ae_leader_commit ae) = empty_commit ae s) as Hemp.
  { unfold empty_commit. rewrite Hb3, Hc3. f_equal. apply eq_bool_prop_intro. rewrite andb_True, bool_decide_spec.
    rewrite !Is_true_true, !Z.eqb_eq. tauto. }
  rewrite wp_bind. eapply wp_mono; [apply (follower_commit_wp _ es'); done| |].
  { intros f [-> Hf]. by rewrite Hemp in Hf. }
  rewrite Hemp. intros ? s4 (Hne & HI4 & Hl4 & Ha4 & Hc4).
  unfold upd_srv. rewrite wp_bind, wp_modify, wp_bind, wp_iadd
    by (unfold ae_n_entries in *; int_range).
  rewrite wp_ret. split; [done|]. exists es'.
  split_and!; [done|by apply (linv_view es' s4)|..]; simpl; rewrite ?Hl4, ?Hc4, ?Ha4, ?Hc3; done.
Qed.

(** ** The whole handler *)
Definition keeps s s' : Prop :=
  lview (srv s') = lview (srv s) ∧ ∀ f es, J f es (world s) → J f es (world s').

Lemma keeps_linv es s s' : keeps s s' → linv J es s → linv J es s'.
Proof. intros [Hv HJ] HI. by apply (linv_view es s s' Hv HJ HI). Qed.

Lemma keeps_fits ae es s s' : keeps s s' → ae_fits ae es s → ae_fits ae es s'.
Proof.
  unfold keeps, lview, lrest. intros [[= Hl Hc _ _ _ _] _] []. by split; rewrite ?Hl, ?Hc.
Qed.

Lemma keeps_able ae s s' :
  keeps s s' → stale_beat ae s' = stale_beat ae s ∧ empty_commit ae s' = empty_commit ae s.
Proof.
  unfold keeps, lview, lrest, stale_beat, empty_commit. intros [[= Hl Hc _ _ _ _] _]. by rewrite Hl, Hc.
Qed.

Lemma set_state_wp st s :
  ∃ s', raft_set_state st s = Ret tt s' ∧ keeps s s' ∧ heap s' = heap s
    ∧ node (srv s') = node (srv s) ∧ current_term (srv s') = current_term (srv s)
    ∧ voted_for (srv s') = voted_for (srv s) ∧ state (srv s') = st.
Proof.
  unfold raft_set_state, upd_srv, when, mbind, M_bind.
  destruct (bool_decide _); eexists; split_and!; done.
Qed.

Lemma set_newer_term_wp t s :
  current_term (srv s) < t →
  wp (raft_set_current_term cb t) none
    (λ _ s', keeps s s' ∧ heap s' = heap s ∧ node (srv s') = node (srv s)
       ∧ current_term (srv s') = t ∧ voted_for (srv s') = -1) s.
Proof.
  intros Ht. unfold raft_set_current_term. rewrite wp_get_srv, wp_when.
  replace (_ <? _) with true by lia. unfold upd_srv, call. rewrite wp_bind, wp_modify.
  destruct (cb_persist_term cb) as [f|] eqn:Hf; [|rewrite wp_ret; split_and!; done].
  rewrite wp_bind. eapply wp_mono; [by apply total_persist_term|done|].
  intros ? s1 (Hs & Hh & Hw). rewrite wp_ret. unfold keeps. rewrite Hs, Hh.
  split_and!; done.
Qed.

Lemma ae_term_check_wp ae s :
  current_term (srv s) ≤ ae_term ae →
  wp (ae_term_check cb ae) (λ f, f = UB ∧ (current_term (srv s) <? ae_term ae) && negb (voting s) = true)
    (λ o s', (current_term (srv s) <? ae_term ae) && negb (voting s) = false
       ∧ o = Some (ae_term ae) ∧ keeps s s' ∧ current_term (srv s') = ae_term ae) s.
Proof.
  intros Hle. unfold ae_term_check. rewrite wp_get_srv.
  destruct (set_state_wp RAFT_STATE_FOLLOWER s) as (sf & Hsf & Hkf & _ & _ & Htf & _).
  destruct (bool_decide _ && _) eqn:Hcand.
  { rewrite wp_bind. unfold wp, raft_become_follower. rewrite Hsf.
    replace (_ <? _) with false by lia. split_and!; try done; [f_equal|]; lia. }
  destruct (Z.ltb_spec (current_term (srv s)) (ae_term ae)); simpl.
  - rewrite wp_bind. eapply wp_mono; [by apply set_newer_term_wp|done|].
    intros ? s1 (Hk1 & Hh1 & Hn1 & Ht1 & _).
    destruct (set_state_wp RAFT_STATE_FOLLOWER s1) as (s2 & Hs2 & Hk2 & Hh2 & Hn2 & Ht2 & _).
    rewrite wp_bind. unfold wp at 1. unfold raft_become_follower. rewrite Hs2.
    unfold voting. rewrite wp_get_srv, Hn2, Hn1, wp_bind, wp_deref.
    destruct (node (srv s)) as [r|]; simpl; [|done].
    unfold get_peer. rewrite wp_bind, wp_bind, wp_get, wp_deref, Hh2, Hh1.
    destruct (heap s !! r) as [n|]; [|done]. destruct (raft_node_is_voting n); [|done]. rewrite wp_ret.
    destruct Hk1 as [Hv1 HJ1], Hk2 as [Hv2 HJ2].
    split_and!; [done|done| |congruence]. split; [congruence|auto].
  - rewrite (proj2 (Z.ltb_ge _ _)) by lia. rewrite wp_ret. split_and!; try done; [f_equal|]; lia.
Qed.

(** The predecessor is in the log with the right term, or at the very start, or
    below the checkpoint, where it is taken for granted. *)
Definition prev_matches (ae : msg_appendentries) es s : Prop :=
  0 < ae_prev_log_idx ae → log_base (srv s) ≤ ae_prev_log_idx ae →
  ∃ e, entry_at (front (log (srv s))) es (ae_prev_log_idx ae) = Some e
    ∧ term e = u32 (ae_prev_log_term ae).

Lemma ae_prev_check_wp ae es s :
  linv J es s → prev_matches ae es s → ae_prev_log_idx ae ≤ back (log (srv s)) →
  wp (ae_prev_check cb ae) none (λ o s', o = None ∧ s' = s) s.
Proof.
  intros HI Hm Hb. pose proof HI as [Hrep [] _]. rep_facts Hrep.
  unfold ae_prev_check. rewrite wp_get_srv.
  destruct (_ && _) eqn:Hcheck; [|by rewrite wp_ret]. apply andb_true_iff in Hcheck as [Hp Hl].
  destruct (Hm ltac:(lia) ltac:(lia)) as (e & He & Ht).
  apply (read_entry_wp _ es); [done|int_range|]. rewrite He.
  unfold raft_get_current_idx, log_get_current_idx. rewrite wp_bind, wp_gets. simpl.
  rewrite (proj2 (Z.ltb_ge _ _)) by lia. rewrite Ht, Z.eqb_refl. done.
Qed.

Lemma reset_timeout_run b s :
  ∃ s', when b (upd_srv (λ me, me <| timeout_elapsed := 0 |>)) s = Ret tt s'
    ∧ keeps s s' ∧ heap s' = heap s ∧ node (srv s') = node (srv s)
    ∧ current_term (srv s') = current_term (srv s).
Proof. destruct b; eexists; split_and!; done. Qed.

(** C10: Log Matching on the follower.  A message of the current or a newer term that
    names the term of its predecessor (the process exits on -1 there), whose
    predecessor lies in the part of the log that is kept and matches, that
    conflicts with no committed entry and whose indices fit an [int], is accepted:
    the handler returns, answers success for [prev + n], keeps every entry up to the
    predecessor, and leaves a log that carries at every index of the message an entry
    of the message's term; the commit index becomes
    [max(commit, min(last index, leader_commit))].  There are exactly three exceptions,
    [unable]: on a server without voting rights a newer term is undefined behaviour; a
    heartbeat whose predecessor is below the commit index and two or more below the
    last index, and a heartbeat with a new commit index for an empty log, fail an
    assertion. *)
Theorem recv_appendentries_accepts peer ae es s :
  linv J es s → ae_prev_log_term ae ≠ -1 → current_term (srv s) ≤ ae_term ae →
  prev_matches ae es s → ae_fits ae es s →
  match raft_recv_appendentries cb peer ae s with
  | Ret xr s' => unable ae s = None
    ∧ xr = (0, {| aer_term := ae_term ae; aer_success := 1;
                  aer_current_idx := ae_prev_log_idx ae + ae_n_entries ae;
                  aer_first_idx := ae_prev_log_idx ae + 1 |})
    ∧ ∃ es', linv J es' s' ∧ front (log (srv s')) = front (log (srv s))
    ∧ (∀ k ety, ae_entries ae !! k = Some ety →
        ∃ e, entry_at (front (log (srv s))) es' (ae_prev_log_idx ae + 1 + Z.of_nat k) = Some e
          ∧ term e = term ety)
    ∧ (∀ j, front (log (srv s)) < j ≤ ae_prev_log_idx ae →
        entry_at (front (log (srv s))) es' j = entry_at (front (log (srv s))) es j)
    ∧ commit_idx (srv s') = Z.max (commit_idx (srv s))
        (Z.min (back (log (srv s'))) (ae_leader_commit ae))
  | Stop f => unable ae s = Some f
  end.
Proof.
  intros HI Hex Hterm Hprev Hfit.
  match goal with |- match ?m s with Ret x s' => @?Q x s' | Stop f => @?E f end =>
    enough (wp m E Q s) as Hwp by (unfold wp in Hwp; by destruct (m s)) end.
  unfold raft_recv_appendentries. rewrite wp_get_srv, wp_bind.
  match goal with |- wp (when ?b _) _ _ _ =>
    destruct (reset_timeout_run b s) as (s1 & Hrun & Hk1 & Hh1 & Hn1 & Ht1) end.
  unfold wp at 1. rewrite Hrun. rewrite (proj2 (Z.eqb_neq _ _) Hex), wp_get_srv, wp_bind.
  assert (voting s1 = voting s) as Hv1 by (unfold voting; by rewrite Hn1, Hh1).
  eapply wp_mono; [apply ae_term_check_wp; lia| |]; rewrite Ht1, Hv1; unfold unable.
  { by intros f [-> ->]. }
  intros o s2 (-> & -> & Hk2 & _). rewrite wp_bind.
  assert (keeps s s2) as Hk by (destruct Hk1, Hk2; split; [congruence|auto]).
  pose proof (keeps_linv es s s2 Hk HI) as HI2. pose proof (keeps_fits ae es s s2 Hk Hfit) as Hfit2.
  destruct (keeps_able ae s s2 Hk) as [Hst Hem].
  assert (log (srv s2) = log (srv s) ∧ log_base (srv s2) = log_base (srv s)
    ∧ commit_idx (srv s2) = commit_idx (srv s)) as (Hl & Hb & Hc).
  { destruct Hk as [[= Hl Hc _ Hb _ _] _]. done. }
  eapply wp_mono; [apply (ae_prev_check_wp ae es); [done| |apply Hfit2]|done|].
  { unfold prev_matches. by rewrite Hl, Hb. }
  intros o s3 [-> ->]. rewrite <- Hst, <- Hem.
  eapply wp_mono; [by apply (ae_accept_wp peer ae (ae_term ae) es)|by intros f [-> ->]|].
  rewrite Hl, Hc. intros xr s' (-> & es' & -> & ? & ? & ? & ? & ? & ?). split_and!; [done..|]. by exists es'.
Qed.
End append.

#[export] Instance env_total : TotalCbs env_mirror env_cbs.
Proof.
  split; simpl.
  - apply _.
  - apply _.
  - by intros ? e s [= <-].
  - by intros ? t s [= <-].
Qed.

(** A follower that holds two entries of term 1, the first committed. *)
Definition entry_of (t : Z) : raft_entry := zero_entry <| term := t |>.
Definition follower : rstate env :=
  default boot (final (run_events env_cbs (λ _, 0)
    [EvAddNode 0 1 false; EvAddNode 0 2 true;
     EvAppendEntries None {| ae_term := 1; ae_prev_log_idx := 0; ae_prev_log_term := 0;
       ae_leader_commit := 1; ae_entries := [entry_of 1; entry_of 1] |}]) boot).

Lemma follower_linv : linv env_mirror [entry_of 1; entry_of 1] follower.
Proof. decide_linv. Qed.

(** The leader of term 2 overwrites the second entry. *)
Definition overwrite : msg_appendentries := {|
  ae_term := 2; ae_prev_log_idx := 1; ae_prev_log_term := 1; ae_leader_commit := 5;
  ae_entries := [entry_of 2; entry_of 2] |}.

Lemma recv_appendentries_accepts_witness :
  ∃ s' es', raft_recv_appendentries env_cbs None overwrite follower =
      Ret (0, {| aer_term := 2; aer_success := 1; aer_current_idx := 3; aer_first_idx := 2 |}) s'
    ∧ linv env_mirror es' s' ∧ commit_idx (srv s') = 3.
Proof.
  assert (ae_fits overwrite [entry_of 1; entry_of 1] follower) as Hfit.
  { split; try (by vm_compute).
    intros [|[|]] ety e Hk He Hne; vm_compute in Hk, He; simplify_eq; by vm_compute. }
  assert (prev_matches overwrite [entry_of 1; entry_of 1] follower) as Hprev by (intros _ _; eexists; by split).
  pose proof (recv_appendentries_accepts env_mirror env_cbs None overwrite
    [entry_of 1; entry_of 1] follower follower_linv ltac:(done) ltac:(by vm_compute) Hprev Hfit) as Hacc.
  destruct (raft_recv_appendentries _ _ _ follower) as [xr s'|f] eqn:Hrun; [|by vm_compute in Hacc].
  destruct Hacc as (_ & -> & es' & HI & _ & _ & _ & Hc). exists s', es'. split_and!; [done|done|].
  assert (s' = default boot (final (raft_recv_appendentries env_cbs None overwrite) follower))
    as -> by (unfold final; by rewrite Hrun).
  by vm_compute.
Defined.
