(* ===== verification/RaftSpec.v ===== *)
(** Functional specifications of the remaining handlers, with total
    correctness: granting votes, the messages a leader builds, applying
    committed entries, the leader's commit rule and the entries clients send. *)

From S2P Require Import Prelude RaftNode RaftLog RaftServer RaftFrame RaftEnv RaftSafety.
From S2P Require Import RaftAppend.

Section spec.
Context {W : Type} (J : Z → list raft_entry → W → Prop).
Context (cb : raft_cbs W) `{!TotalCbs J cb}.
Implicit Types (s : rstate W) (es : list raft_entry).

(** ** Votes *)

(** The candidate's log is at least as up to date as [es] that ends at [b]. *)
Definition up_to_date es (b : Z) (vr : msg_requestvote) : bool :=
  match last es with
  | None => true
  | Some e =>
    (term e <? u32 (rv_last_log_term vr))
    || ((u32 (rv_last_log_term vr) =? term e) && (b <=? rv_last_log_idx vr))
  end.

(** Whether [raft_recv_requestvote] grants: the rule of the Raft paper, but for a
    candidate that asks again, which is refused. *)
Definition grants es s (vr : msg_requestvote) : bool :=
  ((current_term (srv s) <? rv_term vr)
   || ((current_term (srv s) =? rv_term vr) && (voted_for (srv s) =? -1)))
  && up_to_date es (back (log (srv s))) vr.

(** A leader or a candidate is not to vote; one that has not voted is asked to. *)
Definition in_office s : bool :=
  bool_decide (state (srv s) = RAFT_STATE_LEADER) || bool_decide (state (srv s) = RAFT_STATE_CANDIDATE).
Definition votes_in_office es s (vr : msg_requestvote) : bool :=
  grants es s vr && (current_term (srv s) =? rv_term vr) && in_office s.

Lemma entry_at_last es s :
  linv J es s → es ≠ [] →
  entry_at (front (log (srv s))) es (back (log (srv s))) = last es.
Proof.
  intros [Hrep [] _] Hne. rep_facts Hrep. assert (length es ≠ 0%nat) by (by destruct es).
  unfold entry_at. rewrite last_lookup, zlookup_nonneg by lia. f_equal. lia.
Qed.

Lemma should_grant_vote_wp vr es s :
  linv J es s → (es = [] → back (log (srv s)) = 0) →
  wp (should_grant_vote vr) none
    (λ g s', s' = s ∧ g = (current_term (srv s) <=? rv_term vr) && (voted_for (srv s) =? -1)
       && up_to_date es (back (log (srv s))) vr) s.
Proof.
  intros HI Hempty. pose proof HI as [Hrep [] _]. rep_facts Hrep.
  unfold should_grant_vote, raft_already_voted. rewrite wp_get_srv.
  destruct (Z.ltb_spec (rv_term vr) (current_term (srv s))).
  { rewrite wp_ret. split; [done|]. by replace (_ <=? _) with false by lia. }
  replace (current_term (srv s) <=? rv_term vr) with true by lia.
  rewrite wp_bind, wp_get_srv, wp_ret.
  destruct (Z.eqb_spec (voted_for (srv s)) (-1)); simpl; [|by rewrite wp_ret].
  unfold raft_get_current_idx, log_get_current_idx. rewrite wp_bind, wp_gets. simpl.
  unfold up_to_date. destruct (Z.eqb_spec (back (log (srv s))) 0).
  { rewrite wp_ret. split; [done|]. destruct es; [done|]. simpl in *. lia. }
  apply (read_entry_wp J _ es); [done|int_range|].
  assert (es ≠ []) as Hne by (intros Hnil; by apply Hempty in Hnil).
  rewrite (entry_at_last es s HI Hne).
  destruct (last es) as [e'|] eqn:He; [|by apply last_None in He].
  rewrite wp_bind, wp_deref. destruct (_ <? _); rewrite wp_ret; done.
Qed.

(** A callback that returns and touches nothing. *)
Definition vote_persists : Prop := ∀ f v s, cb_persist_vote cb = Some f →
  wp (f v) none (λ _ s', untouched J s s') s.

Lemma vote_for_nodeid_wp v s :
  vote_persists →
  wp (raft_vote_for_nodeid cb v) none
    (λ _ s', keeps J s s' ∧ voted_for (srv s') = v
       ∧ current_term (srv s') = current_term (srv s)) s.
Proof.
  intros Hvp. unfold raft_vote_for_nodeid, upd_srv, call. rewrite wp_bind, wp_modify.
  destruct (cb_persist_vote cb) as [f|] eqn:Hf; [|rewrite wp_ret; split_and!; done].
  rewrite wp_bind. eapply wp_mono; [by apply Hvp|done|].
  intros ? s1 (Hs & _ & Hw). rewrite wp_ret. unfold keeps. rewrite Hs. split_and!; done.
Qed.

Lemma requestvote_reply_wp vr es s :
  vote_persists → linv J es s → (es = [] → back (log (srv s)) = 0) →
  let g := (current_term (srv s) <=? rv_term vr) && (voted_for (srv s) =? -1)
           && up_to_date es (back (log (srv s))) vr in
  wp (requestvote_reply cb vr) (λ f, f = Assert ∧ g && in_office s = true)
    (λ xr s', g && in_office s = false ∧ xr = (0, {| rvr_term := current_term (srv s);
                          rvr_vote_granted := if g then 1 else 0 |})
       ∧ keeps J s s' ∧ current_term (srv s') = current_term (srv s)
       ∧ voted_for (srv s') = if g then rv_candidate_id vr else voted_for (srv s)) s.
Proof.
  intros Hvp HI Hempty g. unfold requestvote_reply. rewrite wp_bind.
  eapply wp_mono; [by apply (should_grant_vote_wp vr es)|done|]. intros g' s1 [-> ->].
  fold g. destruct g; [|rewrite wp_bind, wp_ret, wp_get_srv, wp_ret; split_and!; done].
  unfold raft_is_leader, raft_is_candidate, raft_is_state.
  rewrite wp_bind, wp_bind, wp_get_srv, wp_ret, wp_bind, wp_get_srv, wp_ret, wp_bind, wp_assert.
  fold (in_office s). destruct (in_office s); [done|]. simpl negb. cbv iota.
  rewrite wp_bind. eapply wp_mono; [by apply vote_for_nodeid_wp|done|].
  intros ? s1 ([Hk HJ1] & Hv1 & Ht1). unfold upd_srv. rewrite wp_modify, wp_get_srv, wp_ret.
  simpl. rewrite Ht1. split_and!; done.
Qed.

(** C13: the vote decision.  With a non-empty (or never filled) log,
    [raft_recv_requestvote] adopts a newer term, and grants exactly when the request
    is not behind, the server has not voted in that term, not even for the same
    candidate, and the candidate's log is at least as up to date by last term and
    length; a granted vote is recorded, and the log and its indices are untouched.
    It returns, unless a leader or candidate that has not voted in its term (a server
    that made itself leader without an election) would have to grant: then the
    assertion that this cannot happen fails. *)
Theorem requestvote_decision vr es s :
  vote_persists → linv J es s → (es = [] → back (log (srv s)) = 0) →
  match raft_recv_requestvote cb vr s with
  | Ret xr s' => votes_in_office es s vr = false
    ∧ xr = (0, {| rvr_term := Z.max (current_term (srv s)) (rv_term vr);
                  rvr_vote_granted := if grants es s vr then 1 else 0 |})
    ∧ lview (srv s') = lview (srv s)
    ∧ current_term (srv s') = Z.max (current_term (srv s)) (rv_term vr)
    ∧ (grants es s vr = true → voted_for (srv s') = rv_candidate_id vr)
    ∧ (grants es s vr = false → voted_for (srv s') =
         if current_term (srv s) <? rv_term vr then -1 else voted_for (srv s))
  | Stop f => votes_in_office es s vr = true ∧ f = Assert
  end.
Proof.
  intros Hvp HI Hempty.
  match goal with |- match ?m s with Ret x s' => @?Q x s' | Stop f => @?E f end =>
    enough (wp m E Q s) as Hwp by (unfold wp in Hwp; by destruct (m s)) end.
  unfold raft_recv_requestvote, votes_in_office, grants. rewrite wp_get_srv, wp_bind, wp_when.
  destruct (Z.ltb_spec (current_term (srv s)) (rv_term vr)).
  - rewrite wp_bind. eapply wp_mono; [by apply (set_newer_term_wp J)|done|].
    intros ? s1 (Hk1 & _ & _ & Ht1 & Hv1).
    destruct (set_state_wp J RAFT_STATE_FOLLOWER s1)
      as (s2 & Hs2 & Hk2 & _ & _ & Ht2 & Hv2 & Hst2).
    unfold wp at 1. unfold raft_become_follower. rewrite Hs2.
    assert (keeps J s s2) as Hk by (destruct Hk1, Hk2; split; [congruence|auto]).
    assert (log (srv s2) = log (srv s)) as Hl by (destruct Hk as [[= ? _] _]; done).
    assert (in_office s2 = false) as Hoff by (unfold in_office; by rewrite Hst2).
    eapply wp_mono; [apply (requestvote_reply_wp vr es s2 Hvp); [by eapply keeps_linv|by rewrite Hl]|..].
    + intros f [_ Hf]. by rewrite Hoff, andb_false_r in Hf.
    + rewrite Ht2, Ht1, Hv2, Hv1, Hl, Z.leb_refl. simpl.
      intros xr s' (_ & -> & [Hk' _] & Ht & Hv). destruct Hk as [Hk _].
      replace (current_term (srv s) =? rv_term vr) with false by lia.
      split_and!; [by rewrite andb_false_r|do 2 f_equal; lia|congruence|lia|..]; by destruct (up_to_date _ _ _).
  - assert ((current_term (srv s) <=? rv_term vr) = (current_term (srv s) =? rv_term vr)) as Hle by lia.
    assert (∀ x b u o : bool, x && b && u && x && o = x && b && u && o) as Hg by by intros [] [] [] [].
    pose proof (requestvote_reply_wp vr es s Hvp HI Hempty) as Hwp. cbv zeta in Hwp. rewrite Hle in Hwp.
    eapply wp_mono; [exact Hwp|..]; simpl.
    + intros f [-> Hf]. split; [|done]. by rewrite Hg.
    + intros xr s' (Hf & -> & [Hk _] & Ht & Hv).
      split_and!; [by rewrite Hg|do 2 f_equal; lia|done|lia|..]; clear Hf Hwp; rewrite Hv; by intros ->.
Qed.

(** ** The message for a follower *)

Lemma make_appendentries_wp next es s :
  linv J es s → 1 ≤ next ≤ INT_MAX →
  wp (make_appendentries next) none (λ ae s', s' = s ∧ ∃ etys, ae = {|
      ae_term := current_term (srv s); ae_prev_log_idx := next - 1;
      ae_prev_log_term :=
        if next =? 1 then 0 else
        match entry_at (front (log (srv s))) es (next - 1) with
        | Some e => i32 (term e)
        | None => -1
        end;
      ae_leader_commit := commit_idx (srv s); ae_entries := etys |}
    ∧ (∀ k ety, etys !! k = Some ety →
        entry_at (front (log (srv s))) es (next + Z.of_nat k) = Some ety)
    ∧ (front (log (srv s)) < next ≤ back (log (srv s)) → etys ≠ [])) s.
Proof.
  intros HI Hnext. pose proof HI as [Hrep [] _]. rep_facts Hrep.
  unfold make_appendentries. rewrite wp_get_srv, wp_bind.
  eapply wp_mono; [apply (log_get_from_idx_wp next es s); [done|int_range]|done|].
  intros o s' [-> Ho]. change (the_log s) with (log (srv s)) in Ho.
  assert (∀ k ety, default [] o !! k = Some ety →
    entry_at (front (log (srv s))) es (next + Z.of_nat k) = Some ety) as Hrun.
  { intros k ety Hk. destruct o as [run|]; [|done]. destruct Ho as (Hw & _ & Hr). simpl in Hk.
    rewrite Hr in Hk.    apply lookup_take_Some in Hk as [Hk _]. rewrite lookup_drop in Hk.
    unfold entry_at. rewrite zlookup_nonneg by lia. rewrite <- Hk. f_equal. lia. }
  assert (front (log (srv s)) < next ≤ back (log (srv s)) → default [] o ≠ []) as Hne.
  { intros Hw. destruct o; [by destruct Ho as (_ & ? & _)|lia]. }
  rewrite wp_bind. destruct (Z.ltb_spec 1 next).
  - apply (read_entry_wp J _ es); [done|int_range|]. rewrite wp_ret, wp_ret.
    rewrite (proj2 (Z.eqb_neq next 1)) by lia. split; [done|]. eexists. split_and!; done.
  - assert (next = 1) as -> by lia. rewrite wp_ret, wp_ret. simpl.
    split; [done|]. eexists. split_and!; done.
Qed.

(** C35: the AppendEntries message a leader builds for [next_idx] describes its
    log: current term and commit index, the predecessor's index with its term
    ([-1] when it is compacted away, the sign that the follower is too far
    behind) and the consecutive entries from [next_idx] on, at least one when
    the log has it. *)
Theorem appendentries_describes_log next es s :
  linv J es s → 1 ≤ next ≤ INT_MAX →
  ∃ etys, make_appendentries next s = Ret {|
      ae_term := current_term (srv s); ae_prev_log_idx := next - 1;
      ae_prev_log_term :=
        if next =? 1 then 0 else
        match entry_at (front (log (srv s))) es (next - 1) with
        | Some e => i32 (term e)
        | None => -1
        end;
      ae_leader_commit := commit_idx (srv s); ae_entries := etys |} s
    ∧ (∀ k ety, etys !! k = Some ety →
        entry_at (front (log (srv s))) es (next + Z.of_nat k) = Some ety)
    ∧ (front (log (srv s)) < next ≤ back (log (srv s)) → etys ≠ []).
Proof.
  intros HI Hnext.
  destruct (proj1 (wp_none_ret _ _ _) (make_appendentries_wp next es s HI Hnext))
    as (ae & s' & Hrun & -> & etys & -> & Hpost). eauto.
Qed.

(** ** Applying committed entries *)

(** The state machine: called for the entry whose index has just become the last
    applied one, [applylog] returns, appends it to the trace [tr] of applied
    entries, and changes of the server at most [log_base], through
    [raft_checkpoint]. *)
Definition applies (f : raft_entry → Z → M (rstate W) Z) (tr : W → list (Z * raft_entry)) : Prop :=
  ∀ e i es s, linv J es s → last_applied_idx (srv s) = i + 1 →
    wp (f e i) none (λ _ s', linv J es s' ∧ log (srv s') = log (srv s)
      ∧ commit_idx (srv s') = commit_idx (srv s)
      ∧ last_applied_idx (srv s') = last_applied_idx (srv s)
      ∧ tr (world s') = tr (world s) ++ [(i, e)]) s.

Lemma raft_apply_entry_wp f tr e es s :
  cb_applylog cb = Some f → applies f tr → linv J es s →
  last_applied_idx (srv s) < commit_idx (srv s) →
  entry_at (front (log (srv s))) es (last_applied_idx (srv s) + 1) = Some e →
  wp (raft_apply_entry cb) none
    (λ r s', r ≠ -1 ∧ linv J es s' ∧ log (srv s') = log (srv s)
       ∧ commit_idx (srv s') = commit_idx (srv s)
       ∧ last_applied_idx (srv s') = last_applied_idx (srv s) + 1
       ∧ tr (world s') = tr (world s) ++ [(last_applied_idx (srv s), e)]) s.
Proof.
  intros Hcb Hap HI Hlt He. pose proof HI as [Hrep [] HJ]. rep_facts Hrep.
  unfold raft_apply_entry. rewrite wp_get_srv, (proj2 (Z.eqb_neq _ _)) by lia.
  rewrite wp_bind, wp_iadd by int_range. apply (read_entry_wp J _ es); [done|int_range|].
  rewrite He. unfold upd_srv. rewrite wp_bind, wp_modify, Hcb, wp_bind.
  eapply wp_mono; [apply (Hap e _ es)|done|].
  { split; [done|split; simpl; lia|done]. }
  { simpl. lia. }
  intros r s1 (HI1 & Hl1 & Hc1 & Ha1 & Ht1). simpl in *.
  replace (last_applied_idx (srv s) + 1 - 1) with (last_applied_idx (srv s)) in Ht1 by lia.
  destruct (Z.eqb_spec r RAFT_ERR_SHUTDOWN); [rewrite wp_ret; split_and!; done|].
  rewrite wp_get_srv, wp_bind, wp_when. case_match; rewrite ?wp_modify, wp_ret;
    (split_and!; try done). by apply (linv_view J es s1).
Qed.

Lemma apply_loop_rounds_wp f tr n es s :
  cb_applylog cb = Some f → applies f tr → linv J es s →
  Z.of_nat n = commit_idx (srv s) - last_applied_idx (srv s) →
  wp (apply_loop_rounds cb n) none
    (λ b s', b = true ∧ linv J es s' ∧ log (srv s') = log (srv s)
       ∧ commit_idx (srv s') = commit_idx (srv s)
       ∧ last_applied_idx (srv s') = commit_idx (srv s)
       ∧ tr (world s') = tr (world s) ++
           zip (seqZ (last_applied_idx (srv s)) (Z.of_nat n))
             (take n (drop (Z.to_nat (last_applied_idx (srv s) - front (log (srv s)))) es))) s.
Proof.
  intros Hcb Hap. revert s. induction n as [|n IH]; intros s HI Hn; simpl apply_loop_rounds;
    rewrite wp_get_srv.
  { replace (_ <? _) with false by lia. rewrite wp_ret. rewrite app_nil_r. split_and!; done || lia. }
  pose proof HI as [Hrep [] _]. rep_facts Hrep. replace (_ <? _) with true by lia.
  destruct (proj2 (zlookup_is_Some es (last_applied_idx (srv s) - front (log (srv s)))))
    as [e He]; [lia|].
  rewrite wp_bind. eapply wp_mono; [apply (raft_apply_entry_wp f tr e es); try done|done|].
  { lia. }
  { unfold entry_at. rewrite <- He. f_equal. lia. }
  intros r s1 (Hr & HI1 & Hl1 & Hc1 & Ha1 & Ht1). rewrite (proj2 (Z.eqb_neq _ _) Hr).
  eapply wp_mono; [apply IH; [done|lia]|done|].
  intros b s' (-> & HI' & Hl' & Hc' & Ha' & Ht'). split_and!; try congruence.
  rewrite Ht', Ht1, <- app_assoc. f_equal. rewrite Hl1, Ha1.
  rewrite (seqZ_cons (last_applied_idx (srv s)) (Z.of_nat (S n))) by lia.
  replace (Z.pred (Z.of_nat (S n))) with (Z.of_nat n) by lia.
  rewrite zlookup_nonneg in He by lia.
  rewrite (drop_S _ _ _ He). simpl.
  replace (Z.succ (last_applied_idx (srv s))) with (last_applied_idx (srv s) + 1) by lia.
  by replace (Z.to_nat (last_applied_idx (srv s) + 1 - front (log (srv s))))
    with (S (Z.to_nat (last_applied_idx (srv s) - front (log (srv s))))) by lia.
Qed.

(** C36: the apply loop terminates and hands the state machine exactly the
    committed entries not applied before, each once and in log order with its
    index, after which everything committed is applied. *)
Theorem apply_loop_applies f tr es s :
  cb_applylog cb = Some f → applies f tr → linv J es s →
  let a := last_applied_idx (srv s) in
  let n := commit_idx (srv s) - a in
  ∃ s', apply_loop cb s = Ret true s' ∧ linv J es s'
    ∧ last_applied_idx (srv s') = commit_idx (srv s)
    ∧ commit_idx (srv s') = commit_idx (srv s)
    ∧ tr (world s') = tr (world s) ++
        zip (seqZ a n) (take (Z.to_nat n) (drop (Z.to_nat (a - front (log (srv s)))) es)).
Proof.
  intros Hcb Hap HI a n. pose proof HI as [_ [] _].
  assert (wp (apply_loop cb) none (λ b s', b = true ∧ linv J es s'
    ∧ last_applied_idx (srv s') = commit_idx (srv s)
    ∧ commit_idx (srv s') = commit_idx (srv s)
    ∧ tr (world s') = tr (world s) ++
        zip (seqZ a n) (take (Z.to_nat n) (drop (Z.to_nat (a - front (log (srv s)))) es))) s)
    as (b & s' & Hrun & -> & Hpost)%wp_none_ret; [|eauto].
  unfold apply_loop. rewrite wp_get_srv. fold a. fold n.
  eapply wp_mono; [apply (apply_loop_rounds_wp f tr (Z.to_nat n) es); try done; lia|done|].
  intros b s' (-> & ? & _ & ? & ? & Ht). rewrite Z2Nat.id in Ht by lia. split_and!; done.
Qed.

(** ** The leader's commit rule *)

(** Every peer pointer is valid and match indices are within [int]. *)
Definition peers_ok s : Prop :=
  Forall (λ r, ∃ n, heap s !! r = Some n ∧ INT_MIN < match_idx n ≤ INT_MAX) (nodes (srv s)).

(** Peer [r] is known to hold an entry of the current term at or beyond
    [point]. *)
Definition supports es s (point : Z) (r : nat) : bool :=
  negb (bool_decide (node (srv s) = Some r)) &&
  match heap s !! r with
  | Some n =>
    raft_node_is_voting n && (0 <? match_idx n) &&
    match entry_at (front (log (srv s))) es (match_idx n) with
    | Some e => (term e =? u32 (current_term (srv s))) && (point <=? match_idx n)
    | None => false
    end
  | None => false
  end.
Definition votes_at s (r : nat) : bool :=
  match heap s !! r with Some n => raft_node_is_voting n | None => false end.

Definition setmatch_quiet : Prop := ∀ f r i s, cb_setmatch cb = Some f →
  wp (f r i) none (λ _ s', untouched J s s') s.

(** Reads depend on the server, the heap and the mirror only. *)
Lemma untouched_linv es s s' : untouched J s s' → linv J es s → linv J es s'.
Proof. intros (Hs & _ & Hw) HI. apply (linv_view J es s); [by rewrite Hs|done|done]. Qed.

Lemma untouched_refl s : untouched J s s.
Proof. done. Qed.
Lemma untouched_trans s1 s2 s3 : untouched J s1 s2 → untouched J s2 s3 → untouched J s1 s3.
Proof. intros (? & ? & ?) (? & ? & ?). split_and!; [congruence..|auto]. Qed.

Lemma count_match_wp peer point votes i r es s :
  setmatch_quiet → linv J es s →
  (∃ n, heap s !! r = Some n ∧ INT_MIN < match_idx n ≤ INT_MAX) →
  wp (count_match cb peer point votes i r) none
    (λ v s', untouched J s s' ∧ v = votes + if supports es s point r then 1 else 0) s.
Proof.
  intros Hsm HI (n & Hn & Hm). unfold count_match, supports. rewrite wp_get_srv.
  destruct (bool_decide _); simpl; [rewrite wp_ret; split; [done|lia]|].
  unfold get_peer. rewrite wp_bind, wp_bind, wp_get, wp_deref, Hn.
  destruct (raft_node_is_voting n); simpl; [|rewrite wp_ret; split; [done|lia]].
  unfold raft_node_get_match_idx. destruct (Z.ltb_spec 0 (match_idx n)); simpl;
    [|rewrite wp_ret; split; [done|lia]].
  apply (read_entry_wp J _ es); [done|int_range|]. rewrite wp_get_srv.
  match goal with |- context [mret ?v] => set (v' := v) end.
  assert (v' = votes + if match entry_at (front (log (srv s))) es (match_idx n) with
    | Some e => (term e =? u32 (current_term (srv s))) && (point <=? match_idx n)
    | None => false end then 1 else 0) as -> by (subst v'; repeat case_match; lia).
  rewrite wp_bind, wp_when. case_bool_decide; [|by rewrite wp_ret].
  unfold call. destruct (cb_setmatch cb) as [f|] eqn:Hf; [|by rewrite wp_ret].
  rewrite wp_bind. eapply wp_mono; [by apply Hsm|done|]. intros ? s1 Hu. by rewrite wp_ret.
Qed.

Lemma supports_untouched es s s' point r :
  untouched J s s' → supports es s' point r = supports es s point r.
Proof. intros (Hs & Hh & _). unfold supports. by rewrite Hs, Hh. Qed.

Lemma count_match_loop_wp peer point votes k es s :
  setmatch_quiet → linv J es s → peers_ok s → (k ≤ length (nodes (srv s)))%nat →
  wp (count_match_loop cb k peer point votes (Z.of_nat (length (nodes (srv s)) - k))) none
    (λ v s', untouched J s s' ∧
       v = votes + count_of (supports es s point)
             (drop (length (nodes (srv s)) - k) (nodes (srv s)))) s.
Proof.
  intros Hsm. revert votes s. induction k as [|k IH]; intros votes s HI Hp Hk;
    simpl count_match_loop; rewrite wp_get_srv; unfold num_nodes.
  { replace (_ <? _) with false by lia. rewrite wp_ret, drop_ge by lia. split; [done|].
    unfold count_of. simpl. lia. }
  replace (_ <? _) with true by lia.
  destruct (lookup_lt_is_Some_2 (nodes (srv s)) (length (nodes (srv s)) - S k)) as [r Hr]; [lia|].
  rewrite wp_bind, (wp_aget _ _ r)
    by (rewrite zlookup_nonneg by lia; by rewrite Nat2Z.id).
  rewrite wp_bind. eapply wp_mono; [apply (count_match_wp _ _ _ _ _ es); [done..|]|done|].
  { by eapply (proj1 (Forall_lookup _ _) Hp). }
  intros v s1 [Hu ->]. pose proof Hu as (Hs & Hh & _).
  replace (Z.of_nat (length (nodes (srv s)) - S k) + 1)
    with (Z.of_nat (length (nodes (srv s1)) - k)) by (rewrite Hs; lia).
  eapply wp_mono; [apply IH|done|].
  - by eapply untouched_linv.
  - unfold peers_ok. by rewrite Hs, Hh.
  - rewrite Hs. lia.
  - intros v s2 [Hu2 ->]. split; [by eapply untouched_trans|]. rewrite Hs.
    rewrite (drop_S _ _ _ Hr), count_of_cons.
    replace (S (length (nodes (srv s)) - S k))%nat with (length (nodes (srv s)) - k)%nat by lia.
    unfold count_of. rewrite (list_filter_iff (supports es s1 point) (supports es s point)); [lia|].
    intros x. by rewrite (supports_untouched es s s1).
Qed.

Lemma num_voting_wp s :
  peers_ok s →
  wp raft_get_num_voting_nodes none
    (λ n s', s' = s ∧ n = count_of (votes_at s) (nodes (srv s))) s.
Proof.
  intros Hp. unfold raft_get_num_voting_nodes. rewrite wp_get_srv.
  cut (∀ z, wp (num_voting_loop (nodes (srv s)) z) none
    (λ n s', s' = s ∧ n = z + count_of (votes_at s) (nodes (srv s))) s).
  { intros Hl. eapply wp_mono; [apply Hl|done|]. intros n s' [-> ->]. done. }
  induction Hp as [|r rs (n & Hn & _) _ IH]; intros z; simpl num_voting_loop.
  { rewrite wp_ret. split; [done|]. unfold count_of. simpl. lia. }
  unfold get_peer. rewrite wp_bind, wp_bind, wp_get, wp_deref, Hn, count_of_cons.
  unfold votes_at at 1. rewrite Hn. eapply wp_mono; [apply IH|done|]. intros v s' [-> ->].
  split; [done|]. case_match; lia.
Qed.

(** C14: the leader's commit rule.  After an acknowledgement of [point], within
    its log, the leader's commit index moves to [point] exactly when it is
    behind and more than half of the voting members - itself and the voting
    peers whose match index reaches [point] and holds an entry of the current
    term - support it; otherwise it stays. *)
Theorem leader_commit_rule peer point es s :
  setmatch_quiet → linv J es s → peers_ok s → point ≤ back (log (srv s)) →
  let supporters := 1 + count_of (supports es s point) (nodes (srv s)) in
  let voting := count_of (votes_at s) (nodes (srv s)) in
  ∃ s', update_commit cb peer point s = Ret tt s' ∧ linv J es s'
    ∧ commit_idx (srv s') =
        if (voting `quot` 2 <? supporters) && (commit_idx (srv s) <? point)
        then point else commit_idx (srv s).
Proof.
  intros Hsm HI Hp Hpt supporters voting.
  assert (wp (update_commit cb peer point) none (λ _ s', linv J es s'
    ∧ commit_idx (srv s') =
        if (voting `quot` 2 <? supporters) && (commit_idx (srv s) <? point)
        then point else commit_idx (srv s)) s) as ([] & s' & Hrun & Hpost)%wp_none_ret; [|eauto].
  unfold update_commit. rewrite wp_get_srv, wp_bind.
  pose proof (count_match_loop_wp peer point 1 (length (nodes (srv s))) es s Hsm HI Hp
    ltac:(lia)) as Hloop.
  rewrite Nat.sub_diag in Hloop. eapply wp_mono; [exact Hloop|done|].
  intros v s1 [Hu ->]. rewrite drop_0. fold supporters. pose proof Hu as (Hs & Hh & _).
  pose proof (untouched_linv _ _ _ Hu HI) as HI1. pose proof HI1 as [Hrep1 [] HJ1].
  rewrite wp_bind. eapply wp_mono; [apply num_voting_wp; unfold peers_ok; by rewrite Hs, Hh|done|].
  intros n s2 [-> ->].
  assert (count_of (votes_at s1) (nodes (srv s1)) = voting) as ->.
  { unfold voting, count_of, votes_at. by rewrite Hs, Hh. }
  rewrite wp_get_srv, wp_when, Hs. destruct (_ && _) eqn:Hgo; [|by rewrite ?Hs].
  apply andb_true_iff in Hgo as [_ Hc].
  unfold raft_set_commit_idx, raft_get_current_idx, log_get_current_idx, upd_srv.
  rewrite wp_get_srv, wp_bind, wp_assert, Hs. replace (_ <=? _) with true by lia.
  rewrite wp_bind, wp_gets, wp_bind, wp_assert. simpl. rewrite Hs in *.
  replace (_ <=? _) with true by lia. rewrite wp_modify. simpl. split; [|done].
  split; [by rewrite Hs|split; simpl; rewrite ?Hs; lia|by rewrite Hs].
Qed.
End spec.

(** ** Witnesses in the recording environment *)

(** A server with two peers that has become the leader of term 1 and taken one
    entry from a client. *)
Definition leading : rstate env :=
  default boot (final (run_events env_cbs (λ _, 0)
    [EvAddNode 0 1 true; EvAddNode 0 2 false; EvAddNode 0 3 false; EvPeriodic 1001;
     EvRequestVoteResponse (Some 1%nat) {| rvr_term := 1; rvr_vote_granted := 1 |};
     EvEntry 0 (zero_entry <| id := 7 |>) true]) boot).
Definition leading_log : list raft_entry := [zero_entry <| id := 7 |> <| term := 1 |>].

Lemma leading_linv : linv env_mirror leading_log leading.
Proof. decide_linv. Qed.

Lemma requestvote_decision_witness :
  ∃ s', raft_recv_requestvote env_cbs
      {| rv_term := 2; rv_candidate_id := 1; rv_last_log_idx := 2; rv_last_log_term := 1 |} follower
    = Ret (0, {| rvr_term := 2; rvr_vote_granted := 1 |}) s' ∧ voted_for (srv s') = 1.
Proof.
  pose proof (requestvote_decision env_mirror env_cbs
    {| rv_term := 2; rv_candidate_id := 1; rv_last_log_idx := 2; rv_last_log_term := 1 |}
    [entry_of 1; entry_of 1] follower ltac:(by intros ? v s [= <-]) follower_linv ltac:(done)) as Hd.
  destruct (raft_recv_requestvote _ _ follower) as [xr s'|f]; [|by destruct Hd].
  destruct Hd as (_ & -> & _ & _ & Hv & _). exists s'. split; [done|]. by apply Hv.
Defined.

Lemma appendentries_describes_log_witness :
  ∃ etys, make_appendentries 2 follower = Ret {|
      ae_term := 1; ae_prev_log_idx := 1; ae_prev_log_term := 1; ae_leader_commit := 1;
      ae_entries := etys |} follower ∧ etys ≠ [].
Proof.
  destruct (appendentries_describes_log env_mirror 2 [entry_of 1; entry_of 1] follower)
    as (etys & Hrun & _ & Hne).
  - apply follower_linv.
  - by vm_compute.
  - exists etys. split; [exact Hrun|]. apply Hne. by vm_compute.
Defined.

Lemma apply_loop_applies_witness :
  ∃ s', apply_loop env_cbs follower = Ret true s'
    ∧ env_applied (world s') = [(0, entry_of 1)].
Proof.
  destruct (apply_loop_applies env_mirror env_cbs
    (λ e i, upd_env (λ w, w <| env_applied := env_applied w ++ [(i, e)] |>) ;;
      raft_checkpoint i ;; mret 0) env_applied [entry_of 1; entry_of 1] follower)
    as (s' & Hrun & _ & _ & _ & Htr).
  - done.
  - intros e i es s HI Hi. pose proof HI as [Hrep [] HJ]. rep_facts Hrep.
    unfold upd_env, raft_checkpoint, upd_srv.
    rewrite wp_bind, wp_modify, wp_bind, wp_bind, wp_iadd, wp_modify, wp_ret by int_range.
    split_and!; [|done..]. split; simpl; [done| |done]. split; simpl; try done. case_match; lia.
  - apply follower_linv.
  - exists s'. split; [exact Hrun|]. rewrite Htr. by vm_compute.
Defined.

(** The first peer has acknowledged the entry. *)
Definition leading_acked : rstate env :=
  leading <| heap := alter (raft_node_set_match_idx 1) 1%nat (heap leading) |>.

Lemma leader_commit_rule_witness :
  ∃ s', update_commit env_cbs 1%nat 1 leading_acked = Ret tt s' ∧ commit_idx (srv s') = 1.
Proof.
  destruct (leader_commit_rule env_mirror env_cbs 1%nat 1 leading_log leading_acked)
    as (s' & Hrun & _ & Hc).
  - by intros ? r i s [=].
  - decide_linv.
  - unfold peers_ok. assert (nodes (srv leading_acked) = [0; 1; 2]%nat) as ->
      by (vm_compute; reflexivity).
    repeat constructor;
      (eexists; split; [vm_compute; reflexivity|vm_compute; intuition congruence]).
  - by vm_compute.
  - exists s'. split; [exact Hrun|]. rewrite Hc. by vm_compute.
Defined.
