(* ===== verification/RaftClient.v ===== *)
(** Client entries on the leader and compaction, with total correctness: the
    round that offers the log to every voting peer, the entry and the batch a
    client submits, and the prefix that compaction gives up. *)

From S2P Require Import Prelude RaftNode RaftLog RaftServer RaftFrame RaftEnv RaftSafety.
From S2P Require Import RaftAppend RaftSpec.

Section client.
Context {W : Type} (J : Z → list raft_entry → W → Prop).
Context (sent : W → list nat).
Implicit Types (s : rstate W) (es : list raft_entry).

(** Only the log of the server changed, and no message was sent. *)
Definition only_log s s' : Prop :=
  srv s' = srv s <| log := log (srv s') |> ∧ heap s' = heap s ∧ rnd s' = rnd s
  ∧ sent (world s') = sent (world s).
#[export] Instance only_log_preorder : PreOrder only_log.
Proof.
  split; [by intros [[] ? ? ? ?]|].
  intros s1 s2 s3 (Ha & ? & ? & ?) (Hb & ? & ? & ?). split_and!; [|congruence..].
  rewrite Hb at 1. rewrite Ha at 1. done.
Qed.

(** What the environment promises a leader: log callbacks change nothing but the
    log, and a send returns how many of the offered entries it took; [sent] is
    the trace of the peers a message went to. *)
Class ClientCbs (cb : raft_cbs W) : Prop := {
  client_total :: TotalCbs J cb;
  client_frame :: LogFrame (cb_log cb) only_log;
  client_sends : is_Some (cb_send_appendentries cb);
  client_send : ∀ f r m s, cb_send_appendentries cb = Some f →
    wp (f r m) none (λ n s', untouched J s s' ∧ 0 ≤ n ≤ ae_n_entries m
      ∧ sent (world s') = sent (world s) ++ [r]) s
}.

Context (cb : raft_cbs W) `{!ClientCbs cb} (rand : nat → Z).

(** The peer can be sent to: its next index is an index. *)
Definition peer_sane s (r : nat) : Prop :=
  ∃ n, heap s !! r = Some n ∧ 1 ≤ next_idx n ≤ INT_MAX.

(** The peers a round goes to. *)
Definition target s (r : nat) : Prop := node (srv s) ≠ Some r ∧ votes_at s r = true.
#[export] Instance target_dec s r : Decision (target s r).
Proof. unfold target. apply _. Defined.

(** What sending leaves alone. *)
Record sent_step s s' : Prop := {
  sent_srv : srv s' = srv s;
  sent_mirror : ∀ f es, J f es (world s) → J f es (world s');
  sent_votes : ∀ r, votes_at s' r = votes_at s r;
  sent_sane : ∀ r, peer_sane s r → peer_sane s' r
}.
#[export] Instance sent_step_preorder : PreOrder sent_step.
Proof.
  split; [done|]. intros s1 s2 s3 [] []. split; [congruence|auto|congruence|auto].
Qed.

Lemma sent_step_linv es s s' : sent_step s s' → linv J es s → linv J es s'.
Proof. intros [Hs Hw _ _] HI. by apply (linv_view J es s); [rewrite Hs|auto|]. Qed.

Lemma sent_step_target s s' r : sent_step s s' → target s' r ↔ target s r.
Proof. intros [Hs _ Hv _]. unfold target. by rewrite Hs, Hv. Qed.

Lemma untouched_sent_step s s' : untouched J s s' → sent_step s s'.
Proof.
  intros (Hs & Hh & Hw). split; [done..|unfold votes_at; by rewrite Hh|].
  intros r (n & ? & ?). exists n. by rewrite Hh.
Qed.

(** Updating a peer's [next_idx] and timer. *)
Lemma upd_peer_sent r f s n E Q :
  heap s !! r = Some n → raft_node_is_voting (f n) = raft_node_is_voting n →
  1 ≤ next_idx (f n) ≤ INT_MAX →
  (∀ s', sent_step s s' → heap s' !! r = Some (f n) → world s' = world s → Q tt s') →
  wp (upd_peer r f) E Q s.
Proof.
  intros Hn Hv Hx HQ. unfold upd_peer, get_peer. rewrite wp_bind, wp_bind, wp_get, wp_deref, Hn.
  rewrite wp_modify. apply HQ; simpl; [|by rewrite lookup_insert_eq|done].
  split; simpl; [done..| |].
  - intros r'. unfold votes_at. simpl. destruct (decide (r' = r)) as [->|].
    + by rewrite lookup_insert_eq, Hn.
    + by rewrite lookup_insert_ne.
  - intros r' (n' & Hn' & ?). unfold peer_sane. simpl. destruct (decide (r' = r)) as [->|].
    + rewrite lookup_insert_eq. eauto.
    + rewrite lookup_insert_ne by done. eauto.
Qed.

Lemma entries_within es s next etys :
  linv J es s → etys ≠ [] →
  (∀ k ety, etys !! k = Some ety →
    entry_at (front (log (srv s))) es (next + Z.of_nat k) = Some ety) →
  next + Z.of_nat (length etys) ≤ back (log (srv s)) + 1.
Proof.
  intros [Hrep [] _] Hne Hat. rep_facts Hrep.
  destruct (last etys) as [e|] eqn:He; [|by apply last_None in He].
  rewrite last_lookup in He. apply Hat in He. unfold entry_at in He.
  apply zlookup_Some_range in He. assert (length etys ≠ 0%nat) by (by destruct etys). lia.
Qed.

Lemma raft_send_appendentries_wp r es s :
  linv J es s → peer_sane s r → node (srv s) ≠ Some r → back (log (srv s)) < INT_MAX →
  wp (raft_send_appendentries cb r) none
    (λ _ s', sent_step s s' ∧ sent (world s') = sent (world s) ++ [r]) s.
Proof.
  intros HI (n & Hn & Hnext) Hself Hback. unfold raft_send_appendentries.
  rewrite wp_get_srv, wp_bind, wp_assert, bool_decide_eq_true_2 by done.
  destruct (client_sends (cb := cb)) as [f Hf]. rewrite Hf. cbn iota.
  rewrite (wp_get_peer r n), wp_bind by done.
  eapply wp_mono; [by apply (make_appendentries_wp J _ es)|done|].
  intros ae s1 (-> & etys & -> & Hat & _). rewrite wp_bind.
  eapply wp_mono; [by apply (client_send f)|done|]. intros cnt s1 (Hu & Hcnt & Htr).
  pose proof Hu as (Hs & Hh & _). apply untouched_sent_step in Hu.
  unfold ae_n_entries in Hcnt. simpl in Hcnt.
  assert (1 ≤ next_idx n + cnt ≤ INT_MAX) as Hin.
  { destruct (decide (etys = [])) as [->|Hne]; simpl in *; [lia|].
    pose proof (entries_within es s _ etys HI Hne Hat). unfold raft_node_get_next_idx in *. lia. }
  rewrite wp_get_srv, wp_bind. destruct (multi_inflight _).
  - rewrite (wp_get_peer r n) by (by rewrite Hh).
    unfold raft_node_get_next_idx. rewrite wp_bind, wp_iadd by int_range. rewrite wp_bind.
    apply (upd_peer_sent r _ s1 n); [by rewrite Hh|done|simpl; case_match; lia|].
    intros s2 H2 Hh2 Hw2. rewrite wp_when. destruct (_ =? 0).
    + apply (upd_peer_sent r _ s2 _ _ _ Hh2); [done|simpl; case_match; lia|]. intros s3 H3 _ Hw3.
      rewrite wp_ret, Hw3, Hw2. split; [|done]. by etrans; [exact Hu|etrans].
    + rewrite wp_ret, Hw2. split; [|done]. by etrans.
  - apply (upd_peer_sent r _ s1 n); [by rewrite Hh|done|simpl; lia|].
    intros s2 H2 _ Hw2. rewrite wp_ret, Hw2. split; [|done]. by etrans.
Qed.
(** ** The round over the peers *)
Lemma filter_cons_app {A} (P : A → Prop) `{∀ x, Decision (P x)} x l :
  filter P (x :: l) = filter P [x] ++ filter P l.
Proof. by rewrite <- filter_app. Qed.

Lemma rotate_step (l : list nat) start k :
  (start < length l)%nat → (k < length l)%nat →
  rotate start l !! k = zlookup l ((Z.of_nat start + Z.of_nat k) mod Z.of_nat (length l)).
Proof.
  intros Hs Hk. rewrite lookup_rotate_r by done. unfold rotate_nat_add.
  pose proof (Z.mod_pos_bound (Z.of_nat start + Z.of_nat k) (Z.of_nat (length l)) ltac:(lia)).
  by rewrite zlookup_nonneg by lia.
Qed.

Lemma round_offer_wp r es s :
  linv J es s → peer_sane s r → back (log (srv s)) < INT_MAX →
  wp (round_offer cb r) none
    (λ _ s', sent_step s s' ∧
       sent (world s') = sent (world s) ++ filter (target s) [r]) s.
Proof.
  intros HI Hp Hb. pose proof Hp as (n & Hn & _). unfold round_offer. rewrite wp_get_srv.
  case_bool_decide as Hself.
  { rewrite wp_ret, filter_cons_False, filter_nil, app_nil_r by (by intros [? _]). done. }
  rewrite (wp_get_peer r n), wp_when by done. destruct (raft_node_is_voting n) eqn:Hv.
  - rewrite wp_bind. eapply wp_mono; [by apply (raft_send_appendentries_wp r es)|done|].
    intros ? s' [Hs Ht]. rewrite wp_ret, filter_cons_True, filter_nil; [done|].
    split; [done|]. unfold votes_at. by rewrite Hn.
  - rewrite filter_cons_False, filter_nil, app_nil_r; [done|].
    intros [_ Hv']. unfold votes_at in Hv'. rewrite Hn in Hv'. congruence.
Qed.

(** The position after [k] steps from [start] is back at [start] only after a
    full turn. *)
Lemma round_wraps start k n :
  0 ≤ start < n → 0 ≤ k < n → ((start + k) mod n + 1) mod n = (start + (k + 1)) mod n
    ∧ ((start + (k + 1)) mod n =? start) = (k + 1 =? n).
Proof.
  intros Hs Hk. rewrite Zplus_mod_idemp_l, <- Z.add_assoc. split; [done|].
  destruct (Z.eqb_spec (k + 1) n) as [->|].
  - rewrite <- Zplus_mod_idemp_r, Z_mod_same_full, Z.add_0_r, Z.mod_small by lia. lia.
  - apply Z.eqb_neq. intros He. destruct (decide (start + (k + 1) < n)).
    + rewrite Z.mod_small in He by lia. lia.
    + replace (start + (k + 1)) with (start + (k + 1) - n + 1 * n) in He by lia.
      rewrite Z_mod_plus_full, Z.mod_small in He by lia. lia.
Qed.

Lemma round_robin_wp m k start es s :
  let n := length (nodes (srv s)) in
  (n = k + S m)%nat →
  linv J es s → Forall (peer_sane s) (nodes (srv s)) → back (log (srv s)) < INT_MAX →
  (start < n)%nat → Z.of_nat n < INT_MAX →
  wp (round_robin cb (S m) (Z.of_nat start)
        ((Z.of_nat start + Z.of_nat k) mod Z.of_nat n)) none
    (λ _ s', sent_step s s' ∧ sent (world s') = sent (world s) ++
       filter (target s) (drop k (rotate start (nodes (srv s))))) s.
Proof.
  revert k s. induction m as [|m IH]; intros k s n Hm HI Hp Hb Hst Hn.
  all: destruct (lookup_lt_is_Some_2 (rotate start (nodes (srv s))) k) as [r Hr];
    [rewrite length_rotate; lia|].
  all: pose proof Hr as Hz; rewrite rotate_step in Hz by lia.
  all: assert (peer_sane s r) as Hpr
    by (apply zlookup_Some_elem in Hz; by eapply (proj1 (Forall_forall _ _) Hp)).
  all: pose proof (Z.mod_pos_bound (Z.of_nat start + Z.of_nat k) (Z.of_nat n) ltac:(lia)).
  all: destruct (round_wraps (Z.of_nat start) (Z.of_nat k) (Z.of_nat n)) as [Hnext Hend]; [lia..|].
  all: simpl round_robin; rewrite wp_get_srv, wp_bind, (wp_aget _ _ r) by done; rewrite wp_bind.
  all: eapply wp_mono; [by apply (round_offer_wp r es)|done|]; intros ? s1 [H1 Ht1].
  all: pose proof (sent_srv _ _ H1) as Hs1.
  all: rewrite wp_get_srv, wp_bind, wp_iadd by int_range.
  all: unfold num_nodes; rewrite Hs1; fold n; rewrite wp_bind, wp_irem by lia.
  all: rewrite Hnext, Hend, (drop_S _ _ _ Hr), filter_cons_app.
  - replace (_ =? _) with true by lia. rewrite wp_ret. split; [done|].
    rewrite drop_ge by (rewrite length_rotate; lia). by rewrite filter_nil, app_nil_r.
  - replace (_ =? _) with false by lia.
    replace (Z.of_nat k + 1) with (Z.of_nat (S k)) by lia.
    specialize (IH (S k) s1). cbv zeta in IH. rewrite Hs1 in IH. fold n in IH.
    eapply wp_mono; [apply IH; try done; [lia|by eapply sent_step_linv|]|done|].
    { eapply Forall_impl; [exact Hp|]. intros. by apply H1. }
    intros ? s2 [H2 Ht2]. split; [by etrans|].
    rewrite Ht2, Ht1, <- app_assoc. do 2 f_equal. apply list_filter_iff.
    intros. by apply sent_step_target.
Qed.
Lemma send_round_wp es s :
  linv J es s → nodes (srv s) ≠ [] → Forall (peer_sane s) (nodes (srv s)) →
  back (log (srv s)) < INT_MAX → num_nodes (srv s) < INT_MAX → 0 ≤ rand (rnd s) →
  wp (send_round cb rand) none
    (λ _ s', ∃ s1, sent_step s1 s' ∧ s1 = s <| rnd := S (rnd s) |>
       ∧ sent (world s') = sent (world s) ++
         filter (target s)
           (rotate (Z.to_nat (rand (rnd s) mod num_nodes (srv s))) (nodes (srv s)))) s.
Proof.
  unfold num_nodes. intros HI Hne Hp Hb Hn Hr.
  assert (length (nodes (srv s)) ≠ 0%nat) as Hlen by (by destruct (nodes (srv s))).
  unfold send_round, call_rand. rewrite wp_bind, wp_bind, wp_get, wp_bind, wp_modify, wp_ret.
  rewrite wp_get_srv, wp_bind. unfold num_nodes. simpl srv. rewrite wp_irem by lia.
  pose proof (Z.mod_pos_bound (rand (rnd s)) (Z.of_nat (length (nodes (srv s)))) ltac:(lia)).
  set (st := rand (rnd s) mod _) in *. set (s1 := s <| rnd := S (rnd s) |>).
  destruct (length (nodes (srv s))) as [|m] eqn:Hm; [done|].
  pose proof (round_robin_wp m 0 (Z.to_nat st) es s1) as Hround. cbv zeta in Hround.
  simpl srv in Hround. rewrite Hm in Hround.
  replace ((Z.of_nat (Z.to_nat st) + Z.of_nat 0) mod Z.of_nat (S m)) with st in Hround
    by (rewrite Z2Nat.id, Z.add_0_r, Z.mod_small by lia; done).
  rewrite Z2Nat.id in Hround by lia.
  eapply wp_mono; [apply Hround; try done; [by split; apply HI|lia]|done|].
  intros ? s' [H1 Ht]. exists s1. split_and!; done.
Qed.

(** ** Entries from clients *)
Lemma only_log_wp {A} (m : M (rstate W) A) P s :
  Pres only_log m → wp m none P s → wp m none (λ a s', P a s' ∧ only_log s s') s.
Proof. intros Hm Hw. exact (wp_conj _ _ _ _ _ Hw (Hm s)). Qed.

(** A leader ready for a round: known, sane peers and [n] indices to spare. *)
Record ready (n : Z) s : Prop := {
  ready_leader : state (srv s) = RAFT_STATE_LEADER;
  ready_nodes : nodes (srv s) ≠ [];
  ready_many : num_nodes (srv s) < INT_MAX;
  ready_peers : Forall (peer_sane s) (nodes (srv s));
  ready_rand : ∀ k, 0 ≤ rand k;
  ready_back : back (log (srv s)) + n < INT_MAX
}.

(** Where the round of a leader at [s] goes. *)
Definition round_targets s : list nat :=
  filter (target s) (rotate (Z.to_nat (rand (rnd s) mod num_nodes (srv s))) (nodes (srv s))).

(** The common end of both entry points. *)
Lemma offer_and_commit_wp es s :
  linv J es s → ready 0 s →
  wp (send_round cb rand ;; commit_if_alone) none
    (λ _ s', linv J es s' ∧ sent (world s') = sent (world s) ++ round_targets s
       ∧ srv s' = srv s <| commit_idx := if num_nodes (srv s) =? 1 then back (log (srv s))
                                          else commit_idx (srv s) |>) s.
Proof.
  intros HI []. rewrite wp_bind.
  eapply wp_mono; [apply (send_round_wp es); done || lia|done|].
  intros ? s2 (s1 & H1 & -> & Ht). pose proof (sent_srv _ _ H1) as Hs. simpl in Hs.
  apply (sent_step_linv es) in H1 as HI2; [|by split; apply HI].
  unfold commit_if_alone, raft_get_current_idx, log_get_current_idx.
  rewrite wp_get_srv, wp_bind, wp_gets, wp_when. simpl. rewrite Hs.
  destruct (num_nodes (srv s) =? 1).
  - unfold upd_srv. rewrite wp_modify. simpl. rewrite Hs. split_and!; [|done..].
    destruct HI2 as [Hrep [] ?]. rewrite Hs in *. rep_facts Hrep.
    split; simpl; [done|split; simpl; lia|done].
  - split_and!; [done..|]. by destruct (srv s).
Qed.

Lemma only_log_rest s s' : only_log s s' → same_rest s s'.
Proof. intros (Hs & _). unfold same_rest. by rewrite Hs. Qed.

(** After appending [c], the leader is ready for the round. *)
Lemma appended es c s s' :
  linv J es s → ready (Z.of_nat (length c)) s → only_log s s' →
  log_rep (log (srv s')) (es ++ c) → front (log (srv s')) = front (log (srv s)) →
  J (front (log (srv s))) (es ++ c) (world s') →
  linv J (es ++ c) s' ∧ ready 0 s'
  ∧ back (log (srv s')) = back (log (srv s)) + Z.of_nat (length c).
Proof.
  intros HI [] Ho Hrep' Hf HJ. pose proof HI as [Hrep [] _].
  rep_facts Hrep. rep_facts Hrep'. rewrite length_app in *.
  destruct (linv_new_log J es _ s s' HI (only_log_rest _ _ Ho) Hrep' Hf ltac:(lia) HJ)
    as (HI' & _ & _).
  split_and!; [done| |lia]. destruct Ho as (Hs & Hh & _).
  split; [by rewrite Hs..| |done|lia].
  rewrite Hs. simpl. eapply Forall_impl; [done|]. unfold peer_sane. by rewrite Hh.
Qed.

Lemma round_targets_only_log s s' : only_log s s' → round_targets s = round_targets s'.
Proof.
  intros (Hs & Hh & Hr & _). unfold round_targets, num_nodes. rewrite Hr, Hs. simpl.
  apply list_filter_iff. intros r. unfold target, votes_at. by rewrite Hs, Hh.
Qed.

Lemma append_entry_wp e es s :
  linv J es s → ready 1 s → 2 * size (log (srv s)) ≤ INT_MAX →
  wp (log_append_entry (cb_log cb) e) none
    (λ _ s', ∃ c, same_entry e c ∧ linv J (es ++ [c]) s' ∧ only_log s s'
       ∧ back (log (srv s')) = back (log (srv s)) + 1 ∧ ready 0 s') s.
Proof.
  intros HI Hr Hsz. pose proof HI as [Hrep [] HJ]. pose proof (ready_back _ _ Hr).
  pose proof (log_append_entry_wp (cb_log cb) none _ e es s Hrep HJ
    ltac:(left; simpl; lia)) as Happ.
  eapply wp_mono; [apply (only_log_wp _ _ _ (pres_log_append_entry _ _ e) Happ)|done|].
  intros ? s' [(c & Hc & Hrep' & Hf & HJ') Ho]. exists c.
  destruct (appended es [c] s s') as (? & ? & ?); done.
Qed.

Lemma append_batch_wp etys es s :
  linv J es s → ready (Z.of_nat (length etys)) s → etys ≠ [] →
  2 * (count (log (srv s)) + Z.of_nat (length etys)) ≤ INT_MAX →
  wp (log_append_batch (cb_log cb) etys (Z.of_nat (length etys))) none
    (λ rc s', Forall2 same_entry etys rc.2 ∧ linv J (es ++ rc.2) s' ∧ only_log s s'
       ∧ back (log (srv s')) = back (log (srv s)) + Z.of_nat (length etys) ∧ ready 0 s') s.
Proof.
  intros HI Hr Hne Hsz. pose proof HI as [Hrep [] HJ]. pose proof (ready_back _ _ Hr).
  pose proof (log_append_batch_wp (cb_log cb) none _ etys es s Hrep HJ Hne
    ltac:(left; simpl; lia)) as Happ.
  eapply wp_mono; [apply (only_log_wp _ _ _ (pres_log_append_batch _ _ etys _) Happ)|done|].
  intros [x c] s' [(Hc & Hrep' & Hf & HJ') Ho]. simpl in *.
  pose proof (Forall2_length _ _ _ Hc) as Hlen. rewrite Hlen in *.
  destruct (appended es c s s') as (? & ? & ?); done.
Qed.

(** A client's entry.  On a leader with room in its log and no voting change
    pending (or an entry that is none), [raft_recv_entry] returns success; the
    entry stands at the end of the log with the current term, the answer names
    its index and term, a leader on its own commits it at once, and exactly the
    other voting members are sent an AppendEntries, once each, from a random
    starting point. *)
Theorem client_entry_appended junk e want es s :
  linv J es s → ready 1 s → 2 * size (log (srv s)) ≤ INT_MAX →
  (raft_entry_is_voting_cfg_change e = true → voting_cfg_change_log_idx (srv s) = -1) →
  let idx := back (log (srv s)) + 1 in
  ∃ s' c, raft_recv_entry cb rand junk e want s =
      Ret (0, if want then Some {| er_id := id e; er_idx := idx;
                                   er_term := current_term (srv s) |} else None) s'
    ∧ linv J (es ++ [c]) s' ∧ term c = u32 (current_term (srv s)) ∧ type c = type e
    ∧ back (log (srv s')) = idx
    ∧ commit_idx (srv s') = (if num_nodes (srv s) =? 1 then idx else commit_idx (srv s))
    ∧ voting_cfg_change_log_idx (srv s') =
        (if raft_entry_is_voting_cfg_change e then idx else voting_cfg_change_log_idx (srv s))
    ∧ sent (world s') = sent (world s) ++ round_targets s.
Proof.
  intros HI Hr Hsz Hcfg idx.
  match goal with |- ∃ s' c, _ = Ret ?v s' ∧ @?P s' c =>
    cut (wp (raft_recv_entry cb rand junk e want) none (λ x s', x = v ∧ ∃ c, P s' c) s)
  end.
  { intros (x & s' & Hrun & -> & c & Hpost)%wp_none_ret. eauto. }
  unfold raft_recv_entry. rewrite wp_get_srv, bool_decide_eq_true_2 by apply Hr.
  replace (_ && negb _) with false
    by (destruct (raft_entry_is_voting_cfg_change e); [rewrite Hcfg|]; done).
  cbn [negb]. rewrite wp_bind.
  eapply wp_mono; [by apply (append_entry_wp _ es)|done|].
  intros ? s1 (c & (Hct & Hcy & _) & HI1 & Ho & Hb1 & Hr1).
  rewrite (round_targets_only_log _ _ Ho). destruct Ho as (Hs1 & _ & _ & Ht1).
  rewrite <- wp_bind_assoc, wp_bind.
  eapply wp_mono; [by apply (offer_and_commit_wp (es ++ [c]))|done|].
  intros ? s2 (HI2 & Ht2 & Hs2).
  unfold raft_get_current_idx, log_get_current_idx. rewrite wp_bind, wp_gets, wp_get_srv, wp_bind.
  assert (num_nodes (srv s1) = num_nodes (srv s) ∧ commit_idx (srv s1) = commit_idx (srv s)
    ∧ current_term (srv s1) = current_term (srv s)
    ∧ voting_cfg_change_log_idx (srv s1) = voting_cfg_change_log_idx (srv s))
    as (Hn & Hc & Hterm & Hvc) by (rewrite Hs1; done).
  rewrite wp_when. destruct (raft_entry_is_voting_cfg_change e); unfold upd_srv;
    rewrite ?wp_modify, wp_ret; simpl; rewrite Hs2; simpl;
    rewrite ?Hn, ?Hc, ?Hb1, ?Hterm, ?Hvc, Ht2, Ht1; (split; [done|]; exists c; split_and!; try done).
  apply (linv_view J _ s2); [|done..]. rewrite Hs2. unfold lview, lrest. simpl.
  by rewrite Hn, Hb1, Hc.
Qed.

(** ** Batches *)

(** At most one voting change is pending at a time. *)
Definition one_change (pending : Z) (etys : list raft_entry) : bool :=
  (length (filter (λ e, raft_entry_is_voting_cfg_change e = true) etys) +
     (if (pending =? -1)%Z then 0 else 1) <=? 1)%nat.

Definition stamped (t : Z) (etys : list raft_entry) : list raft_entry :=
  map (λ e, e <| term := u32 t |>) etys.

Lemma one_change_cons pending e etys :
  one_change pending (e :: etys) =
    if raft_entry_is_voting_cfg_change e
    then (pending =? -1) && one_change 0 etys else one_change pending etys.
Proof.
  unfold one_change. rewrite filter_cons. destruct (raft_entry_is_voting_cfg_change e); [|done].
  rewrite decide_True by done. simpl length. destruct (pending =? -1)%Z; cbn [andb].
  - f_equal. change (0 =? -1) with false. simpl. lia.
  - apply Nat.leb_gt. lia.
Qed.

Lemma one_change_pending p q etys :
  p ≠ -1 → q ≠ -1 → one_change p etys = one_change q etys.
Proof. unfold one_change. intros. by rewrite !(proj2 (Z.eqb_neq _ _)). Qed.

Lemma stamp_loop_wp etys i pending s :
  0 ≤ i → 0 ≤ back (log (srv s)) → back (log (srv s)) + i + Z.of_nat (length etys) ≤ INT_MAX →
  wp (stamp_loop etys i pending) none
    (λ res s', s' = s ∧
       match res with
       | inl _ => one_change pending etys = false
       | inr (etys', _) =>
         one_change pending etys = true ∧ etys' = stamped (current_term (srv s)) etys
       end) s.
Proof.
  revert i pending. induction etys as [|e etys IH]; intros i pending Hi H0 Hb; cbn [stamp_loop].
  { rewrite wp_ret. split; [done|]. split; [|done]. unfold one_change. simpl. by case_match. }
  simpl length in Hb. rewrite wp_get_srv, one_change_cons.
  change (raft_entry_is_voting_cfg_change (e <| term := u32 (current_term (srv s)) |>))
    with (raft_entry_is_voting_cfg_change e).
  destruct (raft_entry_is_voting_cfg_change e) eqn:Hcfg;
    [destruct (Z.eqb_spec pending (-1)) as [->|]; cbn [negb andb]; [|by rewrite wp_ret]|];
    cbn [negb andb]; rewrite ?andb_false_l;     unfold raft_get_current_idx, log_get_current_idx;
    rewrite wp_bind, wp_gets, wp_bind, wp_iadd, wp_bind, wp_iadd, wp_bind
      by (simpl; int_range);
    (eapply wp_mono; [apply IH; lia|done|]);
    intros [?|[es' d]] s' [-> Hres]; rewrite wp_ret; (split; [done|]).
  - by rewrite (one_change_pending _ (back (log (srv s)) + 1 + i)) by lia.
  - destruct Hres as [Hone ->].
    by rewrite (one_change_pending _ (back (log (srv s)) + 1 + i)) by lia.
  - done.
  - by destruct Hres as [? ->].
Qed.

(** C15: a client's batch.  On a leader with room for it, [raft_recv_entry_batch]
    returns.  If it would put a second voting change in flight it is refused and
    the server is unchanged; otherwise all entries stand at the end of the log
    in order with the current term, a leader on its own commits them, and the
    other voting members are sent one AppendEntries each.  All answers are the
    same: the id of the first entry and the index of the last. *)
Theorem client_batch_appended etys want es s :
  linv J es s → ready (Z.of_nat (length etys)) s → etys ≠ [] →
  2 * (count (log (srv s)) + Z.of_nat (length etys)) ≤ INT_MAX →
  let idx := back (log (srv s)) + Z.of_nat (length etys) in
  ∃ x s', raft_recv_entry_batch cb rand etys want s = Ret x s' ∧
    if one_change (voting_cfg_change_log_idx (srv s)) etys then
      x.1.1 = 0
      ∧ x.2 = (if want then replicate (length etys)
                 {| er_id := match x.1.2 with e :: _ => id e | [] => 0 end;
                    er_idx := idx; er_term := current_term (srv s) |} else [])
      ∧ linv J (es ++ x.1.2) s'
      ∧ Forall2 same_entry (stamped (current_term (srv s)) etys) x.1.2
      ∧ back (log (srv s')) = idx
      ∧ commit_idx (srv s') = (if num_nodes (srv s) =? 1 then idx else commit_idx (srv s))
      ∧ sent (world s') = sent (world s) ++ round_targets s
    else x.1.1 = RAFT_ERR_ONE_VOTING_CHANGE_ONLY ∧ s' = s.
Proof.
  intros HI Hr Hne Hsz idx. apply (proj1 (wp_none_ret _ _ _)).
  pose proof HI as [Hrep _ _]. rep_facts Hrep. pose proof (ready_back _ _ Hr).
  unfold raft_recv_entry_batch.
  rewrite wp_get_srv, bool_decide_eq_true_2 by apply Hr. cbn [negb]. rewrite wp_bind.
  eapply wp_mono; [apply stamp_loop_wp; lia|done|].
  intros [?|[etys' d]] s0 [-> Hres]; [by rewrite Hres, wp_ret|].
  destruct Hres as [-> ->]. unfold upd_srv. rewrite wp_bind, wp_modify.
  set (s0 := s <| srv := _ |>). rewrite wp_bind.
  assert (length (stamped (current_term (srv s)) etys) = length etys) as Hlen by apply length_map.
  eapply wp_mono; [apply (append_batch_wp _ es)|done|].
  { by apply (linv_view J es s). }
  { rewrite Hlen. destruct Hr. by split. }
  { intros Hnil. rewrite Hnil in Hlen. by destruct etys. }
  { rewrite Hlen. done. }
  intros [x rc] s1 (Hsame & HI1 & Ho & Hb1 & Hr1). simpl in Hsame, HI1.
  assert (round_targets s = round_targets s1) as ->.
  { by rewrite <- (round_targets_only_log _ _ Ho). }
  destruct Ho as (Hs1 & _ & _ & Ht1).
  rewrite <- wp_bind_assoc, wp_bind.
  eapply wp_mono; [by apply (offer_and_commit_wp (es ++ rc))|done|].
  intros ? s2 (HI2 & Ht2 & Hs2).
  unfold raft_get_current_idx, log_get_current_idx. rewrite wp_bind, wp_gets, wp_get_srv, wp_ret.
  assert (num_nodes (srv s1) = num_nodes (srv s) ∧ commit_idx (srv s1) = commit_idx (srv s)
    ∧ current_term (srv s1) = current_term (srv s)) as (Hn & Hc & Hterm) by (rewrite Hs1; done).
  simpl. split_and!; try done.
  - rewrite Hs2. simpl. rewrite <- (Forall2_length _ _ _ Hsame), Hb1, Hlen, Hterm. done.
  - rewrite Hs2. simpl. rewrite Hb1, Hlen. done.
  - rewrite Hs2. simpl. rewrite Hn, Hc, Hb1, Hlen. done.
  - by rewrite Ht2, Ht1.
Qed.

(** ** Compaction *)

(** Compaction.  [compact_log] returns; when the checkpoint is more than two
    targets ahead of the compacted prefix it gives up exactly the oldest
    [log_target] entries, which leaves more than a target's worth below the
    checkpoint, and otherwise does nothing; no index but the compacted one
    moves. *)
Theorem compaction_trims es s :
  linv J es s → last_compacted_idx (srv s) + 2 * log_target (srv s) ≤ INT_MAX →
  let n := if log_base (srv s) <=? front (log (srv s)) + 2 * log_target (srv s) then 0
           else log_target (srv s) in
  ∃ s', compact_log cb s = Ret tt s' ∧ linv J (drop (Z.to_nat n) es) s'
    ∧ front (log (srv s')) = front (log (srv s)) + n
    ∧ back (log (srv s')) = back (log (srv s))
    ∧ (0 < n → front (log (srv s')) + log_target (srv s) < log_base (srv s'))
    ∧ commit_idx (srv s') = commit_idx (srv s)
    ∧ last_applied_idx (srv s') = last_applied_idx (srv s)
    ∧ log_base (srv s') = log_base (srv s).
Proof.
  intros HI Hmax n. pose proof HI as [Hrep [] HJ]. rep_facts Hrep.
  match goal with |- ∃ s', _ ∧ @?P s' => cut (wp (compact_log cb) none (λ _ s', P s') s) end.
  { intros ([] & s' & ? & ?)%wp_none_ret. eauto. }
  unfold compact_log. rewrite wp_get_srv, wp_bind, wp_imul, wp_bind, wp_iadd by int_range.
  subst n. replace (last_compacted_idx (srv s)) with (front (log (srv s))) by done.
  destruct (Z.leb_spec (log_base (srv s)) (front (log (srv s)) + 2 * log_target (srv s))).
  { rewrite wp_ret, drop_0. split_and!; done || lia. }
  rewrite wp_bind, wp_iadd, wp_bind, wp_isub by int_range.
  replace (front (log (srv s)) + log_target (srv s) - front (log (srv s)))
    with (log_target (srv s)) by lia.
  pose proof (log_poll_batch_wp (cb_log cb) none _ (log_target (srv s)) es s Hrep HJ
    ltac:(lia) ltac:(intros ->; simpl in *; lia)) as Hpoll. cbv zeta in Hpoll.
  change (the_log s) with (log (srv s)) in Hpoll.
  rewrite Z.min_l in Hpoll by lia. rewrite wp_bind.
  eapply wp_mono; [apply (only_log_wp _ _ _ (pres_log_poll_batch _ _ _) Hpoll)|done|].
  intros ? s1 [(Hrep1 & Hf1 & HJ1) Ho]. unfold upd_srv. rewrite wp_modify.
  destruct Ho as (Hs & _). simpl in *. rep_facts Hrep1. rewrite length_drop in *.
  assert (last_applied_idx (srv s1) = last_applied_idx (srv s) ∧ log_base (srv s1) = log_base (srv s)
    ∧ log_target (srv s1) = log_target (srv s) ∧ commit_idx (srv s1) = commit_idx (srv s))
    as (? & ? & ? & ?) by (rewrite Hs; done).
  split_and!; try (lia || congruence). split; simpl; [done|split; simpl; lia|by rewrite Hf1].
Qed.
End client.

(** ** The recording environment *)
Definition env_peers (w : env) : list nat := map fst (env_sent w).

#[export] Instance env_client : ClientCbs env_mirror env_peers env_cbs.
Proof.
  split; [apply _| |by eexists|].
  - split; [apply _|by intros l [[] ? ? ? ?]|..]; simpl; intros ? [= <-]; intros; intros s;
      unfold wp; simpl; try destruct (_ =? _); simpl; by destruct s as [[] ? ? ? []].
  - intros ? r m s [= <-]. unfold wp, env_peers, ae_n_entries. simpl. rewrite map_app. simpl.
    split_and!; [done..|lia|lia|done].
Qed.

Lemma leading_ready n : 0 ≤ n ≤ 100 → ready (λ _, 0) n leading.
Proof.
  intros Hn. split.
  - vm_compute. reflexivity.
  - vm_compute. congruence.
  - vm_compute. reflexivity.
  - assert (nodes (srv leading) = [0; 1; 2]%nat) as -> by (vm_compute; reflexivity).
    repeat constructor;
      (eexists; split; [vm_compute; reflexivity|vm_compute; intuition congruence]).
  - done.
  - assert (back (log (srv leading)) = 1) as -> by (vm_compute; reflexivity). unfold INT_MAX. lia.
Qed.

Lemma client_entry_appended_witness :
  ∃ s', raft_recv_entry env_cbs (λ _, 0) 0 (zero_entry <| id := 8 |>) true leading =
      Ret (0, Some {| er_id := 8; er_idx := 2; er_term := 1 |}) s'
    ∧ back (log (srv s')) = 2 ∧ env_peers (world s') = env_peers (world leading) ++ [1; 2]%nat.
Proof.
  destruct (client_entry_appended env_mirror env_peers env_cbs (λ _, 0) 0
    (zero_entry <| id := 8 |>) true leading_log leading) as (s' & c & Hrun & _ & _ & _ & Hb & _ & _ & Ht).
  - apply leading_linv.
  - apply leading_ready. lia.
  - vm_compute. congruence.
  - done.
  - exists s'. split; [exact Hrun|]. rewrite Hb, Ht. split; vm_compute; reflexivity.
Defined.

Lemma client_batch_appended_witness :
  ∃ x s', raft_recv_entry_batch env_cbs (λ _, 0)
      [zero_entry <| id := 8 |>; zero_entry <| id := 9 |>] true leading = Ret x s'
    ∧ x.1.1 = 0 ∧ back (log (srv s')) = 3.
Proof.
  destruct (client_batch_appended env_mirror env_peers env_cbs (λ _, 0)
    [zero_entry <| id := 8 |>; zero_entry <| id := 9 |>] true leading_log leading)
    as (x & s' & Hrun & Hx).
  - apply leading_linv.
  - apply leading_ready. simpl. lia.
  - done.
  - vm_compute. congruence.
  - replace (one_change _ _) with true in Hx by (vm_compute; reflexivity).
    destruct Hx as (Hx & _ & _ & _ & Hb & _). exists x, s'. split; [exact Hrun|].
    rewrite Hb. split; [exact Hx|vm_compute; reflexivity].
Defined.

(** A follower that has applied and checkpointed three entries with a log target
    of one. *)
Definition checkpointed : rstate env :=
  default boot (final (run_events env_cbs (λ _, 0)
    [EvAddNode 0 1 false; EvAddNode 0 2 true;
     EvAppendEntries None {| ae_term := 1; ae_prev_log_idx := 0; ae_prev_log_term := 0;
       ae_leader_commit := 3; ae_entries := [entry_of 1; entry_of 1; entry_of 1] |};
     EvPeriodic 1; EvSetLogTarget 1]) boot).

Lemma compaction_trims_witness :
  ∃ s', compact_log env_cbs checkpointed = Ret tt s' ∧ front (log (srv s')) = 1.
Proof.
  destruct (compaction_trims env_mirror env_peers env_cbs [entry_of 1; entry_of 1; entry_of 1]
    checkpointed) as (s' & Hrun & _ & Hf & _).
  - decide_linv.
  - vm_compute. congruence.
  - exists s'. split; [exact Hrun|]. rewrite Hf. vm_compute. reflexivity.
Defined.
