(* ===== verification/RaftDefects.v ===== *)
(** Behaviours of the Raft server that contradict its comments or the protocol,
    each as a theorem about the code as written. *)

From S2P Require Import Prelude RaftNode RaftLog RaftServer RaftFrame RaftEnv RaftSafety.
From S2P Require Import RaftAppend.

Section defects.
Context {W : Type} (J : Z → list raft_entry → W → Prop).
Context (cb : raft_cbs W) `{!TotalCbs J cb}.
Implicit Types (s : rstate W) (es : list raft_entry).

(** Reaching the consistency check in the current term. *)
Lemma recv_current_term peer ae s Q E :
  ae_prev_log_term ae ≠ -1 → ae_term ae = current_term (srv s) →
  state (srv s) = RAFT_STATE_FOLLOWER →
  (∀ s1, keeps J s s1 →
    wp (bad ← ae_prev_check cb ae;
        match bad with
        | Some cur => ae_fail (ae_term ae) cur
        | None => ae_accept cb peer ae (ae_term ae)
        end) E Q s1) →
  wp (raft_recv_appendentries cb peer ae) E Q s.
Proof.
  intros Hex Ht Hst Hk. unfold raft_recv_appendentries. rewrite wp_get_srv, wp_bind.
  match goal with |- wp (when ?b _) _ _ _ =>
    destruct (reset_timeout_run J b s) as (s1 & Hrun & Hk1 & Hh1 & Hn1 & Ht1) end.
  assert (state (srv s1) = RAFT_STATE_FOLLOWER) as Hst1.
  { revert Hrun. unfold when. case_match; intros [= <-]; done. }
  unfold wp at 1. rewrite Hrun, (proj2 (Z.eqb_neq _ _) Hex), wp_get_srv, wp_bind.
  unfold ae_term_check. rewrite wp_get_srv, Hst1. simpl.
  rewrite Ht1, Ht, Z.ltb_irrefl, wp_ret, <- Ht. by apply Hk.
Qed.

(** C38: a delayed heartbeat aborts the server.  When a heartbeat of the current
    term refers to an entry that is two or more below the last index and below
    the commit index - as one that was overtaken by later messages does - the
    assertion before the truncation fails, although nothing conflicts. *)
Theorem stale_heartbeat_aborts peer ae es s :
  linv J es s → state (srv s) = RAFT_STATE_FOLLOWER → ae_term ae = current_term (srv s) →
  ae_prev_log_term ae ≠ -1 → ae_entries ae = [] → prev_matches ae es s →
  0 < ae_prev_log_idx ae → ae_prev_log_idx ae + 1 < back (log (srv s)) →
  ae_prev_log_idx ae + 1 ≤ commit_idx (srv s) →
  raft_recv_appendentries cb peer ae s = Stop Assert.
Proof.
  intros HI Hst Ht Hex Hnil Hprev Hpos Hback Hc.
  cut (wp (raft_recv_appendentries cb peer ae) (λ f, f = Assert) (λ _ _, False) s).
  { unfold wp. by destruct (raft_recv_appendentries cb peer ae s) as [|?]; [|intros ->]. }
  apply recv_current_term; [done..|]. intros s1 Hk. pose proof (keeps_linv J es s s1 Hk HI) as HI1.
  assert (log (srv s1) = log (srv s) ∧ log_base (srv s1) = log_base (srv s)
    ∧ commit_idx (srv s1) = commit_idx (srv s)) as (Hl & Hb & Hc1).
  { destruct Hk as [[= Hl Hc1 _ Hb _ _] _]. done. }
  pose proof HI1 as [Hrep1 [] _]. rep_facts Hrep1.
  rewrite wp_bind. eapply wp_mono; [apply (ae_prev_check_wp J cb ae es)|done|].
  { done. } { unfold prev_matches. by rewrite Hl, Hb. } { rewrite Hl. lia. }
  intros o s2 [-> ->]. unfold ae_accept, ae_store, ae_n_entries. rewrite Hnil. simpl.
  unfold raft_get_current_idx, log_get_current_idx.
  rewrite wp_bind, wp_bind, wp_gets, wp_bind. replace (0 <? _) with true by lia.
  rewrite wp_bind, wp_iadd by (rewrite Hl in *; int_range). rewrite wp_when. simpl.
  rewrite Hl. replace (_ <? _) with true by lia.
  unfold truncate_from. rewrite wp_get_srv, wp_bind, wp_assert.
  by replace (_ <? _) with false by lia.
Qed.

(** A heartbeat that lags behind throws away entries.  If nothing above the
    predecessor is committed, the same message makes the server delete every
    entry above it, though it carries no entry that could conflict, and
    acknowledge the shorter log with success. *)
Theorem stale_heartbeat_truncates peer ae es s :
  linv J es s → state (srv s) = RAFT_STATE_FOLLOWER → ae_term ae = current_term (srv s) →
  ae_prev_log_term ae ≠ -1 → ae_entries ae = [] → prev_matches ae es s →
  0 < ae_prev_log_idx ae → ae_prev_log_idx ae + 1 < back (log (srv s)) →
  commit_idx (srv s) ≤ ae_prev_log_idx ae → ae_leader_commit ae ≤ commit_idx (srv s) →
  2 * count (log (srv s)) ≤ INT_MAX →
  ∃ r s', raft_recv_appendentries cb peer ae s = Ret (0, r) s'
    ∧ aer_success r = 1 ∧ aer_current_idx r = ae_prev_log_idx ae
    ∧ back (log (srv s')) = ae_prev_log_idx ae.
Proof.
  intros HI Hst Ht Hex Hnil Hprev Hpos Hback Hc Hlc Hsz.
  cut (wp (raft_recv_appendentries cb peer ae) none (λ xr s', xr.1 = 0 ∧ aer_success xr.2 = 1
    ∧ aer_current_idx xr.2 = ae_prev_log_idx ae ∧ back (log (srv s')) = ae_prev_log_idx ae) s).
  { intros ([x r] & s' & Hrun & Hx & Hpost)%wp_none_ret. simpl in Hx. subst x. eauto. }
  apply recv_current_term; [done..|]. intros s1 Hk. pose proof (keeps_linv J es s s1 Hk HI) as HI1.
  assert (log (srv s1) = log (srv s) ∧ log_base (srv s1) = log_base (srv s)
    ∧ commit_idx (srv s1) = commit_idx (srv s)) as (Hl & Hb & Hc1).
  { destruct Hk as [[= Hl Hc1 _ Hb _ _] _]. done. }
  pose proof HI1 as [Hrep1 [] _]. rep_facts Hrep1.
  rewrite wp_bind. eapply wp_mono; [apply (ae_prev_check_wp J cb ae es)|done|].
  { done. } { unfold prev_matches. by rewrite Hl, Hb. } { rewrite Hl. lia. }
  intros o s2 [-> ->]. unfold ae_accept, ae_store, ae_n_entries. rewrite Hnil. simpl.
  unfold raft_get_current_idx, log_get_current_idx.
  rewrite wp_bind, wp_bind, wp_gets, wp_bind. replace (0 <? _) with true by lia.
  rewrite wp_bind, wp_iadd by (rewrite Hl in *; int_range). rewrite wp_when. simpl.
  rewrite Hl. replace (_ <? _) with true by lia.
  eapply wp_mono; [apply (truncate_from_wp J cb _ es s1 HI1); rewrite ?Hl; lia|done|].
  intros ? s2 (HI2 & Hr2 & Hf2). rewrite wp_bind, wp_ret. simpl.
  pose proof (linv_rep _ _ _ HI2) as Hrep2. rep_facts Hrep2. rewrite length_take in *.
  assert (commit_idx (srv s2) = commit_idx (srv s1)) as Hc2 by (unfold lrest in Hr2; congruence).
  rewrite wp_ret. simpl. rewrite wp_bind, wp_ret, wp_bind, wp_ret, wp_bind.
  unfold follower_commit.
  rewrite wp_get_srv, wp_when. replace (_ <? _) with false by lia.
  unfold upd_srv. rewrite wp_bind, wp_modify, wp_bind, wp_iadd by (rewrite Hl in *; int_range).
  rewrite wp_ret. simpl. split_and!; [done|done|lia|]. rewrite Hl, Hf2 in *. lia.
Qed.

(** A server without voting rights that receives an AppendEntries of a newer
    term calls [log_delete] on itself instead of on its log: the handler always
    ends in undefined behaviour, before it stores or answers anything. *)
Theorem nonvoting_newer_term_undefined peer ae r n s :
  ae_prev_log_term ae ≠ -1 → current_term (srv s) < ae_term ae →
  node (srv s) = Some r → heap s !! r = Some n → raft_node_is_voting n = false →
  raft_recv_appendentries cb peer ae s = Stop UB.
Proof.
  intros Hex Ht Hn Hr Hv.
  cut (wp (raft_recv_appendentries cb peer ae) (λ f, f = UB) (λ _ _, False) s).
  { unfold wp. by destruct (raft_recv_appendentries cb peer ae s) as [|?]; [|intros ->]. }
  unfold raft_recv_appendentries. rewrite wp_get_srv, wp_bind.
  match goal with |- wp (when ?b _) _ _ _ =>
    destruct (reset_timeout_run J b s) as (s1 & Hrun & _ & Hh1 & Hn1 & Ht1) end.
  unfold wp at 1. rewrite Hrun, (proj2 (Z.eqb_neq _ _) Hex), wp_get_srv, wp_bind.
  unfold ae_term_check. rewrite wp_get_srv, Ht1.
  replace (current_term (srv s) =? ae_term ae) with false by lia.
  rewrite andb_false_r. replace (_ <? _) with true by lia. rewrite wp_bind.
  eapply wp_mono; [apply (set_newer_term_wp J cb (ae_term ae) s1); lia|done|]. intros ? s2 (_ & Hh2 & Hn2 & _).
  destruct (set_state_wp J RAFT_STATE_FOLLOWER s2) as (s3 & Hs3 & _ & Hh3 & Hn3 & _).
  rewrite wp_bind. unfold wp at 1. unfold raft_become_follower. rewrite Hs3.
  rewrite wp_get_srv, Hn3, Hn2, Hn1, Hn, wp_bind, wp_deref, wp_bind.
  unfold get_peer. by rewrite wp_bind, wp_get, wp_deref, Hh3, Hh2, Hh1, Hr, Hv.
Qed.
End defects.

(** The follower after the leader of term 2 overwrote its second entry, and a
    heartbeat that was sent before. *)
Definition overwritten : rstate env :=
  default boot (final (raft_recv_appendentries env_cbs None overwrite) follower).
Definition old_heartbeat : msg_appendentries := {|
  ae_term := 2; ae_prev_log_idx := 1; ae_prev_log_term := 1; ae_leader_commit := 1;
  ae_entries := [] |}.

Definition early_heartbeat : msg_appendentries := {|
  ae_term := 1; ae_prev_log_idx := 1; ae_prev_log_term := 1; ae_leader_commit := 1;
  ae_entries := [] |}.

Lemma overwritten_linv : linv env_mirror [entry_of 1; entry_of 2; entry_of 2] overwritten.
Proof. decide_linv. Qed.

Lemma stale_heartbeat_aborts_witness :
  raft_recv_appendentries env_cbs None old_heartbeat overwritten = Stop Assert.
Proof.
  refine (stale_heartbeat_aborts env_mirror env_cbs None old_heartbeat _ _ overwritten_linv
    _ _ _ _ _ _ _ _); try (by vm_compute).
  intros _ _. eexists. by split.
Defined.

(** Three entries of which one is committed. *)
Definition long_follower : rstate env :=
  default boot (final (run_events env_cbs (λ _, 0)
    [EvAddNode 0 1 false; EvAddNode 0 2 true;
     EvAppendEntries None {| ae_term := 1; ae_prev_log_idx := 0; ae_prev_log_term := 0;
       ae_leader_commit := 1; ae_entries := [entry_of 1; entry_of 1; entry_of 1] |}]) boot).

Lemma long_follower_linv : linv env_mirror [entry_of 1; entry_of 1; entry_of 1] long_follower.
Proof. decide_linv. Qed.

Lemma stale_heartbeat_truncates_witness :
  ∃ r s', raft_recv_appendentries env_cbs None early_heartbeat long_follower
      = Ret (0, r) s'
    ∧ aer_success r = 1 ∧ aer_current_idx r = 1 ∧ back (log (srv s')) = 1.
Proof.
  refine (stale_heartbeat_truncates env_mirror env_cbs None early_heartbeat
    _ _ long_follower_linv _ _ _ _ _ _ _ _ _ _); try (by vm_compute).
  intros _ _. eexists. by split.
Defined.

(** A server that has joined without voting rights. *)
Definition joining : rstate env :=
  default boot (final (run_events env_cbs (λ _, 0)
    [EvAddNode 0 1 false; EvAddNonVotingNode 0 2 true]) boot).

Lemma nonvoting_newer_term_undefined_witness :
  raft_recv_appendentries env_cbs None overwrite joining = Stop UB.
Proof.
  refine (nonvoting_newer_term_undefined env_mirror env_cbs None overwrite 1%nat
    (default (raft_node_new 0 2) (heap joining !! 1%nat)) joining _ _ _ _ _); by vm_compute.
Defined.

(** A follower with three entries of term 1, of which the last two were never
    committed, in term 2. *)
Definition stale_follower : rstate env :=
  default boot (final (run_events env_cbs (λ _, 0)
    [EvAddNode 0 1 false; EvAddNode 0 2 true;
     EvAppendEntries None {| ae_term := 1; ae_prev_log_idx := 0; ae_prev_log_term := 0;
       ae_leader_commit := 0; ae_entries := [entry_of 1; entry_of 1; entry_of 1] |}]) boot).

(** A follower commits entries no message of the new leader has confirmed.
    The leader of term 2 confirms index 1 and reports commit index 3; the
    follower, whose entries 2 and 3 are left over from term 1, commits all three
    while acknowledging only index 1. *)
Theorem commit_overruns_confirmed :
  ∃ s', raft_recv_appendentries env_cbs None
      {| ae_term := 2; ae_prev_log_idx := 0; ae_prev_log_term := 0; ae_leader_commit := 3;
         ae_entries := [entry_of 1] |} stale_follower
    = Ret (0, {| aer_term := 2; aer_success := 1; aer_current_idx := 1; aer_first_idx := 1 |}) s'
    ∧ commit_idx (srv s') = 3 ∧ log_contents (log (srv s')) = replicate 3 (entry_of 1).
Proof. eexists. split; [vm_compute; reflexivity|]. split; by vm_compute. Qed.

(** A follower that applied three entries and compacted the first away. *)
Definition compacted_follower : rstate env :=
  default boot (final (run_events env_cbs (λ _, 0)
    [EvAddNode 0 1 false; EvAddNode 0 2 true; EvSetLogTarget 1;
     EvAppendEntries None {| ae_term := 1; ae_prev_log_idx := 0; ae_prev_log_term := 0;
       ae_leader_commit := 3;
       ae_entries := [entry_of 1 <| id := 1 |>; entry_of 1 <| id := 2 |>;
                      entry_of 1 <| id := 3 |>] |};
     EvPeriodic 1]) boot).

(** Below the compacted prefix an old message is appended at the tail.  The
    follower holds indices 2 and 3; a duplicate of the message that carried
    index 1 finds no entry there and its entry lands at index 4. *)
Theorem compacted_duplicate_appended :
  front (log (srv compacted_follower)) = 1 ∧ back (log (srv compacted_follower)) = 3
  ∧ ∃ s', raft_recv_appendentries env_cbs None
      {| ae_term := 1; ae_prev_log_idx := 0; ae_prev_log_term := 0; ae_leader_commit := 1;
         ae_entries := [entry_of 1 <| id := 1 |>] |} compacted_follower
    = Ret (0, {| aer_term := 1; aer_success := 1; aer_current_idx := 1; aer_first_idx := 1 |}) s'
    ∧ map id (log_contents (log (srv s'))) = [2; 3; 1].
Proof.
  split; [by vm_compute|]. split; [by vm_compute|].
  eexists. split; [vm_compute; reflexivity|]. by vm_compute.
Qed.
