(* ===== verification/RaftElection.v ===== *)
(** Elections: votes of one server and Election Safety of a cluster.

    The view of a server that elections depend on is its term, vote, role, its
    own peer and the identity and flags of the peers.  [einv V] says that this
    view is consistent with a history [V] of votes ([V t n c]: server [n] voted
    for [c] in term [t]); every handler keeps it for a history extended by the
    server's own votes.  A cluster is a map of servers with the vote responses
    sent so far, which may be lost, reordered and duplicated. *)

From S2P Require Import Prelude RaftNode RaftLog RaftServer RaftFrame RaftEnv.

#[local] Arguments raft_node_vote_for_me : simpl never.

Record eview := mk_eview {
  e_term : Z;
  e_vote : Z;
  e_state : raft_state_e;
  e_node : option nat;
  e_nodes : list nat;
  e_peers : gmap nat (Z * bool * bool)
}.
#[export] Instance eview_fields : FieldsOf eview :=
  λ r, mk_eview (e_term r) (e_vote r) (e_state r) (e_node r) (e_nodes r) (e_peers r).

Definition eview_of {W} (s : rstate W) : eview := {|
  e_term := current_term (srv s); e_vote := voted_for (srv s); e_state := state (srv s);
  e_node := node (srv s); e_nodes := nodes (srv s); e_peers := pview <$> heap s
|}.

(** [r] is a peer other than the server whose vote counts. *)
Definition counted (v : eview) (r : nat) : bool :=
  negb (bool_decide (e_node v = Some r))
  && match e_peers v !! r with Some (_, b, h) => b && h | None => false end.
Definition is_voter (v : eview) (r : nat) : bool :=
  match e_peers v !! r with Some (_, b, _) => b | None => false end.
(** ** One server *)
Section views.
Context {W : Type}.
Implicit Types (s : rstate W).

Definition same_view s s' : Prop := eview_of s' = eview_of s.
#[export] Instance same_view_preorder : PreOrder same_view.
Proof. split; [done|]. intros s1 s2 s3 H1 H2. unfold same_view in *. congruence. Qed.

Lemma pres_view_upd_srv f :
  (∀ me, core (f me) = core me) → Pres same_view (upd_srv f).
Proof.
  intros Hf. apply pres_modify. intros s. specialize (Hf (srv s)).
  unfold same_view, eview_of. simpl. unfold core in Hf. f_equal; congruence.
Qed.

Lemma get_peer_run r s E Q :
  wp (get_peer r) E Q s ↔ match heap s !! r with Some n => Q n s | None => E UB end.
Proof. unfold get_peer. rewrite wp_bind, wp_get. apply wp_deref. Qed.

(** Updating a peer, on views. *)
Lemma upd_peer_run r f s E Q :
  wp (upd_peer r f) E Q s ↔
  match heap s !! r with
  | Some n => Q tt (s <| heap := <[r := f n]> (heap s) |>)
  | None => E UB
  end.
Proof. unfold upd_peer. rewrite wp_bind, get_peer_run. destruct (heap s !! r); done. Qed.

Lemma pres_view_upd_peer r f :
  (∀ n, pview (f n) = pview n) → Pres same_view (upd_peer r f).
Proof.
  intros Hf s. rewrite upd_peer_run. destruct (heap s !! r) as [n|] eqn:Hr; [|done].
  unfold same_view, eview_of. simpl. f_equal.
  rewrite fmap_insert, Hf. apply insert_id. by rewrite lookup_fmap, Hr.
Qed.

(** Callbacks for a cluster of fixed membership. *)
Class ElectionCbs (cb : raft_cbs W) : Prop := {
  el_log :: LogFrame (cb_log cb) same_view;
  el_send_requestvote : ∀ f, cb_send_requestvote cb = Some f → ∀ p m, Pres same_view (f p m);
  el_send_appendentries : ∀ f, cb_send_appendentries cb = Some f → ∀ p m, Pres same_view (f p m);
  el_applylog : ∀ f, cb_applylog cb = Some f → ∀ e i, Pres same_view (f e i);
  el_setmatch : ∀ f, cb_setmatch cb = Some f → ∀ r i, Pres same_view (f r i);
  el_persist_vote : ∀ f, cb_persist_vote cb = Some f → ∀ v, Pres same_view (f v);
  el_persist_term : ∀ f, cb_persist_term cb = Some f → ∀ t, Pres same_view (f t);
  el_sufficient : ∀ f, cb_node_has_sufficient_logs cb = Some f → ∀ p, Pres same_view (f p)
}.
#[local] Hint Extern 2 (Pres _ (upd_srv _)) =>
  apply pres_view_upd_srv; intros; reflexivity : pres.
#[local] Hint Resolve el_applylog : pres.

(** Outside the election code nothing of the view changes.  The indices are not
    part of it, so the updates that [core] watches are quiet here too. *)
Lemma pres_view_upd_index f :
  (∀ me, current_term (f me) = current_term me ∧ voted_for (f me) = voted_for me
     ∧ state (f me) = state me ∧ node (f me) = node me ∧ nodes (f me) = nodes me) →
  Pres same_view (upd_srv f).
Proof.
  intros Hf. apply pres_modify. intros s. unfold same_view, eview_of. simpl.
  destruct (Hf (srv s)) as (-> & -> & -> & -> & ->). done.
Qed.
#[local] Hint Extern 3 (Pres _ (upd_srv _)) =>
  apply pres_view_upd_index; intros; split_and!; reflexivity : pres.

#[export] Instance election_frame (cb : raft_cbs W) `{!ElectionCbs cb} :
  ServerFrame cb same_view.
Proof.
  split.
  - apply _.
  - apply pres_view_upd_srv.
  - apply pres_view_upd_peer.
  - intros rnd0. unfold call_rand. pres. apply pres_modify. done.
  - intros i. unfold truncate_from, forget_cfg_change. pres.
  - intros c. pres.
  - intros c _. pres.
  - unfold compact_log. pres.
  - intros i. unfold raft_checkpoint. pres.
  - intros i. unfold raft_set_commit_idx. pres.
  - unfold commit_if_alone. pres.
  - unfold raft_apply_entry. pres.
  - intros f Hf e. by eapply frame_poll.
  - apply el_send_requestvote.
  - apply el_send_appendentries.
  - apply el_setmatch.
  - apply el_sufficient.
Qed.
End views.

(** [N/2 + 1] of the members. *)
Definition majority_of (ids q : list Z) : Prop :=
  NoDup q ∧ q ⊆ ids ∧ Z.of_nat (length ids) / 2 + 1 ≤ Z.of_nat (length q).

(** The membership part of the invariant: [ids] are the identities of the
    peers, [me] is one of them and its peer is [me->node].  A cluster with a
    single voting member is excluded: there [raft_periodic] makes the server
    leader of its current term without an election. *)
Record members (ids : list Z) (me : Z) (v : eview) : Prop := {
  m_ids : Forall2 (λ r i, ∃ b h, e_peers v !! r = Some (i, b, h)) (e_nodes v) ids;
  m_nodup : NoDup ids;
  m_real : -1 ∉ ids;
  m_self : ∃ r b h, e_node v = Some r ∧ r ∈ e_nodes v ∧ e_peers v !! r = Some (me, b, h);
  m_voters : count_of (is_voter v) (e_nodes v) ≠ 1
}.

Record einv (V : Z → Z → Z → Prop) (ids : list Z) (me : Z) (v : eview) : Prop := {
  e_members : members ids me v;
  e_valid : ∀ t c, V t me c → c ≠ -1;
  e_unique : ∀ t c c', V t me c → V t me c' → c = c';
  e_past : ∀ t c, V t me c → t ≤ e_term v;
  e_voted : e_vote v ≠ -1 → V (e_term v) me (e_vote v);
  e_once : ∀ c, V (e_term v) me c → e_vote v = c;
  e_own : e_state v = RAFT_STATE_CANDIDATE ∨ e_state v = RAFT_STATE_LEADER → e_vote v = me;
  e_flags : e_state v = RAFT_STATE_CANDIDATE →
    ∀ r i b, r ∈ e_nodes v → e_node v ≠ Some r → e_peers v !! r = Some (i, b, true) →
    V (e_term v) i me;
  e_elected : e_state v = RAFT_STATE_LEADER →
    ∃ q, majority_of ids q ∧ ∀ n, n ∈ q → V (e_term v) n me
}.

(** From [V] to [V'] only [me] voted. *)
Definition history_ext (me : Z) (V V' : Z → Z → Z → Prop) : Prop :=
  (∀ t n c, V t n c → V' t n c) ∧ (∀ t n c, V' t n c → V t n c ∨ n = me).

Definition view_step (ids : list Z) (me : Z) (v v' : eview) : Prop :=
  ∀ V, einv V ids me v →
    e_term v ≤ e_term v' ∧ ∃ V', history_ext me V V' ∧ einv V' ids me v'.

#[export] Instance view_step_preorder ids me : PreOrder (view_step ids me).
Proof.
  split.
  - intros v V HV. split; [lia|]. exists V. unfold history_ext. split_and!; auto.
  - intros v1 v2 v3 H12 H23 V HV.
    destruct (H12 V HV) as (Ht2 & V2 & [Hs2 Ho2] & HV2).
    destruct (H23 V2 HV2) as (Ht3 & V3 & [Hs3 Ho3] & HV3).
    split; [lia|]. exists V3. split; [|done]. split; [auto|].
    intros t n c [H|H]%Ho3; auto.
Qed.

(** Changing the role to follower, adopting a newer term. *)
Lemma view_step_follower ids me v :
  view_step ids me v (v <| e_state := RAFT_STATE_FOLLOWER |>).
Proof.
  intros V []. split; [simpl; lia|]. exists V. split; [by split; auto|].
  split; simpl; auto; [by destruct e_members0|intros [|]; done|done|done].
Qed.

Lemma view_step_term ids me v t :
  e_term v < t →
  view_step ids me v
    (v <| e_term := t |> <| e_vote := -1 |> <| e_state := RAFT_STATE_FOLLOWER |>).
Proof.
  intros Ht V []. split; [simpl; lia|]. exists V. split; [by split; auto|].
  split; simpl; auto.
  - by destruct e_members0.
  - intros t' c ?%e_past0. lia.
  - done.
  - intros c ?%e_past0. lia.
  - intros [|]; done.
  - done.
  - done.
Qed.

(** Casting a vote for [c] as a follower that has none in its term. *)
Definition cast (V : Z → Z → Z → Prop) (t n c : Z) : Z → Z → Z → Prop :=
  λ t' n' c', V t' n' c' ∨ (t' = t ∧ n' = n ∧ c' = c).

Lemma history_ext_cast V t me c : history_ext me V (cast V t me c).
Proof. unfold cast. split; [auto|]. intros t' n c' [H|(_ & -> & _)]; auto. Qed.

Lemma view_step_vote ids me v c :
  e_vote v = -1 → c ≠ -1 → e_state v ≠ RAFT_STATE_CANDIDATE → e_state v ≠ RAFT_STATE_LEADER →
  view_step ids me v (v <| e_vote := c |>).
Proof.
  intros Hno Hc Hs1 Hs2 V []. split; [simpl; lia|]. exists (cast V (e_term v) me c).
  split; [apply history_ext_cast|]. unfold cast.
  assert (∀ c', ¬ V (e_term v) me c') as Hnone.
  { intros c' H. pose proof (e_valid0 _ _ H). apply e_once0 in H. congruence. }
  split; simpl; try done.
  - by destruct e_members0.
  - intros t c' [H|(-> & _ & ->)]; eauto.
  - intros t c1 c2 [H1|(-> & _ & ->)] [H2|(? & _ & ?)]; subst; eauto;
      by (exfalso; eapply Hnone; eauto).
  - intros t c' [H|(-> & _ & ->)]; [eauto|lia].
  - auto.
  - intros c' [H|(_ & _ & ->)]; [by destruct (Hnone c')|done].
  - intros [|]; done.
Qed.

(** Becoming a candidate: the next term with a vote for oneself and all
    recorded votes erased. *)
Lemma view_step_candidate ids me v v' :
  members ids me v' → me ≠ -1 → e_term v' = e_term v + 1 → e_vote v' = me →
  e_state v' = RAFT_STATE_CANDIDATE →
  (∀ r i b, r ∈ e_nodes v' → e_peers v' !! r ≠ Some (i, b, true)) →
  view_step ids me v v'.
Proof.
  intros Hm Hme Ht Hv Hs Hclear V []. split; [lia|].
  exists (cast V (e_term v + 1) me me). split; [apply history_ext_cast|]. unfold cast.
  assert (∀ c, ¬ V (e_term v + 1) me c) as Hnone by (intros c ?%e_past0; lia).
  split; rewrite ?Ht, ?Hv, ?Hs; try done.
  - intros t c [H|(_ & _ & ->)]; eauto.
  - intros t c1 c2 [H1|(-> & _ & ->)] [H2|(? & _ & ?)]; subst; eauto;
      by (exfalso; eapply Hnone; eauto).
  - intros t c [H%e_past0|(-> & _)]; lia.
  - auto.
  - intros c [H|(_ & _ & ->)]; [by destruct (Hnone c)|done].
  - intros _ r i b Hr _ Hp. by destruct (Hclear r i b Hr).
Qed.

(** Winning: a candidate with a majority of votes. *)
Lemma view_step_leader ids me v q :
  e_state v = RAFT_STATE_CANDIDATE →
  (∀ V, einv V ids me v → majority_of ids q ∧ ∀ n, n ∈ q → V (e_term v) n me) →
  view_step ids me v (v <| e_state := RAFT_STATE_LEADER |>).
Proof.
  intros Hs Hq V HV. pose proof (Hq V HV) as [? ?]. destruct HV.
  split; [simpl; lia|]. exists V. split; [by split; auto|].
  split; simpl; auto; [by destruct e_members0|done|by exists q].
Qed.

(** ** The handlers of one server *)
Section handlers.
Context {W : Type} (cb : raft_cbs W) (rand : nat → Z) `{!ElectionCbs cb}.
Context (ids : list Z) (self : Z).
Implicit Types (s : rstate W).

Definition estep s s' : Prop := view_step ids self (eview_of s) (eview_of s').
#[export] Instance estep_preorder : PreOrder estep.
Proof.
  split; [intros s; by unfold estep|]. intros s1 s2 s3. unfold estep. apply transitivity.
Qed.

Lemma estep_view s s' v : eview_of s' = v → view_step ids self (eview_of s) v → estep s s'.
Proof. by intros <-. Qed.

Lemma pres_quiet {A} (m : M (rstate W) A) : Pres same_view m → Pres estep m.
Proof.
  intros Hm s. eapply wp_mono; [apply Hm|done|]. intros ? s' H. unfold estep. by rewrite H.
Qed.

(** Running a quiet computation in the middle of a proof about views. *)
Lemma wp_quiet {A B} (m : M (rstate W) A) (k : A → M (rstate W) B) Q s :
  Pres same_view m → (∀ a s1, eview_of s1 = eview_of s → wp (k a) any Q s1) →
  wp (m ≫= k) any Q s.
Proof.
  intros Hm Hk. rewrite wp_bind. eapply wp_mono; [apply Hm|done|]. intros a s1 H. by apply Hk.
Qed.

Lemma set_state_view st s :
  wp (raft_set_state st) any
    (λ _ s', eview_of s' = eview_of s <| e_state := st |>) s.
Proof. unfold raft_set_state. rewrite wp_bind, wp_when. by destruct (bool_decide _). Qed.

Lemma set_current_term_view t s :
  current_term (srv s) < t →
  wp (raft_set_current_term cb t) any
    (λ _ s', eview_of s' = eview_of s <| e_term := t |> <| e_vote := -1 |>) s.
Proof.
  intros Ht. unfold raft_set_current_term, get_srv. rewrite wp_bind, wp_gets, wp_when.
  replace (_ <? _) with true by lia. unfold upd_srv. rewrite wp_bind, wp_modify.
  set (s1 := s <| srv := _ |>). change (_ <| e_term := _ |> <| _ := _ |>) with (eview_of s1).
  assert (Pres same_view (call (cb_persist_term cb) (λ f, f t))) as Hp; [|apply Hp].
  apply pres_call; [apply _|]. intros f Hf. by apply el_persist_term.
Qed.

Lemma vote_for_nodeid_view c s :
  wp (raft_vote_for_nodeid cb c) any
    (λ _ s', eview_of s' = eview_of s <| e_vote := c |>) s.
Proof.
  unfold raft_vote_for_nodeid, upd_srv. rewrite wp_bind, wp_modify.
  set (s1 := s <| srv := _ |>). change (_ <| e_vote := _ |>) with (eview_of s1).
  assert (Pres same_view (call (cb_persist_vote cb) (λ f, f c))) as Hp; [|apply Hp].
  apply pres_call; [apply _|]. intros f Hf. by apply el_persist_vote.
Qed.

(** [raft_set_current_term(t); raft_become_follower()] under [current_term < t],
    which is how every handler uses it, then anything that steps. *)
Lemma step_down_step {A} t (k : M (rstate W) A) s :
  current_term (srv s) < t → Pres estep k →
  wp (raft_set_current_term cb t ;; raft_become_follower ;; k) any (λ _ s', estep s s') s.
Proof.
  intros Ht Hk. rewrite wp_bind.
  eapply wp_mono; [by apply set_current_term_view|done|]. intros ? s1 Hv1.
  rewrite wp_bind. eapply wp_mono; [apply set_state_view|done|]. intros ? s2 Hv2.
  apply pres_from; [apply _| |done]. eapply estep_view; [exact Hv2|].
  rewrite Hv1. by apply view_step_term.
Qed.

Lemma estep_members {A} (m : M (rstate W) A) s :
  (members ids self (eview_of s) → wp m any (λ _ s', estep s s') s) →
  wp m any (λ _ s', estep s s') s.
Proof.
  intros H. apply wp_any_intro. intros a s' Hr V HV.
  exact (wp_any_ret _ _ _ _ _ (H (e_members _ _ _ _ HV)) Hr V HV).
Qed.

(** *** Clearing the recorded votes *)
Definition clr (x : Z * bool * bool) : Z * bool * bool := (x.1, false).

Lemma pview_clear n : pview (raft_node_vote_for_me false n) = clr (pview n).
Proof. unfold pview, clr. by rewrite is_voting_set_vote, has_vote_set_vote. Qed.

Definition partly_cleared (p p' : gmap nat (Z * bool * bool)) : Prop :=
  ∀ r, p' !! r = p !! r ∨ p' !! r = clr <$> p !! r.

Lemma clear_votes_loop n i s :
  0 ≤ i →
  wp (for_nodes_loop n i (λ _ r, upd_peer r (raft_node_vote_for_me false))) any
    (λ _ s', ∃ p', eview_of s' = eview_of s <| e_peers := p' |>
       ∧ partly_cleared (pview <$> heap s) p'
       ∧ ∀ k r, i ≤ Z.of_nat k → nodes (srv s) !! k = Some r →
           p' !! r = clr <$> (pview <$> heap s) !! r) s.
Proof.
  revert i s. induction n as [|n IH]; intros i s Hi; simpl;
    unfold get_srv; rewrite wp_bind, wp_gets; destruct (Z.ltb_spec i (num_nodes (srv s))).
  1: done.
  1, 3: rewrite wp_ret; eexists; split_and!; [done|by left|];
    intros k r Hk Hr%lookup_lt_Some; unfold num_nodes in *; lia.
  rewrite wp_bind. unfold aget. rewrite wp_deref.
  destruct (zlookup (nodes (srv s)) i) as [r|] eqn:Hr; [|done].
  rewrite wp_bind, upd_peer_run. destruct (heap s !! r) as [nd|] eqn:Hnd; [|done].
  set (s1 := s <| heap := _ |>). eapply wp_mono; [apply (IH (i + 1) s1); lia|done|].
  intros ? s' (p' & Hv & Hpart & Hclr).
  assert (pview <$> heap s1 = <[r := clr (pview nd)]> (pview <$> heap s)) as Hp1
    by (rewrite <- pview_clear; apply (fmap_insert pview (heap s))).
  assert ((pview <$> heap s) !! r = Some (pview nd)) as Hp
    by (by rewrite lookup_fmap, Hnd).
  assert (∀ r', p' !! r' = (pview <$> heap s1) !! r' ∨
    p' !! r' = clr <$> (pview <$> heap s1) !! r') as Hpart' by exact Hpart.
  rewrite Hp1 in Hpart'.
  exists p'. split_and!; [by rewrite Hv| |].
  - intros r'. destruct (decide (r' = r)) as [->|Hne].
    + right. rewrite Hp. destruct (Hpart' r) as [->| ->]; by rewrite lookup_insert_eq.
    + destruct (Hpart' r') as [->| ->]; rewrite lookup_insert_ne by done; auto.
  - intros k r' Hk Hr'. destruct (decide (r' = r)) as [->|Hne].
    + rewrite Hp. destruct (Hpart' r) as [->| ->]; by rewrite lookup_insert_eq.
    + assert (Z.of_nat k ≠ i).
      { intros <-. rewrite zlookup_nonneg, Nat2Z.id in Hr by lia. congruence. }
      rewrite (Hclr k r' ltac:(lia) Hr'), Hp1. by rewrite lookup_insert_ne.
Qed.

(** Membership does not depend on the recorded votes. *)
Lemma members_flags v v' :
  members ids self v → e_node v' = e_node v → e_nodes v' = e_nodes v →
  (∀ r, fst <$> e_peers v' !! r = fst <$> e_peers v !! r) → members ids self v'.
Proof.
  intros [Hids ? ? (r0 & b0 & h0 & Hn & Hin & Hp0) Hvot] Hnode Hnodes Hfst.
  assert (∀ r i b h, e_peers v !! r = Some (i, b, h) →
    ∃ h', e_peers v' !! r = Some (i, b, h')) as Hkeep.
  { intros r i b h Hr. specialize (Hfst r). rewrite Hr in Hfst. simpl in Hfst.
    destruct (e_peers v' !! r) as [[[] h']|]; simplify_eq/=. eauto. }
  split; rewrite ?Hnode, ?Hnodes; try done.
  - eapply Forall2_impl; [exact Hids|]. intros r i (b & h & Hr).
    destruct (Hkeep _ _ _ _ Hr) as (h' & ?). eauto.
  - destruct (Hkeep _ _ _ _ Hp0) as (h' & ?). eauto 10.
  - intros Hc. apply Hvot. rewrite <- Hc. unfold count_of. do 2 f_equal.
    apply list_filter_iff. intros r. unfold is_voter. specialize (Hfst r).
    by destruct (e_peers v' !! r) as [[[] ?]|], (e_peers v !! r) as [[[] ?]|]; simplify_eq/=.
Qed.

Lemma partly_cleared_fst p p' r :
  partly_cleared p p' → fst <$> p' !! r = fst <$> p !! r.
Proof. intros Hp. destruct (Hp r) as [->| ->]; [done|]. by destruct (p !! r). Qed.

Lemma members_self_real v : members ids self v → self ≠ -1.
Proof.
  intros [Hids _ Hreal (r & b & h & _ & Hin & Hp) _] ->.
  apply list_elem_of_lookup in Hin as [k Hk].
  destruct (Forall2_lookup_l _ _ _ _ _ Hids Hk) as (i & Hi & b' & h' & Hp').
  apply Hreal. apply list_elem_of_lookup. exists k. congruence.
Qed.

Lemma wp_view {A B} (m : M (rstate W) A) (k : A → M (rstate W) B) P Q s :
  wp m any P s → (∀ a s1, P a s1 → wp (k a) any Q s1) → wp (m ≫= k) any Q s.
Proof. intros Hm Hk. rewrite wp_bind. eapply wp_mono; [exact Hm|done|auto]. Qed.

(** *** Becoming a candidate *)
Lemma vote_self_view s :
  members ids self (eview_of s) →
  wp (raft_vote cb (node (srv s))) any
    (λ _ s', eview_of s' = eview_of s <| e_vote := self |>) s.
Proof.
  intros [_ _ _ (r & b & h & Hn & _ & Hp) _]. simpl in Hn, Hp. rewrite Hn.
  unfold raft_vote. rewrite wp_bind, wp_bind, get_peer_run.
  rewrite lookup_fmap in Hp. destruct (heap s !! r) as [n|]; [|done]. simpl in Hp.
  rewrite wp_ret. assert (raft_node_get_id n = self) as -> by (unfold pview in Hp; congruence).
  apply vote_for_nodeid_view.
Qed.

Lemma estep_become_candidate : Pres estep (raft_become_candidate cb rand).
Proof.
  intros s. apply estep_members. intros Hm. unfold raft_become_candidate, get_srv.
  rewrite wp_bind, wp_gets, wp_bind. apply wp_iadd_or; [by right|intros _].
  eapply wp_view; [apply set_current_term_view; lia|]. intros ? s1 Hv1.
  eapply wp_view. { unfold for_nodes, get_srv. rewrite wp_bind, wp_gets. by apply clear_votes_loop. }
  intros ? s2 (p' & Hv2 & Hpart & Hclr).
  assert (pview <$> heap s1 = e_peers (eview_of s)) as Hps1
    by (change (pview <$> heap s1) with (e_peers (eview_of s1)); by rewrite Hv1).
  assert (nodes (srv s1) = nodes (srv s)) as Hns1
    by (change (nodes (srv s1)) with (e_nodes (eview_of s1)); by rewrite Hv1).
  rewrite Hps1 in *. rewrite Hns1 in *.
  assert (members ids self (eview_of s2)) as Hm2.
  { eapply members_flags; [exact Hm|by rewrite Hv2, Hv1..|].
    rewrite Hv2. intros r. by apply partly_cleared_fst. }
  rewrite wp_bind, wp_gets. eapply wp_view; [by apply vote_self_view|]. intros ? s3 Hv3.
  apply wp_quiet; [pres|]. intros _ s4 Hv4.
  eapply wp_view; [apply set_state_view|]. intros ? s5 Hv5.
  do 4 (apply wp_quiet; [pres|]; intros ? ? ?).
  cbv beta in *. match goal with |- wp _ any _ ?s9 =>
    assert (eview_of s9 = eview_of s <| e_term := current_term (srv s) + 1 |>
      <| e_vote := self |> <| e_peers := p' |> <| e_state := RAFT_STATE_CANDIDATE |>) as Hv9
  end.
  { repeat match goal with H : eview_of _ = _ |- _ => rewrite H; clear H end. done. }
  apply pres_from; [apply _| |apply pres_quiet, pres_for_nodes; [apply _|intros; pres]].
  eapply estep_view; [exact Hv9|].
  apply view_step_candidate; [|by eapply members_self_real|done..|].
  - eapply members_flags; [exact Hm|done..|]. intros r. by apply partly_cleared_fst.
  - simpl. intros r i b Hr. apply list_elem_of_lookup in Hr as [k Hk].
    rewrite (Hclr k r ltac:(lia) Hk). simpl.
    destruct (_ !! r) as [[]|]; unfold clr; simpl; congruence.
Qed.

(** *** Granting a vote *)
Lemma should_grant_vote_view vr s :
  wp (should_grant_vote vr) any
    (λ g s', s' = s ∧ (g = true → voted_for (srv s) = -1)) s.
Proof.
  unfold should_grant_vote, raft_already_voted, get_srv.
  rewrite wp_bind, wp_gets. case_match; [by rewrite wp_ret|].
  rewrite wp_bind, wp_bind, wp_gets, wp_ret.
  destruct (Z.eqb_spec (voted_for (srv s)) (-1)); simpl; [|by rewrite wp_ret].
  unfold raft_get_current_idx, log_get_current_idx. rewrite wp_bind, wp_gets.
  case_match; [by rewrite wp_ret|].
  apply wp_read_entry. intros [e'|]; [|done]. simpl. rewrite wp_bind. simpl. rewrite wp_ret.
  case_match; by rewrite wp_ret.
Qed.

Lemma is_state_view st s E Q :
  wp (raft_is_state st) E Q s ↔ Q (bool_decide (state (srv s) = st)) s.
Proof. done. Qed.

Lemma grant_step vr s s1 :
  rv_candidate_id vr ≠ -1 → estep s s1 →
  wp (requestvote_reply cb vr) any
    (λ rr s', estep s s' ∧ (rvr_vote_granted rr.2 = 1 →
       e_term (eview_of s') = rvr_term rr.2
       ∧ e_vote (eview_of s') = rv_candidate_id vr)) s1.
Proof.
  intros Hreal Hs1. unfold requestvote_reply.
  eapply wp_view; [apply should_grant_vote_view|]. intros g s2 [-> Hg].
  destruct g; [|rewrite wp_bind, wp_ret, wp_bind; unfold get_srv; by rewrite wp_gets, wp_ret].
  unfold raft_is_leader, raft_is_candidate.
  rewrite wp_bind, wp_bind, is_state_view, wp_bind, is_state_view, wp_bind, wp_assert.
  destruct (_ || _) eqn:Hst; [done|]. simpl. apply orb_false_iff in Hst as [Hl Hc].
  apply bool_decide_eq_false in Hl. apply bool_decide_eq_false in Hc.
  eapply wp_view; [apply vote_for_nodeid_view|]. intros ? s3 Hv3. cbv beta in Hv3.
  unfold upd_srv, get_srv. rewrite wp_modify.
  match goal with |- wp _ _ _ ?x => set (s4 := x) end. rewrite wp_bind, wp_gets, wp_ret.
  assert (eview_of s4 = eview_of s1 <| e_vote := rv_candidate_id vr |>) as Hv4 by exact Hv3.
  split.
  - transitivity s1; [done|]. eapply estep_view; [exact Hv4|].
    apply view_step_vote; [by apply Hg|done..].
  - intros _. split; [done|]. exact (f_equal e_vote Hv4).
Qed.

Lemma raft_recv_requestvote_step vr s :
  rv_candidate_id vr ≠ -1 →
  wp (raft_recv_requestvote cb vr) any
    (λ rr s', estep s s' ∧ (rvr_vote_granted rr.2 = 1 →
       e_term (eview_of s') = rvr_term rr.2
       ∧ e_vote (eview_of s') = rv_candidate_id vr)) s.
Proof.
  intros Hreal. unfold raft_recv_requestvote, get_srv. rewrite wp_bind, wp_gets, wp_bind, wp_when.
  destruct (Z.ltb_spec (current_term (srv s)) (rv_term vr)); [|by apply grant_step].
  pose proof (step_down_step (rv_term vr) (mret tt) s ltac:(lia) (pres_ret _ _)) as Hdown.
  rewrite wp_bind in Hdown |- *. eapply wp_mono; [exact Hdown|done|]. intros ? s1 H1.
  cbv beta in H1. rewrite wp_bind in H1. eapply wp_mono; [exact H1|done|].
  intros ? s2 H2. rewrite wp_ret in H2. by apply grant_step.
Qed.

(** *** Counting votes *)
Lemma nvotes_loop_view rs z s :
  wp (nvotes_loop rs z) any
    (λ n s', s' = s ∧ n = z + count_of (counted (eview_of s)) rs) s.
Proof.
  revert z. induction rs as [|r rs IH]; intros z; simpl.
  { rewrite wp_ret. split; [done|]. unfold count_of. simpl. lia. }
  unfold get_srv. rewrite wp_bind, wp_gets, count_of_cons. unfold counted at 1. simpl.
  destruct (bool_decide (node (srv s) = Some r)) eqn:Hn; simpl; [apply IH|].
  rewrite wp_bind, get_peer_run, lookup_fmap. destruct (heap s !! r) as [n|]; [|done]. simpl.
  eapply wp_mono; [apply IH|done|]. intros k s' [-> ->]. split; [done|].
  destruct (raft_node_is_voting n && raft_node_has_vote_for_me n); simpl; lia.
Qed.

Lemma nodeid_view s :
  members ids self (eview_of s) →
  wp raft_get_nodeid any (λ i s', s' = s ∧ i = self) s.
Proof.
  intros [_ _ _ (r & b & h & Hn & _ & Hp) _]. simpl in Hn, Hp.
  unfold raft_get_nodeid, get_srv. rewrite wp_bind, wp_gets, Hn, wp_bind, get_peer_run.
  rewrite lookup_fmap in Hp. destruct (heap s !! r) as [n|]; [|done].
  rewrite wp_ret. split; [done|]. unfold pview in Hp. simpl in Hp. congruence.
Qed.

Lemma nvotes_view s :
  members ids self (eview_of s) →
  wp raft_get_nvotes_for_me any
    (λ n s', s' = s ∧ n ≤ count_of (counted (eview_of s)) (nodes (srv s)) + 1) s.
Proof.
  intros Hm. unfold raft_get_nvotes_for_me, get_srv. rewrite wp_bind, wp_gets.
  eapply wp_view; [apply nvotes_loop_view|]. intros n s1 [-> ->].
  eapply wp_view; [by apply nodeid_view|]. intros i s1 [-> ->].
  rewrite wp_ret. split; [done|]. case_match; lia.
Qed.

(** The identities of the peers whose vote was counted. *)
Lemma counted_ids v rs js :
  Forall2 (λ r i, ∃ b h, e_peers v !! r = Some (i, b, h)) rs js →
  ∃ q, q `sublist_of` js ∧ Z.of_nat (length q) = count_of (counted v) rs
    ∧ ∀ n, n ∈ q → ∃ r b, r ∈ rs ∧ e_node v ≠ Some r ∧ e_peers v !! r = Some (n, b, true).
Proof.
  induction 1 as [|r i rs js (b & h & Hr) _ (q & Hsub & Hlen & Hq)].
  { exists []. split_and!; [constructor|done|]. by intros n ?%elem_of_nil. }
  rewrite count_of_cons. destruct (counted v r) eqn:Hc.
  - exists (i :: q). split_and!; [by constructor|simpl; lia|].
    unfold counted in Hc. rewrite Hr in Hc. apply andb_true_iff in Hc as [Hn [_ ->]%andb_true_iff].
    apply negb_true_iff, bool_decide_eq_false in Hn.
    intros n [->|Hin]%elem_of_cons; [exists r, b; split_and!; [set_solver|done..]|].
    destruct (Hq n Hin) as (r' & b' & ? & ? & ?). exists r', b'. set_solver.
  - exists q. split_and!; [by constructor|lia|]. intros n Hin.
    destruct (Hq n Hin) as (r' & b' & ? & ? & ?). exists r', b'. set_solver.
Qed.

Lemma members_ref_inj v r r' b b' h h' i :
  members ids self v → r ∈ e_nodes v → r' ∈ e_nodes v →
  e_peers v !! r = Some (i, b, h) → e_peers v !! r' = Some (i, b', h') → r = r'.
Proof.
  intros [Hids Hnd _ _ _] [k Hk]%list_elem_of_lookup [k' Hk']%list_elem_of_lookup Hp Hp'.
  destruct (Forall2_lookup_l _ _ _ _ _ Hids Hk) as (j & Hj & ? & ? & Hpj).
  destruct (Forall2_lookup_l _ _ _ _ _ Hids Hk') as (j' & Hj' & ? & ? & Hpj').
  assert (j = i ∧ j' = i) as [-> ->] by (split; congruence).
  rewrite (NoDup_lookup _ _ _ _ Hnd Hj Hj') in Hk. congruence.
Qed.

Lemma members_self_in v : members ids self v → self ∈ ids.
Proof.
  intros [Hids _ _ (r & b & h & _ & [k Hk]%list_elem_of_lookup & Hp) _].
  destruct (Forall2_lookup_l _ _ _ _ _ Hids Hk) as (i & Hi & b' & h' & Hp').
  apply list_elem_of_lookup. exists k. congruence.
Qed.

Lemma winning_majority v :
  e_state v = RAFT_STATE_CANDIDATE →
  Z.of_nat (length (e_nodes v)) / 2 + 1 ≤ count_of (counted v) (e_nodes v) + 1 →
  members ids self v →
  ∃ q, ∀ V, einv V ids self v → majority_of ids q ∧ ∀ n, n ∈ q → V (e_term v) n self.
Proof.
  intros Hst Hmaj Hm. pose proof Hm as [Hids Hnd _ (r0 & b0 & h0 & Hn0 & Hin0 & Hp0) _].
  destruct (counted_ids v _ _ Hids) as (q & Hsub & Hlen & Hq).
  assert (self ∉ q) as Hself.
  { intros (r & b & Hr & Hne & Hp)%Hq. apply Hne. rewrite Hn0. f_equal.
    by eapply members_ref_inj. }
  exists (self :: q). intros V HV. split; [split_and!|].
  - apply NoDup_cons. split; [done|]. by eapply sublist_NoDup.
  - intros n [->|Hin]%elem_of_cons; [by eapply members_self_in|]. by eapply elem_of_submseteq, sublist_submseteq.
  - rewrite <- (Forall2_length _ _ _ Hids). simpl. lia.
  - destruct HV. intros n [->|Hin]%elem_of_cons.
    + rewrite <- (e_own0 ltac:(auto)) at 2. apply e_voted0. rewrite e_own0 by auto.
      by eapply members_self_real.
    + destruct (Hq n Hin) as (r & b & Hr & Hne & Hp). by eapply e_flags0.
Qed.

(** *** Counting a response and winning *)
Lemma become_leader_step s :
  state (srv s) = RAFT_STATE_CANDIDATE →
  num_nodes (srv s) / 2 + 1 ≤ count_of (counted (eview_of s)) (nodes (srv s)) + 1 →
  members ids self (eview_of s) →
  wp (raft_become_leader cb) any (λ _ s', estep s s') s.
Proof.
  intros Hst Hmaj Hm.
  destruct (winning_majority (eview_of s) Hst Hmaj Hm) as (q & Hq).
  unfold raft_become_leader. eapply wp_view; [apply set_state_view|]. intros ? s1 Hv1.
  apply pres_from; [apply _| |apply pres_quiet, pres_for_nodes; [apply _|intros; pres]].
  eapply estep_view; [exact Hv1|]. by apply (view_step_leader _ _ _ q).
Qed.

(** Continuations of a step for one history. *)
Definition vreach V s s' : Prop :=
  e_term (eview_of s) ≤ e_term (eview_of s')
  ∧ ∃ V', history_ext self V V' ∧ einv V' ids self (eview_of s').

Lemma einv_record_vote V v p j b h :
  einv V ids self v → e_peers v !! p = Some (j, b, h) → V (e_term v) j self →
  einv V ids self (v <| e_peers := <[p := (j, b, true)]> (e_peers v) |>).
Proof.
  intros [] Hp HV. split; simpl; try done.
  - eapply members_flags; [exact e_members0|done..|]. intros r. simpl.
    destruct (decide (r = p)) as [->|]; [by rewrite lookup_insert_eq, Hp|].
    by rewrite lookup_insert_ne.
  - intros Hst r i b' Hr Hne. destruct (decide (r = p)) as [->|].
    + rewrite lookup_insert_eq. by intros [= <- <-].
    + rewrite lookup_insert_ne by done. by apply e_flags0.
Qed.

(** [if (node) raft_node_vote_for_me(node, 1)]. *)
Lemma record_vote_view V peer s :
  einv V ids self (eview_of s) →
  (∀ p n, peer = Some p → heap s !! p = Some n →
    V (current_term (srv s)) (raft_node_get_id n) self) →
  wp (match peer with
      | Some p => upd_peer p (raft_node_vote_for_me true)
      | None => mret tt
      end) any
    (λ _ s1, einv V ids self (eview_of s1) ∧ srv s1 = srv s) s.
Proof.
  intros HV Hvalid. destruct peer as [p|]; [|by rewrite wp_ret].
  rewrite upd_peer_run. destruct (heap s !! p) as [n|] eqn:Hn; [|done]. split; [|done].
  set (s1 := s <| heap := _ |>).
  assert (eview_of s1 = eview_of s <| e_peers :=
    <[p := (raft_node_get_id n, raft_node_is_voting n, true)]> (e_peers (eview_of s)) |>) as ->.
  { unfold eview_of. simpl. f_equal. rewrite fmap_insert. f_equal.
    unfold pview. by rewrite is_voting_set_vote, has_vote_set_vote. }
  apply einv_record_vote with (raft_node_has_vote_for_me n); [done| |].
  - simpl. by rewrite lookup_fmap, Hn.
  - by apply (Hvalid p).
Qed.

Lemma requestvote_response_step V peer r s :
  einv V ids self (eview_of s) →
  (∀ p n, peer = Some p → heap s !! p = Some n → rvr_vote_granted r = 1 →
    state (srv s) = RAFT_STATE_CANDIDATE → rvr_term r = current_term (srv s) →
    V (current_term (srv s)) (raft_node_get_id n) self) →
  wp (raft_recv_requestvote_response cb peer r) any (λ _ s', vreach V s s') s.
Proof.
  intros HV Hvalid.
  assert (∀ s', estep s s' → vreach V s s') as Hsteps by (intros s' H; exact (H V HV)).
  unfold raft_recv_requestvote_response, raft_is_candidate, get_srv.
  rewrite wp_bind, is_state_view. case_bool_decide as Hst; simpl; [|rewrite wp_ret; by apply Hsteps].
  rewrite wp_bind, wp_gets.
  destruct (Z.ltb_spec (current_term (srv s)) (rvr_term r)).
  { eapply wp_mono; [apply step_down_step; [lia|apply pres_ret, _]|done|]. auto. }
  destruct (Z.eqb_spec (current_term (srv s)) (rvr_term r)) as [Ht|]; simpl;
    [|rewrite wp_ret; by apply Hsteps].
  destruct (Z.eqb_spec (rvr_vote_granted r) 1) as [Hg|];
    [|rewrite wp_bind, wp_ret, wp_ret; by apply Hsteps].
  rewrite wp_bind. eapply wp_view.
  { apply (record_vote_view V); [done|]. eauto. }
  intros ? s1 [HV1 Hsrv1].
  assert (∀ s', estep s1 s' → vreach V s s') as Hsteps1.
  { intros s' Hs'. destruct (Hs' V HV1) as [Hle HV']. split; [|exact HV'].
    simpl in *. by rewrite Hsrv1 in Hle. }
  eapply wp_view; [apply nvotes_view, HV1|]. intros n' s2 [-> Hn'].
  rewrite wp_bind, wp_gets, wp_when.
  destruct (raft_votes_is_majority _ _) eqn:Hmaj; [|rewrite wp_ret; by apply Hsteps1].
  eapply wp_mono; [apply become_leader_step; [by rewrite Hsrv1| |apply HV1]|done|].
  - unfold raft_votes_is_majority in Hmaj. case_match; [done|].
    rewrite Z.quot_div_nonneg in Hmaj by (unfold num_nodes; lia). lia.
  - intros ? s' H'. rewrite wp_ret. by apply Hsteps1.
Qed.

(** *** The other events *)
Lemma num_voting_view s :
  wp raft_get_num_voting_nodes any
    (λ n s', s' = s ∧ n = count_of (is_voter (eview_of s)) (nodes (srv s))) s.
Proof.
  unfold raft_get_num_voting_nodes, get_srv. rewrite wp_bind, wp_gets.
  cut (∀ rs z, wp (num_voting_loop rs z) any
    (λ n s', s' = s ∧ n = z + count_of (is_voter (eview_of s)) rs) s).
  { intros Hl. eapply wp_mono; [apply Hl|done|]. intros n s' [-> ->]. done. }
  induction rs as [|r rs IH]; intros z; simpl.
  { rewrite wp_ret. split; [done|]. unfold count_of. simpl. lia. }
  rewrite wp_bind, get_peer_run, count_of_cons. unfold is_voter at 1. simpl.
  rewrite lookup_fmap. destruct (heap s !! r) as [n|]; [|done]. simpl.
  eapply wp_mono; [apply IH|done|]. intros k s' [-> ->]. split; [done|].
  destruct (raft_node_is_voting n); lia.
Qed.

Lemma pres_become_follower : Pres estep raft_become_follower.
Proof.
  intros s. eapply wp_mono; [apply set_state_view|done|]. intros ? s' Hv.
  eapply estep_view; [exact Hv|]. apply view_step_follower.
Qed.

#[local] Hint Extern 5 (Pres estep _) => apply pres_quiet; solve [eauto with pres typeclass_instances] : pres.
#[local] Hint Resolve pres_become_follower estep_become_candidate pres_for_nodes : pres.

Lemma estep_raft_periodic ms : Pres estep (raft_periodic cb rand ms).
Proof.
  intros s. apply estep_members. intros Hm. unfold raft_periodic.
  do 3 (apply wp_quiet; [pres|]; intros ? ?s ?).
  assert (eview_of s2 = eview_of s) as Hv2 by congruence.
  eapply wp_view; [apply num_voting_view|]. intros n s3 [-> ->].
  pose proof (m_voters _ _ _ Hm) as Hvot. rewrite <- Hv2 in Hvot. simpl in Hvot.
  rewrite (proj2 (Z.eqb_neq _ _) Hvot), wp_bind, wp_ret, wp_bind, wp_when.
  apply pres_from; [apply _|unfold estep; by rewrite Hv2|].
  unfold raft_election_start. pres.
Qed.

Lemma estep_recv_appendentries_response p r :
  Pres estep (raft_recv_appendentries_response cb p r).
Proof.
  unfold raft_recv_appendentries_response, raft_is_leader. destruct p as [p|]; [|pres].
  pres_step; [pres|]. pres_step; [pres|]. pres_step; [pres|]. pres_step; [pres|].
  intros s. unfold get_srv. rewrite wp_bind, wp_gets.
  destruct (Z.ltb_spec (current_term (srv s)) (aer_term r)).
  - apply step_down_step; [lia|apply pres_ret, _].
  - apply pres_from; [apply _|done|]. pres.
Qed.

Lemma pres_ae_term_check ae : Pres estep (ae_term_check cb ae).
Proof.
  intros s. unfold ae_term_check. rewrite wp_get_srv.
  destruct (_ && _); [apply pres_from; [apply _|done|]; pres|].
  destruct (Z.ltb_spec (current_term (srv s)) (ae_term ae)).
  - apply step_down_step; [lia|]. pres.
  - apply pres_from; [apply _|done|]. pres.
Qed.
#[local] Hint Resolve estep_raft_periodic estep_recv_appendentries_response
  pres_ae_term_check : pres.

Lemma estep_recv_appendentries p ae : Pres estep (raft_recv_appendentries cb p ae).
Proof. unfold raft_recv_appendentries, ae_fail_with_current_idx, ae_fail. pres. Qed.
#[local] Hint Resolve estep_recv_appendentries : pres.

(** Events other than votes and membership changes. *)
Definition steady_event (ev : event) : bool :=
  event_ok ev &&
  match ev with
  | EvRequestVote _ | EvRequestVoteResponse _ _ => false
  | EvAddNode _ _ _ | EvAddNonVotingNode _ _ _ | EvRemoveNode _ => false
  | _ => true
  end.

Lemma pres_handle_steady ev : steady_event ev = true → Pres estep (handle cb rand ev).
Proof.
  intros Hok. destruct ev; try done; simpl; unfold raft_set_election_timeout,
    raft_set_request_timeout, raft_set_nack_timeout, raft_set_multi_inflight,
    raft_unset_multi_inflight, raft_set_preferred_leader, raft_unset_preferred_leader,
    raft_set_log_target; pres.
  - apply pres_quiet, pres_raft_recv_entry_batch; [apply _|]. by destruct etys.
  - apply pres_quiet, pres_view_upd_index. done.
Qed.
End handlers.

(** ** The vote of one server *)

(** Membership is in order and a candidate or leader has its own vote. *)
Definition role_ok (ids : list Z) (me : Z) {W} (s : rstate W) : Prop :=
  members ids me (eview_of s)
  ∧ (state (srv s) = RAFT_STATE_CANDIDATE ∨ state (srv s) = RAFT_STATE_LEADER →
     voted_for (srv s) = me).

(** A history in which everybody else voted for [me] in its present term. *)
Definition friendly_history (me : Z) (v : eview) : Z → Z → Z → Prop :=
  λ t n c, t = e_term v ∧ if decide (n = me) then c = e_vote v ∧ c ≠ -1 else c = me.

Lemma role_ok_einv {W} ids me (s : rstate W) :
  role_ok ids me s ↔ einv (friendly_history me (eview_of s)) ids me (eview_of s).
Proof.
  split; [|intros []; split; auto].
  intros [Hm Hown]. unfold friendly_history.
  split; simpl; try (destruct (decide (me = me)); [|done]); try done.
  - by intros t c (_ & _ & ?).
  - by intros t c c' (_ & -> & _) (_ & -> & _).
  - intros t c (-> & _). lia.
  - by intros c (_ & -> & _).
  - intros Hst r i b Hr Hne Hp. split; [done|]. case_decide as Hi; [|done]. subst i.
    split; [by symmetry; auto|]. by eapply members_self_real.
  - intros Hst. exists ids. split; [split_and!; [apply Hm|done|]|].
    + pose proof (members_self_in _ _ _ Hm) as Hin. destruct ids; [by apply elem_of_nil in Hin|].
      simpl length. pose proof (Z.div_lt (Z.of_nat (S (length ids))) 2). lia.
    + intros n Hn. split; [done|]. case_decide; [|done]. split; [by symmetry; auto|].
      by eapply members_self_real.
Qed.

Section one_server.
Context {W : Type} (cb : raft_cbs W) (rand : nat → Z) `{!ElectionCbs cb}.

(** Everything but membership changes; a vote request names a real candidate
    and a response comes from a known peer or from nobody. *)
Definition election_event (ev : event) : bool :=
  match ev with
  | EvRequestVote vr => negb (rv_candidate_id vr =? -1)
  | EvRequestVoteResponse _ _ => true
  | _ => steady_event ev
  end.

(** What one event does to the term and the vote. *)
Lemma handle_vote ids me ev (s s' : rstate W) :
  election_event ev = true → role_ok ids me s → handle cb rand ev s = Ret tt s' →
  role_ok ids me s' ∧ current_term (srv s) ≤ current_term (srv s')
  ∧ (current_term (srv s') = current_term (srv s) → voted_for (srv s) ≠ -1 →
     voted_for (srv s') = voted_for (srv s)).
Proof.
  intros Hev Hrole Hrun. apply role_ok_einv in Hrole as HV.
  assert (vreach ids me (friendly_history me (eview_of s)) s s') as Hreach.
  { destruct (steady_event ev) eqn:Hst.
    { exact (pres_run _ _ _ _ _ (pres_handle_steady cb rand ids me ev Hst) Hrun _ HV). }
    destruct ev as [| | |vr|peer r| | | | | | | | | | | |]; simpl in Hev, Hrun;
      try congruence; try (by rewrite Hst in Hev); clear Hst.
    - apply (wp_any_ret (raft_recv_requestvote cb vr ;; mret tt) (λ _ s', _) s tt s'); [|done].
      rewrite wp_bind. eapply wp_mono; [apply (raft_recv_requestvote_step cb ids me); lia|done|].
      intros rr s1 [H1 _]. rewrite wp_ret. exact (H1 _ HV).
    - apply (wp_any_ret (raft_recv_requestvote_response cb peer r ;; mret tt)
        (λ _ s', _) s tt s'); [|done].
      rewrite wp_bind. eapply wp_mono;
        [apply (requestvote_response_step cb rand ids me (friendly_history me (eview_of s))); [done|]
        |done|].
      + intros p n _ _ _ Hst _. unfold friendly_history. split; [done|]. destruct Hrole as [Hm Hown].
        case_decide; [|done]. split; [by symmetry; auto|]. by eapply members_self_real.
      + intros x s1 H1. rewrite wp_ret. exact H1. }
  destruct Hreach as (Hle & V' & [Hsub _] & HV').
  split_and!; [split; [apply HV'|apply HV']|done|].
  intros Heq Hvoted. apply (e_once _ _ _ _ HV'). apply Hsub. unfold friendly_history. simpl.
  split; [done|]. by rewrite decide_True.
Qed.

Lemma run_events_vote ids me evs (s s' : rstate W) :
  Forall (λ ev, election_event ev = true) evs → role_ok ids me s →
  run_events cb rand evs s = Ret tt s' →
  role_ok ids me s' ∧ current_term (srv s) ≤ current_term (srv s')
  ∧ (current_term (srv s') = current_term (srv s) → voted_for (srv s) ≠ -1 →
     voted_for (srv s') = voted_for (srv s)).
Proof.
  intros Hevs. revert s. induction Hevs as [|ev evs Hev _ IH]; intros s Hrole Hrun; simpl in Hrun.
  { injection Hrun as <-. split_and!; done || lia. }
  unfold mbind, M_bind in Hrun. destruct (handle cb rand ev s) as [[] s1|] eqn:Hh; [|done].
  destruct (handle_vote ids me ev s s1 Hev Hrole Hh) as (Hrole1 & Ht1 & Hv1).
  destruct (IH s1 Hrole1 Hrun) as (Hrole2 & Ht2 & Hv2).
  split_and!; [done|lia|]. intros Heq Hvoted. rewrite Hv2, Hv1; [done|lia|done|lia|].
  rewrite Hv1; [done|lia|done].
Qed.

(** C4: over any sequence of events the term of a server never decreases, and
    within one term it votes at most once: a vote, once cast, stays until the
    term grows.  (Membership is fixed; a request names a real candidate.) *)
Theorem votes_once_per_term ids me evs (s s' : rstate W) :
  Forall (λ ev, election_event ev = true) evs → role_ok ids me s →
  run_events cb rand evs s = Ret tt s' →
  current_term (srv s) ≤ current_term (srv s')
  ∧ (current_term (srv s') = current_term (srv s) → voted_for (srv s) ≠ -1 →
     voted_for (srv s') = voted_for (srv s)).
Proof. intros Hevs Hrole Hrun. by apply (run_events_vote ids me evs s s'). Qed.
End one_server.

(** ** The cluster *)
Section cluster.
Context {W : Type} (cb : raft_cbs W) (rand : Z → nat → Z) `{!ElectionCbs cb}.
Context (ids : list Z).

(** The servers by identity, and the vote responses ever sent: voter,
    addressee and content. *)
Record cluster := mk_cluster {
  servers : gmap Z (rstate W);
  responses : list (Z * Z * msg_requestvote_response)
}.

(** A restart keeps the term and the vote, which are persistent, and the
    membership. *)
Definition restarted (i : Z) (s s' : rstate W) : Prop :=
  current_term (srv s') = current_term (srv s) ∧ voted_for (srv s') = voted_for (srv s)
  ∧ state (srv s') = RAFT_STATE_FOLLOWER ∧ members ids i (eview_of s').

Inductive cluster_step (c : cluster) : cluster → Prop :=
| cs_request i vr x r s s' :
    servers c !! i = Some s → rv_candidate_id vr ∈ ids →
    raft_recv_requestvote cb vr s = Ret (x, r) s' →
    cluster_step c {| servers := <[i := s']> (servers c);
                      responses := (i, rv_candidate_id vr, r) :: responses c |}
| cs_response i j p r x s s' :
    (j, i, r) ∈ responses c → servers c !! i = Some s →
    raft_get_node j s = Ret (Some p) s →
    raft_recv_requestvote_response cb (Some p) r s = Ret x s' →
    cluster_step c {| servers := <[i := s']> (servers c); responses := responses c |}
| cs_event i ev s s' :
    servers c !! i = Some s → steady_event ev = true →
    handle cb (rand i) ev s = Ret tt s' →
    cluster_step c {| servers := <[i := s']> (servers c); responses := responses c |}
| cs_restart i s s' :
    servers c !! i = Some s → restarted i s s' →
    cluster_step c {| servers := <[i := s']> (servers c); responses := responses c |}.

(** Fresh servers, one per member, and no responses. *)
Definition cluster_init (c : cluster) : Prop :=
  dom (servers c) = list_to_set ids ∧ responses c = [] ∧
  ∀ i s, servers c !! i = Some s →
    members ids i (eview_of s) ∧ state (srv s) = RAFT_STATE_FOLLOWER ∧ voted_for (srv s) = -1.

Definition cinv (V : Z → Z → Z → Prop) (c : cluster) : Prop :=
  dom (servers c) = list_to_set ids
  ∧ (∀ i s, servers c !! i = Some s → einv V ids i (eview_of s))
  ∧ (∀ j i r, (j, i, r) ∈ responses c → rvr_vote_granted r = 1 → V (rvr_term r) j i).

Lemma cinv_init c : cluster_init c → cinv (λ _ _ _, False) c.
Proof.
  intros (Hdom & Hresp & Hs). split_and!; [done| |].
  - intros i s His. destruct (Hs i s His) as (Hm & Hst & Hv).
    split; simpl; rewrite ?Hst, ?Hv; try done. by intros [|].
  - rewrite Hresp. by intros ? ? ? ?%elem_of_nil.
Qed.

(** A vote of [i] does not concern another server's consistency. *)
Lemma einv_other V V' i j v : history_ext i V V' → j ≠ i → einv V ids j v → einv V' ids j v.
Proof.
  intros [Hsub Honly] Hne []. assert (∀ t c, V' t j c → V t j c) as Hback.
  { intros t c [?|?]%Honly; done. }
  split; eauto.
  intros Hst. destruct (e_elected0 Hst) as (q & ? & ?). eauto.
Qed.

Lemma cinv_update V V' c i s s' rs :
  cinv V c → servers c !! i = Some s → history_ext i V V' → einv V' ids i (eview_of s') →
  (∀ j k r, (j, k, r) ∈ rs → rvr_vote_granted r = 1 → V' (rvr_term r) j k) →
  cinv V' {| servers := <[i := s']> (servers c); responses := rs |}.
Proof.
  intros (Hdom & Hs & _) Hi Hext HV' Hrs. split_and!; simpl; [|intros j sj|done].
  - rewrite dom_insert_lookup_L by done. done.
  - destruct (decide (j = i)) as [->|Hne].
    + rewrite lookup_insert_eq. by intros [= <-].
    + rewrite lookup_insert_ne by done. intros Hj. eapply einv_other; eauto.
Qed.

Lemma get_node_view j p (s s' : rstate W) :
  raft_get_node j s = Ret (Some p) s' →
  ∃ n, heap s !! p = Some n ∧ raft_node_get_id n = j.
Proof.
  assert (wp (raft_get_node j) any (λ o _, ∀ p, o = Some p →
    ∃ n, heap s !! p = Some n ∧ raft_node_get_id n = j) s) as Hwp.
  { unfold raft_get_node. rewrite wp_get_srv. induction (nodes (srv s)) as [|r rs IH]; simpl.
    - by rewrite wp_ret.
    - rewrite wp_bind, get_peer_run. destruct (heap s !! r) as [n|] eqn:Hn; [|done].
      destruct (Z.eqb_spec j (raft_node_get_id n)); [|exact IH].
      rewrite wp_ret. intros ? [= <-]. eauto. }
  intros Hrun. exact (wp_any_ret _ _ _ _ _ Hwp Hrun p eq_refl).
Qed.

Lemma einv_restarted V i s s' :
  einv V ids i (eview_of s) → restarted i s s' → einv V ids i (eview_of s').
Proof.
  intros [] (Ht & Hv & Hst & Hm). simpl in *.
  split; simpl; rewrite ?Ht, ?Hv, ?Hst; try done. by intros [|].
Qed.

Lemma cinv_step V c c' : cinv V c → cluster_step c c' → ∃ V', cinv V' c'.
Proof.
  intros HC Hstep. pose proof HC as (Hdom & Hs & Hr).
  destruct Hstep as [i vr x r s s' Hi Hc Hrun|i j p r x s s' Hin Hi Hget Hrun
    |i ev s s' Hi Hev Hrun|i s s' Hi Hre]; pose proof (Hs i s Hi) as HV.
  - assert (rv_candidate_id vr ≠ -1) as Hreal.
    { intros Heq. apply (m_real _ _ _ (e_members _ _ _ _ HV)). congruence. }
    destruct (wp_any_ret _ _ _ _ _ (raft_recv_requestvote_step cb ids i vr s Hreal) Hrun)
      as [Hst Hg].
    destruct (Hst V HV) as (_ & V' & Hext & HV'). exists V'.
    eapply cinv_update; try done. intros j k r' [[= -> -> ->]|Hin]%elem_of_cons Hgr.
    + destruct (Hg Hgr) as [Ht Hv]. cbv [snd] in Ht, Hv. rewrite <- Ht, <- Hv.
      apply (e_voted _ _ _ _ HV'). by rewrite Hv.
    + apply Hext. by apply Hr.
  - destruct (get_node_view _ _ _ _ Hget) as (n & Hn & Hid).
    assert (vreach ids i V s s') as (_ & V' & Hext & HV').
    { refine (wp_any_ret _ _ _ _ _
        (requestvote_response_step cb (rand i) ids i V (Some p) r s HV _) Hrun).
      intros ? n' [= <-] Hn' Hgr _ <-. simplify_eq. by apply Hr. }
    exists V'. eapply cinv_update; try done. intros; apply Hext; auto.
  - destruct (pres_run _ _ _ _ _ (pres_handle_steady cb (rand i) ids i ev Hev) Hrun V HV)
      as (_ & V' & Hext & HV').
    exists V'. eapply cinv_update; try done. intros; apply Hext; auto.
  - exists V. eapply cinv_update; try done; [split; auto|]. by eapply einv_restarted.
Qed.

Lemma cinv_steps c c' : rtc cluster_step c c' → ∀ V, cinv V c → ∃ V', cinv V' c'.
Proof.
  induction 1 as [|c1 c2 c3 H12 _ IH]; intros V HV; [eauto|].
  destruct (cinv_step _ _ _ HV H12) as (V' & HV'). eauto.
Qed.

(** Two majorities meet. *)
Lemma majorities_meet q q' :
  majority_of ids q → majority_of ids q' → ∃ n, n ∈ q ∧ n ∈ q'.
Proof.
  intros (Hnd & Hsub & Hlen) (Hnd' & Hsub' & Hlen').
  destruct (decide (Exists (λ n, n ∈ q') q)) as [Hex|Hno].
  { by apply Exists_exists in Hex. }
  rewrite Exists_exists in Hno. exfalso.
  assert (NoDup (q ++ q')) as Hnd2.
  { apply NoDup_app. split_and!; [done| |done]. intros n Hn Hn'. eauto. }
  assert (q ++ q' ⊆+ ids) as Hle%submseteq_length.
  { apply NoDup_submseteq; [done|]. intros n [?|?]%elem_of_app; auto. }
  rewrite length_app in Hle.
  pose proof (Z.mul_succ_div_gt (Z.of_nat (length ids)) 2 ltac:(lia)). lia.
Qed.

(** C1: Election Safety.  In every state a cluster of fixed membership reaches
    from fresh servers, through any handling of requests, responses (lost,
    delayed, duplicated or reordered), timeouts, replication traffic and
    restarts that keep term and vote, two leaders of the same term are the same
    server.  A cluster with exactly one voting member is left out: there
    [raft_periodic] makes the server leader of its term without an election. *)
Theorem election_safety c0 c i j s s' :
  cluster_init c0 → rtc cluster_step c0 c →
  servers c !! i = Some s → servers c !! j = Some s' →
  state (srv s) = RAFT_STATE_LEADER → state (srv s') = RAFT_STATE_LEADER →
  current_term (srv s) = current_term (srv s') → i = j.
Proof.
  intros Hinit Hsteps Hi Hj Hli Hlj Hterm.
  destruct (cinv_steps _ _ Hsteps _ (cinv_init _ Hinit)) as (V & Hdom & Hs & _).
  destruct (e_elected _ _ _ _ (Hs i s Hi) Hli) as (q & Hq & Hvq).
  destruct (e_elected _ _ _ _ (Hs j s' Hj) Hlj) as (q' & Hq' & Hvq').
  destruct (majorities_meet q q' Hq Hq') as (n & Hn & Hn').
  assert (n ∈ dom (servers c)) as [sn Hsn]%elem_of_dom.
  { rewrite Hdom. apply elem_of_list_to_set. by apply Hq. }
  eapply (e_unique _ _ _ _ (Hs n sn Hsn)); [by apply Hvq|]. simpl.
  rewrite Hterm. by apply Hvq'.
Qed.
End cluster.

(** ** A run *)
Lemma pres_view_upd_env f : Pres same_view (upd_env f).
Proof. by apply pres_modify. Qed.
#[local] Hint Resolve pres_view_upd_env : pres.

#[export] Instance env_election : ElectionCbs env_cbs.
Proof.
  split; simpl.
  - split; simpl; [apply _|done|..]; intros ? [= <-]; intros; pres.
  - intros ? [= <-] p m. pres.
  - intros ? [= <-] p m. pres.
  - intros ? [= <-] e i. unfold raft_checkpoint. pres. by apply pres_view_upd_index.
  - done.
  - intros ? [= <-] v. pres.
  - intros ? [= <-] t. pres.
  - done.
Qed.

(** Server [i] of a cluster of three. *)
Definition member (i : Z) : rstate env :=
  default boot (final (run_events env_cbs (λ _, 0)
    [EvAddNode 0 1 (i =? 1); EvAddNode 0 2 (i =? 2); EvAddNode 0 3 (i =? 3)]) boot).

Lemma member_eview i :
  i = 1 ∨ i = 2 ∨ i = 3 →
  eview_of (member i) = {|
    e_term := 0; e_vote := -1; e_state := RAFT_STATE_FOLLOWER;
    e_node := Some (Z.to_nat (i - 1)); e_nodes := [0; 1; 2]%nat;
    e_peers := {[0%nat := (1, true, false); 1%nat := (2, true, false);
                 2%nat := (3, true, false)]} |}.
Proof. intros [->|[->| ->]]; vm_compute; reflexivity. Qed.

Lemma member_members i :
  i = 1 ∨ i = 2 ∨ i = 3 → members [1; 2; 3] i (eview_of (member i)).
Proof.
  intros Hi. rewrite member_eview by done. split; simpl.
  - repeat constructor; eexists _, _; reflexivity.
  - apply (bool_decide_unpack _). by vm_compute.
  - rewrite !not_elem_of_cons. split_and!; try lia. apply not_elem_of_nil.
  - destruct Hi as [->|[->| ->]]; eexists _, _, _; (split; [reflexivity|]);
      (split; [|reflexivity]); simpl; repeat constructor.
  - by vm_compute.
Qed.

(** Server 1 times out and asks for votes, server 2 answers. *)
Definition candidate1 : rstate env :=
  default boot (final (handle env_cbs (λ _, 0) (EvPeriodic 1000)) (member 1)).
Definition request1 : msg_requestvote := {|
  rv_term := 1; rv_candidate_id := 1; rv_last_log_idx := 0; rv_last_log_term := 0 |}.
Definition voter2 : rstate env :=
  default boot (final (raft_recv_requestvote env_cbs request1) (member 2)).
Definition leader1 : rstate env :=
  default boot (final (raft_recv_requestvote_response env_cbs (Some 1%nat)
    {| rvr_term := 1; rvr_vote_granted := 1 |}) candidate1).

Definition fresh_cluster : cluster (W := env) := {|
  servers := {[1 := member 1; 2 := member 2; 3 := member 3]}; responses := [] |}.
Definition asking_cluster : cluster (W := env) := {|
  servers := <[1 := candidate1]> (servers fresh_cluster); responses := responses fresh_cluster |}.
Definition voting_cluster : cluster (W := env) := {|
  servers := <[2 := voter2]> (servers asking_cluster);
  responses := (2, 1, {| rvr_term := 1; rvr_vote_granted := 1 |}) :: responses asking_cluster |}.
Definition elected_cluster : cluster (W := env) := {|
  servers := <[1 := leader1]> (servers voting_cluster); responses := responses voting_cluster |}.

Lemma fresh_cluster_init : cluster_init [1; 2; 3] fresh_cluster.
Proof.
  split; [by vm_compute|]. split; [reflexivity|]. intros i s Hs.
  assert ((i = 1 ∨ i = 2 ∨ i = 3) ∧ s = member i) as [Hi ->].
  { unfold fresh_cluster, servers in Hs.
    apply lookup_insert_Some in Hs as [[<- <-]|[_ Hs]]; [auto|].
    apply lookup_insert_Some in Hs as [[<- <-]|[_ Hs]]; [auto|].
    apply lookup_singleton_Some in Hs as [<- <-]. auto. }
  split; [by apply member_members|]. pose proof (member_eview i Hi) as Hv.
  split; [exact (f_equal e_state Hv)|exact (f_equal e_vote Hv)].
Qed.

Lemma elected_cluster_reachable :
  rtc (cluster_step env_cbs (λ _ _, 0) [1; 2; 3]) fresh_cluster elected_cluster.
Proof.
  apply rtc_l with asking_cluster.
  { apply (cs_event _ _ _ fresh_cluster 1 (EvPeriodic 1000) (member 1) candidate1);
      vm_compute; reflexivity. }
  apply rtc_l with voting_cluster.
  { apply (cs_request _ _ _ asking_cluster 2 request1 0
      {| rvr_term := 1; rvr_vote_granted := 1 |} (member 2) voter2);
      [vm_compute; reflexivity|constructor|vm_compute; reflexivity]. }
  apply rtc_once. apply (cs_response _ _ _ voting_cluster 1 2 1
    {| rvr_term := 1; rvr_vote_granted := 1 |} 0 candidate1 leader1);
    [constructor|vm_compute; reflexivity..].
Qed.

Lemma votes_once_per_term_witness :
  voted_for (srv voter2) = 1
  ∧ 0 ≤ current_term (srv voter2).
Proof.
  split; [by vm_compute|].
  refine (proj1 (votes_once_per_term env_cbs (λ _, 0) [1; 2; 3] 2 [EvRequestVote request1]
    (member 2) voter2 _ _ _)).
  - by repeat constructor.
  - split; [apply member_members; auto|]. vm_compute. by intros [|].
  - vm_compute. reflexivity.
Defined.

Lemma election_safety_witness :
  state (srv leader1) = RAFT_STATE_LEADER ∧ (1 : Z) = 1.
Proof.
  split; [by vm_compute|].
  apply (election_safety env_cbs (λ _ _, 0) [1; 2; 3] fresh_cluster elected_cluster 1 1
    leader1 leader1 fresh_cluster_init elected_cluster_reachable);
    vm_compute; reflexivity.
Defined.
