(* ===== verification/Scheduler.v ===== *)
(** The commutativity scheduler of the [__COMMUTE] build (core/scheduler.hpp).

    Operations wait in a doubly linked list between two sentinels, newest first.
    [next_schedule] points at the oldest one not handed to an executor yet, or
    at [head]: the nodes up to it are pending, those behind it were issued.  An
    executor marks the log entry of an operation it has finished.

    The memory of the nodes, the marks and the devices (the rings to the
    executors, the packet buffers) form the state; allocation, the rings and the
    buffer pool are DPDK's and are parameters. *)

From S2P Require Import Prelude.

Definition SCHED_BUFFER_FULL : Z := 1.
Definition NON_COMMUTE : Z := 2.
Definition max_sched_buffer_length : Z := 4096.
Definition executor_threads : Z := 4.
Definition ENOBUFS : Z := 105.

Record node_t := mk_node {
  to_core : Z;
  me_quorum : Z;
  m : option Z;
  rpc : option Z;
  wal : option Z;
  next : option nat;
  prev : option nat
}.
#[export] Instance node_fields : FieldsOf node_t :=
  λ r, mk_node (to_core r) (me_quorum r) (m r) (rpc r) (wal r) (next r) (prev r).

Record scheduler_t := mk_scheduler {
  head : nat;
  tail : nat;
  next_schedule : nat;
  size : Z;
  id : Z;
  rb_counter : Z
}.
#[export] Instance scheduler_fields : FieldsOf scheduler_t :=
  λ r, mk_scheduler (head r) (tail r) (next_schedule r) (size r) (id r) (rb_counter r).

(** [mem] holds the live nodes by address, [brk] counts allocations, [marked]
    gives the mark of each log entry. *)
Record state (D : Type) := mk_state {
  sched : scheduler_t;
  mem : gmap nat node_t;
  brk : nat;
  marked : gmap Z bool;
  dev : D
}.
Arguments mk_state {D} _ _ _ _ _.
Arguments sched {D} _.
Arguments mem {D} _.
Arguments brk {D} _.
Arguments marked {D} _.
Arguments dev {D} _.
#[export] Instance state_fields D : FieldsOf (state D) :=
  λ r, mk_state (sched r) (mem r) (brk r) (marked r) (dev r).

(** What travels through a ring: quorum, packet and request. *)
Abbreviation triple := (Z * option Z * option Z)%type.

Section scheduler.
Context {D : Type}.
(** Whether the [n]-th allocation succeeds, and what fresh memory holds. *)
Context (alloc : nat → bool) (junk : node_t).
(** [rte_ring_mp_enqueue_bulk(to_cores[i], triple, 3)] and [rte_pktmbuf_free]. *)
Context (ring_enqueue : Z → triple → M D Z) (mbuf_free : option Z → M D ()).
(** The application's commutativity check on two requests. *)
Context (is_commute : option Z → option Z → bool).
Abbreviation C := (M (state D)).

(** Running a device operation. *)
Definition on_dev {A} (op : M D A) : C A := λ s,
  match op (dev s) with
  | Ret a d => Ret a (s <| dev := d |>)
  | Stop f => Stop f
  end.

Definition get_node (p : nat) : C node_t := s ← get; deref (mem s !! p).
Definition upd_node (p : nat) (f : node_t → node_t) : C () :=
  n ← get_node p; modify (λ s, s <| mem := <[p := f n]> (mem s) |>).
Definition upd_sched (f : scheduler_t → scheduler_t) : C () :=
  modify (λ s, s <| sched := f (sched s) |>).

Definition rte_malloc : C (option nat) :=
  s ← get;
  let p := brk s in
  modify (λ s, s <| brk := S p |>) ;;
  if alloc p then modify (λ s, s <| mem := <[p := junk]> (mem s) |>) ;; mret (Some p)
  else mret None.
Definition rte_free (p : nat) : C () :=
  get_node p ;; modify (λ s, s <| mem := delete p (mem s) |>).

(** [rte_malloc] with the callers' check for [NULL]. *)
Definition new_node : C nat :=
  o ← rte_malloc;
  match o with Some p => mret p | None => fail (Exit (-1)) end.

Definition init : C Z :=
  h ← new_node;
  upd_sched (λ me, me <| head := h |>) ;;
  upd_node h (λ n, n <| m := None |> <| rpc := None |> <| wal := None |>
                    <| next := None |> <| prev := None |>) ;;
  t ← new_node;
  upd_sched (λ me, me <| tail := t |>) ;;
  upd_node t (λ n, n <| m := None |> <| rpc := None |> <| wal := None |>
                    <| next := None |> <| prev := None |>) ;;
  upd_node h (λ n, n <| next := Some t |>) ;;
  upd_node t (λ n, n <| prev := Some h |>) ;;
  upd_sched (λ me, me <| next_schedule := h |> <| id := 0 |> <| size := 0 |>
                      <| rb_counter := 0 |>) ;;
  mret 0.

(** The loop of [cleanup], [for(i = 0; i <= size; i++)]. *)
Fixpoint cleanup_loop (rounds : nat) (current_node : option nat) : C () :=
  match rounds with
  | O => mret tt
  | S rounds =>
    p ← match current_node with Some p => mret p | None => fail Assert end;
    n ← get_node p;
    rte_free p ;;
    cleanup_loop rounds (next n)
  end.
Definition cleanup : C Z :=
  s ← get;
  if size (sched s) =? 0 then mret 0 else
  h ← get_node (head (sched s));
  cleanup_loop (S (Z.to_nat (size (sched s)))) (next h) ;;
  upd_node (head (sched s)) (λ n, n <| next := Some (tail (sched s)) |>) ;;
  upd_sched (λ me, me <| size := 0 |>) ;;
  mret 0.

Definition add (core quorum : Z) (mb rq w : option Z) : C Z :=
  s ← get;
  if size (sched s) =? max_sched_buffer_length then mret SCHED_BUFFER_FULL else
  newest ← new_node;
  upd_node newest (λ n, n <| to_core := core |> <| me_quorum := quorum |> <| m := mb |>
                         <| rpc := rq |> <| wal := w |>) ;;
  h ← get_node (head (sched s));
  let top_node := next h in
  upd_node newest (λ n, n <| next := top_node |> <| prev := Some (head (sched s)) |>) ;;
  upd_node (head (sched s)) (λ n, n <| next := Some newest |>) ;;
  top ← deref top_node;
  upd_node top (λ n, n <| prev := Some newest |>) ;;
  upd_sched (λ me, if (next_schedule me =? head me)%nat
                   then me <| next_schedule := newest |> else me) ;;
  upd_sched (λ me, me <| size := u32 (size me + 1) |>) ;;
  mret 0.

(** [list_node->wal->marked]. *)
Definition is_marked (n : node_t) : C bool :=
  w ← deref (wal n);
  s ← get;
  deref (marked s !! w).

(** The inner loop of [schedule]; [true] when it returns [NON_COMMUTE].  The
    fuel of both loops is the number of live nodes. *)
Fixpoint conflict_loop (fuel : nat) (list_node : option nat) : C bool :=
  p ← deref list_node;
  n ← get_node p;
  match next n, fuel with
  | None, _ => mret false
  | Some _, O => fail Hang
  | Some nx, S fuel =>
    s ← get;
    o ← get_node (next_schedule (sched s));
    mk ← is_marked n;
    if negb mk && negb (is_commute (rpc o) (rpc n)) then mret true
    else conflict_loop fuel (Some nx)
  end.

(** Handing [next_schedule] to the next executor in turn. *)
Definition issue : C () :=
  s ← get;
  o ← get_node (next_schedule (sched s));
  let core := rb_counter (sched s) mod executor_threads in
  upd_sched (λ me, me <| rb_counter := u32 (rb_counter me + 1) |>) ;;
  r ← on_dev (ring_enqueue core (me_quorum o, m o, rpc o));
  if r =? - ENOBUFS then fail (Exit (-1)) else mret tt.

Fixpoint schedule_loop (fuel : nat) (list_node : option nat) : C Z :=
  s ← get;
  if (next_schedule (sched s) =? head (sched s))%nat then mret 0 else
  match fuel with
  | O => fail Hang
  | S fuel =>
    conflict ← conflict_loop (base.size (mem s)) list_node;
    if conflict : bool then mret NON_COMMUTE else
    issue ;;
    o ← get_node (next_schedule (sched s));
    p ← deref (prev o);
    upd_sched (λ me, me <| next_schedule := p |>) ;;
    n ← get_node p;
    schedule_loop fuel (next n)
  end.
Definition schedule : C Z :=
  s ← get;
  n ← get_node (next_schedule (sched s));
  schedule_loop (base.size (mem s)) (next n).

(** Unlinking the marked node [p] in [gc]. *)
Definition unlink (p : nat) : C (option nat) :=
  n ← get_node p;
  prev_node ← deref (prev n);
  upd_node prev_node (λ q, q <| next := next n |>) ;;
  nx ← deref (next n);
  upd_node nx (λ q, q <| prev := Some prev_node |>) ;;
  on_dev (mbuf_free (m n)) ;;
  rte_free p ;;
  upd_sched (λ me, me <| size := u32 (size me - 1) |>) ;;
  mret (Some nx).

Fixpoint gc_loop (fuel : nat) (list_node : option nat) : C Z :=
  p ← deref list_node;
  n ← get_node p;
  match next n, fuel with
  | None, _ => mret 0
  | Some _, O => fail Hang
  | Some nx, S fuel =>
    mk ← is_marked n;
    if mk : bool then nx' ← unlink p; gc_loop fuel nx' else gc_loop fuel (Some nx)
  end.
Definition gc : C Z :=
  s ← get;
  n ← get_node (next_schedule (sched s));
  gc_loop (base.size (mem s)) (next n).
End scheduler.

(** ** Doubly linked segments

    [dll mm pv l nx]: the nodes [l] are linked in this order, the first back to
    [pv] and the last on to [nx]. *)
Fixpoint dll (mm : gmap nat node_t) (pv : option nat) (l : list nat) (nx : option nat) : Prop :=
  match l with
  | [] => True
  | a :: l =>
    (∃ n, mm !! a = Some n ∧ prev n = pv ∧ next n = match l with [] => nx | b :: _ => Some b end)
    ∧ dll mm (Some a) l nx
  end.

Definition first_or (l : list nat) (nx : option nat) : option nat :=
  match l with [] => nx | a :: _ => Some a end.
Definition last_or (pv : option nat) (l : list nat) : option nat :=
  match last l with None => pv | Some a => Some a end.

Lemma last_or_cons pv a l : last_or pv (a :: l) = last_or (Some a) l.
Proof.
  unfold last_or. destruct l as [|b l]; [done|]. rewrite last_cons_cons.
  destruct (last (b :: l)) eqn:Hl; [done|]. by apply last_None in Hl.
Qed.
Lemma last_or_snoc pv l a : last_or pv (l ++ [a]) = Some a.
Proof. unfold last_or. by rewrite last_snoc. Qed.
Lemma first_or_app l k nx : first_or (l ++ k) nx = first_or l (first_or k nx).
Proof. by destruct l. Qed.

Lemma dll_app mm pv l k nx :
  dll mm pv (l ++ k) nx ↔ dll mm pv l (first_or k nx) ∧ dll mm (last_or pv l) k nx.
Proof.
  revert pv. induction l as [|a l IH]; intros pv; [simpl; tauto|].
  rewrite last_or_cons. simpl. rewrite IH. destruct l, k; simpl; tauto.
Qed.

Lemma dll_frame mm mm' pv l nx :
  (∀ a, a ∈ l → mm' !! a = mm !! a) → dll mm pv l nx → dll mm' pv l nx.
Proof.
  revert pv. induction l as [|a l IH]; intros pv Ha; [done|].
  intros [(n & Hn & Hl) Hd]. split.
  - exists n. rewrite Ha by set_solver. done.
  - apply IH; [|done]. intros. apply Ha. set_solver.
Qed.

Lemma dll_insert_out mm p n pv l nx :
  p ∉ l → dll mm pv l nx → dll (<[p := n]> mm) pv l nx.
Proof. intros Hp. apply dll_frame. intros a Ha. apply lookup_insert_ne. set_solver. Qed.

Lemma dll_lookup mm pv l nx a : dll mm pv l nx → a ∈ l → ∃ n, mm !! a = Some n.
Proof.
  revert pv. induction l as [|b l IH]; intros pv; [by intros _ ?%not_elem_of_nil|].
  intros [(n & Hn & _) Hd] [->|Ha]%elem_of_cons; eauto.
Qed.

(** The node in the middle. *)
Lemma dll_at mm pv l a k nx :
  dll mm pv (l ++ a :: k) nx →
  ∃ n, mm !! a = Some n ∧ prev n = last_or pv l ∧ next n = first_or k nx.
Proof. intros [_ [H _]]%dll_app. exact H. Qed.

(** Redirecting the last node's [next] and the first node's [prev]. *)
Lemma dll_set_next mm pv l a n nx nx' :
  NoDup (l ++ [a]) → dll mm pv (l ++ [a]) nx → mm !! a = Some n →
  dll (<[a := n <| next := nx' |>]> mm) pv (l ++ [a]) nx'.
Proof.
  intros Hnd [Hl [(n' & Ha & Hp & Hx) _]]%dll_app Hn. apply dll_app.
  apply NoDup_app in Hnd as (_ & Hnd & _).
  split.
  - apply dll_insert_out; [|done]. intros Hin. apply (Hnd a Hin). set_solver.
  - split; [|done]. rewrite lookup_insert_eq. eexists. split_and!; [done| |done]. simpl. congruence.
Qed.

Lemma dll_set_prev mm pv pv' a l n nx :
  NoDup (a :: l) → dll mm pv (a :: l) nx → mm !! a = Some n →
  dll (<[a := n <| prev := pv' |>]> mm) pv' (a :: l) nx.
Proof.
  intros Hnd [(n' & Ha & Hp & Hx) Hl] Hn. apply NoDup_cons in Hnd as [Hnd _].
  split; [|by apply dll_insert_out].
  rewrite lookup_insert_eq. eexists. split_and!; [done..|]. simpl. congruence.
Qed.

(** ** The abstract queue

    An operation as a node carries it; [rep s pend issued]: the list of [s] holds
    the pending operations [pend] followed by the issued ones, both newest
    first, with their addresses. *)
Record op := mk_op { op_core : Z; op_quorum : Z; op_m : option Z; op_rpc : option Z; op_wal : Z }.
Definition carries (n : node_t) (o : op) : Prop :=
  to_core n = op_core o ∧ me_quorum n = op_quorum o ∧ m n = op_m o ∧ rpc n = op_rpc o
  ∧ wal n = Some (op_wal o).

Abbreviation addrs := (map (@fst nat op)).

Section rep.
Context {D : Type}.
Implicit Types (s : state D) (pend issued : list (nat * op)).

Definition chain s pend issued : list nat :=
  head (sched s) :: addrs pend ++ addrs issued ++ [tail (sched s)].

Record rep s pend issued : Prop := {
  rep_dll : dll (mem s) None (chain s pend issued) None;
  rep_nodup : NoDup (chain s pend issued);
  rep_next : Some (next_schedule (sched s)) = last_or (Some (head (sched s))) (addrs pend);
  rep_size : size (sched s) = Z.of_nat (length pend + length issued);
  rep_max : size (sched s) ≤ max_sched_buffer_length;
  rep_ops : Forall (λ x, ∃ n, mem s !! x.1 = Some n ∧ carries n x.2
                       ∧ is_Some (marked s !! op_wal x.2)) (pend ++ issued);
  rep_brk : ∀ a, (brk s ≤ a)%nat → mem s !! a = None
}.

(** Whether an operation is finished. *)
Definition finished (mk : gmap Z bool) (o : op) : bool := default false (mk !! op_wal o).

Lemma rep_ops_insert (mm : gmap nat node_t) (mk : gmap Z bool) p n n' (l : list (nat * op)) :
  mm !! p = Some n → (∀ o, carries n o → carries n' o) →
  Forall (λ x, ∃ n, mm !! x.1 = Some n ∧ carries n x.2 ∧ is_Some (mk !! op_wal x.2)) l →
  Forall (λ x, ∃ n, <[p := n']> mm !! x.1 = Some n ∧ carries n x.2 ∧ is_Some (mk !! op_wal x.2)) l.
Proof.
  intros Hp Hc Hl. eapply Forall_impl; [exact Hl|]. intros [a o] (x & Hx & Hcx & Hm). simpl in *.
  destruct (decide (a = p)) as [->|].
  - exists n'. rewrite lookup_insert_eq. split_and!; [done| |done]. apply Hc. congruence.
  - exists x. by rewrite lookup_insert_ne.
Qed.

Lemma wp_get_node p n {A} (k : node_t → M (state D) A) E Q s :
  mem s !! p = Some n → wp (get_node p ≫= k) E Q s ↔ wp (k n) E Q s.
Proof. intros Hn. unfold get_node. by rewrite wp_bind, wp_bind, wp_get, wp_deref, Hn. Qed.

Lemma wp_upd_node p f n E Q s :
  mem s !! p = Some n →
  wp (upd_node p f) E Q s ↔ Q tt (s <| mem := <[p := f n]> (mem s) |>).
Proof. intros Hn. unfold upd_node. by rewrite (wp_get_node p n), wp_modify by done. Qed.

Section init.
Context (alloc : nat → bool) (junk : node_t).

(** Allocating a node. *)
Lemma new_node_wp (E : fault → Prop) Q s :
  (alloc (brk s) = false → E (Exit (-1))) →
  (alloc (brk s) = true →
    Q (brk s) (s <| brk := S (brk s) |> <| mem := <[brk s := junk]> (mem s) |>)) →
  wp (new_node alloc junk) E Q s.
Proof.
  intros HE HQ. unfold new_node, rte_malloc.
  rewrite wp_bind, wp_bind, wp_get, wp_bind, wp_modify.
  destruct (alloc (brk s)); [|rewrite wp_ret; by apply HE].
  rewrite wp_bind, wp_modify, wp_ret, wp_ret. by apply HQ.
Qed.

Lemma init_wp s :
  (∀ a, (brk s ≤ a)%nat → mem s !! a = None) →
  wp (init alloc junk)
    (λ f, f = Exit (-1) ∧ (alloc (brk s) = false ∨ alloc (S (brk s)) = false))
    (λ r s', r = 0 ∧ rep s' [] [] ∧ marked s' = marked s ∧ dev s' = dev s) s.
Proof.
  intros Hb.
  unfold init, upd_sched. rewrite wp_bind. apply new_node_wp; [by eauto|intros _].
  rewrite wp_bind, wp_modify, wp_bind, wp_upd_node by (simpl; by rewrite lookup_insert_eq).
  rewrite wp_bind. apply new_node_wp; [by eauto|intros _]. simpl.
  rewrite wp_bind, wp_modify, wp_bind, wp_upd_node by (simpl; by rewrite lookup_insert_eq).
  rewrite wp_bind, wp_upd_node
    by (simpl; rewrite !lookup_insert_ne by lia; by rewrite lookup_insert_eq).
  rewrite wp_bind, wp_upd_node
    by (simpl; rewrite lookup_insert_ne by lia; by rewrite lookup_insert_eq).
  rewrite wp_bind, wp_modify, wp_ret. simpl. split_and!; [done| |done..].
  split; simpl; try done.
  - split_and!; [|eexists; split; [by rewrite lookup_insert_eq|done]|done].
    eexists. split; [rewrite lookup_insert_ne by lia; by rewrite lookup_insert_eq|done].
  - apply NoDup_cons. split; [|apply NoDup_singleton]. intros Heq%list_elem_of_singleton. simpl in Heq. lia.
  - intros a Ha. rewrite !lookup_insert_ne by lia. apply Hb. lia.
Qed.

(** [init] leaves an empty queue, whatever the memory held before, unless
    an allocation fails, which ends the process. *)
Theorem init_empty s :
  (∀ a, (brk s ≤ a)%nat → mem s !! a = None) →
  match init alloc junk s with
  | Ret r s' => r = 0 ∧ rep s' [] [] ∧ marked s' = marked s ∧ dev s' = dev s
  | Stop f => f = Exit (-1) ∧ (alloc (brk s) = false ∨ alloc (S (brk s)) = false)
  end.
Proof. intros Hb. exact (init_wp s Hb). Qed.
End init.

(** [next_schedule] is [head] exactly when nothing is pending. *)
Lemma rep_idle s pend issued :
  rep s pend issued →
  (next_schedule (sched s) =? head (sched s))%nat = match pend with [] => true | _ => false end.
Proof.
  intros [_ Hnd Hn _ _ _ _]. destruct pend as [|x pend]; simpl in *.
  - injection Hn as ->. apply Nat.eqb_refl.
  - apply Nat.eqb_neq. intros He. rewrite He in Hn. unfold chain in Hnd.
    rewrite last_or_cons in Hn. unfold last_or in Hn.
    apply NoDup_cons in Hnd as [Hnd _]. apply Hnd. simpl.
    destruct (last (addrs pend)) as [a|] eqn:Hl; injection Hn as ->; [|set_solver].
    apply last_Some_elem_of in Hl. set_solver.
Qed.

Lemma fresh_notin s pend issued : rep s pend issued → brk s ∉ chain s pend issued.
Proof.
  intros [Hd _ _ _ _ _ Hb] Hin. destruct (dll_lookup _ _ _ _ _ Hd Hin) as [n Hn].
  rewrite Hb in Hn by lia. done.
Qed.

Lemma first_rest pend issued t :
  ∃ top rest, addrs pend ++ addrs issued ++ [t] = top :: rest :> list nat.
Proof. destruct pend; [|by eauto]. destruct issued; by eauto. Qed.

(** The new node between [head] and the node it had before. *)
Lemma add_links (mm : gmap nat node_t) h p top rest nh np nt :
  NoDup (h :: top :: rest) → p ∉ h :: top :: rest →
  dll mm None (h :: top :: rest) None → mm !! h = Some nh → mm !! top = Some nt →
  next np = Some top → prev np = Some h →
  dll (<[top := nt <| prev := Some p |>]> (<[h := nh <| next := Some p |>]> (<[p := np]> mm)))
    None (h :: p :: top :: rest) None.
Proof.
  intros Hnd Hp [(n & Hn & Hpv & _) Hd] Hh Ht Hnx Hpr.
  apply NoDup_cons in Hnd as [Hh' Hnd]. apply not_elem_of_cons in Hp as [Hph Hp].
  assert (top ≠ h ∧ p ≠ top) as [? ?] by set_solver.
  split; [|split].
  - eexists. rewrite lookup_insert_ne, lookup_insert_eq by done. split; [done|]. simpl.
    split; [congruence|done].
  - exists np. rewrite !lookup_insert_ne, lookup_insert_eq by done. done.
  - apply (dll_set_prev _ (Some h)); [done| |by rewrite !lookup_insert_ne by done].
    apply dll_insert_out; [done|]. by apply dll_insert_out.
Qed.

Section add.
Context (alloc : nat → bool) (junk : node_t).

Lemma add_wp core q mb rq w pend issued s :
  rep s pend issued → is_Some (marked s !! w) →
  wp (add alloc junk core q mb rq (Some w))
    (λ f, f = Exit (-1) ∧ alloc (brk s) = false ∧ size (sched s) < max_sched_buffer_length)
    (λ r s', if size (sched s) =? max_sched_buffer_length then r = SCHED_BUFFER_FULL ∧ s' = s
       else r = 0 ∧ rep s' ((brk s, mk_op core q mb rq w) :: pend) issued
         ∧ marked s' = marked s ∧ dev s' = dev s) s.
Proof.
  intros Hrep Hw. pose proof (fresh_notin _ _ _ Hrep) as Hfr. pose proof (rep_idle _ _ _ Hrep) as Hidle.
  destruct Hrep as [Hd Hnd Hnext Hsz Hmax Hops Hb]. unfold chain in *.
  destruct (first_rest pend issued (tail (sched s))) as (top & rest & Htop). rewrite Htop in *.
  assert (top ≠ head (sched s) ∧ brk s ≠ top ∧ brk s ≠ head (sched s)) as (? & ? & ?).
  { apply NoDup_cons in Hnd as [? _]. set_solver. }
  pose proof Hd as [(nh & Hnh & Hpv & Hnx) [(nt & Hnt & _) _]].
  unfold add, upd_sched. rewrite wp_bind, wp_get.
  destruct (Z.eqb_spec (size (sched s)) max_sched_buffer_length); [by rewrite wp_ret|].
  rewrite wp_bind. apply new_node_wp; [intros ?; split_and!; [done..|lia]|intros _].
  rewrite wp_bind, wp_upd_node by (simpl; by rewrite lookup_insert_eq). simpl.
  rewrite (wp_get_node _ nh) by (simpl; by rewrite !lookup_insert_ne by done).
  rewrite wp_bind, wp_upd_node by (simpl; by rewrite lookup_insert_eq). simpl.
  rewrite wp_bind, (wp_upd_node _ _ nh) by (simpl; by rewrite !lookup_insert_ne by done). simpl.
  rewrite Hnx, wp_bind, wp_deref, wp_bind, (wp_upd_node _ _ nt)
    by (simpl; by rewrite !lookup_insert_ne by done). simpl.
  rewrite wp_bind, wp_modify, wp_bind, wp_modify, wp_ret. simpl.
  rewrite !insert_insert_eq, Hidle. split_and!; [done| |done..].
  match goal with |- rep (mk_state ?sc _ _ _ _) _ _ =>
    assert (head sc = head (sched s) ∧ tail sc = tail (sched s) ∧ size sc = size (sched s) + 1)
      as (Hhd & Htl & Hsize)
      by (unfold max_sched_buffer_length, u32 in *; destruct pend; simpl; split_and!; try done;
          apply Z.mod_small; lia)
  end.
  split; unfold chain; simpl sched; rewrite ?Hhd, ?Htl, ?Hsize; simpl; rewrite ?Htop.
  - by apply (add_links (mem s)).
  - apply NoDup_cons in Hnd as [Hh Hnd]. apply not_elem_of_cons in Hfr as [? Hfr].
    apply NoDup_cons. split; [apply not_elem_of_cons; by split|]. apply NoDup_cons. by split.
  - rewrite last_or_cons. destruct pend as [|x pend]; simpl; [done|].
    rewrite Hnext. simpl. by rewrite !last_or_cons.
  - rewrite Hsz. lia.
  - lia.
  - constructor.
    + simpl. eexists. rewrite !lookup_insert_ne, lookup_insert_eq by done. done.
    + apply (rep_ops_insert _ _ _ nt); [|by intros o ?|].
      { by rewrite !lookup_insert_ne by done. }
      apply (rep_ops_insert _ _ _ nh); [|by intros o ?|].
      { by rewrite !lookup_insert_ne by done. }
      eapply Forall_impl; [exact Hops|]. intros x (n' & Hx & ?). exists n'.
      rewrite lookup_insert_ne; [done|]. intros He. rewrite <- He, Hb in Hx by lia. done.
  - intros a Ha. assert (mem s !! a = None) as Hna by (apply Hb; lia).
    rewrite !lookup_insert_ne; [done|lia|congruence..].
Qed.

(** [add] refines pushing on the pending operations: it fails without an
    effect exactly when the buffer is full, and otherwise (allocation failure
    ends the process) the new operation is the newest pending one. *)
Theorem add_pushes core q mb rq w pend issued s :
  rep s pend issued → is_Some (marked s !! w) →
  match add alloc junk core q mb rq (Some w) s with
  | Ret r s' =>
    if size (sched s) =? max_sched_buffer_length then r = SCHED_BUFFER_FULL ∧ s' = s
    else r = 0 ∧ rep s' ((brk s, mk_op core q mb rq w) :: pend) issued
      ∧ marked s' = marked s ∧ dev s' = dev s
  | Stop f => f = Exit (-1) ∧ alloc (brk s) = false ∧ size (sched s) < max_sched_buffer_length
  end.
Proof. intros Hrep Hw. exact (add_wp core q mb rq w pend issued s Hrep Hw). Qed.
End add.

(** ** Scheduling *)
Lemma dll_size (mm : gmap nat node_t) pv l nx :
  dll mm pv l nx → NoDup l → (length l ≤ base.size mm)%nat.
Proof.
  intros Hd Hnd. rewrite <- size_dom, <- (size_list_to_set (C := gset nat) l Hnd).
  apply subseteq_size. intros a Ha%elem_of_list_to_set.
  destruct (dll_lookup _ _ _ _ _ Hd Ha) as [n Hn]. by eapply elem_of_dom_2.
Qed.

Lemma rep_fuel s pend issued :
  rep s pend issued → (length pend + length issued + 2 ≤ base.size (mem s))%nat.
Proof.
  intros [Hd Hnd _ _ _ _ _]. pose proof (dll_size _ _ _ _ Hd Hnd) as Hl. unfold chain in Hl.
  simpl in Hl. rewrite !length_app, !length_map in Hl. simpl in Hl. lia.
Qed.

(** [rep] looks at the list only. *)
Lemma rep_same s s' pend issued :
  rep s pend issued → head (sched s') = head (sched s) → tail (sched s') = tail (sched s) →
  next_schedule (sched s') = next_schedule (sched s) → size (sched s') = size (sched s) →
  mem s' = mem s → marked s' = marked s → brk s' = brk s → rep s' pend issued.
Proof.
  unfold chain. intros [? ? ? ? ? ? ?] Hh Ht Hn Hs Hm Hk Hb.
  split; unfold chain; rewrite ?Hh, ?Ht, ?Hn, ?Hs, ?Hm, ?Hk, ?Hb; done.
Qed.

(** The node of an operation in the list. *)
Lemma rep_node s pend issued l x k :
  rep s pend issued → pend ++ issued = l ++ x :: k →
  ∃ n, mem s !! x.1 = Some n ∧ carries n x.2
    ∧ prev n = last_or (Some (head (sched s))) (addrs l)
    ∧ next n = first_or (addrs k) (Some (tail (sched s))).
Proof.
  intros [Hd _ _ _ _ Hops _] He.
  rewrite He in Hops. apply Forall_app in Hops as [_ [(n & Hn & Hc & _) _]%Forall_cons].
  exists n. unfold chain in Hd.
  rewrite app_assoc, <- map_app, He, map_app, <- app_assoc in Hd.
  change (head (sched s) :: ?t) with ([head (sched s)] ++ t) in Hd. simpl map in Hd.
  rewrite app_assoc in Hd. destruct (dll_at _ _ _ _ _ _ Hd) as (n' & Hn' & Hp & Hx).
  assert (n' = n) as -> by congruence. split_and!; [done..| |].
  - rewrite Hp. simpl. by rewrite last_or_cons.
  - rewrite Hx. destruct k; done.
Qed.

Lemma rep_tail s pend issued :
  rep s pend issued → ∃ n, mem s !! tail (sched s) = Some n ∧ next n = None.
Proof.
  intros [Hd _ _ _ _ _ _]. unfold chain in Hd. rewrite app_assoc in Hd.
  change (head (sched s) :: ?l ++ [?t]) with ((head (sched s) :: l) ++ [t]) in Hd.
  destruct (dll_at _ _ _ _ _ _ Hd) as (n & Hn & _ & Hx). eauto.
Qed.

Lemma rep_head s pend issued :
  rep s pend issued → ∃ n, mem s !! head (sched s) = Some n
    ∧ next n = first_or (addrs (pend ++ issued)) (Some (tail (sched s))).
Proof.
  intros [[(n & Hn & _ & Hx) _] _ _ _ _ _ _]. exists n. split; [done|].
  rewrite Hx. destruct pend, issued; done.
Qed.

(** [next_schedule] stands just before the issued operations. *)
Lemma rep_position s pend issued :
  rep s pend issued → ∃ n, mem s !! next_schedule (sched s) = Some n
    ∧ next n = first_or (addrs issued) (Some (tail (sched s))).
Proof.
  intros Hrep. pose proof (rep_next _ _ _ Hrep) as Hnext.
  destruct pend as [|x pend _] using rev_ind.
  - destruct (rep_head _ _ _ Hrep) as (n & Hn & Hx). exists n. injection Hnext as ->. done.
  - rewrite map_app in Hnext. simpl in Hnext. rewrite last_or_snoc in Hnext.
    destruct (rep_node _ _ _ pend x issued Hrep) as (n & Hn & _ & _ & Hx);
      [by rewrite <- app_assoc|].
    exists n. injection Hnext as ->. done.
Qed.

Section schedule.
Context (ring_enqueue : Z → triple → M D Z) (is_commute : option Z → option Z → bool).
(** A ring takes all it is given or, when it is [full], nothing; [tr] is what the rings
    have taken. *)
Context (full : Z → D → bool) (tr : D → list (Z * triple)).
Definition ring_works : Prop := ∀ c t d,
  wp (ring_enqueue c t) none (λ r d', if full c d then r = - ENOBUFS ∧ tr d' = tr d
    else r ≠ - ENOBUFS ∧ tr d' = tr d ++ [(c, t)]) d.

(** [o] must wait for an issued operation. *)
Definition waits (mk : gmap Z bool) (o : op) (issued : list op) : bool :=
  existsb (λ x, negb (finished mk x) && negb (is_commute (op_rpc o) (op_rpc x))) issued.

(** What one call of [schedule] issues, oldest first, and what it leaves. *)
Fixpoint plan (mk : gmap Z bool) (pend : list (nat * op)) (issued : list (nat * op))
  : list (nat * op) * list (nat * op) :=
  match pend with
  | [] => ([], [])
  | x :: pend' =>
    if waits mk x.2 (map snd issued) then ([], pend)
    else let '(taken, kept) := plan mk pend' (x :: issued) in (x :: taken, kept)
  end.

Definition sent_triple (o : op) : triple := (op_quorum o, op_m o, op_rpc o).

Lemma is_marked_wp s pend issued x n E Q :
  rep s pend issued → x ∈ pend ++ issued → carries n x.2 →
  Q (finished (marked s) x.2) s → wp (is_marked n) E Q s.
Proof.
  intros [_ _ _ _ _ Hops _] Hx (_ & _ & _ & _ & Hw) HQ. unfold is_marked.
  rewrite Hw, wp_bind, wp_deref, wp_bind, wp_get, wp_deref.
  eapply Forall_forall in Hops as (_ & _ & _ & b & Hb); [|done].
  unfold finished in HQ. by rewrite Hb in *.
Qed.

Lemma conflict_loop_wp fuel s pend x pre k :
  rep s (pend ++ [x]) (pre ++ k) → (length k ≤ fuel)%nat →
  wp (conflict_loop is_commute fuel (first_or (addrs k) (Some (tail (sched s))))) none
    (λ b s', s' = s ∧ b = waits (marked s) x.2 (map snd k)) s.
Proof.
  revert fuel pre. induction k as [|y k IH]; intros fuel pre Hrep Hf.
  - destruct (rep_tail _ _ _ Hrep) as (n & Hn & Hx).
    destruct fuel; cbn [conflict_loop first_or map]; rewrite wp_bind, wp_deref, (wp_get_node _ n), Hx, wp_ret by done; done.
  - destruct fuel as [|fuel]; simpl in Hf; [lia|].
    destruct (rep_node s _ _ ((pend ++ [x]) ++ pre) y k Hrep) as (n & Hn & Hc & _ & Hx).
    { by rewrite <- !app_assoc. }
    destruct (rep_node s _ _ pend x (pre ++ y :: k) Hrep) as (nx & Hnx & Hcx & _).
    { by rewrite <- !app_assoc. }
    assert (next_schedule (sched s) = x.1) as Hns.
    { pose proof (rep_next _ _ _ Hrep) as Hl. rewrite map_app in Hl. simpl in Hl.
      rewrite last_or_snoc in Hl. congruence. }
    cbn [conflict_loop first_or map]. rewrite wp_bind, wp_deref, (wp_get_node _ n) by done.
    destruct (next n) as [a|] eqn:Ha; [|by destruct k].
    rewrite wp_bind, wp_get, Hns, (wp_get_node _ nx), wp_bind by done.
    apply (is_marked_wp s _ _ y n none _ Hrep); [set_solver|done|].
    destruct Hc as (_ & _ & _ & -> & _). destruct Hcx as (_ & _ & _ & -> & _).
    change (waits (marked s) x.2 (y.2 :: map snd k))
      with ((negb (finished (marked s) y.2) && negb (is_commute (op_rpc x.2) (op_rpc y.2)))
            || waits (marked s) x.2 (map snd k)).
    destruct (negb _ && _); [by rewrite wp_ret|]. rewrite orb_false_l, Hx.
    apply (IH fuel (pre ++ [y])); [|lia]. by rewrite <- app_assoc.
Qed.

(** Issuing moves the oldest pending operation over. *)
Lemma rep_shift s s' pend x issued :
  rep s (pend ++ [x]) issued → head (sched s') = head (sched s) → tail (sched s') = tail (sched s) →
  Some (next_schedule (sched s')) = last_or (Some (head (sched s))) (addrs pend) →
  size (sched s') = size (sched s) → mem s' = mem s → marked s' = marked s → brk s' = brk s →
  rep s' pend (x :: issued).
Proof.
  intros [Hd Hnd _ Hsz Hmax Hops Hb] Hh Ht Hn Hs Hm Hk Hbr. unfold chain in *.
  rewrite map_app, <- app_assoc in Hd, Hnd. rewrite <- app_assoc in Hops.
  split; unfold chain; rewrite ?Hh, ?Ht, ?Hs, ?Hm, ?Hk, ?Hbr; try done.
  rewrite Hsz, length_app. simpl. lia.
Qed.

Lemma issue_wp s pend x issued :
  ring_works → rep s (pend ++ [x]) issued →
  wp (issue ring_enqueue) (λ f, f = Exit (-1) ∧ full (rb_counter (sched s) mod executor_threads) (dev s) = true)
    (λ _ s', sched s' = sched s <| rb_counter := u32 (rb_counter (sched s) + 1) |>
       ∧ mem s' = mem s ∧ marked s' = marked s ∧ brk s' = brk s
       ∧ tr (dev s') = tr (dev s) ++
           [(rb_counter (sched s) mod executor_threads, sent_triple x.2)]) s.
Proof.
  intros Hring Hrep. destruct (rep_node s _ _ pend x issued Hrep) as (n & Hn & Hc & _).
  { by rewrite <- !app_assoc. }
  assert (next_schedule (sched s) = x.1) as Hns.
  { pose proof (rep_next _ _ _ Hrep) as Hl. rewrite map_app in Hl. simpl in Hl.
    rewrite last_or_snoc in Hl. congruence. }
  unfold issue, upd_sched. rewrite wp_bind, wp_get, Hns, (wp_get_node _ n) by done.
  rewrite wp_bind, wp_modify, wp_bind. unfold on_dev, wp at 1. simpl.
  destruct Hc as (_ & -> & -> & -> & _).
  destruct (proj1 (wp_none_ret _ _ _) (Hring (rb_counter (sched s) mod executor_threads)
    (sent_triple x.2) (dev s))) as (r & d' & Hr & Hpost).
  unfold sent_triple in Hr. rewrite Hr. destruct (full _ _) eqn:Hfull; destruct Hpost as [Hne Ht].
  - by rewrite Hne.
  - replace (r =? - ENOBUFS) with false by lia. rewrite wp_ret. simpl. done.
Qed.

(** The executors take the operations in turn from [c] on. *)
Definition deliveries (c : Z) (taken : list (nat * op)) : list (Z * triple) :=
  imap (λ i x, ((c + Z.of_nat i) mod executor_threads, sent_triple x.2)) taken.

(** The wrap-around of the counter does not disturb the turn: 4 divides 2^32. *)
Lemma turn_wraps c i : (c + i) mod executor_threads = (u32 c + i) mod executor_threads.
Proof.
  unfold u32, executor_threads. rewrite (Z.add_mod c), (Z.add_mod (c mod 2 ^ 32)) by lia.
  rewrite Z.mod_mod_divide; [done|]. by exists (2 ^ 30).
Qed.

Lemma deliveries_cons c x taken :
  deliveries c (x :: taken) =
    (c mod executor_threads, sent_triple x.2) :: deliveries (u32 (c + 1)) taken.
Proof.
  unfold deliveries. rewrite imap_cons, Z.add_0_r. f_equal.
  apply imap_ext. intros i y _. simpl. by rewrite <- turn_wraps, <- Z.add_assoc, Z.add_1_l, Nat2Z.inj_succ.
Qed.

(** The process ends at the [n]th operation, whose ring is full. *)
Definition ring_stops s (taken : list (nat * op)) (f : fault) : Prop :=
  f = Exit (-1) ∧ ∃ n d, (n < length taken)%nat
    ∧ full ((rb_counter (sched s) + Z.of_nat n) mod executor_threads) d = true
    ∧ tr d = tr (dev s) ++ deliveries (rb_counter (sched s)) (take n taken).
Lemma ring_stops_cons s s' x taken f :
  rb_counter (sched s') = u32 (rb_counter (sched s) + 1) →
  tr (dev s') = tr (dev s) ++ [(rb_counter (sched s) mod executor_threads, sent_triple x.2)] →
  ring_stops s' taken f → ring_stops s (x :: taken) f.
Proof.
  intros Hrb Htr (-> & n & d & Hn & Hf & Ht). split; [done|]. exists (S n), d. cbn [length take].
  split_and!; [lia| |].
  - by rewrite Nat2Z.inj_succ, <- Z.add_1_l, Z.add_assoc, turn_wraps, <- Hrb.
  - by rewrite Ht, Htr, Hrb, deliveries_cons, <- app_assoc.
Qed.

Lemma schedule_loop_wp fuel s pend issued :
  ring_works → rep s (reverse pend) issued → (length pend ≤ fuel)%nat →
  wp (schedule_loop ring_enqueue is_commute fuel
        (first_or (addrs issued) (Some (tail (sched s)))))
    (ring_stops s (plan (marked s) pend issued).1)
    (λ r s', let '(taken, kept) := plan (marked s) pend issued in
       r = match kept with [] => 0 | _ => NON_COMMUTE end
       ∧ rep s' (reverse kept) (reverse taken ++ issued)
       ∧ marked s' = marked s
       ∧ tr (dev s') = tr (dev s) ++ deliveries (rb_counter (sched s)) taken) s.
Proof.
  intros Hring. revert fuel s issued. induction pend as [|x pend IH]; intros fuel s issued Hrep Hf.
  { pose proof (rep_idle _ _ _ Hrep) as Hidle. simpl in Hidle.
    destruct fuel; cbn [schedule_loop]; rewrite wp_bind, wp_get, Hidle, wp_ret; simpl;
      rewrite app_nil_r; done. }
  rewrite reverse_cons in Hrep. pose proof (rep_idle _ _ _ Hrep) as Hidle.
  destruct fuel as [|fuel]; simpl in Hf; [lia|]. cbn [schedule_loop plan].
  rewrite wp_bind, wp_get, Hidle.
  replace (match reverse pend ++ [x] with [] => true | _ :: _ => false end) with false
    by (by destruct (reverse pend)).
  rewrite wp_bind. eapply wp_mono; [apply (conflict_loop_wp _ s (reverse pend) x [] issued);
    [done|apply rep_fuel in Hrep; lia]|done|].
  intros b s0 [-> ->]. destruct (waits _ _ _).
  { rewrite wp_ret, app_nil_r, reverse_cons. done. }
  rewrite wp_bind. eapply wp_mono; [by apply (issue_wp s (reverse pend) x issued)| |].
  { intros f [-> Hfull]. split; [done|]. exists O, (dev s). destruct (plan _ _ _) as [taken kept]. simpl.
    rewrite Z.add_0_r, app_nil_r. split_and!; [lia|done..]. }
  intros ? s1 (Hs1 & Hm1 & Hk1 & Hb1 & Ht1).
  destruct (rep_node s _ _ (reverse pend) x issued Hrep) as (n & Hn & _ & Hpv & _).
  { by rewrite <- !app_assoc. }
  assert (next_schedule (sched s) = x.1) as Hns.
  { pose proof (rep_next _ _ _ Hrep) as Hl. rewrite map_app in Hl. simpl in Hl.
    rewrite last_or_snoc in Hl. congruence. }
  rewrite Hns, (wp_get_node _ n) by (by rewrite Hm1).
  assert (∃ q, last_or (Some (head (sched s))) (addrs (reverse pend)) = Some q) as [q Hq].
  { unfold last_or. by destruct (last _); eexists. }
  rewrite Hpv, Hq, wp_bind, wp_deref, wp_bind. unfold upd_sched. rewrite wp_modify.
  set (s2 := s1 <| sched := _ |>).
  assert (rep s2 (reverse pend) (x :: issued)) as Hrep2.
  { apply (rep_shift s); subst s2; simpl; rewrite ?Hs1; done. }
  destruct (rep_position _ _ _ Hrep2) as (nq & Hnq & Hxq).
  change (next_schedule (sched s2)) with q in Hnq.
  rewrite (wp_get_node _ nq), Hxq by done.
  assert (marked s2 = marked s ∧ dev s2 = dev s1
    ∧ rb_counter (sched s2) = u32 (rb_counter (sched s) + 1)) as (Hk2 & Hd2 & Hrb2).
  { subst s2. simpl. by rewrite Hs1. }
  specialize (IH fuel s2 (x :: issued) Hrep2 ltac:(lia)). rewrite Hk2, Hd2, Hrb2, Ht1 in IH.
  eapply wp_mono; [exact IH| |].
  { intros f Hst. destruct (plan _ _ _) as [taken kept]. by apply (ring_stops_cons s s2); [|rewrite Hd2|]. }
  intros r s' Hpost. destruct (plan _ _ _) as [taken kept].
  rewrite deliveries_cons, reverse_cons, <- !app_assoc in *. done.
Qed.

Lemma schedule_wp s pend issued :
  ring_works → rep s pend issued →
  wp (schedule ring_enqueue is_commute) (ring_stops s (plan (marked s) (reverse pend) issued).1) (λ r s',
    let '(taken, kept) := plan (marked s) (reverse pend) issued in
    r = match kept with [] => 0 | _ => NON_COMMUTE end
    ∧ rep s' (reverse kept) (reverse taken ++ issued) ∧ marked s' = marked s
    ∧ tr (dev s') = tr (dev s) ++ deliveries (rb_counter (sched s)) taken) s.
Proof.
  intros Hring Hrep. destruct (rep_position s pend issued Hrep) as (n & Hn & Hx).
  unfold schedule. rewrite wp_bind, wp_get, (wp_get_node _ n), Hx by done.
  apply schedule_loop_wp; [done|by rewrite reverse_involutive|].
  apply rep_fuel in Hrep. rewrite length_reverse. lia.
Qed.

(** C30: [schedule] issues, in the order they were added, the pending operations
    that commute with every issued operation not yet finished, and stops at the
    first that does not; executors are served in turn, and the loops terminate.  A
    ring that has no room ends the process: that happens only at an operation that was
    to be issued, with the ring of its executor full and the ones before it issued. *)
Theorem schedule_issues s pend issued :
  ring_works → rep s pend issued →
  let '(taken, kept) := plan (marked s) (reverse pend) issued in
  match schedule ring_enqueue is_commute s with
  | Ret r s' => r = match kept with [] => 0 | _ => NON_COMMUTE end
      ∧ rep s' (reverse kept) (reverse taken ++ issued)
      ∧ marked s' = marked s
      ∧ tr (dev s') = tr (dev s) ++ deliveries (rb_counter (sched s)) taken
  | Stop f => ring_stops s taken f
  end.
Proof.
  intros Hring Hrep. pose proof (schedule_wp s pend issued Hring Hrep) as Hwp. unfold wp in Hwp.
  by destruct (plan _ _ _), (schedule _ _ s).
Qed.
End schedule.

(** ** Garbage collection *)
Lemma dll_delete_out mm p pv l nx : p ∉ l → dll mm pv l nx → dll (delete p mm) pv l nx.
Proof. intros Hp. apply dll_frame. intros a Ha. apply lookup_delete_ne. set_solver. Qed.

Lemma unlink_links (mm : gmap nat node_t) l q p nx k nq nn :
  let mm' := delete p (<[nx := nn <| prev := Some q |>]> (<[q := nq <| next := Some nx |>]> mm)) in
  NoDup ((l ++ [q]) ++ p :: nx :: k) →
  dll mm None ((l ++ [q]) ++ p :: nx :: k) None → mm !! q = Some nq → mm !! nx = Some nn →
  dll mm' None ((l ++ [q]) ++ nx :: k) None.
Proof.
  intros mm' Hnd Hd Hq Hn. apply dll_app in Hd as [Hl [_ Hr]]. simpl in Hl.
  apply NoDup_app in Hnd as (Hnl & Hdis & [Hpk Hnr]%NoDup_cons).
  assert (p ∉ l ++ [q]) as Hpl by (intros H; apply (Hdis p H); set_solver).
  assert (nx ∉ l ++ [q]) as Hnl' by (intros H; apply (Hdis nx H); set_solver).
  assert (q ∉ nx :: k) as Hqr.
  { intros H. apply (Hdis q); [set_solver|]. set_solver. }
  apply dll_app. split.
  - apply dll_delete_out; [done|]. apply dll_insert_out; [done|]. by apply (dll_set_next _ _ _ _ _ _ _ Hnl Hl).
  - rewrite last_or_snoc. apply dll_delete_out; [done|].
    apply (dll_set_prev _ (Some p)); [done|by apply dll_insert_out|].
    rewrite lookup_insert_ne; [done|]. set_solver.
Qed.

Section gc.
(** Freeing a buffer is recorded in [freed] and leaves the device state [keep],
    such as the rings, alone. *)
Context {X : Type} (mbuf_free : option Z → M D ()) (freed : D → list (option Z)) (keep : D → X).
Definition buffers_freed : Prop := ∀ b d,
  wp (mbuf_free b) none (λ _ d', freed d' = freed d ++ [b] ∧ keep d' = keep d) d.

(** [head :: pend ++ pre] ends in the predecessor of what follows. *)
Lemma chain_split s pend pre x k :
  ∃ l q nx r, chain s pend (pre ++ x :: k) = (l ++ [q]) ++ x.1 :: nx :: r
    ∧ chain s pend (pre ++ k) = (l ++ [q]) ++ nx :: r
    ∧ last_or (Some (head (sched s))) (addrs (pend ++ pre)) = Some q
    ∧ first_or (addrs k) (Some (tail (sched s))) = Some nx.
Proof.
  assert (∃ l q, head (sched s) :: addrs (pend ++ pre) = l ++ [q]) as (l & q & Hl).
  { destruct (exists_last (l := head (sched s) :: addrs (pend ++ pre))) as (l & q & ?); eauto. }
  assert (∃ nx r, addrs k ++ [tail (sched s)] = nx :: r) as (nx & r & Hr).
  { destruct k; simpl; eauto. }
  exists l, q, nx, r. unfold chain. split_and!.
  - rewrite <- Hl, <- Hr, !map_app. simpl. by rewrite <- !app_assoc.
  - rewrite <- Hl, <- Hr, !map_app. simpl. by rewrite <- !app_assoc.
  - by rewrite <- (last_or_cons None), Hl, last_or_snoc.
  - destruct k; simpl in *; congruence.
Qed.

Lemma unlink_wp s pend pre x k :
  buffers_freed → rep s pend (pre ++ x :: k) →
  wp (unlink mbuf_free x.1) none
    (λ o s', o = first_or (addrs k) (Some (tail (sched s))) ∧ rep s' pend (pre ++ k)
       ∧ marked s' = marked s ∧ tail (sched s') = tail (sched s)
       ∧ freed (dev s') = freed (dev s) ++ [op_m x.2] ∧ keep (dev s') = keep (dev s)) s.
Proof.
  intros Hfree Hrep. destruct (chain_split s pend pre x k) as (l & q & nx & r & Hch & Hch' & Hq & Hnx).
  destruct (rep_node s _ _ (pend ++ pre) x k Hrep) as (n & Hn & Hc & Hp & Hx).
  { by rewrite <- app_assoc. }
  destruct Hrep as [Hd Hnd Hnext Hsz Hmax Hops Hb]. rewrite Hch in Hd, Hnd.
  destruct (dll_lookup _ _ _ _ q Hd) as [nq Hnq]; [set_solver|].
  destruct (dll_lookup _ _ _ _ nx Hd) as [nn Hnn]; [set_solver|].
  assert (q ≠ nx ∧ q ≠ x.1 ∧ nx ≠ x.1) as (? & ? & ?).
  { apply NoDup_app in Hnd as (_ & Hdis & Hnd). apply NoDup_cons in Hnd as [Hnd _].
    specialize (Hdis q). set_solver. }
  unfold unlink, upd_sched.
  rewrite (wp_get_node _ n), Hp, Hq, wp_bind, wp_deref, wp_bind, (wp_upd_node _ _ nq) by done.
  rewrite Hx, Hnx, wp_bind, wp_deref, wp_bind, (wp_upd_node _ _ nn)
    by (simpl; by rewrite lookup_insert_ne by done). simpl.
  rewrite wp_bind. unfold on_dev, wp at 1. simpl.
  destruct (proj1 (wp_none_ret _ _ _) (Hfree (m n) (dev s))) as ([] & d' & Hr & Hf & Hkp). rewrite Hr.
  unfold rte_free. rewrite wp_bind, (wp_get_node _ n), wp_modify, wp_bind, wp_modify, wp_ret
    by (simpl; by rewrite !lookup_insert_ne by done). simpl.
  split_and!; [done| |done..|rewrite Hf; by destruct Hc as (_ & _ & -> & _)|done].
  assert (NoDup ((l ++ [q]) ++ nx :: r) ∧ x.1 ∉ (l ++ [q]) ++ nx :: r) as [Hnd' Hxn].
  { rewrite <- Permutation_middle in Hnd. apply NoDup_cons in Hnd as [? ?]. done. }
  split; [change (chain _ pend (pre ++ k)) with (chain s pend (pre ++ k)); rewrite Hch'..| | | | |];
    simpl; [|done|done|..].
  - by apply unlink_links.
  - rewrite length_app in Hsz. simpl in Hsz. rewrite length_app. unfold u32.
    unfold max_sched_buffer_length in *. rewrite Z.mod_small; lia.
  - rewrite length_app in Hsz. simpl in Hsz. unfold u32.
    unfold max_sched_buffer_length in *. rewrite Z.mod_small; lia.
  - assert (x.1 ∉ addrs (pend ++ pre ++ k)) as Hxk.
    { rewrite <- Hch' in Hxn. unfold chain in Hxn. rewrite !map_app in *. set_solver. }
    assert (Forall (λ y, ∃ n, mem s !! y.1 = Some n ∧ carries n y.2
      ∧ is_Some (marked s !! op_wal y.2)) (pend ++ pre ++ k)) as Hops'.
    { rewrite !Forall_app, Forall_cons in Hops. rewrite !Forall_app. tauto. }
    apply (rep_ops_insert _ _ q nq (nq <| next := Some nx |>)) in Hops'; [|done|done].
    apply (rep_ops_insert _ _ nx nn (nn <| prev := Some q |>)) in Hops'; [|by rewrite lookup_insert_ne|done].
    rewrite Forall_forall in Hops' |- *. intros y Hy. destruct (Hops' y Hy) as (ny & Hny & ?).
    exists ny. rewrite lookup_delete_ne; [done|]. intros He. apply Hxk. rewrite He.
    by apply list_elem_of_fmap_2.
  - intros a Ha. assert (mem s !! a = None) by (by apply Hb).
    rewrite lookup_delete_None. right. rewrite !lookup_insert_ne by congruence. done.
Qed.

Lemma gc_loop_wp fuel s pend pre k :
  buffers_freed → rep s pend (pre ++ k) → (length k ≤ fuel)%nat →
  wp (gc_loop mbuf_free fuel (first_or (addrs k) (Some (tail (sched s))))) none
    (λ r s', r = 0 ∧ marked s' = marked s ∧ keep (dev s') = keep (dev s)
       ∧ rep s' pend (pre ++ filter (λ x, finished (marked s) x.2 = false) k)
       ∧ freed (dev s') = freed (dev s) ++
           map (λ x, op_m x.2) (filter (λ x, finished (marked s) x.2 = true) k)) s.
Proof.
  intros Hfree. revert fuel s pre. induction k as [|x k IH]; intros fuel s pre Hrep Hf.
  - destruct (rep_tail _ _ _ Hrep) as (n & Hn & Hx).
    destruct fuel; cbn [gc_loop first_or map]; rewrite wp_bind, wp_deref, (wp_get_node _ n), Hx,
      wp_ret by done; rewrite !filter_nil; simpl; by rewrite !app_nil_r in *.
  - destruct fuel as [|fuel]; simpl in Hf; [lia|].
    destruct (rep_node s _ _ (pend ++ pre) x k Hrep) as (n & Hn & Hc & _ & Hx).
    { by rewrite <- app_assoc. }
    cbn [gc_loop first_or map]. rewrite wp_bind, wp_deref, (wp_get_node _ n) by done.
    destruct (next n) as [a|] eqn:Ha; [|by destruct k].
    rewrite wp_bind. apply (is_marked_wp s _ _ x n none _ Hrep); [set_solver|done|].
    rewrite !filter_cons. destruct (finished (marked s) x.2).
    + rewrite decide_False, decide_True by done. rewrite wp_bind.
      eapply wp_mono; [by apply unlink_wp|done|].
      intros o s1 (-> & Hrep1 & Hk1 & Ht1 & Hf1 & Hkp1). rewrite <- Ht1.
      eapply wp_mono; [apply (IH fuel s1 pre Hrep1); lia|done|].
      rewrite Hk1, Hf1, Hkp1. intros r s' (-> & -> & -> & Hrep' & ->). simpl. rewrite <- app_assoc. done.
    + rewrite decide_True, decide_False by done. rewrite Hx.
      eapply wp_mono; [apply (IH fuel s (pre ++ [x])); [by rewrite <- app_assoc|lia]|done|].
      rewrite <- app_assoc. done.
Qed.

Lemma gc_wp s pend issued :
  buffers_freed → rep s pend issued →
  wp (gc mbuf_free) none
    (λ r s', r = 0 ∧ marked s' = marked s ∧ keep (dev s') = keep (dev s)
       ∧ rep s' pend (filter (λ x, finished (marked s) x.2 = false) issued)
       ∧ freed (dev s') = freed (dev s) ++
           map (λ x, op_m x.2) (filter (λ x, finished (marked s) x.2 = true) issued)) s.
Proof.
  intros Hfree Hrep. destruct (rep_position s pend issued Hrep) as (n & Hn & Hx).
  unfold gc. rewrite wp_bind, wp_get, (wp_get_node _ n), Hx by done.
  apply (gc_loop_wp _ s pend []); [done..|]. apply rep_fuel in Hrep. lia.
Qed.

(** [gc] removes exactly the finished operations among the issued ones and
    frees their packets, each once; order and pending operations are untouched,
    and the loop terminates. *)
Theorem gc_collects s pend issued :
  buffers_freed → rep s pend issued →
  ∃ s', gc mbuf_free s = Ret 0 s'
    ∧ rep s' pend (filter (λ x, finished (marked s) x.2 = false) issued)
    ∧ marked s' = marked s
    ∧ freed (dev s') = freed (dev s) ++
        map (λ x, op_m x.2) (filter (λ x, finished (marked s) x.2 = true) issued).
Proof.
  intros Hfree Hrep. destruct (proj1 (wp_none_ret _ _ _) (gc_wp s pend issued Hfree Hrep))
    as (r & s' & Hrun & -> & Hk & _ & Hrep' & Hf). eauto.
Qed.
End gc.
End rep.

(** ** Cleaning up *)
Section cleanup.
Context {D : Type} (alloc : nat → bool) (junk : node_t).
Implicit Types (s : state D).

Lemma cleanup_loop_wp l pv s :
  dll (mem s) pv l None → NoDup l →
  wp (cleanup_loop (length l) (first_or l None)) none
    (λ _ s', sched s' = sched s ∧ brk s' = brk s
       ∧ ∀ a, mem s' !! a = if decide (a ∈ l) then None else mem s !! a) s.
Proof.
  revert pv s. induction l as [|a l IH]; intros pv s Hd Hnd; cbn [length cleanup_loop first_or].
  { rewrite wp_ret. split_and!; [done..|]. intros a.
    rewrite decide_False; [done|]. apply not_elem_of_nil. }
  destruct Hd as [(n & Hn & _ & Hx) Hd]. apply NoDup_cons in Hnd as [Ha Hnd].
  rewrite wp_bind, wp_ret, (wp_get_node _ n) by done. unfold rte_free.
  rewrite wp_bind, (wp_get_node _ n), wp_modify by done.
  replace (next n) with (first_or l None) by (by rewrite Hx; destruct l).
  eapply wp_mono; [apply (IH (Some a)); [simpl; by apply dll_delete_out|done]|done|].
  simpl. intros ? s' (Hs & Hb & Hm). split_and!; [done..|]. intros b. rewrite Hm.
  destruct (decide (b = a)) as [->|].
  - rewrite (decide_True (P := a ∈ a :: l)) by set_solver. case_decide; [done|].
    apply lookup_delete_eq.
  - destruct (decide (b ∈ l)).
    + by rewrite decide_True by set_solver.
    + rewrite decide_False by set_solver. by apply lookup_delete_ne.
Qed.

(** [cleanup] frees one node too many.  Its loop runs to [i <= size] and so
    frees the [tail] sentinel as well; it returns success, but [head] then
    points at freed memory and the next [add] writes through that pointer. *)
Theorem cleanup_frees_sentinel s pend issued :
  rep s pend issued → 0 < size (sched s) →
  ∃ s', cleanup s = Ret 0 s' ∧ mem s' !! tail (sched s') = None ∧
    ∀ core q mb rq w, alloc (brk s') = true → add alloc junk core q mb rq w s' = Stop UB.
Proof.
  intros Hrep Hpos. destruct (rep_head _ _ _ Hrep) as (nh & Hnh & Hx).
  destruct Hrep as [[_ Hd] Hnd _ Hsz Hmax _ Hb]. unfold chain in *.
  apply NoDup_cons in Hnd as [Hh Hnd]. set (l := addrs pend ++ addrs issued ++ [tail (sched s)]) in *.
  assert (tail (sched s) ∈ l) as Ht by set_solver.
  assert (wp cleanup none (λ r s', r = 0 ∧ sched s' = sched s <| size := 0 |> ∧ brk s' = brk s
    ∧ (∀ a, (brk s ≤ a)%nat → mem s' !! a = None) ∧ mem s' !! tail (sched s) = None
    ∧ ∃ n, mem s' !! head (sched s) = Some n ∧ next n = Some (tail (sched s))) s)
    as (r & s' & Hrun & -> & Hs & Hbr & Hfr & Htl & n & Hn & Hnx)%wp_none_ret.
  { unfold cleanup. rewrite wp_bind, wp_get. replace (_ =? 0) with false by lia.
    rewrite (wp_get_node _ nh), Hx, wp_bind by done.
    assert (S (Z.to_nat (size (sched s))) = length l) as ->.
    { subst l. rewrite !length_app, !length_map, Hsz. simpl. lia. }
    replace (first_or _ _) with (first_or l None)
      by (subst l; by destruct pend, issued).
    eapply wp_mono; [by eapply cleanup_loop_wp|done|]. intros u s1 (Hs1 & Hb1 & Hm1).
    assert (mem s1 !! head (sched s) = Some nh) by (rewrite Hm1, decide_False; done).
    assert (head (sched s) ≠ tail (sched s)) by (intros He; apply Hh; by rewrite He).
    rewrite wp_bind, (wp_upd_node _ _ nh) by done. unfold upd_sched.
    rewrite wp_bind, wp_modify, wp_ret. simpl. rewrite Hs1. split_and!; try done.
    - intros a Ha. assert (mem s1 !! a = None) by (rewrite Hm1; case_decide; auto).
      rewrite lookup_insert_ne; [done|congruence].
    - rewrite lookup_insert_ne, Hm1, decide_True by done. done.
    - eexists. by rewrite lookup_insert_eq. }
  exists s'. split; [done|]. rewrite Hs. simpl. split; [done|]. intros core q mb rq w Hal.
  assert (head (sched s) ≠ brk s') by (intros He; rewrite He, Hbr, Hfr in Hn by lia; done).
  assert (tail (sched s) ≠ brk s').
  { destruct (dll_lookup _ _ _ _ _ Hd Ht) as [nt Hnt]. intros He.
    rewrite He, Hbr, Hb in Hnt by lia. done. }
  assert (tail (sched s) ≠ head (sched s)) by congruence.
  cut (wp (add alloc junk core q mb rq w) (λ f, f = UB) (λ _ _, False) s').
  { unfold wp. by destruct (add _ _ _ _ _ _ _ _) as [|?]; [|intros ->]. }
  unfold add. rewrite wp_bind, wp_get, Hs. simpl sched.
  replace (size _ =? _) with false by done.
  rewrite wp_bind. apply new_node_wp; [congruence|intros _].
  rewrite wp_bind, wp_upd_node by (simpl; by rewrite lookup_insert_eq). simpl.
  rewrite (wp_get_node _ n) by (simpl; by rewrite !lookup_insert_ne by done).
  rewrite wp_bind, wp_upd_node by (simpl; by rewrite lookup_insert_eq). simpl.
  rewrite wp_bind, (wp_upd_node _ _ n) by (simpl; by rewrite !lookup_insert_ne by done). simpl.
  rewrite Hnx, wp_bind, wp_deref, wp_bind. unfold upd_node, get_node.
  rewrite wp_bind, wp_bind, wp_get, wp_deref. simpl. by rewrite !lookup_insert_ne, Htl by done.
Qed.
End cleanup.

(** ** Whole runs

    The main loop adds, schedules and collects while executors mark finished
    operations. *)
Inductive cmd :=
| CAdd (core quorum : Z) (mb rq : option Z) (w : Z)
| CSchedule
| CGc
| CMark (w : Z).

Section run.
Context {D : Type} (alloc : nat → bool) (junk : node_t).
Context (ring_enqueue : Z → triple → M D Z) (mbuf_free : option Z → M D ()).
Context (is_commute : option Z → option Z → bool).
Context (full : Z → D → bool) (tr : D → list (Z * triple)) (freed : D → list (option Z)).
Implicit Types (s : state D) (l issued pend : list (nat * op)).

Definition exec (c : cmd) : M (state D) Z :=
  match c with
  | CAdd core q mb rq w => add alloc junk core q mb rq (Some w)
  | CSchedule => schedule ring_enqueue is_commute
  | CGc => gc mbuf_free
  | CMark w => modify (λ s, s <| marked := alter (λ _, true) w (marked s) |>) ;; mret 0
  end.
Fixpoint exec_all (cs : list cmd) : M (state D) (list Z) :=
  match cs with
  | [] => mret []
  | c :: cs => r ← exec c; rs ← exec_all cs; mret (r :: rs)
  end.

(** The requests the scheduler took, in order. *)
Definition taken_of (c : cmd) (r : Z) : list triple :=
  match c with CAdd _ q mb rq _ => if r =? 0 then [(q, mb, rq)] else [] | _ => [] end.
Definition accepted (cs : list cmd) (rs : list Z) : list triple :=
  concat (zip_with taken_of cs rs).

(** Each issued operation commutes with every older one, or that one is
    finished. *)
Fixpoint compatible (mk : gmap Z bool) l : Prop :=
  match l with
  | [] => True
  | x :: l =>
    Forall (λ y, finished mk y.2 = true ∨ is_commute (op_rpc x.2) (op_rpc y.2) = true) l
    ∧ compatible mk l
  end.

Lemma waits_false mk o l :
  waits is_commute mk o (map snd l) = false →
  Forall (λ y, finished mk y.2 = true ∨ is_commute (op_rpc o) (op_rpc y.2) = true) l.
Proof.
  unfold waits. induction l as [|y l IH]; intros Hw; [constructor|]. simpl in Hw.
  apply orb_false_iff in Hw as [Hy Hl]. constructor; [|by apply IH].
  apply andb_false_iff in Hy as [Hy|Hy]; apply negb_false_iff in Hy; auto.
Qed.

Lemma plan_compatible mk pend issued :
  compatible mk issued →
  let '(taken, kept) := plan is_commute mk pend issued in
  pend = taken ++ kept ∧ compatible mk (reverse taken ++ issued).
Proof.
  revert issued. induction pend as [|x pend IH]; intros issued Hc; simpl; [done|].
  destruct (waits _ _ _ _) eqn:Hw; [done|].
  specialize (IH (x :: issued)). destruct (plan _ _ pend _) as [taken kept].
  destruct IH as [-> ?]; [split; [by apply waits_false|done]|].
  by rewrite reverse_cons, <- app_assoc.
Qed.

Lemma compatible_filter mk (P : nat * op → Prop) `{∀ x, Decision (P x)} l :
  compatible mk l → compatible mk (filter P l).
Proof.
  induction l as [|x l IH]; [done|]. intros [Hx Hl]. rewrite filter_cons. case_decide; [|auto].
  split; [|auto]. rewrite Forall_forall in Hx |- *. intros y [_ Hy]%list_elem_of_filter. auto.
Qed.

Lemma finished_alter mk w o :
  finished mk o = true → finished (alter (λ _, true) w mk) o = true.
Proof.
  unfold finished. destruct (decide (w = op_wal o)) as [->|].
  - rewrite lookup_alter_eq. by destruct (mk !! op_wal o).
  - by rewrite lookup_alter_ne.
Qed.

Lemma compatible_mark mk w l : compatible mk l → compatible (alter (λ _, true) w mk) l.
Proof.
  induction l as [|x l IH]; [done|]. intros [Hx Hl]. split; [|auto].
  eapply Forall_impl; [exact Hx|]. intros y [?|?]; [|auto]. left. by apply finished_alter.
Qed.

Lemma rep_mark s w pend issued :
  rep s pend issued → rep (s <| marked := alter (λ _, true) w (marked s) |>) pend issued.
Proof.
  intros []. split; simpl; try done. eapply Forall_impl; [done|].
  intros x (n & ? & ? & Hm). exists n. split_and!; [done..|]. by apply lookup_alter_is_Some.
Qed.

(** The state between commands: the queue, its safety and what was issued. *)
Definition good (h : list triple) s : Prop := ∃ pend issued,
  rep s pend issued ∧ compatible (marked s) issued
  ∧ h = map snd (tr (dev s)) ++ map (λ x, sent_triple x.2) (reverse pend).

Lemma imap_snd {A B C} (g : nat → B) (h : A → C) (l : list A) :
  map snd (imap (λ i x, (g i, h x)) l) = map h l.
Proof.
  revert g. induction l as [|x l IH]; intros g; [done|]. simpl. f_equal. apply (IH (λ i, g (S i))).
Qed.

Lemma deliveries_sent c taken :
  map snd (deliveries c taken) = map (λ x, sent_triple x.2) taken.
Proof. apply (imap_snd (λ i, (c + Z.of_nat i) mod executor_threads)). Qed.

Context (Hring : ring_works ring_enqueue full tr) (Hfree : buffers_freed mbuf_free freed tr).

Definition known (mk : gmap Z bool) (c : cmd) : Prop :=
  match c with CAdd _ _ _ _ w => is_Some (mk !! w) | _ => True end.

(** What ends the process: a failed allocation, or a ring without room. *)
Definition out_of_room (f : fault) : Prop :=
  f = Exit (-1) ∧ ((∃ n, alloc n = false) ∨ ∃ c d, full c d = true).

Lemma exec_good h c s :
  good h s → known (marked s) c →
  wp (exec c) out_of_room
    (λ r s', good (h ++ taken_of c r) s' ∧ ∀ w, is_Some (marked s !! w) → is_Some (marked s' !! w)) s.
Proof.
  intros (pend & issued & Hrep & Hc & ->) Hk. destruct c as [core q mb rq w| | |w]; simpl in *.
  - eapply wp_mono; [by apply (add_wp alloc junk core q mb rq w pend issued)| |].
    { intros f (-> & Ha & _). split; [done|]. left. by eexists. }
    intros r s' Hpost. case_match.
    + destruct Hpost as [-> ->]. simpl. rewrite app_nil_r. split; [|done]. by exists pend, issued.
    + destruct Hpost as (-> & Hrep' & Hm & Hd). simpl. rewrite Hm. split; [|done].
      eexists _, issued. split_and!; [done|by rewrite Hm|].
      by rewrite Hd, reverse_cons, map_app, <- app_assoc.
  - eapply wp_mono; [by apply (schedule_wp ring_enqueue is_commute full tr s pend issued)| |].
    { intros f (-> & n & d & _ & Hfull & _). split; [done|]. right. by do 2 eexists. }
    intros r s' Hpost. pose proof (plan_compatible (marked s) (reverse pend) issued Hc) as Hplan.
    destruct (plan _ _ _ _) as [taken kept]. destruct Hplan as [Hp Hc'].
    destruct Hpost as (_ & Hrep' & Hm & Ht). rewrite Hm. split; [|done].
    exists (reverse kept), (reverse taken ++ issued). split_and!; [done|by rewrite Hm|].
    rewrite Ht, Hp, reverse_involutive, !map_app, deliveries_sent, app_nil_r. by rewrite <- app_assoc.
  - eapply wp_mono; [by apply (gc_wp mbuf_free freed tr s pend issued)|done|].
    intros r s' (-> & Hm & Hkp & Hrep' & _). rewrite Hm. split; [|done]. eexists pend, _.
    split_and!; [done|rewrite Hm; by apply compatible_filter|]. by rewrite Hkp, app_nil_r.
  - rewrite wp_bind, wp_modify, wp_ret. simpl. split.
    + exists pend, issued. split_and!; [by apply rep_mark|by apply compatible_mark|].
      by rewrite app_nil_r.
    + intros w' Hw. by apply lookup_alter_is_Some.
Qed.

Lemma exec_all_good h cs s :
  good h s → Forall (known (marked s)) cs →
  wp (exec_all cs) out_of_room (λ rs s', good (h ++ accepted cs rs) s') s.
Proof.
  revert h s. induction cs as [|c cs IH]; intros h s Hg Hk; simpl.
  { rewrite wp_ret. by rewrite app_nil_r. }
  apply Forall_cons in Hk as [Hk Hks].
  rewrite wp_bind. eapply wp_mono; [by apply exec_good|done|].
  intros r s1 [Hg1 Hm]. rewrite wp_bind. eapply wp_mono; [apply IH; [done|]|done|].
  { eapply Forall_impl; [exact Hks|]. intros [] Hc; simpl in *; auto. }
  intros rs s' Hg'. rewrite wp_ret. unfold accepted in *. simpl. by rewrite app_assoc.
Qed.

(** C9: scheduling is safe and fair in order.  After any sequence of additions,
    scheduling rounds, collections and completions from an empty queue, every
    issued operation commutes with each older one that is not finished, and the
    executors were given a prefix of the accepted requests in the order they
    came, the rest being pending; the process stops only on a failed
    allocation or on a ring to an executor that is full. *)
Theorem scheduler_safe cs s :
  rep s [] [] → tr (dev s) = [] → Forall (known (marked s)) cs →
  match exec_all cs s with
  | Ret rs s' => ∃ pend issued, rep s' pend issued ∧ compatible (marked s') issued
      ∧ accepted cs rs = map snd (tr (dev s')) ++ map (λ x, sent_triple x.2) (reverse pend)
  | Stop f => out_of_room f
  end.
Proof.
  intros Hrep Ht Hk.
  assert (good [] s) as Hg. { exists [], []. by rewrite Ht. }
  exact (exec_all_good [] cs s Hg Hk).
Qed.
End run.

(** ** A concrete instance

    Rings that take a hundred requests in all, and a buffer pool, which record what they
    are given; requests commute when
    they touch different keys (here: are different numbers). *)
Module Recorder.
Record device := mk_device { rings : list (Z * triple); pool : list (option Z) }.
Definition ring_full (c : Z) (d : device) : bool := (100 <=? length (rings d))%nat.
Definition enqueue (c : Z) (t : triple) : M device Z := λ d,
  if ring_full c d then Ret (- ENOBUFS) d else Ret 0 (mk_device (rings d ++ [(c, t)]) (pool d)).
Definition free (b : option Z) : M device () := λ d,
  Ret tt (mk_device (rings d) (pool d ++ [b])).
Definition differ (a b : option Z) : bool := negb (bool_decide (a = b)).
Definition memory_ok (n : nat) : bool := true.
Definition garbage : node_t := mk_node 0 0 None None None None None.

Lemma enqueue_works : ring_works enqueue ring_full rings.
Proof. intros c t d. unfold wp, enqueue. by destruct (ring_full c d). Qed.
Lemma free_frees : buffers_freed free pool rings.
Proof. by intros b d. Qed.

(** Before [init], with the log entries 1 to 3 known and unmarked. *)
Definition blank : state device :=
  mk_state (mk_scheduler 0 0 0 0 0 0) ∅ 0 (list_to_map [(1, false); (2, false); (3, false)])
    (mk_device [] []).
Definition after {A} (c : M (state device) A) (s : state device) : state device :=
  match c s with Ret _ s' => s' | Stop _ => s end.
Definition started : state device := after (init memory_ok garbage) blank.
(** Three requests, the last on the key of the first; the first two issued. *)
Definition script : list cmd :=
  [CAdd 0 0 (Some 10) (Some 7) 1; CAdd 0 0 (Some 11) (Some 8) 2; CAdd 0 0 (Some 12) (Some 7) 3;
   CSchedule; CMark 1; CGc; CSchedule].
Abbreviation run := (exec_all memory_ok garbage enqueue free differ).

Lemma init_empty_witness : rep started [] [].
Proof.
  pose proof (init_empty memory_ok garbage blank) as Hi.
  assert (∀ a, (brk blank ≤ a)%nat → mem blank !! a = None) as Hb by (intros; apply lookup_empty).
  specialize (Hi Hb). unfold started, after.
  destruct (init memory_ok garbage blank) eqn:Hrun; [apply Hi|].
  destruct Hi as [_ [Ha|Ha]]; discriminate Ha.
Defined.

Lemma started_rep : rep started [] [].
Proof.
  assert (∀ a, (brk blank ≤ a)%nat → mem blank !! a = None) as Hb by (intros; apply lookup_empty).
  pose proof (init_wp memory_ok garbage blank Hb) as Hi. unfold started, after, wp in *.
  destruct (init memory_ok garbage blank) eqn:Hrun; [apply Hi|].
  destruct Hi as [_ [Ha|Ha]]; discriminate Ha.
Qed.

Lemma scheduler_safe_witness :
  match run script started with
  | Ret rs s' => ∃ pend issued, rep s' pend issued ∧ compatible differ (marked s') issued
      ∧ accepted script rs = map snd (rings (dev s')) ++ map (λ x, sent_triple x.2) (reverse pend)
  | Stop f => out_of_room memory_ok ring_full f
  end ∧ is_Some (match run script started with Ret rs _ => Some rs | Stop _ => None end).
Proof.
  split.
  - apply (scheduler_safe memory_ok garbage enqueue free differ ring_full rings pool
      enqueue_works free_frees script started started_rep); [done|].
    repeat (apply Forall_cons_2; [vm_compute; eauto|]). apply Forall_nil_2.
  - vm_compute. eauto.
Defined.

Lemma add_pushes_witness :
  match add memory_ok garbage 0 0 (Some 10) (Some 7) (Some 1) started with
  | Ret r s' => r = 0 ∧ rep s' [(2%nat, mk_op 0 0 (Some 10) (Some 7) 1)] []
      ∧ marked s' = marked started ∧ dev s' = dev started
  | Stop f => False
  end.
Proof.
  pose proof (add_pushes memory_ok garbage 0 0 (Some 10) (Some 7) 1 [] [] started started_rep
    (ex_intro _ false eq_refl)) as Ha.
  destruct (add _ _ _ _ _ _ _ _) as [r s'|f]; [exact Ha|]. destruct Ha as (_ & Hal & _).
  discriminate Hal.
Defined.

(** One request added. *)
Definition one : state device :=
  after (add memory_ok garbage 0 0 (Some 10) (Some 7) (Some 1)) started.
Lemma one_rep : rep one [(2%nat, mk_op 0 0 (Some 10) (Some 7) 1)] [].
Proof.
  pose proof (add_wp memory_ok garbage 0 0 (Some 10) (Some 7) 1 [] [] started started_rep
    (ex_intro _ false eq_refl)) as Ha.
  unfold one, after, wp in *. destruct (add _ _ _ _ _ _ _ _) as [r s'|f]; [by apply Ha|].
  destruct Ha as (_ & Hal & _). discriminate Hal.
Qed.

Lemma schedule_issues_witness :
  ∃ s', schedule enqueue differ one = Ret 0 s'
    ∧ rings (dev s') = [(0, (0, Some 10, Some 7))].
Proof.
  pose proof (schedule_issues enqueue differ ring_full rings one _ _ enqueue_works one_rep) as Hs.
  assert (is_Some (match schedule enqueue differ one with Ret r s => Some (r, s) | Stop _ => None end)) as [[r s'] Hr]
    by (vm_compute; eauto).
  destruct (schedule enqueue differ one) as [r1 s1|]; [|done]. destruct Hs as (Hr1 & _ & _ & Ht).
  exists s1. split; [by rewrite Hr1|]. rewrite Ht. vm_compute. reflexivity.
Defined.

(** The request issued and finished. *)
Definition done_one : state device :=
  (after (schedule enqueue differ) one) <| marked := {[1 := true]} |>.
Lemma done_one_rep : rep done_one [] [(2%nat, mk_op 0 0 (Some 10) (Some 7) 1)].
Proof.
  pose proof (schedule_wp enqueue differ ring_full rings one _ _ enqueue_works one_rep) as Hs.
  unfold done_one, after, wp in *. destruct (schedule _ _ one) as [r s'|f] eqn:Hrun; [|by vm_compute in Hrun].
  destruct Hs as (_ & [Hd Hnd Hnx Hsz Hmax Hops Hb] & _). split; simpl; try done.
  apply Forall_cons_2; [|apply Forall_nil_2].
  apply Forall_cons in Hops as [(n & Hn & Hc & _) _].
  exists n. split_and!; [exact Hn|exact Hc|]. eexists. apply lookup_singleton_eq.
Qed.

Lemma gc_collects_witness :
  ∃ s', gc free done_one = Ret 0 s' ∧ rep s' [] [] ∧ pool (dev s') = [Some 10].
Proof.
  destruct (gc_collects free pool rings done_one _ _ free_frees done_one_rep)
    as (s' & Hrun & Hrep & _ & Hf).
  exists s'. split; [exact Hrun|]. split; [exact Hrep|]. rewrite Hf. vm_compute. reflexivity.
Defined.

Lemma cleanup_frees_sentinel_witness :
  ∃ s', cleanup one = Ret 0 s' ∧ mem s' !! tail (sched s') = None ∧
    add memory_ok garbage 0 0 None None None s' = Stop UB.
Proof.
  destruct (cleanup_frees_sentinel memory_ok garbage one _ _ one_rep ltac:(by vm_compute))
    as (s' & Hrun & Ht & Ha).
  exists s'. split; [exact Hrun|]. split; [exact Ht|]. by apply Ha.
Defined.
End Recorder.
