(* ===== verification/CircularLog.v ===== *)
(** The persistent circular log and the persistent Raft state
    (core/circular_log.h, core/pmem_layout.h, core/clwb_sim.hpp).

    [raft_pstate_t] lies at the start of a page: term, vote, head and tail fill
    the first 16 bytes, the array of packet pointers follows, so that entry [i]
    is in cache line [(i + 2) / 8].  [cur] is what the processor sees, [nvm] what
    is certain to be in persistent memory: a flush copies one line. *)

From S2P Require Import Prelude.

Record pstate := mk_pstate {
  p_term : Z;
  p_voted_for : Z;
  p_head : Z;
  p_tail : Z;
  p_data : list Z
}.
#[export] Instance pstate_fields : FieldsOf pstate :=
  λ r, mk_pstate (p_term r) (p_voted_for r) (p_head r) (p_tail r) (p_data r).

Record pmem := mk_pmem { cur : pstate; nvm : pstate }.
#[export] Instance pmem_fields : FieldsOf pmem := λ r, mk_pmem (cur r) (nvm r).

Abbreviation PM := (M pmem).
Definition upd_cur (f : pstate → pstate) : PM () := modify (λ s, s <| cur := f (cur s) |>).

(** ** Flushing *)
Definition line_of (i : Z) : Z := (i + 2) / 8.

(** The data array with line [l] taken from [src]. *)
Definition flush_data (l : Z) (src dst : list Z) : list Z :=
  imap (λ i x, if line_of (Z.of_nat i) =? l then default x (src !! i) else x) dst.

(** [clflush] or [clwb] of line [l]. *)
Definition flush_line (l : Z) : PM () :=
  modify (λ s, s <| nvm :=
    let n := if l =? 0
             then nvm s <| p_term := p_term (cur s) |> <| p_voted_for := p_voted_for (cur s) |>
                        <| p_head := p_head (cur s) |> <| p_tail := p_tail (cur s) |>
             else nvm s in
    n <| p_data := flush_data l (p_data (cur s)) (p_data (nvm s)) |> |>).

(** [clflush(log_data(log)[i])] and [clflush( *log )]. *)
Definition clflush_entry (i : Z) : PM () := flush_line (line_of i).
Definition clflush_log : PM () := flush_line 0.

(** [flush_clwb(addr, len)] on offsets from the start of the state: the lines
    from the one that holds [addr] up to [addr + len]. *)
Fixpoint flush_lines (fuel : nat) (uptr stop : Z) : PM () :=
  if uptr <? stop then
    match fuel with
    | O => fail Hang
    | S fuel => flush_line (uptr / 64) ;; flush_lines fuel (uptr + 64) stop
    end
  else mret tt.
Definition flush_clwb (addr len : Z) : PM () :=
  let uptr := Z.land addr (Z.lnot 63) in
  flush_lines (Z.to_nat (addr + len - uptr)) uptr (addr + len).

(** ** The Raft callbacks on the two scalars *)
Definition sizeof_pstate : Z := 16.
Definition persist_vote (voted_for : Z) : PM Z :=
  upd_cur (λ root, root <| p_voted_for := voted_for |>) ;;
  flush_clwb 0 sizeof_pstate ;;
  mret 0.
Definition persist_term (current_term : Z) : PM Z :=
  upd_cur (λ root, root <| p_term := current_term |>) ;;
  flush_clwb 0 sizeof_pstate ;;
  mret 0.

(** ** The ring *)
Definition log_offer (ptr tail LOG_ENTRIES : Z) : PM Z :=
  s ← get;
  d ← aset (p_data (cur s)) tail ptr;
  upd_cur (λ log, log <| p_data := d |>) ;;
  t ← iadd tail 1;
  let t := if t =? LOG_ENTRIES then 0 else t in
  mret (if t =? p_head (cur s) then -1 else t).

Definition log_poll (LOG_ENTRIES : Z) : PM () :=
  s ← get;
  h ← iadd (p_head (cur s)) 1;
  upd_cur (λ log, log <| p_head := if h =? LOG_ENTRIES then 0 else h |>) ;;
  clflush_log.

Definition log_poll_batch (cnt LOG_ENTRIES : Z) : PM () :=
  s ← get;
  h ← iadd (p_head (cur s)) cnt;
  upd_cur (λ log, log <| p_head := if LOG_ENTRIES <=? h then h - LOG_ENTRIES else h |>) ;;
  clflush_log.

Definition log_pop (LOG_ENTRIES : Z) : PM () :=
  s ← get;
  upd_cur (λ log, log <| p_tail :=
    if p_tail (cur s) =? 0 then LOG_ENTRIES - 1 else p_tail (cur s) - 1 |>) ;;
  clflush_log.

(** One round of the loop of [log_persist]: the new [old_tail] and [blocks]. *)
Definition persist_step (old_tail blocks LOG_ENTRIES : Z) : PM (Z * Z) :=
  let old_tail := old_tail + 1 in
  let blocks := blocks + 1 in
  when (blocks =? 8) (clflush_entry old_tail) ;;
  let blocks := if blocks =? 8 then 0 else blocks in
  when (old_tail =? LOG_ENTRIES) (clflush_entry 0) ;;
  mret (if old_tail =? LOG_ENTRIES then (0, 0) else (old_tail, blocks)).

(** The loop; the fuel is the length of the ring. *)
Fixpoint persist_loop (fuel : nat) (old_tail new_tail blocks LOG_ENTRIES : Z) : PM () :=
  if old_tail =? new_tail then mret tt else
  match fuel with
  | O => fail Hang
  | S fuel =>
    '(old_tail, blocks) ← persist_step old_tail blocks LOG_ENTRIES;
    persist_loop fuel old_tail new_tail blocks LOG_ENTRIES
  end.
Definition log_persist (new_tail LOG_ENTRIES : Z) : PM () :=
  s ← get;
  let old_tail := p_tail (cur s) in
  clflush_entry old_tail ;;
  persist_loop (Z.to_nat LOG_ENTRIES) old_tail new_tail 0 LOG_ENTRIES ;;
  upd_cur (λ log, log <| p_tail := new_tail |>) ;;
  clflush_log.

(** [cyclone_setup]: a fresh log. *)
Definition empty_pstate (LOG_ENTRIES : Z) : pstate := {|
  p_term := 0; p_voted_for := -1; p_head := 0; p_tail := 0;
  p_data := replicate (Z.to_nat LOG_ENTRIES) 0 |}.

(** ** The ring as a queue

    From [head] up to [tail] the ring [c] of [N] slots holds [es]. *)
Record ring (N : Z) (c : pstate) (tail : Z) (es : list Z) : Prop := {
  ring_size : 0 < N ≤ INT_MAX;
  ring_data : Z.of_nat (length (p_data c)) = N;
  ring_head : 0 ≤ p_head c < N;
  ring_tail : 0 ≤ tail < N;
  ring_length : Z.of_nat (length es) = (tail - p_head c) mod N;
  ring_at : ∀ k, 0 ≤ k < Z.of_nat (length es) →
    zlookup (p_data c) ((p_head c + k) mod N) = zlookup es k
}.

(** Stepping an index around the ring. *)
Lemma step_mod N i : 0 ≤ i < N → (if i + 1 =? N then 0 else i + 1) = (i + 1) mod N.
Proof.
  intros Hi. destruct (Z.eqb_spec (i + 1) N) as [->|].
  - by rewrite Z_mod_same_full.
  - rewrite Z.mod_small; lia.
Qed.

Lemma ring_fill N c t es : ring N c t es → Z.of_nat (length es) < N.
Proof.
  intros [Hs _ _ _ Hl _]. rewrite Hl. apply Z.mod_pos_bound. lia.
Qed.

Lemma ring_tail_pos N c t es :
  ring N c t es → t = (p_head c + Z.of_nat (length es)) mod N.
Proof.
  intros [Hs _ Hh Ht Hl _]. rewrite Hl, Zplus_mod_idemp_r.
  replace (p_head c + (t - p_head c)) with t by lia. by rewrite Z.mod_small.
Qed.

(** Two positions less than a turn apart are different. *)
Lemma ring_slots_differ N h k k' :
  0 < N → 0 ≤ k < k' → k' < N → (h + k) mod N ≠ (h + k') mod N.
Proof.
  intros HN Hk Hk' He.
  assert ((k' - k) mod N = 0) as Hz.
  { replace (k' - k) with (h + k' - (h + k)) by lia. rewrite Zminus_mod, He.
    by rewrite Z.sub_diag, Zmod_0_l. }
  rewrite Z.mod_small in Hz by lia. lia.
Qed.

Lemma ring_offer_wp N c t es ptr s :
  cur s = c → ring N c t es →
  wp (log_offer ptr t N) none
    (λ r s', nvm s' = nvm s ∧ p_tail (cur s') = p_tail c ∧ p_head (cur s') = p_head c
       ∧ p_term (cur s') = p_term c ∧ p_voted_for (cur s') = p_voted_for c
       ∧ (Z.of_nat (length es) + 1 = N → r = -1)
       ∧ (Z.of_nat (length es) + 1 < N → ring N (cur s') r (es ++ [ptr]) ∧ r ≠ -1)) s.
Proof.
  intros Hc HR. pose proof (ring_fill _ _ _ _ HR) as Hfill.
  pose proof (ring_tail_pos _ _ _ _ HR) as Htp. pose proof HR as [Hs Hd Hh Ht Hl Hat].
  unfold log_offer. rewrite wp_bind, wp_get, Hc, wp_bind, wp_aset by lia.
  unfold upd_cur. rewrite wp_bind, wp_modify, wp_bind, wp_iadd by int_range.
  rewrite wp_ret, Hc, step_mod by done. simpl.
  assert ((t + 1) mod N = (p_head c + (Z.of_nat (length es) + 1)) mod N) as Hnext.
  { rewrite Htp at 1. rewrite Zplus_mod_idemp_l. f_equal. lia. }
  split_and!; [done..| |].
  - intros Hfull. rewrite Hnext, Hfull, <- Zplus_mod_idemp_r, Z_mod_same_full, Z.add_0_r.
    rewrite Z.mod_small by lia. by rewrite Z.eqb_refl.
  - intros Hroom. pose proof (ring_slots_differ N (p_head c) 0 (Z.of_nat (length es) + 1)
      ltac:(lia) ltac:(lia) ltac:(lia)) as Hne.
    rewrite Z.add_0_r, (Z.mod_small (p_head c)), <- Hnext in Hne by lia.
    replace (_ =? _) with false by lia.
    pose proof (Z.mod_pos_bound (t + 1) N ltac:(lia)). split; [|lia].
    assert (length (zinsert (p_data c) t ptr) = length (p_data c)) as Hlen by apply length_insert.
    split; simpl; [done|by rewrite Hlen|done|done| |].
    + rewrite length_app, Hnext. simpl.
      replace (p_head c + (Z.of_nat (length es) + 1) - p_head c) with (Z.of_nat (length es) + 1)
        by lia. rewrite Zminus_mod_idemp_l.
      replace (p_head c + (Z.of_nat (length es) + 1) - p_head c) with (Z.of_nat (length es) + 1)
        by lia. rewrite Z.mod_small; lia.
    + intros k Hk. rewrite length_app in Hk. simpl in Hk. rewrite zlookup_app.
      rewrite zlookup_zinsert by lia. destruct (Z.ltb_spec k (Z.of_nat (length es))).
      * rewrite <- Hat by lia. destruct (Z.eqb_spec ((p_head c + k) mod N) t) as [He|]; [|done].
        exfalso. rewrite Htp in He.
        by apply (ring_slots_differ N (p_head c) k (Z.of_nat (length es))) in He; lia.
      * assert (k = Z.of_nat (length es)) as -> by lia.
        by rewrite <- Htp, Z.eqb_refl, Z.sub_diag.
Qed.

(** ** Persisting *)
Lemma flush_data_lookup l src dst j :
  length src = length dst →
  zlookup (flush_data l src dst) j = if line_of j =? l then zlookup src j else zlookup dst j.
Proof.
  intros Hlen. destruct (decide (0 ≤ j)); [|by rewrite !zlookup_neg by lia; case_match].
  rewrite !zlookup_nonneg by lia. unfold flush_data. rewrite list_lookup_imap.
  rewrite Z2Nat.id by lia. destruct (dst !! Z.to_nat j) as [x|] eqn:Hx; simpl.
  - case_match; [|done]. destruct (src !! Z.to_nat j) eqn:Hy; [done|].
    apply lookup_ge_None in Hy. apply lookup_lt_Some in Hx. lia.
  - case_match; [|done]. symmetry. apply lookup_ge_None. apply lookup_ge_None in Hx. lia.
Qed.

Lemma length_flush_data l src dst : length (flush_data l src dst) = length dst.
Proof. apply length_imap. Qed.

(** A flush never touches what the processor sees. *)
Lemma flush_line_wp l E Q s :
  (∀ s', cur s' = cur s → length (p_data (nvm s')) = length (p_data (nvm s)) →
    (length (p_data (cur s)) = length (p_data (nvm s)) → ∀ j, zlookup (p_data (nvm s')) j =
      if line_of j =? l then zlookup (p_data (cur s)) j else zlookup (p_data (nvm s)) j) →
    (l = 0 → p_term (nvm s') = p_term (cur s) ∧ p_voted_for (nvm s') = p_voted_for (cur s)
      ∧ p_head (nvm s') = p_head (cur s) ∧ p_tail (nvm s') = p_tail (cur s)) →
    Q tt s') → wp (flush_line l) E Q s.
Proof.
  intros HQ. unfold flush_line. rewrite wp_modify. apply HQ; simpl; [done|..].
  - apply length_flush_data.
  - intros Hlen j. apply flush_data_lookup. done.
  - by intros ->.
Qed.

(** The distance still to go. *)
Lemma ring_distance N old new :
  0 ≤ old < N → 0 ≤ new < N → old ≠ new →
  (new - old) mod N ≠ 0 ∧ (new - (old + 1) mod N) mod N = (new - old) mod N - 1.
Proof.
  intros Ho Hn Hne.
  assert ((new - old) mod N ≠ 0) as Hz.
  { intros Hz. destruct (decide (old < new)).
    - rewrite Z.mod_small in Hz; lia.
    - rewrite <- (Z_mod_plus_full _ 1), Z.mod_small in Hz; lia. }
  split; [done|]. rewrite Zminus_mod_idemp_r.
  replace (new - (old + 1)) with (new - old - 1) by lia.
  pose proof (Z.mod_pos_bound (new - old) N). rewrite <- Zminus_mod_idemp_l, Z.mod_small; lia.
Qed.

Lemma persist_step_wp N old b s :
  0 ≤ old < N →
  wp (persist_step old b N) none
    (λ r s', r.1 = (old + 1) mod N ∧ cur s' = cur s
       ∧ length (p_data (nvm s')) = length (p_data (nvm s))) s.
Proof.
  intros Ho. pose proof (step_mod N old Ho) as Hst. unfold persist_step.
  assert (∀ s0, cur s0 = cur s → length (p_data (nvm s0)) = length (p_data (nvm s)) →
    wp (when (old + 1 =? N) (clflush_entry 0) ;;
        mret (if old + 1 =? N then (0, 0) else (old + 1, if b + 1 =? 8 then 0 else b + 1))) none
      (λ r s', r.1 = (old + 1) mod N ∧ cur s' = cur s
         ∧ length (p_data (nvm s')) = length (p_data (nvm s))) s0) as Hrest.
  { intros s0 Hc Hl. rewrite wp_bind, wp_when. revert Hst. destruct (old + 1 =? N); intros Hst.
    - apply flush_line_wp. intros s1 Hc1 Hl1 _ _. rewrite wp_ret. split_and!; simpl; congruence.
    - by rewrite wp_ret. }
  rewrite wp_bind, wp_when. destruct (b + 1 =? 8); [|by apply Hrest].
  apply flush_line_wp. intros s1 Hc1 Hl1 _ _. by apply Hrest.
Qed.

Lemma persist_loop_wp N fuel old new b s :
  0 ≤ old < N → 0 ≤ new < N → (new - old) mod N ≤ Z.of_nat fuel →
  wp (persist_loop fuel old new b N) none
    (λ _ s', cur s' = cur s ∧ length (p_data (nvm s')) = length (p_data (nvm s))) s.
Proof.
  revert old b s. induction fuel as [|fuel IH]; intros old b s Ho Hn Hf;
    cbn [persist_loop]; (destruct (Z.eqb_spec old new) as [->|Hne]; [by rewrite wp_ret|]);
    destruct (ring_distance N old new Ho Hn Hne) as [Hz Hd].
  { pose proof (Z.mod_pos_bound (new - old) N). lia. }
  rewrite wp_bind. eapply wp_mono; [by apply persist_step_wp|done|].
  intros [o b'] s1 (He & Hc & Hl). simpl in He. subst o.
  rewrite <- Hc, <- Hl. apply IH; [apply Z.mod_pos_bound; lia|done|lia].
Qed.

Lemma ring_persist_wp N new es' s :
  0 ≤ p_tail (cur s) < N → ring N (cur s) new es' →
  wp (log_persist new N) none
    (λ _ s', cur s' = cur s <| p_tail := new |> ∧ p_tail (nvm s') = new
       ∧ p_head (nvm s') = p_head (cur s)
       ∧ length (p_data (nvm s')) = length (p_data (nvm s))) s.
Proof.
  intros Ht HR'. pose proof (ring_tail _ _ _ _ HR') as Hn.
  unfold log_persist. rewrite wp_bind, wp_get, wp_bind. apply flush_line_wp. intros s1 Hc1 Hl1 _ _.
  rewrite wp_bind. eapply wp_mono; [apply persist_loop_wp; [done..|]|done|].
  { pose proof (Z.mod_pos_bound (new - p_tail (cur s)) N). lia. }
  intros u s2 [Hc2 Hl2]. unfold upd_cur. rewrite wp_bind, wp_modify.
  apply flush_line_wp. simpl. intros s3 Hc3 Hl3 _ Hh. destruct (Hh eq_refl) as (_ & _ & Hh' & Ht').
  rewrite Hc2, Hc1 in *. split_and!; congruence.
Qed.

(** Lines advance by one every eight entries. *)
Lemma line_of_step i m : line_of (i + 8 * m) = line_of i + m.
Proof.
  unfold line_of. replace (i + 8 * m + 2) with (i + 2 + m * 8) by lia.
  by rewrite Z_div_plus_full by lia.
Qed.

Lemma line_of_mono i j : i ≤ j → line_of i ≤ line_of j.
Proof. unfold line_of. intros. apply Z.div_le_mono; lia. Qed.

(** Without wrap-around, the loop entered [b] entries after the flush point
    [st] flushes the lines up to [(new - st) / 8] behind that of [st]. *)
Lemma persist_loop_flushes N fuel old new b s :
  0 ≤ old ≤ new → new < N → new - old ≤ Z.of_nat fuel → 0 ≤ b < 8 →
  length (p_data (cur s)) = length (p_data (nvm s)) →
  let l0 := line_of (old - b) in
  wp (persist_loop fuel old new b N) none
    (λ _ s', cur s' = cur s ∧ length (p_data (nvm s')) = length (p_data (nvm s))
       ∧ ∀ j, zlookup (p_data (nvm s')) j =
           if (l0 <? line_of j) && (line_of j <=? l0 + (new - old + b) / 8)
           then zlookup (p_data (cur s)) j else zlookup (p_data (nvm s)) j) s.
Proof.
  revert old b s. induction fuel as [|fuel IH]; intros old b s Ho Hn Hf Hb Hlen l0;
    cbn [persist_loop]; destruct (Z.eqb_spec old new) as [->|Hne].
  1, 3: rewrite wp_ret; split_and!; [done..|]; intros j; rewrite Z.sub_diag, Z.add_0_l, Z.div_small by done;
    by replace (_ && _) with false by lia.
  { lia. }
  unfold persist_step. rewrite wp_bind, wp_bind, wp_when.
  replace (old + 1 =? N) with false by lia.
  destruct (Z.eqb_spec (b + 1) 8) as [Hb8|Hb8].
  - apply flush_line_wp. intros s1 Hc1 Hl1 Hd1 _. rewrite wp_bind, wp_when, wp_ret.
    specialize (Hd1 Hlen).
    eapply wp_mono; [apply (IH (old + 1) 0); rewrite ?Hc1, ?Hl1; lia || done|done|].
    rewrite Hc1, Hl1. intros u s' (-> & -> & Hd'). split_and!; [done..|]. intros j.
    rewrite Hd', Hd1. replace (old + 1 - 0) with (old - b + 8 * 1) by lia.
    replace (old + 1) with (old - b + 8 * 1) by lia. rewrite line_of_step. fold l0.
    replace ((new - old + b) / 8) with (1 + (new - (old - b + 8 * 1) + 0) / 8)
      by (rewrite <- Z_div_plus_full_l by lia; f_equal; lia).
    pose proof (Z.div_pos (new - (old - b + 8 * 1) + 0) 8 ltac:(lia) ltac:(lia)).
    repeat case_match; try done; lia.
  - rewrite wp_bind, wp_when, wp_ret.
    eapply wp_mono; [apply (IH (old + 1) (b + 1)); lia || done|done|].
    replace (old + 1 - (b + 1)) with (old - b) by lia. fold l0.
    by replace (new - (old + 1) + (b + 1)) with (new - old + b) by lia.
Qed.

(** C32: what [log_persist] makes durable.  For a batch that does not wrap
    around, entry [j] of it reaches persistent memory exactly when its cache line
    is at most that of the last flush point, [old + 8 * ((new - old) / 8)];
    entries in a later, partly filled line keep their old persistent value,
    although the new tail is durable. *)
Theorem persist_coverage N new s :
  0 ≤ p_tail (cur s) ≤ new → new < N →
  length (p_data (cur s)) = length (p_data (nvm s)) →
  let old := p_tail (cur s) in
  let last := old + 8 * ((new - old) / 8) in
  ∃ s', log_persist new N s = Ret tt s' ∧ p_tail (nvm s') = new ∧ p_data (cur s') = p_data (cur s)
    ∧ ∀ j, old ≤ j < new → zlookup (p_data (nvm s')) j =
        if line_of j <=? line_of last then zlookup (p_data (cur s)) j
        else zlookup (p_data (nvm s)) j.
Proof.
  intros Ho Hn Hlen old last.
  match goal with |- ∃ s', _ ∧ @?Q s' => cut (wp (log_persist new N) none (λ _ s', Q s') s) end.
  { intros ([] & s' & ? & ?)%wp_none_ret. eauto. }
  unfold log_persist. rewrite wp_bind, wp_get, wp_bind. fold old.
  apply flush_line_wp. intros s1 Hc1 Hl1 Hd1 _. specialize (Hd1 Hlen). rewrite wp_bind.
  eapply wp_mono; [apply (persist_loop_flushes N _ old new 0); subst old; rewrite ?Hc1, ?Hl1; lia || done
    |done|].
  rewrite Hc1, Hl1. intros u s2 (Hc2 & Hl2 & Hd2). unfold upd_cur. rewrite wp_bind, wp_modify.
  apply flush_line_wp. simpl. rewrite Hc2. intros s3 Hc3 _ Hd3 Hh.
  destruct (Hh eq_refl) as (_ & _ & _ & Ht). split_and!; [done|by rewrite Hc3|].
  intros j Hj. simpl in Hd3. rewrite Hd3, Hd2, Hd1 by congruence.
  rewrite Z.sub_0_r, Z.add_0_r. unfold last. rewrite line_of_step.
  pose proof (line_of_mono old j ltac:(lia)). pose proof (Z.div_pos (new - old) 8 ltac:(lia) ltac:(lia)).
  assert (0 ≤ line_of old) by (unfold line_of; apply Z.div_pos; lia).
  repeat case_match; try done; lia.
Qed.

(** Eight entries in a fresh log of 64 slots, then two more: the first batch
    fills line 0 and starts line 1, the second is lost. *)
Definition demo_log : pmem := mk_pmem (empty_pstate 64) (empty_pstate 64).
Definition offered : pmem := demo_log
  <| cur := empty_pstate 64 <| p_tail := 5 |> <| p_data := replicate 10 7 ++ replicate 54 0 |> |>.

Lemma persist_coverage_witness :
  ∃ s', log_persist 8 64 offered = Ret tt s' ∧ p_tail (nvm s') = 8
    ∧ zlookup (p_data (nvm s')) 5 = Some 7 ∧ zlookup (p_data (nvm s')) 6 = Some 0
    ∧ zlookup (p_data (cur s')) 6 = Some 7.
Proof.
  destruct (persist_coverage 64 8 offered ltac:(by vm_compute) ltac:(lia) ltac:(by vm_compute))
    as (s' & Hrun & Ht & Hd & Hj).
  exists s'. split_and!; [exact Hrun|exact Ht| | |by rewrite Hd].
  - by rewrite Hj by (vm_compute; intuition congruence).
  - by rewrite Hj by (vm_compute; intuition congruence).
Defined.

(** ** Removing entries *)

(** Dropping [n] entries moves the head [n] slots on. *)
Lemma ring_drop N c t es n h' :
  ring N c t es → 0 ≤ n ≤ Z.of_nat (length es) → h' = (p_head c + n) mod N →
  ring N (c <| p_head := h' |>) t (drop (Z.to_nat n) es).
Proof.
  intros HR Hn ->. pose proof (ring_fill _ _ _ _ HR) as Hfill. pose proof HR as [Hs Hd Hh Ht Hl Hat].
  split; simpl; [done|done|apply Z.mod_pos_bound; lia|done| |].
  - rewrite length_drop, Zminus_mod_idemp_r.
    replace (t - (p_head c + n)) with (t - p_head c - n) by lia.
    rewrite <- Zminus_mod_idemp_l, <- Hl, Z.mod_small; lia.
  - intros k Hk. rewrite length_drop in Hk. rewrite Zplus_mod_idemp_l.
    replace (p_head c + n + k) with (p_head c + (n + k)) by lia. rewrite Hat by lia.
    rewrite zlookup_drop by lia. by replace (0 <=? k) with true by lia.
Qed.

Lemma ring_pop N c t es x t' :
  ring N c t (es ++ [x]) → t' = (t - 1) mod N → ring N c t' es.
Proof.
  intros HR ->. pose proof (ring_fill _ _ _ _ HR) as Hfill. pose proof HR as [Hs Hd Hh Ht Hl Hat].
  rewrite length_app in *. simpl in *.
  split; [done|done|done|apply Z.mod_pos_bound; lia| |].
  - rewrite Zminus_mod_idemp_l. replace (t - 1 - p_head c) with (t - p_head c - 1) by lia.
    rewrite <- Zminus_mod_idemp_l, <- Hl, Z.mod_small; lia.
  - intros k Hk. rewrite Hat by (rewrite ?length_app; simpl; lia).
    rewrite zlookup_app. by replace (k <? _) with true by lia.
Qed.

Lemma ring_poll_batch_wp N cnt t es s :
  ring N (cur s) t es → 0 ≤ cnt ≤ Z.of_nat (length es) → 2 * N ≤ INT_MAX →
  wp (log_poll_batch cnt N) none
    (λ _ s', cur s' = cur s <| p_head := (p_head (cur s) + cnt) mod N |>
       ∧ ring N (cur s') t (drop (Z.to_nat cnt) es) ∧ p_head (nvm s') = p_head (cur s')
       ∧ p_tail (nvm s') = p_tail (cur s') ∧ length (p_data (nvm s')) = length (p_data (nvm s))) s.
Proof.
  intros HR Hcnt HN. pose proof (ring_fill _ _ _ _ HR) as Hfill. pose proof HR as [Hs Hd Hh Ht Hl Hat].
  unfold log_poll_batch. rewrite wp_bind, wp_get, wp_bind, wp_iadd by int_range.
  assert ((if N <=? p_head (cur s) + cnt then p_head (cur s) + cnt - N else p_head (cur s) + cnt)
    = (p_head (cur s) + cnt) mod N) as ->.
  { destruct (Z.leb_spec N (p_head (cur s) + cnt)); [|rewrite Z.mod_small; lia].
    rewrite <- (Z_mod_plus_full _ (-1)), Z.mod_small; lia. }
  unfold upd_cur, clflush_log. rewrite wp_bind, wp_modify. apply flush_line_wp. simpl.
  intros s' Hc Hl' _ Hh'. destruct (Hh' eq_refl) as (_ & _ & Hh2 & Ht2).
  split_and!; [done| |by rewrite Hc..|done]. rewrite Hc. by apply ring_drop.
Qed.

Lemma log_poll_is_batch N s :
  0 ≤ p_head (cur s) < N → log_poll N s = log_poll_batch 1 N s.
Proof.
  intros Hh. unfold log_poll, log_poll_batch, mbind, M_bind, get, iadd, int_of.
  destruct (in_int (p_head (cur s) + 1)); [|done]. simpl.
  destruct (Z.eqb_spec (p_head (cur s) + 1) N), (Z.leb_spec N (p_head (cur s) + 1)); try lia; [|done].
  do 3 f_equal; f_equal; lia.
Qed.

Lemma ring_pop_wp N es x s :
  ring N (cur s) (p_tail (cur s)) (es ++ [x]) →
  wp (log_pop N) none
    (λ _ s', cur s' = cur s <| p_tail := (p_tail (cur s) - 1) mod N |>
       ∧ ring N (cur s') (p_tail (cur s')) es ∧ p_tail (nvm s') = p_tail (cur s')
       ∧ p_head (nvm s') = p_head (cur s') ∧ length (p_data (nvm s')) = length (p_data (nvm s))) s.
Proof.
  intros HR. pose proof HR as [Hs Hd Hh Ht Hl Hat]. unfold log_pop. rewrite wp_bind, wp_get.
  assert ((if p_tail (cur s) =? 0 then N - 1 else p_tail (cur s) - 1)
    = (p_tail (cur s) - 1) mod N) as ->.
  { destruct (Z.eqb_spec (p_tail (cur s)) 0) as [->|]; [|rewrite Z.mod_small; lia].
    rewrite <- (Z_mod_plus_full _ 1), Z.mod_small; lia. }
  unfold upd_cur, clflush_log. rewrite wp_bind, wp_modify. apply flush_line_wp. simpl.
  intros s' Hc Hl' _ Hh'. destruct (Hh' eq_refl) as (_ & _ & Hh2 & Ht2).
  split_and!; [done| |by rewrite Hc..|done]. rewrite Hc. simpl.
  destruct (ring_pop N (cur s) _ es x _ HR eq_refl). by split.
Qed.

(** C31: the persistent log is a queue.  Offering at the tail and persisting
    appends, and fails exactly when one free slot is left; polling [cnt] entries
    drops the oldest [cnt]; popping drops the youngest.  Head and tail are
    durable when the calls return. *)
Theorem circular_log_queue N es s :
  ring N (cur s) (p_tail (cur s)) es → 2 * N ≤ INT_MAX →
  (∀ ptr, ∃ r s', log_offer ptr (p_tail (cur s)) N s = Ret r s'
     ∧ (Z.of_nat (length es) + 1 = N → r = -1)
     ∧ (Z.of_nat (length es) + 1 < N → ∃ s'', log_persist r N s' = Ret tt s''
          ∧ ring N (cur s'') (p_tail (cur s'')) (es ++ [ptr])
          ∧ p_tail (nvm s'') = p_tail (cur s'')))
  ∧ (∀ cnt, 0 ≤ cnt ≤ Z.of_nat (length es) → ∃ s', log_poll_batch cnt N s = Ret tt s'
       ∧ ring N (cur s') (p_tail (cur s')) (drop (Z.to_nat cnt) es)
       ∧ p_head (nvm s') = p_head (cur s'))
  ∧ (∀ es' x, es = es' ++ [x] → ∃ s', log_pop N s = Ret tt s'
       ∧ ring N (cur s') (p_tail (cur s')) es' ∧ p_tail (nvm s') = p_tail (cur s')).
Proof.
  intros HR HN. split_and!.
  - intros ptr. destruct (proj1 (wp_none_ret _ _ _) (ring_offer_wp N (cur s) _ es ptr s eq_refl HR))
      as (r & s' & Hrun & Hn & Ht & Hh & _ & _ & Hfull & Hroom).
    exists r, s'. split_and!; [done..|]. intros Hlt. destruct (Hroom Hlt) as [HR' _].
    destruct (proj1 (wp_none_ret _ _ _) (ring_persist_wp N r (es ++ [ptr]) s'
      ltac:(rewrite Ht; apply (ring_tail _ _ _ _ HR)) HR'))
      as ([] & s'' & Hrun' & Hc & Htl & _). exists s''. split; [done|].
    rewrite Hc. simpl. split; [|done]. destruct HR'. by split.
  - intros cnt Hcnt. destruct (proj1 (wp_none_ret _ _ _) (ring_poll_batch_wp N cnt _ es s HR Hcnt HN))
      as ([] & s' & Hrun & Hc & HR' & Hh & _). exists s'. split_and!; [done| |done].
    rewrite Hc in *. exact HR'.
  - intros es' x ->. destruct (proj1 (wp_none_ret _ _ _) (ring_pop_wp N es' x s HR))
      as ([] & s' & Hrun & _ & HR' & Ht & _). eauto.
Qed.

(** Votes and terms are durable when the callbacks return. *)
Theorem scalars_durable v s :
  (∃ s', persist_vote v s = Ret 0 s' ∧ p_voted_for (nvm s') = v ∧ p_term (cur s') = p_term (cur s))
  ∧ (∃ s', persist_term v s = Ret 0 s' ∧ p_term (nvm s') = v
       ∧ p_voted_for (cur s') = p_voted_for (cur s)).
Proof. split; eexists; split_and!; reflexivity. Qed.

Lemma demo_ring : ring 64 (empty_pstate 64) 0 [].
Proof. split; simpl; try (vm_compute; intuition congruence); lia || done. Qed.

Lemma circular_log_queue_witness :
  ∃ r s' s'', log_offer 7 0 64 demo_log = Ret r s' ∧ log_persist r 64 s' = Ret tt s''
    ∧ ring 64 (cur s'') (p_tail (cur s'')) [7].
Proof.
  destruct (circular_log_queue 64 [] demo_log demo_ring ltac:(by vm_compute)) as (Hoffer & _ & _).
  destruct (Hoffer 7) as (r & s' & Hrun & _ & Hroom).
  destruct (Hroom ltac:(by vm_compute)) as (s'' & Hrun' & HR & _). eauto 10.
Defined.
