(* ===== verification/Comm.v ===== *)
(** The network layer (core/cyclone_comm_dpdk.hpp, core/cyclone_comm.hpp): how
    queues are spread over ports, the headers of a packet, sending and receiving.

    The Ethernet device is DPDK's; its calls ([rte_eth_tx_buffer],
    [rte_eth_tx_buffer_flush], [rte_eth_rx_burst], the clock) are parameters. *)

From S2P Require Import Prelude.

(** ** Queues and ports *)
Definition queue2port {S} (queue num_ports : Z) : M S Z := irem queue num_ports.
Definition idiv {S} (a b : Z) : M S Z := if b =? 0 then fail UB else int_of (Z.quot a b).
Definition num_queues_at_port {S} (port num_queues num_ports : Z) : M S Z :=
  base ← idiv num_queues num_ports;
  r ← irem num_queues num_ports;
  if port <? r then iadd base 1 else mret base.
Definition queue_index_at_port {S} (queue num_ports : Z) : M S Z := idiv queue num_ports.

Definition replica_mc {S} (replicas : list Z) (index : Z) : M S Z := aget replicas index.

(** ** Packets *)
Definition u16 (z : Z) : Z := z mod 2 ^ 16.
(** [rte_cpu_to_be_16] on a little-endian machine. *)
Definition rte_cpu_to_be_16 (x : Z) : Z := x / 2 ^ 8 + (x mod 2 ^ 8) * 2 ^ 8.
Definition ETHER_TYPE_IPv4 : Z := 2048.
Definition magic_src_ip : Z := 3735928559.
Definition IP_VHL_DEF : Z := 69.
Definition IP_DEFTTL : Z := 64.
Definition PKT_TX_IP_CKSUM : Z := 2 ^ 54.
Definition sizeof_ether_hdr : Z := 14.
Definition sizeof_ipv4_hdr : Z := 20.
Definition PKT_BURST : Z := 32.

Record ether_hdr := mk_ether { d_addr : Z; s_addr : Z; ether_type : Z }.
#[export] Instance ether_fields : FieldsOf ether_hdr :=
  λ r, mk_ether (d_addr r) (s_addr r) (ether_type r).

Record ipv4_hdr := mk_ip {
  version_ihl : Z;
  type_of_service : Z;
  total_length : Z;
  packet_id : Z;
  fragment_offset : Z;
  time_to_live : Z;
  next_proto_id : Z;
  hdr_checksum : Z;
  src_addr : Z;
  dst_addr : Z
}.

(** A single-segment buffer: both headers, the bytes behind them and the
    metadata; [room] is the space behind the headers, [data_off] the space in front
    of the data. *)
Record rte_mbuf := mk_mbuf {
  eth : ether_hdr;
  ip : ipv4_hdr;
  payload : list Z;
  room : Z;
  pkt_len : Z;
  data_len : Z;
  l2_len : Z;
  l3_len : Z;
  ol_flags : Z;
  data_off : Z
}.
#[export] Instance mbuf_fields : FieldsOf rte_mbuf :=
  λ r, mk_mbuf (eth r) (ip r) (payload r) (room r) (pkt_len r) (data_len r) (l2_len r) (l3_len r)
         (ol_flags r) (data_off r).

(** MAC addresses by machine and port, this machine and the number of ports. *)
Record dpdk_context_t := mk_context { mc_addresses : list (list Z); me : Z; ports : Z }.

Section comm.
Context {S : Type}.
Abbreviation C := (M S).

Definition initialize_ipv4_header (m : rte_mbuf) (src_addr dst_addr pkt_data_len : Z) : rte_mbuf :=
  let pkt_len := u16 (u16 pkt_data_len + sizeof_ipv4_hdr) in
  m <| ip := {| version_ihl := IP_VHL_DEF; type_of_service := 0;
                total_length := rte_cpu_to_be_16 pkt_len; packet_id := 0; fragment_offset := 0;
                time_to_live := IP_DEFTTL; next_proto_id := 0; hdr_checksum := 0;
                src_addr := src_addr; dst_addr := dst_addr |} |>
    <| l2_len := sizeof_ether_hdr |> <| l3_len := pkt_len |>
    <| ol_flags := Z.lor (ol_flags m) PKT_TX_IP_CKSUM |>.

Definition mac (ctx : dpdk_context_t) (mc port : Z) : C Z :=
  row ← aget (mc_addresses ctx) mc; aget row port.

(** [rte_memcpy(ip + 1, data, size)] and the lengths. *)
Definition fill (m : rte_mbuf) (data : list Z) (size : Z) : C rte_mbuf :=
  if (0 <=? size) && (size <=? Z.of_nat (length data)) && (size <=? room m) then
    let total := sizeof_ether_hdr + sizeof_ipv4_hdr + size in
    mret (m <| payload := take (Z.to_nat size) data |> <| pkt_len := u32 total |>
            <| data_len := u16 total |>)
  else fail UB.

Definition set_eth (m : rte_mbuf) (d s : Z) : rte_mbuf :=
  m <| eth := {| d_addr := d; s_addr := s; ether_type := rte_cpu_to_be_16 ETHER_TYPE_IPv4 |} |>.

Definition cyclone_prep_mbuf (ctx : dpdk_context_t) (dst dst_q : Z) (m : rte_mbuf)
    (data : list Z) (size : Z) : C rte_mbuf :=
  port ← queue2port dst_q (ports ctx);
  dst_qindex ← queue_index_at_port dst_q (ports ctx);
  d ← mac ctx dst port;
  s ← mac ctx (me ctx) port;
  fill (initialize_ipv4_header (set_eth m d s) magic_src_ip dst_qindex size) data size.

Definition cyclone_prep_mbuf_server2client (ctx : dpdk_context_t) (port dst dst_q : Z)
    (m : rte_mbuf) (data : list Z) (size : Z) : C rte_mbuf :=
  d ← mac ctx dst 0;
  s ← mac ctx (me ctx) port;
  fill (initialize_ipv4_header (set_eth m d s) magic_src_ip dst_q size) data size.

Definition cyclone_prep_mbuf_client2server (ctx : dpdk_context_t) (port dst dst_q : Z)
    (m : rte_mbuf) (data : list Z) (size : Z) : C rte_mbuf :=
  d ← mac ctx dst port;
  s ← mac ctx (me ctx) 0;
  fill (initialize_ipv4_header (set_eth m d s) magic_src_ip dst_q size) data size.

Definition cyclone_prep_eth (ctx : dpdk_context_t) (port dst : Z) (m : rte_mbuf) : C rte_mbuf :=
  d ← mac ctx dst port;
  s ← mac ctx (me ctx) port;
  mret (set_eth m d s).

(** ** Sending

    [X] is what the device takes: a packet or a chain of buffers. *)
Context {X : Type} (tx_buffer : Z → Z → Z → X → C Z) (tx_buffer_flush : Z → Z → Z → C Z).

Definition cyclone_tx (ctx : dpdk_context_t) (m : X) (q : Z) : C Z :=
  port ← queue2port q (ports ctx);
  qindex ← queue_index_at_port q (ports ctx);
  sent ← tx_buffer port qindex q m;
  flushed ← tx_buffer_flush port qindex q;
  total ← iadd sent flushed;
  mret (if total =? 0 then -1 else 0).

Definition cyclone_buffer_pkt (ctx : dpdk_context_t) (port : Z) (m : X) (q : Z) : C Z :=
  qindex ← queue_index_at_port q (ports ctx);
  tx_buffer port qindex q m.
Definition cyclone_flush_buffer (ctx : dpdk_context_t) (port q : Z) : C Z :=
  qindex ← queue_index_at_port q (ports ctx);
  tx_buffer_flush port qindex q.

(** ** Receiving *)
Record dpdk_rx_buffer_t := mk_rx { burst : list rte_mbuf; buffered : Z; consumed : Z }.
#[export] Instance rx_buffer_fields : FieldsOf dpdk_rx_buffer_t :=
  λ r, mk_rx (burst r) (buffered r) (consumed r).

(** [rte_eth_rx_burst]: at most the number of packets asked for. *)
Context (rx_burst : Z → Z → Z → C (list rte_mbuf)) (pktmbuf_free : rte_mbuf → C ())
  (current_time : C Z).

Definition cyclone_rx_burst (port q burst_size : Z) : C (list rte_mbuf) :=
  rx_burst port q burst_size.

(** One packet out of the buffer: the result is [-1] or the size of the message
    copied to the caller's buffer of [size] bytes.  The copy is not checked
    against [size]. *)
Definition accept_packet (m : rte_mbuf) (size : Z) : C (Z * list Z) :=
  if negb (ether_type (eth m) =? rte_cpu_to_be_16 ETHER_TYPE_IPv4) then
    pktmbuf_free m ;; mret (-1, [])
  else if negb (src_addr (ip m) =? magic_src_ip) then pktmbuf_free m ;; mret (-1, [])
  else if data_len m <=? sizeof_ether_hdr + sizeof_ipv4_hdr then pktmbuf_free m ;; mret (-1, [])
  else
    let msg_size := data_len m - (sizeof_ether_hdr + sizeof_ipv4_hdr) in
    if (msg_size <=? size) && (msg_size <=? Z.of_nat (length (payload m)))
    then pktmbuf_free m ;; mret (msg_size, take (Z.to_nat msg_size) (payload m)) else fail UB.

(** An empty buffer is filled again. *)
Definition rx_refill (port q : Z) (buf : dpdk_rx_buffer_t) : C dpdk_rx_buffer_t :=
  if buffered buf =? consumed buf then
    pkts ← cyclone_rx_burst port q PKT_BURST;
    mret (mk_rx pkts (Z.of_nat (length pkts)) 0)
  else mret buf.
Definition cyclone_rx_buffered (port q : Z) (buf : dpdk_rx_buffer_t) (size : Z)
  : C (Z * list Z * dpdk_rx_buffer_t) :=
  buf ← rx_refill port q buf;
  if consumed buf <? buffered buf then
    m ← aget (burst buf) (consumed buf);
    '(rc, data) ← accept_packet m size;
    mret (rc, data, mk_rx (burst buf) (buffered buf) (consumed buf + 1))
  else mret (-1, [], buf).

(** [cyclone_rx_timeout]; [None] when the fuel runs out before the clock has
    passed the deadline. *)
Fixpoint rx_wait (fuel : nat) (port q : Z) (buf : dpdk_rx_buffer_t) (size mark timeout_usecs : Z)
  : C (option (Z * list Z * dpdk_rx_buffer_t)) :=
  match fuel with
  | O => mret None
  | Datatypes.S fuel =>
    '(rc, data, buf) ← cyclone_rx_buffered port q buf size;
    if 0 <=? rc then mret (Some (rc, data, buf)) else
    now ← current_time;
    if timeout_usecs <=? u64 (now - mark) then mret (Some (rc, data, buf))
    else rx_wait fuel port q buf size mark timeout_usecs
  end.
Definition cyclone_rx_timeout (fuel : nat) (port q : Z) (buf : dpdk_rx_buffer_t)
    (size timeout_usecs : Z) : C (option (Z * list Z * dpdk_rx_buffer_t)) :=
  mark ← current_time;
  rx_wait fuel port q buf size mark timeout_usecs.
End comm.

(** ** Rules *)
Lemma wp_queue2port {S} q n E (Q : Z → S → Prop) s :
  0 ≤ q → 0 < n → wp (queue2port q n) E Q s ↔ Q (q mod n) s.
Proof. apply wp_irem. Qed.
Lemma wp_queue_index {S} q n E (Q : Z → S → Prop) s :
  0 ≤ q ≤ INT_MAX → 0 < n → wp (queue_index_at_port q n) E Q s ↔ Q (q / n) s.
Proof.
  intros Hq Hn. unfold queue_index_at_port, idiv. replace (n =? 0) with false by lia.
  rewrite Z.quot_div_nonneg, wp_int_of by lia. pose proof (Z.div_pos q n ltac:(lia) ltac:(lia)).
  pose proof (Z.div_le_upper_bound q n q ltac:(lia)).
  by replace (in_int _) with true by (unfold in_int, INT_MIN, INT_MAX in *; nia).
Qed.
Lemma wp_mac {S} ctx mc port row a E (Q : Z → S → Prop) s :
  zlookup (mc_addresses ctx) mc = Some row → zlookup row port = Some a →
  wp (mac ctx mc port) E Q s ↔ Q a s.
Proof. intros Hr Ha. unfold mac, aget. by rewrite wp_bind, !wp_deref, Hr, wp_deref, Ha. Qed.

(** ** Properties *)

(** Queues are spread over the ports without collision.  Queue [q] of [n] is
    the [queue_index_at_port]-th queue of port [queue2port], a valid position
    there, and every position of every port belongs to exactly one queue. *)
Theorem queue_mapping_bijective {S} (s : S) n p :
  0 < p ≤ INT_MAX → 0 ≤ n ≤ INT_MAX →
  (∀ q, 0 ≤ q < n → ∃ port idx cnt, queue2port q p s = Ret port s
     ∧ queue_index_at_port q p s = Ret idx s ∧ num_queues_at_port port n p s = Ret cnt s
     ∧ 0 ≤ port < p ∧ 0 ≤ idx < cnt ∧ q = idx * p + port)
  ∧ (∀ port idx cnt, 0 ≤ port < p → num_queues_at_port port n p s = Ret cnt s → 0 ≤ idx < cnt →
     ∃ q, 0 ≤ q < n ∧ queue2port q p s = Ret port s ∧ queue_index_at_port q p s = Ret idx s).
Proof.
  intros Hp Hn.
  assert (∀ q, 0 ≤ q ≤ n → irem q p s = Ret (q mod p) s ∧ idiv q p s = Ret (q / p) s
    ∧ 0 ≤ q mod p < p ∧ 0 ≤ q / p ∧ q = q / p * p + q mod p) as Hq.
  { intros q Hq. unfold irem, idiv, int_of. replace (p =? 0) with false by lia.
    rewrite Z.rem_mod_nonneg, Z.quot_div_nonneg by lia.
    pose proof (Z.div_pos q p ltac:(lia) ltac:(lia)). pose proof (Z.div_le_upper_bound q p q ltac:(lia)).
    pose proof (Z.mod_pos_bound q p ltac:(lia)). pose proof (Z_div_mod_eq_full q p).
    replace (in_int (q / p)) with true by (unfold in_int, INT_MIN, INT_MAX in *; nia).
    split_and!; try done; lia. }
  destruct (Hq n ltac:(lia)) as (Hrn & Hdn & Hmn & Hnn & Hen).
  assert (∀ port, num_queues_at_port port n p s =
    if port <? n mod p then iadd (n / p) 1 s else Ret (n / p) s) as Hcnt.
  { intros port. unfold num_queues_at_port, mbind, M_bind. rewrite Hdn, Hrn. by case_match. }
  assert (n mod p ≠ 0 → in_int (n / p + 1) = true) as Hin.
  { intros. unfold in_int, INT_MIN, INT_MAX in *. nia. }
  split.
  - intros q Hlt. destruct (Hq q ltac:(lia)) as (Hr & Hd & Hm & Hdp & He).
    eexists _, _, (if q mod p <? n mod p then n / p + 1 else n / p).
    split_and!; [exact Hr|exact Hd| |lia|lia|lia| |done].
    + rewrite Hcnt. case_match; [|done]. unfold iadd, int_of. by rewrite Hin by lia.
    + case_match; nia.
  - intros port idx cnt Hport Hc Hidx. rewrite Hcnt in Hc.
    assert (cnt = if port <? n mod p then n / p + 1 else n / p) as ->.
    { revert Hc. case_match; [|by intros [= <-]]. unfold iadd, int_of. rewrite Hin by lia. by intros [= <-]. }
    exists (idx * p + port). assert (0 ≤ idx * p + port < n) as Hb by (case_match; nia).
    destruct (Hq (idx * p + port) ltac:(lia)) as (Hr & Hd & _). unfold queue2port, queue_index_at_port.
    rewrite Hr, Hd, Z.add_comm, Z_mod_plus_full, Z.div_add, Z.mod_small, Z.div_small by lia.
    split_and!; done || lia.
Qed.

Lemma queue_mapping_bijective_witness :
  ∃ port idx cnt, queue2port 5 2 tt = Ret port tt ∧ queue_index_at_port 5 2 tt = Ret idx tt
    ∧ num_queues_at_port port 7 2 tt = Ret cnt tt ∧ 0 ≤ port < 2 ∧ 0 ≤ idx < cnt
    ∧ 5 = idx * 2 + port.
Proof.
  apply (queue_mapping_bijective tt 7 2); [by vm_compute|by vm_compute|lia].
Defined.

(** C33: a message survives the network layer.  A packet prepared for a known
    machine from a message of at least one byte that fits the buffer and 16-bit
    lengths is accepted by the receiver and yields exactly that message; the
    destination queue is encoded in the IP address. *)
Theorem prepared_packet_received {S} (s s' : S) rx_burst pktmbuf_free port q buf ctx dst dst_q m data size cap d row src :
  0 < ports ctx ≤ INT_MAX → 0 ≤ dst_q ≤ INT_MAX →
  zlookup (mc_addresses ctx) dst = Some row → zlookup row (dst_q mod ports ctx) = Some d →
  (∃ row', zlookup (mc_addresses ctx) (me ctx) = Some row'
     ∧ zlookup row' (dst_q mod ports ctx) = Some src) →
  0 < size ≤ Z.of_nat (length data) → size ≤ room m → size ≤ cap → size + 34 < 2 ^ 16 →
  consumed buf < buffered buf → (∀ m', pktmbuf_free m' s = Ret tt s') →
  ∃ m', cyclone_prep_mbuf ctx dst dst_q m data size s = Ret m' s
    ∧ d_addr (eth m') = d ∧ s_addr (eth m') = src ∧ dst_addr (ip m') = dst_q / ports ctx
    ∧ (zlookup (burst buf) (consumed buf) = Some m' →
       cyclone_rx_buffered rx_burst pktmbuf_free port q buf cap s
       = Ret (size, take (Z.to_nat size) data, buf <| consumed := consumed buf + 1 |>) s').
Proof.
  intros Hp Hq Hrow Hd (row' & Hrow' & Hs) Hsz Hroom Hcap H16 Hbuf Hfree.
  assert (queue2port dst_q (ports ctx) s = Ret (dst_q mod ports ctx) s) as Hport.
  { unfold queue2port, irem. replace (_ =? 0) with false by lia.
    by rewrite Z.rem_mod_nonneg by lia. }
  assert (queue_index_at_port dst_q (ports ctx) s = Ret (dst_q / ports ctx) s) as Hidx.
  { unfold queue_index_at_port, idiv, int_of. replace (_ =? 0) with false by lia.
    rewrite Z.quot_div_nonneg by lia. pose proof (Z.div_pos dst_q (ports ctx) ltac:(lia) ltac:(lia)).
    pose proof (Z.div_le_upper_bound dst_q (ports ctx) dst_q ltac:(lia)).
    by replace (in_int _) with true by (unfold in_int, INT_MIN, INT_MAX in *; nia). }
  unfold cyclone_prep_mbuf, mbind, M_bind. rewrite Hport, Hidx.
  unfold mac, aget, mbind, M_bind. rewrite Hrow. simpl. rewrite Hd. simpl.
  rewrite Hrow'. simpl. rewrite Hs. simpl. unfold fill. simpl.
  replace (_ && _ && _) with true by lia. eexists. split; [reflexivity|]. simpl.
  split_and!; [done..|]. unfold cyclone_rx_buffered, rx_refill, mbind, M_bind.
  replace (buffered buf =? consumed buf) with false by lia. simpl.
  replace (consumed buf <? buffered buf) with true by lia. intros Hat. unfold aget. rewrite Hat. simpl.
  unfold accept_packet, mbind, M_bind, u16, sizeof_ether_hdr, sizeof_ipv4_hdr. simpl.
  rewrite (Z.mod_small (34 + size)) by lia.
  replace (34 + size - (14 + 20)) with size by lia.
  replace (34 + size <=? 14 + 20) with false by lia. rewrite length_take.
  replace (_ && _) with true by lia. by rewrite Hfree, take_take, Nat.min_id.
Qed.

Definition empty_mbuf : rte_mbuf :=
  mk_mbuf (mk_ether 0 0 0) (mk_ip 0 0 0 0 0 0 0 0 0 0) [] 2048 0 0 0 0 0 128.
Definition two_machines : dpdk_context_t := mk_context [[10; 11]; [20; 21]] 0 2.
Definition no_packets (_ _ _ : Z) : M () (list rte_mbuf) := mret [].
Definition drop_mbuf (_ : rte_mbuf) : M () () := mret tt.

Lemma prepared_packet_received_witness :
  ∃ m', cyclone_prep_mbuf two_machines 1 3 empty_mbuf [1; 2; 3] 3 tt = Ret m' tt
    ∧ dst_addr (ip m') = 1 ∧ d_addr (eth m') = 21
    ∧ cyclone_rx_buffered no_packets drop_mbuf 0 1 (mk_rx [m'] 1 0) 100 tt
      = Ret (3, [1; 2; 3], mk_rx [m'] 1 1) tt.
Proof.
  set (m' := default empty_mbuf
    match cyclone_prep_mbuf two_machines 1 3 empty_mbuf [1; 2; 3] 3 tt with
    | Ret m _ => Some m | Stop _ => None end).
  destruct (prepared_packet_received tt tt no_packets drop_mbuf 0 1 (mk_rx [m'] 1 0)
    two_machines 1 3 empty_mbuf [1; 2; 3] 3 100 21 [20; 21] 11)
    as (m & Hm & Hd & _ & Hip & Hrx); try (by vm_compute); [by exists [10; 11]|].
  assert (m = m') as -> by (unfold m'; by rewrite Hm). exists m'.
  split_and!; [done|done|done|by apply Hrx].
Defined.

(** Receiving does not check the message against the caller's buffer: a
    well-formed packet longer than the buffer makes the copy overrun it. *)
Theorem receive_overruns_buffer {S} (s : S) pktmbuf_free m size :
  ether_type (eth m) = rte_cpu_to_be_16 ETHER_TYPE_IPv4 → src_addr (ip m) = magic_src_ip →
  0 ≤ size → sizeof_ether_hdr + sizeof_ipv4_hdr + size < data_len m →
  accept_packet pktmbuf_free m size s = Stop UB.
Proof.
  intros He Hi Hs Hl. unfold accept_packet. rewrite He, Hi, !Z.eqb_refl. simpl.
  unfold sizeof_ether_hdr, sizeof_ipv4_hdr in *. replace (_ <=? 34) with false by lia.
  by replace (_ && _) with false by lia.
Qed.

Lemma receive_overruns_buffer_witness :
  accept_packet drop_mbuf (mk_mbuf (mk_ether 0 0 8) (mk_ip 0 0 0 0 0 0 0 0 magic_src_ip 0)
    (replicate 66 0) 2048 100 100 0 0 0 128) 50 tt = Stop UB.
Proof.
  refine (receive_overruns_buffer tt drop_mbuf (mk_mbuf (mk_ether 0 0 8)
    (mk_ip 0 0 0 0 0 0 0 0 magic_src_ip 0) (replicate 66 0) 2048 100 100 0 0 0 128) 50 _ _ _ _);
    by vm_compute.
Defined.

(** ** Waiting for a message

    A clock [now] in whole microseconds that no call sets back.  A reading may give
    the same time as the one before, but only so often: [spare] counts how many
    more readings fit into the microsecond, at most [k].  No call takes longer than
    [step].  The packets the device delivers fit the caller's buffer. *)
Section waiting.
Context {S : Type} (rx_burst : Z → Z → Z → M S (list rte_mbuf)) (pktmbuf_free : rte_mbuf → M S ())
  (current_time : M S Z) (now : S → Z) (spare : S → nat) (k : nat) (step size : Z).
Definition fits_buffer (m : rte_mbuf) : Prop :=
  data_len m - 34 ≤ size ∧ data_len m - 34 ≤ Z.of_nat (length (payload m)).
Definition passes (n : Z) (s s' : S) : Prop :=
  now s ≤ now s' ≤ now s + n * step ∧ (now s' = now s → (spare s' ≤ spare s)%nat).
Record steady_clock : Prop := {
  clock_spare : ∀ s, (spare s ≤ k)%nat;
  clock_read : ∀ s, ∃ s', current_time s = Ret (now s') s' ∧ passes 1 s s'
    ∧ (now s < now s' ∨ (spare s' < spare s)%nat);
  clock_burst : ∀ port q n s, ∃ l s', rx_burst port q n s = Ret l s'
    ∧ passes 1 s s' ∧ Forall fits_buffer l;
  clock_free : ∀ m s, ∃ s', pktmbuf_free m s = Ret tt s' ∧ passes 1 s s'
}.
Context (Hclock : steady_clock).

Lemma step_nonneg (s : S) : 0 ≤ step.
Proof. destruct (clock_read Hclock s) as (? & _ & [? _] & _). lia. Qed.
Lemma passes_refl s : passes 0 s s.
Proof. split; [lia|done]. Qed.
Lemma passes_trans m n s1 s2 s3 : passes m s1 s2 → passes n s2 s3 → passes (m + n) s1 s3.
Proof.
  intros [H1 H1'] [H2 H2']. split; [lia|]. intros. trans (spare s2); [apply H2'|apply H1']; lia.
Qed.
Lemma passes_le m n s s' : m ≤ n → passes m s s' → passes n s s'.
Proof. intros Hmn [H1 H1']. pose proof (step_nonneg s). split; [nia|done]. Qed.

Lemma accept_packet_total m s :
  fits_buffer m →
  ∃ r s', accept_packet pktmbuf_free m size s = Ret r s' ∧ passes 1 s s'.
Proof.
  intros Hfit. destruct (clock_free Hclock m s) as (s' & Hrun & Hn).
  unfold accept_packet, mbind, M_bind, sizeof_ether_hdr, sizeof_ipv4_hdr. simpl.
  destruct Hfit as [Hcap Hlen]. do 2 (destruct (negb _); [simpl; rewrite Hrun; eauto|]).
  destruct (_ <=? _); [simpl; rewrite Hrun; eauto|].
  replace (_ && _) with true by lia. simpl. rewrite Hrun. eauto.
Qed.

(** Packets that are buffered but not consumed are in the burst. *)
Definition rx_ok (buf : dpdk_rx_buffer_t) : Prop :=
  0 ≤ consumed buf ∧ buffered buf = Z.of_nat (length (burst buf)) ∧ Forall fits_buffer (burst buf).

Lemma rx_refill_total port q buf s :
  rx_ok buf →
  ∃ buf' s', rx_refill rx_burst port q buf s = Ret buf' s' ∧ rx_ok buf' ∧ passes 1 s s'.
Proof.
  intros Hok. destruct (clock_burst Hclock port q PKT_BURST s) as (l & s1 & Hrun & Hn & Hl).
  unfold rx_refill. destruct (_ =? _).
  - unfold cyclone_rx_burst, mbind, M_bind. rewrite Hrun. do 2 eexists. split; [reflexivity|].
    split; [|done]. split_and!; simpl; done || lia.
  - do 2 eexists. split; [reflexivity|]. split; [done|]. by apply (passes_le 0), passes_refl.
Qed.

Lemma rx_buffered_total port q buf s :
  rx_ok buf →
  ∃ rc d buf' s', cyclone_rx_buffered rx_burst pktmbuf_free port q buf size s = Ret (rc, d, buf') s'
    ∧ rx_ok buf' ∧ passes 2 s s'.
Proof.
  intros Hok. unfold cyclone_rx_buffered, mbind, M_bind.
  destruct (rx_refill_total port q buf s Hok) as (b & s1 & -> & Hb & Hn1).
  destruct (Z.ltb_spec (consumed b) (buffered b)).
  2:{ do 4 eexists. split; [done|]. split; [done|]. by apply (passes_le 1). }
  destruct Hb as (Hc & Hlen & Hall). unfold aget.
  destruct (zlookup (burst b) (consumed b)) as [m|] eqn:Hm.
  2:{ apply zlookup_None in Hm. lia. }
  simpl. destruct (accept_packet_total m s1) as ([rc d] & s2 & -> & Hn2).
  { eapply Forall_forall; [exact Hall|]. by eapply zlookup_Some_elem. }
  do 4 eexists. split; [reflexivity|]. split; [|by apply (passes_trans 1 1 s s1)].
  split_and!; simpl; done || lia.
Qed.

(** The readings left before [timeout] microseconds have passed since [mark]. *)
Definition readings (mark timeout : Z) (s : S) : Z :=
  (timeout - (now s - mark)) * (Z.of_nat k + 1) + Z.of_nat (spare s).
Lemma readings_read mark timeout n s1 s2 s3 :
  passes n s1 s2 → passes 1 s2 s3 → now s2 < now s3 ∨ (spare s3 < spare s2)%nat →
  readings mark timeout s3 < readings mark timeout s1.
Proof.
  intros [H1 H1'] [H2 H2'] Hread. pose proof (clock_spare Hclock s3). unfold readings.
  destruct (Z.eq_dec (now s3) (now s1)); [|nia].
  assert (now s2 = now s1) as He by lia. specialize (H1' He). replace (now s3) with (now s1). lia.
Qed.

Lemma rx_wait_total fuel port q buf mark timeout s :
  rx_ok buf → mark ≤ now s → timeout + 3 * step < 2 ^ 64 →
  now s - mark < timeout → readings mark timeout s ≤ Z.of_nat fuel →
  ∃ r s', rx_wait rx_burst pktmbuf_free current_time fuel port q buf size mark timeout s
    = Ret (Some r) s'.
Proof.
  revert buf s. induction fuel as [|fuel IH]; intros buf s Hok Hm Ht Hlt Hf; [unfold readings in Hf; nia|].
  simpl. unfold mbind at 1, M_bind at 1.
  destruct (rx_buffered_total port q buf s Hok) as (rc & d & b & s1 & -> & Hb & Hn1).
  case_match; [by do 2 eexists|]. unfold mbind, M_bind.
  destruct (clock_read Hclock s1) as (s2 & -> & Hn2 & Hread).
  pose proof (readings_read mark timeout _ _ _ _ Hn1 Hn2 Hread).
  destruct (passes_trans _ _ _ _ _ Hn1 Hn2) as [Hn _]. unfold u64.
  destruct (Z.leb_spec timeout ((now s2 - mark) mod 2 ^ 64)) as [|Hge]; [by do 2 eexists|].
  rewrite Z.mod_small in Hge by lia. apply IH; done || lia.
Qed.
End waiting.


(** A clock of which every other reading gives the time of the one before. *)
Definition tick_spare (t : Z * bool) : nat := if t.2 then 1 else 0.
Definition tick : M (Z * bool) Z := λ t,
  if t.2 then Ret t.1 (t.1, false) else Ret (t.1 + 1) (t.1 + 1, true).
