(* ===== verification/Cyclone.v ===== *)
(** The callbacks Cyclone gives to Raft (core/cyclone.cpp), on the persistent
    log, the packets of the entries and the network, and what follows for the
    whole server.

    The build modelled is the default one: no [__COMMUTE], [__EXTRA_COPY] or
    tracing, one executor and one quorum.  An entry's packet is a chain of
    buffers; a segment is given as the list of requests that the walk over
    [sizeof(rpc_t) + payload_sz] visits.  The device [D] holds what DPDK keeps:
    buffer pools, reference counts, rings and queues; its calls are parameters. *)

From S2P Require Import Prelude RaftNode RaftLog RaftServer RaftFrame RaftSafety CircularLog Comm.

Definition executor_threads : Z := 1.
Definition num_quorums : Z := 1.
Definition q_raft : Z := 0.
Definition q_dispatcher : Z := 1.
Definition MAX_CLIENTS : Z := 1024 * 1024.
Definition REP_FAILED : Z := -1.
Definition REP_UNKNOWN : Z := 0.
Definition REP_SUCCESS : Z := 1.
Definition RPC_REQ_NODEADDFINAL : Z := 3.
Definition MSG_REQUESTVOTE : Z := 1.
Definition MSG_APPENDENTRIES : Z := 3.
Definition ENOBUFS : Z := 105.

Definition core_to_quorum (core_id : Z) : Z := core_id mod num_quorums.

(** A request and what may follow its header in the packet: the node of a
    configuration change; or the terms of the quorums, the nonce of the rendezvous
    ([mc_id], [rtc_ts]) and the data of the application. *)
Record rpc_t := mk_rpc {
  code : Z;
  flags : Z;
  payload_sz : Z;
  core_mask : Z;
  client_id : Z;
  requestor : Z;
  client_port : Z;
  quorum_term : Z;
  channel_seq : Z;
  cfg_node : Z;
  rpc_terms : list Z;
  rdv : Z * Z;
  user_data : list Z
}.
#[export] Instance rpc_fields : FieldsOf rpc_t :=
  λ r, mk_rpc (code r) (flags r) (payload_sz r) (core_mask r) (client_id r) (requestor r)
         (client_port r) (quorum_term r) (channel_seq r) (cfg_node r) (rpc_terms r) (rdv r)
         (user_data r).
Record wal_entry_t := mk_wal { rep : Z; wal_term : Z; idx : Z; leader : bool }.
#[export] Instance wal_fields : FieldsOf wal_entry_t :=
  λ r, mk_wal (rep r) (wal_term r) (idx r) (leader r).

(** The message header in front of an entry's packet, with the copy of the entry
    behind it. *)
Record ae_hdr := mk_ae_hdr {
  msg_type : Z;
  source : Z;
  h_term : Z;
  h_prev_log_idx : Z;
  h_prev_log_term : Z;
  h_leader_commit : Z;
  h_n_entries : Z;
  h_entry : raft_entry
}.
#[export] Instance ae_hdr_fields : FieldsOf ae_hdr :=
  λ r, mk_ae_hdr (msg_type r) (source r) (h_term r) (h_prev_log_idx r) (h_prev_log_term r)
         (h_leader_commit r) (h_n_entries r) (h_entry r).

Record packet := mk_packet {
  mbuf : rte_mbuf;
  hdr : ae_hdr;
  wal : wal_entry_t;
  segments : list (list rpc_t)
}.
#[export] Instance packet_fields : FieldsOf packet :=
  λ r, mk_packet (mbuf r) (hdr r) (wal r) (segments r).

(** [msg_t] by its type; the entries of an append-entries message follow it in the
    packet. *)
Inductive msg_t :=
| MsgRequestVote (source : Z) (rv : msg_requestvote)
| MsgRequestVoteResponse (source : Z) (rvr : msg_requestvote_response)
| MsgAppendEntries (source : Z) (ae : msg_appendentries)
| MsgAppendEntriesResponse (source : Z) (aer : msg_appendentries_response)
| MsgUnknown (msg_type : Z).

(** [cyclone_t], the globals it uses and the packets in memory; [durable] are the
    packets that [persist_mbuf] has run on, and [ae_responses] the responses that
    wait to be sent with the replicas they go to. *)
Record cyclone (D : Type) := mk_cyclone {
  replicas : Z;
  c_me : Z;
  me_quorum : Z;
  RAFT_LOGENTRIES : Z;
  router : list Z;
  context : dpdk_context_t;
  pm : pmem;
  sending_checkpoints : bool;
  match_indices : list Z;
  client_inflight : gmap Z Z;
  core_checkpoint : list Z;
  packets : gmap Z packet;
  durable : gset Z;
  ae_responses : list (msg_appendentries_response * Z);
  ae_nack_term : Z;
  ae_nack_idx : Z;
  ae_nack_ts : Z;
  nack_timeout : Z;
  snapshot : Z;
  nonce_base : Z;
  dev : D
}.
Arguments mk_cyclone {D} _ _ _ _ _ _ _ _ _ _ _ _ _ _ _ _ _ _ _ _ _.
Arguments replicas {D} _.
Arguments c_me {D} _.
Arguments me_quorum {D} _.
Arguments RAFT_LOGENTRIES {D} _.
Arguments router {D} _.
Arguments context {D} _.
Arguments pm {D} _.
Arguments sending_checkpoints {D} _.
Arguments match_indices {D} _.
Arguments client_inflight {D} _.
Arguments core_checkpoint {D} _.
Arguments packets {D} _.
Arguments durable {D} _.
Arguments ae_responses {D} _.
Arguments ae_nack_term {D} _.
Arguments ae_nack_idx {D} _.
Arguments ae_nack_ts {D} _.
Arguments nack_timeout {D} _.
Arguments snapshot {D} _.
Arguments nonce_base {D} _.
Arguments dev {D} _.
#[export] Instance cyclone_fields D : FieldsOf (cyclone D) :=
  λ r, mk_cyclone (replicas r) (c_me r) (me_quorum r) (RAFT_LOGENTRIES r) (router r) (context r)
         (pm r) (sending_checkpoints r) (match_indices r) (client_inflight r) (core_checkpoint r)
         (packets r) (durable r) (ae_responses r) (ae_nack_term r) (ae_nack_idx r) (ae_nack_ts r)
         (nack_timeout r) (snapshot r) (nonce_base r) (dev r).

(** [is_multicore_rpc]. *)
Definition is_multicore_rpc (rpc : rpc_t) : bool :=
  negb (Z.land (core_mask rpc) (core_mask rpc - 1) =? 0).

(** [__builtin_ffsl(mask) - 1]: the lowest bit set, [-1] for none. *)
Definition lowest_bit (mask : Z) : Z :=
  match filter (λ i, Z.testbit mask i = true) (seqZ 0 64) with i :: _ => i | [] => -1 end.

(** Conversion to [char]. *)
Definition i8 (z : Z) : Z := (z + 2 ^ 7) mod 2 ^ 8 - 2 ^ 7.

Section callbacks.
Context {D : Type}.
(** DPDK: allocating a buffer from the pool of a queue, from the pool of header
    buffers and for a packet of its own, reference counts, rings, transmission.
    [object_bytes] is the memory representation of a message. *)
Context (pktmbuf_alloc : Z → M D (option rte_mbuf)) (extra_alloc : M D (option rte_mbuf))
  (packet_alloc : Z → M D (option Z)).
Context (refcnt_update : Z → Z → M D ()) (pktmbuf_free : Z → M D ()).
Context (ring_enqueue : Z → Z * Z * rpc_t → M D Z).
Context (tx_buffer : Z → Z → Z → rte_mbuf + ether_hdr * Z → M D Z)
  (tx_buffer_flush : Z → Z → Z → M D Z).
Context (object_bytes : msg_t → list Z).
(** The uninitialised memory [__raft_has_sufficient_logs] works on and the values
    of [rand()]. *)
Context (stack_junk : raft_entry) (rpc_junk : rpc_t) (fresh_packet : packet) (rand : nat → Z).
Abbreviation W := (cyclone D).
Abbreviation R := (M (rstate W)).

Definition get_w : R W := gets world.
Definition upd_w (f : W → W) : R () := modify (λ s, s <| world := f (world s) |>).
Definition on_pm {A} (op : M pmem A) : R A := λ s,
  match op (pm (world s)) with
  | Ret a p => Ret a (s <| world := world s <| pm := p |> |>)
  | Stop f => Stop f
  end.
Definition on_dev {A} (op : M D A) : R A := λ s,
  match op (dev (world s)) with
  | Ret a d => Ret a (s <| world := world s <| dev := d |> |>)
  | Stop f => Stop f
  end.
Definition get_packet (p : Z) : R packet := w ← get_w; deref (packets w !! p).
Definition upd_packet (p : Z) (f : packet → packet) : R () :=
  k ← get_packet p; upd_w (λ w, w <| packets := <[p := f k]> (packets w) |>).

Definition my_q (w : W) (q : Z) : R Z :=
  a ← iadd (ports (context w)) (q * num_quorums); iadd a (me_quorum w).

(** ** Messages *)
Definition send_message (peer : nat) (msg : msg_t) : R Z :=
  w ← get_w;
  n ← get_peer peer;
  my_raft_q ← my_q w q_raft;
  o ← on_dev (pktmbuf_alloc my_raft_q);
  match o with
  | None => fail (Exit (-1))
  | Some mb =>
    let data := object_bytes msg in
    mb ← cyclone_prep_mbuf (context w) (raft_node_get_udata n) my_raft_q mb data
           (Z.of_nat (length data));
    on_dev (cyclone_tx tx_buffer tx_buffer_flush (context w) (inl mb) my_raft_q)
  end.

Definition send_requestvote (peer : nat) (m : msg_requestvote) : R Z :=
  w ← get_w;
  send_message peer (MsgRequestVote (c_me w) m) ;;
  mret 0.

Definition send_appendentries (peer : nat) (m : msg_appendentries) : R Z :=
  w ← get_w;
  send_message peer (MsgAppendEntries (c_me w)
    {| ae_term := ae_term m; ae_prev_log_idx := ae_prev_log_idx m;
       ae_prev_log_term := ae_prev_log_term m; ae_leader_commit := ae_leader_commit m;
       ae_entries := [] |}) ;;
  mret (ae_n_entries m).

(** One entry of [__send_appendentries_opt]: its packet gets the message's term,
    commit index and source and goes out behind a fresh Ethernet header. *)
Definition send_entry (socket my_raft_q : Z) (m : msg_appendentries) (e : raft_entry) : R Z :=
  w ← get_w;
  upd_packet (pkt e) (λ k, k <| hdr := hdr k <| h_leader_commit := ae_leader_commit m |>
                                            <| h_term := ae_term m |> <| source := c_me w |> |>) ;;
  o ← on_dev extra_alloc;
  match o with
  | None => fail (Exit (-1))
  | Some h =>
    on_dev (refcnt_update (pkt e) 1) ;;
    port ← queue2port my_raft_q (ports (context w));
    h ← cyclone_prep_eth (context w) port socket h;
    on_dev (cyclone_buffer_pkt tx_buffer (context w) port (inr (eth h, pkt e)) my_raft_q)
  end.
Fixpoint send_entries (socket my_raft_q : Z) (m : msg_appendentries) (es : list raft_entry) (tx : Z)
  : R Z :=
  match es with
  | [] => mret tx
  | e :: es => r ← send_entry socket my_raft_q m e; tx ← iadd tx r;
               send_entries socket my_raft_q m es tx
  end.
Definition send_appendentries_opt (peer : nat) (m : msg_appendentries) : R Z :=
  n ← get_peer peer;
  if ae_n_entries m =? 0 then send_appendentries peer m else
  let pkts_out := if ae_n_entries m <? PKT_BURST then ae_n_entries m else PKT_BURST in
  w ← get_w;
  my_raft_q ← my_q w q_raft;
  tx ← send_entries (raft_node_get_udata n) my_raft_q m
         (take (Z.to_nat pkts_out) (ae_entries m)) 0;
  port ← queue2port my_raft_q (ports (context w));
  r ← on_dev (cyclone_flush_buffer tx_buffer_flush (context w) port my_raft_q);
  iadd tx r.

(** ** The state machine's side *)
Fixpoint max_checkpoint (me_quorum : Z) (i : Z) (cs : list Z) (best : Z) : Z :=
  match cs with
  | [] => best
  | c :: cs =>
    max_checkpoint me_quorum (i + 1) cs
      (if negb (core_to_quorum i =? me_quorum) then best else if best <? c then c else best)
  end.

Definition first_rpc (p : Z) : R rpc_t :=
  k ← get_packet p; deref (head (concat (segments k))).

Definition applylog (ety : raft_entry) (ety_idx : Z) : R Z :=
  upd_packet (pkt ety) (λ k, k <| wal := wal k <| rep := REP_SUCCESS |> |>) ;;
  w ← get_w;
  (if type ety =? RAFT_LOGTYPE_REMOVE_NODE then
     cfg ← first_rpc (pkt ety);
     if cfg_node cfg =? c_me w then fail (Exit (-1)) else mret tt
   else if type ety =? RAFT_LOGTYPE_ADD_NONVOTING_NODE then
     upd_w (λ w, w <| sending_checkpoints := false |>)
   else mret tt) ;;
  let checkpoint_idx :=
    max_checkpoint (me_quorum w) 0 (take (Z.to_nat executor_threads) (core_checkpoint w)) (-1) in
  when (0 <=? checkpoint_idx) (raft_checkpoint checkpoint_idx) ;;
  mret 0.

Definition setmatch (replica ety_idx : Z) : R Z :=
  w ← get_w;
  l ← aset (match_indices w) replica ety_idx;
  upd_w (λ w, w <| match_indices := l |>) ;;
  mret 0.

(** ** The log *)
Definition handle_cfg_change (ety : raft_entry) (rpc : rpc_t) : R () :=
  w ← get_w;
  let node_id := cfg_node rpc in
  if type ety =? RAFT_LOGTYPE_ADD_NONVOTING_NODE then
    mc ← replica_mc (router w) node_id;
    raft_add_non_voting_node mc node_id (node_id =? c_me w) ;;
    upd_w (λ w, w <| sending_checkpoints := true |>)
  else if type ety =? RAFT_LOGTYPE_ADD_NODE then
    mc ← replica_mc (router w) node_id;
    raft_add_node mc node_id (node_id =? c_me w) ;;
    mret tt
  else if type ety =? RAFT_LOGTYPE_REMOVE_NODE then
    o ← raft_get_node node_id;
    match o with Some r => raft_remove_node r | None => fail UB end
  else mret tt.

Definition add_head (p : Z) (ety : raft_entry) (ety_prev : option raft_entry) (ety_index : Z)
  : R () :=
  w ← get_w;
  q ← my_q w q_raft;
  dst_qindex ← queue_index_at_port q (ports (context w));
  upd_packet p (λ k, k
    <| mbuf := initialize_ipv4_header (mbuf k) magic_src_ip dst_qindex
                 (pkt_len (mbuf k) - sizeof_ipv4_hdr) |>
    <| hdr := hdr k <| msg_type := MSG_APPENDENTRIES |> <| h_prev_log_idx := ety_index |>
                    <| h_n_entries := 1 |>
                    <| h_prev_log_term := match ety_prev with Some e => i32 (term e) | None => 0 end |>
                    <| h_entry := ety |> |>).

Definition add_inflight (client : Z) : R () :=
  w ← get_w;
  if (0 <=? client) && (client <? MAX_CLIENTS) then
    upd_w (λ w, w <| client_inflight :=
      <[client := i8 (default 0 (client_inflight w !! client) + 1)]> (client_inflight w) |>)
  else fail UB.

(** Handing one request to one core. *)
Definition handoff (p : Z) (rpc : rpc_t) (core : Z) : R () :=
  w ← get_w;
  if negb (core_to_quorum core =? me_quorum w) then mret tt else
  on_dev (refcnt_update p 1) ;;
  (if negb (is_multicore_rpc rpc) then add_inflight (client_id rpc)
   else when (core =? lowest_bit (core_mask rpc)) (add_inflight (client_id rpc))) ;;
  if core <? executor_threads then
    r ← on_dev (ring_enqueue core (me_quorum w, p, rpc));
    if r =? - ENOBUFS then fail (Exit (-1)) else mret tt
  else fail UB.

(** [while(core_mask != 0)]: the bits from the lowest up. *)
Fixpoint handoff_all (p : Z) (rpc : rpc_t) (cores : list Z) : R () :=
  match cores with
  | [] => mret tt
  | c :: cores => handoff p rpc c ;; handoff_all p rpc cores
  end.
Definition cores_of (mask : Z) : list Z := filter (λ i, Z.testbit mask i = true) (seqZ 0 64).

Fixpoint walk_requests (ety : raft_entry) (p : Z) (rpcs : list rpc_t) : R () :=
  match rpcs with
  | [] => mret tt
  | rpc :: rpcs =>
    handle_cfg_change ety rpc ;;
    when (negb (type ety =? RAFT_LOGTYPE_ADD_NODE)) (handoff_all p rpc (cores_of (core_mask rpc))) ;;
    walk_requests ety p rpcs
  end.

Definition persist_mbuf (p : Z) : R () := upd_w (λ w, w <| durable := {[p]} ∪ durable w |>).

Definition cyclone_is_leader : R bool :=
  w ← get_w; if replicas w =? 1 then mret true else raft_is_leader.

(** One round of the loop of [__raft_logentry_offer_batch]: the entry as stored
    and the new tail.  The log has checked that [ety_idx + count] is an [int]. *)
Definition offer_entry (is_leader : bool) (e : raft_entry) (prev : option raft_entry)
    (ety_idx tail : Z) : R (raft_entry * Z) :=
  when is_leader (add_head (data_buf e) e prev ety_idx) ;;
  let m := data_buf e in
  upd_packet m (λ k, k <| wal := {| rep := REP_UNKNOWN; wal_term := i32 (term e); idx := ety_idx;
                                    leader := is_leader |} |>) ;;
  if m =? 0 then fail (Exit (-1)) else
  let e := e <| id := u32 ety_idx |> <| pkt := m |> <| data_buf := tail |> in
  k ← get_packet m;
  walk_requests e m (concat (segments k)) ;;
  persist_mbuf m ;;
  w ← get_w;
  t ← on_pm (log_offer m tail (RAFT_LOGENTRIES w));
  if t =? -1 then fail (Exit (-1)) else mret (e, t).
Fixpoint offer_entries (is_leader : bool) (es : list raft_entry) (prev : option raft_entry)
    (ety_idx tail : Z) : R (list raft_entry * Z) :=
  match es with
  | [] => mret ([], tail)
  | e :: es =>
    '(e, tail) ← offer_entry is_leader e prev ety_idx tail;
    '(es, tail) ← offer_entries is_leader es (Some e) (ety_idx + 1) tail;
    mret (e :: es, tail)
  end.
Definition logentry_offer_batch (es : list raft_entry) (prev : option raft_entry)
    (ety_idx count : Z) : R (Z * list raft_entry) :=
  w ← get_w;
  is_leader ← cyclone_is_leader;
  '(es', tail) ← offer_entries is_leader (take (Z.to_nat count) es) prev ety_idx
                   (p_tail (cur (pm w)));
  on_pm (log_persist tail (RAFT_LOGENTRIES w)) ;;
  mret (0, es' ++ drop (Z.to_nat count) es).
Definition logentry_offer (e : raft_entry) (prev : option raft_entry) (ety_idx : Z)
  : R (Z * raft_entry) :=
  '(r, es) ← logentry_offer_batch [e] prev ety_idx 1;
  e' ← deref (head es);
  mret (r, e').

Fixpoint free_packets (es : list raft_entry) : R () :=
  match es with
  | [] => mret tt
  | e :: es => on_dev (pktmbuf_free (pkt e)) ;; free_packets es
  end.
Definition logentry_poll_batch (entry : list raft_entry) (ety_idx cnt : Z) : R Z :=
  w ← get_w;
  on_pm (CircularLog.log_poll_batch cnt (RAFT_LOGENTRIES w)) ;;
  (if cnt <=? Z.of_nat (length entry) then free_packets (take (Z.to_nat cnt) entry) else fail UB) ;;
  mret 0.
Definition logentry_poll (entry : raft_entry) (ety_idx : Z) : R Z :=
  if ety_idx =? -1 then on_dev (pktmbuf_free (data_buf entry)) ;; mret 0
  else logentry_poll_batch [entry] ety_idx 1.
Definition logentry_pop (entry : raft_entry) (ety_idx : Z) : R Z :=
  w ← get_w;
  on_pm (log_pop (RAFT_LOGENTRIES w)) ;;
  upd_packet (pkt entry) (λ k, k <| wal := wal k <| rep := REP_FAILED |> |>) ;;
  on_dev (pktmbuf_free (pkt entry)) ;;
  mret 0.
(** ** The callback table *)
Definition raft_log_funcs : log_cbs (rstate W) := {|
  cb_log_offer := Some logentry_offer;
  cb_log_offer_batch := Some logentry_offer_batch;
  cb_log_poll := Some logentry_poll;
  cb_log_poll_batch := Some logentry_poll_batch;
  cb_log_pop := Some logentry_pop
|}.

(** The table without the last callback, which calls back into Raft.  The entry
    point it uses, [raft_recv_entry_batch], does not come back to it. *)
Definition raft_funcs_base : raft_cbs W := {|
  cb_send_requestvote := Some send_requestvote;
  cb_send_appendentries := Some send_appendentries_opt;
  cb_applylog := Some applylog;
  cb_setmatch := Some setmatch;
  cb_persist_vote := Some (λ v, on_pm (persist_vote v));
  cb_persist_term := Some (λ t, on_pm (persist_term t));
  cb_log := raft_log_funcs;
  cb_node_has_sufficient_logs := None
|}.

Definition sizeof_rpc : Z := 52.
Definition sizeof_cfg_change : Z := 4.
Definition sizeof_wal_entry : Z := 24.

(** [__raft_has_sufficient_logs].  The length handed to Raft is that of the
    buffer behind all headers, but the buffer was sized without the
    [wal_entry_t], so it is too short by that much. *)
Definition raft_has_sufficient_logs (peer : nat) : R Z :=
  w ← get_w;
  if sending_checkpoints w then mret (-1) else
  my_disp_q ← my_q w q_dispatcher;
  o ← on_dev (packet_alloc my_disp_q);
  match o with
  | None => fail (Exit (-1))
  | Some p =>
    n ← get_peer peer;
    upd_w (λ w, w <| packets := <[p := fresh_packet
      <| segments := [[rpc_junk <| code := RPC_REQ_NODEADDFINAL |>
                                <| cfg_node := raft_node_get_id n |>]] |>]> (packets w) |>) ;;
    let completion_entry := stack_junk <| id := 1 |> <| data_buf := p |>
      <| RaftNode.data_len := u32 (sizeof_rpc + sizeof_cfg_change - sizeof_wal_entry) |>
      <| type := RAFT_LOGTYPE_ADD_NODE |> in
    '(e, _, _) ← raft_recv_entry_batch raft_funcs_base rand [completion_entry] false;
    when (negb (e =? 0)) (on_dev (pktmbuf_free p)) ;;
    mret 0
  end.

Definition raft_funcs : raft_cbs W := {|
  cb_send_requestvote := Some send_requestvote;
  cb_send_appendentries := Some send_appendentries_opt;
  cb_applylog := Some applylog;
  cb_setmatch := Some setmatch;
  cb_persist_vote := Some (λ v, on_pm (persist_vote v));
  cb_persist_term := Some (λ t, on_pm (persist_term t));
  cb_log := raft_log_funcs;
  cb_node_has_sufficient_logs := Some raft_has_sufficient_logs
|}.
End callbacks.
