(* ===== verification/CycloneSafe.v ===== *)
(** Cyclone's callbacks meet the contract under which the Raft log is safe: the
    persistent circular log mirrors the Raft log, so that the safety theorem
    holds of the server as it is put together, whatever the network, the rings
    and the buffer pools do. *)

From S2P Require Import Prelude RaftNode RaftLog RaftServer RaftFrame RaftEnv RaftSafety.
From S2P Require Import CircularLog Comm Cyclone.

Section safe.
Context {D : Type}.
Context (pktmbuf_alloc : Z → M D (option rte_mbuf)) (extra_alloc : M D (option rte_mbuf))
  (packet_alloc : Z → M D (option Z)).
Context (refcnt_update : Z → Z → M D ()) (pktmbuf_free : Z → M D ()).
Context (ring_enqueue : Z → Z * Z * rpc_t → M D Z).
Context (tx_buffer : Z → Z → Z → rte_mbuf + ether_hdr * Z → M D Z)
  (tx_buffer_flush : Z → Z → Z → M D Z).
Context (object_bytes : msg_t → list Z).
Context (stack_junk : raft_entry) (rpc_junk : rpc_t) (fresh_packet : packet) (rand : nat → Z).
Implicit Types (s : rstate (cyclone D)) (w : cyclone D) (es : list raft_entry).

(** The persistent log holds the packets of [es]: the ring from head to tail,
    with head and tail durable, and [persist_mbuf] has run on every packet in it. *)
Definition plog (f : Z) es w : Prop :=
  0 ≤ f ∧ 2 * RAFT_LOGENTRIES w ≤ INT_MAX
  ∧ ring (RAFT_LOGENTRIES w) (cur (pm w)) (p_tail (cur (pm w))) (map pkt es)
  ∧ p_tail (nvm (pm w)) = p_tail (cur (pm w)) ∧ p_head (nvm (pm w)) = p_head (cur (pm w))
  ∧ Forall (λ e, pkt e ∈ durable w) es.

(** What all but the log operations leave alone. *)
Definition calm s s' : Prop :=
  lview (srv s') = lview (srv s) ∧ RAFT_LOGENTRIES (world s') = RAFT_LOGENTRIES (world s)
  ∧ pm (world s') = pm (world s) ∧ durable (world s') = durable (world s).
#[local] Instance calm_preorder : PreOrder calm.
Proof.
  split; [done|]. intros s1 s2 s3 (? & ? & ? & ?) (? & ? & ? & ?). split_and!; congruence.
Qed.

Lemma calm_plog f es s s' : calm s s' → plog f es (world s) → plog f es (world s').
Proof. intros (_ & Hn & Hp & Hd). unfold plog. by rewrite Hn, Hp, Hd. Qed.

Lemma plog_step s s' :
  lview (srv s') = lview (srv s) →
  (∀ f es, plog f es (world s) → plog f es (world s')) → log_step plog s s'.
Proof.
  unfold lview, lrest. intros [= Hl Hc Ha Hb Hk Ht] Hw es [Hrep [] HJ]. exists es.
  rewrite Hl, Hc, Ha. split_and!; try done.
  split; [by rewrite Hl|split; rewrite ?Hl, ?Hc, ?Ha, ?Hb, ?Hk, ?Ht; lia|rewrite Hl; auto].
Qed.

Lemma pres_calm_step {A} (m : M (rstate (cyclone D)) A) : Pres calm m → Pres (log_step plog) m.
Proof.
  intros Hm s. eapply wp_mono; [apply Hm|done|]. intros a s' Hc.
  apply plog_step; [apply Hc|]. intros f es. by apply calm_plog.
Qed.
Lemma pres_calm_rest {A} (m : M (rstate (cyclone D)) A) : Pres calm m → Pres same_rest m.
Proof.
  intros Hm s. eapply wp_mono; [apply Hm|done|]. intros a s' (Hv & _).
  unfold same_rest. unfold lview in Hv. congruence.
Qed.

(** ** Quiet operations *)
Lemma calm_modify f : (∀ s, calm s (f s)) → Pres calm (modify f).
Proof. apply pres_modify. Qed.
#[local] Hint Extern 2 (Pres calm (modify _)) => apply calm_modify; intros; done : pres.
#[local] Hint Extern 2 (Pres calm (upd_srv _)) =>
  apply calm_modify; intros; split_and!; reflexivity : pres.
#[local] Hint Extern 2 (Pres calm (upd_w _)) =>
  apply calm_modify; intros; split_and!; reflexivity : pres.

Lemma calm_get_w : Pres calm get_w.
Proof. unfold get_w. pres. Qed.
Lemma calm_get_srv : Pres calm (get_srv (W := cyclone D)).
Proof. unfold get_srv. pres. Qed.
Lemma calm_get_peer r : Pres calm (get_peer (W := cyclone D) r).
Proof. unfold get_peer. pres. Qed.
#[local] Hint Resolve calm_get_w calm_get_srv calm_get_peer : pres.
Lemma calm_upd_peer r f : Pres calm (upd_peer (W := cyclone D) r f).
Proof. unfold upd_peer. pres. Qed.
Lemma calm_on_dev {A} (op : M D A) : Pres calm (on_dev op).
Proof. intros s. unfold wp, on_dev. destruct (op _); [|done]. done. Qed.
Lemma calm_get_packet p : Pres calm (get_packet p).
Proof. unfold get_packet. pres. Qed.
#[local] Hint Resolve calm_upd_peer calm_on_dev calm_get_packet : pres.
Lemma calm_upd_packet p f : Pres calm (upd_packet p f).
Proof. unfold upd_packet. pres. Qed.
Lemma calm_my_q w q : Pres calm (my_q w q).
Proof. unfold my_q. pres. Qed.
Lemma calm_idiv a b : Pres calm (idiv a b).
Proof. unfold idiv. pres. Qed.
#[local] Hint Resolve calm_upd_packet calm_my_q calm_idiv : pres.
Lemma calm_queue2port q p : Pres calm (queue2port q p).
Proof. unfold queue2port. pres. Qed.
Lemma calm_queue_index q p : Pres calm (queue_index_at_port q p).
Proof. unfold queue_index_at_port. pres. Qed.
Lemma calm_mac c m p : Pres calm (mac c m p).
Proof. unfold mac. pres. Qed.
Lemma calm_replica_mc l i : Pres calm (replica_mc l i).
Proof. unfold replica_mc. pres. Qed.
#[local] Hint Resolve calm_queue2port calm_queue_index calm_mac calm_replica_mc : pres.
Lemma calm_prep c d q m data n : Pres calm (cyclone_prep_mbuf c d q m data n).
Proof. unfold cyclone_prep_mbuf, fill. pres. Qed.
Lemma calm_prep_eth c p d m : Pres calm (cyclone_prep_eth c p d m).
Proof. unfold cyclone_prep_eth. pres. Qed.
#[local] Hint Resolve calm_prep calm_prep_eth : pres.

(** ** Messages *)
Abbreviation send_message' :=
  (send_message pktmbuf_alloc tx_buffer tx_buffer_flush object_bytes).
Lemma calm_send_message peer m : Pres calm (send_message' peer m).
Proof. unfold send_message. pres. Qed.
#[local] Hint Resolve calm_send_message : pres.
Lemma calm_send_entries socket q m es tx :
  Pres calm (send_entries extra_alloc refcnt_update tx_buffer socket q m es tx).
Proof. revert tx. induction es; intros tx; simpl; unfold send_entry; pres. Qed.
#[local] Hint Resolve calm_send_entries : pres.
Lemma calm_send_appendentries_opt peer m :
  Pres calm (send_appendentries_opt pktmbuf_alloc extra_alloc refcnt_update tx_buffer
    tx_buffer_flush object_bytes peer m).
Proof. unfold send_appendentries_opt, send_appendentries. pres. Qed.
Lemma calm_send_requestvote peer m :
  Pres calm (send_requestvote pktmbuf_alloc tx_buffer tx_buffer_flush object_bytes peer m).
Proof. unfold send_requestvote. pres. Qed.
Lemma calm_setmatch r i : Pres calm (setmatch r i).
Proof. unfold setmatch. pres. Qed.

(** ** Configuration changes and hand-over *)
Lemma calm_find_node rs i : Pres calm (find_node_loop (W := cyclone D) rs i).
Proof. induction rs; simpl; pres. Qed.
#[local] Hint Resolve calm_find_node : pres.
Lemma calm_add_node ud nid self : Pres calm (raft_add_node (W := cyclone D) ud nid self).
Proof. unfold raft_add_node, raft_get_node. pres. Qed.
#[local] Hint Resolve calm_add_node : pres.
Lemma calm_handle_cfg_change e r : Pres calm (handle_cfg_change e r).
Proof.
  unfold handle_cfg_change, raft_add_non_voting_node, raft_get_node, raft_remove_node. pres.
Qed.
Lemma calm_add_head p e prev i : Pres calm (add_head p e prev i).
Proof. unfold add_head. pres. Qed.
Lemma calm_add_inflight c : Pres calm (add_inflight c).
Proof. unfold add_inflight. pres. Qed.
#[local] Hint Resolve calm_handle_cfg_change calm_add_head calm_add_inflight : pres.
Lemma calm_handoff p r c : Pres calm (handoff refcnt_update ring_enqueue p r c).
Proof. unfold handoff. pres. Qed.
#[local] Hint Resolve calm_handoff : pres.
Lemma calm_handoff_all p r cs : Pres calm (handoff_all refcnt_update ring_enqueue p r cs).
Proof. induction cs; simpl; pres. Qed.
#[local] Hint Resolve calm_handoff_all : pres.
Lemma calm_walk_requests e p rs :
  Pres calm (walk_requests refcnt_update ring_enqueue e p rs).
Proof. induction rs; simpl; pres. Qed.
Lemma calm_free_packets es : Pres calm (free_packets pktmbuf_free es).
Proof. induction es; simpl; pres. Qed.
Lemma calm_is_leader : Pres calm cyclone_is_leader.
Proof. unfold cyclone_is_leader, raft_is_leader, raft_is_state. pres. Qed.
#[local] Hint Resolve calm_walk_requests calm_free_packets calm_is_leader : pres.
(** ** The log callbacks *)
Lemma wp_on_pm {A} (op : M pmem A) E Q s :
  wp (on_pm op) E Q s ↔ wp op E (λ a p, Q a (s <| world := world s <| pm := p |> |>)) (pm (world s)).
Proof. unfold wp, on_pm. by destruct (op _). Qed.

Lemma wp_calm {A B} (m : M (rstate (cyclone D)) A) (k : A → M (rstate (cyclone D)) B) Q s :
  Pres calm m → (∀ a s', calm s s' → wp (k a) any Q s') → wp (m ≫= k) any Q s.
Proof.
  intros Hm Hk. rewrite wp_bind. eapply wp_mono; [apply Hm|done|]. intros a s' Hc. by apply Hk.
Qed.

Lemma wp_pres {A} (m : M (rstate (cyclone D)) A) Q s :
  Pres calm m → (∀ a s', calm s s' → Q a s') → wp m any Q s.
Proof. intros Hm HQ. eapply wp_mono; [apply Hm|done|]. auto. Qed.

(** In the middle of a batch that started at [s0]: the ring up to [tail] holds the
    packets of [es], nothing else of the log has moved. *)
Record offering s0 (tail : Z) es s : Prop := {
  off_view : lview (srv s) = lview (srv s0);
  off_size : RAFT_LOGENTRIES (world s) = RAFT_LOGENTRIES (world s0);
  off_tail : p_tail (cur (pm (world s))) = p_tail (cur (pm (world s0)));
  off_head : p_head (cur (pm (world s))) = p_head (cur (pm (world s0)));
  off_nvm : nvm (pm (world s)) = nvm (pm (world s0));
  off_ring : ring (RAFT_LOGENTRIES (world s0)) (cur (pm (world s))) tail (map pkt es);
  off_durable : Forall (λ e, pkt e ∈ durable (world s)) es
}.

Lemma calm_offering s0 t es s s' : calm s s' → offering s0 t es s → offering s0 t es s'.
Proof.
  intros (Hv & Hn & Hp & Hd) []. split; rewrite ?Hv, ?Hn, ?Hp, ?Hd; done.
Qed.

Abbreviation offer_entry' := (offer_entry refcnt_update ring_enqueue).
Lemma offer_entry_wp s0 l e prev i t es s :
  offering s0 t es s →
  wp (offer_entry' l e prev i t) any
    (λ r s', same_entry e r.1 ∧ offering s0 r.2 (es ++ [r.1]) s') s.
Proof.
  intros Ho. unfold offer_entry. apply wp_calm; [pres|]. intros _ s1 Hc1.
  apply wp_calm; [pres|]. intros _ s2 Hc2. destruct (_ =? 0); [done|].
  apply wp_calm; [pres|]. intros k s3 Hc3. apply wp_calm; [pres|]. intros _ s4 Hc4.
  assert (offering s0 t es s4) as [Hv Hn Ht Hh Hnv Hr Hd] by (by repeat (eapply calm_offering; [done|])).
  unfold persist_mbuf, upd_w, get_w. rewrite wp_bind, wp_modify, wp_bind, wp_gets, wp_bind, wp_on_pm.
  simpl. rewrite Hn. pose proof (ring_fill _ _ _ _ Hr) as Hfill.
  pose proof (ring_offer_wp _ _ t _ (data_buf e) _ eq_refl Hr) as Hoff.
  eapply wp_mono; [exact Hoff|done|]. intros r p (Hp1 & Hp2 & Hp3 & _ & _ & Hfull & Hroom). simpl.
  destruct (Z.eqb_spec r (-1)) as [->|Hne]; [done|]. rewrite wp_ret. split; [done|].
  destruct (Hroom ltac:(lia)) as [Hr' _].
  split; simpl; [done|done|congruence|congruence|congruence| |].
  - rewrite map_app. exact Hr'.
  - apply Forall_app. split.
    + eapply Forall_impl; [exact Hd|]. intros x Hx. by apply elem_of_union_r.
    + apply Forall_singleton. by apply elem_of_union_l, elem_of_singleton.
Qed.

Lemma offer_entries_wp s0 l cs prev i t es s :
  offering s0 t es s →
  wp (offer_entries refcnt_update ring_enqueue l cs prev i t) any
    (λ r s', Forall2 same_entry cs r.1 ∧ offering s0 r.2 (es ++ r.1) s') s.
Proof.
  revert prev i t es s. induction cs as [|c cs IH]; intros prev i t es s Ho; simpl.
  { rewrite wp_ret. simpl. rewrite app_nil_r. done. }
  rewrite wp_bind. eapply wp_mono; [by apply offer_entry_wp|done|].
  intros [e t1] s1 [Hs1 Ho1]. simpl in *. rewrite wp_bind.
  eapply wp_mono; [apply (IH (Some e) (i + 1) t1 (es ++ [e])), Ho1|done|].
  intros [cs' t2] s2 [Hs2 Ho2]. simpl in *. rewrite wp_ret. simpl.
  rewrite <- app_assoc in Ho2. split; [by constructor|done].
Qed.

Lemma offer_batch_wp cs prev i f es s :
  plog f es (world s) →
  wp (logentry_offer_batch refcnt_update ring_enqueue cs prev i (Z.of_nat (length cs))) any
    (λ rc s', log (srv s') = log (srv s) ∧ Forall2 same_entry cs rc.2
       ∧ plog f (es ++ rc.2) (world s')) s.
Proof.
  intros (Hf & Hmax & Hr & Ht & Hh & Hd). unfold logentry_offer_batch, get_w.
  rewrite wp_bind, wp_gets. apply wp_calm; [pres|]. intros l s1 Hc1.
  rewrite Nat2Z.id, firstn_all, drop_all.
  assert (offering s (p_tail (cur (pm (world s)))) es s1) as Ho.
  { eapply calm_offering; [exact Hc1|]. by split. }
  rewrite wp_bind. eapply wp_mono; [by apply offer_entries_wp|done|].
  intros [cs' t] s2 [Hsame [Hv Hn Ht2 Hh2 Hnv Hr2 Hd2]]. simpl in *.
  rewrite wp_bind, wp_on_pm.
  pose proof (ring_persist_wp (RAFT_LOGENTRIES (world s)) t _ (pm (world s2))
    ltac:(rewrite Ht2; apply (ring_tail _ _ _ _ Hr)) Hr2) as Hp.
  eapply wp_mono; [exact Hp|done|]. intros u p (Hcur & Htn & Hhn & _).
  rewrite wp_ret. simpl. rewrite app_nil_r. split_and!; [unfold lview in Hv; congruence|done|].
  unfold plog. simpl. rewrite Hn, Hcur. simpl. split_and!; try done.
  destruct Hr2. by split.
Qed.

(** A ring operation whose only effect is on the persistent state. *)
Lemma plog_pm f es s p :
  0 ≤ f → 2 * RAFT_LOGENTRIES (world s) ≤ INT_MAX →
  ring (RAFT_LOGENTRIES (world s)) (cur p) (p_tail (cur p)) (map pkt es) →
  p_tail (nvm p) = p_tail (cur p) → p_head (nvm p) = p_head (cur p) →
  Forall (λ e, pkt e ∈ durable (world s)) es →
  ∀ s', calm (s <| world := world s <| pm := p |> |>) s' →
  log (srv s') = log (srv s) ∧ plog f es (world s').
Proof.
  intros ?????? s' (Hv & Hn & Hp & Hd). simpl in *. split; [unfold lview in Hv; congruence|].
  unfold plog. rewrite Hn, Hp, Hd. done.
Qed.

Lemma poll_batch_wp ptr n i f es s :
  plog f es (world s) → 0 < n → n ≤ Z.of_nat (length es) →
  wp (logentry_poll_batch pktmbuf_free ptr i n) any
    (λ _ s', log (srv s') = log (srv s) ∧ plog (f + n) (drop (Z.to_nat n) es) (world s')) s.
Proof.
  intros (Hf & Hmax & Hr & Ht & Hh & Hd) Hn Hle. unfold logentry_poll_batch, get_w.
  rewrite wp_bind, wp_gets, wp_bind, wp_on_pm.
  eapply wp_mono; [apply (ring_poll_batch_wp _ n _ _ _ Hr); [rewrite length_map; lia|done]|done|].
  intros u p (Hcur & Hr' & Hh' & Htl & _). apply wp_calm; [pres|]. intros u' s1 Hc. rewrite wp_ret.
  rewrite skipn_map in Hr'. eapply plog_pm; [lia|done| | | | |exact Hc]; try done.
  - by rewrite Hcur in *.
  - by apply Forall_drop.
Qed.

Lemma pop_wp e i f es s :
  plog f (es ++ [e]) (world s) →
  wp (logentry_pop pktmbuf_free e i) any
    (λ _ s', log (srv s') = log (srv s) ∧ plog f es (world s')) s.
Proof.
  intros (Hf & Hmax & Hr & Ht & Hh & Hd). rewrite map_app in Hr. unfold logentry_pop, get_w.
  rewrite wp_bind, wp_gets, wp_bind, wp_on_pm.
  eapply wp_mono; [apply (ring_pop_wp _ _ _ _ Hr)|done|]. intros u p (_ & Hr' & Ht' & Hh' & _).
  apply wp_pres; [pres|]. intros z s1 Hc.
  eapply plog_pm; [done|done|exact Hr'|done|done| |exact Hc]. by apply Forall_app in Hd as [? _].
Qed.

#[export] Instance raft_log_mirror :
  LogMirror (raft_log_funcs refcnt_update pktmbuf_free ring_enqueue) any
    (λ f es s, plog f es (world s)).
Proof.
  split; simpl.
  - done.
  - intros c prev f es s HJ _. unfold run_offer. simpl. unfold logentry_offer. rewrite wp_bind.
    eapply wp_mono; [exact (offer_batch_wp [c] prev (f + Z.of_nat (length es)) f es s HJ)|done|].
    intros [r cs] s' (Hl & Hs & HJ'). simpl in *.
    inversion Hs as [|? e' ? ? He Hnil]; subst. inversion Hnil; subst. rewrite wp_bind, wp_deref.
    done.
  - intros cs prev f es s HJ _ _. by apply offer_batch_wp.
  - intros e f es s HJ. unfold run_poll. simpl. unfold logentry_poll.
    destruct (Z.eqb_spec f (-1)) as [->|]; [by destruct HJ|].
    eapply wp_mono; [apply (poll_batch_wp [e] 1 f f (e :: es) s HJ); simpl; lia|done|].
    simpl. by intros.
  - intros ptr n f es s HJ Hn Hle _. apply poll_batch_wp; [done|lia|done].
  - intros e f es s HJ. by apply pop_wp.
Qed.

(** ** What the log callbacks leave alone *)
#[local] Hint Extern 4 (Pres same_rest _) => apply pres_calm_rest; solve [pres] : pres.
Lemma rest_on_pm {A} (op : M pmem A) : Pres same_rest (on_pm (D := D) op).
Proof. intros s. unfold wp, on_pm. destruct (op _); done. Qed.
Lemma rest_persist_mbuf p : Pres same_rest (persist_mbuf (D := D) p).
Proof. by apply pres_modify. Qed.
#[local] Hint Resolve rest_on_pm rest_persist_mbuf : pres.
Lemma rest_offer_entries l cs prev i t :
  Pres same_rest (offer_entries refcnt_update ring_enqueue l cs prev i t).
Proof. revert prev i t. induction cs; intros; simpl; unfold offer_entry; pres. Qed.
#[local] Hint Resolve rest_offer_entries : pres.
Lemma rest_offer_batch cs prev i n :
  Pres same_rest (logentry_offer_batch refcnt_update ring_enqueue cs prev i n).
Proof. unfold logentry_offer_batch. pres. Qed.
#[local] Hint Resolve rest_offer_batch : pres.
#[export] Instance raft_log_frame :
  LogFrame (raft_log_funcs refcnt_update pktmbuf_free ring_enqueue) (same_rest (W := cyclone D)).
Proof.
  split; simpl; [apply _|done|..]; intros ? [= <-]; intros;
    unfold logentry_offer, logentry_poll, logentry_poll_batch, logentry_pop; pres.
Qed.

(** ** The other callbacks *)
Lemma scalar_step (op : M pmem Z) :
  (∀ p, ∃ p', op p = Ret 0 p' ∧ p_head (cur p') = p_head (cur p) ∧ p_tail (cur p') = p_tail (cur p)
     ∧ p_data (cur p') = p_data (cur p) ∧ p_head (nvm p') = p_head (cur p)
     ∧ p_tail (nvm p') = p_tail (cur p)) →
  Pres (log_step plog) (on_pm op).
Proof.
  intros Hop s. rewrite wp_on_pm. destruct (Hop (pm (world s))) as (p' & Hrun & Hh & Ht & Hd & Hn & Hn').
  unfold wp. rewrite Hrun. apply plog_step; [done|].
  intros f es (? & ? & [] & ? & ? & ?). unfold plog. simpl. rewrite Ht, Hh, Hn, Hn'.
  split_and!; try done. split; rewrite ?Hd, ?Hh; done.
Qed.
#[local] Hint Extern 4 (Pres (log_step plog) _) => apply pres_calm_step; solve [pres] : pres.
#[local] Hint Resolve pres_raft_checkpoint : pres.
Lemma applylog_step e i : Pres (log_step plog) (applylog (D := D) e i).
Proof. unfold applylog, first_rpc. pres. Qed.

#[export] Instance raft_funcs_base_safe :
  SafeCbs plog (raft_funcs_base pktmbuf_alloc extra_alloc refcnt_update pktmbuf_free ring_enqueue
    tx_buffer tx_buffer_flush object_bytes).
Proof.
  split; simpl; try apply _.
  - intros ? [= <-] e. unfold logentry_poll. rewrite Z.eqb_refl. pres.
  - intros ? [= <-] p m. apply pres_calm_step, calm_send_requestvote.
  - intros ? [= <-] p m. apply pres_calm_step, calm_send_appendentries_opt.
  - intros ? [= <-] e i. apply applylog_step.
  - intros ? [= <-] r i. apply pres_calm_step, calm_setmatch.
  - intros ? [= <-] v. apply scalar_step. intros p. eexists. split_and!; reflexivity.
  - intros ? [= <-] v. apply scalar_step. intros p. eexists. split_and!; reflexivity.
  - done.
Qed.

Lemma sufficient_logs_step peer :
  Pres (log_step plog) (raft_has_sufficient_logs pktmbuf_alloc extra_alloc packet_alloc
    refcnt_update pktmbuf_free ring_enqueue tx_buffer tx_buffer_flush object_bytes stack_junk
    rpc_junk fresh_packet rand peer).
Proof.
  unfold raft_has_sufficient_logs. pres. apply pres_raft_recv_entry_batch; [apply _|done].
Qed.

Abbreviation server_funcs :=
  (raft_funcs pktmbuf_alloc extra_alloc packet_alloc refcnt_update pktmbuf_free ring_enqueue
     tx_buffer tx_buffer_flush object_bytes stack_junk rpc_junk fresh_packet rand).
#[export] Instance raft_funcs_safe : SafeCbs plog server_funcs.
Proof.
  pose proof raft_funcs_base_safe as []. split; simpl in *; try done.
  intros ? [= <-] p. apply sufficient_logs_step.
Qed.

(** C3: the server as Cyclone puts it together keeps its log.  Whatever DPDK's
    pools, rings and queues do and over any sequence of events that returns, compacted
    <= applied <= commit <= last index holds, none of the first three goes back (the
    last index may, when a follower's uncommitted entries are replaced), every
    committed entry that is not compacted away is unchanged at its index, and the
    persistent ring holds from
    head to tail exactly the packets of the Raft log, [persist_mbuf] has run on all
    of them, and head and tail are durable. *)
Theorem server_log_persistent evs es s s' :
  Forall (λ ev, event_ok ev = true) evs → linv plog es s →
  run_events server_funcs rand evs s = Ret tt s' →
  ∃ es', log_rep (log (srv s')) es' ∧ index_inv (srv s')
    ∧ front (log (srv s)) ≤ front (log (srv s'))
    ∧ last_applied_idx (srv s) ≤ last_applied_idx (srv s')
    ∧ commit_idx (srv s) ≤ commit_idx (srv s')
    ∧ (∀ i, front (log (srv s')) < i ≤ commit_idx (srv s) →
        entry_at (front (log (srv s'))) es' i = entry_at (front (log (srv s))) es i)
    ∧ ring (RAFT_LOGENTRIES (world s')) (cur (pm (world s'))) (p_tail (cur (pm (world s'))))
        (map pkt es')
    ∧ p_tail (nvm (pm (world s'))) = p_tail (cur (pm (world s')))
    ∧ p_head (nvm (pm (world s'))) = p_head (cur (pm (world s')))
    ∧ (∀ e, e ∈ es' → pkt e ∈ durable (world s')).
Proof.
  intros Hok HI Hrun.
  destruct (pres_run _ _ _ _ _ (pres_run_events plog server_funcs rand evs Hok) Hrun es HI)
    as (es' & [Hrep Hidx (_ & _ & Hr & Ht & Hh & Hd)] & Hf & Hc & Ha & Hat).
  exists es'. split_and!; try done. by apply Forall_forall.
Qed.
End safe.

(** A device that always has a buffer, drops what is sent and takes what is
    enqueued, and a lone server on it with two clients' requests waiting. *)
Definition blank_mbuf : rte_mbuf :=
  mk_mbuf (mk_ether 0 0 0) (mk_ip 0 0 0 0 0 0 0 0 0 0) [] 2000 0 0 0 0 0 128.
Definition demo_rpc (client : Z) : rpc_t := mk_rpc 1 0 0 1 client 0 0 0 0 0 [] (0, 0) [].
Definition demo_packet (client : Z) : packet :=
  mk_packet blank_mbuf (mk_ae_hdr 0 0 0 0 0 0 0 zero_entry) (mk_wal 0 0 0 false)
    [[demo_rpc client]].
Definition demo_cyclone : cyclone () := {|
  replicas := 1; c_me := 0; me_quorum := 0; RAFT_LOGENTRIES := 64; router := [0];
  context := mk_context [[0]] 0 1; pm := demo_log; sending_checkpoints := false;
  match_indices := [0]; client_inflight := ∅; core_checkpoint := [-1];
  packets := <[1000 := demo_packet 5]> (<[2000 := demo_packet 6]> ∅); durable := ∅;
  ae_responses := []; ae_nack_term := -1; ae_nack_idx := 0; ae_nack_ts := 0; nack_timeout := 1000;
  snapshot := 0; nonce_base := 0; dev := tt |}.
Abbreviation demo_funcs :=
  (raft_funcs (λ _, mret (Some blank_mbuf)) (mret (Some blank_mbuf)) (λ _, mret (Some 3000))
     (λ _ _, mret tt) (λ _, mret tt) (λ _ _, mret 0) (λ _ _ _ _, mret 0) (λ _ _ _, mret 0)
     (λ _, []) zero_entry (demo_rpc 0) (demo_packet 0) (λ _, 0)).
Definition server_events : list event :=
  [EvAddNode 0 0 true; EvSetLogTarget 1; EvPeriodic 10;
   EvEntryBatch [zero_entry <| data_buf := 1000 |>; zero_entry <| data_buf := 2000 |>] true;
   EvPeriodic 10].
Definition server_start : rstate (cyclone ()) := mk_rstate raft_new ∅ 0 0 demo_cyclone.
Definition server_end : rstate (cyclone ()) :=
  default server_start (final (run_events demo_funcs (λ _, 0) server_events) server_start).

Lemma server_start_linv : linv plog [] server_start.
Proof.
  split; [apply log_new_rep|split; simpl; lia|]. unfold plog. simpl. split_and!; try done.
  apply demo_ring.
Qed.

Lemma server_log_persistent_witness :
  commit_idx (srv server_end) = 2 ∧ p_tail (nvm (pm (world server_end))) = 2
  ∧ ∃ es', log_rep (log (srv server_end)) es' ∧ ∀ e, e ∈ es' → pkt e ∈ durable (world server_end).
Proof.
  split; [vm_compute; reflexivity|]. split; [vm_compute; reflexivity|].
  destruct (server_log_persistent (λ _, mret (Some blank_mbuf)) (mret (Some blank_mbuf))
    (λ _, mret (Some 3000)) (λ _ _, mret tt) (λ _, mret tt) (λ _ _, mret 0) (λ _ _ _ _, mret 0)
    (λ _ _ _, mret 0) (λ _, []) zero_entry (demo_rpc 0) (demo_packet 0) (λ _, 0)
    server_events [] server_start server_end ltac:(repeat constructor) server_start_linv
    ltac:(vm_compute; reflexivity)) as (es' & Hrep & _ & _ & _ & _ & _ & _ & _ & _ & Hd).
  by exists es'.
Defined.
