(* ===== verification/Rendezvous.v ===== *)
(** The rendezvous of the executor threads for requests on several cores
    (wait_barrier_leader, wait_barrier_follower and check_terms of
    core/cyclone.hpp).

    The lowest core of the request's mask leads.  It publishes the request's
    nonce under a sequence lock, waits until all cores of the mask have set their
    bit in [barrier[0]], setting the bits of those that have moved to a newer
    term itself, and then waits for [barrier[1]].  Threads are program counters
    over the shared record; a step is one access to shared memory, and steps of
    all threads interleave. *)

From stdpp Require Import functions relations.
From S2P Require Import Prelude Cyclone.

(** The fields of the leader's [core_status_t], with the executed terms of all
    cores; the nonce is the pair [mc_id], [rtc_ts]. *)
Record shared := mk_shared {
  exec_term : Z → Z;
  stable : Z;
  mc_id : Z;
  rtc_ts : Z;
  success : Z;
  barrier0 : Z;
  barrier1 : Z
}.
#[export] Instance shared_fields : FieldsOf shared :=
  λ r, mk_shared (exec_term r) (stable r) (mc_id r) (rtc_ts r) (success r) (barrier0 r) (barrier1 r).

(** Where the leader is.  [failed] is the local [failed_mask]; in [LCheck i acc]
    the loop of [check_terms] is about to look at core [i]. *)
Inductive lpc :=
| LEnter | LMcId | LTs | LSuccess | LBarrier0 | LBarrier1 | LPublish | LArrive
| LTest (failed : Z)
| LCheck (i : Z) (acc : Z)
| LFail (failed : Z)
| LRaise (failed : Z)
| LLeave (failed : Z)
| LLeaveFailed (failed : Z)
| LWait (failed : Z)
| LDone (result : Z).

(** Where a follower is.  [FRefused] is the early [return 0], [FDone] the
    [return success] at the end. *)
Inductive fpc :=
| FOut
| FTerm | FStable
| FMcId (s : Z) | FTs (s : Z) | FRecheck (s : Z)
| FArrive | FWait | FRead
| FLeave (v : Z)
| FRefused
| FDone (v : Z).

#[export] Instance fpc_eq_dec : EqDecision fpc.
Proof. solve_decision. Defined.

Section rendezvous.
(** [executor_threads], the request's mask with its lowest core, the terms behind
    the request by quorum and its nonce. *)
Context (executor_threads leader mask : Z) (snapshot : Z → Z) (nonce_mc nonce_ts : Z).

Definition bit (i : Z) : Z := Z.shiftl 1 i.

(** The comparisons of [unsigned] terms with [int] ones are unsigned. *)
Definition term_passed (i : Z) (s : shared) : bool :=
  u32 (snapshot (core_to_quorum i)) <? u32 (exec_term s i).

Definition leader_step (pc : lpc) (s : shared) : option (lpc * shared) :=
  match pc with
  | LEnter => Some (LMcId, s <| stable := stable s + 1 |>)
  | LMcId => Some (LTs, s <| mc_id := nonce_mc |>)
  | LTs => Some (LSuccess, s <| rtc_ts := nonce_ts |>)
  | LSuccess => Some (LBarrier0, s <| success := 1 |>)
  | LBarrier0 => Some (LBarrier1, s <| barrier0 := 0 |>)
  | LBarrier1 => Some (LPublish, s <| barrier1 := 0 |>)
  | LPublish => Some (LArrive, s <| stable := stable s + 1 |>)
  | LArrive => Some (LTest 0, s <| barrier0 := Z.lor (barrier0 s) (bit leader) |>)
  | LTest f => Some (if barrier0 s =? mask then LLeave f else LCheck 0 0, s)
  | LCheck i acc =>
    if i <? executor_threads
    then Some (LCheck (i + 1) (if term_passed i s then Z.lor acc (bit i) else acc), s)
    else Some (LFail (Z.land acc mask), s)
  | LFail f => if f =? 0 then Some (LTest f, s) else Some (LRaise f, s <| success := 0 |>)
  | LRaise f => Some (LTest f, s <| barrier0 := Z.lor (barrier0 s) f |>)
  | LLeave f => Some (LLeaveFailed f, s <| barrier1 := Z.lor (barrier1 s) (bit leader) |>)
  | LLeaveFailed f => Some (LWait f, s <| barrier1 := Z.lor (barrier1 s) f |>)
  | LWait f =>
    Some (if barrier1 s =? mask then LDone (if f =? 0 then 1 else 0) else LWait f, s)
  | LDone _ => None
  end.

Definition follower_step (core_id : Z) (pc : fpc) (s : shared) : option (fpc * shared) :=
  match pc with
  | FOut => None
  | FTerm => Some (if u32 (snapshot (core_to_quorum leader)) <? u32 (exec_term s leader)
                   then FRefused else FStable, s)
  | FStable => Some (if Z.odd (stable s) then FTerm else FMcId (stable s), s)
  | FMcId st => Some (if mc_id s =? nonce_mc then FTs st else FTerm, s)
  | FTs st => Some (if rtc_ts s =? nonce_ts then FRecheck st else FTerm, s)
  | FRecheck st => Some (if st =? stable s then FArrive else FTerm, s)
  | FArrive => Some (FWait, s <| barrier0 := Z.lor (barrier0 s) (bit core_id) |>)
  | FWait => Some (if barrier0 s =? mask then FRead else FWait, s)
  | FRead => Some (FLeave (success s), s)
  | FLeave v => Some (FDone v, s <| barrier1 := Z.lor (barrier1 s) (bit core_id) |>)
  | FRefused => None
  | FDone _ => None
  end.

(** ** All cores together *)
Record sys := mk_sys { sh : shared; led : lpc; flw : Z → fpc }.

Definition follower (i : Z) : Prop := Z.testbit mask i = true ∧ i ≠ leader ∧ 0 ≤ i.
Definition past_loop (pc : lpc) : bool :=
  match pc with LLeave _ | LLeaveFailed _ | LWait _ | LDone _ => true | _ => false end.

(** A core runs other requests, and so may move to a newer term, while it is
    outside the rendezvous: not part of it, not yet in it, or back from it.  In a
    [quiet] run a core that is back does so only once the leader is past its
    loop. *)
Definition outside (quiet : bool) (s : sys) (i : Z) : bool :=
  if negb (Z.testbit mask i) then true
  else if i =? leader then match led s with LDone _ => true | _ => false end
  else match flw s i with
       | FOut | FRefused => true
       | FDone _ => negb quiet || past_loop (led s)
       | _ => false
       end.

(** A core enters at the term of the request: terms are those of the log and a
    core executes its requests in the order of the log. *)
Inductive step (quiet : bool) : sys → sys → Prop :=
| step_leader s l h :
    leader_step (led s) (sh s) = Some (l, h) → step quiet s (mk_sys h l (flw s))
| step_enter s i :
    follower i → flw s i = FOut → term_passed i (sh s) = false →
    step quiet s (mk_sys (sh s) (led s) (<[i := FTerm]> (flw s)))
| step_follower s i f h :
    follower i → follower_step i (flw s i) (sh s) = Some (f, h) →
    step quiet s (mk_sys h (led s) (<[i := f]> (flw s)))
| step_term s i t :
    outside quiet s i = true → exec_term (sh s) i < t ≤ INT_MAX →
    step quiet s (mk_sys (sh s <| exec_term := <[i := t]> (exec_term (sh s)) |>) (led s) (flw s)).

Record start (s : sys) : Prop := {
  start_led : led s = LEnter;
  start_flw : ∀ i, flw s i = FOut;
  start_term : ∀ i, 0 ≤ exec_term (sh s) i ≤ INT_MAX;
  start_leader : term_passed leader (sh s) = false;
  start_stable : Z.even (stable (sh s)) = true ∧ stable (sh s) + 2 ≤ INT_MAX;
  start_nonce : ¬ (mc_id (sh s) = nonce_mc ∧ rtc_ts (sh s) = nonce_ts)
}.
Context (Hleader : 0 ≤ leader) (Hpos : 0 ≤ mask) (Hmask : Z.testbit mask leader = true)
  (Hcores : ∀ i, Z.testbit mask i = true → 0 ≤ i → i < executor_threads).

(** ** The invariant *)
Definition published (pc : lpc) : bool :=
  match pc with
  | LEnter | LMcId | LTs | LSuccess | LBarrier0 | LBarrier1 | LPublish => false
  | _ => true
  end.
Definition joined (pc : lpc) : bool := match pc with LArrive => false | _ => published pc end.
(** [barrier[0]] belongs to this round. *)
Definition reset (pc : lpc) : bool :=
  match pc with LBarrier1 | LPublish => true | _ => published pc end.
Definition arrived (f : fpc) : bool :=
  match f with FWait | FRead | FLeave _ | FDone _ => true | _ => false end.
Definition result (f : fpc) : option Z :=
  match f with FLeave v | FDone v => Some v | _ => None end.

(** Some core of the mask has moved past the request's terms. *)
Definition some_passed (h : shared) : Prop :=
  ∃ j, Z.testbit mask j = true ∧ term_passed j h = true.
Definition in_mask (f : Z) : Prop := ∀ j, Z.testbit f j = true → Z.testbit mask j = true.

Definition seq_ok (s0 : Z) (pc : lpc) (h : shared) : Prop :=
  match pc with
  | LEnter => stable h = s0 ∧ ¬ (mc_id h = nonce_mc ∧ rtc_ts h = nonce_ts)
  | _ => stable h = if published pc then s0 + 2 else s0 + 1
  end.

Definition failed_ok (pc : lpc) (h : shared) : Prop :=
  match pc with
  | LEnter | LMcId | LTs | LSuccess => True
  | LBarrier0 | LBarrier1 | LPublish | LArrive => success h = 1
  | LTest f | LLeave f | LLeaveFailed f | LWait f =>
    (success h = 1 ∧ f = 0) ∨ (success h = 0 ∧ f ≠ 0 ∧ in_mask f ∧ some_passed h)
  | LCheck i acc =>
    (∀ j, Z.testbit acc j = true → term_passed j h = true) ∧ 0 ≤ i
    ∧ (success h = 1 ∨ success h = 0 ∧ ∃ j, Z.testbit mask j = true ∧ term_passed j h = true
         ∧ (j < i → Z.testbit acc j = true))
  | LFail f =>
    in_mask f ∧ (f ≠ 0 → some_passed h) ∧ (success h = 1 ∨ success h = 0 ∧ f ≠ 0)
  | LRaise f => success h = 0 ∧ f ≠ 0 ∧ in_mask f ∧ some_passed h
  | LDone r => (success h = 1 ∧ r = 1) ∨ (success h = 0 ∧ r = 0)
  end.

Definition follower_ok (s0 : Z) (pc : lpc) (h : shared) (f : fpc) : Prop :=
  let st_ok st := st = s0 ∨ published pc = true ∧ st = s0 + 2 in
  match f with
  | FMcId st => st_ok st
  | FTs st => st_ok st ∧ (pc = LEnter → mc_id h = nonce_mc)
  | FRecheck st => st_ok st ∧ pc ≠ LEnter
  | FArrive | FWait => published pc = true
  | FRead => published pc = true ∧ barrier0 h = mask
  | FLeave v | FDone v => published pc = true ∧ barrier0 h = mask ∧ (v = 1 ∨ v = 0 ∧ success h = 0)
  | _ => True
  end.

(** Who has set a bit of [barrier[0]]. *)
Definition bits_ok (pc : lpc) (h : shared) (fs : Z → fpc) : Prop :=
  reset pc = true → ∀ j, Z.testbit (barrier0 h) j = true →
  Z.testbit mask j = true
  ∧ (j = leader ∧ joined pc = true ∨ j ≠ leader ∧ arrived (fs j) = true ∨ success h = 0).

Definition everyone (pc : lpc) (fs : Z → fpc) : Prop :=
  joined pc = true ∧ ∀ j, Z.testbit mask j = true → j ≠ leader → arrived (fs j) = true.

Record inv (quiet : bool) (s0 : Z) (s : sys) : Prop := {
  inv_terms : ∀ i, 0 ≤ exec_term (sh s) i ≤ INT_MAX;
  inv_leader : match led s with LDone _ => True | _ => term_passed leader (sh s) = false end;
  inv_seq : seq_ok s0 (led s) (sh s);
  inv_failed : failed_ok (led s) (sh s);
  inv_follower : ∀ i, follower_ok s0 (led s) (sh s) (flw s i);
  inv_bits : bits_ok (led s) (sh s) (flw s);
  inv_everyone :
    (∃ i, result (flw s i) = Some 1) ∨ past_loop (led s) = true ∧ success (sh s) = 1 →
    everyone (led s) (flw s);
  inv_quiet : quiet = true →
    (past_loop (led s) = false → ∀ j, Z.testbit mask j = true → term_passed j (sh s) = true →
       flw s j = FOut ∨ flw s j = FRefused)
    ∧ (success (sh s) = 0 → published (led s) = true →
       ∀ i v, result (flw s i) = Some v → v = 0)
}.

Lemma start_inv quiet s : start s → inv quiet (stable (sh s)) s.
Proof.
  intros [Hl Hf Ht Hp [Hst _] Hn]. split; rewrite ?Hl; try done.
  - intros i. by rewrite Hf.
  - intros [[i Hi]|[? _]]; [by rewrite Hf in Hi|done].
  - intros _. split; [by left|done].
Qed.

Lemma testbit_bit i j : 0 ≤ i → Z.testbit (bit i) j = (i =? j).
Proof.
  intros Hi. unfold bit. rewrite Z.shiftl_1_l.
  destruct (Z.leb_spec 0 j); [by apply Z.pow2_bits_eqb|].
  rewrite Z.testbit_neg_r by done. lia.
Qed.
Lemma testbit_nonneg a j : Z.testbit a j = true → 0 ≤ j.
Proof. intros H. destruct (Z.leb_spec 0 j); [done|]. by rewrite Z.testbit_neg_r in H. Qed.
Lemma in_mask_bit i : 0 ≤ i → Z.testbit mask i = true → in_mask (bit i).
Proof. intros Hi Hm j Hj. rewrite testbit_bit in Hj by done. by replace j with i by lia. Qed.
Lemma lor_mask b f : b = mask → in_mask f → Z.lor b f = mask.
Proof.
  intros -> Hf. apply Z.bits_inj. intros j. rewrite Z.lor_spec. specialize (Hf j).
  destruct (Z.testbit mask j), (Z.testbit f j); naive_solver.
Qed.

(** [barrier[0]] gains bits of the mask. *)
Lemma follower_ok_lor s0 pc h f x :
  in_mask x → follower_ok s0 pc h f → follower_ok s0 pc (h <| barrier0 := Z.lor (barrier0 h) x |>) f.
Proof.
  intros Hx. destruct f; simpl; try done.
  - intros [? ?]. eauto using lor_mask.
  - intros (? & ? & ?). eauto using lor_mask.
  - intros (? & ? & ?). eauto using lor_mask.
Qed.
Lemma bits_ok_lor pc h fs x :
  bits_ok pc h fs →
  (∀ j, Z.testbit x j = true → Z.testbit mask j = true
     ∧ (j = leader ∧ joined pc = true ∨ j ≠ leader ∧ arrived (fs j) = true ∨ success h = 0)) →
  bits_ok pc (h <| barrier0 := Z.lor (barrier0 h) x |>) fs.
Proof.
  intros Hb Hx Hr j. simpl. rewrite Z.lor_spec, orb_true_iff. intros [|]; auto.
Qed.
Lemma everyone_lor_mask pc h fs :
  bits_ok pc h fs → reset pc = true → barrier0 h = mask → success h ≠ 0 → everyone pc fs.
Proof.
  intros Hb Hr Hm Hs. split.
  - destruct (Hb Hr leader) as [_ Hj]; [by rewrite Hm|]. naive_solver.
  - intros j Hj Hne. destruct (Hb Hr j) as [_ Hj']; [by rewrite Hm|]. naive_solver.
Qed.

(** *** Steps of the leader *)
Lemma leader_seq s0 pc h l h' :
  leader_step pc h = Some (l, h') → seq_ok s0 pc h → seq_ok s0 l h'.
Proof.
  destruct pc; simpl; intros [= <- <-] || (repeat case_match; intros [= <- <-]); simpl;
    repeat case_match; simpl; lia.
Qed.

Lemma check_acc i acc h j :
  0 ≤ i → Z.testbit (if term_passed i h then Z.lor acc (bit i) else acc) j = true →
  Z.testbit acc j = true ∨ j = i ∧ term_passed i h = true.
Proof.
  intros Hi. destruct (term_passed i h); [|auto].
  rewrite Z.lor_spec, orb_true_iff, testbit_bit by done. intros [?|?]; [auto|right]. split; [lia|done].
Qed.
Lemma check_acc_keeps i acc h j :
  0 ≤ i → Z.testbit acc j = true ∨ j = i ∧ term_passed i h = true →
  Z.testbit (if term_passed i h then Z.lor acc (bit i) else acc) j = true.
Proof.
  intros Hi H. destruct (term_passed i h) eqn:Hp; [|naive_solver].
  rewrite Z.lor_spec, orb_true_iff, testbit_bit by done. destruct H as [|[-> _]]; [auto|right; lia].
Qed.

Lemma leader_failed pc h l h' :
  leader_step pc h = Some (l, h') → failed_ok pc h → failed_ok l h'.
Proof.
  destruct pc as [| | | | | | | |f|i acc|f|f|f|f|f|r]; simpl; try (intros [= <- <-]; done).
  - intros [= <- <-] ->. by left.
  - intros [= <- <-]. destruct (_ =? mask); [done|]. simpl.
    intros [[-> ->]|(Hs & _ & _ & j & Hm & Hp)]; (split_and!; [|lia|]).
    1, 3: intros j'; by rewrite Z.bits_0.
    + by left.
    + right. split; [done|]. exists j. split_and!; [done..|]. apply testbit_nonneg in Hm. lia.
  - destruct (Z.ltb_spec i executor_threads) as [Hi|Hi]; intros [= <- <-] (Hacc & H0 & Hs); simpl.
    + split_and!; [|lia|].
      * intros j [|[-> ?]]%check_acc; auto.
      * destruct Hs as [|(? & j & ? & Hp & Hj)]; [by left|right]. split; [done|]. exists j.
        split_and!; [done..|]. intros Hlt. apply check_acc_keeps; [done|].
        destruct (Z.eq_dec j i) as [->|]; [auto|left; apply Hj; lia].
    + assert (∀ j, Z.testbit (Z.land acc mask) j = true →
        Z.testbit acc j = true ∧ Z.testbit mask j = true) as Hl.
      { intros j. by rewrite Z.land_spec, andb_true_iff. }
      split_and!; [intros j Hj; by apply Hl| |].
      * intros Hne. pose proof (proj2 (Z.land_nonneg acc mask) (or_intror Hpos)).
        destruct (Hl _ (Z.bit_log2 (Z.land acc mask) ltac:(lia))). eexists; eauto.
      * destruct Hs as [|(? & j & Hm & Hp & Hj)]; [by left|right]. split; [done|]. intros Hz.
        assert (Z.testbit (Z.land acc mask) j = true) as Hb.
        { rewrite Z.land_spec, Hm, Hj; [done|]. pose proof (Hcores j Hm (testbit_nonneg _ _ Hm)). lia. }
        by rewrite Hz, Z.bits_0 in Hb.
  - destruct (Z.eqb_spec f 0) as [->|]; intros [= <- <-] (Hm & Hp & Hs); simpl; naive_solver.
  - intros [= <- <-] (? & ? & ? & ?). simpl. naive_solver.
  - intros [= <- <-]. destruct (_ =? mask); [|done]. simpl. destruct (Z.eqb_spec f 0); naive_solver.
Qed.

Lemma leader_follower s0 pc h l h' f :
  leader_step pc h = Some (l, h') → failed_ok pc h → follower_ok s0 pc h f →
  follower_ok s0 l h' f.
Proof.
  destruct pc as [| | | | | | | |g|i acc|g|g|g|g|g|r]; simpl; try done; intros Hstep Hfail Hf.
  1-7: injection Hstep as <- <-; destruct f; simpl in *; naive_solver.
  - injection Hstep as <- <-. assert (follower_ok s0 (LTest 0) h f) by (destruct f; naive_solver).
    apply follower_ok_lor; [|done]. by apply in_mask_bit.
  - injection Hstep as <- <-. case_match; destruct f; naive_solver.
  - case_match; injection Hstep as <- <-; destruct f; naive_solver.
  - case_match; injection Hstep as <- <-; destruct f; simpl in *; naive_solver.
  - injection Hstep as <- <-. assert (follower_ok s0 (LTest g) h f) by (destruct f; naive_solver).
    apply follower_ok_lor; [|done]. by destruct Hfail as (_ & _ & ? & _).
  - injection Hstep as <- <-. destruct f; naive_solver.
  - injection Hstep as <- <-. destruct f; naive_solver.
  - injection Hstep as <- <-. case_match; destruct f; naive_solver.
Qed.

Lemma leader_pc pc h l h' :
  leader_step pc h = Some (l, h') →
  (joined pc = true → joined l = true) ∧ (past_loop l = false → past_loop pc = false)
  ∧ exec_term h' = exec_term h ∧ match pc with LDone _ => False | _ => True end
  ∧ (published l = true → published pc = true ∨ pc = LPublish).
Proof.
  destruct pc; simpl; try done; intros Hstep; repeat case_match; simplify_eq; simpl; auto 10.
Qed.

Lemma leader_bits pc h l h' fs :
  leader_step pc h = Some (l, h') → failed_ok pc h → bits_ok pc h fs → bits_ok l h' fs.
Proof.
  destruct pc as [| | | | | | | |g|i acc|g|g|g|g|g|r]; simpl; try done; intros Hstep Hfail Hb.
  1-7: injection Hstep as <- <-; try done.
  - intros _ j. simpl. by rewrite Z.bits_0.
  - injection Hstep as <- <-. apply bits_ok_lor.
    + intros _ j Hj. destruct (Hb eq_refl j Hj). naive_solver.
    + intros j Hj. rewrite testbit_bit in Hj by done. replace j with leader by lia. naive_solver.
  - injection Hstep as <- <-. by case_match.
  - case_match; injection Hstep as <- <-; done.
  - case_match; injection Hstep as <- <-; [done|]. intros _ j Hj. destruct (Hb eq_refl j Hj). naive_solver.
  - injection Hstep as <- <-. apply bits_ok_lor; [done|]. intros j Hj. naive_solver.
  - by injection Hstep as <- <-.
  - by injection Hstep as <- <-.
  - injection Hstep as <- <-. by case_match.
Qed.

(** In a quiet run the leader finds a failure only while nobody has been told
    of success. *)
Lemma leader_fails_in_time quiet s0 s f :
  inv quiet s0 s → quiet = true → led s = LFail f → f ≠ 0 →
  ∀ i v, result (flw s i) = Some v → v = 0.
Proof.
  intros [_ Hl _ Hf Hfl _ He Hq] Hquiet Hled Hne i v Hv. rewrite Hled in *.
  assert (v = 1 ∨ v = 0) as Hv01 by (specialize (Hfl i); destruct (flw s i); naive_solver).
  destruct Hv01 as [->|]; [|done].
  destruct (He (or_introl (ex_intro _ i Hv))) as [_ Hall].
  destruct Hf as (_ & Hp & _). destruct (Hp Hne) as (j & Hm & Hj).
  destruct (Z.eq_dec j leader) as [->|Hjl]; [congruence|].
  destruct (Hq Hquiet) as [Hout _]. specialize (Hall j Hm Hjl).
  destruct (Hout eq_refl j Hm Hj) as [Hf|Hf]; by rewrite Hf in Hall.
Qed.

Lemma leader_leaves s l h :
  leader_step (led s) (sh s) = Some (l, h) → past_loop l = true → success h = 1 →
  bits_ok (led s) (sh s) (flw s) →
  (past_loop (led s) = true → success (sh s) = 1 → everyone (led s) (flw s)) →
  everyone (led s) (flw s).
Proof.
  intros Hstep Hp Hs Hb He.
  destruct (led s); simpl in *; repeat case_match; simplify_eq; simpl in *; auto; try done.
  apply (everyone_lor_mask _ (sh s)); [done|done|lia|congruence].
Qed.

Lemma inv_leader_step quiet s0 s l h :
  leader_step (led s) (sh s) = Some (l, h) → inv quiet s0 s → inv quiet s0 (mk_sys h l (flw s)).
Proof.
  intros Hstep HI. pose proof HI as [Ht Hl Hs Hf Hfl Hb He Hq].
  destruct (leader_pc _ _ _ _ Hstep) as (Hj & Hpl & Hterm & Hnd & Hpub).
  assert (∀ j, term_passed j h = term_passed j (sh s)) as Hpass.
  { intros j. unfold term_passed. by rewrite Hterm. }
  split; simpl.
  - by rewrite Hterm.
  - rewrite Hpass. destruct (led s); [..|done]; destruct l; done.
  - by eapply leader_seq.
  - by eapply leader_failed.
  - intros i. by eapply leader_follower.
  - by eapply leader_bits.
  - intros Hsome. assert (everyone (led s) (flw s)) as [? ?]; [|split; auto].
    destruct Hsome as [Hi|[Hp Hs1]]; [by apply He; left|].
    eapply leader_leaves; [done..|]. intros. apply He. by right.
  - intros Hquiet. destruct (Hq Hquiet) as [Hq1 Hq2]. split.
    + intros Hp j. rewrite Hpass. auto.
    + intros Hs0 Hpl' i v Hv. destruct (Hpub Hpl') as [Hp|Hp].
      * destruct (led s) eqn:Hled; simpl in Hstep; try done;
          try (repeat case_match; simplify_eq; simpl in *; eauto; fail).
        destruct (Z.eqb_spec failed 0); simplify_eq; [eauto|].
        by eapply (leader_fails_in_time _ _ s).
      * rewrite Hp in *. simpl in *. simplify_eq. simpl in *. lia.
Qed.

(** *** Steps of a follower *)
Lemma inv_enter_step quiet s0 s i :
  follower i → flw s i = FOut → term_passed i (sh s) = false → inv quiet s0 s →
  inv quiet s0 (mk_sys (sh s) (led s) (<[i := FTerm]> (flw s))).
Proof.
  intros (Him & Hil & _) Hout Hp [Ht Hl Hs Hf Hfl Hb He Hq]. split; simpl; try done.
  - intros k. destruct (decide (i = k)) as [<-|]; [by rewrite fn_lookup_insert|].
    by rewrite fn_lookup_insert_ne.
  - intros Hr j Hj. destruct (Hb Hr j Hj) as [Hm Hj']. split; [done|].
    destruct (decide (i = j)) as [<-|]; [|by rewrite fn_lookup_insert_ne].
    rewrite Hout in Hj'. simpl in Hj'. naive_solver.
  - intros Hsome. assert (everyone (led s) (flw s)) as [_ Hall].
    { apply He. destruct Hsome as [[k Hk]|?]; [left|by right]. exists k.
      destruct (decide (i = k)) as [<-|]; [by rewrite fn_lookup_insert in Hk|].
      by rewrite fn_lookup_insert_ne in Hk. }
    specialize (Hall i Him Hil). by rewrite Hout in Hall.
  - intros Hquiet. destruct (Hq Hquiet) as [Hq1 Hq2]. split.
    + intros Hpl j Hm Hj. destruct (decide (i = j)) as [<-|]; [congruence|].
      rewrite fn_lookup_insert_ne by done. auto.
    + intros Hs0 Hpub k v. destruct (decide (i = k)) as [<-|]; [by rewrite fn_lookup_insert|].
      rewrite fn_lookup_insert_ne by done. eauto.
Qed.

Lemma follower_frame i f h f' h' :
  follower_step i f h = Some (f', h') →
  exec_term h' = exec_term h ∧ success h' = success h ∧ stable h' = stable h
  ∧ mc_id h' = mc_id h ∧ rtc_ts h' = rtc_ts h ∧ (arrived f = true → arrived f' = true)
  ∧ f ≠ FOut ∧ f ≠ FRefused
  ∧ (barrier0 h' = barrier0 h ∨ f = FArrive ∧ f' = FWait ∧ barrier0 h' = Z.lor (barrier0 h) (bit i)).
Proof.
  destruct f; simpl; try done; intros Hstep; repeat case_match; simplify_eq; simpl; auto 20.
Qed.

(** A follower's own assertion, and the result it reads. *)
Lemma follower_self s0 i pc f h f' h' :
  follower_step i f h = Some (f', h') → Z.even s0 = true → seq_ok s0 pc h → failed_ok pc h →
  follower_ok s0 pc h f → follower_ok s0 pc h' f'.
Proof.
  intros Hstep Heven. destruct f; simpl in Hstep; try done; repeat case_match; simplify_eq;
    intros Hs Hfail Hf; cbn in Hf |- *; try done; try lia.
  - destruct pc; simpl in *; (left; lia) || (right; split; [done|lia])
      || (exfalso; rewrite Hs, Z.add_1_r, Z.odd_succ in *; congruence).
  - split; [apply Hf|]. intros ->. destruct Hs as [_ Hs]. apply Hs. split; [by apply Hf|lia].
  - destruct Hf as [[Hst|[? _]] Hne]; [|done]. destruct pc; simpl in *; done || lia.
  - destruct Hf as [Hpub Hm]. split_and!; [done..|]. destruct pc; simpl in *; done || lia.
Qed.

Lemma follower_result i f h f' h' v :
  follower_step i f h = Some (f', h') → result f' = Some v →
  result f = Some v ∨ f = FRead ∧ v = success h.
Proof. destruct f; simpl; try done; intros Hstep; repeat case_match; simplify_eq; simpl; naive_solver. Qed.

Lemma everyone_insert pc fs i f :
  (arrived (fs i) = true → arrived f = true) → everyone pc fs → everyone pc (<[i := f]> fs).
Proof.
  intros Ha [Hj Hall]. split; [done|]. intros j Hm Hne. specialize (Hall j Hm Hne).
  destruct (decide (i = j)) as [<-|]; [rewrite fn_lookup_insert; auto|by rewrite fn_lookup_insert_ne].
Qed.

Lemma follower_ok_ext s0 pc h h' f :
  mc_id h' = mc_id h → barrier0 h' = barrier0 h → success h' = success h →
  follower_ok s0 pc h f → follower_ok s0 pc h' f.
Proof. destruct f; simpl; intros Hm Hb Hs; rewrite ?Hm, ?Hb, ?Hs; done. Qed.

Lemma follower_bits pc i h fs f h' :
  follower i → follower_step i (fs i) h = Some (f, h') → bits_ok pc h fs →
  bits_ok pc h' (<[i := f]> fs).
Proof.
  intros (Him & Hil & Hi) Hstep Hb Hr j Hj.
  destruct (follower_frame _ _ _ _ _ Hstep) as (_ & Hsu & _ & _ & _ & Harr & _ & _ & Hbar).
  assert (Z.testbit (barrier0 h) j = true ∨ j = i ∧ arrived f = true) as [Hold|[-> Hf]].
  { destruct Hbar as [<-|(_ & -> & Hbar)]; [auto|]. rewrite Hbar, Z.lor_spec, testbit_bit in Hj by done.
    apply orb_true_iff in Hj as [|]; [auto|right]. split; [lia|done]. }
  - destruct (Hb Hr j Hold) as [Hm Hj']. split; [done|]. rewrite Hsu.
    destruct (decide (i = j)) as [<-|]; [rewrite fn_lookup_insert|rewrite fn_lookup_insert_ne by done];
      naive_solver.
  - split; [done|]. right. left. by rewrite fn_lookup_insert.
Qed.

Lemma inv_follower_step quiet s0 s i f h :
  follower i → follower_step i (flw s i) (sh s) = Some (f, h) → Z.even s0 = true →
  inv quiet s0 s → inv quiet s0 (mk_sys h (led s) (<[i := f]> (flw s))).
Proof.
  intros (Him & Hil & Hi) Hstep Heven [Ht Hl Hs Hf Hfl Hb He Hq].
  destruct (follower_frame _ _ _ _ _ Hstep) as (Hte & Hsu & Hst & Hmc & Hts & Harr & Hno & Hnr & Hbar).
  assert (∀ j, term_passed j h = term_passed j (sh s)) as Hpass.
  { intros j. unfold term_passed. by rewrite Hte. }
  assert (everyone (led s) (flw s) → everyone (led s) (<[i := f]> (flw s))) as Hev
    by (by apply everyone_insert).
  assert (∀ g, follower_ok s0 (led s) (sh s) g → follower_ok s0 (led s) h g) as Hoth.
  { intros g Hg. destruct Hbar as [Hbar|(_ & _ & Hbar)]; [by eapply follower_ok_ext|].
    eapply follower_ok_ext; [| | |apply (follower_ok_lor s0 (led s) (sh s) g (bit i)), Hg];
      [done..|by apply in_mask_bit]. }
  assert (∀ k v, result ((<[i := f]> (flw s)) k) = Some v →
    result (flw s k) = Some v ∨ flw s i = FRead ∧ v = success (sh s)) as Hres.
  { intros k v. destruct (decide (i = k)) as [<-|]; [|rewrite fn_lookup_insert_ne by done; auto].
    rewrite fn_lookup_insert. by eapply follower_result. }
  split; simpl.
  - by rewrite Hte.
  - by rewrite Hpass.
  - revert Hs. unfold seq_ok. by rewrite Hst, Hmc, Hts.
  - revert Hf. destruct (led s); simpl; unfold some_passed; rewrite ?Hsu;
      try setoid_rewrite Hpass; done.
  - intros k. destruct (decide (i = k)) as [<-|].
    + rewrite fn_lookup_insert. by eapply follower_self.
    + rewrite fn_lookup_insert_ne by done. auto.
  - by eapply follower_bits.
  - rewrite Hsu. intros Hsome. apply Hev. destruct Hsome as [[k Hk]|?]; [|by apply He; right].
    destruct (Hres k 1 Hk) as [Hr|[Hr Hs1]]; [apply He; eauto|].
    pose proof (Hfl i) as Hfi. rewrite Hr in Hfi. destruct Hfi as [Hpub Hm].
    apply (everyone_lor_mask _ (sh s)); [done| |done|lia]. by destruct (led s).
  - intros Hquiet. destruct (Hq Hquiet) as [Hq1 Hq2]. split.
    + intros Hpl j Hm. rewrite Hpass. intros Hj. specialize (Hq1 Hpl j Hm Hj).
      destruct (decide (i = j)) as [<-|]; [naive_solver|]. by rewrite fn_lookup_insert_ne.
    + rewrite Hsu. intros Hs0 Hpub k v Hv. destruct (Hres k v Hv) as [Hr|[_ ->]]; eauto.
Qed.

(** *** A core outside moves to a newer term *)
Lemma term_passed_mono j i t h :
  (∀ k, 0 ≤ exec_term h k ≤ INT_MAX) → exec_term h i < t ≤ INT_MAX →
  term_passed j h = true → term_passed j (h <| exec_term := <[i := t]> (exec_term h) |>) = true.
Proof.
  intros Hb Ht. unfold term_passed. simpl. pose proof (Hb j). pose proof (Hb i).
  destruct (decide (i = j)) as [<-|]; [rewrite fn_lookup_insert|by rewrite fn_lookup_insert_ne].
  unfold u32. rewrite (Z.mod_small (exec_term h i)), (Z.mod_small t) by (unfold INT_MAX in *; lia). lia.
Qed.

Lemma failed_ok_mono pc h h' :
  success h' = success h → (∀ j, term_passed j h = true → term_passed j h' = true) →
  failed_ok pc h → failed_ok pc h'.
Proof.
  intros Hs Hp. assert (some_passed h → some_passed h') as Hsome.
  { intros (j & Hm & Hj). exists j. auto. }
  destruct pc; simpl; rewrite ?Hs; try done; try tauto.
  intros (Hacc & ? & Hor). split_and!; [auto|done|].
  destruct Hor as [|(? & j & ? & ? & ?)]; [by left|right]. split; [done|]. exists j. auto.
Qed.

Lemma inv_term_step quiet s0 s i t :
  outside quiet s i = true → exec_term (sh s) i < t ≤ INT_MAX → inv quiet s0 s →
  inv quiet s0 (mk_sys (sh s <| exec_term := <[i := t]> (exec_term (sh s)) |>) (led s) (flw s)).
Proof.
  intros Hout Ht [Hte Hl Hs Hf Hfl Hb He Hq]. pose proof (Hte i) as Hi.
  pose proof (λ j, term_passed_mono j i t (sh s) Hte Ht) as Hmono.
  set (h := sh s <| exec_term := <[i := t]> (exec_term (sh s)) |>) in *.
  assert (∀ j, i ≠ j → term_passed j h = term_passed j (sh s)) as Hne.
  { intros j Hj. unfold term_passed, h. simpl. by rewrite fn_lookup_insert_ne. }
  split; simpl; try done.
  - intros k. destruct (decide (i = k)) as [<-|]; [rewrite fn_lookup_insert; lia|].
    by rewrite fn_lookup_insert_ne.
  - destruct (decide (i = leader)) as [->|]; [|by rewrite Hne].
    unfold outside in Hout. rewrite Hmask, Z.eqb_refl in Hout. by destruct (led s).
  - revert Hf. apply failed_ok_mono; [done|exact Hmono].
  - intros Hquiet. destruct (Hq Hquiet) as [Hq1 Hq2]. split; [|done].
    intros Hpl j Hm. destruct (decide (i = j)) as [<-|]; [|rewrite Hne by done; auto].
    intros _. unfold outside in Hout. rewrite Hm in Hout. simpl in Hout.
    destruct (i =? leader); [by destruct (led s)|]. rewrite Hpl in Hout. subst quiet.
    destruct (flw s i); auto; done.
Qed.

Lemma inv_step quiet s0 s s' :
  Z.even s0 = true → step quiet s s' → inv quiet s0 s → inv quiet s0 s'.
Proof.
  intros Heven [? ? ? Hstep|? ? Hf Ho Ht|? ? ? ? Hf Hstep|? ? ? Ho Ht];
    eauto using inv_leader_step, inv_enter_step, inv_follower_step, inv_term_step.
Qed.
Lemma inv_rtc quiet s0 s s' :
  Z.even s0 = true → rtc (step quiet) s s' → inv quiet s0 s → inv quiet s0 s'.
Proof. intros Heven. induction 1; eauto using inv_step. Qed.
Lemma inv_reachable quiet s s' :
  start s → rtc (step quiet) s s' → inv quiet (stable (sh s)) s'.
Proof.
  intros Hst Hr. pose proof (start_stable _ Hst) as [Heven _].
  eapply inv_rtc; [done..|by apply start_inv].
Qed.

(** C23: success means that everybody is there.  In every interleaving, if the
    leader or a follower is told that the rendezvous succeeded, then all cores of
    the mask have reached the barrier, and if the leader reports success no
    follower reports failure from the barrier. *)
Theorem rendezvous_success_complete s s' :
  start s → rtc (step false) s s' →
  (∀ i, flw s' i = FDone 1 ∨ led s' = LDone 1 →
    ∀ j, Z.testbit mask j = true → j ≠ leader → arrived (flw s' j) = true)
  ∧ (led s' = LDone 1 → ∀ i v, flw s' i = FDone v → v ≠ 0).
Proof.
  intros Hst Hr. destruct (inv_reachable _ _ _ Hst Hr) as [_ _ _ Hf Hfl Hb He _]. split.
  - intros i [Hi|Hi]; [apply He; left; exists i; by rewrite Hi|].
    apply He. right. rewrite Hi in *. simpl in *. split; [done|lia].
  - intros Hl i v Hi ->. specialize (Hfl i). rewrite Hi, Hl in *. simpl in *. lia.
Qed.

(** C6: the cores agree.  In every interleaving in which a core that has come back
    from the rendezvous moves to a newer term only when the leader has left its
    loop, the leader and all followers that reach the end report the same
    result. *)
Theorem rendezvous_agreement s s' i v r :
  start s → rtc (step true) s s' → led s' = LDone r → flw s' i = FDone v → v = r.
Proof.
  intros Hst Hr Hl Hi. destruct (inv_reachable _ _ _ Hst Hr) as [_ _ _ Hf Hfl _ _ Hq].
  specialize (Hfl i). destruct (Hq eq_refl) as [_ Hq2]. rewrite Hl, Hi in *. simpl in *.
  destruct Hf as [[Hs ->]|[Hs ->]].
  - lia.
  - apply (Hq2 Hs eq_refl i v). by rewrite Hi.
Qed.
End rendezvous.

(** ** Executions

    Two cores, 0 leading 1, for a request of term 5. *)
Section two_cores.
Abbreviation leader_step2 := (leader_step 2 0 3 (λ _, 5) 7 9).
Abbreviation follower_step2 := (follower_step 0 3 (λ _, 5) 7 9).

(** A schedule: who moves, [ATerm] being a move of core 1 to a newer term. *)
Inductive act := ALead | AEnter | AFollow | ATerm (t : Z).
Definition run_act (quiet : bool) (s : sys) (a : act) : option sys :=
  match a with
  | ALead => '(l, h) ← leader_step2 (led s) (sh s); Some (mk_sys h l (flw s))
  | AEnter =>
    if bool_decide (flw s 1 = FOut) && negb (term_passed (λ _, 5) 1 (sh s))
    then Some (mk_sys (sh s) (led s) (<[1 := FTerm]> (flw s))) else None
  | AFollow => '(f, h) ← follower_step2 1 (flw s 1) (sh s); Some (mk_sys h (led s) (<[1 := f]> (flw s)))
  | ATerm t =>
    if outside 0 3 quiet s 1 && (exec_term (sh s) 1 <? t) && (t <=? INT_MAX)
    then Some (mk_sys (sh s <| exec_term := <[1 := t]> (exec_term (sh s)) |>) (led s) (flw s))
    else None
  end.
Fixpoint run_acts (quiet : bool) (s : sys) (l : list act) : option sys :=
  match l with [] => Some s | a :: l => s' ← run_act quiet s a; run_acts quiet s' l end.
Lemma run_act_step quiet s a s' :
  run_act quiet s a = Some s' → step 2 0 3 (λ _, 5) 7 9 quiet s s'.
Proof.
  assert (follower 0 3 1) as H1 by (split_and!; done).
  destruct a as [| | |t]; simpl.
  - destruct (leader_step2 _ _) as [[l h]|] eqn:Hs; [|done]. intros [= <-]. by constructor.
  - case_match eqn:H; [|done]. intros [= <-]. apply andb_true_iff in H as [H ?].
    apply bool_decide_eq_true in H. constructor; [done|done|]. by apply negb_true_iff.
  - destruct (follower_step2 _ _ _) as [[f h]|] eqn:Hs; [|done]. intros [= <-]. by constructor.
  - case_match eqn:H; [|done]. intros [= <-]. constructor; [|lia]. by destruct (outside _ _ _ _ _).
Qed.
Lemma run_acts_steps quiet l s s' :
  run_acts quiet s l = Some s' → rtc (step 2 0 3 (λ _, 5) 7 9 quiet) s s'.
Proof.
  revert s. induction l as [|a l IH]; simpl; intros s.
  - by intros [= ->].
  - destruct (run_act quiet s a) eqn:Ha; [|done]. simpl. eauto using rtc_l, run_act_step.
Qed.

Definition at_rest : sys :=
  mk_sys (mk_shared (λ _, 5) 0 0 0 0 0 0) LEnter (λ _, FOut).
Lemma at_rest_start : start 0 (λ _, 5) 7 9 at_rest.
Proof. split; try done; simpl; lia. Qed.

(** Both meet and succeed. *)
Definition good_run : list act :=
  replicate 8 ALead ++ [AEnter] ++ replicate 9 AFollow ++ replicate 4 ALead.
(** The leader sees the barrier incomplete; core 1 arrives, is told of success and
    goes on to a request of term 6; then the leader looks at the terms. *)
Definition split_run : list act :=
  replicate 9 ALead ++ [AEnter] ++ replicate 9 AFollow ++ [ATerm 6] ++ replicate 9 ALead.
Definition after_acts (quiet : bool) (l : list act) : sys :=
  default at_rest (run_acts quiet at_rest l).
Lemma after_acts_steps quiet l :
  match run_acts quiet at_rest l with Some _ => true | None => false end = true →
  rtc (step 2 0 3 (λ _, 5) 7 9 quiet) at_rest (after_acts quiet l).
Proof.
  unfold after_acts. destruct (run_acts quiet at_rest l) eqn:H; [|done].
  intros _. by apply (run_acts_steps quiet l).
Qed.
End two_cores.

Lemma two_cores_mask i : Z.testbit 3 i = true → 0 ≤ i → i < 2.
Proof.
  intros H Hi. destruct (Z.ltb_spec i 2); [done|]. rewrite Z.bits_above_log2 in H; [done|lia|].
  change (Z.log2 3) with 1. lia.
Qed.

Lemma rendezvous_success_complete_witness :
  led (after_acts false good_run) = LDone 1 ∧ arrived (flw (after_acts false good_run) 1) = true.
Proof.
  split; [by vm_compute|].
  refine (proj1 (rendezvous_success_complete 2 0 3 (λ _, 5) 7 9 _ _ _ two_cores_mask at_rest
    (after_acts false good_run) at_rest_start (after_acts_steps false good_run ltac:(by vm_compute))) 1 _ 1 _ _); try lia; try done.
  right. by vm_compute.
Defined.

Lemma rendezvous_agreement_witness :
  led (after_acts true good_run) = LDone 1 ∧ flw (after_acts true good_run) 1 = FDone 1 ∧ 1 = 1.
Proof.
  split; [by vm_compute|]. split; [by vm_compute|].
  refine (rendezvous_agreement 2 0 3 (λ _, 5) 7 9 _ _ _ two_cores_mask at_rest
    (after_acts true good_run) 1 1 1 at_rest_start (after_acts_steps true good_run ltac:(by vm_compute)) _ _);
    try lia; by vm_compute.
Defined.

(** The rendezvous can split.  When a core that is back from it moves to a
    newer term before the leader has looked at the terms again, the leader takes
    it for one that never came and reports failure, although that core was told
    of success and has run the request. *)
Theorem rendezvous_splits :
  ∃ s', rtc (step 2 0 3 (λ _, 5) 7 9 false) at_rest s'
    ∧ led s' = LDone 0 ∧ flw s' 1 = FDone 1.
Proof.
  exists (after_acts false split_run). split; [|split; by vm_compute].
  apply after_acts_steps. by vm_compute.
Qed.
