(* ===== verification/EventLoop.v ===== *)
(** The event loop of a quorum's thread (core/cyclone_context.hpp): incoming Raft
    messages, coalesced responses, client requests and their batching, and one
    round of [cyclone_monitor].

    The build is the default one, as in [Cyclone].  A received packet is entered
    in [packets] under its address; its Raft message, when it carries one, is
    given by type. *)

From S2P Require Import Prelude RaftNode RaftLog RaftServer CircularLog Comm Cyclone.

Definition RPC_REQ_STABLE : Z := 0.
Definition RPC_REQ_KICKER : Z := 2.
Definition RPC_REQ_NODEADD : Z := 4.
Definition RPC_REQ_NODEDEL : Z := 5.
Definition RPC_FLAG_RO : Z := 1.
Definition MAX_INFLIGHT : Z := 12.
Definition MSG_MAXSIZE : Z := 8000.
Definition CHAIN_SZ : Z := 32.
Definition PERIODICITY : Z := 1.
Definition RAFT_NACK_TIMEOUT : Z := 1000.

Definition sizeof_msg : Z := 40.
Definition sizeof_msg_entry : Z := 40.
Definition pktadj_hdr : Z := sizeof_ipv4_hdr + sizeof_msg + sizeof_msg_entry + sizeof_wal_entry.
Definition pktadj2rpcsz (m : rte_mbuf) : Z := data_len m - pktadj_hdr.

(** A packet from the network: its address, its contents, whether it has more
    than one segment and the message it holds. *)
Record rx_pkt := mk_rx_pkt { rx_addr : Z; rx_packet : packet; rx_chained : bool; rx_msg : msg_t }.

(** Which of the waiting responses to send: all of them when their terms differ
    ([None]), else the one the loop ends with. *)
Fixpoint choose_loop (idx merge_term : Z) (i to_send : nat)
    (rs : list (msg_appendentries_response * Z)) : option nat :=
  match rs with
  | [] => Some to_send
  | (r, _) :: rs =>
    if negb (aer_term r =? merge_term) then None
    else choose_loop idx merge_term (S i) (if idx <? aer_current_idx r then i else to_send) rs
  end.
Definition choose_response (rs : list (msg_appendentries_response * Z)) : option nat :=
  match rs with
  | [] => None
  | (r, _) :: rs => choose_loop (aer_current_idx r) (aer_term r) 1 0 rs
  end.

(** [entries] point into the packet and the first of them refers to it. *)
Definition with_buffer (p : Z) (ae : msg_appendentries) : msg_appendentries :=
  {| ae_term := ae_term ae; ae_prev_log_idx := ae_prev_log_idx ae;
     ae_prev_log_term := ae_prev_log_term ae; ae_leader_commit := ae_leader_commit ae;
     ae_entries := match ae_entries ae with
                   | [] => []
                   | e :: es => e <| data_buf := p |> :: es
                   end |}.

Section loop.
Context {D : Type}.
Context (pktmbuf_alloc : Z → M D (option rte_mbuf)) (extra_alloc : M D (option rte_mbuf))
  (packet_alloc : Z → M D (option Z)).
Context (refcnt_update : Z → Z → M D ()) (pktmbuf_free : Z → M D ()).
Context (ring_enqueue : Z → Z * Z * rpc_t → M D Z).
Context (tx_buffer : Z → Z → Z → rte_mbuf + ether_hdr * Z → M D Z)
  (tx_buffer_flush : Z → Z → Z → M D Z).
Context (object_bytes : msg_t → list Z).
Context (stack_junk : raft_entry) (rpc_junk : rpc_t) (fresh_packet : packet) (rand : nat → Z).
(** DPDK: reception, the cycle counter, removing from and adding to the front of
    a buffer, clones, the rings between the quorums; the other quorums'
    snapshots; cycles in microseconds. *)
Context (rx_burst : Z → Z → Z → M D (list rx_pkt)) (tsc : M D Z).
Context (pktmbuf_adj pktmbuf_prepend : rte_mbuf → Z → option rte_mbuf).
Context (pktmbuf_clone : Z → Z → M D (option Z)).
Context (quorum_enqueue : Z → Z → M D Z) (quorum_dequeue : Z → M D (option Z)).
Context (peer_snapshot : Z → M D Z) (usecs_to_cycles cycles_to_usecs : Z → Z).
(** What [malloc] left in the array [messages]. *)
Context (stale : nat → raft_entry).
Abbreviation W := (cyclone D).
Abbreviation R := (M (rstate W)).
Abbreviation cb :=
  (raft_funcs pktmbuf_alloc extra_alloc packet_alloc refcnt_update pktmbuf_free ring_enqueue
     tx_buffer tx_buffer_flush object_bytes stack_junk rpc_junk fresh_packet rand).

(** ** Headers *)
Definition adj_or_exit (op : rte_mbuf → Z → option rte_mbuf) (p len : Z) : R () :=
  k ← get_packet p;
  match op (mbuf k) len with
  | None => fail (Exit (-1))
  | Some mb => upd_packet p (λ k, k <| mbuf := mb |>)
  end.
Definition adjust_head (p : Z) : R () :=
  adj_or_exit pktmbuf_adj p sizeof_ether_hdr ;;
  adj_or_exit pktmbuf_prepend p (sizeof_msg + sizeof_msg_entry + sizeof_wal_entry).
Definition del_adj_header (p : Z) : R () := adj_or_exit pktmbuf_adj p pktadj_hdr.
Definition add_adj_header (p : Z) : R () := adj_or_exit pktmbuf_prepend p pktadj_hdr.
Definition drop_eth_header (p : Z) : R () := adj_or_exit pktmbuf_adj p sizeof_ether_hdr.

Definition receive (ps : list rx_pkt) : R () :=
  upd_w (λ w, w <| packets :=
    foldl (λ m p, <[rx_addr p := rx_packet p]> m) (packets w) ps |>).

(** [bad]: three of its four tests free the packet. *)
Definition bad (p : Z) (chained : bool) : R bool :=
  k ← get_packet p;
  let m := mbuf k in
  if negb (ether_type (eth m) =? rte_cpu_to_be_16 ETHER_TYPE_IPv4) then mret true
  else if negb (src_addr (ip m) =? magic_src_ip) then on_dev (pktmbuf_free p) ;; mret true
  else if data_len m <=? sizeof_ether_hdr + sizeof_ipv4_hdr
    then on_dev (pktmbuf_free p) ;; mret true
  else if chained then on_dev (pktmbuf_free p) ;; mret true
  else mret false.

(** ** Raft messages *)
Definition send_msg (msg : msg_t) (dst_replica : Z) : R () :=
  w ← get_w;
  q ← my_q w q_raft;
  o ← on_dev (pktmbuf_alloc q);
  m ← deref o;
  mc ← replica_mc (router w) dst_replica;
  let data := object_bytes msg in
  m ← cyclone_prep_mbuf (context w) mc q m data (Z.of_nat (length data));
  on_dev (cyclone_tx tx_buffer tx_buffer_flush (context w) (inl m) q) ;;
  mret tt.

Fixpoint send_all (me : Z) (rs : list (msg_appendentries_response * Z)) : R () :=
  match rs with
  | [] => mret tt
  | (r, dst) :: rs => send_msg (MsgAppendEntriesResponse me r) dst ;; send_all me rs
  end.
Definition send_ae_responses : R () :=
  w ← get_w;
  let rs := ae_responses w in
  match rs with
  | [] => mret tt
  | _ =>
    (match choose_response rs with
     | Some i =>
       '(r, dst) ← deref (rs !! i);
       if aer_success r =? -1 then
         now ← (if negb (aer_term r =? ae_nack_term w) || negb (aer_current_idx r =? ae_nack_idx w)
                then mret None else t ← on_dev tsc; mret (Some t));
         if match now with Some t => u64 (ae_nack_ts w + nack_timeout w) <=? t | None => true end
         then
           t ← on_dev tsc;
           upd_w (λ w, w <| ae_nack_term := aer_term r |> <| ae_nack_idx := aer_current_idx r |>
                         <| ae_nack_ts := t |>) ;;
           send_msg (MsgAppendEntriesResponse (c_me w) r) dst
         else mret tt
       else send_msg (MsgAppendEntriesResponse (c_me w) r) dst
     | None => send_all (c_me w) rs
     end) ;;
    upd_w (λ w, w <| ae_responses := [] |>)
  end.

Definition handle_incoming (p : Z) (msg : msg_t) : R () :=
  drop_eth_header p ;;
  match msg with MsgAppendEntries _ _ => mret tt | _ => send_ae_responses end ;;
  w ← get_w;
  match msg with
  | MsgRequestVote source rv =>
    '(_, r) ← raft_recv_requestvote cb rv;
    on_dev (pktmbuf_free p) ;;
    send_msg (MsgRequestVoteResponse (c_me w) r) source
  | MsgRequestVoteResponse source r =>
    o ← raft_get_node source;
    raft_recv_requestvote_response cb o r ;;
    on_dev (pktmbuf_free p)
  | MsgAppendEntries source ae =>
    if PKT_BURST <=? Z.of_nat (length (ae_responses w)) then fail UB else
    o ← raft_get_node source;
    let ae := with_buffer p ae in
    '(e, r) ← raft_recv_appendentries cb o ae;
    when (negb (e =? 0) || (ae_n_entries ae =? 0)) (on_dev (pktmbuf_free p)) ;;
    upd_w (λ w, w <| ae_responses := ae_responses w ++ [(r, source)] |>)
  | MsgAppendEntriesResponse source r =>
    o ← raft_get_node source;
    raft_recv_appendentries_response cb o r ;;
    on_dev (pktmbuf_free p)
  | MsgUnknown _ => fail (Exit 0)
  end.
Fixpoint handle_burst (ps : list rx_pkt) : R () :=
  match ps with
  | [] => mret tt
  | p :: ps =>
    b ← bad (rx_addr p) (rx_chained p);
    (if b : bool then on_dev (pktmbuf_free (rx_addr p)) else handle_incoming (rx_addr p) (rx_msg p)) ;;
    handle_burst ps
  end.

(** ** Client requests *)
Definition current_inflight (client : Z) : R Z :=
  w ← get_w;
  if (0 <=? client) && (client <? MAX_CLIENTS)
  then mret (default 0 (client_inflight w !! client)) else fail UB.

Definition upd_rpc (p : Z) (f : rpc_t → rpc_t) : R () :=
  upd_packet p (λ k, k <| segments := match segments k with
                                      | (r :: rs) :: ss => (f r :: rs) :: ss
                                      | ss => ss
                                      end |>).

Definition to_core (core p : Z) : R () :=
  w ← get_w;
  rpc ← first_rpc p;
  if (0 <=? core) && (core <? executor_threads) then
    r ← on_dev (ring_enqueue core (me_quorum w, p, rpc));
    if r =? - ENOBUFS then fail (Exit (-1)) else mret tt
  else fail UB.

(** A request on several cores goes to all quorums that have one of them. *)
Fixpoint spread_quorums (p : Z) (qs : list Z) : R () :=
  match qs with
  | [] => mret tt
  | q :: qs =>
    on_dev (refcnt_update p 1) ;;
    r ← on_dev (quorum_enqueue q p);
    if r =? - ENOBUFS then fail (Exit (-1)) else spread_quorums p qs
  end.
Definition quorum_mask (mask : Z) : Z :=
  foldl (λ acc c, Z.lor acc (Z.shiftl 1 (core_to_quorum c))) 0 (cores_of mask).
Definition spread (p : Z) (rpc : rpc_t) : R () :=
  w ← get_w;
  if negb (me_quorum w =? 0) then on_dev (pktmbuf_free p) else
  if Z.shiftl 1 executor_threads - 1 <? core_mask rpc then fail (Exit (-1)) else
  t ← on_dev tsc;
  mc ← mac (context w) (me (context w)) 0;
  upd_rpc p (λ r, r <| rdv := (mc, u64 (nonce_base w + t)) |>) ;;
  adj_or_exit pktmbuf_adj p pktadj_hdr ;;
  spread_quorums p (cores_of (quorum_mask (core_mask rpc))) ;;
  on_dev (pktmbuf_free p).

Definition read_snapshot (q : Z) : R Z :=
  w ← get_w;
  if q =? me_quorum w then mret (snapshot w) else on_dev (peer_snapshot q).
Fixpoint read_snapshots (qs : list Z) : R (option (list Z)) :=
  match qs with
  | [] => mret (Some [])
  | q :: qs =>
    s ← read_snapshot q;
    if negb (Z.odd s) then mret None else
    o ← read_snapshots qs;
    mret (match o with Some l => Some (s :: l) | None => None end)
  end.
Fixpoint same_snapshots (qs l : list Z) : R bool :=
  match qs, l with
  | q :: qs, s :: l =>
    s' ← read_snapshot q; if negb (s =? s') then mret false else same_snapshots qs l
  | _, _ => mret true
  end.
Definition take_snapshot : R (option (list Z)) :=
  o ← read_snapshots (seqZ 0 num_quorums);
  match o with
  | None => mret None
  | Some l => b ← same_snapshots (seqZ 0 num_quorums) l; mret (if b : bool then Some l else None)
  end.

(** A slot of [messages] as [accept] fills it; the rest is what was there. *)
Definition new_message (slot : nat) (p len ty : Z) : raft_entry :=
  stale slot <| data_buf := p |> <| RaftNode.data_len := u32 len |> <| type := ty |>.

(** The messages so far with their chain sizes.  Configuration changes leave the
    size of their slot as it was; it is not looked at, their type comes first. *)
Abbreviation batch := (list (raft_entry * Z)).
Definition chains (acc : batch) (msg_size : Z) : bool :=
  match last acc with
  | Some (e, c) => (u32 (RaftNode.data_len e + msg_size) <=? MSG_MAXSIZE)
                   && (type e =? RAFT_LOGTYPE_NORMAL) && (c <? CHAIN_SZ)
  | None => false
  end.
Definition chain_packet (acc : batch) (p : Z) (rpc : rpc_t) (msg_size : Z) : R batch :=
  when (negb (is_multicore_rpc rpc)) (del_adj_header p) ;;
  k ← get_packet p;
  '(e, c) ← deref (last acc);
  upd_packet (data_buf e) (λ h, h
    <| segments := segments h ++ segments k |>
    <| mbuf := mbuf h <| pkt_len := u32 (pkt_len (mbuf h) + data_len (mbuf k)) |> |>) ;;
  mret (take (length acc - 1) acc
        ++ [(e <| RaftNode.data_len := u32 (RaftNode.data_len e + msg_size) |>, c + 1)]).
Definition fresh_message (acc : batch) (p : Z) (rpc : rpc_t) (msg_size : Z) : R batch :=
  if is_multicore_rpc rpc then
    w ← get_w;
    q ← my_q w q_dispatcher;
    o ← on_dev (packet_alloc q);
    match o with
    | None => fail (Exit (-1))
    | Some p_pre =>
      upd_w (λ w, w <| packets := <[p_pre := fresh_packet <| segments := [[]] |>]> (packets w) |>) ;;
      add_adj_header p_pre ;;
      k ← get_packet p;
      upd_packet p_pre (λ h, h
        <| segments := [] :: segments k |>
        <| mbuf := mbuf h <| pkt_len := u32 (pkt_len (mbuf h) + data_len (mbuf k)) |> |>) ;;
      mret (acc ++ [(new_message (length acc) p_pre msg_size RAFT_LOGTYPE_NORMAL, 2)])
    end
  else
    k ← get_packet p;
    mret (acc ++ [(new_message (length acc) p (pktadj2rpcsz (mbuf k)) RAFT_LOGTYPE_NORMAL, 1)]).

(** The term the client believes in is not the current one. *)
Definition wrong_term (multicore : bool) (rpc : rpc_t) : R bool :=
  w ← get_w;
  me ← get_srv;
  if multicore then
    t ← aget (rpc_terms rpc) (me_quorum w); mret (negb (t =? u32 (current_term me)))
  else mret (negb (quorum_term rpc =? current_term me)).

(** A request for the log, past all checks. *)
Definition accept_update (p : Z) (rpc : rpc_t) (acc : batch) : R batch :=
  k ← get_packet p;
  let msg_size := if is_multicore_rpc rpc then data_len (mbuf k) else pktadj2rpcsz (mbuf k) in
  if code rpc =? RPC_REQ_NODEDEL then
    mret (acc ++ [(new_message (length acc) p (pktadj2rpcsz (mbuf k)) RAFT_LOGTYPE_REMOVE_NODE, 0)])
  else if code rpc =? RPC_REQ_NODEADD then
    mret (acc ++ [(new_message (length acc) p (pktadj2rpcsz (mbuf k))
                     RAFT_LOGTYPE_ADD_NONVOTING_NODE, 0)])
  else if chains acc msg_size then chain_packet acc p rpc msg_size
  else fresh_message acc p rpc msg_size.

Definition accept_rpc (multicore : bool) (p : Z) (acc : batch) : R batch :=
  rpc ← first_rpc p;
  let core := lowest_bit (core_mask rpc) in
  full ← (if multicore then mret false
          else n ← current_inflight (client_id rpc); mret (MAX_INFLIGHT <=? n));
  if full : bool then on_dev (pktmbuf_free p) ;; mret acc else
  if negb multicore && is_multicore_rpc rpc then spread p rpc ;; mret acc else
  if code rpc =? RPC_REQ_STABLE then
    o ← take_snapshot;
    match o with
    | Some l => upd_rpc p (λ r, r <| rpc_terms := l |>) ;; add_inflight (client_id rpc) ;; to_core core p
    | None => on_dev (pktmbuf_free p)
    end ;;
    mret acc
  else
  b ← wrong_term multicore rpc;
  if b : bool then on_dev (pktmbuf_free p) ;; mret acc else
  if negb (Z.land (flags rpc) RPC_FLAG_RO =? 0) then
    w ← get_w;
    (if Z.odd (snapshot w) then add_inflight (client_id rpc) ;; to_core core p
     else on_dev (pktmbuf_free p)) ;;
    mret acc
  else accept_update p rpc acc.

Definition accept_one (multicore : bool) (p : Z) (chained : bool) (acc : batch) : R batch :=
  if multicore then accept_rpc true p acc else
  b ← bad p chained;
  if b : bool then on_dev (pktmbuf_free p) ;; mret acc
  else adjust_head p ;; accept_rpc false p acc.
Fixpoint accept_loop (multicore : bool) (ps : list (Z * bool)) (acc : batch) : R batch :=
  match ps with
  | [] => mret acc
  | (p, chained) :: ps => acc ← accept_one multicore p chained acc; accept_loop multicore ps acc
  end.
Fixpoint free_messages (es : list raft_entry) : R () :=
  match es with
  | [] => mret tt
  | e :: es => on_dev (pktmbuf_free (data_buf e)) ;; free_messages es
  end.
Definition propose (es : list raft_entry) : R () :=
  '(e, es, _) ← raft_recv_entry_batch cb rand es false;
  when (negb (e =? 0)) (free_messages es).
Definition accept (multicore : bool) (ps : list (Z * bool)) : R () :=
  acc ← accept_loop multicore ps [];
  match acc with [] => mret tt | _ => propose (map fst acc) end.

(** ** One round *)
Definition publish_snapshot : R bool :=
  w ← get_w;
  me ← get_srv;
  l ← cyclone_is_leader;
  let new_snapshot := u32 (Z.shiftl (u32 (current_term me)) 1 + (if l : bool then 1 else 0)) in
  if negb (new_snapshot =? snapshot w)
  then upd_w (λ w, w <| snapshot := new_snapshot |>) ;; mret true
  else mret false.

(** A new leader commits an entry of its own term. *)
Definition send_kicker : R () :=
  w ← get_w;
  q ← my_q w q_raft;
  o ← on_dev (packet_alloc q);
  match o with
  | None => fail (Exit (-1))
  | Some p =>
    let cores := filter (λ i, core_to_quorum i = me_quorum w) (seqZ 0 executor_threads) in
    let rpc := rpc_junk
      <| code := RPC_REQ_KICKER |> <| flags := 0 |> <| payload_sz := 0 |>
      <| client_id := MAX_CLIENTS - 1 |>
      <| core_mask := foldl (λ m i, Z.lor m (Z.shiftl 1 i)) 0 cores |> in
    let sz := sizeof_ether_hdr + sizeof_ipv4_hdr + sizeof_rpc in
    upd_w (λ w, w <| packets := <[p := fresh_packet <| segments := [[rpc]] |>
      <| mbuf := Cyclone.mbuf fresh_packet <| data_len := sz |> <| pkt_len := sz |> |>]> (packets w) |>) ;;
    adjust_head p ;;
    k ← get_packet p;
    propose [new_message 0 p (pktadj2rpcsz (mbuf k)) RAFT_LOGTYPE_NORMAL]
  end.

(** The loop that takes transactions from the other quorums. *)
Fixpoint take_transactions (n : nat) : R (list (Z * bool)) :=
  match n with
  | O => mret []
  | S n =>
    w ← get_w;
    o ← on_dev (quorum_dequeue (me_quorum w));
    match o with
    | None => mret []
    | Some m =>
      q ← my_q w q_dispatcher;
      c ← on_dev (pktmbuf_clone m q);
      match c with
      | None => fail (Exit (-1))
      | Some p =>
        k ← get_packet m;
        upd_w (λ w, w <| packets := <[p := k]> (packets w) |>) ;;
        on_dev (pktmbuf_free m) ;;
        ps ← take_transactions n;
        mret ((p, false) :: ps)
      end
    end
  end.

Definition receive_burst (q : Z) : R (list rx_pkt) :=
  w ← get_w;
  q ← my_q w q;
  port ← queue2port q (ports (context w));
  queue ← queue_index_at_port q (ports (context w));
  ps ← on_dev (rx_burst port queue PKT_BURST);
  receive ps ;;
  mret ps.

Definition monitor_round (mark : Z) : R Z :=
  ps ← receive_burst q_raft;
  upd_w (λ w, w <| ae_responses := [] |>) ;;
  handle_burst ps ;;
  send_ae_responses ;;
  now ← on_dev tsc;
  let elapsed := u64 (now - mark) in
  mark ← (if usecs_to_cycles PERIODICITY <=? elapsed
          then raft_periodic cb rand (cycles_to_usecs elapsed) ;; on_dev tsc
          else mret mark);
  changed ← publish_snapshot;
  w ← get_w;
  when (changed && Z.odd (snapshot w)) send_kicker ;;
  ps ← receive_burst q_dispatcher;
  match ps with [] => mret tt | _ => accept false (map (λ p, (rx_addr p, rx_chained p)) ps) end ;;
  ts ← take_transactions (Z.to_nat PKT_BURST);
  accept true ts ;;
  w ← get_w;
  s ← read_snapshot 0;
  (if (0 <? me_quorum w) && Z.odd s then raft_set_preferred_leader else raft_unset_preferred_leader) ;;
  mret mark.

(** [n] rounds of the loop of [operator()]. *)
Fixpoint monitor (n : nat) (mark : Z) : R () :=
  match n with O => mret tt | S n => mark ← monitor_round mark; monitor n mark end.
(** [operator()] from its start, for [n] rounds. *)
Definition run_monitor (n : nat) : R () :=
  mark ← on_dev tsc;
  upd_w (λ w, w <| nack_timeout := usecs_to_cycles RAFT_NACK_TIMEOUT |>
                <| snapshot := u32 (Z.lnot 1) |> <| ae_nack_term := -1 |>) ;;
  monitor n mark.
End loop.
