(* ===== verification/EventLoopSafe.v ===== *)
(** The event loop keeps the log, what its coalescing of responses sends, and how
    it batches requests. *)

From S2P Require Import Prelude RaftNode RaftLog RaftServer RaftFrame RaftEnv RaftSafety.
From S2P Require Import CircularLog Comm Cyclone CycloneSafe EventLoop.

Section safe.
Context {D : Type}.
Context (pktmbuf_alloc : Z → M D (option rte_mbuf)) (extra_alloc : M D (option rte_mbuf))
  (packet_alloc : Z → M D (option Z)).
Context (refcnt_update : Z → Z → M D ()) (pktmbuf_free : Z → M D ()).
Context (ring_enqueue : Z → Z * Z * rpc_t → M D Z).
Context (tx_buffer : Z → Z → Z → rte_mbuf + ether_hdr * Z → M D Z)
  (tx_buffer_flush : Z → Z → Z → M D Z).
Context (object_bytes : msg_t → list Z).
Context (stack_junk : raft_entry) (rpc_junk : rpc_t) (fresh_packet : packet) (rand : nat → Z).
Context (rx_burst : Z → Z → Z → M D (list rx_pkt)) (tsc : M D Z).
Context (pktmbuf_adj pktmbuf_prepend : rte_mbuf → Z → option rte_mbuf).
Context (pktmbuf_clone : Z → Z → M D (option Z)).
Context (quorum_enqueue : Z → Z → M D Z) (quorum_dequeue : Z → M D (option Z)).
Context (peer_snapshot : Z → M D Z) (usecs_to_cycles cycles_to_usecs : Z → Z).
Context (stale : nat → raft_entry).
Abbreviation cb :=
  (raft_funcs pktmbuf_alloc extra_alloc packet_alloc refcnt_update pktmbuf_free ring_enqueue
     tx_buffer tx_buffer_flush object_bytes stack_junk rpc_junk fresh_packet rand).

(** ** What only touches packets and the device *)
#[local] Existing Instance calm_preorder.
#[local] Hint Extern 2 (Pres calm (upd_w _)) =>
  apply calm_modify; intros; split_and!; reflexivity : pres.
#[local] Hint Resolve calm_get_w calm_get_srv calm_on_dev calm_get_packet calm_upd_packet calm_my_q
  calm_queue2port calm_queue_index calm_mac calm_replica_mc calm_prep calm_add_inflight
  calm_is_leader : pres.

Lemma calm_adj_or_exit op p len : Pres calm (adj_or_exit (D := D) op p len).
Proof. unfold adj_or_exit. pres. Qed.
#[local] Hint Resolve calm_adj_or_exit : pres.
Lemma calm_adjust_head p : Pres calm (adjust_head (D := D) pktmbuf_adj pktmbuf_prepend p).
Proof. unfold adjust_head. pres. Qed.
Lemma calm_bad p c : Pres calm (bad pktmbuf_free p c).
Proof. unfold bad. pres. Qed.
Lemma calm_send_msg m dst :
  Pres calm (send_msg pktmbuf_alloc tx_buffer tx_buffer_flush object_bytes m dst).
Proof. unfold send_msg. pres. Qed.
#[local] Hint Resolve calm_adjust_head calm_bad calm_send_msg : pres.
Lemma calm_send_all me rs :
  Pres calm (send_all pktmbuf_alloc tx_buffer tx_buffer_flush object_bytes me rs).
Proof. induction rs as [|[]]; simpl; pres. Qed.
#[local] Hint Resolve calm_send_all : pres.
Lemma calm_send_ae_responses :
  Pres calm (send_ae_responses pktmbuf_alloc tx_buffer tx_buffer_flush object_bytes tsc).
Proof. unfold send_ae_responses. pres. Qed.
#[local] Hint Resolve calm_send_ae_responses : pres.
Lemma calm_first_rpc p : Pres calm (first_rpc (D := D) p).
Proof. unfold first_rpc. pres. Qed.
#[local] Hint Resolve calm_first_rpc : pres.
Lemma calm_to_core core p : Pres calm (to_core ring_enqueue core p).
Proof. unfold to_core. pres. Qed.
Lemma calm_upd_rpc p f : Pres calm (upd_rpc (D := D) p f).
Proof. unfold upd_rpc. pres. Qed.
Lemma calm_spread_quorums p qs : Pres calm (spread_quorums refcnt_update quorum_enqueue p qs).
Proof. induction qs; simpl; pres. Qed.
#[local] Hint Resolve calm_to_core calm_upd_rpc calm_spread_quorums : pres.
Lemma calm_spread p rpc :
  Pres calm (spread refcnt_update pktmbuf_free tsc pktmbuf_adj quorum_enqueue p rpc).
Proof. unfold spread. pres. Qed.
Lemma calm_read_snapshot q : Pres calm (read_snapshot peer_snapshot q).
Proof. unfold read_snapshot. pres. Qed.
#[local] Hint Resolve calm_spread calm_read_snapshot : pres.
Lemma calm_read_snapshots qs : Pres calm (read_snapshots peer_snapshot qs).
Proof. induction qs; simpl; pres. Qed.
Lemma calm_same_snapshots qs l : Pres calm (same_snapshots peer_snapshot qs l).
Proof. revert l. induction qs; intros []; simpl; pres. Qed.
#[local] Hint Resolve calm_read_snapshots calm_same_snapshots : pres.
Lemma calm_take_snapshot : Pres calm (take_snapshot peer_snapshot).
Proof. unfold take_snapshot. pres. Qed.
Lemma calm_current_inflight c : Pres calm (current_inflight (D := D) c).
Proof. unfold current_inflight. pres. Qed.
Lemma calm_wrong_term b rpc : Pres calm (wrong_term (D := D) b rpc).
Proof. unfold wrong_term. pres. Qed.
Lemma calm_accept_update p rpc acc :
  Pres calm (accept_update packet_alloc fresh_packet pktmbuf_adj pktmbuf_prepend stale p rpc acc).
Proof.
  unfold accept_update, chain_packet, fresh_message, del_adj_header, add_adj_header. pres.
Qed.
#[local] Hint Resolve calm_take_snapshot calm_current_inflight calm_wrong_term
  calm_accept_update : pres.
Abbreviation accept_loop' :=
  (accept_loop packet_alloc refcnt_update pktmbuf_free ring_enqueue fresh_packet tsc pktmbuf_adj
     pktmbuf_prepend quorum_enqueue peer_snapshot stale).
Lemma calm_accept_loop b ps acc : Pres calm (accept_loop' b ps acc).
Proof.
  revert acc. induction ps as [|[]]; intros acc; simpl; unfold accept_one, accept_rpc; pres.
Qed.
Lemma calm_free_messages es : Pres calm (free_messages pktmbuf_free es).
Proof. induction es; simpl; pres. Qed.
Lemma calm_publish_snapshot : Pres calm (publish_snapshot (D := D)).
Proof. unfold publish_snapshot. pres. Qed.
Lemma calm_take_transactions n :
  Pres calm (take_transactions pktmbuf_free pktmbuf_clone quorum_dequeue n).
Proof. induction n; simpl; pres. Qed.
Lemma calm_receive_burst q : Pres calm (receive_burst rx_burst q).
Proof. unfold receive_burst, receive. pres. Qed.
#[local] Hint Resolve calm_accept_loop calm_free_messages calm_publish_snapshot
  calm_take_transactions calm_receive_burst : pres.

(** ** Every part makes a [log_step] *)
#[local] Hint Extern 4 (Pres (log_step plog) _) => apply pres_calm_step; solve [pres] : pres.
#[local] Hint Resolve pres_raft_periodic pres_raft_recv_appendentries
  pres_raft_recv_appendentries_response pres_raft_recv_requestvote
  pres_raft_recv_requestvote_response : pres.
#[local] Hint Extern 1 (Pres (log_step plog) (upd_srv _)) =>
  apply pres_upd_srv_view; intros; reflexivity : pres.
Abbreviation step := (Pres (log_step plog)).

Lemma step_handle_incoming p m :
  step (handle_incoming pktmbuf_alloc extra_alloc packet_alloc refcnt_update pktmbuf_free ring_enqueue
    tx_buffer tx_buffer_flush object_bytes stack_junk rpc_junk fresh_packet rand tsc pktmbuf_adj p m).
Proof. unfold handle_incoming, drop_eth_header. pres. Qed.
#[local] Hint Resolve step_handle_incoming : pres.
Lemma step_handle_burst ps :
  step (handle_burst pktmbuf_alloc extra_alloc packet_alloc refcnt_update pktmbuf_free ring_enqueue
    tx_buffer tx_buffer_flush object_bytes stack_junk rpc_junk fresh_packet rand tsc pktmbuf_adj ps).
Proof. induction ps; simpl; pres. Qed.
#[local] Hint Resolve step_handle_burst : pres.

Abbreviation propose' :=
  (propose pktmbuf_alloc extra_alloc packet_alloc refcnt_update pktmbuf_free ring_enqueue
    tx_buffer tx_buffer_flush object_bytes stack_junk rpc_junk fresh_packet rand).
Lemma step_propose es : es ≠ [] → step (propose' es).
Proof.
  intros Hne. unfold propose. pres. apply pres_raft_recv_entry_batch; [apply _|done].
Qed.
Lemma step_accept b ps :
  step (accept pktmbuf_alloc extra_alloc packet_alloc refcnt_update pktmbuf_free ring_enqueue
    tx_buffer tx_buffer_flush object_bytes stack_junk rpc_junk fresh_packet rand tsc pktmbuf_adj
    pktmbuf_prepend quorum_enqueue peer_snapshot stale b ps).
Proof. unfold accept. pres. by apply step_propose. Qed.
Lemma step_send_kicker :
  step (send_kicker pktmbuf_alloc extra_alloc packet_alloc refcnt_update pktmbuf_free ring_enqueue
    tx_buffer tx_buffer_flush object_bytes stack_junk rpc_junk fresh_packet rand pktmbuf_adj
    pktmbuf_prepend stale).
Proof. unfold send_kicker. pres. by apply step_propose. Qed.
#[local] Hint Resolve step_accept step_send_kicker : pres.

Abbreviation server_round :=
  (monitor_round pktmbuf_alloc extra_alloc packet_alloc refcnt_update pktmbuf_free ring_enqueue
    tx_buffer tx_buffer_flush object_bytes stack_junk rpc_junk fresh_packet rand rx_burst tsc
    pktmbuf_adj pktmbuf_prepend pktmbuf_clone quorum_enqueue quorum_dequeue peer_snapshot
    usecs_to_cycles cycles_to_usecs stale).
Abbreviation server_loop :=
  (monitor pktmbuf_alloc extra_alloc packet_alloc refcnt_update pktmbuf_free ring_enqueue
    tx_buffer tx_buffer_flush object_bytes stack_junk rpc_junk fresh_packet rand rx_burst tsc
    pktmbuf_adj pktmbuf_prepend pktmbuf_clone quorum_enqueue quorum_dequeue peer_snapshot
    usecs_to_cycles cycles_to_usecs stale).
Lemma step_monitor_round mark : step (server_round mark).
Proof.
  unfold monitor_round, raft_set_preferred_leader, raft_unset_preferred_leader. pres.
Qed.
#[local] Hint Resolve step_monitor_round : pres.
Lemma step_monitor n mark : step (server_loop n mark).
Proof. revert mark. induction n; intros mark; simpl; pres. Qed.
#[local] Hint Resolve step_monitor : pres.
Abbreviation server_run :=
  (run_monitor pktmbuf_alloc extra_alloc packet_alloc refcnt_update pktmbuf_free ring_enqueue
    tx_buffer tx_buffer_flush object_bytes stack_junk rpc_junk fresh_packet rand rx_burst tsc
    pktmbuf_adj pktmbuf_prepend pktmbuf_clone quorum_enqueue quorum_dequeue peer_snapshot
    usecs_to_cycles cycles_to_usecs stale).
Lemma step_run_monitor n : step (server_run n).
Proof. unfold run_monitor. pres. Qed.

(** C5: the running server keeps its log.  Over any number of rounds of the event
    loop, whatever arrives from the network, the clients and the other quorums
    and whatever DPDK answers, as long as the process runs: the log stays well
    formed, its indices in order, no index goes back, committed entries stay
    where they are until they are compacted, and the persistent ring holds
    exactly the packets of the log. *)
Theorem event_loop_keeps_log n es s s' :
  linv plog es s → server_run n s = Ret tt s' →
  ∃ es', log_rep (log (srv s')) es' ∧ index_inv (srv s')
    ∧ front (log (srv s)) ≤ front (log (srv s')) ∧ commit_idx (srv s) ≤ commit_idx (srv s')
    ∧ last_applied_idx (srv s) ≤ last_applied_idx (srv s')
    ∧ (∀ i, front (log (srv s')) < i ≤ commit_idx (srv s) →
        entry_at (front (log (srv s'))) es' i = entry_at (front (log (srv s))) es i)
    ∧ ring (RAFT_LOGENTRIES (world s')) (cur (pm (world s'))) (p_tail (cur (pm (world s'))))
        (map pkt es')
    ∧ p_tail (nvm (pm (world s'))) = p_tail (cur (pm (world s')))
    ∧ p_head (nvm (pm (world s'))) = p_head (cur (pm (world s'))).
Proof.
  intros HI Hrun. destruct (pres_run _ _ _ _ _ (step_run_monitor n) Hrun es HI)
    as (es' & [Hrep Hidx (_ & _ & Hr & Ht & Hh & Hd)] & Hf & Hc & Ha & Hat).
  exists es'. split_and!; done.
Qed.
End safe.

(** ** Coalescing responses *)
Lemma choose_loop_same t idx i k (rs : list (msg_appendentries_response * Z)) :
  Forall (λ r, aer_term r.1 = t) rs →
  ∃ j, choose_loop idx t i k rs = Some j
    ∧ (j = k ∧ Forall (λ r, aer_current_idx r.1 ≤ idx) rs
       ∨ ∃ n r, j = (i + n)%nat ∧ rs !! n = Some r ∧ idx < aer_current_idx r.1
           ∧ Forall (λ r, aer_current_idx r.1 ≤ idx) (drop (S n) rs)).
Proof.
  revert i k. induction rs as [|[r d] rs IH]; intros i k Hall; simpl.
  { exists k. split; [done|]. by left. }
  inversion Hall as [|? ? Hr Hrs]; subst. simpl in *. rewrite Z.eqb_refl. simpl.
  destruct (IH (S i) (if idx <? aer_current_idx r then i else k) Hrs) as (j & Hj & Hcase).
  exists j. split; [done|]. destruct Hcase as [[-> Hle]|(n & r' & -> & Hn & Hlt & Hle)].
  - destruct (Z.ltb_spec idx (aer_current_idx r)) as [Hlt|Hge]; [right|left; by repeat constructor].
    exists 0%nat, (r, d). split_and!; [lia|done|done|]. by rewrite drop_0.
  - right. exists (S n), r'. split_and!; [lia|done|done|done].
Qed.

Definition same_term (rs : list (msg_appendentries_response * Z)) : Prop :=
  ∃ t, Forall (λ r, aer_term r.1 = t) rs.
(** The responses of a burst carry growing indices. *)
Definition growing (rs : list (msg_appendentries_response * Z)) : Prop :=
  ∀ i j r r', (i ≤ j)%nat → rs !! i = Some r → rs !! j = Some r' →
    aer_current_idx r.1 ≤ aer_current_idx r'.1.

Lemma choose_response_latest rs :
  rs ≠ [] → same_term rs → growing rs →
  ∃ i r, choose_response rs = Some i ∧ rs !! i = Some r
    ∧ Forall (λ r', aer_current_idx r'.1 ≤ aer_current_idx r.1) rs.
Proof.
  destruct rs as [|[r d] rs]; [done|]. intros _ [t Hall] Hgrow.
  inversion Hall as [|? ? Ht Hrs]; subst. simpl in *.
  destruct (choose_loop_same (aer_term r) (aer_current_idx r) 1 0 rs Hrs) as (j & -> & Hcase).
  destruct Hcase as [[-> Hle]|(n & r' & -> & Hn & Hlt & Hle)].
  - exists 0%nat, (r, d). split_and!; [done..|]. by constructor.
  - exists (1 + n)%nat, r'. split_and!; [done|done|]. apply Forall_lookup. intros k x Hx.
    destruct (Nat.le_gt_cases k (1 + n)) as [Hk|Hk]; [by eapply Hgrow|].
    destruct k as [|k]; [lia|]. simpl in Hx.
    assert (drop (S n) rs !! (k - S n)%nat = Some x) as Hd.
    { rewrite lookup_drop. by replace (S n + (k - S n))%nat with k by lia. }
    pose proof (Forall_lookup_1 _ _ _ _ Hle Hd) as Hb. simpl in *. lia.
Qed.

Lemma choose_loop_mixed idx t i k (rs : list (msg_appendentries_response * Z)) :
  ¬ Forall (λ r, aer_term r.1 = t) rs → choose_loop idx t i k rs = None.
Proof.
  revert i k. induction rs as [|[r d] rs IH]; intros i k Hn; simpl; [by destruct Hn|].
  destruct (Z.eqb_spec (aer_term r) t) as [Ht|]; [|done]. simpl. apply IH. intros ?. apply Hn.
  by constructor.
Qed.
Lemma choose_response_mixed rs : ¬ same_term rs → choose_response rs = None.
Proof.
  destruct rs as [|[r d] rs]; [done|]. intros Hn. apply choose_loop_mixed. intros Hall. apply Hn.
  exists (aer_term r). by constructor.
Qed.

(** C25: responses to a burst of append-entries messages.  When they carry one term
    and growing indices, a single response is sent, one with the highest index;
    when they carry different terms all are sent, in order.  Nothing waits
    afterwards.  (No response has success -1, the value the repetition filter
    asks for, so the filter never acts.) *)
Theorem ae_responses_sent {D} pktmbuf_alloc tx_buffer tx_buffer_flush object_bytes tsc
    (s : rstate (cyclone D)) :
  let rs := ae_responses (world s) in
  let send := send_msg pktmbuf_alloc tx_buffer tx_buffer_flush object_bytes in
  let me := c_me (world s) in
  let clear := upd_w (D := D) (λ w, w <| ae_responses := [] |>) in
  rs ≠ [] → Forall (λ r, aer_success r.1 ≠ -1) rs →
  (same_term rs → growing rs → ∃ r dst, (r, dst) ∈ rs
     ∧ Forall (λ r', aer_current_idx r'.1 ≤ aer_current_idx r) rs
     ∧ send_ae_responses pktmbuf_alloc tx_buffer tx_buffer_flush object_bytes tsc s
       = (send (MsgAppendEntriesResponse me r) dst ;; clear) s)
  ∧ (¬ same_term rs →
     send_ae_responses pktmbuf_alloc tx_buffer tx_buffer_flush object_bytes tsc s
     = (send_all pktmbuf_alloc tx_buffer tx_buffer_flush object_bytes me rs ;; clear) s).
Proof.
  intros rs send me clear Hne Hsucc. unfold send_ae_responses.
  assert (∀ A (k : cyclone D → M (rstate (cyclone D)) A), (get_w ≫= k) s = k (world s) s) as Hget
    by done. rewrite Hget. fold rs. split.
  - intros Hsame Hgrow. destruct (choose_response_latest rs Hne Hsame Hgrow) as (i & [r d] & Hi & Hr & Hmax).
    exists r, d. split_and!; [by eapply list_elem_of_lookup_2|done|].
    rewrite Hi. pose proof (Forall_lookup_1 _ _ _ _ Hsucc Hr) as Hs. simpl in Hs.
    destruct rs; [done|]. rewrite Hr. unfold mbind, M_bind. simpl.
    by replace (aer_success r =? -1) with false by lia.
  - intros Hmix. rewrite (choose_response_mixed _ Hmix). by destruct rs.
Qed.

(** The coalescing keeps the wrong response when indices do not grow: [idx]
    is not moved along, so the last response above the first wins. *)
Theorem response_not_latest (t : Z) :
  let r i := ({| aer_term := t; aer_success := 1; aer_current_idx := i; aer_first_idx := 1 |}, 0) in
  choose_response [r 5; r 9; r 7] = Some 2%nat.
Proof. simpl. by rewrite Z.eqb_refl. Qed.

Definition demo_response (i : Z) : msg_appendentries_response * Z :=
  ({| aer_term := 3; aer_success := 1; aer_current_idx := i; aer_first_idx := 1 |}, 0).
Definition waiting : rstate (cyclone ()) :=
  server_end <| world := world server_end <| ae_responses := [demo_response 5; demo_response 6] |> |>.
Lemma waiting_growing : growing [demo_response 5; demo_response 6].
Proof.
  intros i j r r' Hij Hi Hj. destruct i as [|[|i]], j as [|[|j]]; simplify_eq/=; lia.
Qed.

Lemma ae_responses_sent_witness :
  ∃ r dst, (r, dst) ∈ ae_responses (world waiting)
    ∧ Forall (λ r', aer_current_idx r'.1 ≤ aer_current_idx r) (ae_responses (world waiting))
    ∧ send_ae_responses (λ _, mret (Some blank_mbuf)) (λ _ _ _ _, mret 0) (λ _ _ _, mret 0)
        (λ _, []) (mret 0) waiting
      = (send_msg (λ _, mret (Some blank_mbuf)) (λ _ _ _ _, mret 0) (λ _ _ _, mret 0) (λ _, [])
           (MsgAppendEntriesResponse 0 r) dst ;; upd_w (λ w, w <| ae_responses := [] |>)) waiting.
Proof.
  refine (proj1 (ae_responses_sent (λ _, mret (Some blank_mbuf)) (λ _ _ _ _, mret 0)
    (λ _ _ _, mret 0) (λ _, []) (mret 0) waiting _ _) _ waiting_growing).
  - done.
  - repeat constructor; simpl; lia.
  - exists 3. by repeat constructor.
Defined.

(** ** Packets that are not ours *)

(** A packet of a foreign source, one that is too short or one of several
    segments is freed twice: [bad] frees it and so does the caller, in [accept]
    as in the loop over Raft messages.  Only one of the wrong protocol is freed
    once. *)
Theorem bad_packet_freed_twice {D} pktmbuf_free (free := λ p, on_dev (D := D) (pktmbuf_free p))
    packet_alloc refcnt_update ring_enqueue fresh_packet tsc adj prepend quorum_enqueue
    peer_snapshot stale p chained acc k (s : rstate (cyclone D)) :
  packets (world s) !! p = Some k →
  ether_type (eth (mbuf k)) = rte_cpu_to_be_16 ETHER_TYPE_IPv4 →
  src_addr (ip (mbuf k)) ≠ magic_src_ip ∨ data_len (mbuf k) ≤ 34 ∨ chained = true →
  accept_one packet_alloc refcnt_update pktmbuf_free ring_enqueue fresh_packet tsc adj prepend
    quorum_enqueue peer_snapshot stale false p chained acc s
  = (free p ;; free p ;; mret acc) s.
Proof.
  intros Hk He Hbad. unfold accept_one, bad, get_packet, get_w, deref, gets.
  unfold mbind, M_bind. rewrite Hk. simpl. rewrite He, Z.eqb_refl. simpl. unfold free.
  destruct (Z.eqb_spec (src_addr (ip (mbuf k))) magic_src_ip) as [Hs|Hs]; simpl.
  2:{ by destruct (on_dev (pktmbuf_free p) s). }
  destruct (Z.leb_spec (data_len (mbuf k)) (sizeof_ether_hdr + sizeof_ipv4_hdr)) as [Hl|Hl].
  { by destruct (on_dev (pktmbuf_free p) s). }
  unfold sizeof_ether_hdr, sizeof_ipv4_hdr in Hl. destruct Hbad as [?|[?| ->]]; [done|lia|].
  by destruct (on_dev (pktmbuf_free p) s).
Qed.

(** A device that records what is freed. *)
Definition traced : rstate (cyclone (list Z)) := mk_rstate raft_new ∅ 0 0 {|
  replicas := 1; c_me := 0; me_quorum := 0; RAFT_LOGENTRIES := 64; router := [0];
  context := mk_context [[0]] 0 1; pm := demo_log; sending_checkpoints := false;
  match_indices := [0]; client_inflight := ∅; core_checkpoint := [-1];
  packets := {[1000 := demo_packet 5 <| mbuf := blank_mbuf <| eth := mk_ether 0 0 8 |> |>]};
  durable := ∅; ae_responses := []; ae_nack_term := -1; ae_nack_idx := 0; ae_nack_ts := 0;
  nack_timeout := 1000; snapshot := 0; nonce_base := 0; dev := [] |}.
Definition record_free (p : Z) : M (list Z) () := modify (λ l, p :: l).

Lemma bad_packet_freed_twice_witness :
  ∃ s', accept_one (λ _, mret None) (λ _ _, mret tt) record_free (λ _ _, mret 0) (demo_packet 0)
          (mret 0) (λ m _, Some m) (λ m _, Some m) (λ _ _, mret 0) (λ _, mret 0) (λ _, zero_entry)
          false 1000 false [] traced = Ret [] s' ∧ dev (world s') = [1000; 1000].
Proof.
  eexists. split; [|shelve].
  refine (eq_trans (bad_packet_freed_twice record_free (λ _, mret None) (λ _ _, mret tt)
    (λ _ _, mret 0) (demo_packet 0) (mret 0) (λ m _, Some m) (λ m _, Some m) (λ _ _, mret 0)
    (λ _, mret 0) (λ _, zero_entry) 1000 false []
    (demo_packet 5 <| mbuf := blank_mbuf <| eth := mk_ether 0 0 8 |> |>) traced _ _ _) _);
    [by vm_compute|by vm_compute|left; by vm_compute|reflexivity].
  Unshelve. by vm_compute.
Defined.

(** A request in the only packet that arrives at the lone leader of
    [CycloneSafe]. *)
Definition client_packet (term : Z) : packet :=
  mk_packet (blank_mbuf <| eth := mk_ether 0 0 8 |> <| ip := mk_ip 0 0 0 0 0 0 0 0 magic_src_ip 0 |>
               <| data_len := 90 |> <| pkt_len := 90 |>)
    (mk_ae_hdr 0 0 0 0 0 0 0 zero_entry) (mk_wal 0 0 0 false)
    [[mk_rpc 1 0 4 1 7 0 0 term 0 0 [] (0, 0) [1; 2; 3; 4]]].
Definition client_rx (term : Z) (_ queue _ : Z) : M () (list rx_pkt) :=
  mret (if queue =? 2 then [mk_rx_pkt 5000 (client_packet term) false (MsgUnknown 0)] else []).
Definition adj_front (m : rte_mbuf) (n : Z) : option rte_mbuf :=
  if data_len m <? n then None else Some (m <| data_len := data_len m - n |>).
Definition grow_front (m : rte_mbuf) (n : Z) : option rte_mbuf :=
  Some (m <| data_len := data_len m + n |>).
(** Rings between the quorums that are empty, a clock that stands still. *)
Definition no_clone (_ _ : Z) : M () (option Z) := mret None.
Definition no_enqueue (_ _ : Z) : M () Z := mret 0.
Definition no_dequeue (_ : Z) : M () (option Z) := mret None.
Definition no_peer (_ : Z) : M () Z := mret 0.
Definition stopped : M () Z := mret 0.
Definition same_usecs (t : Z) : Z := t.
Definition blank_message (_ : nat) : raft_entry := zero_entry.
Abbreviation demo_loop :=
  (run_monitor (λ _, mret (Some blank_mbuf)) (mret (Some blank_mbuf)) (λ _, mret (Some 3000))
     (λ _ _, mret tt) (λ _, mret tt) (λ _ _, mret 0) (λ _ _ _ _, mret 0) (λ _ _ _, mret 0)
     (λ _, []) zero_entry (demo_rpc 0) (demo_packet 0) (λ _, 0) (client_rx 0) stopped
     adj_front grow_front no_clone no_enqueue no_dequeue no_peer same_usecs same_usecs
     blank_message).
Definition loop_end : rstate (cyclone ()) := default server_end (final (demo_loop 1%nat) server_end).

Lemma loop_run : demo_loop 1%nat server_end = Ret tt loop_end.
Proof. vm_compute. reflexivity. Qed.
Lemma server_end_linv : ∃ es, linv plog es server_end.
Proof.
  assert (run_events demo_funcs (λ _, 0) server_events server_start = Ret tt server_end) as Hrun
    by (vm_compute; reflexivity).
  destruct (pres_run _ _ _ _ _ (pres_run_events plog demo_funcs (λ _, 0) server_events
    ltac:(repeat constructor)) Hrun [] server_start_linv) as (es & HI & _). by exists es.
Qed.

Lemma event_loop_keeps_log_witness :
  commit_idx (srv server_end) = 2 ∧ commit_idx (srv loop_end) = 4
  ∧ p_tail (nvm (pm (world loop_end))) = 4
  ∧ ∃ es', log_rep (log (srv loop_end)) es'.
Proof.
  split; [vm_compute; reflexivity|]. split; [vm_compute; reflexivity|].
  split; [vm_compute; reflexivity|]. destruct server_end_linv as [es HI].
  destruct (event_loop_keeps_log (D := ()) (λ _, mret (Some blank_mbuf)) (mret (Some blank_mbuf))
    (λ _, mret (Some 3000)) (λ _ _, mret tt) (λ _, mret tt) (λ _ _, mret 0) (λ _ _ _ _, mret 0)
    (λ _ _ _, mret 0) (λ _, []) zero_entry (demo_rpc 0) (demo_packet 0) (λ _, 0) (client_rx 0)
    stopped adj_front grow_front no_clone no_enqueue no_dequeue no_peer same_usecs same_usecs
    blank_message 1%nat es server_end loop_end HI loop_run)
    as (es' & Hrep & _). exists es'. exact Hrep.
Defined.
