(* ===== verification/Batching.v ===== *)
(** How [accept] of core/cyclone_context.hpp batches the requests of a burst:
    nothing is lost on the way, duplicated or reordered, and batches stay within
    their limits. *)

From S2P Require Import Prelude RaftNode RaftLog RaftServer CircularLog Comm Cyclone EventLoop.
From S2P Require Import RaftEnv RaftSafety CycloneSafe EventLoopSafe.

Section batching.
Context {D : Type}.
Context (packet_alloc : Z → M D (option Z)) (refcnt_update : Z → Z → M D ())
  (pktmbuf_free : Z → M D ()) (ring_enqueue : Z → Z * Z * rpc_t → M D Z) (fresh_packet : packet)
  (tsc : M D Z) (pktmbuf_adj pktmbuf_prepend : rte_mbuf → Z → option rte_mbuf)
  (quorum_enqueue : Z → Z → M D Z) (peer_snapshot : Z → M D Z) (stale : nat → raft_entry).
Abbreviation St := (rstate (cyclone D)).
Implicit Types (s : St) (p q : Z) (acc : list (raft_entry * Z)).
Abbreviation accept_one' :=
  (accept_one packet_alloc refcnt_update pktmbuf_free ring_enqueue fresh_packet tsc pktmbuf_adj
     pktmbuf_prepend quorum_enqueue peer_snapshot stale).
Abbreviation accept_loop' :=
  (accept_loop packet_alloc refcnt_update pktmbuf_free ring_enqueue fresh_packet tsc pktmbuf_adj
     pktmbuf_prepend quorum_enqueue peer_snapshot stale).

(** The requests in a packet and in a batch, in the order the log walks them. *)
Definition segs s q : option (list (list rpc_t)) := segments <$> packets (world s) !! q.
Definition requests_at s q : list rpc_t := concat (default [] (segs s q)).
Definition requests s acc : list rpc_t := concat (map (λ m, requests_at s (data_buf m.1)) acc).

(** ** What the parts of [accept] do to the packets *)
Definition untouched s s' : Prop := packets (world s') = packets (world s).
Definition others p s s' : Prop := ∀ q, q ≠ p → packets (world s') !! q = packets (world s) !! q.
Definition keeps p s s' : Prop := others p s s' ∧ segs s' p = segs s p.
#[local] Instance untouched_preorder : PreOrder untouched.
Proof. split; [done|]. unfold untouched. intros s1 s2 s3; congruence. Qed.
#[local] Instance others_preorder p : PreOrder (others p).
Proof. split; [done|]. intros s1 s2 s3 H12 H23 q Hq. rewrite H23, H12; done. Qed.
#[local] Instance keeps_preorder p : PreOrder (keeps p).
Proof.
  split; [done|]. intros s1 s2 s3 [H12 H12'] [H23 H23']. split; [by etrans|congruence].
Qed.
Lemma untouched_keeps p s s' : untouched s s' → keeps p s s'.
Proof. unfold untouched, keeps, others, segs. intros ->. done. Qed.
Lemma pres_keeps {A} p (m : M St A) : Pres untouched m → Pres (keeps p) m.
Proof. intros Hm s. eapply wp_mono; [apply Hm|done|]. eauto using untouched_keeps. Qed.
Lemma pres_others {A} p (m : M St A) : Pres (keeps p) m → Pres (others p) m.
Proof. intros Hm s. eapply wp_mono; [apply Hm|done|]. intros a s' []. done. Qed.

#[local] Hint Extern 2 (Pres untouched (modify _)) => by apply pres_modify : pres.
#[local] Hint Extern 2 (Pres untouched (upd_w _)) => by apply pres_modify : pres.
#[local] Hint Extern 4 (Pres (keeps _) _) => apply pres_keeps; solve [pres] : pres.
#[local] Hint Extern 4 (Pres (others _) _) => apply pres_others; solve [pres] : pres.
Lemma untouched_on_dev {A} (op : M D A) : Pres untouched (on_dev op).
Proof. intros s. unfold wp, on_dev. by destruct (op _). Qed.
Lemma untouched_get_w : Pres untouched get_w.
Proof. unfold get_w. pres. Qed.
Lemma untouched_get_srv : Pres untouched (get_srv (W := cyclone D)).
Proof. unfold get_srv. pres. Qed.
#[local] Hint Resolve untouched_on_dev untouched_get_w untouched_get_srv : pres.
Lemma untouched_get_packet q : Pres untouched (get_packet q).
Proof. unfold get_packet. pres. Qed.
#[local] Hint Resolve untouched_get_packet : pres.
Lemma untouched_first_rpc q : Pres untouched (first_rpc q).
Proof. unfold first_rpc. pres. Qed.
Lemma untouched_bad q c : Pres untouched (bad pktmbuf_free q c).
Proof. unfold bad. pres. Qed.
Lemma untouched_current_inflight c : Pres untouched (current_inflight (D := D) c).
Proof. unfold current_inflight. pres. Qed.
Lemma untouched_add_inflight c : Pres untouched (add_inflight (D := D) c).
Proof. unfold add_inflight. pres. Qed.
Lemma untouched_wrong_term b r : Pres untouched (wrong_term (D := D) b r).
Proof. unfold wrong_term. pres. Qed.
Lemma untouched_read_snapshot q : Pres untouched (read_snapshot peer_snapshot q).
Proof. unfold read_snapshot. pres. Qed.
#[local] Hint Resolve untouched_first_rpc untouched_bad untouched_current_inflight
  untouched_add_inflight untouched_wrong_term untouched_read_snapshot : pres.
Lemma untouched_read_snapshots qs : Pres untouched (read_snapshots peer_snapshot qs).
Proof. induction qs; simpl; pres. Qed.
Lemma untouched_same_snapshots qs l : Pres untouched (same_snapshots peer_snapshot qs l).
Proof. revert l. induction qs; intros []; simpl; pres. Qed.
#[local] Hint Resolve untouched_read_snapshots untouched_same_snapshots : pres.
Lemma untouched_take_snapshot : Pres untouched (take_snapshot peer_snapshot).
Proof. unfold take_snapshot. pres. Qed.
Lemma untouched_to_core core q : Pres untouched (to_core ring_enqueue core q).
Proof. unfold to_core. pres. Qed.
Lemma untouched_spread_quorums q qs : Pres untouched (spread_quorums refcnt_update quorum_enqueue q qs).
Proof. induction qs; simpl; pres. Qed.
Lemma untouched_mac c m q : Pres untouched (mac c m q).
Proof. unfold mac. pres. Qed.
#[local] Hint Resolve untouched_take_snapshot untouched_to_core untouched_spread_quorums
  untouched_mac : pres.

Lemma wp_upd_packet q f E Q s :
  wp (upd_packet q f) E Q s ↔
  match packets (world s) !! q with
  | Some k => Q tt (s <| world := world s <| packets := <[q := f k]> (packets (world s)) |> |>)
  | None => E UB
  end.
Proof.
  unfold upd_packet, get_packet, get_w, wp, mbind, M_bind, deref. simpl.
  by destruct (packets (world s) !! q).
Qed.
Lemma keeps_upd_mbuf p f :
  (∀ k, segments (f k) = segments k) → Pres (keeps p) (upd_packet p f).
Proof.
  intros Hf s. rewrite wp_upd_packet. destruct (packets (world s) !! p) as [k|] eqn:Hk; [|done].
  split; unfold others, segs; simpl; [intros q Hq; by rewrite lookup_insert_ne|].
  rewrite lookup_insert_eq, Hk. simpl. by rewrite Hf.
Qed.
Lemma others_upd_packet p f : Pres (others p) (upd_packet p f).
Proof.
  intros s. rewrite wp_upd_packet. destruct (packets (world s) !! p) as [k|] eqn:Hk; [|done].
  intros q Hq. simpl. by rewrite lookup_insert_ne.
Qed.
Lemma keeps_adj_or_exit op p len : Pres (keeps p) (adj_or_exit op p len).
Proof. unfold adj_or_exit. pres. by apply keeps_upd_mbuf. Qed.
#[local] Hint Resolve keeps_adj_or_exit : pres.
Lemma keeps_adjust_head p : Pres (keeps p) (adjust_head pktmbuf_adj pktmbuf_prepend p).
Proof. unfold adjust_head. pres. Qed.
Lemma others_spread p rpc :
  Pres (others p) (spread refcnt_update pktmbuf_free tsc pktmbuf_adj quorum_enqueue p rpc).
Proof. unfold spread, upd_rpc. pres. apply others_upd_packet. Qed.
#[local] Hint Resolve keeps_adjust_head others_spread : pres.

(** ** One packet *)
Lemma wp_rel {A B} (R : relation St) (m : M St A) (k : A → M St B) Q s :
  Pres R m → (∀ a s', R s s' → wp (k a) any Q s') → wp (m ≫= k) any Q s.
Proof.
  intros Hm Hk. rewrite wp_bind. eapply wp_mono; [apply Hm|done|]. intros a s' Hc. by apply Hk.
Qed.

Inductive batch_step p acc s acc' s' : Prop :=
| step_dropped : acc' = acc → others p s s' → batch_step p acc s acc' s'
| step_fresh e c :
    acc' = acc ++ [(e, c)] → data_buf e = p → c ≤ 1 → keeps p s s' → batch_step p acc s acc' s'
| step_chained a0 e c len a b :
    acc = a0 ++ [(e, c)] → acc' = a0 ++ [(e <| RaftNode.data_len := len |>, c + 1)] →
    c < CHAIN_SZ → len ≤ MSG_MAXSIZE →
    (∀ q, q ≠ p → q ≠ data_buf e → packets (world s') !! q = packets (world s) !! q) →
    segs s (data_buf e) = Some a → segs s p = Some b → segs s' (data_buf e) = Some (a ++ b) →
    batch_step p acc s acc' s'.

Lemma batch_step_keeps p acc s0 s acc' s' :
  ¬ p ∈ map (λ m, data_buf m.1) acc →
  keeps p s0 s → batch_step p acc s acc' s' → batch_step p acc s0 acc' s'.
Proof.
  intros Hp [Ho Hs] [-> Ho'|e c -> He Hc Hk|a0 e c len a b -> -> Hc Hl Hq Ha Hb Hab].
  - apply step_dropped; [done|]. by etrans.
  - eapply step_fresh; [done..|]. transitivity s; [by split|done].
  - assert (data_buf e ≠ p) as Hne.
    { intros <-. apply Hp. rewrite map_app. simpl. set_solver. }
    eapply step_chained; [done..| | | |done].
    + intros q Hqp Hqe. rewrite Hq, Ho; done.
    + rewrite <- Ha. unfold segs. by rewrite Ho.
    + by rewrite <- Hs.
Qed.

Lemma chain_packet_wp acc p rpc sz s :
  ¬ p ∈ map (λ m, data_buf m.1) acc → chains acc sz = true →
  wp (chain_packet pktmbuf_adj acc p rpc sz) any (λ acc' s', batch_step p acc s acc' s') s.
Proof.
  intros Hp Hch. unfold chain_packet.
  apply (wp_rel (keeps p)); [pres; unfold del_adj_header; pres|]. intros _ s1 Hk1.
  unfold chains in Hch. destruct (last acc) as [[e c]|] eqn:Hlast; [|done].
  apply last_Some in Hlast as [a0 ->].
  unfold get_packet, get_w. rewrite wp_bind, wp_bind, wp_gets, wp_deref.
  destruct (packets (world s1) !! p) as [k|] eqn:Hpk; [|done].
  rewrite wp_bind, wp_deref, wp_bind, wp_upd_packet. 
  destruct (packets (world s1) !! data_buf e) as [h|] eqn:Hh; [|done]. rewrite wp_ret.
  eapply (batch_step_keeps p _ s s1); [done..|].
  eapply (step_chained _ _ _ _ _ a0 e c (u32 (RaftNode.data_len e + sz))); [done| |lia|lia|..].
  - rewrite length_app, take_app_le, take_ge by (simpl; lia). done.
  - intros q Hq Hqe. simpl. by rewrite lookup_insert_ne.
  - unfold segs. by rewrite Hh.
  - unfold segs. by rewrite Hpk.
  - unfold segs. simpl. by rewrite lookup_insert_eq.
Qed.

Lemma accept_update_wp acc p rpc s :
  ¬ p ∈ map (λ m, data_buf m.1) acc → is_multicore_rpc rpc = false →
  wp (accept_update packet_alloc fresh_packet pktmbuf_adj pktmbuf_prepend stale p rpc acc) any
    (λ acc' s', batch_step p acc s acc' s') s.
Proof.
  intros Hp Hmc. unfold accept_update. apply (wp_rel untouched); [pres|]. intros k s1 Hk1.
  apply (untouched_keeps p) in Hk1.
  assert (∀ acc' s', batch_step p acc s1 acc' s' → batch_step p acc s acc' s') as Hkeep
    by (intros; by eapply batch_step_keeps).
  rewrite Hmc. simpl. do 2 (case_match; [rewrite wp_ret; by eapply step_fresh|]).
  destruct (chains _ _) eqn:Hch.
  - eapply wp_mono; [by apply chain_packet_wp|done|]. auto.
  - unfold fresh_message. rewrite Hmc. apply (wp_rel untouched); [pres|]. intros k' s2 Hk2.
    rewrite wp_ret. apply Hkeep. eapply step_fresh; [done|done|done|by apply untouched_keeps].
Qed.

Lemma wp_dropped {A} (m : M St A) p acc s s1 :
  Pres (others p) m → others p s s1 →
  wp (m ;; mret acc) any (λ acc' s', batch_step p acc s acc' s') s1.
Proof.
  intros Hm Hs. apply (wp_rel (others p)); [done|]. intros a s' Hs'. rewrite wp_ret.
  apply step_dropped; [done|by etrans].
Qed.

Lemma accept_rpc_wp acc p s :
  ¬ p ∈ map (λ m, data_buf m.1) acc →
  wp (accept_rpc packet_alloc refcnt_update pktmbuf_free ring_enqueue fresh_packet tsc pktmbuf_adj
        pktmbuf_prepend quorum_enqueue peer_snapshot stale false p acc) any
    (λ acc' s', batch_step p acc s acc' s') s.
Proof.
  intros Hp. unfold accept_rpc. apply (wp_rel untouched); [pres|]. intros rpc s1 Hk1.
  apply (wp_rel untouched); [pres|]. intros full s2 Hk2.
  assert (untouched s s2) as Hk by (by etrans). apply (untouched_keeps p) in Hk as [Ho Hs].
  destruct full; [apply wp_dropped; [pres|done]|].
  destruct (is_multicore_rpc rpc) eqn:Hmc; [apply wp_dropped; [pres|done]|]. simpl.
  destruct (_ =? RPC_REQ_STABLE).
  { apply (wp_rel untouched); [pres|]. intros o s3 Hk3.
    assert (others p s s3) by (etrans; [done|]; by apply untouched_keeps).
    destruct o; apply wp_dropped; try done; pres. apply others_upd_packet. }
  apply (wp_rel untouched); [pres|]. intros b s3 Hk3.
  assert (keeps p s s3) as Hks by (transitivity s2; [by split|by apply untouched_keeps]).
  destruct b; [apply wp_dropped; [pres|apply Hks]|].
  destruct (negb _).
  { apply (wp_rel untouched); [pres|]. intros w s4 Hk4. apply wp_dropped; [pres|].
    transitivity s3; [apply Hks|by apply untouched_keeps]. }
  eapply wp_mono; [by apply accept_update_wp|done|]. intros acc' s' Hstep.
  by eapply batch_step_keeps.
Qed.

Lemma accept_one_wp acc p c s :
  ¬ p ∈ map (λ m, data_buf m.1) acc →
  wp (accept_one' false p c acc) any (λ acc' s', batch_step p acc s acc' s') s.
Proof.
  intros Hp. unfold accept_one. apply (wp_rel untouched); [pres|]. intros b s1 Hk1.
  apply (untouched_keeps p) in Hk1. destruct b; [apply wp_dropped; [pres|apply Hk1]|].
  apply (wp_rel (keeps p)); [pres|]. intros _ s2 Hk2.
  eapply wp_mono; [by apply accept_rpc_wp|done|]. intros acc' s' Hstep.
  eapply batch_step_keeps; [done| |done]. by etrans.
Qed.

(** ** The whole burst *)
Abbreviation bufs := (map (λ m : raft_entry * Z, data_buf m.1)).
Definition bounded (m : raft_entry * Z) : Prop :=
  m.2 ≤ CHAIN_SZ ∧ (1 < m.2 → RaftNode.data_len m.1 ≤ MSG_MAXSIZE).

Lemma requests_ext s s' acc :
  (∀ q, q ∈ bufs acc → packets (world s') !! q = packets (world s) !! q) →
  requests s' acc = requests s acc.
Proof.
  intros H. unfold requests. f_equal. apply map_ext_in. intros m Hm.
  unfold requests_at, segs. rewrite H; [done|]. apply list_elem_of_In. by apply (in_map (λ m : raft_entry * Z, data_buf m.1)).
Qed.

Lemma batch_step_spec p acc s acc' s' :
  batch_step p acc s acc' s' → NoDup (bufs acc) → ¬ p ∈ bufs acc → Forall bounded acc →
  (requests s' acc' = requests s acc ∨ requests s' acc' = requests s acc ++ requests_at s p)
  ∧ NoDup (bufs acc') ∧ (∀ q, q ∈ bufs acc' → q = p ∨ q ∈ bufs acc) ∧ Forall bounded acc'
  ∧ (∀ q, q ≠ p → ¬ q ∈ bufs acc → packets (world s') !! q = packets (world s) !! q).
Proof.
  intros [-> Ho|e c -> <- Hc [Ho Hs]|a0 e c len a b -> -> Hc Hl Hq Ha Hb Hab] Hnd Hp Hbd.
  - split_and!; auto. left. apply requests_ext. intros q Hq. apply Ho. naive_solver.
  - assert (requests s' acc = requests s acc) as Hr.
    { apply requests_ext. intros q Hq. apply Ho. naive_solver. }
    rewrite map_app. simpl. split_and!.
    + right. unfold requests in *. rewrite map_app, concat_app, Hr. simpl. rewrite app_nil_r.
      unfold requests_at. by rewrite Hs.
    + apply NoDup_app. split_and!; [done| |apply NoDup_singleton]. set_solver.
    + set_solver.
    + apply Forall_app. split; [done|]. apply Forall_singleton. split; simpl; unfold CHAIN_SZ; lia.
    + intros q Hqp _. by apply Ho.
  - rewrite map_app in *. simpl in *. split_and!.
    + right. unfold requests. rewrite !map_app, !concat_app. simpl. rewrite !app_nil_r.
      rewrite <- app_assoc. f_equal.
      * apply requests_ext. intros q Hqa. apply Hq; [set_solver|].
        apply NoDup_app in Hnd as (_ & Hd & _). set_solver.
      * unfold requests_at. rewrite Hab, Ha, Hb. simpl. by rewrite concat_app.
    + done.
    + intros q Hqa. right. by rewrite map_app.
    + apply Forall_app in Hbd as [? ?]. apply Forall_app. split; [done|].
      apply Forall_singleton. split; simpl; lia.
    + intros q Hqp Hqn. apply Hq; [done|]. intros ->. apply Hqn. rewrite map_app.
      apply elem_of_app. right. by apply list_elem_of_singleton.
Qed.

Lemma accept_loop_wp ps acc s :
  NoDup (bufs acc) → NoDup (map fst ps) → (∀ p, p ∈ map fst ps → ¬ p ∈ bufs acc) →
  Forall bounded acc →
  wp (accept_loop' false ps acc) any
    (λ acc' s', Forall bounded acc' ∧ ∃ kept, kept `sublist_of` map fst ps
       ∧ requests s' acc' = requests s acc ++ concat (map (requests_at s) kept)) s.
Proof.
  revert acc s. induction ps as [|[p c] ps IH]; intros acc s Hnd Hps Hdis Hbd; simpl in *.
  { rewrite wp_ret. split; [done|]. exists []. split; [done|]. by rewrite app_nil_r. }
  apply NoDup_cons in Hps as [Hpn Hps]. rewrite wp_bind.
  eapply wp_mono; [apply accept_one_wp, Hdis; set_solver|done|]. intros acc1 s1 Hstep.
  destruct (batch_step_spec _ _ _ _ _ Hstep Hnd ltac:(apply Hdis; set_solver) Hbd)
    as (Hr & Hnd1 & Hin & Hbd1 & Hsame).
  eapply wp_mono; [apply IH; [done|done| |done]|done|].
  { intros q Hq Hqa. destruct (Hin q Hqa) as [->|]; [done|]. apply (Hdis q); set_solver. }
  intros acc' s' (Hbd' & kept & Hsub & Hreq). split; [done|].
  assert (map (requests_at s1) kept = map (requests_at s) kept) as Hk.
  { apply map_ext_in. intros q Hq. unfold requests_at, segs. rewrite Hsame; [done| |].
    - intros ->. apply Hpn. eapply elem_of_sublist; [|done]. by apply list_elem_of_In.
    - apply Hdis. right. eapply elem_of_sublist; [|done]. by apply list_elem_of_In. }
  rewrite Hk in Hreq. destruct Hr as [Hr|Hr].
  - exists kept. split; [by constructor|]. by rewrite Hreq, Hr.
  - exists (p :: kept). split; [by constructor|]. simpl. by rewrite Hreq, Hr, <- app_assoc.
Qed.
End batching.


(** Two requests of one client, at the addresses 5000 and 5001. *)
Definition two_requests : rstate (cyclone ()) :=
  server_end <| world := world server_end <| packets :=
    <[5000 := client_packet 0]> (<[5001 := client_packet 0]> (packets (world server_end))) |> |>.
Definition two_accepted : outcome (rstate (cyclone ())) (list (raft_entry * Z)) :=
  accept_loop (λ _, mret (Some 3000)) (λ _ _, mret tt) (λ _, mret tt) (λ _ _, mret 0)
    (demo_packet 0) stopped adj_front grow_front no_enqueue no_peer blank_message
    false [(5000, false); (5001, false)] [] two_requests.
Definition two_batch : list (raft_entry * Z) :=
  match two_accepted with Ret acc _ => acc | Stop _ => [] end.
Definition two_end : rstate (cyclone ()) :=
  match two_accepted with Ret _ s => s | Stop _ => two_requests end.
Lemma two_run : two_accepted = Ret two_batch two_end.
Proof. vm_compute. reflexivity. Qed.

