(* ===== verification/Dispatcher.v ===== *)
(** The executor threads (core/dispatcher.cpp): taking requests from the ring of a
    core, waiting for Raft's decision, running the application and answering the
    client.

    The status records of the cores are shared: [interfere] is what the other
    threads do between two accesses of the rendezvous, and [read_rep] one read of
    the volatile decision in a packet.  [actions] records the calls to the
    outside in their order.  The loops that wait take fuel and end in [Hang]
    without it. *)

From S2P Require Import Prelude RaftNode Comm Cyclone EventLoop Rendezvous.

Definition num_queues : Z := 2.
Definition RPC_REP_OK : Z := 6.
Definition sizeof_ic_rdv : Z := 14.

Record core_status_t := mk_core {
  cs_exec_term : Z;
  cs_checkpoint_idx : Z;
  cs_stable : Z;
  cs_nonce : Z * Z;
  cs_success : Z;
  cs_barrier : Z * Z
}.
#[export] Instance core_fields : FieldsOf core_status_t :=
  λ r, mk_core (cs_exec_term r) (cs_checkpoint_idx r) (cs_stable r) (cs_nonce r) (cs_success r)
         (cs_barrier r).

Record rpc_cookie_t := mk_cookie {
  core_id : Z;
  log_idx : Z;
  ret_size : Z;
  ret_value : list Z;
  ck_core_mask : Z
}.
#[export] Instance cookie_fields : FieldsOf rpc_cookie_t :=
  λ r, mk_cookie (core_id r) (log_idx r) (ret_size r) (ret_value r) (ck_core_mask r).

Inductive action :=
| ACall (data : list Z) (len : Z) (ck : rpc_cookie_t)
| AReply (req : rpc_t) (code : Z) (payload : list Z) (sz : Z)
| AGc (ck : rpc_cookie_t)
| AFree (p : Z).

(** The words of a core's ring. *)
Inductive ring_word := RQuorum (q : Z) | RPacket (p : Z) | RRpc (rpc : rpc_t).

Record exst (D : Type) := mk_exst {
  cores : list core_status_t;
  inflight : gmap (Z * Z) Z;
  actions : list action;
  edev : D
}.
Arguments mk_exst {D} _ _ _ _.
Arguments cores {D} _.
Arguments inflight {D} _.
Arguments actions {D} _.
Arguments edev {D} _.
#[export] Instance exst_fields D : FieldsOf (exst D) :=
  λ r, mk_exst (cores r) (inflight r) (actions r) (edev r).

(** The bytes of an [unsigned int]. *)
Definition le32 (x : Z) : list Z :=
  [x mod 2 ^ 8; x / 2 ^ 8 mod 2 ^ 8; x / 2 ^ 16 mod 2 ^ 8; x / 2 ^ 24 mod 2 ^ 8].

(** The leader's record and the executed terms of all cores, as [Rendezvous] sees
    them. *)
Definition view (cs : list core_status_t) (l : Z) : option shared :=
  match zlookup cs l with
  | Some c => Some {|
      exec_term := λ i, default 0 (cs_exec_term <$> zlookup cs i);
      stable := cs_stable c; mc_id := (cs_nonce c).1; rtc_ts := (cs_nonce c).2;
      success := cs_success c; barrier0 := (cs_barrier c).1; barrier1 := (cs_barrier c).2 |}
  | None => None
  end.
Definition put_view (cs : list core_status_t) (l : Z) (h : shared) : list core_status_t :=
  match zlookup cs l with
  | Some c => zinsert cs l (c <| cs_stable := stable h |> <| cs_nonce := (mc_id h, rtc_ts h) |>
                           <| cs_success := success h |>
                           <| cs_barrier := (barrier0 h, barrier1 h) |>)
  | None => cs
  end.

Section executor.
Context {D : Type}.
Context (ctx : dpdk_context_t) (pktmbuf_alloc : Z → M D (option rte_mbuf))
  (pktmbuf_free : Z → M D ()) (tx_buffer : Z → Z → Z → rte_mbuf → M D Z)
  (tx_buffer_flush : Z → Z → Z → M D Z) (ring_dequeue : Z → M D (option ring_word)).
(** The application, and the memory of a request header. *)
Context (rpc_callback : list Z → Z → rpc_cookie_t → M D rpc_cookie_t)
  (gc_callback : rpc_cookie_t → M D ()) (rpc_bytes : rpc_t → list Z) (resp_junk : rpc_t).
(** Shared memory the Raft thread writes. *)
Context (read_rep : Z → M D Z) (read_snapshot : Z → M D Z) (packet_wal : Z → M D wal_entry_t).
Context (interfere : M (exst D) ()).
Context (executor_threads tid : Z).
Abbreviation E := (M (exst D)).

Definition on_edev {A} (op : M D A) : E A := λ s,
  match op (edev s) with
  | Ret a d => Ret a (s <| edev := d |>)
  | Stop f => Stop f
  end.
Definition act (a : action) : E () := modify (λ s, s <| actions := actions s ++ [a] |>).

Definition client_reply (req rep : rpc_t) (payload : list Z) (sz q : Z) : E () :=
  o ← on_edev (pktmbuf_alloc q);
  port ← queue2port q (ports ctx);
  match o with
  | None => fail (Exit (-1))
  | Some m =>
    let rep := rep <| channel_seq := channel_seq req |> in
    data ← (if 0 <? sz then
              if (sz <=? Z.of_nat (length payload)) && (sizeof_rpc + sz <=? MSG_MAXSIZE)
              then mret (rpc_bytes rep ++ take (Z.to_nat sz) payload) else fail UB
            else mret (rpc_bytes rep));
    m ← cyclone_prep_mbuf_server2client ctx port (requestor req) (client_port req) m data
          (sizeof_rpc + sz);
    on_edev (cyclone_tx tx_buffer tx_buffer_flush ctx m q) ;;
    act (AReply req (code rep) payload sz)
  end.

Definition init_rpc_cookie_info (ck : rpc_cookie_t) (rpc : rpc_t) (wal : wal_entry_t) : rpc_cookie_t :=
  ck <| log_idx := idx wal |> <| ret_size := 0 |> <| ret_value := [] |>
     <| ck_core_mask := core_mask rpc |>.

(** ** The rendezvous, one shared access at a time *)
Fixpoint run_leader (fuel : nat) (l mask : Z) (snap : Z → Z) (nonce : Z * Z) (pc : lpc) : E Z :=
  match pc with
  | LDone r => mret r
  | _ =>
    match fuel with
    | O => fail Hang
    | S fuel =>
      s ← get;
      h ← deref (view (cores s) l);
      '(pc, h) ← deref (leader_step executor_threads l mask snap nonce.1 nonce.2 pc h);
      modify (λ s, s <| cores := put_view (cores s) l h |>) ;;
      interfere ;;
      run_leader fuel l mask snap nonce pc
    end
  end.
Fixpoint run_follower (fuel : nat) (l mask : Z) (snap : Z → Z) (nonce : Z * Z) (pc : fpc) : E Z :=
  match pc with
  | FRefused => mret 0
  | FDone v => mret v
  | _ =>
    match fuel with
    | O => fail Hang
    | S fuel =>
      s ← get;
      h ← deref (view (cores s) l);
      '(pc, h) ← deref (follower_step l mask snap nonce.1 nonce.2 tid pc h);
      modify (λ s, s <| cores := put_view (cores s) l h |>) ;;
      interfere ;;
      run_follower fuel l mask snap nonce pc
    end
  end.
Definition do_multicore_redezvous (fuel : nat) (ck : rpc_cookie_t) (rpc : rpc_t) : E Z :=
  let mask := core_mask rpc in
  let core_leader := lowest_bit mask in
  if Z.of_nat (length (rpc_terms rpc)) <? num_quorums then fail UB else
  let snap q := default 0 (zlookup (rpc_terms rpc) q) in
  if core_id ck =? core_leader then
    r ← run_leader fuel core_leader mask snap (rdv rpc) LEnter; mret (if r =? 0 then 0 else 1)
  else
    r ← run_follower fuel core_leader mask snap (rdv rpc) FTerm; mret (if r =? 0 then 0 else 1).

(** ** Running a request *)
Fixpoint wait_rep (fuel : nat) (p : Z) : E () :=
  match fuel with
  | O => fail Hang
  | S fuel =>
    r ← on_edev (read_rep p);
    if r =? REP_UNKNOWN then wait_rep fuel p else mret tt
  end.
(** [if(wal->rep == REP_SUCCESS && cstatus->exec_term < wal->term) ...]. *)
Definition advance_term (p : Z) (wal : wal_entry_t) : E () :=
  r ← on_edev (read_rep p);
  s ← get;
  c ← aget (cores s) tid;
  when ((r =? REP_SUCCESS) && (cs_exec_term c <? wal_term wal))
    (modify (λ s, s <| cores := zinsert (cores s) tid (c <| cs_exec_term := wal_term wal |>) |>)).

(** The data of the application; a request on several cores carries the terms and
    the nonce in front. *)
Definition app_len (rpc : rpc_t) (len : Z) : Z :=
  if is_multicore_rpc rpc then len - (num_quorums * 4 + sizeof_ic_rdv) else len.
Definition call_app (rpc : rpc_t) (len : Z) (ck : rpc_cookie_t) : E rpc_cookie_t :=
  act (ACall (user_data rpc) (app_len rpc len) ck) ;;
  on_edev (rpc_callback (user_data rpc) (app_len rpc len) ck).

Definition exec_rpc_internal (fuel : nat) (rpc : rpc_t) (p : Z) (wal : wal_entry_t) (len : Z)
    (ck : rpc_cookie_t) : E (Z * rpc_cookie_t) :=
  let ck := init_rpc_cookie_info ck rpc wal in
  wait_rep fuel p ;;
  r ← on_edev (read_rep p);
  if negb (r =? REP_SUCCESS) then mret (-1, ck) else
  advance_term p wal ;;
  met ← (if is_multicore_rpc rpc then do_multicore_redezvous fuel ck rpc else mret 1);
  if met =? 0 then mret (-1, ck) else
  let checkpoint_idx := log_idx ck in
  ck ← call_app rpc len ck;
  s ← get;
  c ← aget (cores s) tid;
  modify (λ s, s <| cores := zinsert (cores s) tid (c <| cs_checkpoint_idx := checkpoint_idx |>) |>) ;;
  mret (0, ck).

Definition exec_rpc_internal_ro (fuel : nat) (rpc : rpc_t) (wal : wal_entry_t) (len : Z)
    (ck : rpc_cookie_t) : E (Z * rpc_cookie_t) :=
  let ck := init_rpc_cookie_info ck rpc wal in
  met ← (if is_multicore_rpc rpc then do_multicore_redezvous fuel ck rpc else mret 1);
  if met =? 0 then mret (-1, ck) else
  ck ← call_app rpc len ck;
  mret (0, ck).

Definition reply_queue : Z := ports ctx + num_queues * num_quorums + tid.
Definition reply_ok (rpc : rpc_t) (payload : list Z) (sz : Z) : E () :=
  client_reply rpc (resp_junk <| code := RPC_REP_OK |>) payload sz reply_queue.

(** The end of both kinds of request: the answer of the leader's lowest core and
    the collection of the result. *)
Definition finish (quorum : Z) (rpc : rpc_t) (wal : wal_entry_t) (e : Z) (ck : rpc_cookie_t) : E () :=
  (if (lowest_bit (core_mask rpc) =? tid) && leader wal && (e =? 0) then
     s ← on_edev (read_snapshot quorum);
     when (Z.odd s) (reply_ok rpc (ret_value ck) (ret_size ck))
   else mret tt) ;;
  when (e =? 0) (act (AGc ck) ;; on_edev (gc_callback ck)).

Definition exec (fuel : nat) (quorum p : Z) (rpc : rpc_t) (wal : wal_entry_t) (ck : rpc_cookie_t)
  : E () :=
  let ck := ck <| core_id := tid |> in
  let sz := payload_sz rpc in
  if code rpc =? RPC_REQ_KICKER then wait_rep fuel p ;; advance_term p wal
  else if code rpc =? RPC_REQ_STABLE then
    reply_ok rpc (flat_map le32 (rpc_terms rpc)) (num_quorums * 4)
  else if negb (Z.land (flags rpc) RPC_FLAG_RO =? 0) then
    '(e, ck) ← exec_rpc_internal_ro fuel rpc wal sz ck;
    finish quorum rpc wal e ck
  else if (code rpc =? RPC_REQ_NODEDEL) || (code rpc =? RPC_REQ_NODEADD) then
    wait_rep fuel p ;;
    advance_term p wal ;;
    if leader wal then
      r ← on_edev (read_rep p);
      if r =? REP_SUCCESS then
        s ← on_edev (read_snapshot quorum);
        when (Z.odd s) (reply_ok rpc [] 0)
      else mret tt
    else mret tt
  else
    '(e, ck) ← exec_rpc_internal fuel rpc p wal sz ck;
    finish quorum rpc wal e ck.

(** ** The loop *)
Fixpoint dequeue_spin (fuel : nat) : E ring_word :=
  match fuel with
  | O => fail Hang
  | S fuel =>
    o ← on_edev (ring_dequeue tid);
    match o with Some w => mret w | None => dequeue_spin fuel end
  end.
Definition remove_inflight (quorum client : Z) : E () :=
  if (0 <=? client) && (client <? MAX_CLIENTS) then
    modify (λ s, s <| inflight :=
      <[(quorum, client) := i8 (default 0 (inflight s !! (quorum, client)) - 1)]> (inflight s) |>)
  else fail UB.
(** After [exec]. *)
Definition release (quorum p : Z) (rpc : rpc_t) : E () :=
  (if negb (is_multicore_rpc rpc) then remove_inflight quorum (client_id rpc)
   else when (tid =? lowest_bit (core_mask rpc)) (remove_inflight 0 (client_id rpc))) ;;
  act (AFree p) ;;
  on_edev (pktmbuf_free p).
(** One round of [operator()]; the cookie is a member and keeps its values. *)
Definition executor_round (fuel : nat) (ck : rpc_cookie_t) : E () :=
  o ← on_edev (ring_dequeue tid);
  match o with
  | None => mret tt
  | Some (RQuorum quorum) =>
    m ← dequeue_spin fuel;
    b ← dequeue_spin fuel;
    match m, b with
    | RPacket p, RRpc rpc =>
      wal ← on_edev (packet_wal p);
      exec fuel quorum p rpc wal ck ;;
      release quorum p rpc
    | _, _ => fail UB
    end
  | Some _ => fail UB
  end.
End executor.

(** ** What a round releases *)
Section releases.
Context {D : Type}.
Context (ctx : dpdk_context_t) (pktmbuf_alloc : Z → M D (option rte_mbuf))
  (pktmbuf_free : Z → M D ()) (tx_buffer : Z → Z → Z → rte_mbuf → M D Z)
  (tx_buffer_flush : Z → Z → Z → M D Z) (ring_dequeue : Z → M D (option ring_word))
  (rpc_callback : list Z → Z → rpc_cookie_t → M D rpc_cookie_t)
  (gc_callback : rpc_cookie_t → M D ()) (rpc_bytes : rpc_t → list Z) (resp_junk : rpc_t)
  (read_rep : Z → M D Z) (read_snapshot : Z → M D Z) (packet_wal : Z → M D wal_entry_t)
  (interfere : M (exst D) ()) (executor_threads tid : Z).
Implicit Types (s : exst D).

Definition frees (a : action) : bool := match a with AFree _ => true | _ => false end.

(** Neither a packet nor a place of the client [c] is given back. *)
Context (c : Z).
Definition holds s s' : Prop :=
  (∀ q, inflight s' !! (q, c) = inflight s !! (q, c))
  ∧ ∃ new, actions s' = actions s ++ new ∧ Forall (λ a, frees a = false) new.
#[local] Instance holds_preorder : PreOrder holds.
Proof.
  split.
  - intros s. split; [done|]. exists []. by rewrite app_nil_r.
  - intros s1 s2 s3 (Hi & n & Hn & Hf) (Hi' & n' & Hn' & Hf'). split; [intros q; by rewrite Hi', Hi|].
    exists (n ++ n'). split; [by rewrite Hn', Hn, <- app_assoc|]. by apply Forall_app.
Qed.
(** The threads that run between two steps of a rendezvous do other things at will. *)
Context (Hinterfere : Pres holds interfere).

Lemma holds_quiet f :
  (∀ s, inflight (f s) = inflight s ∧ actions (f s) = actions s) → Pres holds (modify f).
Proof.
  intros Hf. apply pres_modify. intros s. destruct (Hf s) as [Hi Ha]. split; [by rewrite Hi|].
  exists []. by rewrite Ha, app_nil_r.
Qed.
#[local] Hint Extern 2 (Pres holds (modify _)) => by apply holds_quiet : pres.
Lemma holds_on_edev {A} (op : M D A) : Pres holds (on_edev op).
Proof.
  intros s. unfold wp, on_edev. destruct (op _); [|done]. split; [done|]. exists [].
  by rewrite app_nil_r.
Qed.
Lemma holds_act a : frees a = false → Pres holds (act a).
Proof. intros Ha. apply pres_modify. intros s. split; [done|]. exists [a]. auto. Qed.
#[local] Hint Extern 2 (Pres holds (act _)) => by apply holds_act : pres.
#[local] Hint Resolve holds_on_edev Hinterfere : pres.
Lemma holds_run_leader fuel l mask snap nonce pc :
  Pres holds (run_leader interfere executor_threads fuel l mask snap nonce pc).
Proof. revert pc. induction fuel; intros pc; destruct pc; cbn [run_leader]; pres. Qed.
Lemma holds_run_follower fuel l mask snap nonce pc :
  Pres holds (run_follower interfere tid fuel l mask snap nonce pc).
Proof. revert pc. induction fuel; intros pc; destruct pc; cbn [run_follower]; pres. Qed.
Lemma holds_wait_rep fuel p : Pres holds (wait_rep read_rep fuel p).
Proof. induction fuel; simpl; pres. Qed.
Lemma holds_advance_term p wal : Pres holds (advance_term read_rep tid p wal).
Proof. unfold advance_term. pres. Qed.
#[local] Hint Resolve holds_run_leader holds_run_follower holds_wait_rep holds_advance_term : pres.
Lemma holds_rendezvous fuel ck rpc :
  Pres holds (do_multicore_redezvous interfere executor_threads tid fuel ck rpc).
Proof. unfold do_multicore_redezvous. pres. Qed.
Lemma holds_call_app rpc len ck : Pres holds (call_app rpc_callback rpc len ck).
Proof. unfold call_app. pres. Qed.
Lemma holds_reply_ok rpc payload sz :
  Pres holds (reply_ok ctx pktmbuf_alloc tx_buffer tx_buffer_flush rpc_bytes resp_junk tid rpc
    payload sz).
Proof.
  unfold reply_ok, client_reply, queue2port, cyclone_prep_mbuf_server2client, mac, fill. pres.
Qed.
#[local] Hint Resolve holds_rendezvous holds_call_app holds_reply_ok : pres.
Lemma holds_exec fuel quorum p rpc wal ck :
  Pres holds (exec ctx pktmbuf_alloc tx_buffer tx_buffer_flush rpc_callback gc_callback rpc_bytes
    resp_junk read_rep read_snapshot interfere executor_threads tid fuel quorum p rpc wal ck).
Proof. unfold exec, exec_rpc_internal, exec_rpc_internal_ro, finish. pres. Qed.
Lemma holds_dequeue_spin fuel : Pres holds (dequeue_spin ring_dequeue tid fuel).
Proof. induction fuel; simpl; pres. Qed.

Lemma wp_on_edev {A} (op : M D A) E Q s :
  wp (on_edev op) E Q s ↔
  match op (edev s) with Ret a d => Q a (s <| edev := d |>) | Stop f => E f end.
Proof. unfold wp, on_edev. by destruct (op _). Qed.
Lemma wp_holds {A B} (m : M (exst D) A) (k : A → M (exst D) B) Q s s0 :
  Pres holds m → holds s0 s → (∀ a s', holds s0 s' → wp (k a) any Q s') → wp (m ≫= k) any Q s.
Proof.
  intros Hm Hs Hk. rewrite wp_bind. eapply wp_mono; [apply Hm|done|]. intros a s' Hc.
  apply Hk. by etrans.
Qed.

(** Where the request [rpc] of [quorum] takes a place of its client on this core. *)
Definition place quorum rpc : option Z :=
  if negb (is_multicore_rpc rpc) then Some quorum
  else if tid =? lowest_bit (core_mask rpc) then Some 0 else None.
(** The request [rpc] in packet [p] of [quorum] has been given back. *)
Definition given_back quorum p rpc s s' : Prop :=
  (∃ new, actions s' = actions s ++ new ++ [AFree p] ∧ Forall (λ a, frees a = false) new)
  ∧ (client_id rpc = c → ∀ q, inflight s' !! (q, c) =
       if bool_decide (place quorum rpc = Some q) then Some (i8 (default 0 (inflight s !! (q, c)) - 1))
       else inflight s !! (q, c)).

Lemma release_wp quorum p rpc s0 s :
  holds s0 s →
  wp (release pktmbuf_free tid quorum p rpc) any (λ _ s', given_back quorum p rpc s0 s') s.
Proof.
  intros (Hi & new & Hn & Hf). unfold release. rewrite wp_bind.
  assert (∀ s1, actions s1 = actions s →
    wp (act (AFree p) ;; on_edev (pktmbuf_free p)) any (λ _ s', inflight s' = inflight s1
      ∧ actions s' = actions s0 ++ new ++ [AFree p]) s1) as Htail.
  { intros s1 Ha. unfold act. rewrite wp_bind, wp_modify, wp_on_edev. case_match; [|done]. simpl.
    split; [done|]. by rewrite Ha, Hn, <- app_assoc. }
  unfold given_back, place.
  destruct (is_multicore_rpc rpc); simpl; [rewrite wp_when; case_match|];
    unfold remove_inflight; try (case_match; [|done]; rewrite wp_modify);
    (eapply wp_mono; [by apply Htail|done|]); intros u s' [-> ->]; (split; [by exists new|]);
    intros Hcl q; rewrite <- (Hi q); cbn [inflight field_update]; rewrite ?Hcl;
    case_bool_decide as Hq; try done; try (injection Hq as <-; by rewrite lookup_insert_eq);
    rewrite lookup_insert_ne; congruence.
Qed.

(** C24: an executor gives back what it holds exactly once.  In a round that
    returns, either the ring was empty and nothing has changed, or the first word it
    delivered was a quorum, the next two, waited for one after the other, a packet and
    a request; then that packet is freed once, as the last thing, and the place that
    request takes among those of its client is given back once: by the only core of
    the request at its quorum, or by the lowest one at quorum 0.  The counts are those
    of one client; the threads that run while a request on several cores waits in the
    rendezvous are taken to leave that client's counts alone and may do anything to
    the other clients' counts and to the cores. *)
Theorem executor_round_releases fuel ck s s' :
  executor_round ctx pktmbuf_alloc pktmbuf_free tx_buffer tx_buffer_flush ring_dequeue rpc_callback
    gc_callback rpc_bytes resp_junk read_rep read_snapshot packet_wal interfere executor_threads tid
    fuel ck s = Ret tt s' →
  ∃ o d, ring_dequeue tid (edev s) = Ret o d ∧
  match o with
  | None => s' = s <| edev := d |>
  | Some w => ∃ quorum p rpc s1 s2, w = RQuorum quorum
      ∧ dequeue_spin ring_dequeue tid fuel (s <| edev := d |>) = Ret (RPacket p) s1
      ∧ dequeue_spin ring_dequeue tid fuel s1 = Ret (RRpc rpc) s2
      ∧ given_back quorum p rpc s s'
  end.
Proof.
  unfold executor_round. unfold mbind at 1, M_bind at 1, on_edev at 1.
  destruct (ring_dequeue tid (edev s)) as [o d|]; [|done]. intros Hrun. exists o, d. split; [done|].
  assert (holds s (s <| edev := d |>)) as Hs by (split; [done|exists []; by rewrite app_nil_r]).
  destruct o as [[quorum|p|rpc]|]; [|done|done|by injection Hrun].
  revert Hrun. unfold mbind at 1, M_bind at 1.
  destruct (dequeue_spin _ _ _ (s <| edev := d |>)) as [m s1|] eqn:Hm; [|done].
  apply (pres_run _ _ _ _ _ (holds_dequeue_spin fuel)) in Hm as Hs1.
  unfold mbind at 1, M_bind at 1. destruct (dequeue_spin _ _ _ s1) as [b s2|] eqn:Hb; [|done].
  apply (pres_run _ _ _ _ _ (holds_dequeue_spin fuel)) in Hb as Hs2.
  destruct m as [|p|]; try done. destruct b as [| |rpc]; try done. intros Hrun.
  exists quorum, p, rpc, s1, s2. split_and!; [done|done|done|].
  refine (wp_any_ret _ (λ _ s', given_back quorum p rpc s s') s2 tt s' _ Hrun).
  assert (holds s s2) as Hs02 by (etrans; [exact Hs|]; by etrans).
  eapply wp_holds; [apply holds_on_edev|exact Hs02|]. intros wal s3 Hs3.
  eapply wp_holds; [apply holds_exec|exact Hs3|]. intros u s4 Hs4. by apply release_wp.
Qed.
End releases.

(** ** The answer to a committed request *)
Section answers.
Context {D : Type}.
Context (ctx : dpdk_context_t) (pktmbuf_alloc : Z → M D (option rte_mbuf))
  (tx_buffer : Z → Z → Z → rte_mbuf → M D Z) (tx_buffer_flush : Z → Z → Z → M D Z)
  (rpc_callback : list Z → Z → rpc_cookie_t → M D rpc_cookie_t)
  (gc_callback : rpc_cookie_t → M D ()) (rpc_bytes : rpc_t → list Z) (resp_junk : rpc_t)
  (read_rep : Z → M D Z) (read_snapshot : Z → M D Z)
  (interfere : M (exst D) ()) (executor_threads tid : Z).
Implicit Types (s : exst D) (d : D).

(** The decision on packet [p] is [v] and shows after [undecided d] more reads;
    the other calls do not delay it. *)
Context (undecided : D → nat) (p quorum v snap : Z) (app : list Z → Z → rpc_cookie_t → rpc_cookie_t).
Record device_runs : Prop := {
  dr_waits : ∀ d n, undecided d = S n →
    ∃ d', read_rep p d = Ret REP_UNKNOWN d' ∧ undecided d' = n;
  dr_decided : ∀ d, undecided d = 0%nat → ∃ d', read_rep p d = Ret v d' ∧ undecided d' = 0%nat;
  dr_snapshot : ∀ d, ∃ d', read_snapshot quorum d = Ret snap d' ∧ undecided d' = undecided d;
  dr_alloc : ∀ q d, ∃ o d', pktmbuf_alloc q d = Ret o d' ∧ undecided d' = undecided d
    ∧ ∀ m, o = Some m → MSG_MAXSIZE ≤ room m;
  dr_tx : ∀ port qi q m d, ∃ n d', tx_buffer port qi q m d = Ret n d' ∧ undecided d' = undecided d
    ∧ 0 ≤ n ≤ 1;
  dr_flush : ∀ port qi q d, ∃ n d', tx_buffer_flush port qi q d = Ret n d'
    ∧ undecided d' = undecided d ∧ 0 ≤ n ≤ PKT_BURST;
  dr_app : ∀ data len ck d, ∃ d', rpc_callback data len ck d = Ret (app data len ck) d'
    ∧ undecided d' = undecided d;
  dr_gc : ∀ ck d, ∃ d', gc_callback ck d = Ret tt d' ∧ undecided d' = undecided d
}.
Context (Hdev : device_runs) (Hv : v ≠ REP_UNKNOWN).

(** The client [req] came from can be reached from this core's queue. *)
Record reachable_client (req : rpc_t) : Prop := {
  rc_ports : 0 < ports ctx ≤ INT_MAX;
  rc_queue : 0 ≤ reply_queue ctx tid ≤ INT_MAX;
  rc_client : ∃ row a, zlookup (mc_addresses ctx) (requestor req) = Some row ∧ zlookup row 0 = Some a;
  rc_me : ∃ row a, zlookup (mc_addresses ctx) (me ctx) = Some row
    ∧ zlookup row (reply_queue ctx tid mod ports ctx) = Some a;
  rc_bytes : ∀ r, Z.of_nat (length (rpc_bytes r)) = sizeof_rpc
}.

(** The pool has no buffer for an answer, which ends the process. *)
Definition no_buffer (f : fault) : Prop :=
  f = Exit (-1) ∧ ∃ d d', pktmbuf_alloc (reply_queue ctx tid) d = Ret None d'.

(** Everything of the state but the device. *)
Definition same_exec s s' : Prop := cores s' = cores s ∧ inflight s' = inflight s.

Lemma wait_rep_wp fuel s :
  (undecided (edev s) < fuel)%nat →
  wp (wait_rep read_rep fuel p) none
    (λ _ s', same_exec s s' ∧ actions s' = actions s ∧ undecided (edev s') = 0%nat) s.
Proof.
  revert s. induction fuel as [|fuel IH]; intros s Hf; [lia|]. simpl. rewrite wp_bind, wp_on_edev.
  destruct (undecided (edev s)) as [|n] eqn:Hn.
  - destruct (dr_decided Hdev _ Hn) as (d' & -> & Hd). destruct (Z.eqb_spec v REP_UNKNOWN); [done|].
    rewrite wp_ret. done.
  - destruct (dr_waits Hdev _ _ Hn) as (d' & -> & Hd). simpl.
    eapply wp_mono; [apply IH; simpl; lia|done|]. done.
Qed.

Lemma tx_runs m q d :
  0 < ports ctx → 0 ≤ q ≤ INT_MAX →
  ∃ n d', cyclone_tx tx_buffer tx_buffer_flush ctx m q d = Ret n d' ∧ undecided d' = undecided d.
Proof.
  intros Hp Hq. apply wp_none_ret. unfold cyclone_tx.
  rewrite wp_bind, wp_queue2port, wp_bind, wp_queue_index, wp_bind by lia.
  destruct (dr_tx Hdev (q mod ports ctx) (q / ports ctx) q m d) as (n & d1 & Hrun & Hu & Hn).
  destruct (dr_flush Hdev (q mod ports ctx) (q / ports ctx) q d1) as (n' & d2 & Hrun' & Hu' & Hn').
  apply wp_none_ret. exists n, d1. split; [done|]. rewrite wp_bind. apply wp_none_ret. exists n', d2.
  split; [done|]. unfold PKT_BURST in *. rewrite wp_bind, wp_iadd, wp_ret by int_range. congruence.
Qed.

Lemma client_reply_wp req rep payload sz s :
  reachable_client req → 0 ≤ sz ≤ Z.of_nat (length payload) → sizeof_rpc + sz ≤ MSG_MAXSIZE →
  wp (client_reply ctx pktmbuf_alloc tx_buffer tx_buffer_flush rpc_bytes req rep payload sz
        (reply_queue ctx tid)) no_buffer
    (λ _ s', same_exec s s' ∧ actions s' = actions s ++ [AReply req (code rep) payload sz]
       ∧ undecided (edev s') = undecided (edev s)) s.
Proof.
  intros [Hp Hq (row & a & Hrow & Ha) (row' & a' & Hrow' & Ha') Hb] Hsz Hmax.
  unfold client_reply. rewrite wp_bind, wp_on_edev.
  destruct (dr_alloc Hdev (reply_queue ctx tid) (edev s)) as (o & d1 & Halloc & Hu1 & Hroom). rewrite Halloc.
  rewrite wp_bind, wp_queue2port by lia.
  destruct o as [m|]; [|rewrite wp_fail; split; eauto]. specialize (Hroom m eq_refl).
  set (rep' := rep <| channel_seq := channel_seq req |>).
  assert (∃ data, (if 0 <? sz then
      if (sz <=? Z.of_nat (length payload)) && (sizeof_rpc + sz <=? MSG_MAXSIZE)
      then mret (rpc_bytes rep' ++ take (Z.to_nat sz) payload) else fail UB
      else mret (rpc_bytes rep')) = (mret data : M (exst D) _)
    ∧ Z.of_nat (length data) = sizeof_rpc + sz) as (data & -> & Hlen).
  { destruct (Z.ltb_spec 0 sz).
    - replace (_ && _) with true by lia. eexists. split; [done|].
      rewrite length_app, length_take, Nat2Z.inj_add, Hb. lia.
    - eexists. split; [done|]. rewrite Hb. lia. }
  rewrite wp_bind, wp_ret, wp_bind. unfold cyclone_prep_mbuf_server2client.
  rewrite wp_bind, (wp_mac _ _ _ _ _ _ _ _ Hrow Ha), wp_bind, (wp_mac _ _ _ _ _ _ _ _ Hrow' Ha').
  unfold fill. simpl. unfold MSG_MAXSIZE, sizeof_rpc in *. replace (_ && _ && _) with true by lia.
  rewrite wp_ret, wp_bind, wp_on_edev. simpl.
  match goal with |- context [cyclone_tx _ _ _ ?m _] => destruct (tx_runs m (reply_queue ctx tid) d1)
    as (n & d2 & -> & Hu2); [lia|done|] end.
  unfold act. rewrite wp_modify. split_and!; done || (simpl; congruence).
Qed.

Lemma wp_read_decided A (k : Z → M (exst D) A) Q s :
  undecided (edev s) = 0%nat →
  (∀ d, undecided d = 0%nat → wp (k v) none Q (s <| edev := d |>)) →
  wp (on_edev (read_rep p) ≫= k) none Q s.
Proof.
  intros Hu Hk. rewrite wp_bind, wp_on_edev. destruct (dr_decided Hdev _ Hu) as (d & -> & Hd). auto.
Qed.

(** An update for a single core, which is neither internal nor a change of the
    membership. *)
Definition plain_update (rpc : rpc_t) : Prop :=
  code rpc ≠ RPC_REQ_KICKER ∧ code rpc ≠ RPC_REQ_STABLE ∧ code rpc ≠ RPC_REQ_NODEDEL
  ∧ code rpc ≠ RPC_REQ_NODEADD ∧ Z.land (flags rpc) RPC_FLAG_RO = 0
  ∧ is_multicore_rpc rpc = false ∧ lowest_bit (core_mask rpc) = tid.

Lemma exec_update rpc wal ck fuel :
  plain_update rpc →
  exec ctx pktmbuf_alloc tx_buffer tx_buffer_flush rpc_callback gc_callback rpc_bytes resp_junk
    read_rep read_snapshot interfere executor_threads tid fuel quorum p rpc wal ck
  = ('(e, ck) ← exec_rpc_internal rpc_callback read_rep interfere executor_threads tid fuel rpc p wal
        (payload_sz rpc) (ck <| core_id := tid |>);
     finish ctx pktmbuf_alloc tx_buffer tx_buffer_flush gc_callback rpc_bytes resp_junk read_snapshot
       tid quorum rpc wal e ck).
Proof.
  intros (H1 & H2 & H3 & H4 & H5 & _). unfold exec. apply Z.eqb_neq in H1, H2, H3, H4.
  by rewrite H1, H2, H3, H4, H5.
Qed.

(** The core's record after a committed request. *)
Definition after_update (c : core_status_t) (wal : wal_entry_t) : core_status_t :=
  c <| cs_exec_term := Z.max (cs_exec_term c) (wal_term wal) |> <| cs_checkpoint_idx := idx wal |>.

Lemma zinsert_lookup {A} (l : list A) i x y :
  zlookup l i = Some y → zlookup (zinsert l i x) i = Some x.
Proof.
  intros H%zlookup_Some_range. rewrite zlookup_zinsert by lia. by rewrite Z.eqb_refl.
Qed.

Lemma advance_term_wp wal c s :
  v = REP_SUCCESS → undecided (edev s) = 0%nat → zlookup (cores s) tid = Some c →
  wp (advance_term read_rep tid p wal) none
    (λ _ s', inflight s' = inflight s ∧ actions s' = actions s ∧ undecided (edev s') = 0%nat
       ∧ zlookup (cores s') tid
         = Some (c <| cs_exec_term := Z.max (cs_exec_term c) (wal_term wal) |>)) s.
Proof.
  intros Hsucc Hu Hc. unfold advance_term. apply wp_read_decided; [done|]. intros d Hd.
  rewrite wp_bind, wp_get, wp_bind. unfold aget. rewrite wp_deref. simpl. rewrite Hc, wp_when, Hsucc, Z.eqb_refl.
  cbn [andb]. destruct (Z.ltb_spec (cs_exec_term c) (wal_term wal)).
  - rewrite wp_modify. simpl. rewrite Z.max_r by lia. by erewrite zinsert_lookup.
  - simpl. rewrite Z.max_l by lia. by destruct c.
Qed.

Lemma exec_internal_wp fuel rpc wal ck c s :
  is_multicore_rpc rpc = false → (undecided (edev s) < fuel)%nat → zlookup (cores s) tid = Some c →
  let ck0 := init_rpc_cookie_info ck rpc wal in
  let call := ACall (user_data rpc) (payload_sz rpc) ck0 in
  wp (exec_rpc_internal rpc_callback read_rep interfere executor_threads tid fuel rpc p wal
        (payload_sz rpc) ck) none
    (λ r s', inflight s' = inflight s ∧ undecided (edev s') = 0%nat
       ∧ if v =? REP_SUCCESS
         then r = (0, app (user_data rpc) (payload_sz rpc) ck0) ∧ actions s' = actions s ++ [call]
              ∧ zlookup (cores s') tid = Some (after_update c wal)
         else r.1 = -1 ∧ actions s' = actions s ∧ cores s' = cores s) s.
Proof.
  intros Hmc Hf Hc ck0 call. unfold exec_rpc_internal. rewrite wp_bind.
  eapply wp_mono; [by apply wait_rep_wp|done|]. intros _ s1 ([Hc1 Hi1] & Ha1 & Hu1). fold ck0.
  apply wp_read_decided; [done|]. intros d1 Hd1.
  destruct (Z.eqb_spec v REP_SUCCESS) as [Hs|]; simpl; [|by rewrite wp_ret].
  rewrite wp_bind. eapply wp_mono; [apply (advance_term_wp wal c); [done|done|simpl; congruence]|done|].
  simpl. intros _ s2 (Hi2 & Ha2 & Hu2 & Hc2). rewrite Hmc, wp_bind, wp_ret. simpl.
  unfold call_app, app_len. rewrite Hmc, wp_bind, wp_bind. unfold act at 1.
  rewrite wp_modify, wp_on_edev. simpl.
  destruct (dr_app Hdev (user_data rpc) (payload_sz rpc) ck0 (edev s2)) as (d & -> & Hd).
  rewrite wp_bind, wp_get, wp_bind. unfold aget. rewrite wp_deref. simpl. rewrite Hc2.
  rewrite wp_bind, wp_modify, wp_ret. simpl.
  split_and!; [congruence|congruence|done|by rewrite Ha2, Ha1|by erewrite zinsert_lookup].
Qed.

Lemma finish_wp rpc wal ck s :
  lowest_bit (core_mask rpc) = tid → reachable_client rpc →
  0 ≤ ret_size ck ≤ Z.of_nat (length (ret_value ck)) → sizeof_rpc + ret_size ck ≤ MSG_MAXSIZE →
  wp (finish ctx pktmbuf_alloc tx_buffer tx_buffer_flush gc_callback rpc_bytes resp_junk
        read_snapshot tid quorum rpc wal 0 ck)
    (λ f, no_buffer f ∧ leader wal = true ∧ Z.odd snap = true)
    (λ _ s', same_exec s s' ∧ actions s' = actions s
       ++ (if leader wal && Z.odd snap then [AReply rpc RPC_REP_OK (ret_value ck) (ret_size ck)] else [])
       ++ [AGc ck]) s.
Proof.
  intros Hlow Hrc Hsz Hmax. unfold finish. rewrite Hlow, Z.eqb_refl. cbn [andb]. rewrite Z.eqb_refl.
  assert (∀ s1 l, same_exec s s1 → actions s1 = actions s ++ l →
    wp (when true (act (AGc ck) ;; on_edev (gc_callback ck))) (λ f, no_buffer f ∧ leader wal = true ∧ Z.odd snap = true)
      (λ _ s', same_exec s s' ∧ actions s' = actions s ++ l ++ [AGc ck]) s1) as Hgc.
  { intros s1 l [Hc Hi] Ha. rewrite wp_when, wp_bind. unfold act. rewrite wp_modify, wp_on_edev. simpl.
    destruct (dr_gc Hdev ck (edev s1)) as (d & -> & _). split; [done|]. simpl.
    by rewrite Ha, <- app_assoc. }
  rewrite andb_true_r. destruct (leader wal) eqn:Hlead; simpl.
  - rewrite wp_bind, wp_bind, wp_on_edev. destruct (dr_snapshot Hdev (edev s)) as (d & -> & Hd).
    rewrite wp_when. destruct (Z.odd snap) eqn:Hodd.
    + unfold reply_ok. eapply wp_mono; [by apply client_reply_wp|done|].
      intros _ s1 (Hse & Ha & _). by apply Hgc.
    + apply (Hgc _ []); [done|]. by rewrite app_nil_r.
  - rewrite wp_bind, wp_ret. apply (Hgc _ []); [done|]. by rewrite app_nil_r.
Qed.

(** C7: an update on one core is run and answered once Raft has decided on it.  The
    request is one for a single core, neither internal nor a change of the membership,
    and its client can be reached.  When the decision shows after finitely many reads,
    the executor returns, or ends the process for want of a buffer for the answer.  If
    the entry is committed, the application has been called exactly once, with the
    data of the request and the index of its entry, the client gets one answer
    with the result exactly when this server took the request as leader and
    leads still, the result is collected last, and the core has moved to the term
    and the index of the entry.  If the entry was dropped, nothing has happened. *)
Theorem decided_update_answered fuel rpc wal ck c s :
  let ck0 := init_rpc_cookie_info (ck <| core_id := tid |>) rpc wal in
  let res := app (user_data rpc) (payload_sz rpc) ck0 in
  plain_update rpc → reachable_client rpc → zlookup (cores s) tid = Some c →
  (undecided (edev s) < fuel)%nat →
  0 ≤ ret_size res ≤ Z.of_nat (length (ret_value res)) → sizeof_rpc + ret_size res ≤ MSG_MAXSIZE →
  match exec ctx pktmbuf_alloc tx_buffer tx_buffer_flush rpc_callback gc_callback rpc_bytes resp_junk
          read_rep read_snapshot interfere executor_threads tid fuel quorum p rpc wal ck s with
  | Ret _ s' => inflight s' = inflight s
    ∧ if v =? REP_SUCCESS
      then actions s' = actions s ++ ACall (user_data rpc) (payload_sz rpc) ck0
             :: (if leader wal && Z.odd snap
                 then [AReply rpc RPC_REP_OK (ret_value res) (ret_size res)] else []) ++ [AGc res]
           ∧ zlookup (cores s') tid = Some (after_update c wal)
      else actions s' = actions s ∧ cores s' = cores s
  | Stop f => no_buffer f ∧ v = REP_SUCCESS ∧ leader wal = true ∧ Z.odd snap = true
  end.
Proof.
  intros ck0 res Hpl Hrc Hc Hf Hsz Hmax. rewrite exec_update by done.
  destruct Hpl as (_ & _ & _ & _ & _ & Hmc & Hlow).
  match goal with |- match ?m s with Ret _ s' => @?Q s' | Stop f => @?E f end =>
    enough (wp m E (λ _ s', Q s') s) as Hwp by (unfold wp in Hwp; by destruct (m s)) end.
  rewrite wp_bind. eapply wp_mono; [by apply (exec_internal_wp fuel rpc wal _ c)|done|].
  intros [e ck1] s1 (Hi & Hu & Hcase). fold ck0 res in Hcase.
  destruct (Z.eqb_spec v REP_SUCCESS) as [Hv'|].
  - destruct Hcase as ([= -> ->] & Ha & Hc1). eapply wp_mono; [by apply finish_wp|naive_solver|].
    intros _ s2 ([Hc2 Hi2] & Ha2). split_and!; [congruence| |congruence].
    by rewrite Ha2, Ha, <- app_assoc.
  - simpl in Hcase. destruct Hcase as (-> & Ha & Hc1). unfold finish. simpl.
    rewrite andb_false_r, wp_bind, wp_ret. done.
Qed.
End answers.

(** ** An example: core 0 of one machine, an application that echoes *)
Section example.
Definition plain_rpc : rpc_t := mk_rpc 1 0 3 1 7 0 2 0 41 0 [] (0, 0) [1; 2; 3].
Definition plain_cookie : rpc_cookie_t := mk_cookie 0 0 0 [] 0.
Definition idle_core : core_status_t := mk_core 0 (-1) 0 (0, 0) 0 (0, 0).
Definition echo (data : list Z) (len : Z) (ck : rpc_cookie_t) : rpc_cookie_t :=
  ck <| ret_value := data |> <| ret_size := len |>.
Definition one_machine : dpdk_context_t := mk_context [[10]] 0 1.
Definition big_mbuf : rte_mbuf := empty_mbuf <| room := 9000 |>.
Definition header_bytes (_ : rpc_t) : list Z := replicate 52 0.
(** Raft decides after as many reads as the device counts. *)
Definition count_rep (_ : Z) : M nat Z := λ n,
  match n with O => Ret REP_SUCCESS O | S n => Ret REP_UNKNOWN n end.
Definition waiting_core : exst nat := mk_exst [idle_core] ∅ [] 5%nat.

Lemma counting_device :
  device_runs (λ _, mret (Some big_mbuf)) (λ _ _ _ _, mret 0) (λ _ _ _, mret 1)
    (λ d l ck, mret (echo d l ck)) (λ _, mret tt) count_rep (λ _, mret 3) (λ n, n) 9 0 REP_SUCCESS 3
    echo.
Proof.
  split; intros; simpl.
  - subst. by eexists.
  - subst. by eexists.
  - by eexists.
  - do 2 eexists. split_and!; [done|done|]. by intros m [= <-].
  - do 2 eexists. split_and!; [done|done|lia|lia].
  - do 2 eexists. split_and!; [done|done|unfold PKT_BURST; lia..].
  - by eexists.
  - by eexists.
Qed.

Abbreviation demo_exec_update := (exec one_machine (λ _, mret (Some big_mbuf)) (λ _ _ _ _, mret 0)
  (λ _ _ _, mret 1) (λ d l ck, mret (echo d l ck)) (λ _, mret tt) header_bytes plain_rpc count_rep
  (λ _, mret 3) (mret tt) 1 0 6%nat 0 9 plain_rpc (mk_wal 0 4 17 true) plain_cookie).
Definition updated_core : exst nat :=
  match demo_exec_update waiting_core with Ret _ s => s | Stop _ => waiting_core end.
Lemma demo_update_run : demo_exec_update waiting_core = Ret tt updated_core.
Proof. vm_compute. reflexivity. Qed.
Lemma decided_update_answered_witness :
  demo_exec_update waiting_core = Ret tt updated_core ∧ length (actions updated_core) = 3%nat.
Proof.
  split; [exact demo_update_run|].
  pose proof (decided_update_answered one_machine (λ _, mret (Some big_mbuf)) (λ _ _ _ _, mret 0)
    (λ _ _ _, mret 1) (λ d l ck, mret (echo d l ck)) (λ _, mret tt) header_bytes plain_rpc count_rep
    (λ _, mret 3) (mret tt) 1 0 (λ n, n) 9 0 REP_SUCCESS 3 echo counting_device ltac:(done)
    6%nat plain_rpc (mk_wal 0 4 17 true) plain_cookie idle_core waiting_core) as Hans.
  rewrite demo_update_run in Hans. destruct Hans as (_ & Ha & _); [..|by rewrite Ha].
  - split_and!; by vm_compute.
  - split; [by vm_compute|by vm_compute|by exists [10], 10|by exists [10], 10|by intros].
  - done.
  - simpl. lia.
  - simpl. lia.
  - simpl. unfold sizeof_rpc, MSG_MAXSIZE. lia.
Defined.

(** A ring with one request in it. *)
Definition pop_word (_ : Z) : M (list ring_word) (option ring_word) := λ l,
  match l with [] => Ret None [] | w :: l => Ret (Some w) l end.
Definition busy_core : exst (list ring_word) :=
  mk_exst [idle_core] {[(0, 7) := 1]} [] [RQuorum 0; RPacket 9; RRpc plain_rpc].

Abbreviation demo_round := (executor_round one_machine (λ _, mret (Some big_mbuf)) (λ _, mret tt)
  (λ _ _ _ _, mret 0) (λ _ _ _, mret 1) pop_word (λ d l ck, mret (echo d l ck)) (λ _, mret tt)
  header_bytes plain_rpc (λ _, mret REP_SUCCESS) (λ _, mret 3) (λ _, mret (mk_wal 0 4 17 true))
  (mret tt) 1 0 2%nat plain_cookie).
Definition released_core : exst (list ring_word) :=
  match demo_round busy_core with Ret _ s => s | Stop _ => busy_core end.
Lemma demo_round_run : demo_round busy_core = Ret tt released_core.
Proof. vm_compute. reflexivity. Qed.

Lemma executor_round_releases_witness :
  given_back 0 7 0 9 plain_rpc busy_core released_core ∧ inflight released_core !! (0, 7) = Some 0.
Proof.
  assert (Pres (holds 7) (mret tt : M (exst (list ring_word)) ())) as Hi by apply pres_ret, holds_preorder.
  destruct (executor_round_releases one_machine (λ _, mret (Some big_mbuf)) (λ _, mret tt)
    (λ _ _ _ _, mret 0) (λ _ _ _, mret 1) pop_word (λ d l ck, mret (echo d l ck)) (λ _, mret tt)
    header_bytes plain_rpc (λ _, mret REP_SUCCESS) (λ _, mret 3) (λ _, mret (mk_wal 0 4 17 true))
    (mret tt) 1 0 7 Hi 2%nat plain_cookie busy_core released_core demo_round_run) as (o & d & Ho & Hg).
  cbn [busy_core edev pop_word] in Ho. injection Ho as <- <-.
  destruct Hg as (q & p & r & s1 & s2 & Hq & Hp & Hr & Hg). injection Hq as <-.
  split; [|vm_compute; reflexivity].
  cbn in Hp. injection Hp as <- <-. cbn in Hr. injection Hr as <- <-. exact Hg.
Defined.
End example.
