(* ===== verification/Client.v ===== *)
(** The client library (core/dispatch_client.cpp): finding the leader, requests
    that wait for their answer, and asynchronous requests with their listener.

    The memory of a request header is given by [rpc_bytes] and [rpc_of]; buffers
    are lists of bytes.  [sent] records the requests in the order they were
    handed to the network, with the server they go to.  Loops take fuel. *)

From S2P Require Import Prelude RaftNode Comm Cyclone EventLoop Dispatcher.

Definition RPC_REQ : Z := 1.
Definition RPC_REP_FAIL : Z := 7.
Definition REP_TIMEDOUT : Z := 2.
Definition timeout_msec : Z := 1200.
Definition async_timeout_msec : Z := 500000000.
Definition EMAX_INFLIGHT : Z := 1.
Definition DISP_MAX_MSGSIZE : Z := 4096.

(** [async_comm_t]; the callback and its argument are a name. *)
Record async_comm_t := mk_async { a_seq : Z; a_timestamp : Z; a_cb : Z }.
#[export] Instance async_fields : FieldsOf async_comm_t :=
  λ r, mk_async (a_seq r) (a_timestamp r) (a_cb r).

(** What does not change after [cyclone_client_init]. *)
Record client_cfg := mk_cfg {
  cl_me : Z;
  cl_me_mc : Z;
  me_queue : Z;
  me_aqueue : Z;
  cl_router : list Z;
  cl_replicas : Z;
  server_ports : Z;
  max_inflight : Z;
  cl_context : dpdk_context_t
}.

Record rpc_client_t (D : Type) := mk_client {
  server : Z;
  cl_seq : Z;
  cl_aseq : Z;
  terms : list Z;
  cl_buf : dpdk_rx_buffer_t;
  packet_in : list Z;
  msg_inflight : Z;
  to_lstnr : list async_comm_t;
  pendresponse_map : list async_comm_t;
  sent : list (Z * rpc_t * list Z);
  called : list (Z * Z * Z);
  cdev : D
}.
Arguments mk_client {D} _ _ _ _ _ _ _ _ _ _ _ _.
Arguments server {D} _.
Arguments cl_seq {D} _.
Arguments cl_aseq {D} _.
Arguments terms {D} _.
Arguments cl_buf {D} _.
Arguments packet_in {D} _.
Arguments msg_inflight {D} _.
Arguments to_lstnr {D} _.
Arguments pendresponse_map {D} _.
Arguments sent {D} _.
Arguments called {D} _.
Arguments cdev {D} _.
#[export] Instance client_fields D : FieldsOf (rpc_client_t D) :=
  λ r, mk_client (server r) (cl_seq r) (cl_aseq r) (terms r) (cl_buf r) (packet_in r)
         (msg_inflight r) (to_lstnr r) (pendresponse_map r) (sent r) (called r) (cdev r).

(** Reading an [unsigned int] back from its bytes. *)
Definition word32 (l : list Z) : Z :=
  match l with
  | [a; b; c; d] => a + b * 2 ^ 8 + c * 2 ^ 16 + d * 2 ^ 24
  | _ => 0
  end.
Fixpoint words32 (n : nat) (l : list Z) : list Z :=
  match n with O => [] | S n => word32 (take 4 l) :: words32 n (drop 4 l) end.

Definition choose_quorum (core_mask : Z) : Z :=
  if negb (Z.land core_mask (core_mask - 1) =? 0) then 0
  else core_to_quorum (lowest_bit core_mask).

Section client.
Context {D : Type} (cfg : client_cfg).
Context (pktmbuf_alloc : Z → M D (option rte_mbuf)) (pktmbuf_free : rte_mbuf → M D ())
  (tx_buffer : Z → Z → Z → rte_mbuf → M D Z) (tx_buffer_flush : Z → Z → Z → M D Z)
  (rx_burst : Z → Z → Z → M D (list rte_mbuf)) (current_time : M D Z)
  (comm_malloc ring_full : M D bool).
Context (rpc_bytes : rpc_t → list Z) (rpc_of : list Z → rpc_t).
(** What the output buffers and the nonce's place in them hold. *)
Context (out_junk aux_junk : rpc_t) (nonce_junk : list Z).
Abbreviation C := (M (rpc_client_t D)).

Definition on_cdev {A} (op : M D A) : C A := λ s,
  match op (cdev s) with
  | Ret a d => Ret a (s <| cdev := d |>)
  | Stop f => Stop f
  end.

Definition quorum_q (quorum_id q : Z) : C Z :=
  a ← iadd (server_ports cfg) (q * num_quorums); iadd a quorum_id.

(** ** Sending *)
Definition prepare (pkt : rpc_t) (data : list Z) (sz quorum_id : Z) : C (rpc_t * rte_mbuf) :=
  o ← on_cdev (pktmbuf_alloc (me_queue cfg));
  s ← get;
  t ← aget (terms s) quorum_id;
  let pkt := pkt <| quorum_term := i32 t |> in
  q ← quorum_q quorum_id q_dispatcher;
  port ← queue2port q (server_ports cfg);
  mc ← replica_mc (cl_router cfg) (server s);
  q ← quorum_q quorum_id q_dispatcher;
  qindex ← queue_index_at_port q (server_ports cfg);
  mb ← deref o;
  mb ← cyclone_prep_mbuf_client2server (cl_context cfg) port mc qindex mb (rpc_bytes pkt ++ data) sz;
  mret (pkt, mb).
Definition transmit (pkt : rpc_t) (data : list Z) (mb : rte_mbuf) (q : Z) : C () :=
  modify (λ s, s <| sent := sent s ++ [(server s, pkt, data)] |>) ;;
  on_cdev (cyclone_tx tx_buffer tx_buffer_flush (cl_context cfg) mb q) ;;
  mret tt.
Definition send_to_server (pkt : rpc_t) (data : list Z) (sz quorum_id : Z) : C () :=
  '(pkt, mb) ← prepare pkt data sz quorum_id;
  transmit pkt data mb (me_queue cfg).

(** ** Receiving *)
Fixpoint common_receive_loop (fuel : nat) : C Z :=
  match fuel with
  | O => fail Hang
  | S fuel' =>
    s ← get;
    o ← on_cdev (cyclone_rx_timeout rx_burst pktmbuf_free current_time fuel 0 (me_queue cfg)
                   (cl_buf s) MSG_MAXSIZE (timeout_msec * 1000));
    match o with
    | None => fail Hang
    | Some (resp_sz, data, buf) =>
      modify (λ s, s <| cl_buf := buf |>
                     <| packet_in := data ++ drop (length data) (packet_in s) |>) ;;
      if resp_sz =? -1 then mret resp_sz else
      s ← get;
      if negb (channel_seq (rpc_of (packet_in s)) =? u64 (cl_seq s - 1))
      then common_receive_loop fuel' else mret resp_sz
    end
  end.

(** The fields every request gets; [channel_seq++]. *)
Definition next_request (junk : rpc_t) (c fl mask port sz : Z) : C rpc_t :=
  s ← get;
  modify (λ s, s <| cl_seq := u64 (cl_seq s + 1) |>) ;;
  mret (junk <| code := c |> <| flags := fl |> <| core_mask := mask |> <| client_port := port |>
             <| channel_seq := cl_seq s |> <| client_id := cl_me cfg |>
             <| requestor := cl_me_mc cfg |> <| payload_sz := sz |>).

(** ** The leader *)
Definition set_server (fuel : nat) : C Z :=
  pkt ← next_request aux_junk RPC_REQ_STABLE 0 1 (me_queue cfg) 0;
  send_to_server pkt [] sizeof_rpc 0 ;;
  resp_sz ← common_receive_loop fuel;
  if negb (resp_sz =? -1) then
    modify (λ s, s <| terms := map (λ t, t / 2)
      (words32 (Z.to_nat num_quorums) (drop (Z.to_nat sizeof_rpc) (packet_in s))) |>) ;;
    mret 1
  else mret 0.
Fixpoint update_server (fuel : nat) : C () :=
  match fuel with
  | O => fail Hang
  | S fuel' =>
    s ← get;
    k ← iadd (server s) 1;
    k ← irem k (cl_replicas cfg);
    modify (λ s, s <| server := k |>) ;;
    r ← set_server fuel;
    if r =? 0 then update_server fuel' else mret tt
  end.

(** ** Requests that wait

    [build] gives the size of the request behind its header and the bytes, and
    may look at the terms. *)
Fixpoint request_loop (fuel : nat) (c fl mask quorum_id : Z) (build : list Z → Z * list Z) : C Z :=
  match fuel with
  | O => fail Hang
  | S fuel' =>
    s ← get;
    let '(sz, data) := build (terms s) in
    pkt ← next_request out_junk c fl mask (me_queue cfg) sz;
    (if sizeof_rpc + sz <=? MSG_MAXSIZE then mret tt else fail UB) ;;
    send_to_server pkt data (sizeof_rpc + sz) quorum_id ;;
    resp_sz ← common_receive_loop fuel;
    if resp_sz =? -1 then update_server fuel ;; request_loop fuel' c fl mask quorum_id build else
    s ← get;
    if code (rpc_of (packet_in s)) =? RPC_REP_FAIL
    then request_loop fuel' c fl mask quorum_id build else mret resp_sz
  end.

Definition change_node (fuel : nat) (c mask nodeid : Z) : C Z :=
  request_loop fuel c 0 mask (choose_quorum mask) (λ _, (sizeof_cfg_change, le32 (u32 nodeid))) ;;
  mret 0.
Definition delete_node (fuel : nat) (mask nodeid : Z) : C Z := change_node fuel RPC_REQ_NODEDEL mask nodeid.
Definition add_node (fuel : nat) (mask nodeid : Z) : C Z := change_node fuel RPC_REQ_NODEADD mask nodeid.

(** The bytes of a request of the application. *)
Definition app_request (mask : Z) (payload : list Z) (sz : Z) (ts : list Z) : Z * list Z :=
  let data := take (Z.to_nat sz) payload in
  if negb (Z.land mask (mask - 1) =? 0)
  then (num_quorums * 4 + sizeof_ic_rdv + sz,
        flat_map le32 (take (Z.to_nat num_quorums) ts) ++ take (Z.to_nat sizeof_ic_rdv) nonce_junk ++ data)
  else (sz, data).
Definition make_rpc (fuel : nat) (payload : list Z) (sz mask fl : Z) : C (Z * list Z) :=
  if DISP_MAX_MSGSIZE <? sz then fail (Exit (-1)) else
  if (sz <? 0) || (Z.of_nat (length payload) <? sz) then fail UB else
  resp_sz ← request_loop fuel RPC_REQ fl mask (choose_quorum mask) (app_request mask payload sz);
  s ← get;
  mret (i32 (u32 (resp_sz - sizeof_rpc)), drop (Z.to_nat sizeof_rpc) (packet_in s)).

(** ** Asynchronous requests *)
Definition send_to_server_async (pkt : rpc_t) (data : list Z) (sz quorum_id : Z) (comm : async_comm_t)
  : C () :=
  '(pkt, mb) ← prepare pkt data sz quorum_id;
  now ← on_cdev current_time;
  full ← on_cdev ring_full;
  (if full : bool then fail (Exit (-1)) else
   modify (λ s, s <| to_lstnr := to_lstnr s
     ++ [comm <| a_seq := channel_seq pkt |> <| a_timestamp := now |>] |>)) ;;
  transmit pkt data mb (me_aqueue cfg).
Definition add_inflight : C () := modify (λ s, s <| msg_inflight := msg_inflight s + 1 |>).
(** A call up to the transmission of its request: the result, and whether there was
    one.  The request is counted after that. *)
Definition start_rpc_async (payload : list Z) (sz cb mask fl : Z) : C (Z * bool) :=
  if DISP_MAX_MSGSIZE <? sz then fail (Exit (-1)) else
  s ← get;
  if max_inflight cfg <=? u64 (msg_inflight s) then mret (EMAX_INFLIGHT, false) else
  modify (λ s, s <| cl_aseq := u64 (cl_aseq s + 1) |>) ;;
  on_cdev current_time ;;
  if negb (Z.land mask (mask - 1) =? 0) then mret (0, false) else
  if (sz <? 0) || (Z.of_nat (length payload) <? sz) || (MSG_MAXSIZE <? sizeof_rpc + sz)
  then fail UB else
  ok ← on_cdev comm_malloc;
  if negb ok then fail UB else
  let pkt := out_junk <| code := RPC_REQ |> <| flags := fl |> <| core_mask := mask |>
    <| client_port := me_aqueue cfg |> <| channel_seq := cl_aseq s |> <| client_id := cl_me cfg |>
    <| requestor := cl_me_mc cfg |> <| payload_sz := sz |> in
  send_to_server_async pkt (take (Z.to_nat sz) payload) (sizeof_rpc + sz) (choose_quorum mask)
    (mk_async 0 0 cb) ;;
  mret (0, true).
Definition make_rpc_async (payload : list Z) (sz cb mask fl : Z) : C Z :=
  '(r, transmitted) ← start_rpc_async payload sz cb mask fl;
  (if transmitted : bool then add_inflight else mret tt) ;;
  mret r.

(** ** The listener

    The ordered map by sequence number; [insert] keeps what is there. *)
Fixpoint pend_insert (a : async_comm_t) (l : list async_comm_t) : list async_comm_t :=
  match l with
  | [] => [a]
  | b :: l' =>
    if a_seq a =? a_seq b then l
    else if a_seq a <? a_seq b then a :: l else b :: pend_insert a l'
  end.
Definition pend_erase (seq : Z) (l : list async_comm_t) : list async_comm_t :=
  filter (λ a, a_seq a ≠ seq) l.
Definition pend_find (seq : Z) (l : list async_comm_t) : option async_comm_t :=
  list_find (λ a, a_seq a = seq) l ≫= λ r, Some r.2.

Definition drain_ring : C () :=
  modify (λ s, s <| pendresponse_map := foldl (λ m a, pend_insert a m) (pendresponse_map s) (to_lstnr s) |>
                 <| to_lstnr := [] |>).
(** The callback's argument, its status and its delay. *)
Definition call_back (a : async_comm_t) (status delay : Z) : C () :=
  modify (λ s, s <| called := called s ++ [(a_cb a, status, delay)] |>).
Definition sub_inflight : C () := modify (λ s, s <| msg_inflight := msg_inflight s - 1 |>).

(** One received packet; [false] when the listener returns -1. *)
Definition process_response (m : rte_mbuf) : C bool :=
  if negb (ether_type (eth m) =? rte_cpu_to_be_16 ETHER_TYPE_IPv4)
    || negb (src_addr (ip m) =? magic_src_ip)
    || (data_len m <=? sizeof_ether_hdr + sizeof_ipv4_hdr)
  then on_cdev (pktmbuf_free m) ;; mret false
  else
    let resp := rpc_of (payload m) in
    s ← get;
    match pend_find (channel_seq resp) (pendresponse_map s) with
    | Some a =>
      now ← on_cdev current_time;
      call_back a (if code resp =? RPC_REP_OK then REP_SUCCESS else REP_FAILED)
        (u64 (now - a_timestamp a)) ;;
      modify (λ s, s <| pendresponse_map := pend_erase (channel_seq resp) (pendresponse_map s) |>) ;;
      on_cdev (pktmbuf_free m) ;;
      sub_inflight ;;
      mret true
    | None => on_cdev (pktmbuf_free m) ;; mret true
    end.
Fixpoint process_burst (ms : list rte_mbuf) : C bool :=
  match ms with
  | [] => mret true
  | m :: ms => ok ← process_response m; if ok : bool then process_burst ms else mret false
  end.

(** The scan for timeouts.  Erasing the element the iterator points to and then
    advancing the iterator is undefined. *)
Fixpoint scan_timeouts (l : list async_comm_t) : C () :=
  match l with
  | [] => mret tt
  | a :: l =>
    now ← on_cdev current_time;
    if async_timeout_msec <=? u64 (now - a_timestamp a) then
      call_back a REP_TIMEDOUT async_timeout_msec ;;
      modify (λ s, s <| pendresponse_map := pend_erase (a_seq a) (pendresponse_map s) |>) ;;
      sub_inflight ;;
      fail UB
    else scan_timeouts l
  end.
(** The part of a round after the ring has been emptied. *)
Definition listener_poll : C bool :=
  ms ← on_cdev (rx_burst 0 (me_aqueue cfg) PKT_BURST);
  ok ← process_burst ms;
  if ok : bool then
    s ← get;
    scan_timeouts (pendresponse_map s) ;;
    mret true
  else mret false.
Definition listener_round : C bool := drain_ring ;; listener_poll.

(** The listener's loop, for [n] rounds; [false] when it has returned. *)
Fixpoint listener (n : nat) : C bool :=
  match n with
  | O => mret true
  | S n => ok ← listener_round; if ok : bool then listener n else mret false
  end.

(** ** Start *)
Fixpoint find_servers (n fuel : nat) : C () :=
  match n with
  | O => mret tt
  | S n => modify (λ s, s <| server := 0 |>) ;; update_server fuel ;; find_servers n fuel
  end.
Definition cyclone_client_init (fuel : nat) : C () :=
  modify (λ s, s <| cl_buf := mk_rx (burst (cl_buf s)) 0 0 |> <| msg_inflight := 0 |>
                 <| cl_aseq := 0 |> <| to_lstnr := [] |> <| pendresponse_map := [] |>) ;;
  k ← imul (me_queue cfg) (cl_me_mc cfg);
  now ← on_cdev current_time;
  modify (λ s, s <| cl_seq := u64 (k * now) |>) ;;
  find_servers (Z.to_nat num_quorums) fuel.
End client.
