(* ===== verification/ClientSafe.v ===== *)
(** What the client library promises: an answer belongs to the last request, a
    live replica is found, the terms it learns are the servers', and every
    asynchronous request has its callback called once. *)

From S2P Require Import Prelude RaftNode Comm Cyclone EventLoop Dispatcher Client.

Section frames.
Context {D : Type} (cfg : client_cfg).
Context (pktmbuf_alloc : Z → M D (option rte_mbuf)) (pktmbuf_free : rte_mbuf → M D ())
  (tx_buffer : Z → Z → Z → rte_mbuf → M D Z) (tx_buffer_flush : Z → Z → Z → M D Z)
  (rx_burst : Z → Z → Z → M D (list rte_mbuf)) (current_time : M D Z).
Context (rpc_bytes : rpc_t → list Z) (rpc_of : list Z → rpc_t).
Context (out_junk aux_junk : rpc_t) (nonce_junk : list Z).
Abbreviation CS := (rpc_client_t D).
Abbreviation prepare := (prepare cfg pktmbuf_alloc rpc_bytes).
Abbreviation transmit := (transmit cfg tx_buffer tx_buffer_flush).
Abbreviation send_to_server := (send_to_server cfg pktmbuf_alloc tx_buffer tx_buffer_flush rpc_bytes).
Abbreviation common_receive_loop :=
  (common_receive_loop cfg pktmbuf_free rx_burst current_time rpc_of).
Abbreviation set_server := (set_server cfg pktmbuf_alloc pktmbuf_free tx_buffer tx_buffer_flush
  rx_burst current_time rpc_bytes rpc_of aux_junk).
Abbreviation update_server := (update_server cfg pktmbuf_alloc pktmbuf_free tx_buffer
  tx_buffer_flush rx_burst current_time rpc_bytes rpc_of aux_junk).
Abbreviation request_loop := (request_loop cfg pktmbuf_alloc pktmbuf_free tx_buffer
  tx_buffer_flush rx_burst current_time rpc_bytes rpc_of out_junk aux_junk).
Abbreviation make_rpc := (make_rpc cfg pktmbuf_alloc pktmbuf_free tx_buffer tx_buffer_flush
  rx_burst current_time rpc_bytes rpc_of out_junk aux_junk nonce_junk).

(** Waiting changes neither what was sent nor what the client knows. *)
Record quiet (s s' : CS) : Prop := {
  quiet_sent : sent s' = sent s;
  quiet_seq : cl_seq s' = cl_seq s;
  quiet_aseq : cl_aseq s' = cl_aseq s;
  quiet_server : server s' = server s;
  quiet_terms : terms s' = terms s;
  quiet_inflight : msg_inflight s' = msg_inflight s;
  quiet_ring : to_lstnr s' = to_lstnr s;
  quiet_pending : pendresponse_map s' = pendresponse_map s;
  quiet_called : called s' = called s
}.
#[global] Instance quiet_preorder : PreOrder quiet.
Proof.
  split; [by intros s; split|]. intros s1 s2 s3 [] []. split; congruence.
Qed.

Lemma quiet_on_cdev {A} (op : M D A) : Pres quiet (on_cdev op).
Proof. intros s. unfold on_cdev, wp. by destruct (op (cdev s)). Qed.
#[local] Hint Resolve quiet_on_cdev : pres.

Lemma quiet_prepare pkt data sz q : Pres quiet (prepare pkt data sz q).
Proof.
  unfold Client.prepare, quorum_q, queue2port, queue_index_at_port, idiv, replica_mc,
    cyclone_prep_mbuf_client2server, mac, fill. pres.
Qed.

Lemma prepare_spec pkt data sz q s pkt' mb s' :
  prepare pkt data sz q s = Ret (pkt', mb) s' →
  quiet s s' ∧ ∃ t, zlookup (terms s) q = Some t ∧ pkt' = pkt <| quorum_term := i32 t |>.
Proof.
  intros Hrun. split; [by eapply pres_run, Hrun; apply quiet_prepare|].
  revert Hrun. unfold Client.prepare, mbind, M_bind, get.
  destruct (on_cdev _ s) as [o s1|] eqn:Ho; [|done].
  apply (pres_run _ _ _ _ _ (quiet_on_cdev _)) in Ho. unfold aget.
  rewrite <- (quiet_terms _ _ Ho).
  destruct (zlookup (terms s1) q) as [t|] eqn:Ht; simpl; [|done].
  repeat (case_match; [|done]). intros [= <- <- <-]. by exists t.
Qed.

Lemma send_spec pkt data sz q s s' :
  send_to_server pkt data sz q s = Ret tt s' →
  ∃ t s1, zlookup (terms s) q = Some t ∧ quiet s1 s'
    ∧ quiet (s <| sent := sent s ++ [(server s, pkt <| quorum_term := i32 t |>, data)] |>) s1.
Proof.
  unfold Client.send_to_server. unfold mbind at 1, M_bind at 1.
  destruct (prepare _ _ _ _ s) as [[pkt' mb] s1|] eqn:Hp; [|done].
  destruct (prepare_spec _ _ _ _ _ _ _ _ Hp) as [Hq (t & Ht & ->)].
  unfold Client.transmit, mbind, M_bind, modify. destruct (on_cdev _ _) as [e s2|] eqn:Ho; [|done].
  intros [= <-]. apply (pres_run _ _ _ _ _ (quiet_on_cdev _)) in Ho. do 2 eexists.
  split_and!; [done|exact Ho|]. destruct Hq. split; simpl; congruence.
Qed.

Lemma quiet_receive fuel : Pres quiet (common_receive_loop fuel).
Proof.
  induction fuel as [|fuel IH]; simpl; [pres|]. pres; first [apply IH|apply pres_modify; by split].
Qed.

(** What is received is a message with the expected number, or a timeout. *)
Lemma receive_spec fuel s :
  wp (common_receive_loop fuel) any (λ r s', quiet s s'
    ∧ (r ≠ -1 → channel_seq (rpc_of (packet_in s')) = u64 (cl_seq s' - 1))) s.
Proof.
  apply wp_conj with (Q := λ _ s', quiet s s'); [by apply quiet_receive|].
  revert s. induction fuel as [|fuel IH]; intros s; simpl; [exact I|]. rewrite wp_bind, wp_get, wp_bind.
  apply wp_any_intro. intros [[[r data] buf]|] s1 _; [|exact I]. rewrite wp_bind, wp_modify.
  destruct (Z.eqb_spec r (-1)) as [->|]; [by rewrite wp_ret|]. rewrite wp_bind, wp_get.
  destruct (negb _) eqn:Hseq; [apply IH|]. rewrite wp_ret. intros _. lia.
Qed.

(** The state in which the last message sent is request [c] for [data]. *)
Definition asked (c fl mask : Z) (data : list Z) (s : CS) : Prop :=
  ∃ pkt t, last (sent s) = Some (server s, pkt, data) ∧ code pkt = c ∧ flags pkt = fl
    ∧ core_mask pkt = mask ∧ client_id pkt = cl_me cfg ∧ requestor pkt = cl_me_mc cfg
    ∧ client_port pkt = me_queue cfg ∧ quorum_term pkt = i32 t ∧ t ∈ terms s
    ∧ channel_seq pkt = u64 (cl_seq s - 1).
Lemma asked_quiet c fl mask data s s' : quiet s s' → asked c fl mask data s → asked c fl mask data s'.
Proof. intros []. unfold asked. by rewrite quiet_sent0, quiet_server0, quiet_terms0, quiet_seq0. Qed.

Definition seq_ok (s : CS) : Prop := 0 ≤ cl_seq s < 2 ^ 64.

(** A request is numbered and handed to the network. *)
Lemma ask_spec junk c fl mask sz n data q s :
  seq_ok s →
  wp (pkt ← next_request cfg junk c fl mask (me_queue cfg) sz; send_to_server pkt data n q)
    any (λ _ s', asked c fl mask data s' ∧ seq_ok s' ∧ terms s' = terms s) s.
Proof.
  intros Hseq. apply wp_any_intro. intros [] s'.
  unfold next_request, mbind at 1, M_bind at 1, mbind at 1, M_bind at 1, get, modify, mret, M_ret,
    mbind at 1, M_bind at 1.
  intros (t & s1 & Ht & Hq1 & Hq2)%send_spec. assert (quiet _ s') as Hq by (etrans; eassumption).
  split; [|split; [|by rewrite (quiet_terms _ _ Hq)]].
  - eapply asked_quiet; [exact Hq|]. eexists _, t. simpl. rewrite last_snoc. split_and!; try done.
    + by eapply zlookup_Some_elem.
    + unfold u64, seq_ok in *. rewrite Zminus_mod_idemp_l, Z.add_simpl_r. by rewrite Z.mod_small.
  - unfold seq_ok. rewrite (quiet_seq _ _ Hq). simpl. apply Z.mod_pos_bound. lia.
Qed.

Lemma set_server_seq fuel s : seq_ok s → wp (set_server fuel) any (λ _ s', seq_ok s') s.
Proof.
  intros Hs. unfold Client.set_server. rewrite <- wp_bind_assoc, wp_bind.
  eapply wp_mono; [by apply ask_spec|done|]. intros _ s1 (_ & Hs1 & _). rewrite wp_bind.
  eapply wp_mono; [apply receive_spec|done|]. intros r s2 [Hq _].
  assert (seq_ok s2) by (unfold seq_ok; by rewrite (quiet_seq _ _ Hq)). by destruct (negb _).
Qed.
Lemma update_server_seq fuel s : seq_ok s → wp (update_server fuel) any (λ _ s', seq_ok s') s.
Proof.
  revert s. induction fuel as [|fuel IH]; intros s Hs; simpl; [exact I|].
  rewrite wp_bind, wp_get, wp_bind. unfold iadd, irem. rewrite wp_int_of.
  destruct (in_int _); [|exact I]. rewrite wp_bind. destruct (_ =? 0); [exact I|]. rewrite wp_ret, wp_bind, wp_modify.
  rewrite wp_bind. eapply wp_mono; [by apply (set_server_seq (S fuel))|done|]. intros r s1 Hs1.
  destruct (r =? 0); [by apply IH|done].
Qed.

(** The answer a request returns with is one to the request sent last. *)
Definition answered (c fl mask : Z) (build : list Z → Z * list Z) (s : CS) : Prop :=
  ∃ ts, asked c fl mask (build ts).2 s ∧ ts = terms s ∧ code (rpc_of (packet_in s)) ≠ RPC_REP_FAIL
    ∧ channel_seq (rpc_of (packet_in s)) = u64 (cl_seq s - 1).
Lemma request_loop_spec fuel c fl mask q build s :
  seq_ok s → wp (request_loop fuel c fl mask q build) any (λ r s', answered c fl mask build s') s.
Proof.
  revert s. induction fuel as [|fuel IH]; intros s Hs; simpl; [exact I|]. rewrite wp_bind, wp_get.
  destruct (build (terms s)) as [sz data] eqn:Hb.
  apply wp_any_intro. unfold mbind at 1, M_bind at 1.
  destruct (next_request _ _ _ _ _ _ _ s) as [pkt s1|] eqn:Hn; [|done].
  unfold mbind at 1, M_bind at 1. destruct (_ <=? _); [|done]. simpl. unfold mbind at 1, M_bind at 1.
  destruct (send_to_server _ _ _ _ s1) as [[] s2|] eqn:Hsend; [|done]. intros r s'.
  assert (asked c fl mask data s2 ∧ seq_ok s2 ∧ terms s2 = terms s) as (Ha & Hs2 & Ht).
  { refine (wp_any_ret _ _ _ tt s2 (ask_spec out_junk c fl mask sz (sizeof_rpc + sz) data q s Hs) _).
    unfold mbind, M_bind. by rewrite Hn. }
  intros Hk. refine (wp_any_ret _ (λ _ s', answered c fl mask build s') s2 r s' _ Hk). clear r s' Hk.
  rewrite wp_bind. eapply wp_mono; [apply (receive_spec (S fuel))|done|].
  intros r s3 [Hq Hr]. assert (seq_ok s3) by (unfold seq_ok; by rewrite (quiet_seq _ _ Hq)).
  destruct (Z.eqb_spec r (-1)).
  { rewrite wp_bind. eapply wp_mono; [by apply (update_server_seq (S fuel))|done|]. intros ? s4 Hs4. by apply IH. }
  rewrite wp_bind, wp_get. destruct (Z.eqb_spec (code (rpc_of (packet_in s3))) RPC_REP_FAIL); [by apply IH|].
  rewrite wp_ret. exists (terms s3). split_and!; [|done|done|by apply Hr].
  rewrite (quiet_terms _ _ Hq), Ht, Hb. by eapply asked_quiet.
Qed.

(** C18: a call returns only with the answer to its own last request.  When
    [make_rpc] returns, the message sent last is the caller's request, to the server
    the client now takes for the leader and in a term it learned; the answer handed
    to the caller carries that request's number and is not a refusal. *)
Theorem make_rpc_answers fuel payload sz mask fl s n resp s' :
  0 ≤ cl_seq s < 2 ^ 64 →
  make_rpc fuel payload sz mask fl s = Ret (n, resp) s' →
  ∃ pkt t data, last (sent s') = Some (server s', pkt, data) ∧ code pkt = RPC_REQ
    ∧ flags pkt = fl ∧ core_mask pkt = mask ∧ client_port pkt = me_queue cfg
    ∧ requestor pkt = cl_me_mc cfg ∧ t ∈ terms s' ∧ quorum_term pkt = i32 t
    ∧ data = (app_request nonce_junk mask payload sz (terms s')).2
    ∧ resp = drop (Z.to_nat sizeof_rpc) (packet_in s')
    ∧ channel_seq (rpc_of (packet_in s')) = channel_seq pkt
    ∧ code (rpc_of (packet_in s')) ≠ RPC_REP_FAIL.
Proof.
  intros Hs. unfold Client.make_rpc. do 2 (case_match; [done|]). unfold mbind, M_bind.
  destruct (request_loop _ _ _ _ _ _ s) as [r s1|] eqn:Hrun; [|done]. intros [= <- <- <-].
  eapply wp_any_ret in Hrun; [|by apply request_loop_spec].
  destruct Hrun as (ts & (pkt & t & Hl & ? & ? & ? & ? & ? & ? & ? & ? & Hseq) & -> & Hf & Hc).
  exists pkt, t. eexists. split_and!; try done. by rewrite Hc, Hseq.
Qed.

(** ** Finding a live replica

    The machines are configured, buffers and the device work, and of the replicas
    only [live] answers.  Of the network the proof knows the message that waits for
    its answer, [awaited], the time its answer is there, [due], and how often the
    live replica may still refuse, [refusals]. *)
Definition replica_mac (k : Z) : option Z :=
  mc ← zlookup (cl_router cfg) k;
  row ← zlookup (mc_addresses (cl_context cfg)) mc;
  zlookup row ((server_ports cfg + 1) mod server_ports cfg).
Definition drained (buf : dpdk_rx_buffer_t) : Prop := buffered buf = consumed buf.
Definition replica (k : Z) : Prop := 0 ≤ k < cl_replicas cfg.

Section live.
Context (live : Z) (awaited : D → option rte_mbuf) (due : D → Z) (refusals : D → nat)
  (now : D → Z) (spare : D → nat) (k : nat) (step : Z).
Abbreviation timeout := (timeout_msec * 1000).

Definition to_live (m : rte_mbuf) : Prop := replica_mac live = Some (d_addr (eth m)).
(** The network is left as it is. *)
Definition calm (d d' : D) : Prop :=
  awaited d' = awaited d ∧ due d' = due d ∧ refusals d' = refusals d.
(** Packet [p] is the answer to [m]; a refusal is counted. *)
Record answers (m p : rte_mbuf) (d d' : D) : Prop := {
  ans_type : ether_type (eth p) = rte_cpu_to_be_16 ETHER_TYPE_IPv4;
  ans_src : src_addr (ip p) = magic_src_ip;
  ans_len : sizeof_ether_hdr + sizeof_ipv4_hdr < data_len p;
  ans_refusals : (refusals d' ≤ refusals d)%nat;
  ans_header : ∀ rest, let resp := rpc_of (take (Z.to_nat (data_len p - 34)) (payload p) ++ rest) in
    channel_seq resp = channel_seq (rpc_of (payload m))
    ∧ (code resp = RPC_REP_FAIL → (refusals d' < refusals d)%nat)
}.

Record one_live : Prop := {
  live_ports : 0 < server_ports cfg < INT_MAX ∧ 0 < ports (cl_context cfg);
  live_queue : 0 ≤ me_queue cfg ≤ INT_MAX;
  live_replica : replica live ∧ cl_replicas cfg ≤ INT_MAX;
  live_macs : ∀ k, replica k → is_Some (replica_mac k);
  live_mac : ∀ k, replica k → replica_mac k = replica_mac live → k = live;
  live_me : ∃ row a, zlookup (mc_addresses (cl_context cfg)) (Comm.me (cl_context cfg)) = Some row
    ∧ zlookup row 0 = Some a;
  live_length : ∀ r, Z.of_nat (length (rpc_bytes r)) = sizeof_rpc;
  live_header : ∀ r l, channel_seq (rpc_of (rpc_bytes r ++ l)) = channel_seq r;
  live_alloc : ∀ q d, ∃ mb d', pktmbuf_alloc q d = Ret (Some mb) d' ∧ MSG_MAXSIZE ≤ room mb ∧ calm d d';
  live_tx : ∀ p i q m d, ∃ n d', tx_buffer p i q m d = Ret n d' ∧ 0 ≤ n ≤ PKT_BURST
    ∧ awaited d' = Some m ∧ refusals d' = refusals d ∧ due d' + 3 * step ≤ now d' + timeout;
  live_flush : ∀ p i q d, ∃ n d', tx_buffer_flush p i q d = Ret n d' ∧ 0 ≤ n ≤ PKT_BURST
    ∧ calm d d' ∧ now d ≤ now d';
  live_clock : steady_clock rx_burst pktmbuf_free current_time now spare k step MSG_MAXSIZE
    ∧ timeout + 3 * step < 2 ^ 64;
  live_read : ∀ d t d', current_time d = Ret t d' → calm d d';
  live_free : ∀ p d d', pktmbuf_free p d = Ret tt d' → calm d d';
  live_burst : ∀ p q n m d l d', rx_burst p q n d = Ret l d' → awaited d = Some m →
    (l = [] ∧ calm d d' ∧ (to_live m → now d < due d))
    ∨ ∃ a, l = [a] ∧ to_live m ∧ answers m a d d'
}.
Context (Hnet : one_live).

(** ** Waiting for the answer *)
Lemma wait_round port q buf m d :
  drained buf → awaited d = Some m →
  wp (cyclone_rx_buffered rx_burst pktmbuf_free port q buf MSG_MAXSIZE) none (λ r d',
    let '(rc, data, buf') := r in drained buf' ∧ passes now spare step 2 d d'
    ∧ ((rc = -1 ∧ calm d d' ∧ (to_live m → now d < due d))
       ∨ (0 ≤ rc ∧ to_live m ∧ (refusals d' ≤ refusals d)%nat
          ∧ ∀ rest, channel_seq (rpc_of (data ++ rest)) = channel_seq (rpc_of (payload m))
            ∧ (code (rpc_of (data ++ rest)) = RPC_REP_FAIL → (refusals d' < refusals d)%nat)))) d.
Proof.
  intros Hdr Hm. destruct (live_clock Hnet) as [Hclock _].
  destruct (clock_burst _ _ _ _ _ _ _ _ Hclock port q PKT_BURST d) as (l & d1 & Hrun & Hp1 & Hfit).
  unfold wp, cyclone_rx_buffered, rx_refill, cyclone_rx_burst, mbind, M_bind.
  rewrite (proj2 (Z.eqb_eq _ _) Hdr), Hrun. unfold mret, M_ret.
  destruct (live_burst Hnet _ _ _ _ _ _ _ Hrun Hm) as [(-> & Hcalm & Hdue)|(a & -> & Hto & [Ht Hs Hl Hr Ha])].
  - cbn. split_and!; [done| |by left]. eapply passes_le; [exact Hclock| |exact Hp1]. lia.
  - apply Forall_singleton in Hfit as [Hf1 Hf2].
    destruct (clock_free _ _ _ _ _ _ _ _ Hclock a d1) as (d2 & Hfree & Hp2).
    destruct (live_free Hnet _ _ _ Hfree) as (_ & _ & Hr2). cbn. unfold aget. simpl. unfold accept_packet.
    rewrite Ht, Hs, !Z.eqb_refl. cbn [negb]. unfold sizeof_ether_hdr, sizeof_ipv4_hdr in *.
    replace (data_len a <=? 14 + 20) with false by lia.
    replace (_ && _) with true by lia. unfold mbind, M_bind. rewrite Hfree. cbn.
    split_and!; [done|by apply (passes_trans now spare step 1 1 d d1)|]. right. rewrite Hr2.
    split_and!; [lia|done|done|exact Ha].
Qed.

Lemma wait_answer fuel port q buf m mark d :
  drained buf → awaited d = Some m → mark ≤ now d → now d - mark < timeout →
  (to_live m → due d + 3 * step ≤ mark + timeout) →
  readings now spare k mark timeout d ≤ Z.of_nat fuel →
  wp (rx_wait rx_burst pktmbuf_free current_time fuel port q buf MSG_MAXSIZE mark timeout) none (λ o d',
    ∃ rc data buf', o = Some (rc, data, buf') ∧ drained buf'
    ∧ (refusals d' ≤ refusals d)%nat
    ∧ if decide (to_live m) then rc ≠ -1
        ∧ ∀ rest, channel_seq (rpc_of (data ++ rest)) = channel_seq (rpc_of (payload m))
          ∧ (code (rpc_of (data ++ rest)) = RPC_REP_FAIL → (refusals d' < refusals d)%nat)
      else rc = -1) d.
Proof.
  destruct (live_clock Hnet) as [Hclock Hbound].
  revert buf d. induction fuel as [|fuel IH]; intros buf d Hdr Hm Hge Hlt Hdue Hf; [unfold readings in Hf; nia|].
  cbn [rx_wait]. rewrite wp_bind. eapply wp_mono; [by apply wait_round|done|].
  intros [[rc data] buf'] d1 (Hdr1 & Hp1 & [(-> & Hc1 & Hearly)|(Hrc & Hto & Hr & Ha)]).
  2:{ replace (0 <=? rc) with true by lia. rewrite wp_ret. exists rc, data, buf'.
      rewrite decide_True by done. split_and!; [done..|lia|done]. }
  simpl. rewrite wp_bind. unfold wp at 1.
  destruct (clock_read _ _ _ _ _ _ _ _ Hclock d1) as (d2 & Hread & Hp2 & Hadv). rewrite Hread.
  pose proof (live_read Hnet _ _ _ Hread) as Hc2. destruct Hc1 as (Hw1 & Hd1 & Hr1), Hc2 as (Hw2 & Hd2 & Hr2).
  pose proof (readings_read _ _ _ _ _ _ _ _ Hclock mark timeout _ _ _ _ Hp1 Hp2 Hadv).
  destruct (passes_trans _ _ _ _ _ _ _ _ Hp1 Hp2) as [Hn _]. unfold u64.
  rewrite Z.mod_small by lia. destruct (Z.leb_spec timeout (now d2 - mark)) as [Hend|].
  - rewrite wp_ret. exists (-1), data, buf'. split_and!; [done|done|lia|].
    rewrite decide_False; [done|]. intros Hto. specialize (Hearly Hto). specialize (Hdue Hto). lia.
  - rewrite <- Hr1, <- Hr2. apply IH; try done; [congruence|lia..| |lia]. rewrite Hd2, Hd1. exact Hdue.
Qed.

(** The client talks to a replica and knows a term. *)
Record steady (s : CS) : Prop := {
  steady_server : replica (server s);
  steady_terms : length (terms s) = 1%nat;
  steady_buf : drained (cl_buf s);
  steady_seq : seq_ok s
}.
(** The request with the number before [cl_seq], to the server, waits for its
    answer; when the server is the live one the answer is due before the timeout. *)
Definition on_wire (s : CS) : Prop :=
  ∃ m, awaited (cdev s) = Some m ∧ replica_mac (server s) = Some (d_addr (eth m))
    ∧ channel_seq (rpc_of (payload m)) = u64 (cl_seq s - 1)
    ∧ due (cdev s) + 3 * step ≤ now (cdev s) + timeout.
(** At most [n] messages were sent, and one more for each refusal. *)
Definition spent (n : Z) (s s' : CS) : Prop :=
  (refusals (cdev s') ≤ refusals (cdev s))%nat
  ∧ ∃ new, sent s' = sent s ++ new
    ∧ Z.of_nat (length new) + Z.of_nat (refusals (cdev s')) ≤ n + Z.of_nat (refusals (cdev s)).
Lemma spent_trans n1 n2 s1 s2 s3 : spent n1 s1 s2 → spent n2 s2 s3 → spent (n1 + n2) s1 s3.
Proof.
  intros (Hr1 & l1 & Hs1 & Hl1) (Hr2 & l2 & Hs2 & Hl2). split; [lia|]. exists (l1 ++ l2).
  rewrite Hs2, Hs1, (assoc_L (++)), length_app. split; [done|lia].
Qed.
Lemma spent_le n n' s s' : n ≤ n' → spent n s s' → spent n' s s'.
Proof. intros Hn (Hr & l & Hs & Hl). split; [done|]. exists l. split; [done|lia]. Qed.
Lemma spent_none n s s' :
  sent s' = sent s → (refusals (cdev s') ≤ refusals (cdev s))%nat →
  Z.of_nat (refusals (cdev s')) ≤ n + Z.of_nat (refusals (cdev s)) → spent n s s'.
Proof. intros Hs Hr Hn. split; [done|]. exists []. rewrite Hs, app_nil_r. split; [done|simpl; lia]. Qed.
Lemma spent_one x s s' :
  sent s' = sent s ++ [x] → refusals (cdev s') = refusals (cdev s) → spent 1 s s'.
Proof. intros Hs Hr. split; [lia|]. exists [x]. split; [done|simpl; lia]. Qed.

Lemma wp_on_cdev {A} (op : M D A) E (Q : A → CS → Prop) s :
  wp (on_cdev op) E Q s ↔ wp op E (λ a d, Q a (s <| cdev := d |>)) (cdev s).
Proof. unfold on_cdev, wp. by destruct (op (cdev s)). Qed.

Lemma transmit_total pkt data mb s :
  wp (transmit pkt data mb (me_queue cfg)) none (λ _ s', ∃ d, awaited d = Some mb
    ∧ refusals d = refusals (cdev s) ∧ due d + 3 * step ≤ now d + timeout
    ∧ s' = s <| sent := sent s ++ [(server s, pkt, data)] |> <| cdev := d |>) s.
Proof.
  destruct (live_ports Hnet) as [_ Hp]. pose proof (live_queue Hnet) as Hq.
  unfold Client.transmit. rewrite wp_bind, wp_modify, wp_bind, wp_on_cdev. unfold cyclone_tx.
  rewrite wp_bind, wp_queue2port, wp_bind, wp_queue_index by lia. unfold wp at 1, mbind, M_bind. simpl.
  match goal with |- context [tx_buffer ?p ?i ?q mb ?d] =>
    destruct (live_tx Hnet p i q mb d) as (n & d1 & -> & Hn & Hl & Hr & Hd) end.
  match goal with |- context [tx_buffer_flush ?p ?i ?q ?d] =>
    destruct (live_flush Hnet p i q d) as (n2 & d2 & -> & Hk & (Hl2 & Hd2 & Hr2) & Hnow) end.
  unfold iadd, int_of, PKT_BURST in *. replace (in_int _) with true
    by (unfold in_int, INT_MIN, INT_MAX; lia). simpl. exists d2. split_and!; [congruence..|lia|done].
Qed.

Lemma prepare_total pkt data s :
  steady s → sizeof_rpc + Z.of_nat (length data) ≤ MSG_MAXSIZE →
  wp (prepare pkt data (sizeof_rpc + Z.of_nat (length data)) 0) none (λ r s',
    (∃ d, s' = s <| cdev := d |> ∧ refusals d = refusals (cdev s)) ∧ channel_seq r.1 = channel_seq pkt
    ∧ payload r.2 = rpc_bytes r.1 ++ data ∧ replica_mac (server s) = Some (d_addr (eth r.2))) s.
Proof.
  intros [Hserver Hterms _ _] Hsz. destruct (live_ports Hnet) as [Hp _].
  destruct (live_macs Hnet _ Hserver) as [a Ha]. pose proof Ha as Hmac. unfold replica_mac in Hmac.
  destruct (zlookup (cl_router cfg) (server s)) as [mc|] eqn:Hmc; [|done]. simpl in Hmac.
  destruct (zlookup (mc_addresses (cl_context cfg)) mc) as [row|] eqn:Hrow; [|done]. simpl in Hmac.
  destruct (live_me Hnet) as (row' & b & Hrow' & Hb).
  destruct (terms s) as [|t [|]] eqn:Ht; try done.
  unfold Client.prepare. rewrite wp_bind, wp_on_cdev. unfold wp at 1.
  destruct (live_alloc Hnet (me_queue cfg) (cdev s)) as (mb & d & -> & Hroom & Hcalm).
  rewrite wp_bind, wp_get. simpl. rewrite Ht. unfold aget at 1. simpl. rewrite wp_bind, wp_ret, wp_bind.
  unfold quorum_q. change (q_dispatcher * num_quorums) with 1.
  assert (in_int (server_ports cfg + 1) = true) as Hin by (unfold in_int, INT_MIN, INT_MAX in *; lia).
  rewrite wp_bind, wp_iadd, wp_iadd, Z.add_0_r by (rewrite ?Z.add_0_r; done).
  rewrite wp_bind, wp_queue2port, wp_bind by lia. unfold replica_mc.
  rewrite (wp_aget _ _ mc), wp_bind, wp_bind, wp_iadd, wp_iadd, Z.add_0_r by (rewrite ?Z.add_0_r; done).
  rewrite wp_bind, wp_queue_index, wp_bind, wp_ret, wp_bind by (unfold INT_MAX in *; lia).
  unfold cyclone_prep_mbuf_client2server. rewrite wp_bind, (wp_mac _ _ _ row a) by done.
  rewrite wp_bind, (wp_mac _ _ _ row' b) by done. unfold fill. simpl.
  rewrite length_app, Nat2Z.inj_add, (live_length Hnet).
  replace (_ && _ && _) with true by (unfold sizeof_rpc, MSG_MAXSIZE in *; lia).
  rewrite !wp_ret. simpl. split_and!; [exists d; split; [done|apply Hcalm]|done| |done].
  rewrite take_ge; [done|]. rewrite length_app. pose proof (live_length Hnet (pkt <| quorum_term := i32 t |>)).
  simpl in *. lia.
Qed.

Lemma u64_pred_succ x : 0 ≤ x < 2 ^ 64 → u64 (u64 (x + 1) - 1) = x.
Proof. intros. unfold u64. rewrite Zminus_mod_idemp_l, Z.add_simpl_r. by rewrite Z.mod_small. Qed.

Lemma ask_total junk c fl mask sz data s :
  steady s → sizeof_rpc + Z.of_nat (length data) ≤ MSG_MAXSIZE →
  wp (next_request cfg junk c fl mask (me_queue cfg) sz ≫= λ pkt,
      send_to_server pkt data (sizeof_rpc + Z.of_nat (length data)) 0) none
    (λ _ s', steady s' ∧ on_wire s' ∧ server s' = server s ∧ spent 1 s s') s.
Proof.
  intros Hs Hsz. unfold next_request. rewrite wp_bind, wp_bind, wp_get, wp_bind, wp_modify, wp_ret.
  unfold Client.send_to_server. rewrite wp_bind. eapply wp_mono; [apply prepare_total; [|done]|done|].
  { destruct Hs. split; try done. unfold seq_ok. apply Z.mod_pos_bound. lia. }
  intros [pkt mb] s1 ((d & -> & Hr) & Hc & Hpay & Hmac). eapply wp_mono; [apply transmit_total|done|].
  intros _ s2 (d2 & Hl & Hr2 & Hd & ->). destruct Hs as [Hsrv Ht Hb Hseq]. split_and!; [| |done|].
  - split; try done. unfold seq_ok. apply Z.mod_pos_bound. lia.
  - exists mb. split_and!; [done|done| |done]. simpl in *.
    by rewrite Hpay, (live_header Hnet), Hc, u64_pred_succ.
  - eapply spent_one; [done|]. simpl in *. congruence.
Qed.

(** The rounds of one wait. *)
Definition need : Z := (timeout + 1) * (Z.of_nat k + 1).
Lemma timeout_answer fuel buf m d :
  drained buf → awaited d = Some m → due d + 3 * step ≤ now d + timeout → need ≤ Z.of_nat fuel →
  wp (cyclone_rx_timeout rx_burst pktmbuf_free current_time fuel 0 (me_queue cfg) buf MSG_MAXSIZE timeout)
    none (λ o d', ∃ rc data buf', o = Some (rc, data, buf') ∧ drained buf'
    ∧ (refusals d' ≤ refusals d)%nat
    ∧ if decide (to_live m) then rc ≠ -1
        ∧ ∀ rest, channel_seq (rpc_of (data ++ rest)) = channel_seq (rpc_of (payload m))
          ∧ (code (rpc_of (data ++ rest)) = RPC_REP_FAIL → (refusals d' < refusals d)%nat)
      else rc = -1) d.
Proof.
  intros Hdr Hm Hdue Hf. destruct (live_clock Hnet) as [Hclock _]. unfold cyclone_rx_timeout.
  rewrite wp_bind. unfold wp at 1.
  destruct (clock_read _ _ _ _ _ _ _ _ Hclock d) as (d1 & Hread & [Hp _] & _). rewrite Hread.
  destruct (live_read Hnet _ _ _ Hread) as (Hw & Hd & Hr). pose proof (clock_spare _ _ _ _ _ _ _ _ Hclock d1).
  rewrite <- Hr. apply wait_answer; [done|congruence|lia|unfold timeout_msec; lia|lia|].
  unfold readings, need, timeout_msec in *. nia.
Qed.

Lemma receive_total fuel s :
  steady s → on_wire s → need ≤ Z.of_nat fuel →
  wp (common_receive_loop fuel) none (λ r s', steady s' ∧ server s' = server s
    ∧ sent s' = sent s ∧ (refusals (cdev s') ≤ refusals (cdev s))%nat
    ∧ if decide (server s = live) then r ≠ -1
        ∧ (code (rpc_of (packet_in s')) = RPC_REP_FAIL → (refusals (cdev s') < refusals (cdev s))%nat)
      else r = -1) s.
Proof.
  intros Hs (m & Hl & Hmac & Hseq & Hdue) Hf.
  assert (to_live m ↔ server s = live) as Hiff.
  { unfold to_live. split; [|by intros <-]. intros Hlm. apply (live_mac Hnet); [by apply Hs|congruence]. }
  pose proof (timeout_answer fuel (cl_buf s) m (cdev s) (steady_buf _ Hs) Hl Hdue Hf) as Hrx.
  destruct fuel as [|fuel]; [unfold need, timeout_msec in Hf; lia|]. cbn [Client.common_receive_loop].
  rewrite wp_bind, wp_get, wp_bind, wp_on_cdev. eapply wp_mono; [exact Hrx|done|].
  intros o d (sz & data & buf & -> & Hb & Hr & Hans). rewrite wp_bind, wp_modify.
  assert (∀ pin, steady (s <| cdev := d |> <| cl_buf := buf |> <| packet_in := pin |>)) as Hs'.
  { intros pin. by destruct Hs. }
  destruct (decide (server s = live)) as [Hlive|Hlive].
  - rewrite decide_True in Hans by by apply Hiff. destruct Hans as [Hsz Hans].
    replace (sz =? -1) with false by lia. rewrite wp_bind, wp_get. simpl.
    destruct (Hans (drop (length data) (packet_in s))) as [Hc Hcode].
    rewrite Hc, Hseq, Z.eqb_refl. simpl. rewrite wp_ret. split_and!; [apply Hs'|done..].
  - rewrite decide_False in Hans by by rewrite Hiff. subst sz. simpl. rewrite wp_ret.
    split_and!; [apply Hs'|done..].
Qed.

Lemma set_server_total fuel s :
  steady s → need ≤ Z.of_nat fuel →
  wp (set_server fuel) none (λ r s', steady s' ∧ server s' = server s ∧ spent 1 s s'
    ∧ r = if decide (server s = live) then 1 else 0) s.
Proof.
  intros Hs Hf. unfold Client.set_server. rewrite <- wp_bind_assoc, wp_bind.
  eapply wp_mono; [by apply (ask_total aux_junk RPC_REQ_STABLE 0 1 0 [] s Hs)|done|].
  intros _ s1 (Hs1 & Hw & Hsrv & Hsp). rewrite wp_bind. eapply wp_mono; [by apply receive_total|done|].
  intros r s2 (Hs2 & Hsrv2 & Hsent & Hrf & Hr). rewrite Hsrv in Hr, Hsrv2.
  assert (spent 1 s s2) as Hsp2.
  { apply (spent_trans 1 0 s s1); [done|]. apply spent_none; [done..|lia]. }
  destruct (decide (server s = live)) as [Hlive|].
  - replace (r =? -1) with false by (destruct Hr; lia). cbn [negb]. rewrite wp_bind, wp_modify, wp_ret.
    split_and!; [|done..]. by destruct Hs2.
  - subst r. simpl. by rewrite wp_ret.
Qed.

(** How many replicas are tried before the live one. *)
Definition tries (k : Z) : Z := if k <? live then live - k - 1 else live - k - 1 + cl_replicas cfg.
Lemma update_server_total fuel s :
  steady s → tries (server s) + need < Z.of_nat fuel →
  wp (update_server fuel) none (λ _ s', steady s' ∧ server s' = live
    ∧ spent (tries (server s) + 1) s s') s.
Proof.
  destruct (live_replica Hnet) as [Hlive Hn]. unfold replica in Hlive.
  assert (0 ≤ need) as Hneed by (unfold need, timeout_msec; lia). revert s. induction fuel as [|fuel IH]; intros s Hs Hf.
  { destruct Hs as [Hsrv _ _ _]. unfold tries, replica in *. case_match; lia. }
  pose proof (steady_server _ Hs) as Hsrv. unfold replica in Hsrv. cbn [Client.update_server].
  rewrite wp_bind, wp_get, wp_bind, wp_iadd by (unfold in_int, INT_MIN, INT_MAX in *; lia).
  rewrite wp_bind, wp_irem, wp_bind, wp_modify, wp_bind by lia.
  set (j := (server s + 1) mod cl_replicas cfg).
  assert (0 ≤ j < cl_replicas cfg ∧ (j = live ∨ tries j = tries (server s) - 1)
    ∧ 0 ≤ tries (server s)) as (Hk & Hd & Ht).
  { unfold j. destruct (Z.eq_dec (server s + 1) (cl_replicas cfg)) as [He|].
    - rewrite He, Z_mod_same_full. unfold tries. repeat case_match; lia.
    - rewrite Z.mod_small by lia. unfold tries. repeat case_match; lia. }
  eapply wp_mono; [apply (set_server_total (S fuel)); [by destruct Hs|lia]|done|].
  intros r s1 (Hs1 & Hsrv1 & Hsp & ->). change (server s1 = j) in Hsrv1.
  change (spent 1 s s1) in Hsp. simpl. destruct (decide (j = live)) as [Hkl|].
  - simpl. rewrite wp_ret. split_and!; [done|congruence|]. by apply (spent_le 1); [lia|].
  - simpl. eapply wp_mono; [apply IH; [done|rewrite Hsrv1; lia]|done|]. intros _ s2 (Hs2 & Hl2 & Hsp2).
    split_and!; [done..|]. rewrite Hsrv1 in Hsp2.
    apply (spent_le (1 + (tries j + 1))); [lia|]. by apply (spent_trans _ _ s s1).
Qed.

Context (build : list Z → Z * list Z) (Hbuild : ∀ ts, length ts = 1%nat →
  (build ts).1 = Z.of_nat (length (build ts).2) ∧ sizeof_rpc + (build ts).1 ≤ MSG_MAXSIZE).

(** One round of a request: an answer from the live server, a refusal of it, or a
    timeout. *)
Lemma request_round fuel c fl mask s (Q : Z → CS → Prop) :
  steady s → need ≤ Z.of_nat (S fuel) →
  (∀ r s', steady s' → server s' = server s → server s = live → spent 1 s s' →
     code (rpc_of (packet_in s')) ≠ RPC_REP_FAIL → Q r s') →
  (∀ s', steady s' → server s' = server s → server s = live → spent 0 s s' →
     (refusals (cdev s') < refusals (cdev s))%nat →
     wp (request_loop fuel c fl mask 0 build) none Q s') →
  (∀ s', steady s' → server s' = server s → server s ≠ live → spent 1 s s' →
     wp (update_server (S fuel) ;; request_loop fuel c fl mask 0 build) none Q s') →
  wp (request_loop (S fuel) c fl mask 0 build) none Q s.
Proof.
  intros Hs Hf Hok Hno Hto. cbn [Client.request_loop].
  rewrite wp_bind, wp_get. destruct (Hbuild (terms s) (steady_terms _ Hs)) as [Hsz Hmax].
  destruct (build (terms s)) as [sz data]. simpl in Hsz, Hmax. subst sz.
  replace (_ <=? MSG_MAXSIZE) with true by lia.
  pose proof (ask_total out_junk c fl mask (Z.of_nat (length data)) data s Hs Hmax) as Hask.
  apply wp_bind in Hask. rewrite wp_bind. eapply wp_mono; [exact Hask|done|]. clear Hask.
  intros pkt s0 Hask. rewrite wp_bind, wp_ret, wp_bind. eapply wp_mono; [exact Hask|done|].
  intros _ s1 (Hs1 & Hw & Hsrv & Hsp). rewrite wp_bind.
  eapply wp_mono; [by apply (receive_total (S fuel))|done|]. intros r s2 (Hs2 & Hsrv2 & Hsent & Hrf & Hr).
  rewrite Hsrv in Hr, Hsrv2. assert (refusals (cdev s1) ≤ refusals (cdev s))%nat as Hle by apply Hsp.
  assert (∀ n, Z.of_nat (refusals (cdev s2)) ≤ n + Z.of_nat (refusals (cdev s1)) → spent (1 + n) s s2) as Hsp2.
  { intros n Hn. apply (spent_trans 1 n s s1); [done|]. by apply spent_none. }
  destruct (decide (server s = live)).
  - destruct Hr as [Hr Hcode]. replace (r =? -1) with false by lia. rewrite wp_bind, wp_get.
    destruct (Z.eqb_spec (code (rpc_of (packet_in s2))) RPC_REP_FAIL) as [Hfail|].
    + specialize (Hcode Hfail). apply Hno; [done..| |lia]. apply (Hsp2 (-1)). lia.
    + rewrite wp_ret. apply Hok; [done..| |done]. apply (Hsp2 0). lia.
  - subst r. apply Hto; [done..|]. apply (Hsp2 0). lia.
Qed.

Abbreviation found n s := (λ (r : Z) (s' : CS), server s' = live ∧ spent n s s'
  ∧ code (rpc_of (packet_in s')) ≠ RPC_REP_FAIL).
Lemma request_live fuel c fl mask s :
  steady s → server s = live → need + Z.of_nat (refusals (cdev s)) < Z.of_nat fuel →
  wp (request_loop fuel c fl mask 0 build) none (found 1 s) s.
Proof.
  assert (0 ≤ need) as Hneed by (unfold need, timeout_msec; lia).
  revert s. induction fuel as [|fuel IH]; intros s Hs Hl Hf; [lia|].
  apply request_round; [done|lia|intros; split_and!; congruence| |done].
  intros s1 Hs1 Hsrv1 _ Hsp1 Hr. eapply wp_mono; [apply IH; [done|congruence|lia]|done|].
  intros r s2 (Hl2 & Hsp2 & Hc). split_and!; [done| |done]. by apply (spent_trans 0 1 s s1).
Qed.

Lemma request_total fuel c fl mask s :
  steady s → tries (server s) + need + 2 + Z.of_nat (refusals (cdev s)) < Z.of_nat fuel →
  wp (request_loop fuel c fl mask 0 build) none
    (found (if decide (server s = live) then 1 else tries (server s) + 3) s) s.
Proof.
  intros Hs Hf. assert (0 ≤ tries (server s) ∧ 0 ≤ need) as [Hpos Hneed].
  { split; [|unfold need, timeout_msec; lia]. destruct (live_replica Hnet) as [Hl _].
    destruct Hs as [Hsrv _ _ _]. unfold tries, replica in *. case_match; lia. }
  destruct (decide (server s = live)); [apply request_live; done || lia|].
  destruct fuel as [|fuel]; [lia|]. apply request_round; [done|lia|done|done|].
  intros s1 Hs1 Hsrv1 _ Hsp1. rewrite wp_bind. pose proof Hsp1 as [Hr1 _].
  eapply wp_mono; [apply update_server_total; [done|rewrite Hsrv1; lia]|done|].
  intros _ s2 (Hs2 & Hsrv2 & Hsp2). pose proof Hsp2 as [Hr2 _].
  eapply wp_mono; [apply request_live; done || lia|done|].
  intros r s3 (Hl3 & Hsp3 & Hc). split_and!; [done| |done]. rewrite Hsrv1 in Hsp2.
  apply (spent_le (1 + (tries (server s) + 1) + 1)); [lia|].
  eapply spent_trans; [by eapply spent_trans|done].
Qed.
End live.

(** C8: a client finds the live replica.  When of all replicas one answers and the
    others are silent, the answer to each message is there before the timeout
    (three steps of the clock early), nothing else arrives at the client's queue,
    the clock is steady, the replicas have different addresses and buffers and device
    work, then [make_rpc] returns, called with an empty receive buffer and a term
    known, whatever server the client took for the leader: with an answer that is no
    refusal and with the live replica as its server.  It sends at most
    [replicas + 1] messages, and one more each time the live replica refuses. *)
Theorem make_rpc_finds_live live awaited due refusals now spare k step payload sz mask fl fuel s :
  one_live live awaited due refusals now spare k step → steady s →
  0 ≤ sz ≤ DISP_MAX_MSGSIZE → sz ≤ Z.of_nat (length payload) →
  sizeof_ic_rdv ≤ Z.of_nat (length nonce_junk) →
  need k + cl_replicas cfg + 2 + Z.of_nat (refusals (cdev s)) < Z.of_nat fuel →
  ∃ n resp s' new, make_rpc fuel payload sz mask fl s = Ret (n, resp) s' ∧ server s' = live
    ∧ code (rpc_of (packet_in s')) ≠ RPC_REP_FAIL ∧ sent s' = sent s ++ new
    ∧ Z.of_nat (length new) ≤ cl_replicas cfg + 1 + Z.of_nat (refusals (cdev s)).
Proof.
  intros Hnet Hs Hsz Hlen Hjunk Hf.
  assert (wp (make_rpc fuel payload sz mask fl) none (λ _ s', server s' = live
    ∧ spent refusals (cl_replicas cfg + 1) s s' ∧ code (rpc_of (packet_in s')) ≠ RPC_REP_FAIL) s) as Hwp.
  2:{ apply wp_none_ret in Hwp as ([n resp] & s' & ? & ? & (_ & new & ? & ?) & ?).
      exists n, resp, s', new. split_and!; done || lia. }
  unfold Client.make_rpc. replace (DISP_MAX_MSGSIZE <? sz) with false by lia.
  replace (_ || _) with false by lia. assert (choose_quorum mask = 0) as ->.
  { unfold choose_quorum, core_to_quorum, num_quorums. rewrite Z.mod_1_r. by case_match. }
  assert (0 ≤ tries live (server s) < cl_replicas cfg
    ∧ (server s ≠ live → tries live (server s) + 3 ≤ cl_replicas cfg + 1)) as [Htr Hcost].
  { destruct (live_replica _ _ _ _ _ _ _ _ Hnet) as [? _]. destruct Hs as [? _ _ _]. unfold tries, replica in *.
    case_match; lia. }
  rewrite wp_bind. eapply wp_mono; [eapply request_total; [exact Hnet| |done|lia]|done|].
  - intros [|t [|]] Hts; try done. unfold app_request, DISP_MAX_MSGSIZE, sizeof_rpc, MSG_MAXSIZE,
      sizeof_ic_rdv, num_quorums in *. case_match; simpl; rewrite ?length_app, ?length_take; lia.
  - intros r s' (? & ? & ?). rewrite wp_bind, wp_get, wp_ret. split_and!; [done| |done].
    destruct (decide _); (eapply spent_le; [|eassumption]); [lia|auto].
Qed.
End frames.

(** ** Networks for the witnesses: three replicas, of which the third answers.  In
    the first one it answers at once, and reading the clock takes the whole
    timeout. *)
Definition demo_cfg : client_cfg := mk_cfg 0 3 1 2 [0; 1; 2] 3 2 4
  (mk_context [[10; 11]; [20; 21]; [30; 31]; [40; 41]] 3 2).
Definition net : Type := option rte_mbuf * Z.
Definition net_alloc (_ : Z) : M net (option rte_mbuf) :=
  mret (Some (empty_mbuf <| room := 9000 |>)).
Definition net_tx (_ _ _ : Z) (m : rte_mbuf) : M net Z := λ d, Ret 1 (Some m, d.2).
Definition net_flush (_ _ _ : Z) : M net Z := mret 0.
Definition demo_header (r : rpc_t) : list Z := [code r; channel_seq r] ++ replicate 50 0.
Definition demo_rpc_of (l : list Z) : rpc_t :=
  mk_rpc (nth 0 l 0) 0 0 0 0 0 0 0 (nth 1 l 0) 0 [] (0, 0) [].
Definition net_reply (m : rte_mbuf) : rte_mbuf :=
  mk_mbuf (mk_ether 0 0 8) (mk_ip 0 0 0 0 0 0 0 0 magic_src_ip 0)
    (demo_header (demo_rpc_of (payload m) <| code := RPC_REP_OK |>)) 9000 86 86 0 0 0 128.
Definition net_rx (_ _ _ : Z) : M net (list rte_mbuf) := λ d,
  match d.1 with
  | Some m => if d_addr (eth m) =? 31 then Ret [net_reply m] d else Ret [] d
  | None => Ret [] d
  end.
Definition net_clock : M net Z := λ d, Ret (d.2 + timeout_msec * 1000) (d.1, d.2 + timeout_msec * 1000).
Definition demo_client : rpc_client_t net :=
  mk_client 0 7 0 [1] (mk_rx [] 0 0) (replicate 100 0) 0 [] [] [] [] (None, 0).
Definition demo_blank : rpc_t := demo_rpc_of [].

Abbreviation demo_make_rpc := (make_rpc demo_cfg net_alloc (λ _, mret tt) net_tx net_flush net_rx
  net_clock demo_header demo_rpc_of demo_blank demo_blank []).
Lemma demo_make_rpc_run : ∃ n resp s', demo_make_rpc 10 [1; 2; 3] 3 1 0 demo_client = Ret (n, resp) s'
  ∧ server s' = 2.
Proof. vm_compute. do 3 eexists. split; reflexivity. Qed.

Lemma make_rpc_answers_witness :
  ∃ n resp s' pkt data, demo_make_rpc 10 [1; 2; 3] 3 1 0 demo_client = Ret (n, resp) s'
    ∧ last (sent s') = Some (2, pkt, data) ∧ code pkt = RPC_REQ ∧ data = [1; 2; 3]
    ∧ channel_seq (demo_rpc_of (packet_in s')) = channel_seq pkt.
Proof.
  destruct demo_make_rpc_run as (n & resp & s' & Hrun & Hsrv).
  assert (0 ≤ cl_seq demo_client < 2 ^ 64) as Hs by (simpl; lia).
  destruct (make_rpc_answers demo_cfg net_alloc (λ _, mret tt) net_tx net_flush net_rx net_clock
    demo_header demo_rpc_of demo_blank demo_blank [] 10 [1; 2; 3] 3 1 0 demo_client n resp s'
    Hs Hrun) as (pkt & t & data & Hl & Hc & _ & _ & _ & _ & _ & _ & Hd & _ & Hseq & _).
  exists n, resp, s', pkt, data. rewrite Hsrv in Hl. by split_and!.
Defined.

(** In the second one the answer takes 300 milliseconds, a reading of the clock as
    long, and the third replica refuses the first request. *)
Record slow := mk_slow { sl_msg : option rte_mbuf; sl_due : Z; sl_refusals : nat; sl_now : Z }.
Definition slow_alloc (_ : Z) : M slow (option rte_mbuf) :=
  mret (Some (empty_mbuf <| room := 9000 |>)).
Definition slow_tx (_ _ _ : Z) (m : rte_mbuf) : M slow Z := λ d,
  Ret 1 (mk_slow (Some m) (sl_now d + 300000) (sl_refusals d) (sl_now d)).
Definition slow_flush (_ _ _ : Z) : M slow Z := mret 0.
Definition slow_reply (m : rte_mbuf) (c : Z) : rte_mbuf :=
  mk_mbuf (mk_ether 0 0 8) (mk_ip 0 0 0 0 0 0 0 0 magic_src_ip 0)
    (demo_header (demo_rpc_of (payload m) <| code := c |>)) 9000 86 86 0 0 0 128.
Definition slow_rx (_ _ _ : Z) : M slow (list rte_mbuf) := λ d,
  match sl_msg d with
  | Some m =>
    if negb (d_addr (eth m) =? 31) || (sl_now d <? sl_due d) then Ret [] d
    else if (code (demo_rpc_of (payload m)) =? RPC_REQ) && negb (sl_refusals d =? 0)%nat
    then Ret [slow_reply m RPC_REP_FAIL] (mk_slow None 0 (sl_refusals d - 1) (sl_now d))
    else Ret [slow_reply m RPC_REP_OK] (mk_slow None 0 (sl_refusals d) (sl_now d))
  | None => Ret [] d
  end.
Definition slow_clock : M slow Z := λ d,
  Ret (sl_now d + 300000) (mk_slow (sl_msg d) (sl_due d) (sl_refusals d) (sl_now d + 300000)).
Definition slow_client : rpc_client_t slow :=
  mk_client 0 7 0 [1] (mk_rx [] 0 0) (replicate 100 0) 0 [] [] [] [] (mk_slow None 0 1 0).

Abbreviation slow_live := (one_live demo_cfg slow_alloc (λ _, mret tt) slow_tx slow_flush slow_rx slow_clock
  demo_header demo_rpc_of 2 sl_msg sl_due sl_refusals sl_now (λ _, 0%nat) 0 300000).
Lemma slow_clock_steady :
  steady_clock slow_rx (λ _, mret tt) slow_clock sl_now (λ _, 0%nat) 0 300000 MSG_MAXSIZE.
Proof.
  assert (∀ d, passes sl_now (λ _, 0%nat) 300000 1 d d) as Hrefl by (split; [lia|done]).
  assert (∀ m c, fits_buffer MSG_MAXSIZE (slow_reply m c)) as Hfit by (intros; by vm_compute).
  split; [done| | |].
  - intros d. eexists (mk_slow _ _ _ _). split; [reflexivity|]. unfold passes. simpl. lia.
  - intros p q n d. unfold slow_rx.
    destruct (sl_msg d) as [m|]; [|by exists [], d].
    destruct (_ || _); [by exists [], d|].
    destruct (_ && _); do 2 eexists; (split; [reflexivity|]);
      (split; [unfold passes; simpl; lia|by apply Forall_singleton]).
  - intros m d. by exists d.
Qed.
Lemma slow_burst p q n m d l d' :
  slow_rx p q n d = Ret l d' → sl_msg d = Some m →
  (l = [] ∧ calm sl_msg sl_due sl_refusals d d' ∧ (to_live demo_cfg 2 m → sl_now d < sl_due d))
  ∨ ∃ a, l = [a] ∧ to_live demo_cfg 2 m ∧ answers demo_rpc_of sl_refusals m a d d'.
Proof.
  unfold slow_rx, to_live. intros Hrun Hm. rewrite Hm in Hrun. change (replica_mac demo_cfg 2) with (Some 31).
  destruct (Z.eqb_spec (d_addr (eth m)) 31) as [->|]; simpl in Hrun.
  2:{ injection Hrun as <- <-. left. split_and!; [done..|congruence]. }
  destruct (Z.ltb_spec (sl_now d) (sl_due d)); simpl in Hrun; [injection Hrun as <- <-; by left|].
  right. destruct (_ && negb (sl_refusals d =? 0)%nat) eqn:Hc; injection Hrun as <- <-; eexists; (split_and!; [done..|]).
  - assert (sl_refusals d ≠ 0)%nat as Hne by (intros He; rewrite He, andb_false_r in Hc; done).
    split; [done..|simpl; lia|]. intros rest. split; [done|simpl; lia].
  - by split.
Qed.
Lemma slow_one_live : slow_live.
Proof.
  assert (∀ k, replica demo_cfg k → k = 0 ∨ k = 1 ∨ k = 2) as Hk by (unfold replica; simpl; lia).
  split; try done.
  - intros k [-> | [-> | ->]]%Hk; vm_compute; by eexists.
  - by intros k [-> | [-> | ->]]%Hk.
  - by exists [40; 41], 40.
  - intros q d. eexists _, d. split; [reflexivity|]. split; [by vm_compute|done].
  - intros p i q m d. eexists 1, _. split; [reflexivity|]. simpl. unfold PKT_BURST, timeout_msec.
    split_and!; done || lia.
  - intros p i q d. eexists 0, d. split; [reflexivity|]. unfold PKT_BURST. split_and!; done || lia.
  - split; [apply slow_clock_steady|unfold timeout_msec; lia].
  - by intros d t d' [= _ <-].
  - by intros m d d' [= <-].
  - apply slow_burst.
Qed.

(** Enough fuel for a wait of 1.2 seconds; not to be computed. *)
Lemma slow_fuel : { n : nat | need 0 + 3 + 2 + 1 < Z.of_nat n }.
Proof. exists (Z.to_nat 1200100). rewrite Z2Nat.id by lia. by vm_compute. Qed.

Lemma make_rpc_finds_live_witness :
  ∃ n resp s' new, make_rpc demo_cfg slow_alloc (λ _, mret tt) slow_tx slow_flush slow_rx slow_clock
      demo_header demo_rpc_of demo_blank demo_blank (replicate 14 0) (proj1_sig slow_fuel) [1; 2; 3] 3 1 0
      slow_client = Ret (n, resp) s'
    ∧ server s' = 2 ∧ code (demo_rpc_of (packet_in s')) ≠ RPC_REP_FAIL
    ∧ sent s' = new ∧ Z.of_nat (length new) ≤ 5.
Proof.
  destruct (make_rpc_finds_live demo_cfg slow_alloc (λ _, mret tt) slow_tx slow_flush slow_rx slow_clock
    demo_header demo_rpc_of demo_blank demo_blank (replicate 14 0) 2 sl_msg sl_due sl_refusals sl_now
    (λ _, 0%nat) 0 300000 [1; 2; 3] 3 1 0 (proj1_sig slow_fuel) slow_client slow_one_live)
    as (n & resp & s' & new & Hrun & Hsrv & Hc & Hsent & Hlen);
    [by split|by vm_compute..|exact (proj2_sig slow_fuel)|].
  exists n, resp, s', new. by split_and!.
Defined.
