(* ===== verification/ClientAsync.v ===== *)
(** The client's asynchronous requests and the terms it learns: every request
    taken has its callback called at most once and is pending until then, and a
    term read from a server's snapshot passes that server's check. *)

From S2P Require Import Prelude RaftNode RaftServer Comm Cyclone CycloneSafe EventLoop Dispatcher Client ClientSafe.

(** ** The map of pending requests *)
Lemma pend_insert_perm a l : a_seq a ∉ map a_seq l → pend_insert a l ≡ₚ a :: l.
Proof.
  induction l as [|b l IH]; simpl; [done|]. intros [Hab Hl]%not_elem_of_cons.
  destruct (Z.eqb_spec (a_seq a) (a_seq b)); [done|]. case_match; [done|].
  rewrite IH by done. constructor.
Qed.

Lemma pend_find_Some n l a : pend_find n l = Some a → a ∈ l ∧ a_seq a = n.
Proof.
  unfold pend_find. intros ([i b] & Hf & [= <-])%bind_Some.
  apply list_find_Some in Hf as (Hi & Hn & _). split; [by eapply list_elem_of_lookup_2|done].
Qed.

Lemma pend_erase_fresh n l : n ∉ map a_seq l → pend_erase n l = l.
Proof.
  unfold pend_erase. induction l as [|b l IH]; simpl; [done|]. intros [Hb Hl]%not_elem_of_cons.
  rewrite filter_cons_True by congruence. by rewrite IH.
Qed.
Lemma pend_erase_perm a l : NoDup (map a_seq l) → a ∈ l → l ≡ₚ a :: pend_erase (a_seq a) l.
Proof.
  induction l as [|b l IH]; simpl; [by intros _ ?%not_elem_of_nil|].
  intros [Hb Hnd]%NoDup_cons [->|Ha]%elem_of_cons.
  - unfold pend_erase. rewrite filter_cons_False by auto. change (filter _ l) with (pend_erase (a_seq b) l).
    by rewrite pend_erase_fresh.
  - assert (a_seq b ≠ a_seq a) as Hne by (intros Heq; apply Hb; rewrite Heq; by apply list_elem_of_fmap_2).
    unfold pend_erase. rewrite filter_cons_True by done. rewrite (IH Hnd Ha) at 1. constructor.
Qed.

Section async.
Context {D : Type} (cfg : client_cfg).
Context (pktmbuf_alloc : Z → M D (option rte_mbuf)) (pktmbuf_free : rte_mbuf → M D ())
  (tx_buffer : Z → Z → Z → rte_mbuf → M D Z) (tx_buffer_flush : Z → Z → Z → M D Z)
  (rx_burst : Z → Z → Z → M D (list rte_mbuf)) (current_time : M D Z)
  (comm_malloc ring_full : M D bool).
Context (rpc_bytes : rpc_t → list Z) (rpc_of : list Z → rpc_t) (out_junk : rpc_t).
Abbreviation CS := (rpc_client_t D).
Abbreviation start_rpc_async := (start_rpc_async cfg pktmbuf_alloc tx_buffer tx_buffer_flush
  current_time comm_malloc ring_full rpc_bytes out_junk).
Abbreviation make_rpc_async := (make_rpc_async cfg pktmbuf_alloc tx_buffer tx_buffer_flush
  current_time comm_malloc ring_full rpc_bytes out_junk).
Abbreviation process_response := (process_response pktmbuf_free current_time rpc_of).
Abbreviation process_burst := (process_burst pktmbuf_free current_time rpc_of).
Abbreviation scan_timeouts := (scan_timeouts current_time).
Abbreviation listener_poll := (listener_poll cfg pktmbuf_free rx_burst current_time rpc_of).
Abbreviation listener_round := (listener_round cfg pktmbuf_free rx_burst current_time rpc_of).

(** The steps of the application's thread and of the listener's, in the order they
    happen.  [Call] runs a call until its request is transmitted and [Count] the
    rest of it; [Drain] empties the ring and [Poll] is the rest of the listener's
    round.  A thread that is still in a call starts no other one, and a listener
    that has returned does nothing more. *)
Inductive async_op := Call (payload : list Z) (sz cb mask fl : Z) | Count | Drain | Poll.
(** What became of a call: its request was transmitted; it was refused with
    [EMAX_INFLIGHT]; or it named several cores, returned 0 and sent nothing. *)
Inductive fate := Taken | Refused | Ignored.
#[local] Instance fate_eq_dec : EqDecision fate.
Proof. solve_decision. Defined.
Definition fate_of (r : Z) (transmitted : bool) : fate :=
  if transmitted then Taken else if r =? 0 then Ignored else Refused.
(** The result names the callbacks of the calls with their fates, and says whether
    the last call has yet to be counted. *)
Fixpoint run_async (alive uncounted : bool) (ops : list async_op) : M CS (list (Z * fate) * bool) :=
  match ops with
  | [] => mret ([], uncounted)
  | Call payload sz cb mask fl :: ops =>
    if uncounted then run_async alive uncounted ops else
    '(r, transmitted) ← start_rpc_async payload sz cb mask fl;
    '(calls, u) ← run_async alive transmitted ops;
    mret ((cb, fate_of r transmitted) :: calls, u)
  | Count :: ops => (if uncounted then add_inflight else mret tt) ;; run_async alive false ops
  | Drain :: ops => (if alive then drain_ring else mret tt) ;; run_async alive uncounted ops
  | Poll :: ops =>
    alive ← (if alive then listener_poll else mret false);
    run_async alive uncounted ops
  end.

Definition with_fate (f : fate) (calls : list (Z * fate)) : list Z :=
  map fst (filter (λ c, c.2 = f) calls).
Definition outstanding (s : CS) : list async_comm_t := to_lstnr s ++ pendresponse_map s.
Definition callbacks (s : CS) : list Z := map (λ c, c.1.1) (called s).

(** The accounts, with [u] when a transmitted request has yet to be counted. *)
Record accounted (u : bool) (s : CS) : Prop := {
  acc_nodup : NoDup (map a_seq (outstanding s));
  acc_fresh : Forall (λ n, n < cl_aseq s) (map a_seq (outstanding s));
  acc_count : msg_inflight s + Z.b2z u = Z.of_nat (length (outstanding s));
  acc_max : Z.of_nat (length (outstanding s)) ≤ max_inflight cfg;
  acc_seq : 0 ≤ cl_aseq s
}.
(** Both the outstanding requests and the callbacks made; steps move requests from
    the first to the second and may add those of the calls [c]. *)
Definition tally (s : CS) : list Z := callbacks s ++ map a_cb (outstanding s).
Record moved (u : bool) (c : list (Z * fate)) (s s' : CS) : Prop := {
  mv_acc : accounted u s';
  mv_tally : tally s' ≡ₚ tally s ++ with_fate Taken c;
  mv_aseq : cl_aseq s' = cl_aseq s + Z.of_nat (length (with_fate Taken c) + length (with_fate Ignored c));
  mv_sent : length (sent s') = (length (sent s) + length (with_fate Taken c))%nat
}.

Lemma accounted_perm u s s' :
  accounted u s → outstanding s' ≡ₚ outstanding s → cl_aseq s' = cl_aseq s →
  msg_inflight s' = msg_inflight s → accounted u s'.
Proof.
  intros [Hn Hf Hc Hm Hs] Ho Ha Hi. assert (map a_seq (outstanding s') ≡ₚ map a_seq (outstanding s)) as Hp
    by by rewrite Ho.
  split; rewrite ?Ha, ?Hi, ?Hp; try done; by rewrite Ho.
Qed.
Lemma moved_perm u s s' :
  accounted u s → outstanding s' ≡ₚ outstanding s → cl_aseq s' = cl_aseq s →
  msg_inflight s' = msg_inflight s → called s' = called s → sent s' = sent s → moved u [] s s'.
Proof.
  intros Hacc Ho Ha Hi Hc Hse. split; [by eapply accounted_perm| |simpl; lia|rewrite Hse; simpl; lia].
  unfold tally, callbacks. by rewrite Hc, Ho, app_nil_r.
Qed.
Lemma moved_quiet u s s' : accounted u s → quiet s s' → moved u [] s s'.
Proof.
  intros Hacc Hq. apply moved_perm; try done; try apply Hq. unfold outstanding.
  by rewrite (quiet_ring _ _ Hq), (quiet_pending _ _ Hq).
Qed.
Lemma with_fate_app f c c' : with_fate f (c ++ c') = with_fate f c ++ with_fate f c'.
Proof. unfold with_fate. by rewrite filter_app, map_app. Qed.
Lemma moved_trans u u' c c' s1 s2 s3 : moved u c s1 s2 → moved u' c' s2 s3 → moved u' (c ++ c') s1 s3.
Proof.
  intros [_ Ht Ha Hs] [Hacc Ht' Ha' Hs']. split; rewrite ?with_fate_app, ?length_app; [done| |lia..].
  by rewrite Ht', Ht, app_assoc.
Qed.

(** ** The listener *)
Lemma drain_perm l m :
  NoDup (map a_seq (l ++ m)) → foldl (λ m a, pend_insert a m) m l ≡ₚ l ++ m.
Proof.
  revert m. induction l as [|a l IH]; simpl; [done|]. intros m [Ha Hnd]%NoDup_cons.
  assert (pend_insert a m ≡ₚ a :: m) as Hp.
  { apply pend_insert_perm. rewrite map_app, elem_of_app in Ha. tauto. }
  rewrite IH, Hp; [by rewrite Permutation_middle|]. rewrite Hp, <- Permutation_middle. simpl.
  by apply NoDup_cons.
Qed.
Lemma drain_moved u s : accounted u s → wp (drain_ring (D := D)) any (λ _ s', moved u [] s s') s.
Proof.
  intros Hacc. unfold drain_ring. rewrite wp_modify. apply moved_perm; try done. unfold outstanding at 1.
  simpl. apply drain_perm, Hacc.
Qed.

Lemma answered_moved u s a st delay :
  accounted u s → a ∈ pendresponse_map s →
  wp (call_back a st delay ;;
      modify (λ s, s <| pendresponse_map := pend_erase (a_seq a) (pendresponse_map s) |>) ;;
      sub_inflight (D := D)) any (λ _ s', moved u [] s s') s.
Proof.
  intros Hacc Ha. unfold call_back, sub_inflight. rewrite wp_bind, wp_modify, wp_bind, !wp_modify.
  pose proof (acc_nodup _ _ Hacc) as Hnd. unfold outstanding in Hnd. rewrite map_app in Hnd.
  apply NoDup_app in Hnd as (_ & _ & Hnd).
  assert (outstanding s ≡ₚ a :: to_lstnr s ++ pend_erase (a_seq a) (pendresponse_map s)) as Hp.
  { unfold outstanding. rewrite (pend_erase_perm _ _ Hnd Ha) at 1. by rewrite Permutation_middle. }
  destruct Hacc as [Hn Hf Hc Hm Hs]. rewrite Hp in Hn, Hf, Hc, Hm. simpl in *.
  apply NoDup_cons in Hn as [_ Hn]. apply Forall_cons in Hf as [_ Hf].
  split; [split; simpl; try done; unfold outstanding; simpl; lia| |simpl; lia..].
  unfold tally, callbacks. rewrite Hp. unfold outstanding. simpl. rewrite app_nil_r.
  by rewrite map_app, <- (assoc_L (++)).
Qed.

Lemma process_response_moved u m s : accounted u s → wp (process_response m) any (λ _ s', moved u [] s s') s.
Proof.
  intros Hacc. unfold Client.process_response. case_match.
  { rewrite wp_bind. eapply wp_mono; [apply quiet_on_cdev|done|]. intros ? s1 Hq. rewrite wp_ret.
    by apply moved_quiet. }
  rewrite wp_bind, wp_get. destruct (pend_find _ _) as [a|] eqn:Hf.
  2:{ rewrite wp_bind. eapply wp_mono; [apply quiet_on_cdev|done|]. intros ? s1 Hq. rewrite wp_ret.
      by apply moved_quiet. }
  apply pend_find_Some in Hf as [Ha Hn]. rewrite <- Hn, wp_bind.
  eapply wp_mono; [apply quiet_on_cdev|done|]. intros now s1 Hq.
  assert (moved u [] s s1) as Hm by by apply moved_quiet.
  rewrite <- (quiet_pending _ _ Hq) in Ha. set (st := if _ =? _ then _ else _).
  pose proof (answered_moved u s1 a st (u64 (now - a_timestamp a)) (mv_acc _ _ _ _ Hm) Ha) as Hans.
  unfold call_back, sub_inflight in *. rewrite !wp_bind, !wp_modify, !wp_bind, !wp_modify in Hans.
  rewrite wp_bind, wp_modify, wp_bind, wp_modify, wp_bind. eapply wp_mono; [apply quiet_on_cdev|done|].
  intros ? s2 Hq2. rewrite wp_bind, wp_modify, wp_ret.
  apply (moved_trans u u [] [] s s1); [done|]. destruct Hans as [Hacc2 Ht Hs2 Hse2].
  pose proof Hq2 as [Hsent _ Haseq _ _ Hinf Hring Hpend Hcalled]. simpl in *. split.
  - apply (accounted_perm _ _ _ Hacc2); simpl; unfold outstanding; simpl;
      by rewrite ?Hring, ?Hpend, ?Haseq, ?Hinf.
  - rewrite <- Ht. unfold tally, callbacks, outstanding. simpl. by rewrite Hcalled, Hring, Hpend.
  - simpl. lia.
  - simpl. by rewrite Hsent.
Qed.

Lemma process_burst_moved u ms s : accounted u s → wp (process_burst ms) any (λ _ s', moved u [] s s') s.
Proof.
  revert s. induction ms as [|m ms IH]; intros s Hacc; simpl.
  { rewrite wp_ret. by apply moved_perm. }
  rewrite wp_bind. eapply wp_mono; [by apply process_response_moved|done|]. intros ok s1 Hm1.
  destruct ok; [|by rewrite wp_ret]. eapply wp_mono; [apply IH, Hm1|done|]. intros ok s2 Hm2.
  by apply (moved_trans u u [] [] s s1).
Qed.

Lemma scan_timeouts_quiet l : Pres quiet (scan_timeouts l).
Proof.
  induction l as [|a l IH]; simpl; intros s; [by rewrite wp_ret|]. rewrite wp_bind.
  eapply wp_mono; [apply quiet_on_cdev|done|]. intros now s1 Hq. destruct (_ <=? _).
  - unfold call_back, sub_inflight. by rewrite !wp_bind, !wp_modify, !wp_bind, !wp_modify.
  - eapply wp_mono; [apply IH|done|]. intros [] s2 Hq2. by trans s1.
Qed.

Lemma listener_poll_moved u s : accounted u s → wp listener_poll any (λ _ s', moved u [] s s') s.
Proof.
  intros Hacc. unfold Client.listener_poll. rewrite wp_bind.
  eapply wp_mono; [apply quiet_on_cdev|done|]. intros ms s2 Hq.
  apply (moved_quiet u) in Hq; [|done]. rewrite wp_bind.
  eapply wp_mono; [apply process_burst_moved, Hq|done|]. intros ok s3 Hm3.
  assert (moved u [] s s3) as Hm by by apply (moved_trans u u [] [] s s2).
  destruct ok; [|by rewrite wp_ret]. rewrite wp_bind, wp_get, wp_bind.
  eapply wp_mono; [apply scan_timeouts_quiet|done|]. intros [] s4 Hq4. rewrite wp_ret.
  apply (moved_trans u u [] [] s s3); [done|]. apply moved_quiet; [apply Hm|done].
Qed.

(** ** A call *)
Lemma send_async_spec pkt data sz q c s :
  wp (send_to_server_async cfg pktmbuf_alloc tx_buffer tx_buffer_flush current_time ring_full
        rpc_bytes pkt data sz q c) any (λ _ s', ∃ t, to_lstnr s' = to_lstnr s ++ [mk_async (channel_seq pkt) t (a_cb c)]
    ∧ pendresponse_map s' = pendresponse_map s ∧ msg_inflight s' = msg_inflight s
    ∧ cl_aseq s' = cl_aseq s ∧ called s' = called s ∧ length (sent s') = S (length (sent s))) s.
Proof.
  unfold send_to_server_async. rewrite wp_bind. apply wp_any_intro. intros [pkt' mb] s1 Hp.
  apply prepare_spec in Hp as [Hq (t & _ & ->)]. rewrite wp_bind.
  eapply wp_mono; [apply quiet_on_cdev|done|]. intros now s2 Hq2. rewrite wp_bind.
  eapply wp_mono; [apply quiet_on_cdev|done|]. intros full s3 Hq3. rewrite wp_bind.
  destruct full; [by rewrite wp_fail|]. rewrite wp_modify. unfold transmit.
  rewrite wp_bind, wp_modify, wp_bind. eapply wp_mono; [apply quiet_on_cdev|done|].
  intros e s4 Hq4. rewrite wp_ret. assert (quiet s s3) as [Hse _ Ha _ _ Hi Hr Hpe Hc].
  { trans s1; [done|]. by trans s2. }
  destruct Hq4 as [Hse4 _ Ha4 _ _ Hi4 Hr4 Hpe4 Hc4]. simpl in *. exists now.
  rewrite Hr4, Hpe4, Hi4, Ha4, Hc4, Ha, Hi, Hr, Hpe, Hc, Hse4, length_app, Hse. simpl. by rewrite Nat.add_1_r.
Qed.

Section bounded.
Context (Hmax : 0 ≤ max_inflight cfg < 2 ^ 64).

Lemma push_moved s s' c :
  accounted false s → msg_inflight s < max_inflight cfg → a_seq c = cl_aseq s →
  to_lstnr s' = to_lstnr s ++ [c] → pendresponse_map s' = pendresponse_map s →
  msg_inflight s' = msg_inflight s → cl_aseq s' = cl_aseq s + 1 → called s' = called s →
  length (sent s') = S (length (sent s)) → moved true [(a_cb c, Taken)] s s'.
Proof.
  intros [Hn Hf Hc Hm Hs] Hlt Hseq Hr Hp Hi Ha Hcl Hse.
  assert (outstanding s' ≡ₚ c :: outstanding s) as Ho.
  { unfold outstanding. rewrite Hr, Hp, <- (assoc_L (++)). simpl. by rewrite Permutation_middle. }
  split; [|unfold tally, callbacks; rewrite Hcl, Ho; simpl; by rewrite <- Permutation_middle, (Permutation_app_comm _ [a_cb c])|simpl; lia..].
  split; rewrite ?Ho, ?Ha, ?Hi; simpl in *; try lia.
  - apply NoDup_cons. split; [|done]. intros Hin. eapply Forall_forall in Hf; [|exact Hin]. lia.
  - apply Forall_cons. split; [lia|]. eapply Forall_impl; [exact Hf|]. simpl. lia.
Qed.

(** A refused call leaves no trace. *)
Lemma refused_unchanged payload sz cb mask fl s r s' :
  make_rpc_async payload sz cb mask fl s = Ret r s' → r ≠ 0 →
  s' = s ∧ r = EMAX_INFLIGHT ∧ max_inflight cfg ≤ u64 (msg_inflight s).
Proof.
  unfold Client.make_rpc_async, Client.start_rpc_async, mbind, M_bind, get, mret, M_ret.
  destruct (_ <? sz); [done|]. destruct (Z.leb_spec (max_inflight cfg) (u64 (msg_inflight s))); simpl.
  { by intros [= <- <-]. }
  intros Hrun Hr. exfalso. revert Hrun. cbn. destruct (on_cdev current_time _) as [now s1|]; [|done].
  destruct (negb (_ =? 0)); [by intros [= <- <-]|]. destruct (_ || _); [done|].
  destruct (on_cdev comm_malloc s1) as [ok s2|]; [|done]. destruct ok; simpl; [|done].
  destruct (send_to_server_async _ _ _ _ _ _ _ _ _ _ _ _ s2) as [? s3|]; [|done]. by intros [= <- <-].
Qed.

Lemma call_moved payload sz cb mask fl s :
  accounted false s → cl_aseq s + 1 < 2 ^ 64 →
  wp (start_rpc_async payload sz cb mask fl) any (λ r s',
    moved r.2 [(cb, fate_of r.1 r.2)] s s') s.
Proof.
  intros Hacc Hseq. pose proof Hacc as [Hn Hf Hc Hm Hs]. simpl in Hc. unfold Client.start_rpc_async.
  destruct (_ <? sz); [by rewrite wp_fail|]. rewrite wp_bind, wp_get.
  unfold u64 at 1. rewrite Z.mod_small by lia. destruct (Z.leb_spec (max_inflight cfg) (msg_inflight s)).
  { rewrite wp_ret. simpl. split; simpl; rewrite ?app_nil_r; done || lia. }
  rewrite wp_bind, wp_modify, wp_bind. eapply wp_mono; [apply quiet_on_cdev|done|]. intros now s1 Hq1.
  unfold u64 in Hq1. rewrite (Z.mod_small (cl_aseq s + 1)) in Hq1 by lia.
  destruct (Z.land mask (mask - 1) =? 0) eqn:Hg; simpl.
  2:{ rewrite wp_ret. destruct Hq1 as [Hse _ Ha _ _ Hi Hr Hp Hcl]. simpl in *.
      assert (outstanding s1 = outstanding s) as Ho by (unfold outstanding; congruence).
      split; [|unfold tally, callbacks; rewrite Hcl, Ho; simpl; by rewrite app_nil_r|simpl; lia|rewrite Hse; simpl; lia].
      split; rewrite ?Ho, ?Ha, ?Hi; try done; [|simpl; lia..]. eapply Forall_impl; [exact Hf|]. simpl. lia. }
  destruct (_ || _); [by rewrite wp_fail|]. rewrite wp_bind. eapply wp_mono; [apply quiet_on_cdev|done|].
  intros ok s2 Hq2. destruct ok; simpl; [|by rewrite wp_fail]. rewrite wp_bind.
  eapply wp_mono; [apply send_async_spec|done|]. intros ? s3 (t & Hr3 & Hp3 & Hi3 & Ha3 & Hc3 & Hse3).
  rewrite wp_ret.
  assert (quiet (s <| cl_aseq := cl_aseq s + 1 |>) s2) as [Hse _ Ha _ _ Hi Hr Hp Hcl] by by trans s1.
  simpl in *. apply (push_moved s _ (mk_async (cl_aseq s) t cb)); simpl; try done; congruence.
Qed.

Lemma count_moved (u : bool) s :
  accounted u s → wp (if u then add_inflight else mret tt) any (λ _ s', moved false [] s s') s.
Proof.
  intros Hacc. destruct u; [|rewrite wp_ret; by apply moved_perm].
  unfold add_inflight. rewrite wp_modify. destruct Hacc as [Hn Hf Hc Hm Hs].
  split; [|unfold tally; by rewrite app_nil_r|simpl; lia..].
  split; try done. simpl in *. unfold outstanding in *. simpl. lia.
Qed.

Lemma run_moved alive u ops s :
  accounted u s → cl_aseq s + Z.of_nat (length ops) < 2 ^ 64 →
  wp (run_async alive u ops) any (λ r s', moved r.2 r.1 s s') s.
Proof.
  revert alive u s. induction ops as [|op ops IH]; intros alive u s Hacc Hseq; simpl length in *.
  { simpl. rewrite wp_ret. by apply moved_perm. }
  assert (∀ alive u s1, moved u [] s s1 → wp (run_async alive u ops) any (λ r s', moved r.2 r.1 s s') s1) as Hrest.
  { intros al u1 s1 Hm. pose proof (mv_aseq _ _ _ _ Hm) as Ha. simpl in Ha.
    eapply wp_mono; [apply IH; [apply Hm|lia]|done|].
    intros r s2 Hm2. by apply (moved_trans u1 _ [] _ s s1). }
  destruct op as [payload sz cb mask fl| | |]; simpl.
  - destruct u; [by apply Hrest, moved_perm|]. rewrite wp_bind.
    eapply wp_mono; [apply call_moved; [done|lia]|done|]. intros [r o] s1 Hm. simpl in Hm. rewrite wp_bind.
    eapply wp_mono; [apply IH; [apply Hm|]|done|].
    { pose proof (mv_aseq _ _ _ _ Hm) as Ha. simpl in Ha. destruct (fate_of r o); simpl in Ha; lia. }
    intros [calls u2] s2 Hm2. rewrite wp_ret. apply (moved_trans o u2 [_] calls s s1 s2 Hm Hm2).
  - rewrite wp_bind. eapply wp_mono; [by apply count_moved|done|]. intros ? s1 Hm. by apply Hrest.
  - rewrite wp_bind. destruct alive.
    + eapply wp_mono; [by apply drain_moved|done|]. intros ? s1 Hm. by apply Hrest.
    + rewrite wp_ret. by apply Hrest, moved_perm.
  - rewrite wp_bind. destruct alive.
    + eapply wp_mono; [by apply listener_poll_moved|done|]. intros b s1 Hm. by apply Hrest.
    + rewrite wp_ret. by apply Hrest, moved_perm.
Qed.

(** C17: asynchronous requests are accounted for.  From a fresh client, over any
    interleaving (that returns, of fewer than 2^64 steps) of calls, in their two
    parts up to the transmission and after it, and of the listener's rounds, in
    their two parts: every request that was transmitted is either outstanding or had
    its callback called, exactly once, and nothing else is outstanding or called
    back; as many messages were sent as calls were taken, so a call that names
    several cores, which returns 0 like a call that was taken, is neither sent nor
    ever called back; a refused call uses no sequence number; the in-flight counter
    is the number of outstanding requests, less one while the last has yet to be
    counted, and they are never more than the maximum. *)
Theorem async_accounted alive ops s calls u s' :
  to_lstnr s = [] → pendresponse_map s = [] → called s = [] → msg_inflight s = 0 → 0 ≤ cl_aseq s →
  cl_aseq s + Z.of_nat (length ops) < 2 ^ 64 →
  run_async alive false ops s = Ret (calls, u) s' →
  with_fate Taken calls ≡ₚ callbacks s' ++ map a_cb (outstanding s')
  ∧ length (sent s') = (length (sent s) + length (with_fate Taken calls))%nat
  ∧ cl_aseq s' = cl_aseq s + Z.of_nat (length (with_fate Taken calls) + length (with_fate Ignored calls))
  ∧ msg_inflight s' + Z.b2z u = Z.of_nat (length (outstanding s'))
  ∧ Z.of_nat (length (outstanding s')) ≤ max_inflight cfg
  ∧ NoDup (map a_seq (outstanding s')).
Proof.
  intros Hr Hp Hc Hi Ha Hseq Hrun. assert (outstanding s = []) as Ho by (unfold outstanding; by rewrite Hr, Hp).
  assert (accounted false s) as Hacc.
  { split; rewrite ?Ho, ?Hi; simpl; try done; [constructor|lia]. }
  destruct (wp_any_ret _ _ _ _ _ (run_moved alive false ops s Hacc Hseq) Hrun) as [[] Ht Has Hse].
  unfold tally at 2, callbacks in Ht. rewrite Hc, Ho in Ht. by split_and!.
Qed.
End bounded.

(** An answer that arrives after the listener has emptied the ring and before it
    polls, to a request sent in between, is dropped: its request is not in the map
    yet, and stays outstanding. *)
Theorem early_answer_dropped s m d :
  pend_find (channel_seq (rpc_of (payload m))) (pendresponse_map s) = None →
  ether_type (eth m) = rte_cpu_to_be_16 ETHER_TYPE_IPv4 → src_addr (ip m) = magic_src_ip →
  sizeof_ether_hdr + sizeof_ipv4_hdr < data_len m → pktmbuf_free m (cdev s) = Ret tt d →
  process_response m s = Ret true (s <| cdev := d |>).
Proof.
  intros Hf Ht Hs Hl Hfree. unfold Client.process_response. rewrite Ht, Hs, !Z.eqb_refl. cbn [negb orb].
  replace (data_len m <=? _) with false by lia. unfold mbind, M_bind, get. rewrite Hf.
  unfold on_cdev. by rewrite Hfree.
Qed.

(** A request that is not answered in time is not reported and forgotten: the
    listener erases it from the map and then advances the erased iterator. *)
Theorem async_timeout_undefined s a l now d :
  to_lstnr s = [] → pendresponse_map s = a :: l →
  rx_burst 0 (me_aqueue cfg) PKT_BURST (cdev s) = Ret [] (cdev s) → current_time (cdev s) = Ret now d →
  async_timeout_msec ≤ u64 (now - a_timestamp a) → listener_round s = Stop UB.
Proof.
  intros Hr Hp Hrx Hnow Hto. unfold Client.listener_round, Client.listener_poll, drain_ring, modify, on_cdev, mbind, M_bind. simpl.
  rewrite Hrx. simpl. unfold mret, M_ret, get. simpl. rewrite Hr, Hp. simpl.
  unfold on_cdev, mbind, M_bind. simpl. rewrite Hnow. by replace (_ <=? _) with true by lia.
Qed.

(** ** The terms of the servers *)
Lemma word32_le32 x : 0 ≤ x < 2 ^ 32 → word32 (le32 x) = x.
Proof.
  intros Hx. unfold word32, le32.
  pose proof (Z.div_mod x (2 ^ 8) ltac:(lia)). pose proof (Z.div_mod (x / 2 ^ 8) (2 ^ 8) ltac:(lia)).
  pose proof (Z.div_mod (x / 2 ^ 16) (2 ^ 8) ltac:(lia)).
  rewrite !Z.div_div in * by lia. change (2 ^ 8 * 2 ^ 8) with (2 ^ 16) in *.
  change (2 ^ 16 * 2 ^ 8) with (2 ^ 24) in *. rewrite (Z.mod_small (x / 2 ^ 24)); [lia|].
  split; [apply Z.div_pos; lia|]. apply Z.div_lt_upper_bound; lia.
Qed.

Lemma published_term {DS} (es es' : rstate (cyclone DS)) b :
  publish_snapshot es = Ret b es' → 0 ≤ current_term (srv es) < 2 ^ 31 →
  srv es' = srv es ∧ 0 ≤ snapshot (world es') < 2 ^ 32 ∧ snapshot (world es') / 2 = current_term (srv es).
Proof.
  intros Hrun Ht. unfold publish_snapshot, mbind, M_bind, get_w, get_srv, gets in Hrun.
  destruct (cyclone_is_leader es) as [l es1|] eqn:Hl; [|done].
  assert (es1 = es) as ->.
  { revert Hl. unfold cyclone_is_leader, raft_is_leader, raft_is_state, mbind, M_bind, get_w, get_srv, gets.
    destruct (replicas (world es) =? 1); by intros [= _ <-]. }
  set (n := u32 _) in Hrun. assert (n = 2 * current_term (srv es) + if l then 1 else 0) as Hn.
  { unfold n, u32. rewrite Z.shiftl_mul_pow2, (Z.mod_small (current_term _)), Z.mod_small by (destruct l; lia).
    lia. }
  assert (srv es' = srv es ∧ snapshot (world es') = n) as [-> ->].
  { destruct (Z.eqb_spec n (snapshot (world es))); simpl in Hrun; by injection Hrun as _ <-. }
  split_and!; [done|destruct l; lia|destruct l; lia|]. rewrite Hn, Z.add_comm, Z.mul_comm, Z.div_add by lia.
  by destruct l.
Qed.

Context (aux_junk : rpc_t).
Abbreviation set_server := (set_server cfg pktmbuf_alloc pktmbuf_free tx_buffer tx_buffer_flush
  rx_burst current_time rpc_bytes rpc_of aux_junk).

(** C19: a term the client learns passes the server's check.  When the answer to
    [set_server] carries the snapshot a server publishes (twice its term, plus one
    for a leader), the client holds exactly that term, and every request it then
    prepares passes the server's check of the term as long as the server's term
    has not changed. *)
Theorem learned_term_accepted {DS} (es es' : rstate (cyclone DS)) b fuel s s1 hdr rest pkt data sz pkt' mb s2 :
  publish_snapshot es = Ret b es' → 0 ≤ current_term (srv es) < 2 ^ 31 →
  set_server fuel s = Ret 1 s1 → Z.of_nat (length hdr) = sizeof_rpc →
  packet_in s1 = hdr ++ le32 (snapshot (world es')) ++ rest →
  prepare cfg pktmbuf_alloc rpc_bytes pkt data sz 0 s1 = Ret (pkt', mb) s2 →
  terms s1 = [current_term (srv es)] ∧ wrong_term false pkt' es' = Ret false es'.
Proof.
  intros Hpub Ht Hset Hhdr Hpin Hprep.
  destruct (published_term _ _ _ Hpub Ht) as (Hsrv & Hrange & Hsnap).
  assert (terms s1 = [current_term (srv es)]) as Hterms.
  { revert Hset. unfold Client.set_server, mbind at 1, M_bind at 1.
    destruct (next_request _ _ _ _ _ _ _ s) as [p s3|]; [|done]. unfold mbind at 1, M_bind at 1.
    destruct (send_to_server _ _ _ _ _ _ _ _ _ s3) as [? s4|]; [|done]. unfold mbind at 1, M_bind at 1.
    destruct (common_receive_loop _ _ _ _ _ _ s4) as [r s5|]; [|done].
    destruct (negb _); [|by intros [=]]. unfold mbind, M_bind, modify. intros [= <-].
    change (Z.to_nat num_quorums) with 1%nat. cbn [words32 map]. change (packet_in s5 = hdr ++ le32 (snapshot (world es')) ++ rest) in Hpin.
    cbn [terms field_update].
    rewrite Hpin, drop_app_length' by lia.
    rewrite take_app_length' by done. by rewrite word32_le32, Hsnap. }
  split; [done|]. apply prepare_spec in Hprep as [_ (t & Hlt & ->)]. rewrite Hterms in Hlt.
  injection Hlt as <-. unfold wrong_term, mbind, M_bind, get_w, get_srv, gets. simpl. rewrite Hsrv.
  unfold i32. rewrite Z.mod_small by lia. by replace (_ =? _) with true by lia.
Qed.
End async.

(** ** Witnesses: the device of [ClientSafe], the client at the live replica *)
Definition async_client : rpc_client_t net := demo_client <| server := 2 |>.
Abbreviation demo_async := (run_async demo_cfg net_alloc (λ _, mret tt) net_tx net_flush net_rx
  net_clock (mret true) (mret false) demo_header demo_rpc_of demo_blank true false).
(** A call that is answered before it is counted, one that names two cores, and one
    that is answered between the listener's two steps. *)
Definition demo_ops : list async_op :=
  [Call [1] 1 100 1 0; Drain; Poll; Count; Call [3] 1 300 3 0; Drain; Call [2] 1 200 1 0; Poll].
Definition async_end : rpc_client_t net :=
  match demo_async demo_ops async_client with Ret _ s => s | Stop _ => async_client end.
Definition demo_fates : list (Z * fate) := [(100, Taken); (300, Ignored); (200, Taken)].
Lemma demo_async_run : demo_async demo_ops async_client = Ret (demo_fates, true) async_end.
Proof. vm_compute. reflexivity. Qed.
Lemma async_end_shape : callbacks async_end = [100] ∧ length (outstanding async_end) = 1%nat.
Proof. vm_compute. split; reflexivity. Qed.

Lemma async_accounted_witness :
  [100; 200] ≡ₚ callbacks async_end ++ map a_cb (outstanding async_end)
  ∧ callbacks async_end = [100] ∧ msg_inflight async_end + 1 = 1 ∧ length (sent async_end) = 2%nat.
Proof.
  assert (0 ≤ max_inflight demo_cfg < 2 ^ 64) as Hmax by (simpl; lia).
  assert (cl_aseq async_client + Z.of_nat (length demo_ops) < 2 ^ 64) as Hseq by (simpl; lia).
  destruct async_end_shape as [Hcb Hone].
  destruct (async_accounted demo_cfg net_alloc (λ _, mret tt) net_tx net_flush net_rx net_clock
    (mret true) (mret false) demo_header demo_rpc_of demo_blank Hmax true demo_ops async_client
    demo_fates true async_end eq_refl eq_refl eq_refl eq_refl (Z.le_refl 0) Hseq demo_async_run)
    as (Hperm & Hsent & _ & Hcount & _). rewrite Hone in Hcount. by split_and!.
Defined.

Lemma async_timeout_undefined_witness :
  listener_round demo_cfg (λ _, mret tt) net_rx net_clock demo_rpc_of
    (demo_client <| pendresponse_map := [mk_async 0 (- async_timeout_msec) 9] |>) = Stop UB.
Proof.
  apply (async_timeout_undefined demo_cfg (λ _, mret tt) net_rx net_clock demo_rpc_of _
    (mk_async 0 (- async_timeout_msec) 9) [] (timeout_msec * 1000) (None, timeout_msec * 1000));
    try reflexivity. by vm_compute.
Defined.

(** The live replica answers [set_server] with the snapshot of a server of term 1. *)
Definition told_client : rpc_client_t net :=
  async_client <| packet_in := replicate 52 0 ++ le32 3 ++ replicate 44 0 |>.
Abbreviation demo_set_server := (set_server demo_cfg net_alloc (λ _, mret tt) net_tx net_flush
  net_rx net_clock demo_header demo_rpc_of demo_blank).
Definition told_end : rpc_client_t net :=
  match demo_set_server 3 told_client with Ret _ s => s | Stop _ => told_client end.
Lemma demo_set_server_run : demo_set_server 3 told_client = Ret 1 told_end.
Proof. vm_compute. reflexivity. Qed.
Definition told_request : rpc_t * rte_mbuf :=
  match prepare demo_cfg net_alloc demo_header demo_blank [5] 53 0 told_end with
  | Ret r _ => r | Stop _ => (demo_blank, empty_mbuf) end.
Lemma demo_prepare_run :
  prepare demo_cfg net_alloc demo_header demo_blank [5] 53 0 told_end
  = Ret (told_request.1, told_request.2) told_end.
Proof. vm_compute. reflexivity. Qed.
Definition term_one : rstate (cyclone ()) := server_end <| srv := srv server_end <| current_term := 1 |> |>.
Definition published_end : rstate (cyclone ()) :=
  match publish_snapshot term_one with Ret _ s => s | Stop _ => term_one end.
Lemma demo_published : publish_snapshot term_one = Ret true published_end
  ∧ snapshot (world published_end) = 3 ∧ current_term (srv term_one) = 1.
Proof. vm_compute. split_and!; reflexivity. Qed.
Lemma told_packet : packet_in told_end
  = take 52 (packet_in told_end) ++ le32 (snapshot (world published_end)) ++ replicate 44 0.
Proof. vm_compute. reflexivity. Qed.

Lemma learned_term_accepted_witness :
  terms told_end = [1] ∧ wrong_term false told_request.1 published_end = Ret false published_end.
Proof.
  destruct demo_published as (Hpub & _ & Hterm).
  assert (0 ≤ current_term (srv term_one) < 2 ^ 31) as Hrange by (rewrite Hterm; lia).
  rewrite <- Hterm.
  exact (learned_term_accepted demo_cfg net_alloc (λ _, mret tt) net_tx net_flush net_rx net_clock
    demo_header demo_rpc_of demo_blank term_one published_end true 3 told_client told_end
    (take 52 (packet_in told_end)) (replicate 44 0) demo_blank [5] 53 told_request.1 told_request.2
    told_end Hpub Hrange demo_set_server_run eq_refl told_packet demo_prepare_run).
Defined.
