(* ===== verification/PriorityQueue.v ===== *)
(** The priority queue of the vote application
    (pmemds/include/priority_queue/persistent_priority_queue.hpp): the elements of
    the top K in a min-heap, the others in a max-heap, and an index from keys to
    positions.

    The heaps are vectors of pointers to elements.  A position outside a vector
    makes [at] throw; nothing catches the exception, which ends the process like a
    failed assertion.  A transaction of PMDK that is left without a commit is
    [abandon], a parameter: it gets the state in which the transaction began and
    the one in which it is left (volatile_priority_queue.hpp is the same code
    without transactions, where nothing is undone). *)

From S2P Require Import Prelude.

Record pqelem_st := mk_pqelem { key : Z; priority : Z }.
#[export] Instance pqelem_fields : FieldsOf pqelem_st := λ r, mk_pqelem (key r) (priority r).

Inductive heap_type := MIN_HEAP | MAX_HEAP.

(** [new_elem] is the next address. *)
Record pqueue := mk_pqueue {
  pq_store : gmap Z pqelem_st;
  new_elem : Z;
  min_elems : list Z;
  max_elems : list Z;
  keymap : gmap Z Z
}.
#[export] Instance pqueue_fields : FieldsOf pqueue :=
  λ r, mk_pqueue (pq_store r) (new_elem r) (min_elems r) (max_elems r) (keymap r).

Definition right_child (idx : Z) : Z := u64 (2 * idx + 1).
Definition left_child (idx : Z) : Z := u64 (2 * idx + 2).
Definition parent_of (idx : Z) : Z := idx / 2.

Section queue.
Context (minheap_size : Z) (abandon : pqueue → pqueue → pqueue).
Abbreviation Q := (M pqueue).

Definition gtol (idx : Z) : Z := if idx <? minheap_size then idx else u64 (idx - minheap_size).
Definition mintog (idx : Z) : Z := idx.
Definition maxtog (idx : Z) : Z := u64 (idx + minheap_size).
Definition is_minheap (global_idx : Z) : bool := global_idx <? minheap_size.

(** ** Vectors and elements *)
Definition elems (h : heap_type) (s : pqueue) : list Z :=
  match h with MIN_HEAP => min_elems s | MAX_HEAP => max_elems s end.
Definition set_elems (h : heap_type) (l : list Z) (s : pqueue) : pqueue :=
  match h with MIN_HEAP => s <| min_elems := l |> | MAX_HEAP => s <| max_elems := l |> end.
Definition togl (h : heap_type) (idx : Z) : Z :=
  match h with MIN_HEAP => mintog idx | MAX_HEAP => maxtog idx end.
Definition heap_size (h : heap_type) : Q Z := gets (λ s, Z.of_nat (length (elems h s))).
Definition at_ (h : heap_type) (idx : Z) : Q Z :=
  l ← gets (elems h);
  match zlookup l idx with Some p => mret p | None => fail Assert end.
Definition put_at (h : heap_type) (idx p : Z) : Q () :=
  at_ h idx ;; modify (λ s, set_elems h (zinsert (elems h s) idx p) s).
Definition push_back (h : heap_type) (p : Z) : Q () :=
  modify (λ s, set_elems h (elems h s ++ [p]) s).
Definition elem_at (h : heap_type) (idx : Z) : Q pqelem_st :=
  p ← at_ h idx; s ← get; deref (pq_store s !! p).
Definition prio_at (h : heap_type) (idx : Z) : Q Z := e ← elem_at h idx; mret (priority e).
Definition add_prio (h : heap_type) (idx d : Z) : Q () :=
  p ← at_ h idx;
  s ← get;
  e ← deref (pq_store s !! p);
  modify (λ s, s <| pq_store := <[p := e <| priority := u64 (priority e + d) |>]> (pq_store s) |>).
(** [keymap->find] and an assignment through the accessor; [false] when the key is
    not there. *)
Definition reindex (k idx : Z) : Q bool :=
  s ← get;
  match keymap s !! k with
  | Some _ => modify (λ s, s <| keymap := <[k := idx]> (keymap s) |>) ;; mret true
  | None => mret false
  end.
Definition new_pqelem (k prio : Z) : Q Z :=
  s ← get;
  modify (λ s, s <| pq_store := <[new_elem s := mk_pqelem k prio]> (pq_store s) |>
                 <| new_elem := new_elem s + 1 |>) ;;
  mret (new_elem s).

Definition swap (h : heap_type) (idx1 idx2 : Z) : Q () :=
  elem1 ← elem_at h idx1;
  elem2 ← elem_at h idx2;
  found ← reindex (key elem1) (togl h idx2);
  if negb found then mret tt else
  found ← reindex (key elem2) (togl h idx1);
  if negb found then mret tt else
  p1 ← at_ h idx1;
  p2 ← at_ h idx2;
  put_at h idx1 p2 ;;
  put_at h idx2 p1.

(** ** Heap order *)

(** The comparison of a heap: whether [a] belongs above [b]. *)
Definition above (h : heap_type) (a b : Z) : bool :=
  match h with MIN_HEAP => a <? b | MAX_HEAP => b <? a end.
(** The loops that move an element towards the root. *)
Fixpoint sift_up (fuel : nat) (h : heap_type) (l_idx : Z) : Q () :=
  if l_idx <=? 0 then mret tt else
  a ← prio_at h l_idx;
  b ← prio_at h (parent_of l_idx);
  if above h a b then
    match fuel with
    | O => fail Hang
    | S fuel => swap h l_idx (parent_of l_idx) ;; sift_up fuel h (parent_of l_idx)
    end
  else mret tt.
(** [max_heapify] and [min_heapify]. *)
Definition child_above (h : heap_type) (child best : Z) : Q bool :=
  n ← heap_size h;
  if child <? n then
    a ← prio_at h child; b ← prio_at h best; mret (above h a b)
  else mret false.
Fixpoint heapify (fuel : nat) (h : heap_type) (idx : Z) : Q () :=
  r ← child_above h (right_child idx) idx;
  let best := if r : bool then right_child idx else idx in
  l ← child_above h (left_child idx) best;
  let best := if l : bool then left_child idx else best in
  if best =? idx then mret tt else
  match fuel with
  | O => fail Hang
  | S fuel => swap h best idx ;; heapify fuel h best
  end.
(** The depth of a heap is below its size. *)
Definition depth (s : pqueue) : nat := length (min_elems s) + length (max_elems s).
Definition to_root (h : heap_type) (idx : Z) : Q () := s ← get; sift_up (depth s) h idx.
Definition max_heapify (idx : Z) : Q () := s ← get; heapify (depth s) MAX_HEAP idx.
Definition min_heapify (idx : Z) : Q () := s ← get; heapify (depth s) MIN_HEAP idx.

(** Leaving a transaction that began in [s0] without a commit. *)
Definition uncommitted (s0 : pqueue) (r : Z) : Q Z := modify (abandon s0) ;; mret r.

(** ** Operations *)

(** The roots change places: [h] is the heap whose root leaves first. *)
Definition other (h : heap_type) : heap_type :=
  match h with MIN_HEAP => MAX_HEAP | MAX_HEAP => MIN_HEAP end.
Definition swap_roots (h : heap_type) (s0 : pqueue) (k : Q Z) : Q Z :=
  temp ← at_ h 0;
  p ← at_ (other h) 0;
  put_at h 0 p ;;
  e ← elem_at (other h) 0;
  found ← reindex (key e) (togl h 0);
  if negb found then uncommitted s0 (-1) else
  put_at (other h) 0 temp ;;
  s ← get;
  t ← deref (pq_store s !! temp);
  found ← reindex (key t) (togl (other h) 0);
  if negb found then uncommitted s0 (-1) else k.

Definition increase_prio (k delta_prio : Z) : Q Z :=
  s0 ← get;
  match keymap s0 !! k with
  | None => mret (-1)
  | Some g_idx =>
    if is_minheap g_idx then
      let l_index := gtol g_idx in
      add_prio MIN_HEAP l_index delta_prio ;;
      min_heapify l_index ;;
      mret 0
    else
      let l_idx := gtol g_idx in
      add_prio MAX_HEAP l_idx delta_prio ;;
      to_root MAX_HEAP l_idx ;;
      a ← prio_at MAX_HEAP 0;
      b ← prio_at MIN_HEAP 0;
      if b <? a then swap_roots MAX_HEAP s0 (min_heapify 0 ;; mret 0)
      else uncommitted s0 0
  end.

Definition decrease_prio (k delta_prio : Z) : Q Z :=
  s0 ← get;
  match keymap s0 !! k with
  | None => mret (-1)
  | Some g_idx =>
    if negb (is_minheap g_idx) then
      let l_index := gtol g_idx in
      add_prio MAX_HEAP l_index (- delta_prio) ;;
      max_heapify l_index ;;
      mret 0
    else
      let l_idx := gtol g_idx in
      add_prio MIN_HEAP l_idx (- delta_prio) ;;
      to_root MIN_HEAP l_idx ;;
      a ← prio_at MIN_HEAP 0;
      b ← prio_at MAX_HEAP 0;
      if a <? b then swap_roots MIN_HEAP s0 (max_heapify 0 ;; mret 0)
      else uncommitted s0 0
  end.

(** [keymap->insert], then an assignment if the key was there: [idx_new] for a new
    key, [idx_old] for one that exists. *)
Definition index_new (k idx_new idx_old : Z) : Q () :=
  modify (λ s, s <| keymap := <[k := if keymap s !! k then idx_old else idx_new]> (keymap s) |>).

(** The element goes to the end of a heap and up. *)
Definition insert_end (h : heap_type) (k pqelem : Z) : Q Z :=
  push_back h pqelem ;;
  n ← heap_size h;
  let l_idx := n - 1 in
  index_new k (togl h l_idx) (mintog l_idx) ;;
  to_root h l_idx ;;
  mret 0.
(** The element takes the place of the minimum of the top K, which goes to the
    max-heap. *)
Definition insert_top (k pqelem : Z) (s0 : pqueue) : Q Z :=
  minimum ← at_ MIN_HEAP 0;
  push_back MAX_HEAP minimum ;;
  n ← heap_size MAX_HEAP;
  let l_idx := n - 1 in
  s ← get;
  e ← deref (pq_store s !! minimum);
  found ← reindex (key e) (maxtog l_idx);
  if negb found then uncommitted s0 (-1) else
  to_root MAX_HEAP l_idx ;;
  index_new k (mintog 0) (mintog 0) ;;
  put_at MIN_HEAP 0 pqelem ;;
  min_heapify 0 ;;
  mret 0.
Definition insert (k prio : Z) : Q Z :=
  pqelem ← new_pqelem k prio;
  s0 ← get;
  if Z.of_nat (length (min_elems s0)) <? minheap_size then insert_end MIN_HEAP k pqelem
  else
    r ← prio_at MIN_HEAP 0;
    if prio <? r then insert_end MAX_HEAP k pqelem else insert_top k pqelem s0.

Fixpoint keys_at (ps : list Z) : Q (list Z) :=
  match ps with
  | [] => mret []
  | p :: ps => s ← get; e ← deref (pq_store s !! p); ks ← keys_at ps; mret (key e :: ks)
  end.
Definition read_topK : Q (list Z * Z) :=
  l ← gets min_elems;
  ks ← keys_at l;
  mret (ks, Z.of_nat (length l)).
End queue.

Definition empty_queue : pqueue := mk_pqueue ∅ 1 [] [] ∅.
