(* ===== verification/PriorityQueueSafe.v ===== *)
(** What the priority queue keeps and what it does not: its index is exact and no
    element is lost, but the order of its heaps is not kept, so the top K are not
    always the K highest priorities. *)

From S2P Require Import Prelude PriorityQueue.

#[export] Instance heap_type_eq_dec : EqDecision heap_type.
Proof. solve_decision. Defined.

(** Replacing an element of a list. *)
Lemma insert_perm {A} (l : list A) i x y : l !! i = Some x → x :: <[i := y]> l ≡ₚ y :: l.
Proof.
  revert i. induction l as [|z l IH]; intros [|i] Hi; simpl in *; try done.
  - injection Hi as ->. constructor.
  - rewrite Permutation_swap, (IH i Hi). constructor.
Qed.

Lemma omap_agree {A B} (f g : A → option B) (l : list A) : (∀ x, x ∈ l → f x = g x) → omap f l = omap g l.
Proof.
  induction l as [|x l IH]; intros Hl; [done|]. simpl. rewrite (Hl x) by by apply list_elem_of_here.
  assert (∀ y, y ∈ l → f y = g y) as Hl' by (intros y Hy; by apply Hl, list_elem_of_further).
  destruct (g x); [f_equal|]; by apply IH.
Qed.

Section queue_proofs.
Context (K : Z) (abandon : pqueue → pqueue → pqueue).
Context (HK : 0 < K < 2 ^ 63).
Implicit Types (s : pqueue) (h : heap_type) (i j p : Z) (b : bool).

(** With [b] the root of the min-heap is vacant: its pointer is not counted. *)
Definition live b h i : Prop := b = true → h = MIN_HEAP → i ≠ 0.
Definition located b s h i (k : Z) : Prop :=
  live b h i ∧ ∃ p e, zlookup (elems h s) i = Some p ∧ pq_store s !! p = Some e ∧ key e = k.
Definition pointers b s : list Z := (if b then drop 1 (min_elems s) else min_elems s) ++ max_elems s.
Definition entries b s : list (Z * Z) :=
  omap (λ p, (λ e, (key e, priority e)) <$> pq_store s !! p) (pointers b s).

Record indexed b s : Prop := {
  ix_store : ∀ h i p, zlookup (elems h s) i = Some p → is_Some (pq_store s !! p);
  ix_at : ∀ h i k, located b s h i k → keymap s !! k = Some (togl K h i);
  ix_key : ∀ k g, keymap s !! k = Some g → ∃ h i, located b s h i k ∧ g = togl K h i;
  ix_min : Z.of_nat (length (min_elems s)) ≤ K;
  ix_max : K + Z.of_nat (length (max_elems s)) < 2 ^ 63;
  ix_fill : max_elems s ≠ [] → Z.of_nat (length (min_elems s)) = K;
  ix_fresh : ∀ p, new_elem s ≤ p → pq_store s !! p = None
}.

Lemma togl_inj b s h i k h' i' k' :
  indexed b s → located b s h i k → located b s h' i' k' → togl K h i = togl K h' i' → h = h' ∧ i = i'.
Proof.
  intros Hix (_ & p & _ & Hp & _) (_ & p' & _ & Hp' & _).
  apply zlookup_Some_range in Hp, Hp'. pose proof (ix_min _ _ Hix). pose proof (ix_max _ _ Hix).
  destruct h, h'; simpl in *; unfold mintog, maxtog, u64; rewrite ?Z.mod_small by lia; intros; split; done || lia.
Qed.
Lemma located_inj b s h i h' i' k :
  indexed b s → located b s h i k → located b s h' i' k → h = h' ∧ i = i'.
Proof.
  intros Hix Hl Hl'. eapply togl_inj; [done..|].
  apply (ix_at _ _ Hix) in Hl, Hl'. congruence.
Qed.

(** The element at a live position. *)
Lemma element_at b s h i :
  indexed b s → live b h i → 0 ≤ i < Z.of_nat (length (elems h s)) →
  ∃ p e, zlookup (elems h s) i = Some p ∧ pq_store s !! p = Some e ∧ located b s h i (key e).
Proof.
  intros Hix Hl [p Hp]%zlookup_is_Some. destruct (ix_store _ _ Hix _ _ _ Hp) as [e He].
  exists p, e. split_and!; [done..|]. split; [done|]. by exists p, e.
Qed.

(** ** Exchanging two elements *)
Definition exchange h1 i1 h2 i2 p1 p2 (k1 k2 : Z) s : pqueue :=
  let s1 := set_elems h1 (zinsert (elems h1 s) i1 p2) s in
  let s2 := set_elems h2 (zinsert (elems h2 s1) i2 p1) s1 in
  s2 <| keymap := <[k2 := togl K h1 i1]> (<[k1 := togl K h2 i2]> (keymap s)) |>.

Lemma elems_set h h' l s : elems h (set_elems h' l s) = if decide (h = h') then l else elems h s.
Proof. by destruct h, h'. Qed.
Lemma store_set h l s : pq_store (set_elems h l s) = pq_store s.
Proof. by destruct h. Qed.

Lemma exchange_elems h1 i1 h2 i2 p1 p2 k1 k2 s h i :
  zlookup (elems h1 s) i1 = Some p1 → zlookup (elems h2 s) i2 = Some p2 →
  zlookup (elems h (exchange h1 i1 h2 i2 p1 p2 k1 k2 s)) i
  = if decide (h = h2 ∧ i = i2) then Some p1 else if decide (h = h1 ∧ i = i1) then Some p2
    else zlookup (elems h s) i.
Proof.
  intros H1%zlookup_Some_range H2%zlookup_Some_range.
  change (elems h (exchange _ _ _ _ _ _ _ _ s)) with
    (elems h (set_elems h2 (zinsert (elems h2 (set_elems h1 (zinsert (elems h1 s) i1 p2) s)) i2 p1)
      (set_elems h1 (zinsert (elems h1 s) i1 p2) s))).
  rewrite elems_set. destruct (decide (h = h2)) as [->|Hh].
  - rewrite elems_set. destruct (decide (h2 = h1)) as [->|Hh'].
    + rewrite zlookup_zinsert by (unfold zinsert; rewrite length_insert; lia).
      rewrite zlookup_zinsert by lia. repeat case_decide; repeat case_match; naive_solver lia.
    + rewrite zlookup_zinsert by lia. repeat case_decide; repeat case_match; naive_solver lia.
  - rewrite elems_set. destruct (decide (h = h1)) as [->|Hh'].
    + rewrite zlookup_zinsert by lia. repeat case_decide; repeat case_match; naive_solver lia.
    + repeat case_decide; naive_solver.
Qed.

Lemma put_pointers b s h i x y :
  live b h i → zlookup (elems h s) i = Some x →
  x :: pointers b (set_elems h (zinsert (elems h s) i y) s) ≡ₚ y :: pointers b s.
Proof.
  intros Hl Hx. pose proof (zlookup_Some_range _ _ _ Hx) as Hr. rewrite zlookup_nonneg in Hx by lia.
  unfold pointers, zinsert. destruct h; simpl in *.
  - destruct b; [|by rewrite !app_comm_cons, (insert_perm _ _ _ _ Hx)].
    destruct (min_elems s) as [|z l]; [done|]. assert (i ≠ 0) as Hi by by apply Hl.
    destruct (Z.to_nat i) as [|n] eqn:Hn; [lia|]. simpl in *. rewrite !drop_0.
    by rewrite !app_comm_cons, (insert_perm _ _ _ _ Hx).
  - rewrite !Permutation_middle. f_equiv. by apply insert_perm.
Qed.

Lemma exchange_pointers b s h1 i1 h2 i2 p1 p2 k1 k2 :
  zlookup (elems h1 s) i1 = Some p1 → zlookup (elems h2 s) i2 = Some p2 →
  live b h1 i1 → live b h2 i2 → ¬ (h1 = h2 ∧ i1 = i2) →
  pointers b (exchange h1 i1 h2 i2 p1 p2 k1 k2 s) ≡ₚ pointers b s.
Proof.
  intros H1 H2 Hl1 Hl2 Hne. set (s1 := set_elems h1 (zinsert (elems h1 s) i1 p2) s).
  assert (zlookup (elems h2 s1) i2 = Some p2) as H2'.
  { unfold s1. rewrite elems_set. case_decide as Hh; [|done]. subst h2.
    apply zlookup_Some_range in H1. rewrite zlookup_zinsert by lia. case_match; naive_solver lia. }
  apply (Permutation_cons_inv (a := p2)).
  change (pointers b (exchange _ _ _ _ _ _ _ _ s)) with (pointers b (set_elems h2 (zinsert (elems h2 s1) i2 p1) s1)).
  rewrite (put_pointers b s1 h2 i2 p2 p1 Hl2 H2'). by apply put_pointers.
Qed.

Lemma exchange_located b s h1 i1 h2 i2 p1 p2 k1 k2 e1 e2 h i k :
  indexed b s → live b h1 i1 → live b h2 i2 →
  zlookup (elems h1 s) i1 = Some p1 → pq_store s !! p1 = Some e1 →
  zlookup (elems h2 s) i2 = Some p2 → pq_store s !! p2 = Some e2 →
  located b (exchange h1 i1 h2 i2 p1 p2 k1 k2 s) h i k ↔
  (h = h2 ∧ i = i2 ∧ k = key e1) ∨ (¬ (h = h2 ∧ i = i2) ∧ h = h1 ∧ i = i1 ∧ k = key e2)
  ∨ (¬ (h = h2 ∧ i = i2) ∧ ¬ (h = h1 ∧ i = i1) ∧ located b s h i k).
Proof.
  intros Hix Hl1 Hl2 H1 He1 H2 He2. unfold located at 1. rewrite exchange_elems by done.
  assert (pq_store (exchange h1 i1 h2 i2 p1 p2 k1 k2 s) = pq_store s) as ->.
  { unfold exchange. simpl. by rewrite !store_set. }
  destruct (decide (h = h2 ∧ i = i2)) as [[-> ->]|Hn2].
  { split.
    - intros (_ & p & e & [= <-] & He & <-). left. simplify_eq. done.
    - intros [(_ & _ & ->)|[[[] _]|[[] _]]]; [|done..]. split; [done|]. by exists p1, e1. }
  destruct (decide (h = h1 ∧ i = i1)) as [[-> ->]|Hn1].
  { split.
    - intros (_ & p & e & [= <-] & He & <-). right. left. simplify_eq. done.
    - intros [[-> [-> _]]|[(_ & _ & _ & ->)|(_ & [] & _)]]; [by destruct Hn2| |done].
      split; [done|]. by exists p2, e2. }
  split; [by intros Hl; right; right|]. intros [(-> & -> & _)|[(_ & -> & -> & _)|(_ & _ & Hl)]].
  - by destruct Hn2.
  - by destruct Hn1.
  - done.
Qed.

(** What moving elements around keeps. *)
Record kept b s s' : Prop := {
  kept_indexed : indexed b s';
  kept_entries : entries b s' ≡ₚ entries b s;
  kept_min : length (min_elems s') = length (min_elems s);
  kept_max : length (max_elems s') = length (max_elems s);
  kept_store : pq_store s' = pq_store s;
  kept_dom : ∀ k, is_Some (keymap s' !! k) ↔ is_Some (keymap s !! k)
}.

Lemma exchange_lengths h1 i1 h2 i2 p1 p2 k1 k2 s h :
  length (elems h (exchange h1 i1 h2 i2 p1 p2 k1 k2 s)) = length (elems h s).
Proof. destruct h, h1, h2; simpl; unfold zinsert; by rewrite ?length_insert. Qed.

Lemma exchange_kept b s h1 i1 h2 i2 p1 p2 e1 e2 :
  indexed b s → live b h1 i1 → live b h2 i2 → ¬ (h1 = h2 ∧ i1 = i2) →
  zlookup (elems h1 s) i1 = Some p1 → pq_store s !! p1 = Some e1 →
  zlookup (elems h2 s) i2 = Some p2 → pq_store s !! p2 = Some e2 →
  kept b s (exchange h1 i1 h2 i2 p1 p2 (key e1) (key e2) s).
Proof.
  intros Hix Hl1 Hl2 Hne H1 He1 H2 He2. set (s' := exchange _ _ _ _ _ _ _ _ s).
  assert (located b s h1 i1 (key e1)) as Hloc1 by (split; [done|]; by exists p1, e1).
  assert (located b s h2 i2 (key e2)) as Hloc2 by (split; [done|]; by exists p2, e2).
  assert (key e1 ≠ key e2) as Hk.
  { intros Heq. rewrite Heq in Hloc1. exact (Hne (located_inj _ _ _ _ _ _ _ Hix Hloc1 Hloc2)). }
  pose proof (λ h i k, exchange_located b s h1 i1 h2 i2 p1 p2 (key e1) (key e2) e1 e2 h i k
    Hix Hl1 Hl2 H1 He1 H2 He2) as Hloc. fold s' in Hloc.
  assert (pq_store s' = pq_store s) as Hst by (unfold s', exchange; simpl; by rewrite !store_set).
  assert (keymap s' = <[key e2 := togl K h1 i1]> (<[key e1 := togl K h2 i2]> (keymap s))) as Hkm by done.
  pose proof (exchange_lengths h1 i1 h2 i2 p1 p2 (key e1) (key e2) s) as Hlen. fold s' in Hlen.
  assert (length (min_elems s') = length (min_elems s)) as Hmin by exact (Hlen MIN_HEAP).
  assert (length (max_elems s') = length (max_elems s)) as Hmax by exact (Hlen MAX_HEAP).
  split; [|unfold entries; rewrite Hst; f_equiv; by apply exchange_pointers|done|done|done|].
  - split.
    + intros h i p. rewrite Hst. unfold s'. rewrite exchange_elems by done.
      repeat case_decide; [intros [= <-]; by eexists..|apply (ix_store _ _ Hix)].
    + intros h i k [(-> & -> & ->)|[(_ & -> & -> & ->)|(Hn2 & Hn1 & Hl)]]%Hloc; rewrite Hkm.
      * by rewrite lookup_insert_ne, lookup_insert_eq.
      * by rewrite lookup_insert_eq.
      * rewrite !lookup_insert_ne; [by apply (ix_at _ _ Hix)|..]; intros <-.
        -- exact (Hn1 (located_inj _ _ _ _ _ _ _ Hix Hl Hloc1)).
        -- exact (Hn2 (located_inj _ _ _ _ _ _ _ Hix Hl Hloc2)).
    + intros k g. rewrite Hkm. intros [[<- <-]|[Hk2 [[<- <-]|[Hk1 Hg]]%lookup_insert_Some]]%lookup_insert_Some.
      * exists h1, i1. split; [|done]. apply Hloc. naive_solver.
      * exists h2, i2. split; [|done]. apply Hloc. naive_solver.
      * apply (ix_key _ _ Hix) in Hg as (h & i & Hl & ->). exists h, i. split; [|done]. apply Hloc.
        right; right. split_and!; [| |done]; intros [-> ->].
        -- destruct Hl as (_ & ? & ? & ? & ? & ?). naive_solver.
        -- destruct Hl as (_ & ? & ? & ? & ? & ?). naive_solver.
    + rewrite Hmin. apply Hix.
    + rewrite Hmax. apply Hix.
    + rewrite Hmin. intros Hmx. apply (ix_fill _ _ Hix). intros Hnil. apply Hmx. apply length_zero_iff_nil. by rewrite Hmax, Hnil.
    + intros q. rewrite Hst. replace (new_elem s') with (new_elem s) by (by destruct h1, h2). apply (ix_fresh _ _ Hix).
  - intros k. rewrite Hkm, !lookup_insert_is_Some. pose proof (ix_at _ _ Hix _ _ _ Hloc1).
    pose proof (ix_at _ _ Hix _ _ _ Hloc2). destruct (decide (key e2 = k)), (decide (key e1 = k)); naive_solver.
Qed.

Lemma kept_refl b s : indexed b s → kept b s s.
Proof. by split. Qed.
Lemma kept_trans b s1 s2 s3 : kept b s1 s2 → kept b s2 s3 → kept b s1 s3.
Proof.
  intros [_ He Hm Hx Hs Hd] [Hix He' Hm' Hx' Hs' Hd']. split; [done|by rewrite He'|congruence..|].
  intros k. by rewrite Hd'.
Qed.
Lemma kept_length b s s' h : kept b s s' → length (elems h s') = length (elems h s).
Proof. intros []. by destruct h. Qed.

(** ** Rules for the primitives *)
Lemma wp_at h i p E (Q : Z → pqueue → Prop) s :
  zlookup (elems h s) i = Some p → wp (at_ h i) E Q s ↔ Q p s.
Proof. intros Hp. unfold at_. by rewrite wp_bind, wp_gets, Hp, wp_ret. Qed.
Lemma wp_elem_at h i p e E (Q : pqelem_st → pqueue → Prop) s :
  zlookup (elems h s) i = Some p → pq_store s !! p = Some e → wp (elem_at h i) E Q s ↔ Q e s.
Proof.
  intros Hp He. unfold elem_at. by rewrite wp_bind, (wp_at _ _ p), wp_bind, wp_get, wp_deref, He by done.
Qed.
Lemma wp_prio_at h i p e E (Q : Z → pqueue → Prop) s :
  zlookup (elems h s) i = Some p → pq_store s !! p = Some e → wp (prio_at h i) E Q s ↔ Q (priority e) s.
Proof. intros Hp He. unfold prio_at. by rewrite wp_bind, (wp_elem_at _ _ p e), wp_ret by done. Qed.
Lemma wp_reindex k g g' E (Q : bool → pqueue → Prop) s :
  keymap s !! k = Some g → wp (reindex k g') E Q s ↔ Q true (s <| keymap := <[k := g']> (keymap s) |>).
Proof. intros Hk. unfold reindex. by rewrite wp_bind, wp_get, Hk, wp_bind, wp_modify, wp_ret. Qed.
Lemma wp_put_at h i p q E (Q : () → pqueue → Prop) s :
  zlookup (elems h s) i = Some q →
  wp (put_at h i p) E Q s ↔ Q tt (set_elems h (zinsert (elems h s) i p) s).
Proof. intros Hq. unfold put_at. by rewrite wp_bind, (wp_at _ _ q), wp_modify by done. Qed.

(** ** Moving elements *)
Definition free_heap b h : Prop := b = true → h = MAX_HEAP.
Lemma free_live b h i : free_heap b h → live b h i.
Proof. intros Hf Hb ->. by specialize (Hf Hb). Qed.

Lemma swap_kept b h i j s :
  indexed b s → free_heap b h → i ≠ j →
  0 ≤ i < Z.of_nat (length (elems h s)) → 0 ≤ j < Z.of_nat (length (elems h s)) →
  wp (swap K h i j) none (λ _ s', kept b s s') s.
Proof.
  intros Hix Hf Hij Hi Hj.
  destruct (element_at b s h i Hix (free_live _ _ _ Hf) Hi) as (p & e & Hp & He & Hl).
  destruct (element_at b s h j Hix (free_live _ _ _ Hf) Hj) as (q & f & Hq & Hfe & Hl').
  unfold swap. rewrite wp_bind, (wp_elem_at _ _ p e), wp_bind, (wp_elem_at _ _ q f), wp_bind by done.
  rewrite (wp_reindex _ (togl K h i)) by by apply (ix_at _ _ Hix). cbn [negb].
  assert (key e ≠ key f) as Hk.
  { intros Heq. rewrite Heq in Hl. destruct (located_inj _ _ _ _ _ _ _ Hix Hl Hl'). done. }
  rewrite wp_bind, (wp_reindex _ (togl K h j)).
  2:{ simpl. rewrite lookup_insert_ne by done. by apply (ix_at _ _ Hix). }
  cbn [negb]. set (s1 := _ <| keymap := _ |>).
  assert (∀ h, elems h s1 = elems h s) as Hel by by intros [].
  rewrite wp_bind, (wp_at _ _ p), wp_bind, (wp_at _ _ q), wp_bind, (wp_put_at _ _ _ p) by by rewrite Hel.
  rewrite (wp_put_at _ _ _ q).
  2:{ rewrite elems_set, decide_True, zlookup_zinsert, Hel by (done || by rewrite Hel).
      by replace (j =? i) with false by lia. }
  replace (set_elems h _ _) with (exchange h i h j p q (key e) (key f) s) by (by destruct h).
  eapply exchange_kept; try done; try by apply free_live. naive_solver.
Qed.

Lemma sift_up_kept b h fuel i s :
  indexed b s → free_heap b h → i < Z.of_nat (length (elems h s)) → i ≤ Z.of_nat fuel →
  wp (sift_up K fuel h i) none (λ _ s', kept b s s') s.
Proof.
  revert i s. induction fuel as [|fuel IH]; intros i s Hix Hf Hi Hfuel; cbn [sift_up].
  { replace (i <=? 0) with true by lia. rewrite wp_ret. by apply kept_refl. }
  destruct (Z.leb_spec i 0); [rewrite wp_ret; by apply kept_refl|].
  assert (0 ≤ parent_of i < i) as Hpar.
  { unfold parent_of. split; [apply Z.div_pos; lia|apply Z.div_lt; lia]. }
  destruct (element_at b s h i Hix (free_live _ _ _ Hf) ltac:(lia)) as (p & e & Hp & He & _).
  destruct (element_at b s h (parent_of i) Hix (free_live _ _ _ Hf) ltac:(lia)) as (q & f & Hq & Hfe & _).
  rewrite wp_bind, (wp_prio_at _ _ p e), wp_bind, (wp_prio_at _ _ q f) by done.
  destruct (above h _ _); [|rewrite wp_ret; by apply kept_refl]. rewrite wp_bind.
  eapply wp_mono; [apply (swap_kept b); [done|done|lia..]|done|]. intros ? s1 Hk1.
  eapply wp_mono; [apply IH; [apply Hk1|done|rewrite (kept_length b s s1); [lia|done]|lia]|done|].
  intros ? s2 Hk2. exact (kept_trans _ _ _ _ Hk1 Hk2).
Qed.

Lemma child_above_total b h child best s :
  indexed b s → free_heap b h → 0 ≤ child → 0 ≤ best < Z.of_nat (length (elems h s)) →
  wp (child_above h child best) none (λ r s', s' = s ∧ (r = true → child < Z.of_nat (length (elems h s)))) s.
Proof.
  intros Hix Hf Hc Hb. unfold child_above, heap_size. rewrite wp_bind, wp_gets.
  destruct (Z.ltb_spec child (Z.of_nat (length (elems h s)))); [|by rewrite wp_ret].
  destruct (element_at b s h child Hix (free_live _ _ _ Hf) ltac:(lia)) as (p & e & Hp & He & _).
  destruct (element_at b s h best Hix (free_live _ _ _ Hf) ltac:(lia)) as (q & f & Hq & Hfe & _).
  by rewrite wp_bind, (wp_prio_at _ _ p e), wp_bind, (wp_prio_at _ _ q f), wp_ret by done.
Qed.

Lemma heapify_kept b h fuel i s :
  indexed b s → free_heap b h → 0 ≤ i < Z.of_nat (length (elems h s)) →
  Z.of_nat (length (elems h s)) - i ≤ Z.of_nat fuel →
  wp (heapify K fuel h i) none (λ _ s', kept b s s') s.
Proof.
  revert i s. induction fuel as [|fuel IH]; intros i s Hix Hf Hi Hfuel; [lia|]. cbn [heapify].
  assert (Z.of_nat (length (elems h s)) < 2 ^ 63) as Hlen.
  { pose proof (ix_min _ _ Hix). pose proof (ix_max _ _ Hix). destruct h; simpl; lia. }
  assert (right_child i = 2 * i + 1 ∧ left_child i = 2 * i + 2) as [-> ->].
  { unfold right_child, left_child, u64. rewrite !Z.mod_small by lia. done. }
  rewrite wp_bind. eapply wp_mono; [apply (child_above_total b); done || lia|done|]. intros r ? [-> Hr].
  rewrite wp_bind. eapply wp_mono; [apply (child_above_total b); try done; destruct r; lia|done|].
  intros l ? [-> Hl].
  set (best := if l then _ else _). assert (best = i ∨ i < best < Z.of_nat (length (elems h s))) as Hbest.
  { unfold best. destruct l, r; lia. }
  destruct (Z.eqb_spec best i) as [Heq|Hne]; [rewrite wp_ret; by apply kept_refl|].
  rewrite wp_bind. eapply wp_mono; [apply (swap_kept b); [done|done|lia..]|done|]. intros ? s1 Hk1.
  pose proof (kept_length b s s1 h Hk1) as Hlen1.
  eapply wp_mono; [apply IH; [apply Hk1|done|lia|lia]|done|]. intros ? s2 Hk2. exact (kept_trans _ _ _ _ Hk1 Hk2).
Qed.

Lemma to_root_kept b h i s :
  indexed b s → free_heap b h → i < Z.of_nat (length (elems h s)) →
  wp (to_root K h i) none (λ _ s', kept b s s') s.
Proof.
  intros Hix Hf Hi. unfold to_root. rewrite wp_bind, wp_get. apply sift_up_kept; try done.
  unfold depth. destruct h; simpl in Hi; lia.
Qed.
Lemma root_heapify_kept h i s :
  indexed false s → 0 ≤ i < Z.of_nat (length (elems h s)) →
  wp (s ← get; heapify K (depth s) h i) none (λ _ s', kept false s s') s.
Proof.
  intros Hix Hi. rewrite wp_bind, wp_get. apply heapify_kept; try done.
  unfold depth. destruct h; simpl in *; lia.
Qed.

(** ** Elements are not shared *)
Lemma located_lookup s h i p e :
  zlookup (elems h s) i = Some p → pq_store s !! p = Some e → located false s h i (key e).
Proof. intros Hp He. split; [done|]. by exists p, e. Qed.

Lemma pointer_inj s h i h' i' p :
  indexed false s → zlookup (elems h s) i = Some p → zlookup (elems h' s) i' = Some p → h = h' ∧ i = i'.
Proof.
  intros Hix H1 H2. destruct (ix_store _ _ Hix _ _ _ H1) as [e He].
  by apply (located_inj false s h i h' i' (key e) Hix); apply (located_lookup _ _ _ p).
Qed.
Lemma pointers_nodup s : indexed false s → NoDup (pointers false s).
Proof.
  intros Hix. apply NoDup_app.
  assert (∀ h (n m : nat) p, elems h s !! n = Some p → elems h s !! m = Some p → n = m) as Hone.
  { intros h n m p Hn Hm. destruct (pointer_inj s h (Z.of_nat n) h (Z.of_nat m) p Hix) as [_ ?]; [..|lia];
      rewrite zlookup_nonneg, Nat2Z.id by lia; done. }
  split_and!; [apply NoDup_alt; exact (Hone MIN_HEAP)| |apply NoDup_alt; exact (Hone MAX_HEAP)].
  intros p [i Hi]%list_elem_of_lookup [j Hj]%list_elem_of_lookup.
  destruct (pointer_inj s MIN_HEAP (Z.of_nat i) MAX_HEAP (Z.of_nat j) p Hix); [| |done];
    simpl; rewrite zlookup_nonneg, Nat2Z.id by lia; done.
Qed.
Lemma pointer_elem s h i p : zlookup (elems h s) i = Some p → p ∈ pointers false s.
Proof.
  intros Hp%zlookup_Some_elem. unfold pointers. apply elem_of_app. destruct h; [by left|by right].
Qed.

(** ** Changing a priority *)
Definition reprioritised k d s s' : Prop :=
  ∃ prio rest, entries false s ≡ₚ (k, prio) :: rest ∧ entries false s' ≡ₚ (k, u64 (prio + d)) :: rest.

Lemma add_prio_spec h i p e d s :
  indexed false s → zlookup (elems h s) i = Some p → pq_store s !! p = Some e →
  wp (add_prio h i d) none (λ _ s', indexed false s' ∧ reprioritised (key e) d s s'
    ∧ min_elems s' = min_elems s ∧ max_elems s' = max_elems s) s.
Proof.
  intros Hix Hp He. unfold add_prio. rewrite wp_bind, (wp_at _ _ p), wp_bind, wp_get, wp_bind, wp_deref by done.
  rewrite He, wp_modify. set (s' := s <| pq_store := _ |>).
  assert (∀ h, elems h s' = elems h s) as Hel by by intros [].
  assert (∀ q f, pq_store s' !! q = Some f → ∃ f0, pq_store s !! q = Some f0 ∧ key f0 = key f) as Hback.
  { intros q f. simpl. intros [[<- <-]|[_ ?]]%lookup_insert_Some; eauto. }
  assert (∀ q f, pq_store s !! q = Some f → ∃ f', pq_store s' !! q = Some f' ∧ key f' = key f) as Hforth.
  { intros q f Hq. simpl. destruct (decide (p = q)) as [<-|]; [|rewrite lookup_insert_ne by done; eauto].
    rewrite lookup_insert_eq. eexists. split; [done|]. simpl. congruence. }
  assert (∀ h i k, located false s' h i k ↔ located false s h i k) as Hloc.
  { intros h' i' k. unfold located. rewrite Hel. split; intros (Hl & q & f & Hq & Hf & Hk).
    - apply Hback in Hf as (f0 & Hf & Hkf). split; [done|]. exists q, f0. split_and!; congruence.
    - apply Hforth in Hf as (f0 & Hf & Hkf). split; [done|]. exists q, f0. split_and!; congruence. }
  split; [|split; [|done]].
  - split; try apply Hix.
    + intros h' i' q. rewrite Hel. intros [f Hf]%(ix_store _ _ Hix). apply Hforth in Hf as (f' & ? & _). by eexists.
    + intros h' i' k Hl%Hloc. by apply (ix_at _ _ Hix).
    + intros k g (h' & i' & Hl & ->)%(ix_key _ _ Hix). exists h', i'. by rewrite Hloc.
    + intros q Hq. simpl. rewrite lookup_insert_ne by (intros ->; by rewrite (ix_fresh _ _ Hix) in He).
      by apply (ix_fresh _ _ Hix).
  - apply pointer_elem in Hp as [l Hl]%elem_of_Permutation. pose proof (pointers_nodup _ Hix) as Hnd.
    rewrite Hl in Hnd. apply NoDup_cons in Hnd as [Hnin _].
    exists (priority e). eexists. unfold entries. change (pointers false s') with (pointers false s).
    rewrite Hl. simpl. rewrite He, lookup_insert_eq. simpl. split; [reflexivity|].
    apply reflexive_eq. f_equal. apply omap_agree. intros q Hq. simpl.
    by rewrite lookup_insert_ne by (intros ->; done).
Qed.

(** ** The roots change places *)
Lemma swap_roots_kept h s0 (k : M pqueue Z) (Q : Z → pqueue → Prop) s :
  indexed false s → (0 < length (min_elems s))%nat → (0 < length (max_elems s))%nat →
  (∀ s', kept false s s' → wp k none Q s') → wp (swap_roots K abandon h s0 k) none Q s.
Proof.
  intros Hix Hmin Hmax Hk. assert (∀ h, 0 ≤ 0 < Z.of_nat (length (elems h s))) as Hr by (intros []; simpl; lia).
  destruct (element_at false s h 0 Hix ltac:(done) (Hr h)) as (p & e & Hp & He & Hl).
  destruct (element_at false s (other h) 0 Hix ltac:(done) (Hr _)) as (q & f & Hq & Hf & Hl').
  assert (h ≠ other h) as Hoh by by destruct h.
  assert (key e ≠ key f) as Hkey.
  { intros Heq. rewrite Heq in Hl. by destruct (located_inj _ _ _ _ _ _ _ Hix Hl Hl'). }
  unfold swap_roots. rewrite wp_bind, (wp_at _ _ p), wp_bind, (wp_at _ _ q), wp_bind, (wp_put_at _ _ _ p) by done.
  rewrite wp_bind, (wp_elem_at _ _ q f).
  2:{ by rewrite elems_set, decide_False. }
  2:{ by rewrite store_set. }
  rewrite wp_bind, (wp_reindex _ (togl K (other h) 0)).
  2:{ replace (keymap _) with (keymap s) by by destruct h. by apply (ix_at _ _ Hix). }
  cbn [negb]. rewrite wp_bind, (wp_put_at _ _ _ q) by by destruct h.
  rewrite wp_bind, wp_get, wp_bind, wp_deref.
  replace (pq_store _) with (pq_store s) by by destruct h. rewrite He, wp_bind, (wp_reindex _ (togl K h 0)).
  2:{ destruct h; simpl; rewrite lookup_insert_ne by done; by apply (ix_at _ _ Hix _ _ _ Hl). }
  cbn [negb]. match goal with |- wp k none Q ?st =>
    replace st with (exchange h 0 (other h) 0 p q (key e) (key f) s) end.
  { apply Hk. eapply exchange_kept; try done. naive_solver. }
  unfold exchange. rewrite insert_insert_ne by done. by destruct h.
Qed.

(** Leaving a transaction has nothing to undo when no vector was changed in it. *)
Context (Hundo : ∀ s0 s, min_elems s = min_elems s0 → max_elems s = max_elems s0 → abandon s0 s = s).

(** Whether a change of priority leaves its transaction without a commit although an
    element has moved up its heap [h]. *)
Definition displaces_in h (l_idx d : Z) (c : Z → Z → bool) s : bool :=
  match (add_prio h l_idx d ;; to_root K h l_idx ;;
         x ← prio_at h 0; y ← prio_at (other h) 0; mret (c x y)) s with
  | Ret commits s' => negb commits
      && negb (bool_decide (min_elems s' = min_elems s ∧ max_elems s' = max_elems s))
  | Stop _ => false
  end.

Lemma reprioritised_kept k d s s1 s2 : reprioritised k d s s1 → kept false s1 s2 → reprioritised k d s s2.
Proof. intros (prio & rest & He & He1) Hk. exists prio, rest. by rewrite (kept_entries _ _ _ Hk). Qed.

(** A key's position, and what the two heaps hold then. *)
Lemma found_position s k g :
  indexed false s → keymap s !! k = Some g →
  ∃ h p e, is_minheap K g = (if decide (h = MIN_HEAP) then true else false)
    ∧ zlookup (elems h s) (gtol K g) = Some p ∧ pq_store s !! p = Some e ∧ key e = k
    ∧ 0 ≤ gtol K g < Z.of_nat (length (elems h s)).
Proof.
  intros Hix (h & i & (_ & p & e & Hp & He & Hk) & ->)%(ix_key _ _ Hix). exists h, p, e.
  pose proof (zlookup_Some_range _ _ _ Hp) as Hr. pose proof (ix_min _ _ Hix). pose proof (ix_max _ _ Hix).
  assert (gtol K (togl K h i) = i ∧ is_minheap K (togl K h i) = if decide (h = MIN_HEAP) then true else false)
    as [-> ->]; [|done].
  unfold gtol, is_minheap. destruct h; simpl in *; unfold mintog, maxtog, u64.
  - by replace (i <? K) with true by lia.
  - rewrite (Z.mod_small (i + K)) by lia. replace (i + K <? K) with false by lia.
    by rewrite Z.add_simpl_r, Z.mod_small by lia.
Qed.

(** A change of priority that moves its element up its heap [h], after which the
    roots may change places. *)
Lemma settle_spec h i p e d s (c : Z → Z → bool) (heapify_other : M pqueue ()) :
  indexed false s → zlookup (elems h s) i = Some p → pq_store s !! p = Some e →
  (0 < length (min_elems s))%nat → (0 < length (max_elems s))%nat → displaces_in h i d c s = false →
  (∀ s2, indexed false s2 → (0 < length (elems (other h) s2))%nat →
     wp heapify_other none (λ _ s3, kept false s2 s3) s2) →
  wp (add_prio h i d ;; to_root K h i ;; x ← prio_at h 0; y ← prio_at (other h) 0;
      if c x y then swap_roots K abandon h s (heapify_other ;; mret 0) else uncommitted abandon s 0) none
    (λ r s', r = 0 ∧ indexed false s' ∧ reprioritised (key e) d s s') s.
Proof.
  intros Hix Hp He Hmin Hmax Hdis Hh.
  destruct (proj1 (wp_none_ret _ _ _) (add_prio_spec h i p e d s Hix Hp He))
    as (u1 & s1 & Hrun1 & Hix1 & Hre & Hmin1 & Hmax1).
  assert (∀ h, elems h s1 = elems h s) as Hel by by intros [].
  assert (i < Z.of_nat (length (elems h s1))) as Hi by (rewrite Hel; apply zlookup_Some_range in Hp; lia).
  destruct (proj1 (wp_none_ret _ _ _) (to_root_kept false h i s1 Hix1 ltac:(done) Hi))
    as (u2 & s2 & Hrun2 & Hk2).
  assert (∀ h, 0 ≤ 0 < Z.of_nat (length (elems h s2))) as Hr.
  { intros h'. rewrite (kept_length _ _ _ _ Hk2), Hel. destruct h'; simpl; lia. }
  pose proof (kept_indexed _ _ _ Hk2) as Hix2. pose proof (reprioritised_kept _ _ _ _ _ Hre Hk2) as Hre2.
  destruct (element_at false s2 h 0 Hix2 ltac:(done) (Hr h)) as (q & f & Hq & Hf & _).
  destruct (element_at false s2 (other h) 0 Hix2 ltac:(done) (Hr _)) as (q' & f' & Hq' & Hf' & _).
  rewrite wp_bind, (wp_run _ _ _ _ _ _ Hrun1), wp_bind, (wp_run _ _ _ _ _ _ Hrun2).
  assert (∀ A (k : Z → Z → M pqueue A), (x ← prio_at h 0; y ← prio_at (other h) 0; k x y) s2
    = k (priority f) (priority f') s2) as Hroots.
  { intros A k. unfold prio_at, elem_at, at_, gets, get, deref, mbind, M_bind, mret, M_ret.
    by rewrite Hq, Hf, Hq', Hf'. }
  unfold wp. rewrite Hroots. unfold displaces_in, mbind at 1 2, M_bind at 1 2 in Hdis.
  rewrite Hrun1, Hrun2, Hroots in Hdis. unfold mret, M_ret in Hdis.
  destruct (c _ _).
  - refine (swap_roots_kept h s _ (λ r s', r = 0 ∧ indexed false s' ∧ reprioritised (key e) d s s') s2 Hix2 _ _ _).
    + specialize (Hr MIN_HEAP). simpl in Hr. lia.
    + specialize (Hr MAX_HEAP). simpl in Hr. lia.
    + intros s3 Hk3. rewrite wp_bind. eapply wp_mono; [apply Hh; [apply Hk3|]|done|].
      * rewrite (kept_length _ _ _ _ Hk3). specialize (Hr (other h)). lia.
      * intros ? s4 Hk4. rewrite wp_ret. split_and!; [done|apply Hk4|].
        eapply reprioritised_kept; [|exact Hk4]. by eapply reprioritised_kept.
  - unfold uncommitted, mbind, M_bind, modify. apply negb_false_iff, bool_decide_eq_true in Hdis as [Hm HM].
    rewrite Hundo by done. by split_and!.
Qed.

(** The operations of which [displaces] holds: those that undo the move of an
    element, but not its entry in the index. *)
Definition displaces_increase (k d : Z) s : bool :=
  match keymap s !! k with
  | Some g => negb (is_minheap K g) && displaces_in MAX_HEAP (gtol K g) d (λ x y, y <? x) s
  | None => false
  end.
Definition displaces_decrease (k d : Z) s : bool :=
  match keymap s !! k with
  | Some g => is_minheap K g && displaces_in MIN_HEAP (gtol K g) (- d) (λ x y, x <? y) s
  | None => false
  end.

Lemma increase_spec k d s :
  indexed false s → displaces_increase k d s = false →
  wp (increase_prio K abandon k d) none (λ r s', match keymap s !! k with
    | Some _ => r = 0 ∧ indexed false s' ∧ reprioritised k d s s'
    | None => r = -1 ∧ s' = s end) s.
Proof.
  intros Hix Hdis. unfold increase_prio, displaces_increase in *. rewrite wp_bind, wp_get.
  destruct (keymap s !! k) as [g|] eqn:Hg; [|by rewrite wp_ret].
  destruct (found_position s k g Hix Hg) as (h & p & e & Hm & Hp & He & Hk & Hr). rewrite Hm in *.
  destruct h; simpl in Hdis, Hr |- *.
  - rewrite wp_bind. eapply wp_mono; [apply (add_prio_spec _ _ p e); done|done|]. rewrite Hk.
    intros ? s1 (Hix1 & Hre & Hmin & Hmax).
    rewrite wp_bind. eapply wp_mono; [apply (root_heapify_kept MIN_HEAP); [done|simpl; by rewrite Hmin]|done|].
    intros ? s2 Hk2. rewrite wp_ret. split_and!; [done|apply Hk2|by eapply reprioritised_kept].
  - rewrite <- Hk. apply (settle_spec MAX_HEAP _ p e d s (λ x y, y <? x)); try done.
    + pose proof (ix_fill _ _ Hix ltac:(intros Hn; rewrite Hn in Hr; simpl in Hr; lia)). lia.
    + lia.
    + intros s3 Hix3 Hlen. apply (root_heapify_kept MIN_HEAP); [done|simpl in *; lia].
Qed.

Lemma decrease_spec k d s :
  indexed false s → displaces_decrease k d s = false →
  (∀ g, keymap s !! k = Some g → is_minheap K g = true → max_elems s ≠ []) →
  wp (decrease_prio K abandon k d) none (λ r s', match keymap s !! k with
    | Some _ => r = 0 ∧ indexed false s' ∧ reprioritised k (- d) s s'
    | None => r = -1 ∧ s' = s end) s.
Proof.
  intros Hix Hdis Hne. unfold decrease_prio, displaces_decrease in *. rewrite wp_bind, wp_get.
  destruct (keymap s !! k) as [g|] eqn:Hg; [|by rewrite wp_ret].
  destruct (found_position s k g Hix Hg) as (h & p & e & Hm & Hp & He & Hk & Hr).
  specialize (Hne g eq_refl). rewrite Hm in *. destruct h; simpl in Hne, Hdis, Hr |- *.
  - assert (0 < length (max_elems s))%nat by (destruct (max_elems s); [by destruct Hne|simpl; lia]).
    rewrite <- Hk. apply (settle_spec MIN_HEAP _ p e (- d) s (λ x y, x <? y)); try done; [lia|].
    intros s3 Hix3 Hlen. apply (root_heapify_kept MAX_HEAP); [done|simpl in *; lia].
  - rewrite wp_bind. eapply wp_mono; [apply (add_prio_spec _ _ p e); done|done|]. rewrite Hk.
    intros ? s1 (Hix1 & Hre & Hmin & Hmax).
    rewrite wp_bind. eapply wp_mono; [apply (root_heapify_kept MAX_HEAP); [done|simpl; by rewrite Hmax]|done|].
    intros ? s2 Hk2. rewrite wp_ret. split_and!; [done|apply Hk2|by eapply reprioritised_kept].
Qed.

(** ** Inserting *)

(** A new element that is not in a heap yet. *)
Definition loose s p k prio s' : Prop :=
  indexed false s' ∧ entries false s' = entries false s ∧ min_elems s' = min_elems s
  ∧ max_elems s' = max_elems s ∧ keymap s' = keymap s ∧ pq_store s' !! p = Some (mk_pqelem k prio).
Lemma new_pqelem_loose k prio s :
  indexed false s → wp (new_pqelem k prio) none (λ p s', loose s p k prio s') s.
Proof.
  intros Hix. unfold new_pqelem. rewrite wp_bind, wp_get, wp_bind, wp_modify, wp_ret.
  assert (∀ h i p, zlookup (elems h s) i = Some p → new_elem s ≠ p) as Hne.
  { intros h i p [e He]%(ix_store _ _ Hix) <-. by rewrite (ix_fresh _ _ Hix) in He by lia. }
  set (s' := s <| pq_store := _ |> <| new_elem := _ |>).
  assert (∀ h, elems h s' = elems h s) as Hel by by intros [].
  assert (∀ h i k, located false s' h i k ↔ located false s h i k) as Hloc.
  { intros h i k'. unfold located. rewrite Hel. f_equiv. f_equiv; intros p. f_equiv; intros e.
    split; intros (Hp & He & ?); pose proof (Hne _ _ _ Hp); split_and!; try done; simpl in *;
      [by rewrite lookup_insert_ne in He|by rewrite lookup_insert_ne]. }
  split_and!; try done.
  - split; try apply Hix.
    + intros h i p. rewrite Hel. intros Hp. simpl. rewrite lookup_insert_ne by by eapply Hne.
      by eapply (ix_store _ _ Hix).
    + intros h i k' Hl%Hloc. by apply (ix_at _ _ Hix).
    + intros k' g (h & i & Hl & ->)%(ix_key _ _ Hix). exists h, i. by rewrite Hloc.
    + intros p. simpl. intros Hp. rewrite lookup_insert_ne by lia. apply (ix_fresh _ _ Hix). lia.
  - unfold entries. change (pointers false s') with (pointers false s). apply omap_agree. intros p Hp. simpl.
    rewrite lookup_insert_ne; [done|]. apply elem_of_app in Hp as [[n Hn]%list_elem_of_lookup|[n Hn]%list_elem_of_lookup].
    + apply (Hne MIN_HEAP (Z.of_nat n)). simpl. by rewrite zlookup_nonneg, Nat2Z.id by lia.
    + apply (Hne MAX_HEAP (Z.of_nat n)). simpl. by rewrite zlookup_nonneg, Nat2Z.id by lia.
  - simpl. by rewrite lookup_insert_eq.
Qed.

(** It goes to the end of a heap. *)
Definition pushed h p k s : pqueue :=
  set_elems h (elems h s ++ [p]) s
    <| keymap := <[k := togl K h (Z.of_nat (length (elems h s)))]> (keymap s) |>.
Lemma zlookup_snoc {A} (l : list A) i x y :
  zlookup (l ++ [x]) i = Some y ↔ (i = Z.of_nat (length l) ∧ y = x) ∨ zlookup l i = Some y.
Proof.
  rewrite zlookup_app. destruct (Z.ltb_spec i (Z.of_nat (length l))).
  - split; [by right|]. intros [[-> _]|?]; [lia|done].
  - rewrite zlookup_nonneg by lia. destruct (decide (i = Z.of_nat (length l))) as [->|Hne].
    + rewrite Z.sub_diag. simpl. split; [intros [= ->]; by left|].
      intros [[_ ->]|Hy%zlookup_Some_range]; [done|lia].
    + rewrite lookup_ge_None_2 by (simpl; lia). split; [done|].
      intros [[-> _]|Hy%zlookup_Some_range]; lia.
Qed.

Lemma pushed_indexed h p k prio s :
  indexed false s → pq_store s !! p = Some (mk_pqelem k prio) → keymap s !! k = None →
  Z.of_nat (length (elems h s)) < (match h with MIN_HEAP => K | MAX_HEAP => 2 ^ 63 - 1 - K end) →
  (h = MAX_HEAP → Z.of_nat (length (min_elems s)) = K) →
  indexed false (pushed h p k s) ∧ entries false (pushed h p k s) ≡ₚ (k, prio) :: entries false s.
Proof.
  intros Hix Hp Hk Hlen Hfill. set (s' := pushed h p k s).
  assert (pq_store s' = pq_store s) as Hst by (by destruct h).
  assert (keymap s' = <[k := togl K h (Z.of_nat (length (elems h s)))]> (keymap s)) as Hkm by done.
  assert (∀ h' i q, zlookup (elems h' s') i = Some q ↔
    (h' = h ∧ i = Z.of_nat (length (elems h s)) ∧ q = p) ∨ zlookup (elems h' s) i = Some q) as Hel.
  { intros h' i q. change (elems h' s') with (elems h' (set_elems h (elems h s ++ [p]) s)). rewrite elems_set.
    case_decide as Hh; [subst h'; rewrite zlookup_snoc|]; naive_solver. }
  assert (∀ h' i k', located false s' h' i k' ↔
    (h' = h ∧ i = Z.of_nat (length (elems h s)) ∧ k' = k) ∨ located false s h' i k') as Hloc.
  { intros h' i k'. unfold located. rewrite Hst. split.
    - intros (Hl & q & e & [(-> & -> & ->)|Hq]%Hel & He & <-); [left; rewrite Hp in He; by simplify_eq|].
      right. split; [done|]. by exists q, e.
    - intros [(-> & -> & ->)|(Hl & q & e & Hq & He & <-)]; (split; [done|]).
      + exists p, (mk_pqelem k prio). split_and!; [apply Hel; by left|done..].
      + exists q, e. split_and!; [apply Hel; by right|done..]. }
  split.
  - split.
    + intros h' i q. rewrite Hst. intros [(_ & _ & ->)|Hq]%Hel; [by eexists|by eapply (ix_store _ _ Hix)].
    + intros h' i k' Hl. rewrite Hkm. apply Hloc in Hl as [(-> & -> & ->)|Hl]; [by rewrite lookup_insert_eq|].
      apply (ix_at _ _ Hix) in Hl. rewrite lookup_insert_ne by congruence. done.
    + intros k' g. rewrite Hkm. intros [[<- <-]|[_ Hg]]%lookup_insert_Some.
      * eexists h, _. split; [apply Hloc; by left|done].
      * apply (ix_key _ _ Hix) in Hg as (h' & i & Hl & ->). exists h', i. split; [apply Hloc; by right|done].
    + pose proof (ix_min _ _ Hix). destruct h; simpl in *; rewrite ?length_app; simpl; lia.
    + pose proof (ix_max _ _ Hix). destruct h; simpl in *; rewrite ?length_app; simpl; lia.
    + pose proof (ix_fill _ _ Hix). destruct h; simpl in *; [|auto]. intros Hm. rewrite length_app. simpl.
      specialize (H Hm). lia.
    + intros q. rewrite Hst. replace (new_elem s') with (new_elem s) by by destruct h. apply (ix_fresh _ _ Hix).
  - assert (pointers false s' ≡ₚ p :: pointers false s) as Hptr.
    { unfold pointers. destruct h; simpl.
      - by rewrite <- (assoc_L (++)), Permutation_middle.
      - by rewrite (assoc_L (++)), (Permutation_app_comm _ [p]). }
    unfold entries. rewrite Hst, Hptr. simpl. by rewrite Hp.
Qed.

(** The minimum of the top K moves to the other heap and leaves its place vacant. *)
Definition vacated m e s : pqueue :=
  s <| max_elems := max_elems s ++ [m] |>
    <| keymap := <[key e := maxtog K (Z.of_nat (length (max_elems s)))]> (keymap s) |>.
Lemma vacated_indexed m e s :
  indexed false s → zlookup (min_elems s) 0 = Some m → pq_store s !! m = Some e →
  Z.of_nat (length (min_elems s)) = K → K + Z.of_nat (length (max_elems s)) + 1 < 2 ^ 63 →
  indexed true (vacated m e s) ∧ entries true (vacated m e s) ≡ₚ entries false s.
Proof.
  intros Hix Hm He Hfill Hlen. set (s' := vacated m e s).
  assert (located false s MIN_HEAP 0 (key e)) as Hroot by (by apply (located_lookup _ _ _ m)).
  assert (∀ h i k, located true s' h i k ↔ (h = MAX_HEAP ∧ i = Z.of_nat (length (max_elems s)) ∧ k = key e)
    ∨ (live true h i ∧ located false s h i k)) as Hloc.
  { intros h i k. unfold located. simpl. split.
    - intros (Hl & q & f & Hq & Hf & <-). destruct h; simpl in Hq; [right; split; [done|]; split; [done|]; by exists q, f|].
      apply zlookup_snoc in Hq as [[-> ->]|Hq]; [left; by simplify_eq|]. right.
      split; [done|]. split; [done|]. by exists q, f.
    - intros [(-> & -> & ->)|(Hl & _ & q & f & Hq & Hf & <-)]; (split; [done|]).
      + exists m, e. split_and!; [|done..]. simpl. apply zlookup_snoc. by left.
      + exists q, f. split_and!; [|done..]. destruct h; simpl in *; [done|]. apply zlookup_snoc. by right. }
  split.
  - split.
    + intros h i q Hq. destruct h; simpl in Hq; [by apply (ix_store _ _ Hix MIN_HEAP i)|].
      apply zlookup_snoc in Hq as [[_ ->]|Hq]; [by eexists|by apply (ix_store _ _ Hix MAX_HEAP i)].
    + intros h i k [(-> & -> & ->)|[Hl Hk]]%Hloc; simpl; [by rewrite lookup_insert_eq|].
      rewrite lookup_insert_ne; [by apply (ix_at _ _ Hix)|]. intros <-.
      destruct (located_inj _ _ _ _ _ _ _ Hix Hk Hroot) as [-> ->]. by apply Hl.
    + intros k g. simpl. intros [[<- <-]|[Hne Hg]]%lookup_insert_Some.
      * eexists MAX_HEAP, _. split; [apply Hloc; by left|done].
      * apply (ix_key _ _ Hix) in Hg as (h & i & Hl & ->). exists h, i. split; [|done]. apply Hloc. right.
        split; [|done]. intros _ -> ->. destruct Hl as (_ & ? & ? & ? & ? & ?), Hroot as (_ & ? & ? & ? & ? & ?).
        by simplify_eq.
    + simpl. lia.
    + simpl. rewrite length_app. simpl. lia.
    + done.
    + apply Hix.
  - unfold entries. simpl. apply omap_Permutation. unfold pointers. simpl.
    rewrite zlookup_nonneg in Hm by lia. destruct (min_elems s) as [|x l]; [done|]. simpl in *.
    injection Hm as ->. rewrite drop_0, (assoc_L (++)). by rewrite (Permutation_app_comm _ [m]).
Qed.

(** The new element takes the vacant place. *)
Definition occupied p k s : pqueue :=
  s <| keymap := <[k := mintog 0]> (keymap s) |> <| min_elems := zinsert (min_elems s) 0 p |>.
Lemma occupied_indexed p k prio s :
  indexed true s → pq_store s !! p = Some (mk_pqelem k prio) → keymap s !! k = None →
  (0 < length (min_elems s))%nat →
  indexed false (occupied p k s) ∧ entries false (occupied p k s) ≡ₚ (k, prio) :: entries true s.
Proof.
  intros Hix Hp Hk Hlen. set (s' := occupied p k s).
  assert (∀ h i k', located false s' h i k' ↔ (h = MIN_HEAP ∧ i = 0 ∧ k' = k) ∨ located true s h i k') as Hloc.
  { intros h i k'. unfold located. simpl. split.
    - intros (_ & q & f & Hq & Hf & <-). destruct h; simpl in Hq; [|right; split; [done|]; by exists q, f].
      rewrite zlookup_zinsert in Hq by lia. destruct (Z.eqb_spec i 0) as [->|Hi].
      + left. by simplify_eq.
      + right. split; [by intros _ _|]. by exists q, f.
    - intros [(-> & -> & ->)|(Hl & q & f & Hq & Hf & <-)]; (split; [done|]).
      + exists p, (mk_pqelem k prio). split_and!; [|done..]. simpl. by rewrite zlookup_zinsert by lia.
      + exists q, f. split_and!; [|done..]. destruct h; simpl in *; [|done]. rewrite zlookup_zinsert by lia.
        specialize (Hl eq_refl eq_refl). by replace (i =? 0) with false by lia. }
  assert (length (min_elems s') = length (min_elems s)) as Hmin by (simpl; unfold zinsert; by rewrite length_insert).
  split.
  - split; rewrite ?Hmin; try apply Hix.
    + intros h i q Hq. destruct h; simpl in Hq; [|by apply (ix_store _ _ Hix MAX_HEAP i)].
      rewrite zlookup_zinsert in Hq by lia. destruct (i =? 0); [|by apply (ix_store _ _ Hix MIN_HEAP i)].
      injection Hq as <-. by eexists.
    + intros h i k' [(-> & -> & ->)|Hl]%Hloc; simpl; [by rewrite lookup_insert_eq|].
      apply (ix_at _ _ Hix) in Hl. by rewrite lookup_insert_ne by congruence.
    + intros k' g. simpl. intros [[<- <-]|[_ Hg]]%lookup_insert_Some.
      * exists MIN_HEAP, 0. split; [apply Hloc; by left|done].
      * apply (ix_key _ _ Hix) in Hg as (h & i & Hl & ->). exists h, i. split; [apply Hloc; by right|done].
  - unfold entries. simpl. unfold pointers. simpl. destruct (min_elems s) as [|x l]; [simpl in Hlen; lia|].
    simpl. rewrite Hp, drop_0. done.
Qed.

Definition inserted k prio s (r : Z) s' : Prop :=
  r = 0 ∧ indexed false s' ∧ entries false s' ≡ₚ (k, prio) :: entries false s.

Lemma insert_end_spec h k p prio s :
  indexed false s → pq_store s !! p = Some (mk_pqelem k prio) → keymap s !! k = None →
  Z.of_nat (length (elems h s)) < (match h with MIN_HEAP => K | MAX_HEAP => 2 ^ 63 - 1 - K end) →
  (h = MAX_HEAP → Z.of_nat (length (min_elems s)) = K) →
  wp (insert_end K h k p) none (inserted k prio s) s.
Proof.
  intros Hix Hp Hk Hlen Hfill. destruct (pushed_indexed h p k prio s Hix Hp Hk Hlen Hfill) as [Hix' He'].
  unfold insert_end, push_back, heap_size, index_new.
  rewrite wp_bind, wp_modify, wp_bind, wp_gets, wp_bind, wp_modify, wp_bind.
  rewrite elems_set, decide_True, length_app, Nat2Z.inj_add by done. cbn [length]. rewrite Z.add_simpl_r.
  replace (keymap (set_elems h _ s)) with (keymap s) by by destruct h. rewrite Hk.
  change (set_elems h (elems h s ++ [p]) s <| keymap := _ |>) with (pushed h p k s).
  eapply wp_mono; [apply (to_root_kept false); [done|done|]|done|].
  - change (elems h (pushed h p k s)) with (elems h (set_elems h (elems h s ++ [p]) s)).
    rewrite elems_set, decide_True, length_app by done. simpl. lia.
  - intros ? s2 Hk2. rewrite wp_ret. split_and!; [done|apply Hk2|by rewrite (kept_entries _ _ _ Hk2)].
Qed.

Lemma insert_top_spec k p prio s s0 :
  indexed false s → pq_store s !! p = Some (mk_pqelem k prio) → keymap s !! k = None →
  Z.of_nat (length (min_elems s)) = K → K + Z.of_nat (length (max_elems s)) + 1 < 2 ^ 63 →
  wp (insert_top K abandon k p s0) none (inserted k prio s) s.
Proof.
  intros Hix Hp Hk Hfill Hlen.
  destruct (element_at false s MIN_HEAP 0 Hix ltac:(done) ltac:(simpl; lia)) as (m & e & Hm & He & Hroot).
  apply (ix_at _ _ Hix) in Hroot. unfold insert_top. rewrite wp_bind, (wp_at _ _ m) by done.
  unfold push_back, heap_size.
  rewrite wp_bind, wp_modify, wp_bind, wp_gets, wp_bind, wp_get, wp_bind, wp_deref. simpl.
  rewrite He, wp_bind, (wp_reindex _ (togl K MIN_HEAP 0)) by done.
  cbn [negb]. simpl. rewrite length_app, Nat2Z.inj_add, Z.add_simpl_r.
  destruct (vacated_indexed m e s Hix Hm He Hfill Hlen) as [Hix1 He1].
  change (mk_pqueue _ _ _ _ _) with (vacated m e s).
  rewrite wp_bind. eapply wp_mono; [apply (to_root_kept true); [done|done|simpl; rewrite length_app; simpl; lia]|done|].
  intros ? s2 Hk2. assert (keymap s2 !! k = None) as Hk2'.
  { apply eq_None_not_Some. rewrite (kept_dom _ _ _ Hk2). simpl. rewrite lookup_insert_is_Some.
    intros [Heq|[_ Hs]]; [congruence|by rewrite Hk in Hs]. }
  assert (0 < length (min_elems s2))%nat as Hpos by (rewrite (kept_min _ _ _ Hk2); simpl; lia).
  destruct (occupied_indexed p k prio s2) as [Hix3 He3]; [apply Hk2|by rewrite (kept_store _ _ _ Hk2)|done|done|].
  unfold index_new. rewrite wp_bind, wp_modify, Hk2', wp_bind.
  destruct (min_elems s2) as [|x l] eqn:Hl2; [simpl in Hpos; lia|].
  rewrite (wp_put_at _ _ _ x) by (simpl; by rewrite Hl2). rewrite wp_bind.
  change (set_elems MIN_HEAP _ _) with (occupied p k s2).
  eapply wp_mono; [apply (root_heapify_kept MIN_HEAP); [done|simpl; unfold zinsert; rewrite length_insert, Hl2; simpl; lia]|done|].
  intros ? s4 Hk4. rewrite wp_ret. split_and!; [done|apply Hk4|].
  by rewrite (kept_entries _ _ _ Hk4), He3, (kept_entries _ _ _ Hk2), He1.
Qed.

Lemma insert_spec k prio s :
  indexed false s → keymap s !! k = None → K + Z.of_nat (length (max_elems s)) + 1 < 2 ^ 63 →
  wp (insert K abandon k prio) none (inserted k prio s) s.
Proof.
  intros Hix0 Hk Hlen. unfold insert, inserted. rewrite wp_bind.
  eapply wp_mono; [by apply new_pqelem_loose|done|]. intros p s1 (Hix & He & Hmin & Hmax & Hkm & Hp).
  rewrite <- Hkm in Hk. rewrite <- Hmax in Hlen. rewrite <- He. pose proof (ix_min _ _ Hix).
  rewrite wp_bind, wp_get. destruct (Z.ltb_spec (Z.of_nat (length (min_elems s1))) K); [by apply insert_end_spec|].
  destruct (element_at false s1 MIN_HEAP 0 Hix ltac:(done) ltac:(simpl; lia)) as (m & e & Hm & Hme & _).
  rewrite wp_bind, (wp_prio_at _ _ m e) by done. destruct (prio <? priority e).
  - apply insert_end_spec; try done; simpl; lia.
  - apply insert_top_spec; done || lia.
Qed.

(** ** The queue as a map from keys to priorities *)
Lemma pointers_elem s p : p ∈ pointers false s → ∃ h i, zlookup (elems h s) i = Some p.
Proof.
  intros [[n Hn]%list_elem_of_lookup|[n Hn]%list_elem_of_lookup]%elem_of_app.
  - exists MIN_HEAP, (Z.of_nat n). simpl. by rewrite zlookup_nonneg, Nat2Z.id by lia.
  - exists MAX_HEAP, (Z.of_nat n). simpl. by rewrite zlookup_nonneg, Nat2Z.id by lia.
Qed.

Lemma entries_elem s k prio :
  (k, prio) ∈ entries false s ↔ ∃ p e, p ∈ pointers false s ∧ pq_store s !! p = Some e ∧ key e = k ∧ priority e = prio.
Proof.
  unfold entries. rewrite list_elem_of_omap. split.
  - intros (p & Hp & Hf). destruct (pq_store s !! p) as [e|] eqn:He; [|done]. injection Hf as <- <-. eauto 10.
  - intros (p & e & Hp & He & <- & <-). exists p. by rewrite He.
Qed.

Lemma keys_nodup s : indexed false s → NoDup (entries false s).*1.
Proof.
  intros Hix. pose proof (pointers_nodup s Hix) as Hnd.
  assert (∀ p q e f, p ∈ pointers false s → q ∈ pointers false s → pq_store s !! p = Some e →
    pq_store s !! q = Some f → key e = key f → p = q) as Hinj.
  { intros p q e f (h & i & Hp)%pointers_elem (h' & i' & Hq)%pointers_elem He Hf Heq.
    pose proof (located_lookup _ _ _ _ _ Hp He) as Hl. pose proof (located_lookup _ _ _ _ _ Hq Hf) as Hl'.
    rewrite Heq in Hl. destruct (located_inj _ _ _ _ _ _ _ Hix Hl Hl') as [-> ->]. congruence. }
  unfold entries. induction (pointers false s) as [|p l IH]; simpl; [constructor|].
  apply NoDup_cons in Hnd as [Hp Hnd].
  assert (NoDup (omap (λ p, (λ e, (key e, priority e)) <$> pq_store s !! p) l).*1) as Hl.
  { apply IH; [done|]. intros q r e f Hq Hr. apply Hinj; by apply list_elem_of_further. }
  destruct (pq_store s !! p) as [e|] eqn:He; simpl; [|done]. apply NoDup_cons. split; [|done].
  intros ([k prio] & Hk & (q & Hq & Hf)%list_elem_of_omap)%list_elem_of_fmap. simpl in Hk.
  destruct (pq_store s !! q) as [f|] eqn:Hfq; [|done]. injection Hf as <- <-.
  apply Hp. rewrite (Hinj p q e f); [done|by apply list_elem_of_here|by apply list_elem_of_further|done..].
Qed.

Definition represents s (m : gmap Z Z) : Prop := indexed false s ∧ m = list_to_map (entries false s).

Lemma represents_lookup s m k : represents s m → is_Some (keymap s !! k) ↔ is_Some (m !! k).
Proof.
  intros [Hix ->]. pose proof (keys_nodup s Hix) as Hnd. split.
  - intros [g (h & i & (_ & p & e & Hp & He & <-) & _)%(ix_key _ _ Hix)]. exists (priority e).
    apply elem_of_list_to_map_1; [done|]. apply entries_elem. exists p, e. by apply pointer_elem in Hp.
  - intros [prio (p & e & (h & i & Hp)%pointers_elem & He & <- & _)%elem_of_list_to_map_2%entries_elem].
    pose proof (ix_at _ _ Hix _ _ _ (located_lookup _ _ _ _ _ Hp He)). by eexists.
Qed.
Lemma represents_size s m :
  represents s m → Z.of_nat (size m) = Z.of_nat (length (min_elems s)) + Z.of_nat (length (max_elems s)).
Proof.
  intros [Hix ->]. rewrite map_size_list_to_map by by apply keys_nodup.
  assert (length (entries false s) = length (pointers false s)) as ->.
  { unfold entries. assert (∀ p, p ∈ pointers false s → is_Some (pq_store s !! p)) as Hall.
    { intros p (h & i & Hp)%pointers_elem. by eapply (ix_store _ _ Hix). }
    induction (pointers false s) as [|p l IH]; simpl; [done|].
    destruct (Hall p) as [e ->]; [by apply list_elem_of_here|]. simpl. f_equal. apply IH.
    intros q Hq. by apply Hall, list_elem_of_further. }
  unfold pointers. rewrite length_app. lia.
Qed.
Lemma represents_insert s s' m k prio :
  represents s m → inserted k prio s 0 s' → represents s' (<[k := prio]> m).
Proof.
  intros [Hix ->] (_ & Hix' & He). split; [done|].
  rewrite (list_to_map_proper _ _ (keys_nodup _ Hix') He). done.
Qed.
Lemma represents_update s s' m k d :
  represents s m → indexed false s' → reprioritised k d s s' →
  ∃ prio, m !! k = Some prio ∧ represents s' (<[k := u64 (prio + d)]> m).
Proof.
  intros [Hix ->] Hix' (prio & rest & He & He'). exists prio.
  rewrite (list_to_map_proper _ _ (keys_nodup _ Hix) He). simpl. split; [by rewrite lookup_insert_eq|].
  split; [done|]. rewrite (list_to_map_proper _ _ (keys_nodup _ Hix') He'). simpl. by rewrite insert_insert_eq.
Qed.

(** ** Sequences of operations *)
Inductive pq_op := Insert (k prio : Z) | Increase (k d : Z) | Decrease (k d : Z).
Definition pq_do (o : pq_op) : M pqueue Z :=
  match o with
  | Insert k prio => insert K abandon k prio
  | Increase k d => increase_prio K abandon k d
  | Decrease k d => decrease_prio K abandon k d
  end.
Fixpoint pq_run (os : list pq_op) : M pqueue (list Z) :=
  match os with
  | [] => mret []
  | o :: os => r ← pq_do o; rs ← pq_run os; mret (r :: rs)
  end.
(** No operation of the sequence leaves its transaction without a commit after it
    has moved an element. *)
Definition displaces (o : pq_op) (s : pqueue) : bool :=
  match o with
  | Insert _ _ => false
  | Increase k d => displaces_increase k d s
  | Decrease k d => displaces_decrease k d s
  end.
Fixpoint pq_steady (os : list pq_op) (s : pqueue) : bool :=
  match os with
  | [] => true
  | o :: os => negb (displaces o s) && match pq_do o s with Ret _ s' => pq_steady os s' | Stop _ => true end
  end.
(** What they do to a map. *)
Definition spec_add (k d : Z) (m : gmap Z Z) : Z * gmap Z Z :=
  match m !! k with Some prio => (0, <[k := u64 (prio + d)]> m) | None => (-1, m) end.
Definition spec_do (o : pq_op) (m : gmap Z Z) : Z * gmap Z Z :=
  match o with
  | Insert k prio => (0, <[k := prio]> m)
  | Increase k d => spec_add k d m
  | Decrease k d => spec_add k (- d) m
  end.
Fixpoint spec_run (os : list pq_op) (m : gmap Z Z) : list Z * gmap Z Z :=
  match os with
  | [] => ([], m)
  | o :: os => let '(r, m) := spec_do o m in let '(rs, m) := spec_run os m in (r :: rs, m)
  end.
(** New keys only are inserted, and a priority is lowered only when there are more
    than K elements. *)
Definition allowed (o : pq_op) (m : gmap Z Z) : Prop :=
  match o with
  | Insert k _ => m !! k = None ∧ K + Z.of_nat (size m) + 1 < 2 ^ 63
  | Increase _ _ => True
  | Decrease k _ => m !! k = None ∨ K < Z.of_nat (size m)
  end.
Fixpoint all_allowed (os : list pq_op) (m : gmap Z Z) : Prop :=
  match os with [] => True | o :: os => allowed o m ∧ all_allowed os (spec_do o m).2 end.

Lemma pq_do_refines o s m :
  represents s m → allowed o m → displaces o s = false →
  wp (pq_do o) none (λ r s', r = (spec_do o m).1 ∧ represents s' (spec_do o m).2) s.
Proof.
  intros Hrep Hal Hdis. pose proof Hrep as [Hix _]. pose proof (represents_size s m Hrep) as Hsize.
  assert (∀ k d (op : M pqueue Z), wp op none (λ r s', match keymap s !! k with
      | Some _ => r = 0 ∧ indexed false s' ∧ reprioritised k d s s' | None => r = -1 ∧ s' = s end) s →
    wp op none (λ r s', r = (spec_add k d m).1 ∧ represents s' (spec_add k d m).2) s) as Hadd.
  { intros k d op Hop. eapply wp_mono; [exact Hop|done|]. intros r s'.
    pose proof (represents_lookup s m k Hrep) as Hk. unfold spec_add. destruct (keymap s !! k) as [g|].
    - intros (-> & Hix' & Hre). by destruct (represents_update _ _ _ _ _ Hrep Hix' Hre) as (prio & -> & ?).
    - intros [-> ->]. destruct (m !! k); [|done]. destruct Hk as [_ [? ?]]; [by eexists|done]. }
  destruct o as [k prio|k d|k d]; simpl in *.
  - destruct Hal as [Hk Hlen]. eapply wp_mono; [apply insert_spec; [done| |lia]|done|].
    + apply eq_None_not_Some. rewrite (represents_lookup _ _ _ Hrep), Hk. by intros [].
    + intros r s' Hins. pose proof Hins as [-> _]. split; [done|]. by apply (represents_insert s).
  - by apply Hadd, increase_spec.
  - apply Hadd, decrease_spec; [done|done|]. intros g Hg _ Hnil. rewrite Hnil in Hsize. pose proof (ix_min _ _ Hix).
    destruct (proj1 (represents_lookup s m k Hrep) ltac:(by eexists)) as [prio Hprio].
    destruct Hal as [Hal|Hal]; [congruence|simpl in Hsize; lia].
Qed.

Lemma empty_represents : represents empty_queue ∅.
Proof.
  split; [|done]. assert (∀ h i p, zlookup (elems h empty_queue) i = Some p → False) as Hno.
  { intros [] i p Hp%zlookup_Some_range; simpl in Hp; lia. }
  split; simpl; try done; try lia.
  - intros h i p []%Hno.
  - by intros h i k (_ & p & e & []%Hno & _).
Qed.

Lemma pq_run_refines os s m :
  represents s m → all_allowed os m → pq_steady os s = true →
  wp (pq_run os) none (λ rs s', rs = (spec_run os m).1 ∧ represents s' (spec_run os m).2) s.
Proof.
  revert s m. induction os as [|o os IH]; intros s m Hrep Hal Hst; simpl in *; [by rewrite wp_ret|].
  destruct Hal as [Ho Hal]. apply andb_true_iff in Hst as [Hd%negb_true_iff Hst].
  destruct (proj1 (wp_none_ret _ _ _) (pq_do_refines o s m Hrep Ho Hd)) as (r & s1 & Hrun & -> & Hrep1).
  rewrite Hrun in Hst. rewrite wp_bind, (wp_run _ _ _ _ _ _ Hrun). destruct (spec_do o m) as [r m1]. simpl in *. rewrite wp_bind.
  eapply wp_mono; [by apply IH|done|]. intros rs s2 [-> Hrep2]. rewrite wp_ret.
  by destruct (spec_run os m1).
Qed.

(** Reading the top K. *)
Lemma keys_at_total ps s :
  (∀ p, p ∈ ps → is_Some (pq_store s !! p)) →
  wp (keys_at ps) none (λ ks s', s' = s
    ∧ ks = (omap (λ p, (λ e, (key e, priority e)) <$> pq_store s !! p) ps).*1) s.
Proof.
  induction ps as [|p ps IH]; intros Hall; simpl; [by rewrite wp_ret|].
  destruct (Hall p) as [e He]; [by apply list_elem_of_here|]. rewrite wp_bind, wp_get, wp_bind, wp_deref, He, wp_bind.
  eapply wp_mono; [apply IH; intros q Hq; by apply Hall, list_elem_of_further|done|].
  intros ks s' [-> ->]. by rewrite wp_ret.
Qed.

(** C20: the priority queue refines a map.  From an empty queue, any sequence of
    insertions of new keys and changes of priorities (lowering one only when there
    are more than K elements) returns, as long as no change of priority leaves its
    transaction without a commit after it has moved an element ([pq_steady]; the
    index is wrong after one that does, [uncommitted_increase_breaks_index]), with the results a map from keys to
    priorities gives, and leaves a queue that represents that map, in which the
    index gives every key's position; the top K that are read are min(K, n)
    different keys of the map. *)
Theorem priority_queue_refines os :
  all_allowed os ∅ → pq_steady os empty_queue = true →
  ∃ s', pq_run os empty_queue = Ret (spec_run os ∅).1 s' ∧ represents s' (spec_run os ∅).2
    ∧ ∃ ks, read_topK s' = Ret (ks, Z.min K (Z.of_nat (size (spec_run os ∅).2))) s' ∧ NoDup ks
      ∧ ∀ k, k ∈ ks → is_Some ((spec_run os ∅).2 !! k).
Proof.
  intros Hal Hst. pose proof (pq_run_refines os _ _ empty_represents Hal Hst) as Hwp.
  apply wp_none_ret in Hwp as (rs & s' & Hrun & -> & Hrep). exists s'. split; [done|]. split; [done|].
  set (m := (spec_run os ∅).2) in *. pose proof Hrep as [Hix Hm]. pose proof (keys_nodup _ Hix) as Hnd.
  destruct (proj1 (wp_none_ret _ _ _) (keys_at_total (min_elems s') s' ltac:(intros p Hp;
    destruct (pointers_elem s' p) as (h & i & Hi); [by apply elem_of_app; left|by eapply (ix_store _ _ Hix)])))
    as (ks & ? & Hks & -> & Hk).
  exists ks. unfold entries, pointers in Hnd. rewrite omap_app, fmap_app, <- Hk in Hnd. split_and!.
  - unfold read_topK, gets, mbind, M_bind. rewrite Hks. unfold mret, M_ret. do 2 f_equal.
    rewrite (represents_size _ _ Hrep). pose proof (ix_min _ _ Hix). pose proof (ix_fill _ _ Hix) as Hfill.
    destruct (max_elems s'); [simpl; lia|]. specialize (Hfill ltac:(done)). lia.
  - by apply NoDup_app in Hnd as [? _].
  - intros k Hin. rewrite Hk in Hin. apply list_elem_of_fmap in Hin as ([k' prio] & -> & Hin). exists prio.
    simpl. rewrite Hm. apply elem_of_list_to_map_1; [by apply keys_nodup|]. unfold entries, pointers.
    rewrite omap_app. by apply elem_of_app; left.
Qed.
End queue_proofs.

(** An uncommitted transaction undoes the vectors, as PMDK does, but not the index,
    whose entries are not registered with the transaction, nor the elements, which
    are not in persistent memory. *)
Definition undo_vectors (s0 s : pqueue) : pqueue :=
  s <| min_elems := min_elems s0 |> <| max_elems := max_elems s0 |>.
Lemma undo_nothing s0 s :
  min_elems s = min_elems s0 → max_elems s = max_elems s0 → undo_vectors s0 s = s.
Proof. intros Hmin Hmax. unfold undo_vectors. destruct s; simpl in *. by subst. Qed.
(** The last but one increase is left uncommitted. *)
Definition demo_pq_ops : list pq_op :=
  [Insert 1 5; Insert 2 7; Insert 3 6; Increase 1 4; Decrease 2 3; Increase 2 1; Increase 9 1].
Lemma demo_pq_allowed : all_allowed 2 demo_pq_ops ∅.
Proof.
  unfold demo_pq_ops. cbn [all_allowed]. split_and!; try exact I; vm_compute; try done. by right.
Qed.
Lemma priority_queue_refines_witness :
  ∃ s' ks, pq_run 2 undo_vectors demo_pq_ops empty_queue = Ret [0; 0; 0; 0; 0; 0; -1] s'
    ∧ read_topK s' = Ret (ks, 2) s'.
Proof.
  assert (0 < 2 < 2 ^ 63) as HK by lia.
  destruct (priority_queue_refines 2 undo_vectors HK undo_nothing demo_pq_ops demo_pq_allowed
    ltac:(by vm_compute))
    as (s' & Hrun & _ & ks & Htop & _). by exists s', ks.
Defined.

(** ** Where the queue does not do what it means to *)

(** The top K are not the K highest priorities.  The parent of position 2 is
    taken to be position 1, while its children's positions make it a child of the
    root; after twelve insertions of different keys into a queue with K = 8, key 1
    with priority 1 is among the top K and key 8 with priority 2 is not. *)
Theorem topk_not_highest abandon :
  ∃ rs s ks, pq_run 8 abandon (imap (λ i prio, Insert (Z.of_nat i) prio)
      [3; 1; 0; 0; 7; 2; 0; 4; 2; 5; 5; 7]) empty_queue = Ret rs s
    ∧ read_topK s = Ret (ks, 8) s ∧ 1 ∈ ks ∧ 8 ∉ ks
    ∧ (1, 1) ∈ entries false s ∧ (8, 2) ∈ entries false s.
Proof.
  do 3 eexists. split; [vm_compute; reflexivity|]. split; [vm_compute; reflexivity|].
  split_and!; apply (bool_decide_unpack _); vm_compute; exact I.
Qed.

(** Lowering a priority throws as long as there are not more than K elements: the
    root of the empty max-heap is read. *)
Theorem decrease_throws K abandon k d g s :
  indexed K false s → 0 < K < 2 ^ 63 → max_elems s = [] → keymap s !! k = Some g →
  decrease_prio K abandon k d s = Stop Assert.
Proof.
  intros Hix HK Hmax Hg. destruct (found_position K HK s k g Hix Hg) as (h & p & e & Hm & Hp & He & Hk & Hr).
  assert (h = MIN_HEAP) as -> by (destruct h; [done|]; simpl in Hr; rewrite Hmax in Hr; simpl in Hr; lia).
  assert (wp (decrease_prio K abandon k d) (λ f, f = Assert) (λ _ _, False) s) as Hwp.
  2:{ unfold wp in Hwp. destruct (decrease_prio _ _ _ _ _); [done|by subst]. }
  unfold decrease_prio. rewrite wp_bind, wp_get, Hg, Hm. simpl. rewrite wp_bind.
  eapply wp_mono; [by apply (add_prio_spec K HK _ _ p e)|done|]. intros ? s1 (Hix1 & _ & Hmin1 & Hmax1).
  rewrite wp_bind. eapply wp_mono; [apply (to_root_kept K abandon HK false); [done|done|simpl in *; rewrite Hmin1; lia]|done|].
  intros ? s2 Hk2.
  assert (0 ≤ 0 < Z.of_nat (length (elems MIN_HEAP s2))) as Hpos.
  { simpl in *. rewrite (kept_min _ _ _ _ Hk2), Hmin1. lia. }
  destruct (element_at K false s2 MIN_HEAP 0 (kept_indexed _ _ _ _ Hk2) ltac:(done) Hpos) as (q & f & Hq & Hf & _).
  rewrite wp_bind, (wp_prio_at _ _ q f), wp_bind by done. unfold prio_at, elem_at, at_.
  assert (max_elems s2 = []) as Hnil.
  { apply length_zero_iff_nil. rewrite (kept_max _ _ _ _ Hk2), Hmax1, Hmax. done. }
  rewrite wp_bind, wp_bind, wp_bind, wp_gets. simpl. rewrite Hnil. exact eq_refl.
Qed.

(** An increase that does not reach the top K is not committed: when it has moved
    an element, the vectors are undone and the index is not, and the index names the
    wrong elements. *)
Theorem uncommitted_increase_breaks_index :
  ∃ rs s, pq_run 1 undo_vectors [Insert 1 9; Insert 2 5; Insert 3 4; Increase 3 2] empty_queue = Ret rs s
    ∧ keymap s !! 3 = Some 1 ∧ ∃ p e, zlookup (max_elems s) (gtol 1 1) = Some p
      ∧ pq_store s !! p = Some e ∧ key e = 2.
Proof.
  do 2 eexists. split; [vm_compute; reflexivity|]. split; [vm_compute; reflexivity|].
  do 2 eexists. split_and!; vm_compute; reflexivity.
Qed.
