(* ===== verification/BTree.v ===== *)
(** The persistent B-tree (pmemds/include/tree/btree/persistent_b_tree.h): leaves and
    inner nodes with two copies of their index, the tree above them, and the repair of
    a split that a crash has interrupted.

    A persistent pointer is an address in the pool's store [nodes], 0 the null pointer.
    The pool's allocator is a parameter: [fresh] chooses an address and [pool_room] is
    the number of nodes that fit; when no more fit, the exception of
    [make_persistent_atomic], which nothing catches, ends the process.  Sizes of and
    positions in nodes are natural numbers: they are at most [slots + 1].  [persist] and
    [flush] have no effect on a run that is not interrupted; BTreeCrash.v has the runs
    that are. *)

From S2P Require Import Prelude.

(** What the tree uses of keys and values: [operator<] and [operator==]. *)
Class Key (A : Type) := { key_ltb : A → A → bool; key_eqb : A → A → bool }.

(** ** Algorithms of the C++ library *)
Section algorithm.
Context {A : Type}.
Implicit Types (l : list A) (p : A → bool).

(** [std::lower_bound]: [p x] is the comparison of [x] with the value sought. *)
Fixpoint lb_loop (fuel : nat) p l (first len : nat) : nat :=
  match fuel with
  | O => first
  | S fuel =>
    if (len =? 0)%nat then first else
    let half := (len / 2)%nat in
    let middle := (first + half)%nat in
    match l !! middle with
    | None => first
    | Some x =>
      if p x then lb_loop fuel p l (S middle) (len - half - 1)%nat
      else lb_loop fuel p l first half
    end
  end.
Definition lower_bound p l : nat := lb_loop (length l) p l 0 (length l).

Fixpoint is_sorted (lt : A → A → bool) l : bool :=
  match l with
  | x :: (y :: _) as l' => negb (lt y x) && is_sorted lt l'
  | _ => true
  end.
(** [std::merge] with a second range of one element. *)
Fixpoint merge (lt : A → A → bool) l (e : A) : list A :=
  match l with
  | [] => [e]
  | x :: l' => if lt e x then e :: l else x :: merge lt l' e
  end.
Fixpoint includes (lt : A → A → bool) l1 l2 : bool :=
  match l2 with
  | [] => true
  | y :: l2' =>
    match l1 with
    | [] => false
    | x :: l1' => if lt y x then false else if lt x y then includes lt l1' l2 else includes lt l1' l2'
    end
  end.
Fixpoint equal (eq : A → A → bool) l1 l2 : bool :=
  match l1, l2 with
  | [], _ => true
  | x :: l1, y :: l2 => eq x y && equal eq l1 l2
  | _, [] => false
  end.

(** [std::copy] of [src] to position [pos] of an array. *)
Definition copy_to {S} (dst : list A) (pos : nat) (src : list A) : M S (list A) :=
  if (pos + length src <=? length dst)%nat
  then mret (take pos dst ++ src ++ drop (pos + length src) dst) else fail UB.
End algorithm.

Section btree.
Context {K V : Type} `{Key K, Key V, Inhabited K, Inhabited V}.
(** [number_entrys_slots], one less than the degree. *)
Context (slots : nat).

Abbreviation value_type := (K * V)%type.
Definition first_lt (a b : value_type) : bool := key_ltb a.1 b.1.
(** [operator<] of pairs. *)
Definition pair_lt (a b : value_type) : bool :=
  key_ltb a.1 b.1 || (negb (key_ltb b.1 a.1) && key_ltb a.2 b.2).

(** ** Leaves *)
Record leaf_entries_t := mk_leaf_entries { idxs : list nat; l_size : nat }.
Record leaf_node_t := mk_leaf {
  l_epoch : Z;
  consistent_id : Z;
  prev : Z;
  next : Z;
  entries : list value_type;
  l_v : list leaf_entries_t;
  p_consistent_id : Z
}.
#[export] Instance leaf_fields : FieldsOf leaf_node_t := λ r,
  mk_leaf (l_epoch r) (consistent_id r) (prev r) (next r) (entries r) (l_v r) (p_consistent_id r).

Section leaf.
Context {S : Type}.
Implicit Types l : leaf_node_t.

Definition new_leaf_entries : leaf_entries_t := mk_leaf_entries (seq 0 slots) 0.
(** A leaf before a constructor's body runs. *)
Definition raw_leaf (e pr nx : Z) : leaf_node_t :=
  mk_leaf e 0 pr nx (replicate slots inhabitant) [new_leaf_entries; new_leaf_entries] 0.

Definition consistent l : M S leaf_entries_t :=
  assert (consistent_id l <? 2) ;; aget (l_v l) (consistent_id l).
Definition working_copy l : M S leaf_entries_t :=
  assert (consistent_id l <? 2) ;; aget (l_v l) (1 - consistent_id l).
Definition leaf_size l : M S nat := c ← consistent l; mret (l_size c).
Definition leaf_full l : M S bool := n ← leaf_size l; mret (n =? slots)%nat.
(** [operator[]]. *)
Definition leaf_at l (pos : nat) : M S value_type :=
  c ← consistent l; i ← deref (idxs c !! pos); deref (entries l !! i).
(** The entries from position [first] to position [last]. *)
Definition leaf_range l (first last : nat) : M S (list value_type) :=
  mapM (leaf_at l) (seq first (last - first)).
Definition leaf_all l : M S (list value_type) := n ← leaf_size l; leaf_range l 0 n.
Definition assert_sorted l : M S () := es ← leaf_all l; assert (is_sorted first_lt es).
Definition leaf_back l : M S value_type :=
  c ← consistent l;
  match l_size c with O => fail UB | Datatypes.S n => i ← deref (idxs c !! n); deref (entries l !! i) end.
(** [find]: a position, the size when the key is not there. *)
Definition leaf_find l (key : K) : M S nat :=
  assert_sorted l ;;
  es ← leaf_all l;
  let it := lower_bound (λ e : value_type, key_ltb e.1 key) es in
  match es !! it with
  | None => mret (length es)
  | Some e => if key_eqb e.1 key then mret it else mret (length es)
  end.
Definition check_consistency (global_epoch : Z) l : leaf_node_t :=
  if negb (global_epoch =? l_epoch l)
  then l <| consistent_id := p_consistent_id l |> <| l_epoch := global_epoch |> else l.

(** Writing the consistent copy, and the working copy. *)
Definition set_consistent l (c : leaf_entries_t) : M S leaf_node_t :=
  w ← aset (l_v l) (consistent_id l) c; mret (l <| l_v := w |>).
Definition set_working l (c : leaf_entries_t) : M S leaf_node_t :=
  w ← aset (l_v l) (1 - consistent_id l) c; mret (l <| l_v := w |>).
Definition switch_consistent l : leaf_node_t :=
  l <| consistent_id := 1 - consistent_id l |> <| p_consistent_id := 1 - consistent_id l |>.

(** The constructors. *)
Definition new_leaf (e : Z) : M S leaf_node_t :=
  let l := raw_leaf e 0 0 in assert_sorted l ;; mret l.
Definition fill_leaf l (es : list value_type) : M S leaf_node_t :=
  d ← copy_to (entries l) 0 es;
  c ← consistent l;
  i ← copy_to (idxs c) 0 (seq 0 (length es));
  set_consistent (l <| entries := d |>) (mk_leaf_entries i (length es)).
Definition copy_leaf (e : Z) (src : leaf_node_t) (first last : nat) (pr nx : Z) : M S leaf_node_t :=
  assert (last - first <=? slots)%nat ;;
  es ← leaf_range src first last;
  l ← fill_leaf (raw_leaf e pr nx) es;
  n ← leaf_size l;
  assert (n =? last - first)%nat ;;
  assert_sorted l ;;
  mret l.
Definition copy_insert_leaf (e : Z) (entry : value_type) (src : leaf_node_t) (first last : nat) (pr nx : Z)
    : M S leaf_node_t :=
  assert (last - first <? slots)%nat ;;
  es ← leaf_range src first last;
  l ← fill_leaf (raw_leaf e pr nx) (merge first_lt es entry);
  n ← leaf_size l;
  assert (n =? last - first + 1)%nat ;;
  es ← leaf_all l;
  assert (match es !! lower_bound (λ e, first_lt e entry) es with
          | Some e => negb (first_lt entry e) | None => false end) ;;
  assert_sorted l ;;
  mret l.

(** [insert_idx] and [remove_idx]: the working copy gets the new index. *)
Definition insert_idx l (new_entry_idx hint : nat) : M S leaf_node_t :=
  c ← consistent l;
  tmp ← working_copy l;
  i ← copy_to (idxs tmp) 0 (take hint (idxs c));
  i ← copy_to i hint [new_entry_idx];
  i ← copy_to i (hint + 1) (drop hint (take (l_size c) (idxs c)));
  set_working l (mk_leaf_entries i (l_size c + 1)).
Definition remove_idx l (it : nat) : M S leaf_node_t :=
  c ← consistent l;
  tmp ← working_copy l;
  i ← copy_to (idxs tmp) 0 (take it (idxs c));
  i ← copy_to i it (drop (it + 1) (take (l_size c) (idxs c)));
  x ← deref (idxs c !! it);
  i ← copy_to i (l_size c - 1) [x];
  set_working l (mk_leaf_entries i (l_size c - 1)).

(** [insert]: the leaf, the position of the entry and whether it is new. *)
Definition leaf_insert l (entry : value_type) : M S (leaf_node_t * nat * bool) :=
  full ← leaf_full l;
  assert (negb full) ;;
  es ← leaf_all l;
  let hint := lower_bound (λ e : value_type, key_ltb e.1 entry.1) es in
  if (if es !! hint is Some e then key_eqb e.1 entry.1 else false) then mret (l, hint, false) else
  c ← consistent l;
  insert_pos ← deref (idxs c !! l_size c);
  assert (forallb (λ i, negb (insert_pos =? i)%nat) (take (l_size c) (idxs c))) ;;
  if (insert_pos <? length (entries l))%nat then
    let l := l <| entries := <[insert_pos := entry]> (entries l) |> in
    l ← insert_idx l insert_pos hint;
    let l := switch_consistent l in
    assert_sorted l ;;
    mret (l, hint, true)
  else fail UB.
Definition leaf_erase l (key : K) : M S (leaf_node_t * nat) :=
  assert_sorted l ;;
  it ← leaf_find l key;
  n ← leaf_size l;
  if (it =? n)%nat then mret (l, 0%nat) else
  l ← remove_idx l it;
  let l := switch_consistent l in
  assert_sorted l ;;
  mret (l, 1%nat).
End leaf.

(** ** Inner nodes *)
Record inner_entries_t := mk_inner_entries { i_entries : list K; children : list Z; i_size : nat }.
Record inner_node_t := mk_inner { level : Z; i_v : list inner_entries_t; i_consistent_id : Z }.
#[export] Instance inner_fields : FieldsOf inner_node_t :=
  λ r, mk_inner (level r) (i_v r) (i_consistent_id r).

Section inner.
Context {S : Type}.
Implicit Types n : inner_node_t.

Definition new_inner_entries : inner_entries_t :=
  mk_inner_entries (replicate slots inhabitant) (replicate (slots + 1) 0) 0.
Definition raw_inner (lv : Z) : inner_node_t := mk_inner lv [new_inner_entries; new_inner_entries] 0.

Definition i_consistent n : M S inner_entries_t :=
  assert (i_consistent_id n <? 2) ;; aget (i_v n) (i_consistent_id n).
Definition i_working_copy n : M S inner_entries_t :=
  assert (i_consistent_id n <? 2) ;; aget (i_v n) (1 - i_consistent_id n).
Definition inner_size n : M S nat := c ← i_consistent n; mret (i_size c).
Definition inner_full n : M S bool := m ← inner_size n; mret (m =? slots)%nat.
Definition keys n : M S (list K) := c ← i_consistent n; mret (take (i_size c) (i_entries c)).
Definition inner_back n : M S K :=
  c ← i_consistent n;
  match i_size c with O => fail UB | Datatypes.S m => deref (i_entries c !! m) end.
Definition assert_keys_sorted n : M S () := ks ← keys n; assert (is_sorted key_ltb ks).
Definition get_left_child n (it : nat) : M S Z := c ← i_consistent n; deref (children c !! it).
Definition get_child n (key : K) : M S Z :=
  ks ← keys n; get_left_child n (lower_bound (λ k, key_ltb k key) ks).

(** The constructors: of a new root, and of a part of a node. *)
Definition root_inner (lv : Z) (key : K) (child_0 child_1 : Z) : M S inner_node_t :=
  let n := raw_inner lv in
  es ← copy_to (i_entries new_inner_entries) 0 [key];
  cs ← copy_to (children new_inner_entries) 0 [child_0; child_1];
  let n := n <| i_v := [mk_inner_entries es cs 1; new_inner_entries] |> in
  assert_keys_sorted n ;;
  mret n.
Definition part_inner (lv : Z) (first last : nat) (src : inner_node_t) : M S inner_node_t :=
  c ← i_consistent src;
  es ← copy_to (i_entries new_inner_entries) 0 (drop first (take last (i_entries c)));
  cs ← copy_to (children new_inner_entries) 0 (drop first (take (last + 1) (children c)));
  let n := raw_inner lv <| i_v := [mk_inner_entries es cs (last - first); new_inner_entries] |> in
  assert_keys_sorted n ;;
  mret n.

(** [update_splitted_child]: the child [splitted_node] is replaced by two. *)
Definition update_splitted_child n (entry : K) (lnode rnode splitted_node : Z) : M S inner_node_t :=
  full ← inner_full n;
  assert (negb full) ;;
  ks ← keys n;
  let pos := lower_bound (λ k, key_ltb k entry) ks in
  c ← i_consistent n;
  w ← i_working_copy n;
  es ← copy_to (i_entries w) 0 (take pos (i_entries c));
  es ← copy_to es pos [entry];
  es ← copy_to es (pos + 1) (drop pos (take (i_size c) (i_entries c)));
  x ← deref (children c !! pos);
  assert (x =? splitted_node) ;;
  cs ← copy_to (children w) 0 (take pos (children c));
  cs ← copy_to cs pos [lnode; rnode];
  cs ← copy_to cs (pos + 2) (drop (pos + 1) (take (i_size c + 1) (children c)));
  iv ← aset (i_v n) (1 - i_consistent_id n) (mk_inner_entries es cs (i_size c + 1));
  let n := n <| i_v := iv |> <| i_consistent_id := 1 - i_consistent_id n |> in
  assert_keys_sorted n ;;
  mret n.
End inner.

(** ** The tree *)
Inductive node_t := Leaf (l : leaf_node_t) | Inner (n : inner_node_t).

Record b_tree := mk_btree {
  epoch : Z;
  root : Z;
  split_node : Z;
  left_node : Z;
  right_node : Z;
  nodes : gmap Z node_t
}.
#[export] Instance btree_fields : FieldsOf b_tree := λ r,
  mk_btree (epoch r) (root r) (split_node r) (left_node r) (right_node r) (nodes r).
Abbreviation T := (M b_tree).

(** [b_tree_base()]. *)
Definition new_btree : b_tree := mk_btree 0 0 0 0 0 ∅.

Context (pool_room : nat) (fresh : gmap Z node_t → Z).

(** The members of the tree that are handed over by reference. *)
Inductive member := ROOT | SPLIT_NODE | LEFT_CHILD | RIGHT_CHILD.
Definition member_of (m : member) (s : b_tree) : Z :=
  match m with
  | ROOT => root s | SPLIT_NODE => split_node s | LEFT_CHILD => left_node s | RIGHT_CHILD => right_node s
  end.
Definition assign_member (m : member) (p : Z) (s : b_tree) : b_tree :=
  match m with
  | ROOT => s <| root := p |> | SPLIT_NODE => s <| split_node := p |>
  | LEFT_CHILD => s <| left_node := p |> | RIGHT_CHILD => s <| right_node := p |>
  end.
Definition assignment (lhs : member) (rhs : Z) : T () := modify (assign_member lhs rhs).

(** Nodes behind pointers; a cast to the other class of node is undefined. *)
Definition node_at (p : Z) : T node_t := s ← get; deref (nodes s !! p).
Definition cast_leaf (p : Z) : T leaf_node_t :=
  n ← node_at p; match n with Leaf l => mret l | Inner _ => fail UB end.
Definition cast_inner (p : Z) : T inner_node_t :=
  n ← node_at p; match n with Inner i => mret i | Leaf _ => fail UB end.
Definition store (p : Z) (n : node_t) : T () := modify (λ s, s <| nodes := <[p := n]> (nodes s) |>).
Definition node_level (n : node_t) : Z := match n with Leaf _ => 0 | Inner i => level i end.
Definition is_leaf (n : node_t) : bool := node_level n =? 0.

(** An uncaught exception: the process is aborted. *)
Definition bad_alloc : fault := Exit 134.
Definition allocate (m : member) (n : node_t) : T () :=
  s ← get;
  if (size (nodes s) <? pool_room)%nat then
    let p := fresh (nodes s) in
    modify (λ s, assign_member m p (s <| nodes := <[p := n]> (nodes s) |>))
  else fail bad_alloc.
Definition deallocate (m : member) : T () :=
  s ← get;
  if member_of m s =? 0 then mret tt else
  node_at (member_of m s) ;;
  modify (λ s, assign_member m 0 (s <| nodes := delete (member_of m s) (nodes s) |>)).

(** *** Descending *)

(** The depth of a tree is below the number of its nodes. *)
Definition depth_fuel (s : b_tree) : nat := S (size (nodes s)).
Definition check_leaf (p : Z) : T () :=
  l ← cast_leaf p; s ← get; store p (Leaf (check_consistency (epoch s) l)).

Fixpoint descend (fuel : nat) (child : inner_node_t → T Z) (node : Z) (path : list Z) : T (Z * list Z) :=
  n ← node_at node;
  if is_leaf n then mret (node, path) else
  match fuel with
  | O => fail Hang
  | S fuel =>
    inner ← cast_inner node;
    c ← child inner;
    descend fuel child c (path ++ [node])
  end.
Definition find_leaf_node (key : K) : T Z :=
  s ← get;
  if root s =? 0 then mret 0 else
  '(node, _) ← descend (depth_fuel s) (λ n, get_child n key) (root s) [];
  check_leaf node ;; mret node.
Definition find_leaf_to_insert (key : K) : T (Z * list Z) :=
  s ← get;
  assert (negb (root s =? 0)) ;;
  '(node, path) ← descend (depth_fuel s) (λ n, get_child n key) (root s) [];
  check_leaf node ;; mret (node, path).
Definition leftmost_leaf : T Z :=
  s ← get;
  if root s =? 0 then mret 0 else
  '(node, _) ← descend (depth_fuel s) (λ n, get_left_child n 0) (root s) [];
  check_leaf node ;; mret node.
Definition rightmost_leaf : T Z :=
  s ← get;
  if root s =? 0 then mret 0 else
  '(node, _) ← descend (depth_fuel s) (λ n, m ← inner_size n; get_left_child n m) (root s) [];
  check_leaf node ;; mret node.
(** [find_full_node]: the position in the path of the lowest node that is not full, or
    of the root. *)
Fixpoint find_full_node (path : list Z) (i : nat) : T nat :=
  match i with
  | O => mret O
  | S i' =>
    p ← deref (path !! i);
    n ← cast_inner p;
    full ← inner_full n;
    if full : bool then find_full_node path i' else mret i
  end.

(** *** Splitting *)
Definition create_new_root (key : K) (l_child r_child : Z) : T () :=
  assert (negb (l_child =? 0)) ;;
  assert (negb (r_child =? 0)) ;;
  s ← get;
  assert (split_node s =? root s) ;;
  r ← node_at (root s);
  n ← root_inner (u64 (node_level r + 1)) key l_child r_child;
  allocate ROOT (Inner n).
(** The parent, 0 for none, gets the two halves of [split_node]. *)
Definition replace_child (parent_node : Z) (key : K) : T () :=
  s ← get;
  n ← cast_inner parent_node;
  n ← update_splitted_child n key (left_node s) (right_node s) (split_node s);
  store parent_node (Inner n).

Definition split_half (node : Z) : T K :=
  s ← get;
  assert (split_node s =? node) ;;
  inner ← cast_inner node;
  sz ← inner_size inner;
  let middle := (sz / 2)%nat in
  l ← part_inner (level inner) 0 middle inner;
  allocate LEFT_CHILD (Inner l) ;;
  r ← part_inner (level inner) (middle + 1) sz inner;
  allocate RIGHT_CHILD (Inner r) ;;
  assert (middle <? sz)%nat ;;
  ks ← keys inner;
  deref (ks !! middle).
Definition split_inner_node (src_node parent_node : Z) : T () :=
  s ← get;
  assert (split_node s =? 0) ;;
  assignment SPLIT_NODE src_node ;;
  key ← split_half src_node;
  (if negb (parent_node =? 0) then replace_child parent_node key
   else
     s ← get;
     assert (root s =? split_node s) ;;
     create_new_root key (left_node s) (right_node s)) ;;
  deallocate SPLIT_NODE.

Definition set_next (p q : Z) : T () := l ← cast_leaf p; store p (Leaf (l <| next := q |>)).
Definition set_prev (p q : Z) : T () := l ← cast_leaf p; store p (Leaf (l <| prev := q |>)).
Definition correct_leaf_node_links (src_node left right : Z) : T () :=
  current ← cast_leaf src_node;
  when (negb (prev current =? 0)) (set_next (prev current) left) ;;
  current ← cast_leaf src_node;
  when (negb (next current =? 0)) (set_prev (next current) right).

(** The two halves of a full leaf, one of them with the new entry; its address. *)
Definition allocate_halves (split_leaf : leaf_node_t) (entry : value_type) : T Z :=
  sz ← leaf_size split_leaf;
  let middle := (sz / 2)%nat in
  m ← leaf_at split_leaf middle;
  s ← get;
  if key_ltb entry.1 m.1 then
    l ← copy_insert_leaf (epoch s) entry split_leaf 0 middle (prev split_leaf) 0;
    allocate LEFT_CHILD (Leaf l) ;;
    s ← get;
    r ← copy_leaf (epoch s) split_leaf middle sz (left_node s) (next split_leaf);
    allocate RIGHT_CHILD (Leaf r) ;;
    gets left_node
  else
    l ← copy_leaf (epoch s) split_leaf 0 middle (prev split_leaf) 0;
    allocate LEFT_CHILD (Leaf l) ;;
    s ← get;
    r ← copy_insert_leaf (epoch s) entry split_leaf middle sz (left_node s) (next split_leaf);
    allocate RIGHT_CHILD (Leaf r) ;;
    gets right_node.
(** The beginning of a split, up to the assignment of [split_node]. *)
Definition split_leaf_begin (src_node : Z) : T leaf_node_t :=
  split_leaf ← cast_leaf src_node;
  full ← leaf_full split_leaf;
  assert full ;;
  assignment SPLIT_NODE src_node ;;
  mret split_leaf.
Definition split_leaf_rest (parent_node src_node : Z) (entry : value_type) (split_leaf : leaf_node_t)
    : T (Z * nat) :=
  insert_node ← allocate_halves split_leaf entry;
  s ← get;
  set_next (left_node s) (right_node s) ;;
  correct_leaf_node_links src_node (left_node s) (right_node s) ;;
  l ← cast_leaf (left_node s);
  b ← leaf_back l;
  (if negb (parent_node =? 0) then replace_child parent_node b.1
   else create_new_root b.1 (left_node s) (right_node s)) ;;
  deallocate SPLIT_NODE ;;
  l ← cast_leaf insert_node;
  it ← leaf_find l entry.1;
  n ← leaf_size l;
  assert (negb (it =? n)%nat) ;;
  e ← leaf_at l it;
  assert (key_eqb e.1 entry.1) ;;
  assert (key_eqb e.2 entry.2) ;;
  mret (insert_node, it).
Definition split_leaf_node (parent_node src_node : Z) (entry : value_type) : T (Z * nat) :=
  split_leaf ← split_leaf_begin src_node; split_leaf_rest parent_node src_node entry split_leaf.

(** *** Operations *)

(** The loop that splits the full nodes of the path below [parent_node]. *)
Fixpoint split_path (path : list Z) (parent_node : Z) (key : K) : T Z :=
  match path with
  | [] => mret parent_node
  | p :: path =>
    split_inner_node p parent_node ;;
    n ← cast_inner parent_node;
    c ← get_child n key;
    split_path path c key
  end.
Definition insert_descend (entry : value_type) : T (Z * nat * bool) :=
  let key := entry.1 in
  '(node, path) ← find_leaf_to_insert key;
  leaf ← cast_leaf node;
  full ← leaf_full leaf;
  if full : bool then
    it ← leaf_find leaf key;
    n ← leaf_size leaf;
    if negb (it =? n)%nat then mret (node, it, false) else
    match path with
    | [] => '(p, it) ← split_leaf_node 0 node entry; mret (p, it, true)
    | _ =>
      i ← find_full_node path (length path - 1);
      p ← deref (path !! i);
      inner ← cast_inner p;
      full ← inner_full inner;
      (if full : bool then
         split_inner_node p 0 ;;
         s ← get;
         r ← cast_inner (root s);
         get_child r key
       else mret p) ≫= λ parent_node,
      parent_node ← split_path (drop (i + 1) path) parent_node key;
      '(p, it) ← split_leaf_node parent_node node entry;
      mret (p, it, true)
    end
  else
    '(l, it, isnew) ← leaf_insert leaf entry;
    store node (Leaf l) ;;
    mret (node, it, isnew).
Definition insert (entry : value_type) : T (Z * nat * bool) :=
  s ← get;
  when (root s =? 0) (l ← new_leaf (epoch s); allocate ROOT (Leaf l)) ;;
  s ← get;
  assert (negb (root s =? 0)) ;;
  insert_descend entry.

(** Iterators: a leaf and a position in it; the leaf is null in an empty tree. *)
Definition end_ : T (Z * nat) :=
  p ← rightmost_leaf;
  if p =? 0 then mret (0, O) else l ← cast_leaf p; n ← leaf_size l; mret (p, n).
Definition begin_ : T (Z * nat) := p ← leftmost_leaf; mret (p, O).
Definition find (key : K) : T (Z * nat) :=
  p ← find_leaf_node key;
  if p =? 0 then end_ else
  l ← cast_leaf p;
  it ← leaf_find l key;
  n ← leaf_size l;
  if (it =? n)%nat then end_ else mret (p, it).
Definition erase (key : K) : T nat :=
  p ← find_leaf_node key;
  if p =? 0 then mret O else
  l ← cast_leaf p;
  '(l, r) ← leaf_erase l key;
  store p (Leaf l) ;;
  mret r.
(** [operator++]. *)
Definition it_next (it : Z * nat) : T (Z * nat) :=
  let '(p, i) := it in
  l ← cast_leaf p;
  n ← leaf_size l;
  if (S i =? n)%nat && negb (next l =? 0) then mret (next l, O) else mret (p, S i).
Definition it_deref (it : Z * nat) : T value_type := l ← cast_leaf it.1; leaf_at l it.2.
(** Assigning the value of an entry through an iterator. *)
Definition it_assign (it : Z * nat) (x : V) : T () :=
  l ← cast_leaf it.1;
  c ← consistent l;
  i ← deref (idxs c !! it.2);
  e ← deref (entries l !! i);
  store it.1 (Leaf (l <| entries := <[i := (e.1, x)]> (entries l) |>)).

(** *** Repair after a crash *)
Definition is_left_node (src lnode : leaf_node_t) : T bool :=
  n ← leaf_size src;
  a ← leaf_all lnode;
  b ← leaf_range src 0 (n / 2);
  mret (includes pair_lt a b).
Definition is_right_node (src rnode : leaf_node_t) : T bool :=
  n ← leaf_size src;
  a ← leaf_all rnode;
  b ← leaf_range src (n / 2) n;
  mret (includes pair_lt a b).

Definition repair_leaf_split : T () :=
  s ← get;
  assert (negb (root s =? 0)) ;;
  split_leaf ← cast_leaf (split_node s);
  b ← leaf_back split_leaf;
  '(found_node, path) ← find_leaf_to_insert b.1;
  p0 ← deref (path !! O);
  assert (p0 =? root s) ;;
  s ← get;
  (if split_node s =? found_node then
     split_leaf ← cast_leaf (split_node s);
     (if left_node s =? 0 then mret false
      else lnode ← cast_leaf (left_node s); is_left_node split_leaf lnode) ≫= λ left : bool,
     if left then
       (if right_node s =? 0 then mret false
        else rnode ← cast_leaf (right_node s); is_right_node split_leaf rnode) ≫= λ right : bool,
       if right then
         set_next (left_node s) (right_node s) ;;
         correct_leaf_node_links (split_node s) (left_node s) (right_node s) ;;
         lnode ← cast_leaf (left_node s);
         b ← leaf_back lnode;
         match last path with
         | Some parent_node => replace_child parent_node b.1
         | None => create_new_root b.1 (left_node s) (right_node s)
         end
       else deallocate LEFT_CHILD
     else mret tt
   else deallocate SPLIT_NODE) ;;
  assignment SPLIT_NODE 0.

(** Whether a half of [inner] was written to the node at [p]: its keys are those of
    the half.  The comparison reads on in the array of the node. *)
Definition has_half (half : list K) (p : Z) : T bool :=
  if p =? 0 then mret false else
  n ← node_at p;
  if is_leaf n then mret false else
  i ← cast_inner p;
  c ← i_consistent i;
  mret (equal key_eqb half (i_entries c)).
Definition repair_inner_split : T () :=
  s ← get;
  assert (negb (root s =? 0)) ;;
  r ← node_at (root s);
  assert (negb (is_leaf r)) ;;
  inner ← cast_inner (split_node s);
  key ← inner_back inner;
  '(_, path) ← find_leaf_to_insert key;
  p0 ← deref (path !! O);
  assert (p0 =? root s) ;;
  r ← cast_inner p0;
  assert (level inner <=? level r) ;;
  q ← deref (path !! Z.to_nat (level r - level inner));
  s ← get;
  (if split_node s =? q then
     sz ← inner_size inner;
     ks ← keys inner;
     l ← has_half (take (sz / 2) ks) (left_node s);
     when l (deallocate LEFT_CHILD) ;;
     r ← has_half (drop (sz / 2 + 1) ks) (right_node s);
     when r (deallocate RIGHT_CHILD)
   else deallocate SPLIT_NODE) ;;
  assignment SPLIT_NODE 0.
Definition garbage_collection : T () :=
  modify (λ s, s <| epoch := u64 (epoch s + 1) |>) ;;
  s ← get;
  if split_node s =? 0 then mret tt else
  n ← node_at (split_node s);
  if is_leaf n then repair_leaf_split else repair_inner_split.
End btree.
