(* ===== verification/BTreeNode.v ===== *)
(** The nodes of the B-tree: what a leaf and an inner node hold, and what the routines
    of persistent_b_tree.h on one node do to it.

    A leaf keeps two copies of its index and switches between them.  The slots that are
    free are not stored anywhere: they are spread over the unused parts of both copies,
    one from each in turn ([alternate]), and every insertion and removal keeps it so. *)

From stdpp Require Import sorting.
From S2P Require Import Prelude BTree.

Class KeyLaws (A : Type) `{Key A} := {
  key_irrefl (a : A) : key_ltb a a = false;
  key_trans (a b c : A) : key_ltb a b = true → key_ltb b c = true → key_ltb a c = true;
  key_total (a b : A) : key_ltb a b = false → key_ltb b a = false → a = b;
  key_eqb_iff (a b : A) : key_eqb a b = true ↔ a = b
}.

(** Values are only compared for equality. *)
Class KeyEq (A : Type) `{Key A} := key_eqb_same (a : A) : key_eqb a a = true.

(** ** Computations that only read *)
Definition returns {S A} (m : M S A) (a : A) : Prop := ∀ s, m s = Ret a s.

Section returns.
Context {S : Type}.
Lemma wp_returns {A} (m : M S A) a E Q s : returns m a → wp m E Q s ↔ Q a s.
Proof. intros Hm. unfold wp. by rewrite Hm. Qed.
Lemma wp_bind_returns {A B} (m : M S A) (g : A → M S B) a E Q s :
  returns m a → wp (m ≫= g) E Q s ↔ wp (g a) E Q s.
Proof. intros Hm. by rewrite wp_bind, (wp_returns _ _ _ _ _ Hm). Qed.
Lemma returns_ret {A} (a : A) : returns (mret a : M S A) a.
Proof. done. Qed.
Lemma returns_bind {A B} (m : M S A) (k : A → M S B) a b :
  returns m a → returns (k a) b → returns (m ≫= k) b.
Proof. intros Hm Hk s. unfold mbind, M_bind. by rewrite Hm. Qed.
Lemma returns_assert b : b = true → returns (assert b : M S ()) tt.
Proof. by intros ->. Qed.
Lemma returns_deref {A} (o : option A) a : o = Some a → returns (deref o : M S A) a.
Proof. by intros ->. Qed.
Lemma returns_aget {A} (l : list A) i a : zlookup l i = Some a → returns (aget l i : M S A) a.
Proof. unfold aget. by intros ->. Qed.
Lemma returns_aset {A} (l : list A) i a :
  0 ≤ i < Z.of_nat (length l) → returns (aset l i a : M S (list A)) (zinsert l i a).
Proof. intros Hi s. unfold aset, in_range. by replace (_ && _) with true by lia. Qed.
Lemma returns_copy {A} (d : list A) pos src :
  (pos + length src ≤ length d)%nat →
  returns (copy_to d pos src : M S (list A)) (take pos d ++ src ++ drop (pos + length src) d).
Proof. intros Hl s. unfold copy_to. by rewrite (proj2 (Nat.leb_le _ _) Hl). Qed.
Lemma returns_mapM {A B} (f : A → M S B) l k :
  Forall2 (λ x y, returns (f x) y) l k → returns (mapM f l) k.
Proof.
  induction 1 as [|x y l k Hx _ IH]; [done|]. simpl.
  eapply returns_bind; [exact Hx|]. eapply returns_bind; [exact IH|]. done.
Qed.
End returns.

Ltac returns_step lem := eapply returns_bind; [eapply lem; eauto|].

(** ** Order and searching *)
Section order.
Context {K : Type} `{KeyLaws K}.
Implicit Types (k : K) (ks : list K).

Definition key_lt k k' : Prop := key_ltb k k' = true.
Definition key_le k k' : Prop := key_ltb k' k = false.
#[export] Instance key_lt_trans : Transitive key_lt.
Proof. intros a b c. apply key_trans. Qed.

Lemma key_lt_irrefl k : ¬ key_lt k k.
Proof. unfold key_lt. by rewrite key_irrefl. Qed.
Lemma key_lt_le k k' : key_lt k k' → key_le k k'.
Proof.
  unfold key_lt, key_le. intros Hk. destruct (key_ltb k' k) eqn:Hk'; [|done].
  pose proof (key_trans _ _ _ Hk Hk') as Hc. by rewrite key_irrefl in Hc.
Qed.
Lemma key_le_lt_trans a b c : key_le a b → key_lt b c → key_lt a c.
Proof.
  unfold key_le, key_lt. intros Hab Hbc. destruct (key_ltb a b) eqn:Hb; [by eapply key_trans|].
  by rewrite (key_total _ _ Hb Hab).
Qed.
Lemma key_lt_le_trans a b c : key_lt a b → key_le b c → key_lt a c.
Proof.
  unfold key_le, key_lt. intros Hab Hbc. destruct (key_ltb b c) eqn:Hb; [by eapply key_trans|].
  by rewrite <- (key_total _ _ Hb Hbc).
Qed.
Lemma key_le_cases a b : key_le a b → key_lt a b ∨ a = b.
Proof. unfold key_le, key_lt. intros Hab. destruct (key_ltb a b) eqn:Hb; [by left|right; by apply key_total]. Qed.
Lemma key_lt_not_le a b : key_lt a b → ¬ key_le b a.
Proof. unfold key_lt, key_le. congruence. Qed.
Lemma key_lt_ne a b : key_lt a b → a ≠ b.
Proof. intros Hab ->. by apply key_lt_irrefl in Hab. Qed.
Lemma key_eqb_refl k : key_eqb k k = true.
Proof. by apply key_eqb_iff. Qed.
Lemma key_eqb_ne k k' : k ≠ k' → key_eqb k k' = false.
Proof. intros Hk. destruct (key_eqb k k') eqn:He; [|done]. by apply key_eqb_iff in He. Qed.

Definition ksorted ks : Prop := StronglySorted key_lt ks.

Lemma ksorted_app ks1 ks2 :
  ksorted (ks1 ++ ks2) ↔ ksorted ks1 ∧ ksorted ks2 ∧ ∀ a b, a ∈ ks1 → b ∈ ks2 → key_lt a b.
Proof. unfold ksorted. rewrite StronglySorted_app. naive_solver. Qed.
Lemma ksorted_is_sorted {A} (f : A → K) (l : list A) :
  ksorted (f <$> l) → is_sorted (λ a b, key_ltb (f a) (f b)) l = true.
Proof.
  unfold ksorted. induction l as [|x [|y l] IH]; [done..|]. intros [Hs Hx]%StronglySorted_inv.
  change (negb (key_ltb (f y) (f x)) && is_sorted (λ a b, key_ltb (f a) (f b)) (y :: l) = true).
  rewrite (IH Hs), andb_true_r. apply Forall_cons in Hx as [Hx _].
  apply key_lt_le in Hx. unfold key_le in Hx. by rewrite Hx.
Qed.
Lemma ksorted_NoDup ks : ksorted ks → NoDup ks.
Proof.
  induction ks as [|k ks IH]; [constructor|]. intros [Hs Hk]%StronglySorted_inv.
  constructor; [|by apply IH]. intros Hin. eapply Forall_forall in Hk; [|exact Hin]. by apply key_lt_irrefl in Hk.
Qed.

Lemma lb_loop_spec {A} (p : A → bool) (l1 l2 : list A) fuel first len :
  (∀ x, x ∈ l1 → p x = true) → (∀ x, x ∈ l2 → p x = false) →
  (first ≤ length l1 ≤ first + len)%nat → (first + len ≤ length (l1 ++ l2))%nat → (len ≤ fuel)%nat →
  lb_loop fuel p (l1 ++ l2) first len = length l1.
Proof.
  intros H1 H2. revert first len. induction fuel as [|fuel IH]; intros first len Hf Hl Hfu; cbn [lb_loop]; [lia|].
  destruct (Nat.eqb_spec len 0); [lia|].
  pose proof (Nat.div_lt len 2 ltac:(lia) ltac:(lia)). set (half := (len / 2)%nat) in *. clearbody half.
  destruct ((l1 ++ l2) !! (first + half)%nat) as [x|] eqn:Hx.
  2:{ apply lookup_ge_None in Hx. lia. }
  apply lookup_app_Some in Hx as [Hx|[Hge Hx]].
  - rewrite H1 by by eapply list_elem_of_lookup_2. apply lookup_lt_Some in Hx. apply IH; lia.
  - rewrite H2 by by eapply list_elem_of_lookup_2. apply IH; lia.
Qed.
Lemma lower_bound_spec {A} (p : A → bool) (l1 l2 : list A) :
  (∀ x, x ∈ l1 → p x = true) → (∀ x, x ∈ l2 → p x = false) → lower_bound p (l1 ++ l2) = length l1.
Proof. intros H1 H2. apply lb_loop_spec; try done; rewrite length_app; lia. Qed.

(** A sorted list is cut at a key. *)
Lemma sorted_cut {A} (f : A → K) (l : list A) k :
  ksorted (f <$> l) →
  ∃ l1 l2, l = l1 ++ l2 ∧ (∀ x, x ∈ l1 → key_lt (f x) k) ∧ (∀ x, x ∈ l2 → key_le k (f x))
           ∧ lower_bound (λ x, key_ltb (f x) k) l = length l1.
Proof.
  intros Hs.
  assert (∃ l1 l2, l = l1 ++ l2 ∧ (∀ x, x ∈ l1 → key_lt (f x) k) ∧ (∀ x, x ∈ l2 → key_le k (f x))) as (l1 & l2 & -> & H1 & H2).
  2:{ exists l1, l2. split_and!; [done..|]. by apply lower_bound_spec. }
  induction l as [|x l IH]; [exists [], []; split_and!; by try intros ? ?%elem_of_nil|].
  simpl in Hs. apply StronglySorted_inv in Hs as [Hs Hx]. destruct (IH Hs) as (l1 & l2 & -> & H1 & H2).
  destruct (key_ltb (f x) k) eqn:Hk.
  - exists (x :: l1), l2. split_and!; [done| |done]. intros y [->|Hy]%elem_of_cons; [done|by apply H1].
  - exists [], (x :: l1 ++ l2). split_and!; [done|by intros ? ?%elem_of_nil|].
    intros y [->|Hy]%elem_of_cons; [done|]. apply key_lt_le. eapply key_le_lt_trans; [exact Hk|].
    eapply Forall_forall in Hx; [exact Hx|]. by apply list_elem_of_fmap_2.
Qed.
(** When the key is there, it is the first element of the second part. *)
Lemma cut_head {A} (f : A → K) (l1 l2 : list A) k :
  ksorted (f <$> l1 ++ l2) → (∀ x, x ∈ l1 → key_lt (f x) k) → (∀ x, x ∈ l2 → key_le k (f x)) →
  (∃ x l2', l2 = x :: l2' ∧ f x = k) ∨ (k ∉ f <$> l1 ++ l2 ∧ ∀ x, x ∈ l2 → key_lt k (f x)).
Proof.
  rewrite fmap_app. intros (_ & Hs & _)%ksorted_app H1 H2.
  assert ((∃ x l2', l2 = x :: l2' ∧ f x = k) ∨ ∀ x, x ∈ l2 → key_lt k (f x)) as [Hl|Hr]; [|by left|].
  - destruct l2 as [|x l2]; [right; by intros ? ?%elem_of_nil|].
    simpl in Hs. apply StronglySorted_inv in Hs as [_ Hx].
    destruct (key_le_cases _ _ (H2 x ltac:(by apply elem_of_cons; left))) as [Hlt|Heq]; [right|left; by exists x, l2].
    intros y [->|Hy]%elem_of_cons; [done|]. etrans; [exact Hlt|].
    eapply Forall_forall in Hx; [exact Hx|]. by apply list_elem_of_fmap_2.
  - right. split; [|done]. rewrite elem_of_app, !list_elem_of_fmap. intros [(x & -> & Hx)|(x & -> & Hx)].
    + by apply H1, key_lt_irrefl in Hx.
    + by apply Hr, key_lt_irrefl in Hx.
Qed.

Lemma merge_cut {A} (f : A → K) (l1 l2 : list A) e :
  (∀ x, x ∈ l1 → key_lt (f x) (f e)) → (∀ x, x ∈ l2 → key_lt (f e) (f x)) →
  merge (λ a b, key_ltb (f a) (f b)) (l1 ++ l2) e = l1 ++ e :: l2.
Proof.
  intros H1 H2. induction l1 as [|x l1 IH]; simpl.
  - destruct l2 as [|y l2]; [done|]. simpl. by rewrite (H2 y) by (by apply elem_of_cons; left).
  - assert (key_le (f x) (f e)) as Hx by (apply key_lt_le, H1; by apply elem_of_cons; left).
    unfold key_le in Hx. rewrite Hx, IH; [done|]. intros y Hy. apply H1. by apply elem_of_cons; right.
Qed.
End order.

(** ** Slots in use and free slots *)

(** The entries of two lists in turn, beginning with the first or with the second. *)
Fixpoint alternate (b : bool) (l : list (nat * nat)) : list nat :=
  match l with
  | [] => []
  | (x, y) :: l => (if b then x else y) :: alternate (negb b) l
  end.
Lemma alternate_swap b (l k : list nat) : alternate b (zip l k) = alternate (negb b) (zip k l).
Proof.
  revert b k. induction l as [|x l IH]; intros b [|y k]; simpl; [done..|]. rewrite IH. by destruct b.
Qed.
(** The free slots, of the copies [c] and [w] with [n] slots in use. *)
Definition free (c w : list nat) (n : nat) : list nat := alternate true (zip (drop n c) (drop n w)).

Lemma free_insert c w front n x :
  (n < length w)%nat → length front = S n → c !! n = Some x →
  free c w n = x :: free (front ++ drop (S n) w) c (S n).
Proof.
  intros Hw Hf Hx. destruct (lookup_lt_is_Some_2 w n Hw) as [y Hy].
  unfold free. rewrite (drop_S _ _ _ Hx), (drop_S _ _ _ Hy), <- Hf, drop_app_length.
  simpl. by rewrite alternate_swap.
Qed.
Lemma free_erase c w front n x :
  (n < length c)%nat → length front = n →
  free (front ++ x :: drop (S n) w) c n = x :: free c w (S n).
Proof.
  intros Hc Hf. destruct (lookup_lt_is_Some_2 c n Hc) as [z Hz].
  unfold free. rewrite (drop_S _ _ _ Hz), <- Hf, drop_app_length, Hf. simpl. by rewrite alternate_swap.
Qed.

Section nodes.
Context {K V : Type} `{!Key K, !KeyLaws K, !Key V, !Inhabited K, !Inhabited V}.
Context (slots : nat).
Abbreviation leaf := (leaf_node_t (K:=K) (V:=V)).
Implicit Types (l : leaf) (kvs : list (K * V)) (c w : leaf_entries_t).

(** ** Leaves *)
Record index_ok (es : list (K * V)) c w kvs : Prop := {
  lx_len : length (idxs c) = slots;
  lx_len_w : length (idxs w) = slots;
  lx_size : l_size c = length kvs;
  lx_perm : take (length kvs) (idxs c) ++ free (idxs c) (idxs w) (length kvs) ≡ₚ seq 0 slots;
  lx_at : Forall2 (λ i e, es !! i = Some e) (take (length kvs) (idxs c)) kvs
}.
(** [c] is the consistent copy, [w] the working copy. *)
Definition versions l c w : Prop :=
  (consistent_id l = 0 ∧ l_v l = [c; w]) ∨ (consistent_id l = 1 ∧ l_v l = [w; c]).
Record leaf_ok l kvs : Prop := {
  lf_entries : length (entries l) = slots;
  lf_id : p_consistent_id l = consistent_id l;
  lf_sorted : ksorted kvs.*1;
  lf_index : ∃ c w, versions l c w ∧ index_ok (entries l) c w kvs
}.

Lemma index_len es c w kvs : index_ok es c w kvs → (length kvs ≤ slots)%nat.
Proof.
  intros Hix. pose proof (Forall2_length _ _ _ (lx_at _ _ _ _ Hix)) as Hl.
  rewrite length_take, (lx_len _ _ _ _ Hix) in Hl. lia.
Qed.
Lemma leaf_len l kvs : leaf_ok l kvs → (length kvs ≤ slots)%nat.
Proof. intros [_ _ _ (c & w & _ & Hix)]. by eapply index_len. Qed.

(** Other fields do not matter. *)
Lemma leaf_ok_fields l l' kvs :
  leaf_ok l kvs → entries l' = entries l → l_v l' = l_v l → consistent_id l' = consistent_id l →
  p_consistent_id l' = p_consistent_id l → leaf_ok l' kvs.
Proof.
  intros [He Hp Hs (c & w & Hv & Hix)] H1 H2 H3 H4. split; [congruence|congruence|done|].
  exists c, w. unfold versions in *. rewrite H1, H2, H3. done.
Qed.

Section reading.
Context {S : Type}.

Lemma consistent_returns l c w : versions l c w → returns (consistent l : M S _) c.
Proof. intros [[Hi Hv]|[Hi Hv]] s; unfold consistent; by rewrite Hi, Hv. Qed.
Lemma working_returns l c w : versions l c w → returns (working_copy l : M S _) w.
Proof. intros [[Hi Hv]|[Hi Hv]] s; unfold working_copy; by rewrite Hi, Hv. Qed.

Lemma leaf_size_returns l kvs : leaf_ok l kvs → returns (leaf_size l : M S _) (length kvs).
Proof.
  intros [_ _ _ (c & w & Hv & Hix)]. returns_step @consistent_returns.
  rewrite (lx_size _ _ _ _ Hix). apply returns_ret.
Qed.
Lemma leaf_full_returns l kvs :
  leaf_ok l kvs → returns (leaf_full slots l : M S _) (length kvs =? slots)%nat.
Proof. intros Hl. returns_step leaf_size_returns. apply returns_ret. Qed.

Lemma index_at es c w kvs pos e :
  index_ok es c w kvs → kvs !! pos = Some e → ∃ i, idxs c !! pos = Some i ∧ es !! i = Some e.
Proof.
  intros Hix He. destruct (Forall2_lookup_r _ _ _ _ _ (lx_at _ _ _ _ Hix) He) as (i & Hi & Hes).
  exists i. split; [|done]. apply lookup_lt_Some in He. by rewrite lookup_take_lt in Hi.
Qed.
Lemma leaf_at_returns l kvs pos e :
  leaf_ok l kvs → kvs !! pos = Some e → returns (leaf_at l pos : M S _) e.
Proof.
  intros [_ _ _ (c & w & Hv & Hix)] He. destruct (index_at _ _ _ _ _ _ Hix He) as (i & Hi & Hes).
  returns_step @consistent_returns. returns_step @returns_deref. by apply returns_deref.
Qed.
Lemma leaf_range_returns l kvs a b :
  leaf_ok l kvs → (b ≤ length kvs)%nat → returns (leaf_range l a b : M S _) (drop a (take b kvs)).
Proof.
  intros Hl Hb. apply returns_mapM, Forall2_same_length_lookup. split.
  - rewrite length_seq, length_drop, length_take.
    lia.
  - intros i x y [-> Hi]%lookup_seq Hy. rewrite lookup_drop in Hy.
    apply lookup_take_Some in Hy as [Hy _]. by eapply leaf_at_returns.
Qed.
Lemma leaf_all_returns l kvs : leaf_ok l kvs → returns (leaf_all l : M S _) kvs.
Proof.
  intros Hl. returns_step leaf_size_returns.
  rewrite <- (take_ge kvs (length kvs)) at 2 by lia. rewrite <- (drop_0 (take _ _)). by apply leaf_range_returns.
Qed.
Lemma assert_sorted_returns l kvs : leaf_ok l kvs → returns (assert_sorted l : M S _) tt.
Proof.
  intros Hl. returns_step leaf_all_returns. apply returns_assert.
  apply (ksorted_is_sorted fst). by apply lf_sorted in Hl.
Qed.
Lemma leaf_back_returns l kvs e : leaf_ok l (kvs ++ [e]) → returns (leaf_back l : M S _) e.
Proof.
  intros [_ _ _ (c & w & Hv & Hix)]. returns_step @consistent_returns.
  rewrite (lx_size _ _ _ _ Hix), length_app, Nat.add_1_r.
  destruct (index_at _ _ _ _ (length kvs) e Hix) as (i & Hi & Hes); [by apply list_lookup_middle|].
  returns_step @returns_deref. by apply returns_deref.
Qed.
(** Finding a key: the two cases. *)
Lemma leaf_find_there l kvs1 e kvs2 :
  leaf_ok l (kvs1 ++ e :: kvs2) → returns (leaf_find l e.1 : M S _) (length kvs1).
Proof.
  intros Hl. returns_step assert_sorted_returns. returns_step leaf_all_returns.
  pose proof (lf_sorted _ _ Hl) as Hs. rewrite fmap_app in Hs. apply ksorted_app in Hs as (_ & Hs & Hlt).
  simpl in Hs. apply StronglySorted_inv in Hs as [_ He].
  cbv zeta. rewrite lower_bound_spec.
  - rewrite list_lookup_middle by done. rewrite key_eqb_refl. apply returns_ret.
  - intros x Hx. apply Hlt; [by apply list_elem_of_fmap_2|by apply elem_of_cons; left].
  - intros x [->|Hx]%elem_of_cons; [apply key_irrefl|]. apply key_lt_le.
    eapply Forall_forall in He; [exact He|by apply list_elem_of_fmap_2].
Qed.
Lemma leaf_find_absent l kvs k :
  leaf_ok l kvs → k ∉ kvs.*1 → returns (leaf_find l k : M S _) (length kvs).
Proof.
  intros Hl Hk. returns_step assert_sorted_returns. returns_step leaf_all_returns.
  cbv zeta. destruct (kvs !! _) as [e|] eqn:He; [|apply returns_ret].
  rewrite key_eqb_ne; [apply returns_ret|]. intros <-. apply Hk. apply list_elem_of_fmap_2. by eapply list_elem_of_lookup_2.
Qed.
End reading.

(** [check_consistency] has nothing to correct on a leaf that is in order. *)
Lemma check_consistency_ok e l kvs : leaf_ok l kvs → leaf_ok (check_consistency e l) kvs.
Proof.
  intros Hl. unfold check_consistency. case_match; [|done].
  eapply leaf_ok_fields; [exact Hl|done|done| |done]. exact (lf_id _ _ Hl).
Qed.

(** ** New leaves *)
Section building.
Context {S : Type}.

Lemma raw_leaf_versions e pr nx :
  versions (raw_leaf slots e pr nx) (new_leaf_entries slots) (new_leaf_entries slots).
Proof. left. done. Qed.
Lemma seq_cut n : (n ≤ slots)%nat → seq 0 n ++ drop n (seq 0 slots) = seq 0 slots.
Proof. intros Hn. etrans; [|apply (take_drop n)]. f_equal. rewrite take_seq. by rewrite Nat.min_l. Qed.
Lemma seq_free n : (n ≤ slots)%nat → seq 0 n ++ free (seq 0 slots) (seq 0 slots) n = seq 0 slots.
Proof.
  intros Hn. assert (∀ b (l : list nat), alternate b (zip l l) = l) as Halt.
  { intros b l. revert b. induction l as [|x l IH]; intros b; simpl; [done|]. rewrite IH. by destruct b. }
  unfold free. rewrite Halt. by apply seq_cut.
Qed.
Lemma Forall2_seq {A} (es d : list A) : Forall2 (λ i e, (es ++ d) !! i = Some e) (seq 0 (length es)) es.
Proof.
  apply Forall2_same_length_lookup. split; [by rewrite length_seq|].
  intros i x y [-> Hi]%lookup_seq Hy. by rewrite lookup_app_l.
Qed.

Lemma fill_leaf_ok e pr nx kvs :
  (length kvs ≤ slots)%nat → ksorted kvs.*1 →
  ∃ l, returns (fill_leaf (raw_leaf slots e pr nx) kvs : M S _) l ∧ leaf_ok l kvs ∧ prev l = pr ∧ next l = nx.
Proof.
  intros Hlen Hs. unfold fill_leaf. eexists. split_and!.
  - eapply returns_bind; [apply returns_copy; simpl; rewrite length_replicate; lia|].
    eapply returns_bind; [apply (consistent_returns _ _ _ (raw_leaf_versions e pr nx))|].
    eapply returns_bind; [apply returns_copy; simpl; rewrite !length_seq; lia|].
    eapply returns_bind; [apply returns_aset; simpl; lia|]. apply returns_ret.
  - split; [|done|done|].
    { simpl. rewrite length_app, length_drop, length_replicate. lia. }
    eexists _, (new_leaf_entries slots). split; [left; done|]. simpl.
    pose proof (seq_cut (length kvs) Hlen) as Hseq.
    split; simpl; rewrite ?length_seq, ?Hseq; [apply length_seq|done|done| |].
    + rewrite take_seq, Nat.min_l by lia. by rewrite seq_free.
    + rewrite take_seq, Nat.min_l by lia. apply Forall2_seq.
  - done.
  - done.
Qed.

Lemma new_leaf_ok e : returns (new_leaf slots e : M S leaf) (raw_leaf slots e 0 0) ∧ leaf_ok (raw_leaf slots e 0 0) [].
Proof.
  assert (leaf_ok (raw_leaf slots e 0 0) []) as Hl.
  { split; [simpl; by rewrite length_replicate|done|constructor|].
    eexists _, _. split; [apply raw_leaf_versions|].
    split; simpl; [apply length_seq|apply length_seq|done| |constructor]. apply reflexive_eq, (seq_free 0); lia. }
  split; [|done]. returns_step @assert_sorted_returns. apply returns_ret.
Qed.
Lemma copy_leaf_ok e src kvs a b pr nx :
  leaf_ok src kvs → (b ≤ length kvs)%nat → (a ≤ b)%nat →
  ∃ l, returns (copy_leaf slots e src a b pr nx : M S _) l
       ∧ leaf_ok l (drop a (take b kvs)) ∧ prev l = pr ∧ next l = nx.
Proof.
  intros Hsrc Hb Hab. pose proof (leaf_len _ _ Hsrc) as Hlen.
  assert (length (drop a (take b kvs)) = (b - a)%nat) as Hl by (rewrite length_drop, length_take; lia).
  assert (ksorted (drop a (take b kvs)).*1) as Hs.
  { pose proof (lf_sorted _ _ Hsrc) as Hs. rewrite <- (take_drop b kvs), <- (take_drop a (take b kvs)), !fmap_app in Hs.
    by apply ksorted_app in Hs as ((_ & Hs & _)%ksorted_app & _). }
  destruct (fill_leaf_ok e pr nx (drop a (take b kvs)) ltac:(lia) Hs) as (l & Hr & Hok & Hp & Hn).
  exists l. split_and!; [|done..]. unfold copy_leaf.
  eapply returns_bind; [apply returns_assert, Nat.leb_le; lia|].
  returns_step @leaf_range_returns. eapply returns_bind; [exact Hr|].
  returns_step @leaf_size_returns. eapply returns_bind; [apply returns_assert, Nat.eqb_eq; lia|].
  returns_step @assert_sorted_returns. apply returns_ret.
Qed.
(** A sorted list with a new key put in its place. *)
Lemma ksorted_put kvs1 kvs2 (entry : K * V) :
  ksorted (kvs1 ++ kvs2).*1 →
  (∀ x, x ∈ kvs1 → key_lt x.1 entry.1) → (∀ x, x ∈ kvs2 → key_lt entry.1 x.1) →
  ksorted (kvs1 ++ entry :: kvs2).*1.
Proof.
  rewrite !fmap_app. intros (Hs1 & Hs2 & Hs12)%ksorted_app H1 H2. apply ksorted_app. split_and!; [done| |].
  - simpl. constructor; [done|]. apply Forall_forall. intros ? (x & -> & Hx)%list_elem_of_fmap. by apply H2.
  - intros ? ? (x & -> & Hx)%list_elem_of_fmap [->|Hy]%elem_of_cons; [by apply H1|].
    apply Hs12; [by apply list_elem_of_fmap_2|done].
Qed.
Lemma copy_insert_leaf_ok e entry src kvs a b pr nx kvs1 kvs2 :
  leaf_ok src kvs → (b ≤ length kvs)%nat → (a ≤ b)%nat → (b - a < slots)%nat →
  drop a (take b kvs) = kvs1 ++ kvs2 →
  (∀ x, x ∈ kvs1 → key_lt x.1 entry.1) → (∀ x, x ∈ kvs2 → key_lt entry.1 x.1) →
  ∃ l, returns (copy_insert_leaf slots e entry src a b pr nx : M S _) l
       ∧ leaf_ok l (kvs1 ++ entry :: kvs2) ∧ prev l = pr ∧ next l = nx.
Proof.
  intros Hsrc Hb Hab Hlt Hcut H1 H2. pose proof (leaf_len _ _ Hsrc) as Hlen.
  assert (length kvs1 + length kvs2 = b - a)%nat as Hl.
  { rewrite <- length_app, <- Hcut, length_drop, length_take. lia. }
  assert (length (kvs1 ++ entry :: kvs2) = b - a + 1)%nat as Hl' by (rewrite length_app; simpl; lia).
  assert (ksorted (kvs1 ++ entry :: kvs2).*1) as Hs.
  { apply ksorted_put; [|done..]. pose proof (lf_sorted _ _ Hsrc) as Hs.
    rewrite <- (take_drop b kvs), <- (take_drop a (take b kvs)), !fmap_app, Hcut in Hs.
    by apply ksorted_app in Hs as ((_ & Hs & _)%ksorted_app & _ & _). }
  destruct (fill_leaf_ok e pr nx (kvs1 ++ entry :: kvs2) ltac:(rewrite Hl'; lia) Hs) as (l & Hr & Hok & Hp & Hn).
  exists l. split_and!; [|done..]. unfold copy_insert_leaf.
  eapply returns_bind; [apply returns_assert, Nat.ltb_lt; lia|].
  returns_step @leaf_range_returns. rewrite Hcut.
  pose proof (merge_cut fst kvs1 kvs2 entry H1 H2) as Hm. change (merge first_lt (kvs1 ++ kvs2) entry = kvs1 ++ entry :: kvs2) in Hm.
  eapply returns_bind; [rewrite Hm; exact Hr|].
  returns_step @leaf_size_returns. eapply returns_bind; [apply returns_assert, Nat.eqb_eq; lia|].
  returns_step @leaf_all_returns. eapply returns_bind; [apply returns_assert|].
  { rewrite lower_bound_spec, list_lookup_middle by
      (done || (intros x [->|Hx]%elem_of_cons; [apply key_irrefl|by apply key_lt_le, H2])).
    unfold first_lt. by rewrite key_irrefl. }
  returns_step @assert_sorted_returns. apply returns_ret.
Qed.
End building.

(** ** Changing the index *)
Lemma Forall2_impl_elem {A B} (P Q : A → B → Prop) (k : list A) (m : list B) :
  Forall2 P k m → (∀ x y, x ∈ k → P x y → Q x y) → Forall2 Q k m.
Proof.
  induction 1 as [|x y k m Hxy _ IH]; intros HPQ; constructor.
  - apply HPQ; [by apply elem_of_cons; left|done].
  - apply IH. intros x' y' Hx'. apply HPQ. by apply elem_of_cons; right.
Qed.
Lemma returns_copy_at {S A} (front rest src : list A) pos :
  length front = pos → (length src ≤ length rest)%nat →
  returns (copy_to (front ++ rest) pos src : M S _) (front ++ src ++ drop (length src) rest).
Proof.
  intros <- Hl s. rewrite (returns_copy (S:=S)) by (rewrite length_app; lia).
  rewrite take_app_length, drop_app_add. done.
Qed.
(** The working copy is written and the copies change places. *)
Definition with_working l x : leaf := l <| l_v := zinsert (l_v l) (1 - consistent_id l) x |>.
Lemma install l c w x :
  versions l c w →
  (∀ S, returns (set_working l x : M S _) (with_working l x)) ∧ versions (switch_consistent (with_working l x)) x c.
Proof.
  intros Hv. split.
  - intros S. eapply returns_bind; [|apply returns_ret]. apply returns_aset.
    destruct Hv as [[-> ->]|[-> ->]]; simpl; lia.
  - unfold versions. destruct Hv as [[Hi Hv]|[Hi Hv]]; simpl; rewrite Hi, Hv; [right|left]; done.
Qed.
Lemma versions_inj l c w c' w' : versions l c w → versions l c' w' → c' = c ∧ w' = w.
Proof.
  intros [[Hi1 Hl1]|[Hi1 Hl1]] [[Hi2 Hl2]|[Hi2 Hl2]]; rewrite Hi1 in Hi2; try done; rewrite Hl1 in Hl2; by simplify_eq.
Qed.

(** The indices of the entries before and after a position. *)
Lemma index_cut es c w kvs1 kvs2 :
  index_ok es c w (kvs1 ++ kvs2) →
  ∃ t1 t2, take (length (kvs1 ++ kvs2)) (idxs c) = t1 ++ t2
    ∧ Forall2 (λ i e, es !! i = Some e) t1 kvs1 ∧ Forall2 (λ i e, es !! i = Some e) t2 kvs2
    ∧ take (length kvs1) (idxs c) = t1 ∧ drop (length kvs1) (take (length (kvs1 ++ kvs2)) (idxs c)) = t2.
Proof.
  intros Hix. pose proof (lx_at _ _ _ _ Hix) as (t1 & t2 & H1 & H2 & Ht)%Forall2_app_inv_r.
  exists t1, t2. pose proof (Forall2_length _ _ _ H1) as Hl. split_and!; [done..| |].
  - assert (take (length kvs1) (take (length (kvs1 ++ kvs2)) (idxs c)) = take (length kvs1) (idxs c)) as <-.
    { rewrite take_take, length_app. f_equal. lia. }
    rewrite Ht, <- Hl. apply take_app_length.
  - rewrite Ht, <- Hl. apply drop_app_length.
Qed.
(** A free slot is not in use. *)
Lemma free_slot es c w kvs :
  index_ok es c w kvs → (length kvs < slots)%nat →
  ∃ i, idxs c !! length kvs = Some i ∧ i ∉ take (length kvs) (idxs c) ∧ (i < slots)%nat.
Proof.
  intros [Hc Hw Hs Hp Ha] Hlt. destruct (lookup_lt_is_Some_2 (idxs c) (length kvs) ltac:(lia)) as [i Hi].
  exists i. split; [done|].
  rewrite (free_insert _ _ (take (Datatypes.S (length kvs)) (idxs c)) _ i) in Hp by (done || lia || (rewrite length_take; lia)).
  split.
  - assert (NoDup (seq 0 slots)) as Hnd by apply NoDup_seq. rewrite <- Hp in Hnd.
    apply NoDup_app in Hnd as (_ & Hnd & _). intros Hin. apply (Hnd i Hin). by apply elem_of_cons; left.
  - assert (i ∈ seq 0 slots) as Hin by (rewrite <- Hp, elem_of_app; right; by apply elem_of_cons; left).
    apply elem_of_seq in Hin. lia.
Qed.

Lemma index_insert es c w kvs1 kvs2 entry i t1 t2 :
  length es = slots →
  index_ok es c w (kvs1 ++ kvs2) → (length (kvs1 ++ kvs2) < slots)%nat →
  idxs c !! length (kvs1 ++ kvs2) = Some i → take (length (kvs1 ++ kvs2)) (idxs c) = t1 ++ t2 →
  length t1 = length kvs1 →
  index_ok (<[i := entry]> es)
    (mk_leaf_entries (t1 ++ i :: t2 ++ drop (Datatypes.S (length (kvs1 ++ kvs2))) (idxs w)) (length (kvs1 ++ kvs2) + 1))
    c (kvs1 ++ entry :: kvs2).
Proof.
  intros Hes Hix Hlt Hi Ht Hl1. destruct (free_slot _ _ _ _ Hix Hlt) as (i' & Hi' & Hfree & Hi_lt).
  assert (i' = i) as -> by congruence.
  destruct (index_cut _ _ _ _ _ Hix) as (t1' & t2' & Ht' & H1 & H2 & _).
  assert (t1' = t1 ∧ t2' = t2) as [-> ->].
  { apply app_inj_1; [|congruence]. apply Forall2_length in H1. lia. }
  set (n := length (kvs1 ++ kvs2)) in *.
  assert (length (kvs1 ++ entry :: kvs2) = Datatypes.S n) as Hn by (unfold n; rewrite !length_app; simpl; lia).
  pose proof (Forall2_length _ _ _ H2) as Hl2.
  assert (length (t1 ++ i :: t2) = Datatypes.S n) as Hf by (unfold n; rewrite !length_app in *; simpl; lia).
  assert (t1 ++ i :: t2 ++ drop (Datatypes.S n) (idxs w) = (t1 ++ i :: t2) ++ drop (Datatypes.S n) (idxs w)) as Heq
    by (rewrite <- app_assoc; done).
  pose proof (lx_len_w _ _ _ _ Hix) as Hw.
  split; cbn [idxs l_size]; rewrite ?Hn, ?Heq.
  - rewrite length_app, length_drop, Hf. lia.
  - by apply Hix.
  - lia.
  - rewrite <- Hf at 1. rewrite take_app_length, <- (lx_perm _ _ _ _ Hix). fold n.
    rewrite Ht, (free_insert _ (idxs w) (t1 ++ i :: t2) n i) by (done || lia).
    generalize (free ((t1 ++ i :: t2) ++ drop (Datatypes.S n) (idxs w)) (idxs c) (Datatypes.S n)). intros fs.
    by rewrite <- !Permutation_middle.
  - rewrite <- Hf, take_app_length. rewrite Ht in Hfree. apply not_elem_of_app in Hfree as [Hf1 Hf2].
    apply Forall2_app; [|constructor].
    + eapply Forall2_impl_elem; [exact H1|]. intros j e Hj ?. rewrite list_lookup_insert_ne; [done|]. by intros ->.
    + apply list_lookup_insert_eq. lia.
    + eapply Forall2_impl_elem; [exact H2|]. intros j e Hj ?. rewrite list_lookup_insert_ne; [done|]. by intros ->.
Qed.
Lemma index_erase es c w kvs1 kvs2 e i t1 t2 :
  index_ok es c w (kvs1 ++ e :: kvs2) →
  take (length (kvs1 ++ e :: kvs2)) (idxs c) = t1 ++ i :: t2 → length t1 = length kvs1 →
  index_ok es
    (mk_leaf_entries (t1 ++ t2 ++ i :: drop (length (kvs1 ++ e :: kvs2)) (idxs w)) (length (kvs1 ++ kvs2)))
    c (kvs1 ++ kvs2).
Proof.
  intros Hix Ht Hl1. pose proof (index_len _ _ _ _ Hix) as Hlen.
  pose proof (lx_at _ _ _ _ Hix) as Ha. rewrite Ht in Ha. apply Forall2_app_inv in Ha as [H1 H2]; [|done].
  apply Forall2_cons in H2 as [_ H2]. pose proof (Forall2_length _ _ _ H2) as Hl2.
  set (n := length (kvs1 ++ kvs2)) in *.
  assert (length (kvs1 ++ e :: kvs2) = Datatypes.S n) as Hn by (unfold n; rewrite !length_app; simpl; lia).
  assert (length (t1 ++ t2) = n) as Hf by (unfold n; rewrite !length_app; lia).
  rewrite Hn in *. rewrite app_assoc.
  pose proof (lx_len _ _ _ _ Hix) as Hc. pose proof (lx_len_w _ _ _ _ Hix) as Hw.
  split; cbn [idxs l_size]; fold n.
  - rewrite length_app. simpl. rewrite length_drop, Hf. lia.
  - done.
  - done.
  - rewrite <- Hf at 1. rewrite take_app_length, (free_erase _ _ _ n) by (done || lia).
    rewrite <- (lx_perm _ _ _ _ Hix), Hn, Ht. by rewrite <- !Permutation_middle.
  - rewrite <- Hf, take_app_length. by apply Forall2_app.
Qed.

Lemma insert_idx_returns l c w i t1 t2 :
  versions l c w → take (l_size c) (idxs c) = t1 ++ t2 →
  (l_size c < slots)%nat → length (idxs c) = slots → length (idxs w) = slots →
  let x := mk_leaf_entries (t1 ++ i :: t2 ++ drop (Datatypes.S (l_size c)) (idxs w)) (l_size c + 1) in
  (∀ S, returns (insert_idx l i (length t1) : M S _) (with_working l x))
  ∧ versions (switch_consistent (with_working l x)) x c.
Proof.
  intros Hv Ht Hlt Hc Hw x. destruct (install l c w x Hv) as [Hr Hl']. split; [|done]. intros S. unfold insert_idx.
  assert (length t1 + length t2 = l_size c)%nat as Hlen by (rewrite <- length_app, <- Ht, length_take; lia).
  assert (take (length t1) (idxs c) = t1) as Ht1.
  { rewrite <- (take_app_length t1 t2) at 2. rewrite <- Ht, take_take. f_equal. lia. }
  assert (drop (length t1) (take (l_size c) (idxs c)) = t2) as Ht2 by (rewrite Ht; apply drop_app_length).
  returns_step @consistent_returns. returns_step @working_returns. rewrite Ht1, Ht2.
  eapply returns_bind; [apply (returns_copy_at [] (idxs w)); [done|lia]|]. simpl.
  eapply returns_bind; [apply returns_copy_at; [done|rewrite length_drop; simpl; lia]|].
  rewrite (app_assoc t1 [i]), drop_drop.
  eapply returns_bind; [apply returns_copy_at; [rewrite length_app; done|rewrite length_drop; simpl; lia]|].
  rewrite drop_drop, <- (app_assoc t1 [i]). simpl.
  replace (length t1 + 1 + length t2)%nat with (Datatypes.S (l_size c)) by lia. apply Hr.
Qed.
Lemma remove_idx_returns l c w i t1 t2 :
  versions l c w → take (l_size c) (idxs c) = t1 ++ i :: t2 →
  (l_size c ≤ slots)%nat → length (idxs c) = slots → length (idxs w) = slots →
  let x := mk_leaf_entries (t1 ++ t2 ++ i :: drop (l_size c) (idxs w)) (l_size c - 1) in
  (∀ S, returns (remove_idx l (length t1) : M S _) (with_working l x))
  ∧ versions (switch_consistent (with_working l x)) x c.
Proof.
  intros Hv Ht Hlt Hc Hw x. destruct (install l c w x Hv) as [Hr Hl']. split; [|done]. intros S. unfold remove_idx.
  assert (length t1 + 1 + length t2 = l_size c)%nat as Hlen.
  { assert (length (take (l_size c) (idxs c)) = l_size c) as Hl by (rewrite length_take; lia).
    rewrite Ht, length_app in Hl. simpl in Hl. lia. }
  assert (take (length t1) (idxs c) = t1) as Ht1.
  { rewrite <- (take_app_length t1 (i :: t2)) at 2. rewrite <- Ht, take_take. f_equal. lia. }
  assert (drop (length t1 + 1) (take (l_size c) (idxs c)) = t2) as Ht2.
  { rewrite Ht, cons_middle, app_assoc. rewrite drop_app_length'; [done|]. rewrite length_app. done. }
  assert (idxs c !! length t1 = Some i) as Hi.
  { rewrite <- (lookup_take_lt _ (l_size c)) by lia. rewrite Ht. by apply list_lookup_middle. }
  returns_step @consistent_returns. returns_step @working_returns. rewrite Ht1, Ht2.
  eapply returns_bind; [apply (returns_copy_at [] (idxs w)); [done|lia]|]. simpl.
  eapply returns_bind; [apply returns_copy_at; [done|rewrite length_drop; simpl; lia]|].
  returns_step @returns_deref. rewrite (app_assoc t1 t2), drop_drop.
  eapply returns_bind; [apply returns_copy_at; [rewrite length_app; lia|rewrite length_drop; simpl; lia]|].
  rewrite drop_drop, <- (app_assoc t1 t2). simpl.
  replace (length t1 + length t2 + 1)%nat with (l_size c) by lia. apply Hr.
Qed.

(** ** Operations on a leaf *)
Section operations.
Context {S : Type}.

Lemma leaf_insert_old l kvs1 e kvs2 x :
  leaf_ok l (kvs1 ++ e :: kvs2) → (length (kvs1 ++ e :: kvs2) < slots)%nat →
  returns (leaf_insert slots l (e.1, x) : M S _) (l, length kvs1, false).
Proof.
  intros Hl Hlt. unfold leaf_insert. returns_step @leaf_full_returns.
  eapply returns_bind; [apply returns_assert; by rewrite (proj2 (Nat.eqb_neq _ _)) by lia|].
  returns_step @leaf_all_returns. pose proof (lf_sorted _ _ Hl) as Hs.
  rewrite fmap_app in Hs. apply ksorted_app in Hs as (_ & Hs & Hlt').
  simpl in Hs. apply StronglySorted_inv in Hs as [_ He]. cbv zeta. simpl. rewrite lower_bound_spec.
  - rewrite list_lookup_middle by done. rewrite key_eqb_refl. apply returns_ret.
  - intros y Hy. apply Hlt'; [by apply list_elem_of_fmap_2|by apply elem_of_cons; left].
  - intros y [->|Hy]%elem_of_cons; [apply key_irrefl|]. apply key_lt_le.
    eapply Forall_forall in He; [exact He|by apply list_elem_of_fmap_2].
Qed.
(** The entry at the place of a new key has another key. *)
Lemma head_other kvs k :
  (∀ x, x ∈ kvs → key_lt k x.1) → (if kvs !! O is Some e then key_eqb e.1 k else false) = false.
Proof.
  intros Hk. destruct kvs as [|y kvs]; [done|]. simpl. apply key_eqb_ne. intros Heq.
  apply (key_lt_irrefl k). rewrite <- Heq at 2. apply Hk. by apply elem_of_cons; left.
Qed.
(** The leaf after an insertion into the free slot [i], with the indices [t1] before and
    [t2] after it. *)
Definition inserted_leaf l c w entry i t1 t2 : leaf :=
  switch_consistent (with_working (l <| entries := <[i := entry]> (entries l) |>)
    (mk_leaf_entries (t1 ++ i :: t2 ++ drop (Datatypes.S (l_size c)) (idxs w)) (l_size c + 1))).
Lemma leaf_insert_at l kvs1 kvs2 entry c w i t1 t2 :
  leaf_ok l (kvs1 ++ kvs2) → (length (kvs1 ++ kvs2) < slots)%nat →
  (∀ x, x ∈ kvs1 → key_lt x.1 entry.1) → (∀ x, x ∈ kvs2 → key_lt entry.1 x.1) →
  versions l c w → idxs c !! l_size c = Some i → take (l_size c) (idxs c) = t1 ++ t2 → length t1 = length kvs1 →
  returns (leaf_insert slots l entry : M S _) (inserted_leaf l c w entry i t1 t2, length kvs1, true)
  ∧ leaf_ok (inserted_leaf l c w entry i t1 t2) (kvs1 ++ entry :: kvs2).
Proof.
  intros Hl Hlt H1 H2 Hv Hi Ht Hl1. pose proof Hl as [He Hid Hs (c' & w' & Hv' & Hix)].
  destruct (versions_inj _ _ _ _ _ Hv Hv') as [-> ->]. pose proof (lx_size _ _ _ _ Hix) as Hsz. rewrite Hsz in Hi, Ht.
  destruct (free_slot _ _ _ _ Hix Hlt) as (i' & Hi' & Hfree & Hi_lt). rewrite Hi in Hi'. injection Hi' as <-.
  set (l1 := l <| entries := <[i := entry]> (entries l) |>).
  destruct (insert_idx_returns l1 c w i t1 t2) as [Hr Hv2];
    [exact Hv|by rewrite Hsz|lia|by apply Hix|by apply Hix|].
  pose proof (index_insert _ _ _ _ _ entry i t1 t2 He Hix Hlt Hi Ht Hl1) as Hix'.
  assert (leaf_ok (inserted_leaf l c w entry i t1 t2) (kvs1 ++ entry :: kvs2)) as Hok.
  { split; [simpl; by rewrite length_insert|done|by apply ksorted_put|].
    eexists _, _. split; [exact Hv2|]. simpl. rewrite Hsz. exact Hix'. }
  split; [|done].
  unfold leaf_insert. returns_step @leaf_full_returns.
  eapply returns_bind; [apply returns_assert; by rewrite (proj2 (Nat.eqb_neq _ _)) by lia|].
  returns_step @leaf_all_returns. cbv zeta.
  rewrite lower_bound_spec by (done || (intros y Hy; by apply key_lt_le, H2)).
  rewrite lookup_app_r, Nat.sub_diag by lia.
  rewrite head_other by done.
  returns_step @consistent_returns. rewrite Hsz. returns_step @returns_deref.
  eapply returns_bind; [apply returns_assert|].
  { apply forallb_forall. intros j Hj%list_elem_of_In. apply negb_true_iff, Nat.eqb_neq. by intros ->. }
  rewrite He, (proj2 (Nat.ltb_lt _ _) Hi_lt). fold l1.
  eapply returns_bind; [rewrite <- Hl1; apply Hr|]. returns_step @assert_sorted_returns. apply returns_ret.
Qed.
Lemma leaf_insert_new l kvs1 kvs2 entry :
  leaf_ok l (kvs1 ++ kvs2) → (length (kvs1 ++ kvs2) < slots)%nat →
  (∀ x, x ∈ kvs1 → key_lt x.1 entry.1) → (∀ x, x ∈ kvs2 → key_lt entry.1 x.1) →
  ∃ l', returns (leaf_insert slots l entry : M S _) (l', length kvs1, true)
        ∧ leaf_ok l' (kvs1 ++ entry :: kvs2) ∧ prev l' = prev l ∧ next l' = next l.
Proof.
  intros Hl Hlt H1 H2. pose proof Hl as [_ _ _ (c & w & Hv & Hix)].
  destruct (free_slot _ _ _ _ Hix Hlt) as (i & Hi & _). pose proof (lx_size _ _ _ _ Hix) as Hsz.
  destruct (index_cut _ _ _ _ _ Hix) as (t1 & t2 & Ht & Ha1 & _ & _ & _). apply Forall2_length in Ha1.
  rewrite <- Hsz in Hi, Ht.
  destruct (leaf_insert_at l kvs1 kvs2 entry c w i t1 t2) as [Hr Hok]; [done..|].
  by eexists.
Qed.
Lemma leaf_erase_absent l kvs k :
  leaf_ok l kvs → k ∉ kvs.*1 → returns (leaf_erase l k : M S _) (l, O).
Proof.
  intros Hl Hk. unfold leaf_erase. returns_step @assert_sorted_returns.
  returns_step @leaf_find_absent. returns_step @leaf_size_returns. rewrite Nat.eqb_refl. apply returns_ret.
Qed.
(** The leaf after the removal of index [i] from between [t1] and [t2]. *)
Definition erased_leaf l c w i t1 t2 : leaf :=
  switch_consistent (with_working l (mk_leaf_entries (t1 ++ t2 ++ i :: drop (l_size c) (idxs w)) (l_size c - 1))).
Lemma leaf_erase_at l kvs1 e kvs2 c w i t1 t2 :
  leaf_ok l (kvs1 ++ e :: kvs2) →
  versions l c w → take (l_size c) (idxs c) = t1 ++ i :: t2 → length t1 = length kvs1 →
  returns (leaf_erase l e.1 : M S _) (erased_leaf l c w i t1 t2, 1%nat)
  ∧ leaf_ok (erased_leaf l c w i t1 t2) (kvs1 ++ kvs2).
Proof.
  intros Hl Hv Ht Hl1. pose proof (leaf_len _ _ Hl) as Hlen. pose proof Hl as [He Hid Hs (c' & w' & Hv' & Hix)].
  destruct (versions_inj _ _ _ _ _ Hv Hv') as [-> ->]. pose proof (lx_size _ _ _ _ Hix) as Hsz. rewrite Hsz in Ht.
  destruct (remove_idx_returns l c w i t1 t2) as [Hr Hv2]; [exact Hv|by rewrite Hsz|lia|by apply Hix|by apply Hix|].
  pose proof (index_erase _ _ _ _ _ _ i t1 t2 Hix Ht Hl1) as Hix'.
  assert (leaf_ok (erased_leaf l c w i t1 t2) (kvs1 ++ kvs2)) as Hok.
  { split; [done|done| |].
    - rewrite fmap_app in *. apply ksorted_app in Hs as (Hs1 & Hs2 & Hs12).
      simpl in Hs2. apply StronglySorted_inv in Hs2 as [Hs2 _]. apply ksorted_app. split_and!; [done..|].
      intros a b Ha Hb. apply Hs12; [done|by apply elem_of_cons; right].
    - eexists _, _. split; [exact Hv2|]. simpl. rewrite Hsz.
      replace (length (kvs1 ++ e :: kvs2) - 1)%nat with (length (kvs1 ++ kvs2)) by (rewrite !length_app; simpl; lia).
      exact Hix'. }
  split; [|done]. unfold leaf_erase. returns_step @assert_sorted_returns.
  returns_step @leaf_find_there. returns_step @leaf_size_returns.
  rewrite (proj2 (Nat.eqb_neq _ _)) by (rewrite length_app; simpl; lia).
  eapply returns_bind; [rewrite <- Hl1; apply Hr|]. returns_step @assert_sorted_returns. apply returns_ret.
Qed.
Lemma leaf_erase_there l kvs1 e kvs2 :
  leaf_ok l (kvs1 ++ e :: kvs2) →
  ∃ l', returns (leaf_erase l e.1 : M S _) (l', 1%nat)
        ∧ leaf_ok l' (kvs1 ++ kvs2) ∧ prev l' = prev l ∧ next l' = next l.
Proof.
  intros Hl. pose proof Hl as [_ _ _ (c & w & Hv & Hix)]. pose proof (lx_size _ _ _ _ Hix) as Hsz.
  destruct (index_cut _ _ _ _ _ Hix) as (t1 & [|i t2] & Ht & Ha1 & Ha2 & _ & _); [by inversion Ha2|].
  apply Forall2_length in Ha1. rewrite <- Hsz in Ht.
  destruct (leaf_erase_at l kvs1 e kvs2 c w i t1 t2) as [Hr Hok]; [done..|]. by eexists.
Qed.
(** Assigning a value to the entry at a position. *)
Lemma assign_ok l kvs1 e kvs2 c w i x :
  leaf_ok l (kvs1 ++ e :: kvs2) → versions l c w → idxs c !! length kvs1 = Some i →
  leaf_ok (l <| entries := <[i := (e.1, x)]> (entries l) |>) (kvs1 ++ (e.1, x) :: kvs2).
Proof.
  intros [He Hid Hs (c' & w' & Hv' & Hix)] Hv Hi.
  destruct (versions_inj _ _ _ _ _ Hv Hv') as [-> ->].
  split; [simpl; by rewrite length_insert|done|by rewrite fmap_app in *|].
  exists c, w. split; [done|]. simpl.
  assert (length (kvs1 ++ (e.1, x) :: kvs2) = length (kvs1 ++ e :: kvs2)) as Hlen by (rewrite !length_app; done).
  destruct Hix as [H1 H2 H3 H4 H5]. split; rewrite ?Hlen; try done.
  assert (NoDup (take (length (kvs1 ++ e :: kvs2)) (idxs c))) as Hnd.
  { assert (NoDup (seq 0 slots)) as Hnd by apply NoDup_seq. rewrite <- H4 in Hnd. by apply NoDup_app in Hnd as (Hnd & _). }
  apply Forall2_app_inv_r in H5 as (t1 & t2 & Ha1 & Ha2 & Ht). rewrite Ht in Hnd |- *.
  apply Forall2_cons_inv_r in Ha2 as (j & t2' & Hj & Ha2 & ->).
  assert (j = i) as ->.
  { apply Forall2_length in Ha1. assert ((t1 ++ j :: t2') !! length kvs1 = Some j) as Hj' by by apply list_lookup_middle.
    rewrite <- Ht, lookup_take_lt in Hj' by (rewrite length_app; simpl; lia). congruence. }
  apply NoDup_app in Hnd as (_ & Hnd1 & [Hnd2 _]%NoDup_cons).
  apply Forall2_app; [|constructor].
  - eapply Forall2_impl_elem; [exact Ha1|]. intros y z Hy ?. rewrite list_lookup_insert_ne; [done|]. intros ->.
    apply (Hnd1 y Hy). by apply elem_of_cons; left.
  - apply list_lookup_insert_eq. by eapply lookup_lt_Some.
  - eapply Forall2_impl_elem; [exact Ha2|]. intros y z Hy ?. rewrite list_lookup_insert_ne; [done|]. by intros ->.
Qed.
End operations.
End nodes.

(** ** Inner nodes *)
Section inner_nodes.
Context {K : Type} `{!Key K, !KeyLaws K, !Inhabited K} (slots : nat).
Implicit Types (n : inner_node_t (K:=K)) (c w : inner_entries_t (K:=K)) (ks : list K) (cs : list Z).

Definition arrays_ok c : Prop :=
  length (i_entries c) = slots ∧ length (children c) = (slots + 1)%nat.
Definition i_versions n c w : Prop :=
  (i_consistent_id n = 0 ∧ i_v n = [c; w]) ∨ (i_consistent_id n = 1 ∧ i_v n = [w; c]).
(** The node's copy [c] has the keys [ks] and the children [cs]. *)
Definition copy_ok c ks cs : Prop :=
  i_size c = length ks ∧ take (length ks) (i_entries c) = ks
  ∧ take (length ks + 1) (children c) = cs ∧ length cs = (length ks + 1)%nat.
Record inner_ok n (lv : Z) ks cs : Prop := {
  in_level : level n = lv;
  in_copies : ∃ c w, i_versions n c w ∧ arrays_ok c ∧ arrays_ok w ∧ copy_ok c ks cs
}.

Lemma inner_len n lv ks cs : inner_ok n lv ks cs → (length ks ≤ slots)%nat ∧ length cs = (length ks + 1)%nat.
Proof.
  intros [_ (c & w & _ & [Ha _] & _ & (_ & Hk & _ & Hl))]. split; [|done].
  apply (f_equal length) in Hk. rewrite length_take in Hk. lia.
Qed.

Section inner.
Context {S : Type}.

Lemma i_consistent_returns n c w : i_versions n c w → returns (i_consistent n : M S _) c.
Proof. intros [[Hi Hv]|[Hi Hv]] s; unfold i_consistent; by rewrite Hi, Hv. Qed.
Lemma i_working_returns n c w : i_versions n c w → returns (i_working_copy n : M S _) w.
Proof. intros [[Hi Hv]|[Hi Hv]] s; unfold i_working_copy; by rewrite Hi, Hv. Qed.
Lemma inner_size_returns n lv ks cs : inner_ok n lv ks cs → returns (inner_size n : M S _) (length ks).
Proof.
  intros [_ (c & w & Hv & _ & _ & (Hs & _))]. returns_step @i_consistent_returns.
  rewrite Hs. apply returns_ret.
Qed.
Lemma inner_full_returns n lv ks cs :
  inner_ok n lv ks cs → returns (inner_full slots n : M S _) (length ks =? slots)%nat.
Proof. intros Hn. returns_step inner_size_returns. apply returns_ret. Qed.
Lemma keys_returns n lv ks cs : inner_ok n lv ks cs → returns (keys n : M S _) ks.
Proof.
  intros [_ (c & w & Hv & _ & _ & (Hs & Hk & _))]. returns_step @i_consistent_returns.
  rewrite Hs, Hk. apply returns_ret.
Qed.
Lemma assert_keys_returns n lv ks cs :
  inner_ok n lv ks cs → ksorted ks → returns (assert_keys_sorted n : M S _) tt.
Proof.
  intros Hn Hs. returns_step keys_returns. apply returns_assert.
  apply (ksorted_is_sorted id). by rewrite list_fmap_id.
Qed.
Lemma left_child_returns n lv ks cs i p :
  inner_ok n lv ks cs → cs !! i = Some p → returns (get_left_child n i : M S _) p.
Proof.
  intros [_ (c & w & Hv & _ & _ & (_ & _ & Hc & _))] Hi. returns_step @i_consistent_returns.
  apply returns_deref. rewrite <- Hc in Hi. by apply lookup_take_Some in Hi as [Hi _].
Qed.
Lemma get_child_returns n lv ks1 ks2 cs1 cs2 p k :
  inner_ok n lv (ks1 ++ ks2) (cs1 ++ p :: cs2) → length cs1 = length ks1 →
  (∀ x, x ∈ ks1 → key_lt x k) → (∀ x, x ∈ ks2 → key_le k x) → returns (get_child n k : M S _) p.
Proof.
  intros Hn Hl H1 H2. returns_step keys_returns. rewrite lower_bound_spec by done.
  eapply left_child_returns; [exact Hn|]. rewrite <- Hl. by apply list_lookup_middle.
Qed.

Lemma new_arrays : arrays_ok (new_inner_entries slots).
Proof. split; apply length_replicate. Qed.
Lemma root_inner_ok lv k p q :
  (0 < slots)%nat →
  ∃ n, returns (root_inner slots lv k p q : M S _) n ∧ inner_ok n lv [k] [p; q].
Proof.
  intros Hs. assert (∀ n, n = raw_inner slots lv <| i_v :=
      [mk_inner_entries (k :: drop 1 (replicate slots inhabitant)) ([p; q] ++ drop 2 (replicate (slots + 1) 0)) 1;
       new_inner_entries slots] |> → inner_ok n lv [k] [p; q]) as Hok.
  { intros n ->. split; [done|]. eexists _, _. split_and!; [left; done|..|apply new_arrays|done].
    split; simpl; rewrite length_drop, length_replicate; lia. }
  eexists. split; [|by apply Hok]. unfold root_inner.
  eapply returns_bind; [apply returns_copy; simpl; rewrite length_replicate; lia|].
  eapply returns_bind; [apply returns_copy; simpl; rewrite length_replicate; lia|].
  eapply returns_bind; [|apply returns_ret]. eapply assert_keys_returns; [by apply Hok|repeat constructor].
Qed.

Lemma part_inner_ok lv n lv0 ks cs a b :
  inner_ok n lv0 ks cs → ksorted ks → (a ≤ b ≤ length ks)%nat →
  ∃ n', returns (part_inner slots lv a b n : M S _) n'
        ∧ inner_ok n' lv (drop a (take b ks)) (drop a (take (b + 1) cs)).
Proof.
  intros Hn Hs Hab. pose proof (inner_len _ _ _ _ Hn) as [Hlen Hlc].
  destruct Hn as [_ (c & w & Hv & [Ha Hc] & _ & (Hsz & Hk & Hcs & _))].
  assert (take b (i_entries c) = take b ks) as Hk1.
  { rewrite <- Hk, take_take. f_equal. lia. }
  assert (take (b + 1) (children c) = take (b + 1) cs) as Hc1.
  { rewrite <- Hcs, take_take. f_equal. lia. }
  assert (length (drop a (take b ks)) = (b - a)%nat) as Hl1 by (rewrite length_drop, length_take; lia).
  assert (length (drop a (take (b + 1) cs)) = (b + 1 - a)%nat) as Hl2 by (rewrite length_drop, length_take; lia).
  assert (∀ n', n' = raw_inner slots lv <| i_v :=
      [mk_inner_entries (drop a (take b ks) ++ drop (b - a) (replicate slots inhabitant))
         (drop a (take (b + 1) cs) ++ drop (b + 1 - a) (replicate (slots + 1) 0)) (b - a);
       new_inner_entries slots] |> → inner_ok n' lv (drop a (take b ks)) (drop a (take (b + 1) cs))) as Hok.
  { intros n' ->. split; [done|]. eexists _, _. split_and!; [left; done|..|apply new_arrays|].
    - split; simpl; rewrite length_app, ?Hl1, ?Hl2, length_drop, length_replicate; lia.
    - split_and!; simpl; [done| | |lia].
      + apply take_app_length.
      + replace (length (drop a (take b ks)) + 1)%nat with (length (drop a (take (b + 1) cs))) by lia. apply take_app_length. }
  eexists. split; [|by apply Hok]. unfold part_inner. returns_step @i_consistent_returns. rewrite Hk1, Hc1.
  eapply returns_bind; [apply returns_copy; simpl; rewrite length_replicate; lia|].
  eapply returns_bind; [apply returns_copy; simpl; rewrite length_replicate; lia|].
  eapply returns_bind; [|simpl; rewrite Hl1, Hl2; apply returns_ret].
  eapply assert_keys_returns; [apply Hok; simpl; by rewrite Hl1, Hl2|].
  unfold ksorted in *. rewrite <- (take_drop b ks), <- (take_drop a (take b ks)) in Hs.
  by apply StronglySorted_app_1_l, StronglySorted_app_1_r in Hs.
Qed.

(** Three ranges are copied one after the other. *)
Lemma returns_copy_three {A B} (d x y z : list A) px py (k : list A → M S B) b :
  length x = px → (px + length y)%nat = py → (py + length z ≤ length d)%nat →
  returns (k (x ++ y ++ z ++ drop (py + length z) d)) b →
  returns (d ← copy_to d 0 x; d ← copy_to d px y; d ← copy_to d py z; k d) b.
Proof.
  intros <- <- Hl Hk. eapply returns_bind; [apply (returns_copy_at [] d); [done|lia]|]. simpl.
  eapply returns_bind; [apply returns_copy_at; [done|rewrite length_drop; lia]|].
  rewrite (app_assoc x y), drop_drop.
  eapply returns_bind; [apply returns_copy_at; [by rewrite length_app|rewrite length_drop; lia]|].
  by rewrite drop_drop, <- app_assoc.
Qed.
Lemma update_splitted_child_ok n lv ks1 ks2 cs1 cs2 e q l r :
  inner_ok n lv (ks1 ++ ks2) (cs1 ++ q :: cs2) → length cs1 = length ks1 →
  (length (ks1 ++ ks2) < slots)%nat → ksorted (ks1 ++ e :: ks2) →
  ∃ n', returns (update_splitted_child slots n e l r q : M S _) n'
        ∧ inner_ok n' lv (ks1 ++ e :: ks2) (cs1 ++ l :: r :: cs2).
Proof.
  intros Hn Hl Hlt Hs. pose proof Hn as [Hlv (c & w & Hv & [Ha Hc] & [Haw Hcw] & (Hsz & Hk & Hcs & Hlc))].
  rewrite length_app in Hlt. rewrite (length_app cs1), (length_app ks1) in Hlc. simpl in Hlc.
  set (es' := ks1 ++ [e] ++ ks2 ++ drop (length ks1 + 1 + length ks2) (i_entries w)).
  set (cs' := cs1 ++ [l; r] ++ cs2 ++ drop (length ks1 + 2 + length cs2) (children w)).
  set (x := mk_inner_entries es' cs' (i_size c + 1)).
  set (n' := n <| i_v := zinsert (i_v n) (1 - i_consistent_id n) x |> <| i_consistent_id := 1 - i_consistent_id n |>).
  assert (inner_ok n' lv (ks1 ++ e :: ks2) (cs1 ++ l :: r :: cs2)) as Hok.
  { split; [done|]. exists x, c. split_and!.
    - unfold i_versions, n'. destruct Hv as [[Hi ->]|[Hi ->]]; simpl; rewrite Hi; [right|left]; done.
    - unfold x, es', cs'. split; simpl; rewrite !length_app; simpl; rewrite ?length_app, ?length_drop; lia.
    - done.
    - unfold x, copy_ok. cbn [i_size i_entries children]. rewrite Hsz, !(length_app ks1). cbn [length]. split_and!; [lia|..].
      + unfold es'. rewrite (app_assoc [e]), (app_assoc ks1). apply take_app_length'. rewrite !length_app. simpl. lia.
      + unfold cs'. rewrite (app_assoc [l; r]), (app_assoc cs1). apply take_app_length'. rewrite !length_app. simpl. lia.
      + rewrite length_app. simpl. lia. }
  exists n'. split; [|done]. unfold update_splitted_child.
  returns_step inner_full_returns. eapply returns_bind; [apply returns_assert|].
  { rewrite length_app. by rewrite (proj2 (Nat.eqb_neq _ _)) by lia. }
  returns_step keys_returns. apply ksorted_app in Hs as Hs'. destruct Hs' as (_ & Hs2 & Hs1).
  apply StronglySorted_inv in Hs2 as [_ Hs2]. cbv zeta. rewrite lower_bound_spec.
  2:{ intros y Hy. apply Hs1; [done|by apply elem_of_cons; left]. }
  2:{ intros y Hy. apply key_lt_le. by eapply Forall_forall in Hs2. }
  returns_step @i_consistent_returns. returns_step @i_working_returns.
  assert (take (length ks1) (i_entries c) = ks1) as Hk1.
  { rewrite <- (take_app_length ks1 ks2) at 2. rewrite <- Hk, take_take. f_equal. rewrite length_app. lia. }
  assert (take (length ks1) (children c) = cs1) as Hc1.
  { rewrite <- (take_app_length cs1 (q :: cs2)). rewrite <- Hcs, take_take, Hl. f_equal. rewrite length_app. lia. }
  rewrite Hk1, Hsz, Hk, drop_app_length.
  apply returns_copy_three; [done|done|lia|]. eapply returns_bind; [apply returns_deref|].
  { rewrite <- (lookup_take_lt _ (length (ks1 ++ ks2) + 1)) by (rewrite length_app; lia).
    rewrite Hcs, <- Hl. by apply list_lookup_middle. }
  eapply returns_bind; [apply returns_assert, Z.eqb_refl|]. rewrite Hc1, Hcs.
  replace (drop (length ks1 + 1) (cs1 ++ q :: cs2)) with cs2.
  2:{ rewrite cons_middle, app_assoc, drop_app_length'; [done|]. rewrite length_app. simpl. lia. }
  apply returns_copy_three; [done|done|lia|].
  eapply returns_bind; [apply returns_aset; destruct Hv as [[-> ->]|[-> ->]]; simpl; lia|].
  eapply returns_bind; [|simpl; rewrite <- Hsz; apply returns_ret].
  eapply assert_keys_returns; [simpl; rewrite <- Hsz; exact Hok|exact Hs].
Qed.
End inner.
End inner_nodes.
