(* ===== verification/BTreeCrash.v ===== *)
(** Crashes in the middle of a change of a leaf of the B-tree: the stores, flushes and
    persists of [leaf_node_t::insert] and [leaf_node_t::erase], one by one, what a
    crash can leave of them in persistent memory, and what [check_consistency] makes
    of it.

    A store reaches persistent memory at the latest when it is persisted, or flushed
    before a later persist, and at the earliest at once, since a cache line may be
    written back at any time.  Words are written whole; an entry is not. *)

From stdpp Require Import sorting.
From S2P Require Import Prelude BTree BTreeNode.

Section crash.
Context {K V : Type} `{!Key K, !KeyLaws K, !Key V, !Inhabited K, !Inhabited V}.
Context (slots : nat).
Abbreviation leaf := (leaf_node_t (K:=K) (V:=V)).
Implicit Types (l i : leaf) (kvs : list (K * V)) (c w x : leaf_entries_t) (n slot pos : nat).

(** ** Stores and persists *)
Inductive location := LEntry (slot : nat) | LCopy (v : Z) | LPid.
Inductive event :=
| SEntry (slot : nat) (e : K * V)
| SIdx (v : Z) (pos idx : nat)
| SSize (v : Z) (n : nat)
| SCid (id : Z)
| SPid (id : Z)
| Flush (r : location)
| Persist (r : location).

Definition on_copy (f : leaf_entries_t → leaf_entries_t) (v : Z) (vs : list leaf_entries_t) : list leaf_entries_t :=
  match zlookup vs v with Some c => zinsert vs v (f c) | None => vs end.
Definition store_event l (ev : event) : leaf :=
  match ev with
  | SEntry slot e => l <| entries := <[slot := e]> (entries l) |>
  | SIdx v pos idx => l <| l_v := on_copy (λ c, mk_leaf_entries (<[pos := idx]> (idxs c)) (l_size c)) v (l_v l) |>
  | SSize v n => l <| l_v := on_copy (λ c, mk_leaf_entries (idxs c) n) v (l_v l) |>
  | SCid id => l <| consistent_id := id |>
  | SPid id => l <| p_consistent_id := id |>
  | Flush _ | Persist _ => l
  end.

(** What the processor sees, what is persistent, and what is flushed. *)
Record machine := Machine { mem : leaf; dur : leaf; flushed : list location }.
Definition write_back (m d : leaf) (r : location) : leaf :=
  match r with
  | LEntry slot => match entries m !! slot with Some e => d <| entries := <[slot := e]> (entries d) |> | None => d end
  | LCopy v => match zlookup (l_v m) v with Some c => d <| l_v := zinsert (l_v d) v c |> | None => d end
  | LPid => d <| p_consistent_id := p_consistent_id m |>
  end.
Definition exec_event (m : machine) (ev : event) : machine :=
  match ev with
  | Flush r => Machine (mem m) (dur m) (r :: flushed m)
  | Persist r => Machine (mem m) (foldr (λ r d, write_back (mem m) d r) (dur m) (r :: flushed m)) []
  | _ => Machine (store_event (mem m) ev) (dur m) (flushed m)
  end.
Definition exec_events (evs : list event) (m : machine) : machine := foldl exec_event m evs.
Definition clean l : machine := Machine l l [].

(** ** The changes of a leaf *)
Definition idx_events (v : Z) (new : list nat) : list event := imap (SIdx v) new.
(** [switch_consistent]. *)
Definition switch_events (v : Z) : list event := [SCid v; SPid v; Persist LPid].
(** [insert_idx] and [remove_idx]: the working copy is written and persisted. *)
Definition insert_idx_events (v : Z) c (new_entry_idx hint : nat) : list event :=
  idx_events v (take hint (idxs c) ++ new_entry_idx :: drop hint (take (l_size c) (idxs c)))
  ++ [SSize v (l_size c + 1)].
Definition remove_idx_events (v : Z) c (it idx : nat) : list event :=
  idx_events v (take it (idxs c) ++ drop (it + 1) (take (l_size c) (idxs c)) ++ [idx])
  ++ [SSize v (l_size c - 1)].

Section traces.
Context {S : Type}.
Definition insert_trace l (entry : K * V) : M S (list event) :=
  es ← leaf_all l;
  let hint := lower_bound (λ e : K * V, key_ltb e.1 entry.1) es in
  if (if es !! hint is Some e then key_eqb e.1 entry.1 else false) then mret [] else
  c ← consistent l;
  insert_pos ← deref (idxs c !! l_size c);
  let v := 1 - consistent_id l in
  mret (([SEntry insert_pos entry; Flush (LEntry insert_pos)] ++ insert_idx_events v c insert_pos hint)
        ++ Persist (LCopy v) :: switch_events v).
Definition erase_trace l (key : K) : M S (list event) :=
  it ← leaf_find l key;
  n ← leaf_size l;
  if (it =? n)%nat then mret [] else
  c ← consistent l;
  idx ← deref (idxs c !! it);
  let v := 1 - consistent_id l in
  mret (remove_idx_events v c it idx ++ Persist (LCopy v) :: switch_events v).
End traces.

(** ** What a crash leaves *)
Definition word {A} (old new x : A) : Prop := x = old ∨ x = new.
Definition torn (old new x : leaf_entries_t) : Prop :=
  length (idxs x) = length (idxs old) ∧ (∀ pos, word (idxs old !! pos) (idxs new !! pos) (idxs x !! pos))
  ∧ word (l_size old) (l_size new) (l_size x).
Record image (m : machine) i : Prop := {
  im_epoch : word (l_epoch (dur m)) (l_epoch (mem m)) (l_epoch i);
  im_cid : word (consistent_id (dur m)) (consistent_id (mem m)) (consistent_id i);
  im_pid : word (p_consistent_id (dur m)) (p_consistent_id (mem m)) (p_consistent_id i);
  im_prev : word (prev (dur m)) (prev (mem m)) (prev i);
  im_next : word (next (dur m)) (next (mem m)) (next i);
  im_len : length (entries i) = length (entries (dur m));
  im_entries : ∀ slot, entries (mem m) !! slot = entries (dur m) !! slot → entries i !! slot = entries (dur m) !! slot;
  im_copies : Forall3 torn (l_v (dur m)) (l_v (mem m)) (l_v i)
}.

(** ** Leaves with a spoiled working copy *)

(** [i] is [l] but for the entry in a slot that is not in use and for the first places
    of the working copy. *)
Definition two (id : Z) c w : list leaf_entries_t := if id =? 0 then [c; w] else [w; c].
Lemma versions_two l c w : versions l c w ↔ (consistent_id l = 0 ∨ consistent_id l = 1) ∧ l_v l = two (consistent_id l) c w.
Proof.
  unfold versions, two. split.
  - intros [[-> ->]|[-> ->]]; auto.
  - intros [[Hi|Hi] Hv]; rewrite Hi in Hv |- *; auto.
Qed.
Lemma two_torn id (c w c' w' : leaf_entries_t) vs :
  Forall3 torn (two id c w) (two id c' w') vs → ∃ x y, vs = two id x y ∧ torn c c' x ∧ torn w w' y.
Proof.
  unfold two. destruct (id =? 0); intros Hf; inversion Hf as [|? ? ? ? ? ? H1 Hf1]; simplify_eq;
    inversion Hf1 as [|? ? ? ? ? ? H2 Hf2]; simplify_eq; inversion Hf2; simplify_eq; eauto.
Qed.
Lemma on_copy_two id f c w : id = 0 ∨ id = 1 → on_copy f (1 - id) (two id c w) = two id c (f w).
Proof. by intros [-> | ->]. Qed.
Lemma torn_same c x : torn c c x → x = c.
Proof.
  intros (Hl & Hi & Hs). destruct x as [ix sx], c as [ic sc]. simpl in *. f_equal; [|by destruct Hs].
  apply list_eq. intros pos. by destruct (Hi pos).
Qed.

Record like l slot n i : Prop := {
  like_len : length (entries i) = length (entries l);
  like_entries : ∀ j, j ≠ slot → entries i !! j = entries l !! j;
  like_copies : ∀ c w, versions l c w → ∃ x, l_v i = two (consistent_id l) c x
    ∧ length (idxs x) = length (idxs w) ∧ drop (S n) (idxs x) = drop (S n) (idxs w)
}.

(** The free slots are read from the other places only. *)
Lemma free_ext (c w x : list nat) n :
  length x = length w → drop (S n) x = drop (S n) w → free c x n = free c w n.
Proof.
  intros Hl Hd. unfold free. destruct (drop n c) as [|a cs]; [done|].
  assert (∀ z : list nat, drop (S n) z = drop 1 (drop n z)) as Hdd by (intros z; rewrite drop_drop; f_equal; lia).
  rewrite !Hdd in Hd. assert (length (drop n x) = length (drop n w)) as Hl' by (by rewrite !length_drop, Hl).
  destruct (drop n x), (drop n w); simpl in *; try done. rewrite !drop_0 in Hd. by subst.
Qed.

Lemma like_ok l kvs slot i e :
  leaf_ok slots l kvs → (∀ c w, versions l c w → slot ∉ take (length kvs) (idxs c)) →
  like l slot (length kvs) i → p_consistent_id i = consistent_id l → e ≠ l_epoch i →
  leaf_ok slots (check_consistency e i) kvs.
Proof.
  intros [He Hid Hs (c & w & Hv & Hix)] Hslot [Hl Hes Hcp] Hp Hep.
  unfold check_consistency. rewrite (proj2 (Z.eqb_neq _ _) Hep). simpl.
  destruct (Hcp c w Hv) as (x & Hx & Hlx & Hdx). split; simpl; [by rewrite Hl|done|done|].
  exists c, x. split.
  - apply versions_two in Hv as [Hc _]. apply versions_two. simpl. by rewrite Hp.
  - destruct Hix as [H1 H2 H3 H4 H5]. split; [done|by rewrite Hlx|done|by rewrite (free_ext _ (idxs w))|].
    eapply Forall2_impl_elem; [exact H5|]. intros j y Hj Hy. rewrite Hes; [done|]. intros ->. by eapply Hslot.
Qed.
Lemma like_refl l slot n : like l slot n l.
Proof. split; [done|done|]. intros c w [Hc Hv]%versions_two. by exists w. Qed.

(** ** Before the working copy is persisted *)
Definition harmless l slot n (ev : event) : Prop :=
  match ev with
  | SEntry j _ => j = slot
  | SIdx v pos _ => v = 1 - consistent_id l ∧ (pos ≤ n)%nat
  | SSize v _ => v = 1 - consistent_id l
  | Flush _ => True
  | _ => False
  end.
(** The words outside the entries and the copies. *)
Definition same_words l i : Prop :=
  l_epoch i = l_epoch l ∧ consistent_id i = consistent_id l ∧ p_consistent_id i = p_consistent_id l
  ∧ prev i = prev l ∧ next i = next l.
Definition writing l slot n (m : machine) : Prop := dur m = l ∧ same_words l (mem m) ∧ like l slot n (mem m).

Lemma drop_insert_below {A} (xs : list A) pos n (a : A) : (pos < n)%nat → drop n (<[pos := a]> xs) = drop n xs.
Proof.
  intros Hp. apply list_eq. intros j. rewrite !lookup_drop. apply list_lookup_insert_ne. lia.
Qed.
Lemma writing_step l slot n m ev : writing l slot n m → harmless l slot n ev → writing l slot n (exec_event m ev).
Proof.
  intros (Hd & Hw & [Hl He Hc]) Hev. destruct ev as [j e|v pos idx|v sz| | | |]; try done; (split; [done|]); (split; [done|]); simpl in Hev.
  - subst j. split; simpl; [by rewrite length_insert| |done].
    intros j Hj. rewrite list_lookup_insert_ne by done. by apply He.
  - destruct Hev as [-> Hpos]. split; simpl; [done|done|]. intros c w Hv. destruct (Hc c w Hv) as (x & -> & Hlx & Hdx).
    apply versions_two in Hv as [Hid _]. rewrite on_copy_two by done. eexists. split; [done|]. simpl.
    rewrite length_insert, drop_insert_below by lia. done.
  - subst v. split; simpl; [done|done|]. intros c w Hv. destruct (Hc c w Hv) as (x & -> & Hlx & Hdx).
    apply versions_two in Hv as [Hid _]. rewrite on_copy_two by done. by eexists.
Qed.
Lemma writing_events l slot n evs m :
  writing l slot n m → Forall (harmless l slot n) evs → writing l slot n (exec_events evs m).
Proof.
  unfold exec_events. intros Hm Hevs. revert m Hm. induction Hevs as [|ev evs Hev _ IH]; intros m Hm; [done|].
  simpl. apply IH. by apply writing_step.
Qed.
Lemma writing_clean l slot n : writing l slot n (clean l).
Proof. split; [done|]. split; [done|]. apply like_refl. Qed.

Lemma writing_image l slot n m i c w :
  versions l c w → writing l slot n m → image m i →
  like l slot n i ∧ p_consistent_id i = p_consistent_id l ∧ prev i = prev l ∧ next i = next l.
Proof.
  intros Hv (Hd & (_ & _ & Hp & Hpr & Hnx) & [Hl He Hc]) Him. rewrite <- Hd in *. split.
  - split; [by apply Him| |].
    + intros j Hj. apply Him. by apply He.
    + intros c' w' Hv'. destruct (Hc _ _ Hv') as (x & Hx & Hlx & Hdx). pose proof (im_copies _ _ Him) as Hf.
      pose proof Hv' as [_ Hv2]%versions_two. rewrite Hv2, Hx in Hf. apply two_torn in Hf as (a & b & -> & ->%torn_same & Ht).
      exists b. destruct Ht as (Hlb & Hib & _). split_and!; [done|done|].
      apply list_eq. intros pos. rewrite !lookup_drop. destruct (Hib (S n + pos)%nat) as [-> | ->]; [done|].
      rewrite <- !lookup_drop. by rewrite Hdx.
  - destruct Him as [_ _ Hi1 Hi2 Hi3 _ _ _]. unfold word in *. rewrite Hp, Hpr, Hnx in *. naive_solver.
Qed.

(** ** The switch *)
Lemma clean_image l m i c w :
  versions l c w → entries (mem m) = entries l → entries (dur m) = entries l → l_v (mem m) = l_v l → l_v (dur m) = l_v l →
  image m i → entries i = entries l ∧ l_v i = l_v l.
Proof.
  intros [_ Hv]%versions_two H1 H2 H3 H4 Him. split.
  - apply list_eq. intros j. rewrite <- H2. apply Him. by rewrite H1, H2.
  - pose proof (im_copies _ _ Him) as Hf. rewrite H3, H4, Hv in Hf. rewrite Hv.
    by apply two_torn in Hf as (a & b & -> & ->%torn_same & ->%torn_same).
Qed.

(** The states of the switch: what is persistent, and what is stored. *)
Lemma switch_states l2 v p :
  let m := exec_events (take p (switch_events v)) (clean l2) in
  entries (mem m) = entries l2 ∧ entries (dur m) = entries l2 ∧ l_v (mem m) = l_v l2 ∧ l_v (dur m) = l_v l2
  ∧ prev (mem m) = prev l2 ∧ prev (dur m) = prev l2 ∧ next (mem m) = next l2 ∧ next (dur m) = next l2
  ∧ (p_consistent_id (dur m) = p_consistent_id l2 ∨ p_consistent_id (dur m) = v)
  ∧ (p_consistent_id (mem m) = p_consistent_id l2 ∨ p_consistent_id (mem m) = v)
  ∧ ((3 ≤ p)%nat → p_consistent_id (dur m) = v ∧ p_consistent_id (mem m) = v ∧ mem m = l2 <| consistent_id := v |> <| p_consistent_id := v |>).
Proof. destruct p as [|[|[|p]]]; simpl; rewrite ?take_nil; simpl; split_and!; auto; intros; lia. Qed.

(** ** Atomicity *)

(** A change that writes the working copy, persists it and switches: whenever the
    crash comes, the leaf has the entries from before or those from after, and those
    from after once the change is complete. *)
Definition recovers l kvs i : Prop :=
  prev i = prev l ∧ next i = next l ∧ ∀ e, e ≠ l_epoch i → leaf_ok slots (check_consistency e i) kvs.
Lemma switch_atomic l kvs slot l2 kvs' p i :
  leaf_ok slots l kvs → (∀ c w, versions l c w → slot ∉ take (length kvs) (idxs c)) →
  consistent_id l2 = consistent_id l → p_consistent_id l2 = p_consistent_id l → prev l2 = prev l → next l2 = next l →
  like l slot (length kvs) l2 → leaf_ok slots (switch_consistent l2) kvs' →
  image (exec_events (take p (switch_events (1 - consistent_id l))) (clean l2)) i →
  (recovers l kvs i ∨ recovers l kvs' i) ∧ ((3 ≤ p)%nat → recovers l kvs' i).
Proof.
  intros Hok Hslot Hc2 Hp2 Hpr2 Hnx2 Hlike2 Hok' Him. pose proof Hok as [_ Hid _ (c & w & Hv & _)].
  destruct (switch_states l2 (1 - consistent_id l) p) as (H1 & H2 & H3 & H4 & H5 & H6 & H7 & H8 & H9 & H10 & H11).
  destruct (like_copies _ _ _ _ Hlike2 c w Hv) as (x & Hx & _).
  assert (versions l2 c x) as Hv2 by (apply versions_two; rewrite Hc2; by apply versions_two in Hv as [? _]).
  destruct (clean_image l2 _ i c x Hv2 H1 H2 H3 H4 Him) as [Hie Hiv].
  assert (prev i = prev l ∧ next i = next l) as [Hpr Hnx].
  { destruct Him as [_ _ _ Hi1 Hi2 _ _ _]. unfold word in *. rewrite H5, H6, Hpr2 in Hi1. rewrite H7, H8, Hnx2 in Hi2. by destruct Hi1, Hi2. }
  assert (p_consistent_id i = 1 - consistent_id l → recovers l kvs' i) as Hnew.
  { intros Hp. split_and!; [done..|]. intros e He. unfold check_consistency. rewrite (proj2 (Z.eqb_neq _ _) He). simpl.
    eapply leaf_ok_fields; [exact Hok'|..]; simpl; rewrite ?Hp, ?Hc2; done. }
  assert (p_consistent_id i = consistent_id l → recovers l kvs i) as Hold.
  { intros Hp. split_and!; [done..|]. intros e He. eapply like_ok; [done|done| |done|done].
    destruct Hlike2 as [Ha Hb Hd]. split; [by rewrite Hie|by rewrite Hie|by rewrite Hiv]. }
  pose proof (im_pid _ _ Him) as Hpi. unfold word in Hpi. rewrite Hp2, Hid in H9, H10. split.
  - destruct Hpi as [Hpi|Hpi]; rewrite <- Hpi in *; [destruct H9|destruct H10]; auto.
  - intros Hp. destruct (H11 Hp) as (H12 & H13 & _). apply Hnew. destruct Hpi; congruence.
Qed.
Definition change_events l (pre : list event) : list event :=
  pre ++ Persist (LCopy (1 - consistent_id l)) :: switch_events (1 - consistent_id l).
Record change l kvs slot (pre : list event) l2 kvs' : Prop := {
  ch_slot : ∀ c w, versions l c w → slot ∉ take (length kvs) (idxs c);
  ch_harmless : Forall (harmless l slot (length kvs)) pre;
  ch_clean : exec_event (exec_events pre (clean l)) (Persist (LCopy (1 - consistent_id l))) = clean l2;
  ch_ok : leaf_ok slots (switch_consistent l2) kvs'
}.
Lemma change_writing l kvs slot pre l2 kvs' :
  change l kvs slot pre l2 kvs' → same_words l l2 ∧ like l slot (length kvs) l2.
Proof.
  intros [_ Hpre Hclean _]. destruct (writing_events l slot (length kvs) pre (clean l)) as (_ & Hw & Hlike2);
    [apply writing_clean|done|].
  assert (mem (exec_events pre (clean l)) = l2) as Hmem by (by apply (f_equal mem) in Hclean). by rewrite Hmem in *.
Qed.
Lemma change_atomic l kvs slot pre l2 kvs' p i :
  leaf_ok slots l kvs → change l kvs slot pre l2 kvs' →
  image (exec_events (take p (change_events l pre)) (clean l)) i →
  (recovers l kvs i ∨ recovers l kvs' i) ∧ ((length (change_events l pre) ≤ p)%nat → recovers l kvs' i).
Proof.
  intros Hok Hch. pose proof (change_writing _ _ _ _ _ _ Hch) as [(_ & Hc2 & Hp2 & Hpr2 & Hnx2) Hlike2].
  destruct Hch as [Hslot Hpre Hclean Hok']. set (evs := change_events l pre). intros Him.
  pose proof Hok as [_ Hid _ (c & w & Hv & _)].
  destruct (decide (p ≤ length pre)%nat) as [Hp|Hp].
  - assert (take p evs = take p pre) as Htake by (by apply take_app_le). rewrite Htake in Him.
    destruct (writing_image l slot (length kvs) (exec_events (take p pre) (clean l)) i c w Hv) as (Hlike & Hpi & Hpr & Hnx); [|done|].
    { apply writing_events; [apply writing_clean|by apply Forall_take]. }
    split; [|unfold evs, change_events; rewrite length_app; simpl; lia]. left. split_and!; [done..|].
    intros e He. eapply like_ok; [done..|by rewrite Hpi|done].
  - assert (take p evs = pre ++ Persist (LCopy (1 - consistent_id l)) :: take (p - length pre - 1) (switch_events (1 - consistent_id l))) as Htake.
    { unfold evs, change_events. rewrite take_app_ge by lia. destruct (p - length pre)%nat as [|q] eqn:Hq; [lia|].
      cbn [take]. by rewrite Nat.sub_succ, Nat.sub_0_r. }
    rewrite Htake in Him. unfold exec_events in Him. rewrite foldl_app in Him. cbn [foldl] in Him.
    fold (exec_events pre (clean l)) in Him. rewrite Hclean in Him.
    destruct (switch_atomic l kvs slot l2 kvs' (p - length pre - 1) i) as [Ha Hb]; try done.
    split; [done|]. intros Hp'. apply Hb. unfold evs, change_events in Hp'. rewrite length_app in Hp'. simpl in Hp'. lia.
Qed.

(** ** Insertion and removal *)
Lemma exec_cons ev evs m : exec_events (ev :: evs) m = exec_events evs (exec_event m ev).
Proof. done. Qed.
Lemma exec_app evs1 evs2 m : exec_events (evs1 ++ evs2) m = exec_events evs2 (exec_events evs1 m).
Proof. apply foldl_app. Qed.
Lemma exec_idx_events new : ∀ k m id c x,
  l_v (mem m) = two id c x → id = 0 ∨ id = 1 → (k + length new ≤ length (idxs x))%nat →
  exec_events (imap (λ p, SIdx (1 - id) (k + p)) new) m =
  Machine (mem m <| l_v := two id c (mk_leaf_entries (take k (idxs x) ++ new ++ drop (k + length new) (idxs x)) (l_size x)) |>)
    (dur m) (flushed m).
Proof.
  induction new as [|a new IH]; intros k m id c x Hx Hid Hlen; simpl in Hlen.
  - simpl. rewrite Nat.add_0_r, take_drop. destruct m as [mm d f], x. simpl in *. rewrite <- Hx. by destruct mm.
  - assert (imap (λ p, SIdx (1 - id) (k + p)) (a :: new)
      = SIdx (1 - id) k a :: imap (λ p, SIdx (1 - id) (S k + p)) new) as ->.
    { simpl. rewrite Nat.add_0_r. f_equal. apply imap_ext. intros p y _. simpl. f_equal. lia. }
    rewrite exec_cons. set (m1 := exec_event m _).
    assert (l_v (mem m1) = two id c (mk_leaf_entries (<[k := a]> (idxs x)) (l_size x))) as Hm1.
    { unfold m1. simpl. by rewrite Hx, on_copy_two. }
    rewrite (IH (S k) m1 id c _ Hm1 Hid) by (simpl; rewrite length_insert; lia).
    unfold m1. simpl. f_equal. f_equal. f_equal.
    rewrite drop_insert_below by lia. rewrite (take_S_r _ _ a) by (apply list_lookup_insert_eq; lia).
    rewrite take_insert, decide_False by lia. rewrite <- app_assoc. simpl.
    replace (S (k + length new))%nat with (k + S (length new))%nat by lia. done.
Qed.

(** The index is written, with its length. *)
Lemma exec_index new v n m id c x :
  l_v (mem m) = two id c x → id = 0 ∨ id = 1 → v = 1 - id → (length new ≤ length (idxs x))%nat →
  exec_events (idx_events v new ++ [SSize v n]) m =
  Machine (mem m <| l_v := two id c (mk_leaf_entries (new ++ drop (length new) (idxs x)) n) |>) (dur m) (flushed m).
Proof.
  intros Hx Hid -> Hlen. rewrite exec_app.
  assert (idx_events (1 - id) new = imap (λ p, SIdx (1 - id) (0 + p)) new) as -> by done.
  rewrite (exec_idx_events new 0 m id c x) by done. simpl. by rewrite on_copy_two.
Qed.
Lemma harmless_idx l slot n new sz :
  (length new ≤ S n)%nat →
  Forall (harmless l slot n) (idx_events (1 - consistent_id l) new ++ [SSize (1 - consistent_id l) sz]).
Proof.
  intros Hn. apply Forall_app_2; [|by constructor]. apply Forall_lookup. intros p ev. unfold idx_events.
  rewrite list_lookup_imap. destruct (new !! p) as [a|] eqn:Ha; [|done]. intros [= <-]. apply lookup_lt_Some in Ha.
  split; [done|lia].
Qed.

Lemma zinsert_two id c w x : id = 0 ∨ id = 1 → zinsert (two id c w) (1 - id) x = two id c x.
Proof. by intros [-> | ->]. Qed.
Lemma zlookup_two id c w : id = 0 ∨ id = 1 → zlookup (two id c w) (1 - id) = Some w.
Proof. by intros [-> | ->]. Qed.

(** The entry and the new index are persistent before the switch. *)
Lemma exec_insert_pre l c w entry (i : nat) (t1 t2 : list nat) :
  versions l c w → (i < length (entries l))%nat → (length (t1 ++ i :: t2) ≤ length (idxs w))%nat →
  let v := 1 - consistent_id l in
  let l2 := with_working (l <| entries := <[i := entry]> (entries l) |>)
              (mk_leaf_entries ((t1 ++ i :: t2) ++ drop (length (t1 ++ i :: t2)) (idxs w)) (l_size c + 1)) in
  exec_event (exec_events ([SEntry i entry; Flush (LEntry i)] ++ idx_events v (t1 ++ i :: t2) ++ [SSize v (l_size c + 1)]) (clean l))
    (Persist (LCopy v)) = clean l2.
Proof.
  intros [Hid Hv]%versions_two Hi Hlen v l2. rewrite exec_app.
  rewrite (exec_index _ v _ _ (consistent_id l) c w) by done. unfold l2, with_working, clean. simpl.
  rewrite (zlookup_two (consistent_id l)), list_lookup_insert_eq by done. simpl. rewrite Hv, !zinsert_two by done. done.
Qed.
Lemma exec_erase_pre l c w (new : list nat) sz :
  versions l c w → (length new ≤ length (idxs w))%nat →
  let v := 1 - consistent_id l in
  exec_event (exec_events (idx_events v new ++ [SSize v sz]) (clean l)) (Persist (LCopy v))
  = clean (with_working l (mk_leaf_entries (new ++ drop (length new) (idxs w)) sz)).
Proof.
  intros [Hid Hv]%versions_two Hlen v. rewrite (exec_index _ v _ _ (consistent_id l) c w) by done.
  unfold with_working, clean. simpl. rewrite (zlookup_two (consistent_id l)) by done. by rewrite Hv, !zinsert_two.
Qed.
(** The whole change ends in the switched leaf, all of it persistent but [consistent_id]. *)
Lemma exec_change l kvs slot pre l2 kvs' :
  change l kvs slot pre l2 kvs' →
  exec_events (change_events l pre) (clean l)
  = Machine (switch_consistent l2) (l2 <| p_consistent_id := 1 - consistent_id l |>) [].
Proof.
  intros Hch. pose proof (change_writing _ _ _ _ _ _ Hch) as [(_ & Hid & _) _]. unfold change_events.
  rewrite exec_app, exec_cons, (ch_clean _ _ _ _ _ _ Hch). unfold switch_consistent. by rewrite Hid.
Qed.

Lemma insert_change l kvs1 kvs2 (entry : K * V) St :
  leaf_ok slots l (kvs1 ++ kvs2) → (length (kvs1 ++ kvs2) < slots)%nat →
  (∀ e, e ∈ kvs1 → key_lt e.1 entry.1) → (∀ e, e ∈ kvs2 → key_lt entry.1 e.1) →
  ∃ slot pre l2, change l (kvs1 ++ kvs2) slot pre l2 (kvs1 ++ entry :: kvs2)
    ∧ returns (insert_trace l entry : M St _) (change_events l pre)
    ∧ returns (leaf_insert slots l entry : M St _) (switch_consistent l2, length kvs1, true).
Proof.
  intros Hl Hlt H1 H2. pose proof Hl as [He Hid Hs (c & w & Hv & Hix)]. pose proof (lx_size _ _ _ _ _ Hix) as Hsz.
  destruct (free_slot _ _ _ _ _ Hix Hlt) as (i & Hi & Hfree & Hi_lt).
  destruct (index_cut _ _ _ _ _ _ Hix) as (t1 & t2 & Ht & Ha1 & Ha2 & Ht1 & Ht2). apply Forall2_length in Ha1.
  rewrite <- Hsz in Hi, Ht, Ht2.
  destruct (leaf_insert_at slots (S:=St) l kvs1 kvs2 entry c w i t1 t2) as [Hr Hok]; [done..|].
  assert (length (t1 ++ i :: t2) = S (l_size c)) as Hnew.
  { rewrite length_app. simpl. assert (length (t1 ++ t2) = l_size c) as Hl12; [|rewrite length_app in Hl12; lia].
    rewrite <- Ht, length_take, (lx_len _ _ _ _ _ Hix). lia. }
  pose proof (exec_insert_pre l c w entry i t1 t2 Hv) as Hpre. cbv zeta in Hpre.
  rewrite Hnew, <- app_assoc in Hpre. specialize (Hpre ltac:(lia) ltac:(rewrite (lx_len_w _ _ _ _ _ Hix); lia)).
  eexists i, ([SEntry i entry; Flush (LEntry i)] ++ insert_idx_events (1 - consistent_id l) c i (length kvs1)), _.
  unfold insert_idx_events. rewrite Ht1, Ht2. split_and!; [split| |exact Hr].
  - intros c' w' Hv'. by destruct (versions_inj _ _ _ _ _ Hv Hv') as [-> ->].
  - constructor; [done|]. constructor; [done|]. apply harmless_idx. rewrite Hnew, Hsz. lia.
  - exact Hpre.
  - exact Hok.
  - unfold insert_trace. returns_step @leaf_all_returns. cbv zeta.
    rewrite lower_bound_spec by (done || (intros y Hy; by apply key_lt_le, H2)). rewrite lookup_app_r, Nat.sub_diag by lia.
    rewrite head_other by done.
    returns_step @consistent_returns. returns_step @returns_deref. unfold insert_idx_events. rewrite Ht1, Ht2. apply returns_ret.
Qed.
Lemma erase_change l kvs1 (e : K * V) kvs2 St :
  leaf_ok slots l (kvs1 ++ e :: kvs2) →
  ∃ slot pre l2, change l (kvs1 ++ e :: kvs2) slot pre l2 (kvs1 ++ kvs2)
    ∧ returns (erase_trace l e.1 : M St _) (change_events l pre)
    ∧ returns (leaf_erase l e.1 : M St _) (switch_consistent l2, 1%nat).
Proof.
  intros Hl. pose proof (leaf_len _ _ _ Hl) as Hlen.
  pose proof Hl as [He Hid Hs (c & w & Hv & Hix)]. pose proof (lx_size _ _ _ _ _ Hix) as Hsz.
  destruct (index_cut _ _ _ _ _ _ Hix) as (t1 & [|i t2] & Ht & Ha1 & Ha2 & Ht1 & Ht2); [by inversion Ha2|].
  apply Forall2_length in Ha1. rewrite <- Hsz in Ht, Ht2, Hlen.
  destruct (leaf_erase_at slots (S:=St) l kvs1 e kvs2 c w i t1 t2) as [Hr Hok]; [done..|].
  assert (length (t1 ++ t2 ++ [i]) = l_size c) as Hnew.
  { assert (length (t1 ++ i :: t2) = l_size c) as Hl12 by (rewrite <- Ht, length_take, (lx_len _ _ _ _ _ Hix); lia).
    rewrite !length_app in *. simpl in *. lia. }
  assert (drop (length kvs1 + 1) (take (l_size c) (idxs c)) = t2) as Ht3.
  { rewrite <- drop_drop, Ht2. done. }
  assert (idxs c !! length kvs1 = Some i) as Hi.
  { assert ((t1 ++ i :: t2) !! length kvs1 = Some i) as Hx by (by apply list_lookup_middle).
    rewrite <- Ht, lookup_take_lt in Hx; [done|]. rewrite Hsz, length_app. simpl. lia. }
  pose proof (exec_erase_pre l c w (t1 ++ t2 ++ [i]) (l_size c - 1) Hv) as Hpre. cbv zeta in Hpre.
  rewrite Hnew, <- !app_assoc in Hpre. specialize (Hpre ltac:(rewrite (lx_len_w _ _ _ _ _ Hix); lia)).
  eexists slots, (remove_idx_events (1 - consistent_id l) c (length kvs1) i), _.
  unfold remove_idx_events. rewrite Ht1, Ht3. split_and!; [split| |exact Hr].
  - intros c' w' Hv' Hin. destruct (versions_inj _ _ _ _ _ Hv Hv') as [-> ->].
    assert (slots ∈ seq 0 slots) as [_ ?]%elem_of_seq; [|lia]. rewrite <- (lx_perm _ _ _ _ _ Hix). set_solver.
  - apply harmless_idx. rewrite Hnew, Hsz. lia.
  - exact Hpre.
  - exact Hok.
  - unfold erase_trace. returns_step @leaf_find_there. returns_step @leaf_size_returns.
    rewrite (proj2 (Nat.eqb_neq _ _)) by (rewrite length_app; simpl; lia).
    returns_step @consistent_returns. returns_step @returns_deref. unfold remove_idx_events. rewrite Ht1, Ht3. apply returns_ret.
Qed.

(** What is persistent may be all that a crash leaves. *)
Lemma torn_refl c : torn c c c.
Proof. split_and!; [done|by left|by left]. Qed.
Lemma image_dur m : l_v (mem m) = l_v (dur m) → image m (dur m).
Proof.
  intros Hv. split; try (by left); [done..|]. rewrite Hv. clear Hv.
  induction (l_v (dur m)); constructor; [apply torn_refl|done].
Qed.
End crash.

(** C12: a change of a leaf is atomic and durable.  An insertion of a new key into a leaf
    that has room, and a removal, on a leaf all of whose earlier stores are persistent, make the stores, flushes and persists of their trace,
    and leave the leaf the operation returns.  Whenever a crash stops them, and whatever
    stores it loses, the leaf that is found has its neighbours, and once
    [check_consistency] has seen another epoch it has exactly the entries from before
    or exactly those from after; after the last persist it has those from after. *)
Theorem leaf_changes_atomic {K V} `{!Key K, !KeyLaws K, !Key V, !Inhabited K, !Inhabited V}
    slots (l : leaf_node_t (K:=K) (V:=V)) kvs1 kvs2 (e : K * V) :
  (∀ x, x ∈ kvs1 → key_lt x.1 e.1) → (∀ x, x ∈ kvs2 → key_lt e.1 x.1) → (length (kvs1 ++ kvs2) < slots)%nat →
  (leaf_ok slots l (kvs1 ++ kvs2) →
   ∃ evs, returns (insert_trace l e : M () _) evs
     ∧ returns (leaf_insert slots l e : M () _) (mem (exec_events evs (clean l)), length kvs1, true)
     ∧ ∀ p i, image (exec_events (take p evs) (clean l)) i →
         (recovers slots l (kvs1 ++ kvs2) i ∨ recovers slots l (kvs1 ++ e :: kvs2) i)
         ∧ ((length evs ≤ p)%nat → recovers slots l (kvs1 ++ e :: kvs2) i))
  ∧ (leaf_ok slots l (kvs1 ++ e :: kvs2) →
     ∃ evs, returns (erase_trace l e.1 : M () _) evs
       ∧ returns (leaf_erase l e.1 : M () _) (mem (exec_events evs (clean l)), 1%nat)
       ∧ ∀ p i, image (exec_events (take p evs) (clean l)) i →
           (recovers slots l (kvs1 ++ e :: kvs2) i ∨ recovers slots l (kvs1 ++ kvs2) i)
           ∧ ((length evs ≤ p)%nat → recovers slots l (kvs1 ++ kvs2) i)).
Proof.
  intros H1 H2 Hlt. split; intros Hl.
  - destruct (insert_change slots l kvs1 kvs2 e () Hl Hlt H1 H2) as (slot & pre & l2 & Hch & Ht & Hr).
    eexists. split; [exact Ht|]. rewrite (exec_change _ _ _ _ _ _ _ Hch). split; [exact Hr|].
    intros p i. by apply (change_atomic slots l _ slot pre l2).
  - destruct (erase_change slots l kvs1 e kvs2 () Hl) as (slot & pre & l2 & Hch & Ht & Hr).
    eexists. split; [exact Ht|]. rewrite (exec_change _ _ _ _ _ _ _ Hch). split; [exact Hr|].
    intros p i. by apply (change_atomic slots l _ slot pre l2).
Qed.

#[local] Instance number_key : Key Z := { key_ltb := Z.ltb; key_eqb := Z.eqb }.
#[local] Instance number_key_laws : KeyLaws Z.
Proof. split; simpl; intros; lia. Qed.
Definition demo_leaf : leaf_node_t (K:=Z) (V:=Z) := raw_leaf 3 0 0 0.
Lemma demo_leaf_ok : leaf_ok 3 demo_leaf [].
Proof. apply (new_leaf_ok (K:=Z) (V:=Z) 3 (S:=()) 0). Qed.
Lemma leaf_changes_atomic_witness :
  ∃ evs, returns (insert_trace demo_leaf (5, 50) : M () _) evs
    ∧ ∀ p i, image (exec_events (take p evs) (clean demo_leaf)) i →
      recovers 3 demo_leaf [] i ∨ recovers 3 demo_leaf [(5, 50)] i.
Proof.
  destruct (leaf_changes_atomic 3 demo_leaf [] [] (5, 50)) as [H _]; [set_solver..|simpl; lia|].
  destruct (H demo_leaf_ok) as (evs & He & _ & Hp). exists evs. split; [exact He|]. intros p i Hi. exact (proj1 (Hp p i Hi)).
Defined.

(** ** The epoch

    [garbage_collection] counts the epoch of the tree up and does not persist it (the
    call is commented out), and neither does [check_consistency] the epoch of the
    leaf. *)
Section epoch.
Context {K V : Type} `{!Key K, !KeyLaws K, !Key V, !Inhabited K, !Inhabited V}.
Context (slots pool_room : nat) (fresh : gmap Z (node_t (K:=K) (V:=V)) → Z).
Abbreviation bt := (b_tree (K:=K) (V:=V)).
Implicit Types (s : bt) (l i : leaf_node_t (K:=K) (V:=V)) (p : Z).

(** Opening the tree, and the first visit of the leaf at [p]. *)
Definition open_and_visit p : M bt () := garbage_collection slots pool_room fresh ;; check_leaf p.
(** What a crash leaves of a tree that was opened as [s0] and is [s] now, when the
    leaf at [p] is left as [i]: the word of the epoch may be the one from before. *)
Definition crashed s0 s p i (s' : bt) : Prop :=
  ∃ e, word (epoch s0) (epoch s) e ∧ s' = s <| epoch := e |> <| nodes := <[p := Leaf i]> (nodes s) |>.

Lemma open_and_visit_run s p l :
  split_node s = 0 → nodes s !! p = Some (Leaf l) →
  open_and_visit p s = Ret tt (s <| epoch := u64 (epoch s + 1) |>
    <| nodes := <[p := Leaf (check_consistency (u64 (epoch s + 1)) l)]> (nodes s) |>).
Proof.
  intros Hs Hl. unfold open_and_visit, garbage_collection, check_leaf, cast_leaf, node_at, store, modify, get, mbind, M_bind.
  simpl. rewrite Hs. simpl. by rewrite Hl.
Qed.
(** Nothing that [check_consistency] writes is persisted, but all of it may be. *)
Lemma visit_image e l : image (Machine (check_consistency e l) l []) (check_consistency e l).
Proof.
  assert (∀ vs, Forall3 torn vs vs vs) as Hvs.
  { intros vs. induction vs; constructor; [apply torn_refl|done]. }
  unfold check_consistency. destruct (negb _); split; simpl; try (by right); try (by left); done.
Qed.
End epoch.

(** C40: a completed insertion can be lost in a crash.  A tree is opened, which counts
    its epoch up in the cache only, a leaf is visited and gets the new epoch, and an
    insertion into it runs to its end: the leaf holds the entry, and [p_consistent_id]
    is persistent.  A crash may leave the leaf with its new epoch (its first line was
    written back after the visit, before the insertion stored [consistent_id]) and the
    tree with the epoch from before it was opened.  Opening the tree again counts to
    the epoch the leaf has, so [check_consistency] does not repair the leaf, which is
    read as it was before the insertion. *)
Theorem completed_insert_lost {K V} `{!Key K, !KeyLaws K, !Key V, !Inhabited K, !Inhabited V}
    slots pool_room fresh (s0 : b_tree (K:=K) (V:=V)) p l0 kvs1 kvs2 (e : K * V) :
  split_node s0 = 0 → nodes s0 !! p = Some (Leaf l0) →
  leaf_ok slots (check_consistency (u64 (epoch s0 + 1)) l0) (kvs1 ++ kvs2) → (length (kvs1 ++ kvs2) < slots)%nat →
  (∀ x, x ∈ kvs1 → key_lt x.1 e.1) → (∀ x, x ∈ kvs2 → key_lt e.1 x.1) →
  ∃ s1 l l' evs i s2 s3,
    open_and_visit slots pool_room fresh p s0 = Ret tt s1 ∧ nodes s1 !! p = Some (Leaf l)
    ∧ image (Machine l l0 []) l
    ∧ returns (insert_trace l e : M () _) evs ∧ mem (exec_events evs (clean l)) = l'
    ∧ returns (leaf_insert slots l e : M () _) (l', length kvs1, true)
    ∧ returns (leaf_all l' : M () _) (kvs1 ++ e :: kvs2)
    ∧ image (exec_events evs (clean l)) i ∧ crashed s0 s1 p i s2
    ∧ open_and_visit slots pool_room fresh p s2 = Ret tt s3 ∧ nodes s3 !! p = Some (Leaf i)
    ∧ returns (leaf_all i : M () _) (kvs1 ++ kvs2).
Proof.
  intros Hs0 Hl0 Hl Hlt H1 H2. set (l := check_consistency (u64 (epoch s0 + 1)) l0) in *.
  assert (l_epoch l = u64 (epoch s0 + 1)) as Hle.
  { unfold l, check_consistency. destruct (Z.eqb_spec (u64 (epoch s0 + 1)) (l_epoch l0)); [by symmetry|done]. }
  destruct (insert_change slots l kvs1 kvs2 e () Hl Hlt H1 H2) as (slot & pre & l2 & Hch & Ht & Hr).
  destruct (change_writing _ _ _ _ _ _ _ Hch) as [(Hep & Hid & _) Hlike].
  set (i := l2 <| p_consistent_id := 1 - consistent_id l |>).
  assert (returns (leaf_all i : M () _) (kvs1 ++ kvs2)) as Hall.
  { set (j := l2 <| p_consistent_id := consistent_id l2 |>).
    assert (leaf_ok slots (check_consistency (l_epoch j + 1) j) (kvs1 ++ kvs2)) as Hj.
    { eapply (like_ok slots l _ slot); [exact Hl|apply Hch| |done|lia]. by destruct Hlike. }
    unfold check_consistency in Hj. rewrite (proj2 (Z.eqb_neq _ _)) in Hj by lia.
    exact (leaf_all_returns slots (S:=()) _ _ Hj). }
  assert (check_consistency (u64 (epoch s0 + 1)) i = i) as Hi.
  { unfold check_consistency. simpl. by rewrite Hep, Hle, Z.eqb_refl. }
  eexists _, l, (mem (exec_events (change_events l pre) (clean l))), (change_events l pre), i, _, _. split_and!.
  - by apply open_and_visit_run.
  - apply lookup_insert_eq.
  - apply visit_image.
  - exact Ht.
  - reflexivity.
  - rewrite (exec_change _ _ _ _ _ _ _ Hch). exact Hr.
  - rewrite (exec_change _ _ _ _ _ _ _ Hch). apply (leaf_all_returns slots), Hch.
  - rewrite (exec_change _ _ _ _ _ _ _ Hch). by apply (image_dur (Machine (switch_consistent l2) i [])).
  - exists (epoch s0). split; [by left|reflexivity].
  - apply open_and_visit_run; [done|apply lookup_insert_eq].
  - simpl. rewrite Hi. apply lookup_insert_eq.
  - exact Hall.
Qed.

Definition demo_tree : b_tree (K:=Z) (V:=Z) := mk_btree 4 1 0 0 0 {[1 := Leaf demo_leaf]}.
Lemma completed_insert_lost_witness :
  ∃ s1 i s2 s3, open_and_visit 3 10 (λ _, 7) 1 demo_tree = Ret tt s1 ∧ crashed demo_tree s1 1 i s2
    ∧ open_and_visit 3 10 (λ _, 7) 1 s2 = Ret tt s3 ∧ nodes s3 !! 1 = Some (Leaf i)
    ∧ returns (leaf_all i : M () _) [].
Proof.
  assert (leaf_ok 3 (check_consistency (u64 (4 + 1)) demo_leaf) ([] ++ [])) as Hok
    by (apply check_consistency_ok, demo_leaf_ok).
  destruct (completed_insert_lost 3 10 (λ _, 7) demo_tree 1 demo_leaf [] [] (5, 50) eq_refl
    (lookup_singleton_eq 1 _) Hok) as (s1 & l & l' & evs & i & s2 & s3 & Hopen & _ & _ & _ & _ & _ & _ & _ & Hcr & Hre & Hp & Hall);
    [simpl; lia|set_solver..|]. by exists s1, i, s2, s3.
Defined.
