(* ===== verification/BTreeRep.v ===== *)
(** The shape of a B-tree: trees of pointers with their contents, the order of their
    keys, the path to a position in them, and how a store of nodes holds one. *)

From stdpp Require Import sorting.
From S2P Require Import Prelude BTree BTreeNode.

(** Two blocks with their heads change places. *)
Lemma swap_blocks {A} (a b : A) (l k m : list A) : a :: l ++ b :: k ++ m ≡ₚ b :: k ++ a :: l ++ m.
Proof.
  rewrite <- !Permutation_middle, Permutation_swap. do 2 f_equiv. rewrite !app_assoc. f_equiv. apply Permutation_app_comm.
Qed.

Section trees.
Context {K V : Type} `{!Key K, !KeyLaws K, !Key V, !Inhabited K, !Inhabited V}.
Context (slots : nat).

Inductive tree :=
| TLeaf (p : Z) (kvs : list (K * V))
| TNode (p : Z) (ks : list K) (cs : list tree).
Implicit Types (t c : tree) (ks : list K) (cs : list tree) (k : K).

Lemma tree_list_ind (P : tree → Prop) :
  (∀ p kvs, P (TLeaf p kvs)) → (∀ p ks cs, Forall P cs → P (TNode p ks cs)) → ∀ t, P t.
Proof.
  intros Hl Hn. fix IH 1. intros [p kvs|p ks cs]; [apply Hl|apply Hn].
  induction cs as [|c cs IHcs]; constructor; [apply IH|exact IHcs].
Qed.

Definition ptr t : Z := match t with TLeaf p _ => p | TNode p _ _ => p end.
Fixpoint leaves t : list Z :=
  match t with TLeaf p _ => [p] | TNode _ _ cs => flat_map leaves cs end.
Fixpoint flat t : list (K * V) :=
  match t with TLeaf _ kvs => kvs | TNode _ _ cs => flat_map flat cs end.

(** ** Order

    A subtree has the keys above its lower bound up to its upper bound; [None] is no
    bound. *)
Definition bound : Type := option K.
Implicit Types lo hi : bound.

Definition blt lo hi : Prop :=
  match lo, hi with Some a, Some b => key_lt a b | _, _ => True end.
Definition in_range lo hi k : Prop :=
  match lo with Some a => key_lt a k | None => True end ∧ match hi with Some b => key_le k b | None => True end.

Section kids.
Context (P : tree → bound → bound → Prop).
(** The children of a node, with the keys between them as their bounds. *)
Fixpoint kids lo ks cs hi : Prop :=
  match ks, cs with
  | [], [c] => P c lo hi
  | k :: ks, c :: cs => P c lo (Some k) ∧ kids (Some k) ks cs hi
  | _, _ => False
  end.
(** The children before and after one of them. *)
Fixpoint lefts lo ks cs : Prop :=
  match ks, cs with
  | [], [] => True
  | k :: ks, c :: cs => P c lo (Some k) ∧ lefts (Some k) ks cs
  | _, _ => False
  end.
Definition rights ks cs hi : Prop :=
  match ks, cs with
  | [], [] => True
  | k :: ks, _ => kids (Some k) ks cs hi
  | _, _ => False
  end.
Fixpoint lob lo ks : bound := match ks with [] => lo | k :: ks => lob (Some k) ks end.
Definition hib ks hi : bound := match ks with [] => hi | k :: _ => Some k end.

Lemma kids_length lo ks cs hi : kids lo ks cs hi → length cs = S (length ks).
Proof.
  revert lo cs. induction ks as [|k ks IH]; intros lo [|c cs]; simpl; try done.
  - by destruct cs.
  - intros [_ Hk]. by rewrite (IH _ _ Hk).
Qed.
Lemma kids_focus lo ks1 ks2 cs1 c cs2 hi :
  length cs1 = length ks1 →
  kids lo (ks1 ++ ks2) (cs1 ++ c :: cs2) hi ↔
  lefts lo ks1 cs1 ∧ P c (lob lo ks1) (hib ks2 hi) ∧ rights ks2 cs2 hi.
Proof.
  revert lo cs1. induction ks1 as [|k ks1 IH]; intros lo [|c1 cs1]; simpl; try done; intros Hl.
  - destruct ks2 as [|k2 ks2], cs2 as [|c2 cs2]; simpl; naive_solver.
  - rewrite IH by lia. naive_solver.
Qed.
Lemma kids_app lo ks1 k ks2 cs1 cs2 hi :
  length cs1 = S (length ks1) →
  kids lo (ks1 ++ k :: ks2) (cs1 ++ cs2) hi ↔ kids lo ks1 cs1 (Some k) ∧ kids (Some k) ks2 cs2 hi.
Proof.
  revert lo cs1. induction ks1 as [|k1 ks1 IH]; intros lo [|c1 cs1]; simpl; try done; intros Hl.
  - by destruct cs1.
  - rewrite IH by lia. naive_solver.
Qed.
(** A child is replaced by two. *)
Lemma kids_split lo ks1 k ks2 cs1 c d cs2 hi :
  length cs1 = length ks1 →
  kids lo (ks1 ++ k :: ks2) (cs1 ++ c :: d :: cs2) hi ↔
  lefts lo ks1 cs1 ∧ P c (lob lo ks1) (Some k) ∧ P d (Some k) (hib ks2 hi) ∧ rights ks2 cs2 hi.
Proof.
  intros Hl. rewrite kids_focus by done. simpl.
  pose proof (kids_focus (Some k) [] ks2 [] d cs2 hi eq_refl) as Hf. simpl in Hf. naive_solver.
Qed.

Lemma rights_length ks cs hi : rights ks cs hi → length cs = length ks.
Proof. destruct ks as [|k ks]; simpl; [by destruct cs|]. apply kids_length. Qed.
Lemma lefts_length lo ks cs : lefts lo ks cs → length cs = length ks.
Proof.
  revert lo cs. induction ks as [|k ks IH]; intros lo [|c cs]; simpl; try done. intros [_ Hl]. by rewrite (IH _ _ Hl).
Qed.
Lemma rights_app ks1 k ks2 cs1 cs2 hi :
  length cs1 = length ks1 →
  rights (ks1 ++ k :: ks2) (cs1 ++ cs2) hi ↔ rights ks1 cs1 (Some k) ∧ kids (Some k) ks2 cs2 hi.
Proof.
  intros Hl. destruct ks1 as [|k1 ks1], cs1 as [|c1 cs1]; try done; simpl; [naive_solver|].
  apply (kids_app (Some k1) ks1 k ks2 (c1 :: cs1) cs2). done.
Qed.
Lemma lefts_app lo ks1 k ks2 cs1 cs2 :
  length cs1 = S (length ks1) →
  lefts lo (ks1 ++ k :: ks2) (cs1 ++ cs2) ↔ kids lo ks1 cs1 (Some k) ∧ lefts (Some k) ks2 cs2.
Proof.
  revert lo cs1. induction ks1 as [|k1 ks1 IH]; intros lo [|c1 cs1]; simpl; try done; intros Hl.
  - by destruct cs1.
  - rewrite IH by lia. naive_solver.
Qed.
Lemma lefts_snoc lo ks cs k c :
  lefts lo ks cs → P c (lob lo ks) (Some k) → lefts lo (ks ++ [k]) (cs ++ [c]).
Proof.
  revert lo cs. induction ks as [|k1 ks IH]; intros lo [|c1 cs]; simpl; try done. naive_solver.
Qed.
Lemma lob_app lo ks1 ks2 : lob lo (ks1 ++ ks2) = lob (lob lo ks1) ks2.
Proof. revert lo. induction ks1 as [|k ks1 IH]; intros lo; simpl; [done|apply IH]. Qed.
Lemma hib_app ks1 ks2 hi : hib (ks1 ++ ks2) hi = hib ks1 (hib ks2 hi).
Proof. by destruct ks1. Qed.

Context (HP : ∀ c lo hi, P c lo hi → blt lo hi).
Lemma blt_trans lo k hi : blt lo (Some k) → blt (Some k) hi → blt lo hi.
Proof. destruct lo, hi; simpl; try done. apply key_trans. Qed.
Lemma kids_sorted lo ks cs hi :
  kids lo ks cs hi → blt lo hi ∧ ksorted ks ∧ ∀ k, k ∈ ks → blt lo (Some k) ∧ blt (Some k) hi.
Proof.
  revert lo cs. induction ks as [|k ks IH]; intros lo [|c cs]; simpl; try done.
  - destruct cs; [|done]. intros Hc%HP. split_and!; [done|constructor|by intros ? ?%elem_of_nil].
  - intros [Hc%HP Hk]. destruct (IH _ _ Hk) as (Hb & Hs & Hin). split_and!.
    + by eapply blt_trans.
    + constructor; [done|]. apply Forall_forall. intros x Hx. by apply Hin in Hx as [Hx _].
    + intros x [->|Hx]%elem_of_cons; [done|]. apply Hin in Hx as [Hx1 Hx2]. split; [|done].
      by eapply blt_trans.
Qed.
End kids.

Fixpoint wf (n : nat) t lo hi : Prop :=
  match n, t with
  | O, TLeaf _ kvs =>
    blt lo hi ∧ ksorted kvs.*1 ∧ (∀ e, e ∈ kvs → in_range lo hi e.1) ∧ (length kvs ≤ slots)%nat
  | S n, TNode _ ks cs => (length ks ≤ slots)%nat ∧ kids (wf n) lo ks cs hi
  | _, _ => False
  end.

Lemma wf_blt n t lo hi : wf n t lo hi → blt lo hi.
Proof.
  revert t lo hi. induction n as [|n IH]; intros [p kvs|p ks cs] lo hi; simpl; try done.
  - by intros [].
  - intros [_ Hk]. by apply (kids_sorted _ IH) in Hk as [].
Qed.
Lemma wf_keys n p ks cs lo hi :
  wf (S n) (TNode p ks cs) lo hi → ksorted ks ∧ ∀ k, k ∈ ks → blt lo (Some k) ∧ blt (Some k) hi.
Proof. intros [_ Hk]. by apply (kids_sorted _ (wf_blt n)) in Hk as (_ & ? & ?). Qed.

Lemma in_range_above lo k hi x : in_range (Some k) hi x → blt lo (Some k) → in_range lo hi x.
Proof. destruct lo; simpl; [|by intros [_ ?] _; split]. intros [Hx ?] Hl. split; [by eapply key_trans|done]. Qed.
Lemma in_range_below lo k hi x : in_range lo (Some k) x → blt (Some k) hi → in_range lo hi x.
Proof.
  destruct hi; simpl; [|by intros [? _] _; split]. intros [? Hx] Hh. split; [done|].
  apply key_lt_le. by eapply key_le_lt_trans.
Qed.

(** The entries are in the range and in order. *)
Definition ordered lo hi (l : list (K * V)) : Prop :=
  ksorted l.*1 ∧ ∀ e, e ∈ l → in_range lo hi e.1.
Lemma ordered_app lo k hi l1 l2 :
  ordered lo (Some k) l1 → ordered (Some k) hi l2 → blt lo (Some k) → blt (Some k) hi → ordered lo hi (l1 ++ l2).
Proof.
  intros [Hs1 Hr1] [Hs2 Hr2] Hl Hh. split.
  - rewrite fmap_app. apply ksorted_app. split_and!; [done..|].
    intros ? ? (x & -> & Hx)%list_elem_of_fmap (y & -> & Hy)%list_elem_of_fmap.
    apply Hr1 in Hx as [_ Hx]. apply Hr2 in Hy as [Hy _]. by eapply key_le_lt_trans.
  - intros e [He|He]%elem_of_app.
    + by eapply in_range_below; [apply Hr1|].
    + by eapply in_range_above; [apply Hr2|].
Qed.
Lemma kids_ordered P lo ks cs hi :
  (∀ c lo hi, P c lo hi → blt lo hi ∧ ordered lo hi (flat c)) → kids P lo ks cs hi →
  blt lo hi ∧ ordered lo hi (flat_map flat cs).
Proof.
  intros HP. revert lo cs. induction ks as [|k ks IH]; intros lo [|c cs]; simpl; try done.
  - destruct cs; [|done]. intros Hc. simpl. rewrite app_nil_r. by apply HP.
  - intros [[Hb Hc]%HP [Hb' Hk]%IH]. split; [by eapply blt_trans|]. by eapply ordered_app.
Qed.
Lemma wf_ordered n t lo hi : wf n t lo hi → blt lo hi ∧ ordered lo hi (flat t).
Proof.
  revert t lo hi. induction n as [|n IH]; intros [p kvs|p ks cs] lo hi; simpl; try done.
  - by intros (? & ? & ? & _).
  - intros [_ Hk]. by eapply kids_ordered.
Qed.

(** ** Paths

    A frame is a node with one of its children left out; a path is a list of frames,
    from the root down. *)
Record frame := Frame {
  f_ptr : Z; f_ks1 : list K; f_ks2 : list K; f_cs1 : list tree; f_cs2 : list tree
}.
Implicit Types (f : frame) (fs : list frame).

Definition f_keys f : list K := f_ks1 f ++ f_ks2 f.
Definition plug f t : tree := TNode (f_ptr f) (f_keys f) (f_cs1 f ++ t :: f_cs2 f).
Definition fill fs t : tree := foldr plug t fs.

Record frame_ok (n : nat) f lo hi : Prop := {
  fr_len : length (f_cs1 f) = length (f_ks1 f);
  fr_size : (length (f_keys f) ≤ slots)%nat;
  fr_lefts : lefts (wf n) lo (f_ks1 f) (f_cs1 f);
  fr_rights : rights (wf n) (f_ks2 f) (f_cs2 f) hi
}.
Definition f_lo f lo : bound := lob lo (f_ks1 f).
Definition f_hi f hi : bound := hib (f_ks2 f) hi.

Lemma wf_plug n f t lo hi :
  frame_ok n f lo hi → wf n t (f_lo f lo) (f_hi f hi) → wf (S n) (plug f t) lo hi.
Proof. intros [Hl Hs H1 H2] Ht. split; [done|]. by apply kids_focus. Qed.
Lemma wf_plug_inv n f t lo hi :
  wf (S n) (plug f t) lo hi → length (f_cs1 f) = length (f_ks1 f) →
  frame_ok n f lo hi ∧ wf n t (f_lo f lo) (f_hi f hi).
Proof. intros [Hs Hk] Hl. apply kids_focus in Hk as (H1 & Ht & H2); [|done]. by split. Qed.

Fixpoint path_ok (n : nat) fs lo hi (n' : nat) lo' hi' : Prop :=
  match fs with
  | [] => n = n' ∧ lo = lo' ∧ hi = hi'
  | f :: fs => ∃ m, n = S m ∧ frame_ok m f lo hi ∧ path_ok m fs (f_lo f lo) (f_hi f hi) n' lo' hi'
  end.
Lemma wf_fill n fs t lo hi n' lo' hi' :
  path_ok n fs lo hi n' lo' hi' → wf n' t lo' hi' → wf n (fill fs t) lo hi.
Proof.
  revert n lo hi. induction fs as [|f fs IH]; intros n lo hi; simpl.
  - by intros (-> & -> & ->).
  - intros (m & -> & Hf & Hp) Ht. apply wf_plug; [done|]. by eapply IH.
Qed.
Lemma wf_fill_inv n fs t lo hi n' lo' hi' :
  path_ok n fs lo hi n' lo' hi' → wf n (fill fs t) lo hi → wf n' t lo' hi'.
Proof.
  revert n lo hi. induction fs as [|f fs IH]; intros n lo hi.
  - by intros (-> & -> & ->).
  - intros (m & -> & Hf & Hp) Ht. apply wf_plug_inv in Ht as [_ Ht]; [|by apply Hf]. by eapply IH.
Qed.
Lemma path_app n fs1 fs2 lo hi n' lo' hi' :
  path_ok n (fs1 ++ fs2) lo hi n' lo' hi' ↔
  ∃ m lo1 hi1, path_ok n fs1 lo hi m lo1 hi1 ∧ path_ok m fs2 lo1 hi1 n' lo' hi'.
Proof.
  revert n lo hi. induction fs1 as [|f fs1 IH]; intros n lo hi; simpl.
  - split; [intros; by exists n, lo, hi|]. by intros (? & ? & ? & (-> & -> & ->) & ?).
  - setoid_rewrite IH. naive_solver.
Qed.
Lemma path_length n fs lo hi n' lo' hi' : path_ok n fs lo hi n' lo' hi' → n = (length fs + n')%nat.
Proof.
  revert n lo hi. induction fs as [|f fs IH]; intros n lo hi; simpl.
  - by intros [-> _].
  - intros (m & -> & _ & Hp). by rewrite (IH _ _ _ Hp).
Qed.
Lemma fill_app fs1 fs2 t : fill (fs1 ++ fs2) t = fill fs1 (fill fs2 t).
Proof. apply foldr_app. Qed.

(** Functions that collect something from the leaves, along a path. *)
Section collect.
Context {A : Type} (g : tree → list A) (Hg : ∀ p ks cs, g (TNode p ks cs) = flat_map g cs).
Fixpoint befores fs : list A :=
  match fs with [] => [] | f :: fs => flat_map g (f_cs1 f) ++ befores fs end.
Fixpoint afters fs : list A :=
  match fs with [] => [] | f :: fs => afters fs ++ flat_map g (f_cs2 f) end.
Lemma collect_fill fs t : g (fill fs t) = befores fs ++ g t ++ afters fs.
Proof.
  induction fs as [|f fs IH]; simpl; [by rewrite app_nil_r|].
  unfold plug. rewrite Hg, flat_map_app. simpl. rewrite IH. by rewrite <- !app_assoc.
Qed.
Lemma befores_app fs1 fs2 : befores (fs1 ++ fs2) = befores fs1 ++ befores fs2.
Proof. induction fs1 as [|f fs1 IH]; simpl; [done|]. by rewrite IH, app_assoc. Qed.
Lemma afters_app fs1 fs2 : afters (fs1 ++ fs2) = afters fs2 ++ afters fs1.
Proof. induction fs1 as [|f fs1 IH]; simpl; [by rewrite app_nil_r|]. by rewrite IH, app_assoc. Qed.
End collect.

(** Entries beside the path are below, or above, every key in the range of its end. *)
Lemma lefts_range n lo ks cs hi x :
  lefts (wf n) lo ks cs → in_range (lob lo ks) hi x →
  in_range lo hi x ∧ ∀ e, e ∈ flat_map flat cs → key_lt e.1 x.
Proof.
  revert lo cs. induction ks as [|k ks IH]; intros lo [|c cs]; simpl; try done.
  - intros _ Hx. split; [done|]. by intros ? ?%elem_of_nil.
  - intros [Hc Hl] Hx. apply wf_ordered in Hc as [Hb [_ Hc]].
    destruct (IH _ _ Hl Hx) as [Hx' Hin]. split; [by eapply in_range_above|].
    intros e [He|He]%elem_of_app; [|by apply Hin].
    apply Hc in He as [_ He]. destruct Hx' as [Hx' _]. by eapply key_le_lt_trans.
Qed.
Lemma rights_range n lo ks cs hi x :
  rights (wf n) ks cs hi → in_range lo (hib ks hi) x →
  in_range lo hi x ∧ ∀ e, e ∈ flat_map flat cs → key_lt x e.1.
Proof.
  destruct ks as [|k ks]; simpl.
  - destruct cs; [|done]. intros _ Hx. split; [done|]. by intros ? ?%elem_of_nil.
  - intros Hk Hx. apply (kids_ordered _ _ _ _ _ (wf_ordered n)) in Hk as [Hb [_ Hin]].
    split; [by eapply in_range_below|]. intros e He. apply Hin in He as [He _].
    destruct Hx as [_ Hx]. by eapply key_le_lt_trans.
Qed.
Lemma path_range n fs lo hi n' lo' hi' x :
  path_ok n fs lo hi n' lo' hi' → in_range lo' hi' x →
  in_range lo hi x ∧ (∀ e, e ∈ befores flat fs → key_lt e.1 x) ∧ (∀ e, e ∈ afters flat fs → key_lt x e.1).
Proof.
  revert n lo hi. induction fs as [|f fs IH]; intros n lo hi; simpl.
  - intros (-> & -> & ->) Hx. split_and!; [done|by intros ? ?%elem_of_nil..].
  - intros (m & -> & [_ _ Hl Hr] & Hp) Hx. destruct (IH _ _ _ Hp Hx) as (Hx' & Hb & Ha).
    destruct (lefts_range _ _ _ _ _ _ Hl Hx') as [Hx1 Hb1].
    destruct (rights_range _ _ _ _ _ _ Hr Hx1) as [Hx2 Ha2].
    split_and!; [done|intros e [?|?]%elem_of_app; auto..].
Qed.

(** *** Searching *)
Definition f_cut k f : Prop := (∀ x, x ∈ f_ks1 f → key_lt x k) ∧ (∀ x, x ∈ f_ks2 f → key_le k x).
Lemma cut_range ks1 ks2 lo hi k :
  (∀ x, x ∈ ks1 → key_lt x k) → (∀ x, x ∈ ks2 → key_le k x) → in_range lo hi k →
  in_range (lob lo ks1) (hib ks2 hi) k.
Proof.
  intros H1 H2 [Hlo Hhi]. split.
  - revert lo Hlo. induction ks1 as [|k1 ks1 IH]; intros lo Hlo; simpl; [done|].
    apply IH; [intros x Hx; apply H1; by apply elem_of_cons; right|]. apply H1. by apply elem_of_cons; left.
  - destruct ks2 as [|k2 ks2]; simpl; [done|]. apply H2. by apply elem_of_cons; left.
Qed.
Lemma cut_children cs (i : nat) : (i < length cs)%nat → ∃ cs1 c cs2, cs = cs1 ++ c :: cs2 ∧ length cs1 = i.
Proof.
  intros Hi. destruct (lookup_lt_is_Some_2 cs i Hi) as [c Hc]. exists (take i cs), c, (drop (S i) cs).
  split; [by rewrite take_drop_middle|]. rewrite length_take. lia.
Qed.
Lemma wf_search n t lo hi k :
  wf n t lo hi → in_range lo hi k →
  ∃ fs p kvs lo' hi', t = fill fs (TLeaf p kvs) ∧ path_ok n fs lo hi 0 lo' hi'
    ∧ wf 0 (TLeaf p kvs) lo' hi' ∧ in_range lo' hi' k ∧ Forall (f_cut k) fs.
Proof.
  revert t lo hi. induction n as [|n IH]; intros [p kvs|p ks cs] lo hi Hwf Hk; try done.
  - exists [], p, kvs, lo, hi. split_and!; try done.
  - pose proof (wf_keys _ _ _ _ _ _ Hwf) as [Hs _].
    destruct (sorted_cut id ks k) as (ks1 & ks2 & -> & H1 & H2 & _); [by rewrite list_fmap_id|].
    pose proof Hwf as [_ Hl%kids_length]. rewrite length_app in Hl.
    destruct (cut_children cs (length ks1)) as (cs1 & c & cs2 & -> & Hl1); [lia|].
    destruct (wf_plug_inv n (Frame p ks1 ks2 cs1 cs2) c lo hi Hwf Hl1) as [Hf Hc].
    destruct (IH c _ _ Hc) as (fs & q & kvs & lo' & hi' & -> & Hp & Hw & Hr & Hcut); [by apply cut_range|].
    exists (Frame p ks1 ks2 cs1 cs2 :: fs), q, kvs, lo', hi'. split_and!; [done|by exists n|done..|by constructor].
Qed.

(** ** Stores *)
Abbreviation store := (gmap Z (node_t (K:=K) (V:=V))).
Implicit Types h : store.

(** What a node holds; the links of leaves are described apart. *)
Inductive cell := CLeaf (kvs : list (K * V)) | CNode (lv : Z) (ks : list K) (ps : list Z).
Definition node_is (nd : node_t) (c : cell) : Prop :=
  match nd, c with
  | Leaf l, CLeaf kvs => leaf_ok slots l kvs
  | Inner i, CNode lv ks ps => inner_ok slots i lv ks ps
  | _, _ => False
  end.
Fixpoint cells (n : nat) t : list (Z * cell) :=
  match t with
  | TLeaf p kvs => [(p, CLeaf kvs)]
  | TNode p ks cs => (p, CNode (Z.of_nat n) ks (map ptr cs)) :: flat_map (cells (pred n)) cs
  end.
Lemma cells_height n t lo hi : wf n t lo hi → (n < length (cells n t))%nat.
Proof.
  revert t lo hi. induction n as [|n IH]; intros [p kvs|p ks cs] lo hi; try done; [simpl; lia|].
  intros [_ Hk]. simpl. destruct cs as [|c cs]; [by destruct ks|]. simpl. rewrite length_app.
  assert (∃ lo' hi', wf n c lo' hi') as (lo' & hi' & Hc) by (destruct ks; simpl in Hk; [destruct cs; [by eexists _, _|done]|destruct Hk; by eexists _, _]).
  apply IH in Hc. lia.
Qed.
(** The cells of a path whose end has the pointer [q]. *)
Definition f_cell (n : nat) f (q : Z) : Z * cell :=
  (f_ptr f, CNode (Z.of_nat n) (f_keys f) (map ptr (f_cs1 f) ++ q :: map ptr (f_cs2 f))).
Definition siblings (n : nat) f : list (Z * cell) :=
  flat_map (cells (pred n)) (f_cs1 f) ++ flat_map (cells (pred n)) (f_cs2 f).
Definition top fs (q : Z) : Z := match fs with [] => q | f :: _ => f_ptr f end.
Fixpoint outer (n : nat) fs (q : Z) : list (Z * cell) :=
  match fs with
  | [] => []
  | f :: fs => f_cell n f (top fs q) :: siblings n f ++ outer (pred n) fs q
  end.

Lemma ptr_fill fs t : ptr (fill fs t) = top fs (ptr t).
Proof. by destruct fs. Qed.
Lemma cells_plug n f t : cells n (plug f t) ≡ₚ f_cell n f (ptr t) :: siblings n f ++ cells (pred n) t.
Proof.
  unfold plug, f_cell, siblings. simpl. rewrite map_app. simpl. f_equiv.
  rewrite flat_map_app. simpl. rewrite <- app_assoc. f_equiv. apply Permutation_app_comm.
Qed.
Lemma cells_fill n fs t : cells n (fill fs t) ≡ₚ outer n fs (ptr t) ++ cells (n - length fs) t.
Proof.
  revert n. induction fs as [|f fs IH]; intros n; cbn [outer length]; [by rewrite Nat.sub_0_r|].
  change (fill (f :: fs) t) with (plug f (fill fs t)). rewrite cells_plug, ptr_fill, IH. replace (pred n - length fs)%nat with (n - S (length fs))%nat by lia.
  by rewrite app_assoc.
Qed.
Lemma outer_snoc n fs f q :
  outer n (fs ++ [f]) q ≡ₚ f_cell (n - length fs) f q :: siblings (n - length fs) f ++ outer n fs (f_ptr f).
Proof.
  revert n. induction fs as [|g fs IH]; intros n; simpl.
  - by rewrite Nat.sub_0_r, app_nil_r.
  - rewrite IH. replace (pred n - length fs)%nat with (n - S (length fs))%nat by lia.
    replace (top (fs ++ [f]) q) with (top fs (f_ptr f)) by (by destruct fs).
    apply swap_blocks.
Qed.

Implicit Types d : cell.

(** The store has exactly the nodes of a list of cells. *)
Record exact h (cl : list (Z * cell)) : Prop := {
  ex_nodup : NoDup cl.*1;
  ex_holds : ∀ (p : Z) d, (p, d) ∈ cl → ∃ nd, h !! p = Some nd ∧ node_is nd d;
  ex_dom : ∀ p, is_Some (h !! p) → p ∈ cl.*1;
  ex_null : 0 ∉ cl.*1
}.
#[export] Instance exact_perm h : Proper ((≡ₚ) ==> iff) (exact h).
Proof.
  assert (∀ cl cl', cl ≡ₚ cl' → exact h cl → exact h cl') as Hp.
  { intros cl cl' Hcl [H1 H2 H3 H4]. split.
    - by rewrite <- Hcl.
    - intros p d. rewrite <- Hcl. apply H2.
    - intros p. rewrite <- Hcl. apply H3.
    - by rewrite <- Hcl. }
  intros cl cl' Hcl. split; apply Hp; [done|by symmetry].
Qed.

Lemma exact_alloc h cl p nd d :
  h !! p = None → p ≠ 0 → node_is nd d → exact h cl → exact (<[p := nd]> h) ((p, d) :: cl).
Proof.
  intros Hp H0 Hn [H1 H2 H3 H4]. assert (p ∉ cl.*1) as Hpl.
  { intros ([q d'] & -> & Hq)%list_elem_of_fmap. apply H2 in Hq as (? & Hq & _). simpl in Hp. congruence. }
  split; simpl.
  - by constructor.
  - intros q d' [[= -> ->]|Hq]%elem_of_cons; [exists nd; by rewrite lookup_insert_eq|].
    assert (q ∈ cl.*1) as Hq' by (by apply (list_elem_of_fmap_2 fst) in Hq).
    rewrite lookup_insert_ne by (intros ->; done). by apply H2.
  - intros q. rewrite lookup_insert_is_Some, elem_of_cons. intros [->|[_ Hq]]; [by left|right; by apply H3].
  - apply not_elem_of_cons. done.
Qed.
Lemma exact_update h cl p nd d d' :
  node_is nd d' → exact h ((p, d) :: cl) → exact (<[p := nd]> h) ((p, d') :: cl).
Proof.
  intros Hn [H1 H2 H3 H4]. simpl in *. apply NoDup_cons in H1 as [Hp H1]. split; simpl.
  - by constructor.
  - intros q d'' [[= -> ->]|Hq]%elem_of_cons; [exists nd; by rewrite lookup_insert_eq|].
    assert (q ∈ cl.*1) as Hq' by (by apply (list_elem_of_fmap_2 fst) in Hq).
    rewrite lookup_insert_ne by (intros ->; done). apply H2. by apply elem_of_cons; right.
  - intros q. rewrite lookup_insert_is_Some, elem_of_cons. intros [->|[_ Hq]]; [by left|]. apply H3 in Hq. by apply elem_of_cons in Hq.
  - done.
Qed.
Lemma exact_delete h cl p d : exact h ((p, d) :: cl) → exact (delete p h) cl.
Proof.
  intros [H1 H2 H3 H4]. simpl in *. apply NoDup_cons in H1 as [Hp H1].
  apply not_elem_of_cons in H4 as [H0 H4]. split; [done| | |done].
  - intros q d' Hq. assert (q ∈ cl.*1) as Hq' by (by apply (list_elem_of_fmap_2 fst) in Hq).
    rewrite lookup_delete_ne by (intros ->; done). apply H2. by apply elem_of_cons; right.
  - intros q. rewrite lookup_delete_is_Some. intros [Hne Hq]. apply H3, elem_of_cons in Hq as [->|Hq]; done.
Qed.
Lemma exact_size h cl : exact h cl → size h = length cl.
Proof.
  intros [H1 H2 H3 _]. rewrite <- size_dom. assert (dom h = list_to_set cl.*1) as ->.
  - apply set_eq. intros p. rewrite elem_of_dom, elem_of_list_to_set. split; [apply H3|].
    intros ([q d] & -> & Hq)%list_elem_of_fmap. apply H2 in Hq as (nd & Hq & _). by exists nd.
  - rewrite size_list_to_set by done. apply length_fmap.
Qed.
Lemma exact_leaf h cl p kvs : exact h cl → (p, CLeaf kvs) ∈ cl → ∃ l, h !! p = Some (Leaf l) ∧ leaf_ok slots l kvs.
Proof. intros Hex Hp. apply (ex_holds _ _ Hex) in Hp as ([l|i] & Hl & Hok); [by exists l|done]. Qed.
Lemma exact_inner h cl p lv ks ps :
  exact h cl → (p, CNode lv ks ps) ∈ cl → ∃ i, h !! p = Some (Inner i) ∧ inner_ok slots i lv ks ps.
Proof. intros Hex Hp. apply (ex_holds _ _ Hex) in Hp as ([l|i] & Hl & Hok); [done|by exists i]. Qed.

(** ** The chain of leaves *)
Definition link h (p : Z) : option (Z * Z) :=
  match h !! p with Some (Leaf l) => Some (prev l, next l) | _ => None end.
Fixpoint lastp (pr : Z) (ps : list Z) : Z := match ps with [] => pr | p :: ps => lastp p ps end.
Definition headp (ps : list Z) (nx : Z) : Z := match ps with [] => nx | p :: _ => p end.
Fixpoint chain h (pr : Z) (ps : list Z) (nx : Z) : Prop :=
  match ps with
  | [] => True
  | p :: ps => link h p = Some (pr, headp ps nx) ∧ chain h p ps nx
  end.

Lemma headp_app ps qs nx : headp (ps ++ qs) nx = headp ps (headp qs nx).
Proof. by destruct ps. Qed.
Lemma chain_app h pr ps qs nx :
  chain h pr (ps ++ qs) nx ↔ chain h pr ps (headp qs nx) ∧ chain h (lastp pr ps) qs nx.
Proof.
  revert pr. induction ps as [|p ps IH]; intros pr; simpl; [naive_solver|].
  rewrite IH, headp_app. naive_solver.
Qed.
Lemma lastp_snoc pr ps p : lastp pr (ps ++ [p]) = p.
Proof. revert pr. induction ps as [|q ps IH]; intros pr; simpl; [done|apply IH]. Qed.
Lemma chain_ext h h' pr ps nx : (∀ p, p ∈ ps → link h' p = link h p) → chain h pr ps nx → chain h' pr ps nx.
Proof.
  revert pr. induction ps as [|p ps IH]; intros pr Hl; simpl; [done|].
  intros [Hp Hc]. split; [rewrite Hl; [done|by apply elem_of_cons; left]|].
  apply IH; [|done]. intros q Hq. apply Hl. by apply elem_of_cons; right.
Qed.
Lemma link_insert h p nd q : p ≠ q → link (<[p := nd]> h) q = link h q.
Proof. intros Hp. unfold link. by rewrite lookup_insert_ne. Qed.
Lemma link_insert_eq h p l : link (<[p := Leaf l]> h) p = Some (prev l, next l).
Proof. unfold link. by rewrite lookup_insert_eq. Qed.
Lemma link_delete h p q : p ≠ q → link (delete p h) q = link h q.
Proof. intros Hp. unfold link. by rewrite lookup_delete_ne. Qed.

(** The pointers of the leaves among the cells. *)
Definition leaf_ptr (pc : Z * cell) : option Z := match pc.2 with CLeaf _ => Some pc.1 | CNode _ _ _ => None end.
Lemma leaves_cells n t : leaves t = omap leaf_ptr (cells n t).
Proof.
  revert n. induction t as [p kvs|p ks cs IH] using tree_list_ind; intros n; [done|].
  change (flat_map leaves cs = omap leaf_ptr (flat_map (cells (pred n)) cs)).
  induction IH as [|c cs Hc _ IHcs]; [done|]. simpl. by rewrite omap_app, <- Hc, IHcs.
Qed.
Lemma NoDup_leaf_ptr (cl : list (Z * cell)) : NoDup cl.*1 → NoDup (omap leaf_ptr cl).
Proof.
  induction cl as [|[p d] cl IH]; [done|]. intros [Hp Hn]%NoDup_cons. destruct d; simpl; [|by apply IH].
  constructor; [|by apply IH]. intros ([q d] & Hq & Hl)%list_elem_of_omap. destruct d; [|done].
  unfold leaf_ptr in Hl. simpl in Hl. injection Hl as ->. apply Hp. exact (list_elem_of_fmap_2 fst cl _ Hq).
Qed.
Lemma elem_of_leaves n t p : p ∈ leaves t → ∃ kvs, (p, CLeaf kvs) ∈ cells n t.
Proof.
  rewrite (leaves_cells n). intros ([q d] & Hq & Hl)%list_elem_of_omap. destruct d; [|done].
  unfold leaf_ptr in Hl. simpl in Hl. injection Hl as ->. by eexists.
Qed.
End trees.
