(* ===== verification/BTreeSplit.v ===== *)
(** Splitting nodes of the B-tree: an inner node on the path to a key, below a parent
    that has room or at the root, and a full leaf.  Each split keeps the tree in order,
    the chain of leaves, and the entries. *)

From stdpp Require Import sorting.
From S2P Require Import Prelude BTree BTreeNode BTreeRep.

#[local] Arguments Nat.div : simpl never.

Section split.
Context {K V : Type} `{!Key K, !KeyLaws K, !Key V, !Inhabited K, !Inhabited V}.
Context (slots : nat) (Hslots : (2 ≤ slots)%nat).
Context (pool_room : nat) (Hroom : Z.of_nat pool_room < 2 ^ 64).
Context (fresh : gmap Z (node_t (K:=K) (V:=V)) → Z).
Context (Hfresh : ∀ h, h !! fresh h = None ∧ fresh h ≠ 0).
Abbreviation bt := (b_tree (K:=K) (V:=V)).
Implicit Types (s : bt) (t : tree (K:=K) (V:=V)) (f g : frame (K:=K) (V:=V)) (k : K) (lo hi : bound (K:=K)).

(** The tree [t] of height [n] is what the store of [s] holds. *)
Record inv s (n : nat) t : Prop := {
  iv_root : root s = ptr t;
  iv_exact : exact slots (nodes s) (cells n t);
  iv_chain : chain (nodes s) 0 (leaves t) 0;
  iv_wf : wf slots n t None None;
  iv_split : split_node s = 0;
  iv_room : (size (nodes s) ≤ pool_room)%nat
}.

(** ** Rules for the primitives *)
Lemma wp_node_at p nd E (Q : node_t → bt → Prop) s :
  nodes s !! p = Some nd → wp (node_at p) E Q s ↔ Q nd s.
Proof. intros Hp. unfold node_at. by rewrite wp_bind, wp_get, wp_deref, Hp. Qed.
Lemma wp_cast_leaf p l E (Q : leaf_node_t → bt → Prop) s :
  nodes s !! p = Some (Leaf l) → wp (cast_leaf p) E Q s ↔ Q l s.
Proof. intros Hp. unfold cast_leaf. by rewrite wp_bind, (wp_node_at _ _ _ _ _ Hp), wp_ret. Qed.
Lemma wp_cast_inner p i E (Q : inner_node_t → bt → Prop) s :
  nodes s !! p = Some (Inner i) → wp (cast_inner p) E Q s ↔ Q i s.
Proof. intros Hp. unfold cast_inner. by rewrite wp_bind, (wp_node_at _ _ _ _ _ Hp), wp_ret. Qed.
(** The only way to stop: the pool has no room for another node when it has [c]. *)
Definition full_pool (c : nat) : fault → Prop := λ e, e = bad_alloc ∧ (pool_room ≤ c)%nat.
Lemma full_pool_mono c c' e : (c ≤ c')%nat → full_pool c e → full_pool c' e.
Proof using. clear Hslots Hroom. intros ? []. split; [done|lia]. Qed.

Lemma wp_allocate m nd c (Q : () → bt → Prop) s :
  (size (nodes s) ≤ c)%nat →
  (let p := fresh (nodes s) in
   nodes s !! p = None → p ≠ 0 → (size (nodes s) < pool_room)%nat →
   Q tt (assign_member m p (s <| nodes := <[p := nd]> (nodes s) |>))) →
  wp (allocate pool_room fresh m nd) (full_pool c) Q s.
Proof using Hfresh.
  clear Hslots Hroom. intros Hc HQ. unfold allocate. rewrite wp_bind, wp_get.
  destruct (Nat.ltb_spec (size (nodes s)) pool_room).
  - rewrite wp_modify. destruct (Hfresh (nodes s)). by apply HQ.
  - rewrite wp_fail. split; [done|lia].
Qed.

(** ** Halves of a node *)

(** A node on the path and its parent, split at key [e]; the parts are at [l] and [r]. *)
Definition split_tree f g (e : K) (l r : Z) t : tree :=
  let ks := f_keys g in
  let cs := f_cs1 g ++ t :: f_cs2 g in
  let mid := (length ks / 2)%nat in
  TNode (f_ptr f) (f_ks1 f ++ e :: f_ks2 f)
    (f_cs1 f ++ TNode l (take mid ks) (take (S mid) cs)
       :: TNode r (drop (S mid) ks) (drop (S mid) cs) :: f_cs2 f).

Record split_frames (m : nat) f g (e : K) (l r : Z) lo hi k (f' g' : frame) : Prop := {
  sf_ptr : f_ptr f' = f_ptr f;
  sf_frame : frame_ok slots (S m) f' lo hi;
  sf_frame' : frame_ok slots m g' (f_lo f' lo) (f_hi f' hi);
  sf_lo : f_lo g' (f_lo f' lo) = f_lo g (f_lo f lo);
  sf_hi : f_hi g' (f_hi f' hi) = f_hi g (f_hi f hi);
  sf_cut : f_cut k f';
  sf_cut' : f_cut k g';
  sf_room : (length (f_keys g') < slots)%nat;
  sf_tree : ∀ t, plug f' (plug g' t) = split_tree f g e l r t
}.

Lemma split_frames_left m f g (e : K) l r lo hi k :
  frame_ok slots (S m) f lo hi → frame_ok slots m g (f_lo f lo) (f_hi f hi) →
  (length (f_keys f) < slots)%nat → f_cut k f → f_cut k g →
  f_keys g !! (length (f_keys g) / 2)%nat = Some e → (length (f_ks1 g) ≤ length (f_keys g) / 2)%nat →
  ∃ f' g', split_frames m f g e l r lo hi k f' g'.
Proof.
  destruct f as [p fk1 fk2 fc1 fc2], g as [q ks1 ks2 cs1 cs2]. unfold f_keys, f_lo, f_hi, f_cut. simpl.
  intros [Hfl Hfs Hf1 Hf2] [Hgl Hgs Hg1 Hg2] Hsz [Hcf1 Hcf2] [Hcg1 Hcg2]. unfold f_keys in *. simpl in *.
  set (mid := (length (ks1 ++ ks2) / 2)%nat). intros He Hm.
  assert (mid < length (ks1 ++ ks2))%nat as Hmid by (by eapply lookup_lt_Some).
  rewrite lookup_app_r in He by done. pose proof (rights_length _ _ _ _ Hg2) as Hgr.
  set (j := (mid - length ks1)%nat) in *.
  assert (j < length ks2)%nat as Hj by (by eapply lookup_lt_Some).
  assert (ks2 = take j ks2 ++ e :: drop (S j) ks2) as Hks2 by (symmetry; by apply take_drop_middle).
  assert (rights (wf slots m) (take j ks2) (take j cs2) (Some e)
    ∧ kids (wf slots m) (Some e) (drop (S j) ks2) (drop j cs2) (hib fk2 hi)) as [Hga Hgb].
  { rewrite Hks2, <- (take_drop j cs2) in Hg2. apply rights_app in Hg2; [done|]. rewrite !length_take. lia. }
  set (rt := TNode r (drop (S j) ks2) (drop j cs2)).
  assert (wf slots (S m) rt (Some e) (hib fk2 hi)) as Hrt.
  { split; [|done]. rewrite length_drop. rewrite length_app in Hgs. lia. }
  exists (Frame p fk1 (e :: fk2) fc1 (rt :: fc2)), (Frame l ks1 (take j ks2) cs1 (take j cs2)). split; try done.
  - split; unfold f_keys; simpl; [done|rewrite length_app in *; simpl; lia|done|].
    apply (kids_focus _ (Some e) [] fk2 [] rt fc2 hi); done.
  - split; unfold f_keys; simpl; [done|rewrite length_app, length_take in *; lia|done..].
  - unfold f_hi. simpl. rewrite Hks2 at 2. by rewrite hib_app.
  - split; simpl; [done|]. intros x [->|Hx]%elem_of_cons; [|by apply Hcf2]. apply Hcg2. by eapply list_elem_of_lookup_2.
  - split; simpl; [done|]. intros x Hx. apply Hcg2. by eapply elem_of_take in Hx as (? & ?%list_elem_of_lookup_2 & _).
  - unfold f_keys. simpl. rewrite length_app, length_take in *. unfold j. lia.
  - intros t. unfold split_tree, plug, f_keys. simpl. fold mid.
    rewrite (take_app_ge ks1), (take_app_ge cs1), (drop_app_ge ks1), (drop_app_ge cs1) by lia. fold j.
    replace (S mid - length cs1)%nat with (S j) by (unfold j; lia). replace (S mid - length ks1)%nat with (S j) by (unfold j; lia).
    done.
Qed.
Lemma split_frames_right m f g (e : K) l r lo hi k :
  frame_ok slots (S m) f lo hi → frame_ok slots m g (f_lo f lo) (f_hi f hi) →
  (length (f_keys f) < slots)%nat → f_cut k f → f_cut k g →
  f_keys g !! (length (f_keys g) / 2)%nat = Some e → (length (f_keys g) / 2 < length (f_ks1 g))%nat →
  ∃ f' g', split_frames m f g e l r lo hi k f' g'.
Proof.
  destruct f as [p fk1 fk2 fc1 fc2], g as [q ks1 ks2 cs1 cs2]. unfold f_keys, f_lo, f_hi, f_cut. simpl.
  intros [Hfl Hfs Hf1 Hf2] [Hgl Hgs Hg1 Hg2] Hsz [Hcf1 Hcf2] [Hcg1 Hcg2]. unfold f_keys in *. simpl in *.
  set (mid := (length (ks1 ++ ks2) / 2)%nat). intros He Hm. rewrite lookup_app_l in He by done.
  assert (ks1 = take mid ks1 ++ e :: drop (S mid) ks1) as Hks1 by (symmetry; by apply take_drop_middle).
  assert (kids (wf slots m) (lob lo fk1) (take mid ks1) (take (S mid) cs1) (Some e)
    ∧ lefts (wf slots m) (Some e) (drop (S mid) ks1) (drop (S mid) cs1)) as [Hga Hgb].
  { rewrite Hks1, <- (take_drop (S mid) cs1) in Hg1. apply lefts_app in Hg1; [done|]. rewrite !length_take. lia. }
  set (lt := TNode l (take mid ks1) (take (S mid) cs1)).
  assert (wf slots (S m) lt (lob lo fk1) (Some e)) as Hlt.
  { split; [|done]. rewrite length_take. rewrite length_app in Hgs. lia. }
  exists (Frame p (fk1 ++ [e]) fk2 (fc1 ++ [lt]) fc2), (Frame r (drop (S mid) ks1) ks2 (drop (S mid) cs1) cs2).
  assert (lob lo (fk1 ++ [e]) = Some e) as Hlob by (by rewrite lob_app).
  split; try done; unfold f_lo, f_hi; simpl; rewrite ?Hlob.
  - split; unfold f_keys; simpl; [by rewrite !length_app, Hfl|rewrite !length_app in *; simpl; lia|by apply lefts_snoc|done].
  - split; unfold f_keys; simpl; [rewrite !length_drop; lia|rewrite length_app, length_drop in *; lia|done..].
  - rewrite Hks1 at 2. by rewrite lob_app.
  - split; simpl; [|done]. intros x [Hx|Hx%list_elem_of_singleton]%elem_of_app; [by apply Hcf1|].
    subst x. apply Hcg1. by eapply list_elem_of_lookup_2.
  - split; simpl; [|done]. intros x Hx. apply Hcg1. rewrite Hks1. apply elem_of_app. right. by apply elem_of_cons; right.
  - unfold f_keys. simpl. rewrite length_app, length_drop in *. lia.
  - intros t. unfold split_tree, plug, f_keys. simpl. fold mid.
    rewrite (take_app_le ks1), (take_app_le cs1), (drop_app_le ks1), (drop_app_le cs1) by lia.
    by rewrite <- !app_assoc.
Qed.
Lemma split_frames_exist m f g (e : K) l r lo hi k :
  frame_ok slots (S m) f lo hi → frame_ok slots m g (f_lo f lo) (f_hi f hi) →
  (length (f_keys f) < slots)%nat → f_cut k f → f_cut k g →
  f_keys g !! (length (f_keys g) / 2)%nat = Some e →
  ∃ f' g', split_frames m f g e l r lo hi k f' g'.
Proof.
  intros. destruct (decide (length (f_ks1 g) ≤ length (f_keys g) / 2)%nat).
  - by eapply split_frames_left.
  - eapply split_frames_right; try done. lia.
Qed.

(** The cells of a node and its parent, before and after. *)
Definition beside (n : nat) f g t : list (Z * cell) :=
  siblings n f ++ flat_map (cells (pred (pred n))) (f_cs1 g ++ t :: f_cs2 g).
Lemma cells_unsplit n f g t :
  cells n (plug f (plug g t)) ≡ₚ f_cell n f (f_ptr g) :: f_cell (pred n) g (ptr t) :: beside n f g t.
Proof.
  rewrite cells_plug. f_equiv. unfold beside. change (ptr (plug g t)) with (f_ptr g).
  unfold plug. cbn [cells]. rewrite map_app. by rewrite <- Permutation_middle.
Qed.
Lemma cells_split n f g e l r t :
  let ks := f_keys g in
  let ps := map ptr (f_cs1 g) ++ ptr t :: map ptr (f_cs2 g) in
  let mid := (length ks / 2)%nat in
  cells n (split_tree f g e l r t) ≡ₚ
    (f_ptr f, CNode (Z.of_nat n) (f_ks1 f ++ e :: f_ks2 f) (map ptr (f_cs1 f) ++ l :: r :: map ptr (f_cs2 f)))
    :: (l, CNode (Z.of_nat (pred n)) (take mid ks) (take (S mid) ps))
    :: (r, CNode (Z.of_nat (pred n)) (drop (S mid) ks) (drop (S mid) ps)) :: beside n f g t.
Proof.
  cbv zeta. unfold split_tree, beside, siblings. cbn [cells]. rewrite !map_app. f_equiv.
  set (mid := (length (f_keys g) / 2)%nat). set (cs := f_cs1 g ++ t :: f_cs2 g).
  assert (map ptr (f_cs1 g) ++ ptr t :: map ptr (f_cs2 g) = map ptr cs) as -> by (unfold cs; by rewrite map_app).
  rewrite flat_map_app. cbn [flat_map cells].
  rewrite <- (firstn_map ptr), <- (skipn_map ptr).
  rewrite <- !app_comm_cons, <- !Permutation_middle. do 2 f_equiv. rewrite <- app_assoc. f_equiv.
  rewrite !app_assoc, <- flat_map_app, (take_drop (S mid) cs). apply Permutation_app_comm.
Qed.
Section collect_split.
Context {A : Type} (c : tree (K:=K) (V:=V) → list A) (Hc : ∀ p ks cs, c (TNode p ks cs) = flat_map c cs).
Lemma collect_split f g e l r t : c (split_tree f g e l r t) = c (plug f (plug g t)).
Proof.
  unfold split_tree, plug. rewrite !Hc, !flat_map_app. cbn [flat_map]. rewrite !Hc. f_equal.
  rewrite !app_assoc. f_equal. by rewrite <- flat_map_app, take_drop.
Qed.
End collect_split.

(** ** Steps of a split *)

(** What a step leaves alone: the root, the node being split, and the links of the
    leaves that were there. *)
Definition same_links s s' : Prop := ∀ p, is_Some (nodes s !! p) → link (nodes s') p = link (nodes s) p.

Lemma split_half_wp q lv ks ps cl e s :
  exact slots (nodes s) ((q, CNode lv ks ps) :: cl) → ksorted ks → split_node s = q →
  ks !! (length ks / 2)%nat = Some e →
  wp (split_half slots pool_room fresh q) (full_pool (size (nodes s) + 1))
    (λ key s', key = e ∧ root s' = root s ∧ split_node s' = q ∧ same_links s s'
       ∧ (size (nodes s') ≤ pool_room)%nat ∧ size (nodes s') = (size (nodes s) + 2)%nat
       ∧ exact slots (nodes s')
           ((left_node s', CNode lv (take (length ks / 2) ks) (take (S (length ks / 2)) ps))
            :: (right_node s', CNode lv (drop (S (length ks / 2)) ks) (drop (S (length ks / 2)) ps))
            :: (q, CNode lv ks ps) :: cl)) s.
Proof.
  intros Hex Hs Hq He. set (mid := (length ks / 2)%nat) in *.
  assert (mid < length ks)%nat as Hmid by (by eapply lookup_lt_Some).
  destruct (exact_inner _ _ _ q lv ks ps Hex) as (i & Hi & Hok); [by apply elem_of_cons; left|].
  pose proof (inner_len _ _ _ _ _ Hok) as [_ Hps].
  unfold split_half. rewrite wp_bind, wp_get, wp_bind, wp_assert, Hq, Z.eqb_refl.
  rewrite wp_bind, (wp_cast_inner _ _ _ _ _ Hi), (wp_bind_returns _ _ _ _ _ _ (inner_size_returns _ _ _ _ _ Hok)).
  cbv zeta. fold mid. rewrite (in_level _ _ _ _ _ Hok).
  destruct (part_inner_ok (S:=bt) _ lv i lv ks ps 0 mid Hok Hs ltac:(lia)) as (li & Hl & Hlok).
  destruct (part_inner_ok (S:=bt) _ lv i lv ks ps (mid + 1) (length ks) Hok Hs ltac:(lia)) as (ri & Hr & Hrok).
  rewrite (wp_bind_returns _ _ _ _ _ _ Hl), wp_bind. apply wp_allocate; [lia|]. cbv zeta. intros Hp1 Hn1 _.
  set (p1 := fresh (nodes s)) in *. set (s1 := assign_member _ _ _).
  rewrite (wp_bind_returns _ _ _ _ _ _ Hr), wp_bind.
  assert (size (nodes s1) = S (size (nodes s))) as Hsz1 by (by apply map_size_insert_None).
  apply wp_allocate; [lia|]. cbv zeta. intros Hp2 Hn2 Hlt2. set (p2 := fresh (nodes s1)) in *. set (s2 := assign_member _ _ _).
  rewrite wp_bind, wp_assert, (proj2 (Nat.ltb_lt _ _) Hmid).
  rewrite (wp_bind_returns _ _ _ _ _ _ (keys_returns _ _ _ _ _ Hok)), wp_deref, He.
  assert (size (nodes s2) = S (size (nodes s1))) as Hsz2 by (by apply map_size_insert_None).
  rewrite !drop_0, Nat.add_1_r in *. rewrite (take_ge ks), (take_ge ps) in Hrok by lia.
  split_and!; try done; [|lia|lia|].
  - intros p Hp. assert (p ≠ p1) as Hpp1 by (intros ->; rewrite Hp1 in Hp; by destruct Hp).
    assert (p ≠ p2) as Hpp2.
    { intros ->. unfold s1 in Hp2. simpl in Hp2. rewrite lookup_insert_ne in Hp2 by done. rewrite Hp2 in Hp. by destruct Hp. }
    unfold s2, s1. simpl. by rewrite !link_insert.
  - unfold s2, s1. simpl. rewrite Permutation_swap. apply exact_alloc; [done..|].
    apply exact_alloc; done.
Qed.

Lemma replace_child_wp p lv ks1 ks2 ps1 ps2 e cl E s :
  exact slots (nodes s) ((p, CNode lv (ks1 ++ ks2) (ps1 ++ split_node s :: ps2)) :: cl) →
  length ps1 = length ks1 → (length (ks1 ++ ks2) < slots)%nat → ksorted (ks1 ++ e :: ks2) →
  wp (replace_child slots p e) E
    (λ _ s', ∃ nd, s' = s <| nodes := <[p := Inner nd]> (nodes s) |>
       ∧ exact slots (nodes s') ((p, CNode lv (ks1 ++ e :: ks2) (ps1 ++ left_node s :: right_node s :: ps2)) :: cl)) s.
Proof.
  intros Hex Hl Hlt Hs.
  destruct (exact_inner _ _ _ p lv (ks1 ++ ks2) (ps1 ++ split_node s :: ps2) Hex) as (i & Hi & Hok); [by apply elem_of_cons; left|].
  destruct (update_splitted_child_ok (S:=bt) _ _ _ _ _ _ _ e _ (left_node s) (right_node s) Hok Hl Hlt Hs) as (i' & Hr & Hok').
  unfold replace_child. rewrite wp_bind, wp_get, wp_bind, (wp_cast_inner _ _ _ _ _ Hi), (wp_bind_returns _ _ _ _ _ _ Hr).
  unfold BTree.store. rewrite wp_modify. exists i'. split; [done|]. simpl. by eapply exact_update.
Qed.

Lemma create_new_root_wp e l r lv cl nd s :
  exact slots (nodes s) cl → split_node s = root s → nodes s !! root s = Some nd → node_level nd = Z.of_nat lv →
  Z.of_nat lv + 1 < 2 ^ 64 → l ≠ 0 → r ≠ 0 →
  wp (create_new_root slots pool_room fresh e l r) (full_pool (size (nodes s)))
    (λ _ s', ∃ i, s' = s <| nodes := <[root s' := Inner i]> (nodes s) |> <| root := root s' |>
       ∧ nodes s !! root s' = None ∧ (size (nodes s) < pool_room)%nat
       ∧ exact slots (nodes s') ((root s', CNode (Z.of_nat (S lv)) [e] [l; r]) :: cl)) s.
Proof.
  intros Hex Hsp Hnd Hlv Hlt Hl Hr. unfold create_new_root.
  rewrite wp_bind, wp_assert, (proj2 (Z.eqb_neq _ _) Hl). cbn [negb].
  rewrite wp_bind, wp_assert, (proj2 (Z.eqb_neq _ _) Hr). cbn [negb].
  rewrite wp_bind, wp_get, wp_bind, wp_assert, (proj2 (Z.eqb_eq _ _) Hsp).
  rewrite wp_bind, (wp_node_at _ _ _ _ _ Hnd), Hlv.
  assert (u64 (Z.of_nat lv + 1) = Z.of_nat (S lv)) as -> by (unfold u64; rewrite Z.mod_small; lia).
  destruct (root_inner_ok (S:=bt) slots (Z.of_nat (S lv)) e l r ltac:(lia)) as (i & Hi & Hok).
  rewrite (wp_bind_returns _ _ _ _ _ _ Hi). apply wp_allocate; [done|]. cbv zeta. intros Hp Hp0 Hsz.
  exists i. simpl. split_and!; [done..|]. by apply exact_alloc.
Qed.

Lemma deallocate_wp cl d E s :
  exact slots (nodes s) ((split_node s, d) :: cl) →
  wp (deallocate SPLIT_NODE) E
    (λ _ s', s' = s <| nodes := delete (split_node s) (nodes s) |> <| split_node := 0 |>
       ∧ exact slots (nodes s') cl) s.
Proof.
  intros Hex. unfold deallocate. rewrite wp_bind, wp_get. simpl.
  destruct (Z.eqb_spec (split_node s) 0) as [H0|_].
  { exfalso. apply (ex_null _ _ _ Hex). rewrite <- H0 at 1. simpl. by apply elem_of_cons; left. }
  destruct (ex_holds _ _ _ Hex (split_node s) d) as (nd & Hnd & _); [by apply elem_of_cons; left|].
  rewrite wp_bind, (wp_node_at _ _ _ _ _ Hnd), wp_modify. split; [done|]. simpl. by eapply exact_delete.
Qed.

(** ** Splitting an inner node *)
Lemma cons_perm3 {A} (a b c : A) l : a :: b :: c :: l ≡ₚ c :: a :: b :: l.
Proof. change ([a; b] ++ [c] ++ l ≡ₚ [c] ++ [a; b] ++ l). rewrite !app_assoc. f_equiv. apply Permutation_app_comm. Qed.
Lemma cons_perm4 {A} (a b c d : A) l : a :: b :: c :: d :: l ≡ₚ d :: c :: a :: b :: l.
Proof.
  change ([a; b] ++ [c; d] ++ l ≡ₚ [d; c] ++ [a; b] ++ l). rewrite !app_assoc. f_equiv.
  rewrite Permutation_app_comm. f_equiv. apply Permutation_swap.
Qed.

(** The split nodes in place of the old ones on a path. *)
Lemma split_path_ok N pre f g rest m e l r lo1 hi1 k f' g' n' lo' hi' :
  path_ok slots N pre None None (S (S m)) lo1 hi1 →
  path_ok slots (S (S m)) (f :: g :: rest) lo1 hi1 n' lo' hi' →
  split_frames m f g e l r lo1 hi1 k f' g' →
  path_ok slots N (pre ++ f' :: g' :: rest) None None n' lo' hi'.
Proof.
  intros Hpre (m1 & [= <-] & Hf & m2 & [= <-] & Hg & Hrest) Hsf. apply path_app.
  exists (S (S m)), lo1, hi1. split; [done|]. exists (S m). split; [done|]. split; [by apply Hsf|].
  exists m. split; [done|]. split; [by apply Hsf|]. by rewrite (sf_lo _ _ _ _ _ _ _ _ _ _ _ Hsf), (sf_hi _ _ _ _ _ _ _ _ _ _ _ Hsf).
Qed.
(** The node being split and its parent among the cells of the whole tree. *)
Lemma cells_path N pre f g t :
  cells N (fill pre (plug f (plug g t))) ≡ₚ
  f_cell (pred (N - length pre)) g (ptr t) :: f_cell (N - length pre) f (f_ptr g)
    :: beside (N - length pre) f g t ++ outer N pre (f_ptr f).
Proof.
  rewrite cells_fill. change (ptr (plug f (plug g t))) with (f_ptr f). rewrite cells_unsplit.
  rewrite Permutation_app_comm. simpl. apply Permutation_swap.
Qed.
Lemma cells_path_split N pre f g e l r t :
  let ks := f_keys g in
  let ps := map ptr (f_cs1 g) ++ ptr t :: map ptr (f_cs2 g) in
  let mid := (length ks / 2)%nat in
  let n := (N - length pre)%nat in
  cells N (fill pre (split_tree f g e l r t)) ≡ₚ
    (f_ptr f, CNode (Z.of_nat n) (f_ks1 f ++ e :: f_ks2 f) (map ptr (f_cs1 f) ++ l :: r :: map ptr (f_cs2 f)))
    :: (l, CNode (Z.of_nat (pred n)) (take mid ks) (take (S mid) ps))
    :: (r, CNode (Z.of_nat (pred n)) (drop (S mid) ks) (drop (S mid) ps))
    :: beside n f g t ++ outer N pre (f_ptr f).
Proof.
  cbv zeta. rewrite cells_fill. change (ptr (split_tree f g e l r t)) with (f_ptr f). rewrite cells_split.
  rewrite Permutation_app_comm. done.
Qed.

(** Leaves keep their links when a node that is not a leaf is written. *)
Lemma leaf_not_inner N t h p lv ks ps q :
  exact slots h (cells N t) → (p, CNode lv ks ps) ∈ cells N t → q ∈ leaves t → p ≠ q.
Proof.
  intros Hex Hp Hq ->. apply (elem_of_leaves N) in Hq as [kvs Hq].
  apply (exact_inner _ _ _ _ _ _ _ Hex) in Hp as (i & Hi & _). apply (exact_leaf _ _ _ _ _ Hex) in Hq as (l & Hl & _). congruence.
Qed.
Lemma leaf_there N t h q : exact slots h (cells N t) → q ∈ leaves t → is_Some (h !! q).
Proof.
  intros Hex [kvs Hq]%(elem_of_leaves N). apply (exact_leaf _ _ _ _ _ Hex) in Hq as (l & Hl & _). by exists (Leaf l).
Qed.

(** The frames after a split, whatever the new nodes' addresses. *)
Definition splits N pre f g rest tl n' lo' hi' k (e : K) (l r : Z) (f' g' : frame) : Prop :=
  fill (pre ++ f' :: g' :: rest) tl = fill pre (split_tree f g e l r (fill rest tl))
  ∧ path_ok slots N (pre ++ f' :: g' :: rest) None None n' lo' hi'
  ∧ wf slots N (fill pre (split_tree f g e l r (fill rest tl))) None None
  ∧ f_cut k f' ∧ f_cut k g' ∧ f_ptr f' = f_ptr f ∧ (length (f_keys g') < slots)%nat.
Lemma splits_exist N pre f g rest tl n' lo' hi' k :
  wf slots N (fill (pre ++ f :: g :: rest) tl) None None →
  path_ok slots N (pre ++ f :: g :: rest) None None n' lo' hi' →
  f_cut k f → f_cut k g → (length (f_keys f) < slots)%nat → length (f_keys g) = slots →
  ∃ e m, (N - length pre)%nat = S (S m) ∧ f_keys g !! (length (f_keys g) / 2)%nat = Some e
    ∧ ksorted (f_keys g) ∧ length (f_cs1 f) = length (f_ks1 f) ∧ ksorted (f_ks1 f ++ e :: f_ks2 f)
    ∧ ∀ l r, ∃ f' g', splits N pre f g rest tl n' lo' hi' k e l r f' g'.
Proof.
  intros Hwf Hpath Hcf Hcg Hlf Hlg. pose proof (wf_fill_inv _ _ _ _ _ _ _ _ _ Hpath Hwf) as Hwt.
  apply path_app in Hpath as (M1 & lo1 & hi1 & Hpre & Hpath).
  pose proof Hpath as (m1 & -> & Hf & m & -> & Hg & Hrest). pose proof (path_length _ _ _ _ _ _ _ _ Hpre) as HN.
  rewrite fill_app in Hwf. pose proof (wf_fill_inv _ _ _ _ _ _ _ _ _ Hpre Hwf) as Hwf1.
  destruct (lookup_lt_is_Some_2 (f_keys g) (length (f_keys g) / 2)) as [e He].
  { rewrite Hlg. apply Nat.div_lt; lia. }
  assert (∀ l r, ∃ f' g', splits N pre f g rest tl n' lo' hi' k e l r f' g') as Hsplits.
  { intros l r. destruct (split_frames_exist m f g e l r lo1 hi1 k Hf Hg Hlf Hcf Hcg He) as (f' & g' & Hsf).
    pose proof (split_path_ok _ _ _ _ _ _ _ _ _ _ _ _ _ _ _ _ _ Hpre Hpath Hsf) as Hpath'.
    assert (fill (pre ++ f' :: g' :: rest) tl = fill pre (split_tree f g e l r (fill rest tl))) as Hfill'.
    { rewrite fill_app. f_equal. apply (sf_tree _ _ _ _ _ _ _ _ _ _ _ Hsf). }
    exists f', g'. split; [done|]. split; [done|]. rewrite <- Hfill'. split; [by eapply wf_fill|]. split_and!; by apply Hsf. }
  exists e, m. split_and!; [lia|done| |by apply Hf| |done].
  - apply wf_plug_inv in Hwf1 as [_ Hwg]; [|by apply Hf]. by apply wf_keys in Hwg as [].
  - destruct (Hsplits 0 0) as (? & ? & _ & _ & Hw & _).
    apply (wf_fill_inv _ _ _ _ _ _ _ _ _ Hpre) in Hw. by apply wf_keys in Hw as [].
Qed.

Lemma split_inner_wp s N pre f g rest tl n' lo' hi' k :
  inv s N (fill (pre ++ f :: g :: rest) tl) →
  path_ok slots N (pre ++ f :: g :: rest) None None n' lo' hi' →
  f_cut k f → f_cut k g → (length (f_keys f) < slots)%nat → length (f_keys g) = slots →
  wp (split_inner_node slots pool_room fresh (f_ptr g) (f_ptr f)) (full_pool (size (nodes s) + 1))
    (λ _ s', ∃ e f' g', splits N pre f g rest tl n' lo' hi' k e (left_node s') (right_node s') f' g'
       ∧ inv s' N (fill (pre ++ f' :: g' :: rest) tl) ∧ size (nodes s') = S (size (nodes s))) s.
Proof.
  intros [Hroot Hex0 Hch Hwf Hsp Hrm] Hpath Hcf Hcg Hlf Hlg.
  destruct (splits_exist N pre f g rest tl n' lo' hi' k Hwf Hpath Hcf Hcg Hlf Hlg)
    as (e & m & HNp & He & Hks & Hlen & Hks' & Hsplits).
  set (t := fill rest tl) in *. rewrite fill_app in *. change (fill (f :: g :: rest) tl) with (plug f (plug g t)) in *.
  pose proof Hex0 as Hex. rewrite cells_path, HNp in Hex. simpl in Hex.
  unfold split_inner_node. rewrite wp_bind, wp_get, wp_bind, wp_assert, Hsp. simpl.
  rewrite wp_bind. unfold assignment. rewrite wp_modify. set (s0 := assign_member _ _ _).
  rewrite wp_bind. eapply wp_mono; [eapply (split_half_wp (f_ptr g) _ _ _ _ e s0); [exact Hex|done|done|done]|done|].
  intros key s1 (-> & Hr1 & Hq1 & Hl1 & Hrm1 & Hsz1 & Hex1).
  set (l := left_node s1) in *. set (r := right_node s1) in *.
  rewrite wp_bind, (proj2 (Z.eqb_neq (f_ptr f) 0)).
  2:{ intros H0. apply (ex_null _ _ _ Hex). rewrite <- H0. simpl. apply elem_of_cons; right. by apply elem_of_cons; left. }
  eapply wp_mono; [eapply replace_child_wp; [|by rewrite length_map, Hlen|done|exact Hks']|done|].
  { rewrite Hq1. rewrite cons_perm4 in Hex1. exact Hex1. }
  intros ? s' (nd & -> & Hex2). set (s2 := s1 <| nodes := _ |>) in *. rewrite Permutation_swap in Hex2.
  eapply wp_mono; [eapply (deallocate_wp _ _ _ s2); simpl; rewrite Hq1; exact Hex2|done|].
  intros ? s3 [-> Hex3]. destruct (Hsplits l r) as (f' & g' & Hsp').
  exists e, f', g'. split; [done|]. destruct Hsp' as (Hfill' & _ & Hwf' & _). rewrite Hfill'.
  pose proof (exact_size _ _ _ Hex) as Hsz. pose proof (exact_size _ _ _ Hex3) as Hsz3.
  assert (size (nodes (s2 <| nodes := delete (split_node s2) (nodes s2) |> <| split_node := 0 |>)) = S (size (nodes s))) as Hsz'.
  { rewrite Hsz, Hsz3. done. }
  split; [|done]. split.
  - simpl. rewrite Hr1. unfold s0. simpl. rewrite Hroot, !ptr_fill. done.
  - rewrite cells_path_split, HNp. exact Hex3.
  - rewrite (collect_fill leaves), (collect_split leaves), <- (collect_fill leaves) by done.
    eapply chain_ext; [|exact Hch]. intros q Hq. simpl. rewrite Hq1.
    rewrite link_delete, link_insert, Hl1; [done|by eapply leaf_there|..];
      (eapply leaf_not_inner; [exact Hex0| |exact Hq]); rewrite cells_path.
    + apply elem_of_cons; right. by apply elem_of_cons; left.
    + by apply elem_of_cons; left.
  - done.
  - done.
  - rewrite Hsz'. unfold s0 in Hsz1. simpl in Hsz1. lia.
Qed.

(** A root without keys above the root that is split. *)
Definition above_root (p : Z) : frame (K:=K) (V:=V) := Frame p [] [] [] [].
Lemma above_root_ok m p : frame_ok slots m (above_root p) None None.
Proof. split; simpl; [done|apply Nat.le_0_l|done..]. Qed.
Lemma above_root_path N fs n' lo' hi' p :
  path_ok slots N fs None None n' lo' hi' → path_ok slots (S N) (above_root p :: fs) None None n' lo' hi'.
Proof. intros Hp. exists N. split; [done|]. split; [apply above_root_ok|done]. Qed.
Lemma above_root_cut k p : f_cut k (above_root p).
Proof. split; intros x []%elem_of_nil. Qed.
Lemma above_root_wf N t p : wf slots N t None None → wf slots (S N) (plug (above_root p) t) None None.
Proof. intros Ht. apply wf_plug; [apply above_root_ok|done]. Qed.
Lemma inv_height s N t : inv s N t → Z.of_nat N + 1 < 2 ^ 64.
Proof.
  intros [_ Hex _ Hwf _ Hrm]. apply cells_height in Hwf. rewrite <- (exact_size _ _ _ Hex) in Hwf. lia.
Qed.

Lemma leaves_above p t : leaves (plug (above_root p) t) = leaves t.
Proof. simpl. by rewrite app_nil_r. Qed.
Lemma same_links_absent s s' N t p q :
  same_links s s' → exact slots (nodes s) (cells N t) → q ∈ leaves t → nodes s' !! p = None → p ≠ q.
Proof.
  intros Hl Hex Hq Hp ->. pose proof (Hl q (leaf_there _ _ _ _ Hex Hq)) as Hlk. unfold link in Hlk.
  apply (elem_of_leaves N) in Hq as [kvs Hkv]. apply (exact_leaf _ _ _ _ _ Hex) in Hkv as (lf & Hlf & _).
  by rewrite Hp, Hlf in Hlk.
Qed.
Lemma split_root_wp s N g rest tl n' lo' hi' k :
  inv s N (fill (g :: rest) tl) → path_ok slots N (g :: rest) None None n' lo' hi' →
  f_cut k g → length (f_keys g) = slots →
  wp (split_inner_node slots pool_room fresh (f_ptr g) 0) (full_pool (size (nodes s) + 2))
    (λ _ s', ∃ e f' g', splits (S N) [] (above_root (root s')) g rest tl n' lo' hi' k e (left_node s') (right_node s') f' g'
       ∧ inv s' (S N) (fill (f' :: g' :: rest) tl) ∧ size (nodes s') = S (S (size (nodes s)))) s.
Proof.
  intros Hinv Hpath Hcg Hlg. pose proof (inv_height _ _ _ Hinv) as Hh.
  destruct Hinv as [Hroot Hex0 Hch Hwf Hsp Hrm].
  assert (∀ p, ∃ e m, _) as Hspl by (intros p; exact (splits_exist (S N) [] (above_root p) g rest tl n' lo' hi' k
    (above_root_wf _ _ _ Hwf) (above_root_path _ _ _ _ _ p Hpath) (above_root_cut k p) Hcg ltac:(unfold f_keys; simpl; lia) Hlg)).
  destruct (Hspl 0) as (e & m & HNp & He & Hks & _ & _ & _). simpl in HNp. injection HNp as ->.
  set (t := fill rest tl) in *. change (fill (g :: rest) tl) with (plug g t) in *.
  pose proof Hex0 as Hex. unfold plug in Hex. cbn [cells] in Hex. rewrite map_app in Hex. simpl in Hex.
  unfold split_inner_node. rewrite wp_bind, wp_get, wp_bind, wp_assert, Hsp. simpl.
  rewrite wp_bind. unfold assignment. rewrite wp_modify. set (s0 := assign_member _ _ _).
  rewrite wp_bind. eapply wp_mono; [eapply (split_half_wp (f_ptr g) _ _ _ _ e s0); [exact Hex|done|done|done]| |].
  { intros ?. apply full_pool_mono. simpl. lia. }
  intros key s1 (-> & Hr1 & Hq1 & Hl1 & Hrm1 & Hsz1 & Hex1).
  set (l := left_node s1) in *. set (r := right_node s1) in *.
  assert (root s1 = f_ptr g) as Hrq by (rewrite Hr1; unfold s0; simpl; by rewrite Hroot).
  rewrite wp_bind, wp_bind, wp_get, wp_bind, wp_assert, Hrq, Hq1, Z.eqb_refl.
  destruct (exact_inner _ _ _ (f_ptr g) (Z.of_nat (S m)) (f_keys g) (map ptr (f_cs1 g) ++ ptr t :: map ptr (f_cs2 g)) Hex1)
    as (i & Hi & Hiok); [do 2 (apply elem_of_cons; right); by apply elem_of_cons; left|].
  pose proof (ex_null _ _ _ Hex1) as H0. simpl in H0. apply not_elem_of_cons in H0 as [Hl0 H0]. apply not_elem_of_cons in H0 as [Hr0 _].
  eapply wp_mono; [eapply (create_new_root_wp e l r (S m) _ (Inner i) s1);
    [exact Hex1|by rewrite Hrq, Hq1|by rewrite Hrq|by apply Hiok|done|done|done]| |].
  { intros ?. apply full_pool_mono. unfold s0 in Hsz1. simpl in Hsz1. lia. }
  intros ? s2 (ri & Hs2 & Hnew & Hsz2 & Hex2).
  rewrite cons_perm4 in Hex2. assert (split_node s2 = f_ptr g) as Hq2 by (rewrite Hs2; exact Hq1).
  eapply wp_mono; [eapply (deallocate_wp _ _ _ s2); rewrite Hq2; exact Hex2|done|].
  intros ? s3 [-> Hex3]. set (s3 := s2 <| nodes := _ |> <| split_node := 0 |>) in *. change (root s2) with (root s3) in *.
  assert (left_node s3 = l ∧ right_node s3 = r) as [-> ->] by (unfold s3; simpl; by rewrite Hs2).
  destruct (Hspl (root s3)) as (e' & m' & _ & He' & _ & _ & _ & Hsplits). assert (e' = e) as -> by congruence.
  destruct (Hsplits l r) as (f' & g' & Hsp'). exists e, f', g'. split; [done|].
  destruct Hsp' as (Hfill' & _ & Hwf' & _). simpl in Hfill'. rewrite Hfill'.
  pose proof (exact_size _ _ _ Hex) as Hsz. pose proof (exact_size _ _ _ Hex3) as Hsz3.
  assert (size (nodes s3) = S (S (size (nodes s)))) as Hsz' by (rewrite Hsz, Hsz3; done).
  split; [|done]. split; [done| | |done|done|].
  - change (fill [] (split_tree (above_root (root s3)) g e l r t)) with (split_tree (above_root (root s3)) g e l r t).
    rewrite cells_split, (cons_perm3 _ _ _ (beside _ _ _ _)). exact Hex3.
  - change (fill [] ?x) with x. rewrite (collect_split leaves) by done.
    rewrite leaves_above.
    eapply chain_ext; [|exact Hch]. intros q Hq. pose proof (leaf_there _ _ _ _ Hex0 Hq) as Hthere.
    assert (f_ptr g ≠ q) as Hqg.
    { eapply leaf_not_inner; [exact Hex0| |exact Hq]. unfold plug. cbn [cells]. by apply elem_of_cons; left. }
    unfold s3. simpl. rewrite Hq2, link_delete by done. rewrite Hs2. simpl. rewrite link_insert.
    + by apply Hl1.
    + exact (same_links_absent s0 s1 (S m) (plug g t) _ _ Hl1 Hex0 Hq Hnew).
  - rewrite Hsz'. unfold s0 in Hsz1. simpl in Hsz1. lia.
Qed.
End split.
