(* ===== verification/BTreeLeafSplit.v ===== *)
(** Splitting a full leaf of the B-tree for a new entry: the two halves, the links of
    the neighbours, and the new key in the parent or a new root. *)

From stdpp Require Import sorting.
From S2P Require Import Prelude BTree BTreeNode BTreeRep BTreeSplit.

#[local] Arguments Nat.div : simpl never.

Section leaf_split.
Context {K V : Type} `{!Key K, !KeyLaws K, !Key V, !KeyEq V, !Inhabited K, !Inhabited V}.
Context (slots : nat) (Hslots : (2 ≤ slots)%nat).
Context (pool_room : nat) (Hroom : Z.of_nat pool_room < 2 ^ 64).
Context (fresh : gmap Z (node_t (K:=K) (V:=V)) → Z).
Context (Hfresh : ∀ h, h !! fresh h = None ∧ fresh h ≠ 0).
Abbreviation bt := (b_tree (K:=K) (V:=V)).
Implicit Types (s : bt) (t : tree (K:=K) (V:=V)) (f g : frame (K:=K) (V:=V)) (k : K) (lo hi : bound (K:=K)).
Implicit Types (kvs : list (K * V)) (h : gmap Z (node_t (K:=K) (V:=V))) (lf ll rl : leaf_node_t (K:=K) (V:=V)).

(** ** The halves *)
Lemma halves kvs1 kvs2 (entry m : K * V) :
  length (kvs1 ++ kvs2) = slots → (kvs1 ++ kvs2) !! (slots / 2)%nat = Some m →
  (∀ x, x ∈ kvs1 → key_lt x.1 entry.1) → (∀ x, x ∈ kvs2 → key_lt entry.1 x.1) →
  let mid := (slots / 2)%nat in
  if key_ltb entry.1 m.1 then
    ∃ a b, take mid (kvs1 ++ kvs2) = kvs1 ++ a ∧ drop mid (kvs1 ++ kvs2) = b ∧ kvs2 = a ++ b
  else ∃ a b, take mid (kvs1 ++ kvs2) = a ∧ drop mid (kvs1 ++ kvs2) = b ++ kvs2 ∧ kvs1 = a ++ b.
Proof.
  intros Hl Hm H1 H2 mid. fold mid in Hm. destruct (key_ltb entry.1 m.1) eqn:Hlt.
  - assert (length kvs1 ≤ mid)%nat as Hle.
    { destruct (decide (length kvs1 ≤ mid)%nat); [done|]. rewrite lookup_app_l in Hm by lia.
      apply list_elem_of_lookup_2, H1, key_lt_le in Hm. unfold key_le in Hm. congruence. }
    exists (take (mid - length kvs1) kvs2), (drop (mid - length kvs1) kvs2).
    rewrite take_app_ge, drop_app_ge, take_drop by done. done.
  - assert (mid < length kvs1)%nat as Hle.
    { destruct (decide (length kvs1 ≤ mid)%nat); [|lia]. rewrite lookup_app_r in Hm by lia.
      apply list_elem_of_lookup_2, H2 in Hm. unfold key_lt in Hm. congruence. }
    exists (take mid kvs1), (drop mid kvs1). rewrite take_app_le, drop_app_le, take_drop by lia. done.
Qed.

(** The two leaves of an ordered list of entries, with the last key of the first one
    between them. *)
Lemma wf_halves l r (kl : list (K * V)) b kr lo hi :
  ksorted ((kl ++ [b]) ++ kr).*1 → (∀ e, e ∈ (kl ++ [b]) ++ kr → in_range lo hi e.1) → kr ≠ [] →
  (length (kl ++ [b]) ≤ slots)%nat → (length kr ≤ slots)%nat →
  wf slots 0 (TLeaf l (kl ++ [b])) lo (Some b.1) ∧ wf slots 0 (TLeaf r kr) (Some b.1) hi.
Proof.
  rewrite fmap_app. intros (Hs1 & Hs2 & Hs12)%ksorted_app Hr Hne Hl1 Hl2.
  assert (∀ e, e ∈ kr → key_lt b.1 e.1) as Hb.
  { intros e He. apply Hs12; [|by apply list_elem_of_fmap_2]. apply list_elem_of_fmap_2, elem_of_app. right. by apply list_elem_of_singleton. }
  assert (in_range lo hi b.1) as [Hblo _].
  { apply Hr. apply elem_of_app. left. apply elem_of_app. right. by apply list_elem_of_singleton. }
  split; split_and!; try done.
  - intros e He. destruct (Hr e) as [He1 _]; [by apply elem_of_app; left|]. split; [done|].
    apply elem_of_app in He as [He|He%list_elem_of_singleton]; [|subst e; apply key_irrefl].
    apply key_lt_le. rewrite fmap_app in Hs1. apply ksorted_app in Hs1 as (_ & _ & Hs1).
    apply Hs1; [by apply list_elem_of_fmap_2|by apply list_elem_of_singleton].
  - destruct kr as [|e kr]; [done|]. destruct hi as [h|]; [|done]. simpl.
    destruct (Hr e) as [_ He]; [apply elem_of_app; right; by apply elem_of_cons; left|].
    eapply key_lt_le_trans; [apply Hb; by apply elem_of_cons; left|exact He].
  - intros e He. split; [by apply Hb|]. apply Hr. by apply elem_of_app; right.
Qed.

(** ** Links *)
Lemma exact_same h cl p nd d :
  exact slots h cl → (p, d) ∈ cl → node_is slots nd d → exact slots (<[p := nd]> h) cl.
Proof.
  intros Hex [cl' Hcl]%elem_of_Permutation Hn. rewrite Hcl in *. by eapply exact_update.
Qed.
Lemma link_leaf h p x : link h p = Some x → ∃ l, h !! p = Some (Leaf l) ∧ x = (prev l, next l).
Proof. unfold link. destruct (h !! p) as [[l|]|]; [|done..]. intros [= <-]. by exists l. Qed.

Section links.
Context (cl : list (Z * cell (K:=K) (V:=V))).
(** A pointer to a leaf among the cells. *)
Definition leaf_cell (p : Z) : Prop := ∃ kvs, (p, CLeaf kvs) ∈ cl.

Lemma set_next_wp p q x E s :
  exact slots (nodes s) cl → leaf_cell p → link (nodes s) p = Some x →
  wp (set_next p q) E (λ _ s', ∃ h', s' = s <| nodes := h' |> ∧ exact slots h' cl
    ∧ link h' p = Some (x.1, q) ∧ ∀ p', p ≠ p' → link h' p' = link (nodes s) p') s.
Proof.
  intros Hex [kvs Hp] (l & Hl & ->)%link_leaf. unfold set_next. rewrite wp_bind, (wp_cast_leaf _ _ _ _ _ Hl).
  unfold BTree.store. rewrite wp_modify. eexists. split; [done|]. split_and!.
  - eapply exact_same; [done|exact Hp|]. apply (exact_leaf _ _ _ _ _ Hex) in Hp as (l' & Hl' & Hok).
    assert (l' = l) as -> by congruence. by eapply leaf_ok_fields.
  - by rewrite link_insert_eq.
  - intros p' Hne. by apply link_insert.
Qed.
Lemma set_prev_wp p q x E s :
  exact slots (nodes s) cl → leaf_cell p → link (nodes s) p = Some x →
  wp (set_prev p q) E (λ _ s', ∃ h', s' = s <| nodes := h' |> ∧ exact slots h' cl
    ∧ link h' p = Some (q, x.2) ∧ ∀ p', p ≠ p' → link h' p' = link (nodes s) p') s.
Proof.
  intros Hex [kvs Hp] (l & Hl & ->)%link_leaf. unfold set_prev. rewrite wp_bind, (wp_cast_leaf _ _ _ _ _ Hl).
  unfold BTree.store. rewrite wp_modify. eexists. split; [done|]. split_and!.
  - eapply exact_same; [done|exact Hp|]. apply (exact_leaf _ _ _ _ _ Hex) in Hp as (l' & Hl' & Hok).
    assert (l' = l) as -> by congruence. by eapply leaf_ok_fields.
  - by rewrite link_insert_eq.
  - intros p' Hne. by apply link_insert.
Qed.

(** The leaf before gets its next leaf, the one behind its previous leaf. *)
Lemma before_wp A q l E s :
  exact slots (nodes s) cl → Forall leaf_cell A → NoDup A → chain (nodes s) 0 A q →
  wp (when (negb (lastp 0 A =? 0)) (set_next (lastp 0 A) l)) E (λ _ s', ∃ h', s' = s <| nodes := h' |>
    ∧ exact slots h' cl ∧ chain h' 0 A l ∧ ∀ p, p ∉ A → link h' p = link (nodes s) p) s.
Proof.
  intros Hex HA Hnd Hch. destruct A as [|a A _] using rev_ind.
  { rewrite wp_when. simpl. exists (nodes s). split_and!; try done. by destruct s. }
  rewrite lastp_snoc, wp_when. apply Forall_app in HA as [HA [Ha _]%Forall_cons].
  destruct (Z.eqb_spec a 0) as [->|_].
  { destruct Ha as [kvs Ha]. exfalso. apply (ex_null _ _ _ Hex). by apply (list_elem_of_fmap_2 fst) in Ha. }
  apply chain_app in Hch as [Hch [Hl _]]. apply NoDup_app in Hnd as (Hnd & HaA & _).
  eapply wp_mono; [by eapply set_next_wp|done|]. intros _ s' (h' & -> & Hex' & Ha' & Hother).
  exists h'. split_and!; try done.
  - apply chain_app. simpl. split; [|done]. eapply chain_ext; [|exact Hch]. intros p Hp. apply Hother.
    intros ->. apply (HaA p Hp). by apply list_elem_of_singleton.
  - intros p Hp. apply Hother. intros ->. apply Hp, elem_of_app. right. by apply list_elem_of_singleton.
Qed.
Lemma behind_wp B q r E s :
  exact slots (nodes s) cl → Forall leaf_cell B → NoDup B → chain (nodes s) q B 0 →
  wp (when (negb (headp B 0 =? 0)) (set_prev (headp B 0) r)) E (λ _ s', ∃ h', s' = s <| nodes := h' |>
    ∧ exact slots h' cl ∧ chain h' r B 0 ∧ ∀ p, p ∉ B → link h' p = link (nodes s) p) s.
Proof.
  intros Hex HB Hnd Hch. destruct B as [|b B].
  { rewrite wp_when. simpl. exists (nodes s). split_and!; try done. by destruct s. }
  rewrite wp_when. simpl. apply Forall_cons in HB as [Hb HB].
  destruct (Z.eqb_spec b 0) as [->|_].
  { destruct Hb as [kvs Hb]. exfalso. apply (ex_null _ _ _ Hex). by apply (list_elem_of_fmap_2 fst) in Hb. }
  destruct Hch as [Hl Hch]. apply NoDup_cons in Hnd as [HbB Hnd].
  eapply wp_mono; [by eapply set_prev_wp|done|]. intros _ s' (h' & -> & Hex' & Hb' & Hother).
  exists h'. split_and!; try done.
  - eapply chain_ext; [|exact Hch]. intros p Hp. apply Hother. by intros ->.
  - intros p Hp. apply Hother. intros ->. apply Hp. by apply elem_of_cons; left.
Qed.

Lemma relink_wp A q B l r E s :
  exact slots (nodes s) cl → Forall leaf_cell (l :: r :: A ++ q :: B) → NoDup (l :: r :: A ++ q :: B) →
  chain (nodes s) 0 (A ++ q :: B) 0 →
  link (nodes s) l = Some (lastp 0 A, 0) → link (nodes s) r = Some (l, headp B 0) →
  wp (set_next l r ;; correct_leaf_node_links q l r) E
    (λ _ s', ∃ h', s' = s <| nodes := h' |> ∧ exact slots h' cl ∧ chain h' 0 (A ++ l :: r :: B) 0) s.
Proof.
  intros Hex [Hcl [Hcr [HA [Hcq HB]%Forall_cons]%Forall_app]%Forall_cons]%Forall_cons
    [Hl [Hr (HndA & HAq & [HqB HndB]%NoDup_cons)%NoDup_app]%NoDup_cons]%NoDup_cons.
  assert (l ≠ r ∧ l ∉ A ∧ l ≠ q ∧ l ∉ B) as (Hlr & HlA & Hlq & HlB) by set_solver.
  assert (r ∉ A ∧ r ≠ q ∧ r ∉ B ∧ q ∉ A) as (HrA & Hrq & HrB & HqA) by set_solver.
  intros [HchA [Hq HchB]]%chain_app Hll Hlr'. simpl in HchA.
  rewrite wp_bind. eapply wp_mono; [by eapply set_next_wp|done|]. intros ? s1 (h1 & -> & Hex1 & Hl1 & Ho1). simpl in Hl1.
  unfold correct_leaf_node_links.
  destruct (link_leaf h1 q (lastp 0 A, headp B 0)) as (lq & Hlq1 & [= Hp Hn]); [by rewrite Ho1|].
  rewrite wp_bind, (wp_cast_leaf q lq) by done. rewrite <- Hp, wp_bind.
  eapply wp_mono; [apply (before_wp A q l _ (s <| nodes := h1 |>)); [done..|]|done|].
  { eapply chain_ext; [|exact HchA]. intros p HpA. apply Ho1. set_solver. }
  intros ? s2 (h2 & -> & Hex2 & HchA2 & Ho2). simpl in Ho2.
  destruct (link_leaf h2 q (lastp 0 A, headp B 0)) as (lq2 & Hlq2 & [= Hp2 Hn2]); [by rewrite Ho2, Ho1|].
  rewrite wp_bind, (wp_cast_leaf q lq2) by done. rewrite <- Hn2.
  eapply wp_mono; [apply (behind_wp B q r _ (s <| nodes := h1 |> <| nodes := h2 |>)); [done..|]|done|].
  { eapply chain_ext; [|exact HchB]. intros p HpB. simpl. rewrite Ho2, Ho1; [done|set_solver..]. }
  intros ? s3 (h3 & -> & Hex3 & HchB3 & Ho3). simpl in Ho3. exists h3. split_and!; [done..|].
  apply chain_app. simpl. split_and!.
  - eapply chain_ext; [|exact HchA2]. intros p HpA. apply Ho3. set_solver.
  - by rewrite Ho3, Ho2.
  - by rewrite Ho3, Ho2, Ho1.
  - done.
Qed.
End links.

(** ** New leaves *)
Record halved s lf (entry : K * V) kvs1 kvs2 cl (kl : list (K * V)) (b : K * V) kr (l r : Z) (p : Z) s' : Prop := {
  hv_state : ∃ ll rl, s' = s <| nodes := <[r := Leaf rl]> (<[l := Leaf ll]> (nodes s)) |> <| left_node := l |> <| right_node := r |>;
  hv_entries : (kl ++ [b]) ++ kr = kvs1 ++ entry :: kvs2;
  hv_right : kr ≠ [];
  hv_len : (length (kl ++ [b]) ≤ slots)%nat ∧ (length kr ≤ slots)%nat;
  hv_fresh : nodes s !! l = None ∧ nodes s !! r = None;
  hv_links : link (nodes s') l = Some (prev lf, 0) ∧ link (nodes s') r = Some (l, next lf);
  hv_exact : exact slots (nodes s') ((l, CLeaf (kl ++ [b])) :: (r, CLeaf kr) :: cl);
  hv_place : (p = l ∧ entry ∈ kl ++ [b]) ∨ (p = r ∧ entry ∈ kr);
  hv_size : (size (nodes s') ≤ pool_room)%nat
}.

(** Two leaves are allocated. *)
Lemma halved_intro s lf entry kvs1 kvs2 cl x kr ll rl l r p :
  exact slots (nodes s) cl → nodes s !! l = None → l ≠ 0 →
  <[l := Leaf ll]> (nodes s) !! r = None → r ≠ 0 → (S (size (nodes s)) < pool_room)%nat →
  leaf_ok slots ll x → leaf_ok slots rl kr → prev ll = prev lf → next ll = 0 → prev rl = l → next rl = next lf →
  x ++ kr = kvs1 ++ entry :: kvs2 → x ≠ [] → kr ≠ [] → (p = l ∧ entry ∈ x) ∨ (p = r ∧ entry ∈ kr) →
  ∃ kl b, halved s lf entry kvs1 kvs2 cl kl b kr l r p
    (s <| nodes := <[r := Leaf rl]> (<[l := Leaf ll]> (nodes s)) |> <| left_node := l |> <| right_node := r |>).
Proof.
  intros Hex Hl Hl0 Hr Hr0 Hsz Hll Hrl H1 H2 H3 H4 Hx Hxn Hkr Hp.
  destruct x as [|b kl _] using rev_ind; [done|].
  assert (l ≠ r) as Hlr by (intros ->; by rewrite lookup_insert_eq in Hr).
  assert (nodes s !! r = None) as Hr' by (by rewrite lookup_insert_ne in Hr).
  exists kl, b. split; try done; [by eexists _, _|by split; eapply leaf_len|split|..]; simpl.
  - rewrite link_insert, link_insert_eq by done. by rewrite H1, H2.
  - rewrite link_insert_eq. by rewrite H3, H4.
  - rewrite Permutation_swap. apply exact_alloc; [done..|]. by apply exact_alloc.
  - rewrite !map_size_insert_None by done. lia.
Qed.

Lemma allocate_halves_wp s lf kvs1 kvs2 entry cl :
  exact slots (nodes s) cl → leaf_ok slots lf (kvs1 ++ kvs2) → length (kvs1 ++ kvs2) = slots →
  (∀ x, x ∈ kvs1 → key_lt x.1 entry.1) → (∀ x, x ∈ kvs2 → key_lt entry.1 x.1) →
  wp (allocate_halves slots pool_room fresh lf entry) (full_pool pool_room (size (nodes s) + 1))
    (λ p s', ∃ kl b kr l r, halved s lf entry kvs1 kvs2 cl kl b kr l r p s') s.
Proof.
  intros Hex Hlf Hlen H1 H2. set (kvs := kvs1 ++ kvs2) in *. set (mid := (slots / 2)%nat).
  assert (0 < mid < slots)%nat as Hmid.
  { split; [apply Nat.div_str_pos; lia|apply Nat.div_lt; lia]. }
  destruct (lookup_lt_is_Some_2 kvs mid) as [m Hm]; [lia|].
  unfold allocate_halves. rewrite (wp_bind_returns _ _ _ _ _ _ (leaf_size_returns _ _ _ Hlf)), Hlen. cbv zeta. fold mid.
  rewrite (wp_bind_returns _ _ _ _ _ _ (leaf_at_returns _ _ _ _ _ Hlf Hm)), wp_bind, wp_get.
  pose proof (halves kvs1 kvs2 entry m Hlen Hm H1 H2) as Hh. cbv zeta in Hh. fold kvs mid in Hh.
  destruct (key_ltb entry.1 m.1); destruct Hh as (a & b & Ha & Hb & Hab).
  - destruct (copy_insert_leaf_ok (S:=bt) slots (epoch s) entry lf kvs 0 mid (prev lf) 0 kvs1 a)
      as (ll & Hll & Hllok & Hp1 & Hn1); [done|lia|lia|lia|by rewrite drop_0|done|set_solver|].
    rewrite (wp_bind_returns _ _ _ _ _ _ Hll), wp_bind. apply wp_allocate; [done|lia|]. cbv zeta. intros Hl Hl0 _.
    set (s1 := assign_member _ _ _). rewrite wp_bind, wp_get.
    destruct (copy_leaf_ok (S:=bt) slots (epoch s1) lf kvs mid slots (left_node s1) (next lf))
      as (rl & Hrl & Hrlok & Hp2 & Hn2); [done|lia|lia|].
    rewrite (wp_bind_returns _ _ _ _ _ _ Hrl), wp_bind.
    assert (size (nodes s1) = S (size (nodes s))) as Hsz1 by (by apply map_size_insert_None).
    apply wp_allocate; [done|lia|]. cbv zeta. intros Hr Hr0 Hsz. rewrite wp_gets.
    rewrite (take_ge kvs), Hb in Hrlok by lia.
    destruct (halved_intro s lf entry kvs1 kvs2 cl (kvs1 ++ entry :: a) b ll rl (fresh (nodes s)) (fresh (nodes s1)) (fresh (nodes s)))
      as (kl & b' & Hhv); try done.
    + lia.
    + by rewrite <- app_assoc, Hab.
    + by destruct kvs1.
    + intros ->. apply (f_equal length) in Hb. rewrite length_drop in Hb. simpl in Hb. lia.
    + left. set_solver.
    + by eexists _, _, _, _, _.
  - destruct (copy_leaf_ok (S:=bt) slots (epoch s) lf kvs 0 mid (prev lf) 0)
      as (ll & Hll & Hllok & Hp1 & Hn1); [done|lia|lia|].
    rewrite (wp_bind_returns _ _ _ _ _ _ Hll), wp_bind. apply wp_allocate; [done|lia|]. cbv zeta. intros Hl Hl0 _.
    set (s1 := assign_member _ _ _). rewrite wp_bind, wp_get.
    destruct (copy_insert_leaf_ok (S:=bt) slots (epoch s1) entry lf kvs mid slots (left_node s1) (next lf) b kvs2)
      as (rl & Hrl & Hrlok & Hp2 & Hn2); [done|lia|lia|lia|by rewrite (take_ge kvs) by lia|set_solver|done|].
    rewrite (wp_bind_returns _ _ _ _ _ _ Hrl), wp_bind.
    assert (size (nodes s1) = S (size (nodes s))) as Hsz1 by (by apply map_size_insert_None).
    apply wp_allocate; [done|lia|]. cbv zeta. intros Hr Hr0 Hsz. rewrite wp_gets.
    rewrite drop_0, Ha in Hllok.
    destruct (halved_intro s lf entry kvs1 kvs2 cl a (b ++ entry :: kvs2) ll rl (fresh (nodes s)) (fresh (nodes s1)) (fresh (nodes s1)))
      as (kl & b' & Hhv); try done.
    + lia.
    + by rewrite app_assoc, <- Hab.
    + intros ->. apply (f_equal length) in Ha. rewrite length_take in Ha. simpl in Ha. lia.
    + by destruct b.
    + right. set_solver.
    + by eexists _, _, _, _, _.
Qed.

(** ** The split *)

(** An iterator's entry. *)
Definition at_entry (n : nat) t (it : Z * nat) (e : K * V) : Prop :=
  ∃ kvs, (it.1, CLeaf kvs) ∈ cells n t ∧ kvs !! it.2 = Some e.

(** The state in which the new leaves are linked and the parent is not changed yet. *)
Record linked s (N : nat) t (q : Z) A B (entry : K * V) kvs1 kvs2 kl (b : K * V) kr p s' : Prop := {
  lk_root : root s' = root s;
  lk_split : split_node s' = q;
  lk_entries : (kl ++ [b]) ++ kr = kvs1 ++ entry :: kvs2;
  lk_right : kr ≠ [];
  lk_len : (length (kl ++ [b]) ≤ slots)%nat ∧ (length kr ≤ slots)%nat;
  lk_exact : exact slots (nodes s') ((left_node s', CLeaf (kl ++ [b])) :: (right_node s', CLeaf kr) :: cells N t);
  lk_chain : chain (nodes s') 0 (A ++ left_node s' :: right_node s' :: B) 0;
  lk_place : (p = left_node s' ∧ entry ∈ kl ++ [b]) ∨ (p = right_node s' ∧ entry ∈ kr);
  lk_room : (size (nodes s') ≤ pool_room)%nat
}.
(** What a split must give: a tree with the entry, where the iterator says. *)
Definition split_done (F : list (K * V)) (entry : K * V) (c : nat) (it : Z * nat) s' : Prop :=
  ∃ N' t', inv slots pool_room s' N' t' ∧ flat t' = F ∧ at_entry N' t' it entry ∧ size (nodes s') = c.

(** The links after the new leaves are allocated. *)
Lemma linked_links s s1 N t q A B kvs1 kvs2 entry lf kl b kr l r p E :
  exact slots (nodes s) (cells N t) → (q, CLeaf (kvs1 ++ kvs2)) ∈ cells N t → nodes s !! q = Some (Leaf lf) →
  leaves t = A ++ q :: B → chain (nodes s) 0 (leaves t) 0 →
  halved s lf entry kvs1 kvs2 (cells N t) kl b kr l r p s1 →
  wp (set_next l r ;; correct_leaf_node_links q l r) E
    (λ _ s', ∃ h', s' = s1 <| nodes := h' |>
       ∧ exact slots h' ((l, CLeaf (kl ++ [b])) :: (r, CLeaf kr) :: cells N t)
       ∧ chain h' 0 (A ++ l :: r :: B) 0) s1.
Proof.
  intros Hex Hq Hlf HAB Hch Hhv. destruct (hv_state _ _ _ _ _ _ _ _ _ _ _ _ _ Hhv) as (ll & rl & Hs1).
  destruct (hv_fresh _ _ _ _ _ _ _ _ _ _ _ _ _ Hhv) as [Hl Hr]. destruct (hv_links _ _ _ _ _ _ _ _ _ _ _ _ _ Hhv) as [Hll Hlr].
  pose proof (hv_exact _ _ _ _ _ _ _ _ _ _ _ _ _ Hhv) as Hex1. rewrite HAB in Hch.
  pose proof (ex_nodup _ _ _ Hex1) as Hnd. simpl in Hnd.
  assert (link (nodes s) q = Some (lastp 0 A, headp B 0)) as Hlq by (by apply chain_app in Hch as [_ [? _]]).
  unfold link in Hlq. rewrite Hlf in Hlq. injection Hlq as Hp Hn. rewrite Hp in Hll. rewrite Hn in Hlr.
  assert (∀ x, x ∈ leaves t → leaf_cell (cells N t) x) as Hleaf by (intros x Hx; by apply elem_of_leaves).
  assert (∀ x, x ∈ leaves t → x ∈ (cells N t).*1) as Hin.
  { intros x [kv Hx]%Hleaf. by apply (list_elem_of_fmap_2 fst) in Hx. }
  apply relink_wp; [done| | | |done|done].
  - rewrite <- HAB. constructor; [eexists; by apply elem_of_cons; left|].
    constructor; [eexists; apply elem_of_cons; right; by apply elem_of_cons; left|].
    apply Forall_forall. intros x [kv Hx]%Hleaf. exists kv. do 2 (apply elem_of_cons; right). done.
  - rewrite <- HAB. apply NoDup_cons in Hnd as [Hl1 [Hr1 Hnd]%NoDup_cons]. constructor.
    + intros [->|Hx%Hin]%elem_of_cons; apply Hl1; [by apply elem_of_cons; left|by apply elem_of_cons; right].
    + constructor; [by intros Hx%Hin|]. rewrite (leaves_cells N). by apply NoDup_leaf_ptr.
  - eapply chain_ext; [|exact Hch]. rewrite <- HAB. intros x Hx. rewrite Hs1. simpl.
    pose proof (leaf_there _ _ _ _ _ Hex Hx) as [nd Hnd']. rewrite !link_insert; [done|intros ->; congruence..].
Qed.
Lemma split_leaf_wp s N t q A B kvs1 kvs2 entry parent F c c' :
  inv slots pool_room s N t → (q, CLeaf (kvs1 ++ kvs2)) ∈ cells N t → leaves t = A ++ q :: B →
  length (kvs1 ++ kvs2) = slots →
  (∀ x, x ∈ kvs1 → key_lt x.1 entry.1) → (∀ x, x ∈ kvs2 → key_lt entry.1 x.1) → (size (nodes s) + 1 ≤ c)%nat →
  (∀ kl b kr p s2, linked s N t q A B entry kvs1 kvs2 kl b kr p s2 →
    wp ((if negb (parent =? 0) then replace_child slots parent b.1
         else create_new_root slots pool_room fresh b.1 (left_node s2) (right_node s2)) ;;
        deallocate SPLIT_NODE) (full_pool pool_room c)
      (λ _ s', ∃ N' t', inv slots pool_room s' N' t' ∧ flat t' = F ∧ size (nodes s') = c'
         ∧ (left_node s2, CLeaf (kl ++ [b])) ∈ cells N' t' ∧ (right_node s2, CLeaf kr) ∈ cells N' t') s2) →
  wp (split_leaf_node slots pool_room fresh parent q entry) (full_pool pool_room c) (split_done F entry c') s.
Proof.
  intros [Hroot Hex Hch Hwf Hsp Hrm] Hq HAB Hlen H1 H2 Hc Hfin.
  destruct (exact_leaf _ _ _ _ _ Hex Hq) as (lf & Hlf & Hok).
  unfold split_leaf_node, split_leaf_begin. rewrite wp_bind, wp_bind, (wp_cast_leaf _ _ _ _ _ Hlf).
  rewrite (wp_bind_returns _ _ _ _ _ _ (leaf_full_returns _ _ _ Hok)), wp_bind, wp_assert, Hlen, Nat.eqb_refl.
  rewrite wp_bind. unfold assignment. rewrite wp_modify, wp_ret. set (s0 := assign_member _ _ _).
  unfold split_leaf_rest. rewrite wp_bind. eapply wp_mono; [eapply (allocate_halves_wp s0); [exact Hex|done..]| |].
  { intros ?. by apply full_pool_mono. }
  intros p s1 (kl & b & kr & l & r & Hhv). pose proof (hv_state _ _ _ _ _ _ _ _ _ _ _ _ _ Hhv) as (ll & rl & Hs1).
  pose proof (linked_links s0 s1 N t q A B kvs1 kvs2 entry lf kl b kr l r p (full_pool pool_room c) Hex Hq Hlf HAB Hch Hhv) as Hlk.
  rewrite wp_bind, wp_get. rewrite wp_bind.
  assert (left_node s1 = l ∧ right_node s1 = r) as [-> ->] by (by rewrite Hs1).
  eapply wp_mono; [exact (proj1 (wp_bind _ _ _ _ _) Hlk)|done|]. intros ? s2' Hlk2. rewrite wp_bind.
  eapply wp_mono; [exact Hlk2|done|]. clear Hlk Hlk2 s2'. intros ? s2 (h2 & -> & Hex2 & Hch2).
  set (s2 := s1 <| nodes := h2 |>) in *.
  destruct (exact_leaf _ _ _ l (kl ++ [b]) Hex2) as (l2 & Hl2 & Hok2); [by apply elem_of_cons; left|].
  rewrite wp_bind, (wp_cast_leaf l l2) by done. rewrite (wp_bind_returns _ _ _ _ _ _ (leaf_back_returns _ _ _ _ Hok2)).
  assert (linked s N t q A B entry kvs1 kvs2 kl b kr p s2) as Hlinked.
  { assert (size h2 = size (nodes s1)) as Hsz.
    { rewrite (exact_size _ _ _ Hex2), (exact_size _ _ _ (hv_exact _ _ _ _ _ _ _ _ _ _ _ _ _ Hhv)). done. }
    destruct Hhv. split; unfold s2; simpl; rewrite ?Hsz; try done; by rewrite Hs1. }
  rewrite wp_bind. specialize (Hfin _ _ _ _ _ Hlinked).
  replace (left_node s2) with l in Hfin by (unfold s2; by rewrite Hs1).
  replace (right_node s2) with r in Hfin by (unfold s2; by rewrite Hs1).
  eapply wp_mono; [exact (proj1 (wp_bind _ _ _ _ _) Hfin)|done|]. intros ? s3' Hs3. rewrite wp_bind.
  eapply wp_mono; [exact Hs3|done|]. clear Hs3 s3'. intros ? s3 (N' & t' & Hinv & HF & Hsz & Hcl & Hcr).
  assert (∃ ka kb, (p, CLeaf (ka ++ entry :: kb)) ∈ cells N' t') as (ka & kb & Hp).
  { destruct (hv_place _ _ _ _ _ _ _ _ _ _ _ _ _ Hhv) as [[-> He]|[-> He]];
      apply list_elem_of_split in He as (ka & kb & He); exists ka, kb; by rewrite <- He. }
  destruct (exact_leaf _ _ _ _ _ (iv_exact _ _ _ _ _ Hinv) Hp) as (lp & Hlp & Hokp).
  rewrite wp_bind, (wp_cast_leaf _ _ _ _ _ Hlp).
  rewrite (wp_bind_returns _ _ _ _ _ _ (leaf_find_there _ _ _ _ _ Hokp)).
  rewrite (wp_bind_returns _ _ _ _ _ _ (leaf_size_returns _ _ _ Hokp)), wp_bind, wp_assert.
  rewrite (proj2 (Nat.eqb_neq _ _)) by (rewrite length_app; simpl; lia). cbn [negb].
  assert ((ka ++ entry :: kb) !! length ka = Some entry) as Hat by (by apply list_lookup_middle).
  rewrite (wp_bind_returns _ _ _ _ _ _ (leaf_at_returns _ _ _ _ _ Hokp Hat)).
  rewrite wp_bind, wp_assert, key_eqb_refl, wp_bind, wp_assert, key_eqb_same, wp_ret.
  exists N', t'. split_and!; try done. by exists (ka ++ entry :: kb).
Qed.

(** The parent of a leaf with two leaves in its place. *)
Definition two_leaves f (k : K) (l r : Z) kvs1 kvs2 : tree :=
  TNode (f_ptr f) (f_ks1 f ++ k :: f_ks2 f) (f_cs1 f ++ TLeaf l kvs1 :: TLeaf r kvs2 :: f_cs2 f).
Lemma two_leaves_wf f k l r kvs1 kvs2 lo hi :
  frame_ok slots 0 f lo hi → (length (f_keys f) < slots)%nat →
  wf slots 0 (TLeaf l kvs1) (f_lo f lo) (Some k) → wf slots 0 (TLeaf r kvs2) (Some k) (f_hi f hi) →
  wf slots 1 (two_leaves f k l r kvs1 kvs2) lo hi.
Proof.
  intros [Hl _ H1 H2] Hsz Hw1 Hw2. split; [unfold f_keys in Hsz; rewrite length_app in *; simpl; lia|].
  by apply kids_split.
Qed.
Lemma two_leaves_collect {A} (c : tree → list A) f k l r kvs1 kvs2 :
  (∀ p ks cs, c (TNode p ks cs) = flat_map c cs) →
  c (two_leaves f k l r kvs1 kvs2) = flat_map c (f_cs1 f) ++ c (TLeaf l kvs1) ++ c (TLeaf r kvs2) ++ flat_map c (f_cs2 f).
Proof. intros Hc. unfold two_leaves. rewrite Hc, flat_map_app. done. Qed.
Lemma two_leaves_cells n f k l r kvs1 kvs2 :
  cells n (two_leaves f k l r kvs1 kvs2) ≡ₚ
  (f_ptr f, CNode (Z.of_nat n) (f_ks1 f ++ k :: f_ks2 f) (map ptr (f_cs1 f) ++ l :: r :: map ptr (f_cs2 f)))
    :: (l, CLeaf kvs1) :: (r, CLeaf kvs2) :: siblings n f.
Proof.
  unfold two_leaves, siblings. cbn [cells]. rewrite map_app, flat_map_app. simpl.
  f_equiv. by rewrite <- !Permutation_middle.
Qed.
(** The entries of the two leaves are in order and in the range of the old one. *)
Lemma linked_wf s N t q A B entry kvs1 kvs2 kl b kr p s' lo hi :
  linked s N t q A B entry kvs1 kvs2 kl b kr p s' → wf slots 0 (TLeaf q (kvs1 ++ kvs2)) lo hi →
  in_range lo hi entry.1 →
  (∀ x, x ∈ kvs1 → key_lt x.1 entry.1) → (∀ x, x ∈ kvs2 → key_lt entry.1 x.1) →
  wf slots 0 (TLeaf (left_node s') (kl ++ [b])) lo (Some b.1) ∧ wf slots 0 (TLeaf (right_node s') kr) (Some b.1) hi.
Proof.
  intros Hlk (_ & Hs & Hr & _) He H1 H2. apply wf_halves; [..|by apply Hlk|by apply Hlk|by apply Hlk].
  - rewrite (lk_entries _ _ _ _ _ _ _ _ _ _ _ _ _ _ Hlk). by apply ksorted_put.
  - rewrite (lk_entries _ _ _ _ _ _ _ _ _ _ _ _ _ _ Hlk). intros x [Hx|[->|Hx]%elem_of_cons]%elem_of_app; [|done|];
      apply Hr, elem_of_app; auto.
Qed.

(** The links survive the write of the parent and the removal of the old leaf. *)
Lemma chain_finish h p nd q N t' :
  exact slots (delete q (<[p := Inner nd]> h)) (cells N t') → chain h 0 (leaves t') 0 →
  chain (delete q (<[p := Inner nd]> h)) 0 (leaves t') 0.
Proof.
  intros Hex. apply chain_ext. intros x [kvs Hx]%(elem_of_leaves N).
  apply (exact_leaf _ _ _ _ _ Hex) in Hx as (lf & Hlf & _). apply lookup_delete_Some in Hlf as [Hq Hlf].
  rewrite link_delete, link_insert; [done| |done]. intros ->. by rewrite lookup_insert_eq in Hlf.
Qed.
(** The old leaf is removed, and the new tree is in place. *)
Lemma finish_split s N t q A B entry kvs1 kvs2 kl b kr p s2 s3 pp nd d N' t' E :
  linked s N t q A B entry kvs1 kvs2 kl b kr p s2 →
  nodes s3 = <[pp := Inner nd]> (nodes s2) → split_node s3 = q → root s3 = ptr t' →
  exact slots (nodes s3) ((q, d) :: cells N' t') → wf slots N' t' None None →
  leaves t' = A ++ left_node s2 :: right_node s2 :: B → (size (nodes s3) ≤ pool_room)%nat →
  wp (deallocate SPLIT_NODE) E
    (λ _ s', inv slots pool_room s' N' t' ∧ S (size (nodes s')) = size (nodes s3)) s3.
Proof.
  intros Hlk Hn Hq Hroot Hex Hwf Hlv Hrm. eapply wp_mono; [eapply deallocate_wp; rewrite Hq; exact Hex|done|].
  intros ? s4 [-> Hex4]. simpl in Hex4. rewrite Hq in Hex4.
  assert (S (size (delete q (nodes s3))) = size (nodes s3)) as Hsz.
  { rewrite (exact_size _ _ _ Hex4), (exact_size _ _ _ Hex). done. }
  split; [|simpl; by rewrite Hq]. split; simpl; rewrite ?Hq; try done; [|lia].
  rewrite Hn in *. eapply chain_finish; [exact Hex4|]. rewrite Hlv. apply Hlk.
Qed.

Lemma split_leaf_parent_wp s N pre f q kvs1 kvs2 entry lo hi :
  inv slots pool_room s N (fill (pre ++ [f]) (TLeaf q (kvs1 ++ kvs2))) →
  path_ok slots N (pre ++ [f]) None None 0 lo hi → in_range lo hi entry.1 →
  length (kvs1 ++ kvs2) = slots → (length (f_keys f) < slots)%nat →
  (∀ x, x ∈ kvs1 → key_lt x.1 entry.1) → (∀ x, x ∈ kvs2 → key_lt entry.1 x.1) →
  wp (split_leaf_node slots pool_room fresh (f_ptr f) q entry) (full_pool pool_room (size (nodes s) + 1))
    (split_done (befores flat (pre ++ [f]) ++ (kvs1 ++ entry :: kvs2) ++ afters flat (pre ++ [f])) entry
       (S (size (nodes s)))) s.
Proof.
  intros Hinv Hpath Hr Hlen Hroom' H1 H2. pose proof (path_length _ _ _ _ _ _ _ _ Hpath) as HN.
  rewrite length_app in HN. simpl in HN.
  pose proof (wf_fill_inv _ _ _ _ _ _ _ _ _ Hpath (iv_wf _ _ _ _ _ Hinv)) as Hwl.
  apply path_app in Hpath as (M1 & lo1 & hi1 & Hpre & m & -> & Hf & -> & <- & <-).
  assert (cells N (fill (pre ++ [f]) (TLeaf q (kvs1 ++ kvs2))) ≡ₚ
    (q, CLeaf (kvs1 ++ kvs2)) :: f_cell 1 f q :: siblings 1 f ++ outer N pre (f_ptr f)) as Hcells.
  { rewrite cells_fill, outer_snoc, Permutation_app_comm. simpl. replace (N - length pre)%nat with 1%nat by lia. done. }
  assert (f_ptr f ≠ 0) as Hf0.
  { intros H0. apply (ex_null _ _ _ (iv_exact _ _ _ _ _ Hinv)). rewrite Hcells, <- H0. simpl.
    apply elem_of_cons; right. by apply elem_of_cons; left. }
  eapply (split_leaf_wp _ _ _ _ (befores leaves (pre ++ [f])) (afters leaves (pre ++ [f])));
    [exact Hinv|by rewrite Hcells; apply elem_of_cons; left|by rewrite (collect_fill leaves)|done|done|done|lia|].
  intros kl b kr p s2 Hlk. destruct (linked_wf _ _ _ _ _ _ _ _ _ _ _ _ _ _ _ _ Hlk Hwl Hr H1 H2) as [Hwl1 Hwr1].
  pose proof (two_leaves_wf _ _ _ _ _ _ _ _ Hf Hroom' Hwl1 Hwr1) as Hw1.
  pose proof (lk_exact _ _ _ _ _ _ _ _ _ _ _ _ _ _ Hlk) as Hex2. pose proof (exact_size _ _ _ Hex2) as Hsz2.
  rewrite Hcells, cons_perm4 in Hex2. set (l := left_node s2) in *. set (r := right_node s2) in *.
  rewrite (proj2 (Z.eqb_neq _ _) Hf0). cbn [negb]. rewrite wp_bind.
  eapply wp_mono; [eapply (replace_child_wp _ (f_ptr f) 1 (f_ks1 f) (f_ks2 f) (map ptr (f_cs1 f)) (map ptr (f_cs2 f)) b.1)|done|].
  { rewrite (lk_split _ _ _ _ _ _ _ _ _ _ _ _ _ _ Hlk). exact Hex2. }
  { by rewrite length_map, (fr_len _ _ _ _ _ Hf). }
  { done. }
  { by apply wf_keys in Hw1 as []. }
  intros ? s3 (nd & -> & Hex3). set (s3 := s2 <| nodes := _ |>) in *. rewrite Permutation_swap in Hex3.
  pose proof (exact_size _ _ _ Hex3) as Hsz3.
  set (t' := fill pre (two_leaves f b.1 l r (kl ++ [b]) kr)).
  assert (cells N t' ≡ₚ (f_ptr f, CNode 1 (f_ks1 f ++ b.1 :: f_ks2 f) (map ptr (f_cs1 f) ++ l :: r :: map ptr (f_cs2 f)))
    :: (l, CLeaf (kl ++ [b])) :: (r, CLeaf kr) :: siblings 1 f ++ outer N pre (f_ptr f)) as Hcells'.
  { unfold t'. rewrite cells_fill, two_leaves_cells, Permutation_app_comm. simpl.
    by replace (N - length pre)%nat with 1%nat by lia. }
  pose proof (exact_size _ _ _ (iv_exact _ _ _ _ _ Hinv)) as Hsz. pose proof (lk_room _ _ _ _ _ _ _ _ _ _ _ _ _ _ Hlk) as Hrm2.
  rewrite Hcells in Hsz, Hsz2. cbn [length] in Hsz, Hsz2, Hsz3.
  eapply wp_mono; [eapply (finish_split _ _ _ _ _ _ _ _ _ _ _ _ _ s2 s3 (f_ptr f) nd _ N t' _ Hlk)|done|].
  - done.
  - simpl. apply Hlk.
  - simpl. rewrite (lk_root _ _ _ _ _ _ _ _ _ _ _ _ _ _ Hlk), (iv_root _ _ _ _ _ Hinv). unfold t'. rewrite !ptr_fill. by destruct pre.
  - rewrite Hcells'. exact Hex3.
  - eapply wf_fill; [exact Hpre|exact Hw1].
  - unfold t'. rewrite (collect_fill leaves), two_leaves_collect by done. simpl.
    rewrite befores_app, afters_app. simpl. by rewrite app_nil_r, <- !app_assoc.
  - lia.
  - intros ? s4 [Hinv4 Hsz4]. exists N, t'. split_and!; [done| |lia|rewrite Hcells'; set_solver..].
    unfold t'. rewrite (collect_fill flat), two_leaves_collect by done. simpl.
    rewrite befores_app, afters_app. simpl. by rewrite app_nil_r, <- (lk_entries _ _ _ _ _ _ _ _ _ _ _ _ _ _ Hlk), <- !app_assoc.
Qed.

(** The root is a leaf. *)
Lemma split_leaf_root_wp s q kvs1 kvs2 entry :
  inv slots pool_room s 0 (TLeaf q (kvs1 ++ kvs2)) → length (kvs1 ++ kvs2) = slots →
  (∀ x, x ∈ kvs1 → key_lt x.1 entry.1) → (∀ x, x ∈ kvs2 → key_lt entry.1 x.1) →
  wp (split_leaf_node slots pool_room fresh 0 q entry) (full_pool pool_room (size (nodes s) + 2))
    (split_done (kvs1 ++ entry :: kvs2) entry (S (S (size (nodes s))))) s.
Proof.
  intros Hinv Hlen H1 H2. pose proof (iv_wf _ _ _ _ _ Hinv) as Hwl.
  eapply (split_leaf_wp s 0 _ q [] []); [exact Hinv|simpl; by apply elem_of_cons; left|done|done|done|done|lia|].
  intros kl b kr p s2 Hlk.
  destruct (linked_wf _ _ _ _ _ _ _ _ _ _ _ _ _ _ None None Hlk Hwl ltac:(done) H1 H2) as [Hwl1 Hwr1].
  pose proof (lk_exact _ _ _ _ _ _ _ _ _ _ _ _ _ _ Hlk) as Hex2. cbn [cells] in Hex2.
  pose proof (exact_size _ _ _ Hex2) as Hsz2. pose proof (exact_size _ _ _ (iv_exact _ _ _ _ _ Hinv)) as Hsz.
  cbn [length cells] in Hsz, Hsz2. set (l := left_node s2) in *. set (r := right_node s2) in *.
  cbn [Z.eqb negb]. rewrite wp_bind.
  assert (root s2 = q) as Hr2 by (rewrite (lk_root _ _ _ _ _ _ _ _ _ _ _ _ _ _ Hlk); apply Hinv).
  destruct (exact_leaf _ _ _ q (kvs1 ++ kvs2) Hex2) as (lf & Hlf & _); [set_solver|].
  pose proof (ex_null _ _ _ Hex2) as H0. simpl in H0.
  eapply wp_mono; [eapply (create_new_root_wp slots Hslots pool_room fresh Hfresh b.1 l r 0 _ (Leaf lf) s2);
    [exact Hex2|by rewrite Hr2; apply Hlk|by rewrite Hr2|done|lia|set_solver|set_solver]| |].
  { intros ?. apply full_pool_mono. lia. }
  intros ? s3 (ri & Hs3 & Hnew & Hsz3' & Hex3). rewrite cons_perm4 in Hex3.
  set (t' := two_leaves (above_root (root s3)) b.1 l r (kl ++ [b]) kr).
  assert (cells 1 t' ≡ₚ (r, CLeaf kr) :: (root s3, CNode 1 [b.1] [l; r]) :: (l, CLeaf (kl ++ [b])) :: []) as Hcells'.
  { unfold t'. rewrite two_leaves_cells. apply cons_perm3. }
  pose proof (exact_size _ _ _ Hex3) as Hsz3. cbn [length] in Hsz3.
  eapply wp_mono; [eapply (finish_split _ _ _ _ _ _ _ _ _ _ _ _ _ s2 s3 (root s3) ri _ 1 t' _ Hlk)|done|].
  - by rewrite Hs3 at 1.
  - rewrite Hs3 at 1. apply Hlk.
  - done.
  - rewrite Hcells'. exact Hex3.
  - eapply two_leaves_wf; [apply above_root_ok|unfold f_keys; simpl; lia|done|done].
  - done.
  - lia.
  - intros ? s4 [Hinv4 Hsz4]. exists 1%nat, t'. split_and!; [done| |lia|rewrite Hcells'; set_solver..].
    unfold t'. rewrite two_leaves_collect by done. simpl. rewrite app_nil_r. apply Hlk.
Qed.
End leaf_split.
