(* ===== verification/BTreeSafe.v ===== *)
(** The operations of the B-tree on a tree that is in order: the way down to a leaf,
    the loop that splits the full nodes on it, insertion, lookup, removal and
    assignment, each as the change of an abstract map. *)

From stdpp Require Import sorting.
From S2P Require Import Prelude BTree BTreeNode BTreeRep BTreeSplit BTreeLeafSplit.

#[local] Arguments Nat.div : simpl never.

Section safe.
Context {K V : Type} `{!Key K, !KeyLaws K, !Key V, !Inhabited K, !Inhabited V}.
Context (slots pool_room : nat).
Abbreviation bt := (b_tree (K:=K) (V:=V)).
Abbreviation inv := (inv slots pool_room).
Implicit Types (s : bt) (t : tree (K:=K) (V:=V)) (f g : frame (K:=K) (V:=V)) (k : K) (lo hi : bound (K:=K)).
Implicit Types (kvs : list (K * V)) (fs : list (frame (K:=K) (V:=V))) (lf : leaf_node_t (K:=K) (V:=V)).

(** ** The way down *)

(** The function picks the child that the frame leaves out. *)
Definition picks (child : inner_node_t (K:=K) → M bt Z) f : Prop :=
  ∀ i lv p, inner_ok slots i lv (f_keys f) (map ptr (f_cs1 f) ++ p :: map ptr (f_cs2 f)) → returns (child i) p.

Lemma picks_cut k f : length (f_cs1 f) = length (f_ks1 f) → f_cut k f → picks (λ n, get_child n k) f.
Proof.
  intros Hl [H1 H2] i lv p Hi. eapply get_child_returns; [exact Hi|by rewrite length_map|done..].
Qed.
Lemma picks_first f : f_cs1 f = [] → picks (λ n, get_left_child n 0) f.
Proof. intros Hc i lv p Hi. rewrite Hc in Hi. by eapply left_child_returns. Qed.
Lemma picks_last f :
  length (f_cs1 f) = length (f_ks1 f) → f_ks2 f = [] → picks (λ n, m ← inner_size n; get_left_child n m) f.
Proof.
  intros Hl Hk i lv p Hi. eapply returns_bind; [by eapply inner_size_returns|].
  eapply left_child_returns; [done|]. unfold f_keys. rewrite Hk, app_nil_r, <- Hl, <- (length_map ptr).
  apply list_lookup_middle. done.
Qed.

Lemma descend_wp child fs : ∀ fuel n q kvs cl path s (Q : Z * list Z → bt → Prop) E,
  n = length fs → exact slots (nodes s) cl → outer n fs q ++ [(q, CLeaf kvs)] ⊆ cl → Forall (picks child) fs →
  (length fs ≤ fuel)%nat → Q (q, path ++ map f_ptr fs) s →
  wp (descend fuel child (top fs q) path) E Q s.
Proof.
  induction fs as [|f fs IH]; intros fuel n q kvs cl path s Q E Hn Hex Hcl Hp Hf HQ.
  - destruct (exact_leaf slots (nodes s) cl q kvs) as (l & Hl & _); [done|apply Hcl; simpl; set_solver|].
    destruct fuel; cbn [descend top]; rewrite wp_bind, (wp_node_at _ _ _ _ _ Hl); simpl; rewrite wp_ret;
      by rewrite app_nil_r in HQ.
  - simpl in Hf. destruct fuel as [|fuel]; [lia|]. apply Forall_cons in Hp as [Hpf Hp].
    destruct (exact_inner slots (nodes s) cl (f_ptr f) (Z.of_nat n) (f_keys f) (map ptr (f_cs1 f) ++ top fs q :: map ptr (f_cs2 f)))
      as (i & Hi & Hok); [done|apply Hcl; simpl; unfold f_cell; set_solver|].
    cbn [descend top]. rewrite wp_bind, (wp_node_at _ _ _ _ _ Hi).
    simpl in Hn. assert (is_leaf (Inner i : node_t (K:=K) (V:=V)) = false) as ->.
    { unfold is_leaf. simpl. rewrite (in_level _ _ _ _ _ Hok), Hn. apply Z.eqb_neq. lia. }
    rewrite wp_bind, (wp_cast_inner _ _ _ _ _ Hi), (wp_bind_returns _ _ _ _ _ _ (Hpf _ _ _ Hok)).
    eapply (IH fuel (pred n) q kvs); [by rewrite Hn|done| |done|lia|].
    + simpl in Hcl. set_solver.
    + simpl in HQ. by rewrite <- app_assoc.
Qed.

(** A leaf of the tree and the path to it. *)
Record at_leaf (N : nat) t fs (q : Z) kvs lo hi : Prop := {
  al_fill : t = fill fs (TLeaf q kvs);
  al_path : path_ok slots N fs None None 0 lo hi;
  al_wf : wf slots 0 (TLeaf q kvs) lo hi
}.
Lemma at_leaf_cell N t fs q kvs lo hi : at_leaf N t fs q kvs lo hi → outer N fs q ++ [(q, CLeaf kvs)] ⊆ cells N t.
Proof. intros [-> _ _]. rewrite cells_fill. done. Qed.
Lemma at_leaf_in N t fs q kvs lo hi : at_leaf N t fs q kvs lo hi → (q, CLeaf kvs) ∈ cells N t.
Proof. intros H%at_leaf_cell. apply H. set_solver. Qed.

Lemma path_frames N fs lo hi n' lo' hi' :
  path_ok slots N fs lo hi n' lo' hi' → Forall (λ f, length (f_cs1 f) = length (f_ks1 f)) fs.
Proof.
  revert N lo hi. induction fs as [|f fs IH]; intros N lo hi; [constructor|].
  intros (m & -> & Hf & Hp). constructor; [by apply fr_len in Hf|by eapply IH].
Qed.

(** The leaf at the end of a path gets other entries in the same range. *)
Lemma inv_store s N t fs q kvs lo hi lf kvs' :
  inv s N t → at_leaf N t fs q kvs lo hi → wf slots 0 (TLeaf q kvs') lo hi → leaf_ok slots lf kvs' →
  link (nodes s) q = Some (prev lf, next lf) →
  inv (s <| nodes := <[q := Leaf lf]> (nodes s) |>) N (fill fs (TLeaf q kvs'))
  ∧ at_leaf N (fill fs (TLeaf q kvs')) fs q kvs' lo hi ∧ size (<[q := Leaf lf]> (nodes s)) = size (nodes s).
Proof.
  intros [Hroot Hex Hch Hwf Hsp Hrm] Hat Hwf' Hok Hlk. pose proof (at_leaf_in _ _ _ _ _ _ _ Hat) as Hin.
  destruct Hat as [-> Hpath Hwfq]. destruct (exact_leaf _ _ _ _ _ Hex Hin) as (l0 & Hl0 & _).
  assert (size (<[q := Leaf lf]> (nodes s)) = size (nodes s)) as Hsz by (by apply map_size_insert_Some).
  split; [|done]. split; simpl; try done.
  - rewrite Hroot, !ptr_fill. done.
  - rewrite cells_fill in Hex |- *. simpl in Hex |- *. rewrite Permutation_app_comm in Hex |- *.
    by eapply exact_update.
  - rewrite !(collect_fill leaves) in Hch |- * by done. eapply chain_ext; [|exact Hch].
    intros p _. destruct (decide (q = p)) as [<-|]; [by rewrite link_insert_eq|by apply link_insert].
  - by eapply wf_fill.
  - by rewrite Hsz.
Qed.

(** The loop from the root reaches the leaf, and the check of the leaf changes nothing
    that matters. *)
Lemma descend_to child s N t fs q kvs lo hi (Q : Z * list Z → bt → Prop) E :
  inv s N t → at_leaf N t fs q kvs lo hi → Forall (picks child) fs → Q (q, map f_ptr fs) s →
  wp (descend (depth_fuel s) child (root s) []) E Q s.
Proof.
  intros Hi Hat Hp HQ. pose proof (path_length _ _ _ _ _ _ _ _ (al_path _ _ _ _ _ _ _ Hat)) as HN.
  pose proof (cells_height _ _ _ _ _ (iv_wf _ _ _ _ _ Hi)) as Hh.
  rewrite <- (exact_size _ _ _ (iv_exact _ _ _ _ _ Hi)) in Hh.
  pose proof (at_leaf_cell _ _ _ _ _ _ _ Hat) as Hsub.
  rewrite (iv_root _ _ _ _ _ Hi). rewrite (al_fill _ _ _ _ _ _ _ Hat) at 1. rewrite ptr_fill. cbn [ptr].
  eapply (descend_wp child fs _ N q kvs); [lia|by apply Hi|done|done|unfold depth_fuel; lia|done].
Qed.
Lemma check_leaf_wp s N t fs q kvs lo hi E (Q : () → bt → Prop) :
  inv s N t → at_leaf N t fs q kvs lo hi →
  (∀ s', inv s' N t → size (nodes s') = size (nodes s) → Q tt s') → wp (check_leaf q) E Q s.
Proof.
  intros Hi Hat HQ. destruct (exact_leaf _ _ _ _ _ (iv_exact _ _ _ _ _ Hi) (at_leaf_in _ _ _ _ _ _ _ Hat)) as (l & Hl & Hok).
  unfold check_leaf. rewrite wp_bind, (wp_cast_leaf _ _ _ _ _ Hl), wp_bind, wp_get. unfold BTree.store. rewrite wp_modify.
  destruct (inv_store s N t fs q kvs lo hi (check_consistency (epoch s) l) kvs) as (Hi' & _ & Hsz); try done.
  - by apply Hat.
  - by apply check_consistency_ok.
  - unfold link. rewrite Hl. unfold check_consistency. by destruct (epoch s =? l_epoch l).
  - rewrite <- (al_fill _ _ _ _ _ _ _ Hat) in Hi'. by apply HQ.
Qed.

Lemma inv_root_not_null s N t : inv s N t → (root s =? 0) = false.
Proof.
  intros Hi. apply Z.eqb_neq. rewrite (iv_root _ _ _ _ _ Hi). intros H0.
  apply (ex_null _ _ _ (iv_exact _ _ _ _ _ Hi)). destruct t; simpl in *; set_solver.
Qed.

(** The leaf for a key. *)
Definition leaf_for (N : nat) t k fs (q : Z) kvs lo hi : Prop :=
  at_leaf N t fs q kvs lo hi ∧ in_range lo hi k ∧ Forall (f_cut k) fs.
Lemma leaf_for_exists s N t k : inv s N t → ∃ fs q kvs lo hi, leaf_for N t k fs q kvs lo hi.
Proof.
  intros Hi. destruct (wf_search slots N t None None k) as (fs & q & kvs & lo & hi & ? & ? & ? & ? & ?); [apply Hi|done|].
  by exists fs, q, kvs, lo, hi.
Qed.
Lemma leaf_for_picks N t k fs q kvs lo hi :
  leaf_for N t k fs q kvs lo hi → Forall (picks (λ n, get_child n k)) fs.
Proof.
  intros (Hat & _ & Hc). pose proof (path_frames _ _ _ _ _ _ _ (al_path _ _ _ _ _ _ _ Hat)) as Hl.
  rewrite Forall_forall in Hl, Hc |- *. intros f Hf. apply picks_cut; [by apply Hl|by apply Hc].
Qed.

Lemma find_leaf_to_insert_wp s N t k fs q kvs lo hi E (Q : Z * list Z → bt → Prop) :
  inv s N t → leaf_for N t k fs q kvs lo hi →
  (∀ s', inv s' N t → size (nodes s') = size (nodes s) → Q (q, map f_ptr fs) s') →
  wp (find_leaf_to_insert k) E Q s.
Proof.
  intros Hi Hf HQ. unfold find_leaf_to_insert. rewrite wp_bind, wp_get, wp_bind, wp_assert, (inv_root_not_null _ _ _ Hi). simpl.
  rewrite wp_bind. eapply descend_to; [done|by apply Hf|by eapply leaf_for_picks|]. rewrite wp_bind.
  eapply check_leaf_wp; [done|by apply Hf|]. intros s' Hi' Hs'. rewrite wp_ret. by apply HQ.
Qed.
Lemma find_leaf_node_wp s N t k fs q kvs lo hi E (Q : Z → bt → Prop) :
  inv s N t → leaf_for N t k fs q kvs lo hi →
  (∀ s', inv s' N t → size (nodes s') = size (nodes s) → Q q s') → wp (find_leaf_node k) E Q s.
Proof.
  intros Hi Hf HQ. unfold find_leaf_node. rewrite wp_bind, wp_get, (inv_root_not_null _ _ _ Hi), wp_bind.
  eapply descend_to; [done|by apply Hf|by eapply leaf_for_picks|]. rewrite wp_bind.
  eapply check_leaf_wp; [done|by apply Hf|]. intros s' Hi' Hs'. rewrite wp_ret. by apply HQ.
Qed.

(** The first and the last leaf. *)
Lemma wf_walk (pos : nat → nat) n t lo hi :
  (∀ m, (pos m ≤ m)%nat) → wf slots n t lo hi →
  ∃ fs p kvs lo' hi', t = fill fs (TLeaf p kvs) ∧ path_ok slots n fs lo hi 0 lo' hi'
    ∧ wf slots 0 (TLeaf p kvs) lo' hi' ∧ Forall (λ f, length (f_ks1 f) = pos (length (f_keys f))) fs.
Proof.
  intros Hpos. revert t lo hi. induction n as [|n IH]; intros [p kvs|p ks cs] lo hi Hwf; try done.
  - exists [], p, kvs, lo, hi. split_and!; try done.
  - pose proof Hwf as [_ Hl%kids_length]. pose proof (Hpos (length ks)).
    destruct (cut_children cs (pos (length ks))) as (cs1 & c & cs2 & -> & Hl1); [lia|].
    set (f := Frame p (take (pos (length ks)) ks) (drop (pos (length ks)) ks) cs1 cs2).
    assert (f_keys f = ks) as Hks by apply take_drop.
    destruct (wf_plug_inv slots n f c lo hi) as [Hf Hc]; [unfold plug; by rewrite Hks|simpl; rewrite length_take; lia|].
    destruct (IH c _ _ Hc) as (fs & q & kvs & lo' & hi' & -> & Hp & Hw & Hall).
    exists (f :: fs), q, kvs, lo', hi'. split_and!; [|by exists n|done|].
    + simpl. unfold plug. by rewrite Hks.
    + constructor; [|done]. rewrite Hks. simpl. rewrite length_take. lia.
Qed.

Lemma last_leaf s N t :
  inv s N t → ∃ fs q kvs lo hi, at_leaf N t fs q kvs lo hi
    ∧ Forall (picks (λ n, m ← inner_size n; get_left_child n m)) fs ∧ leaves t = befores leaves fs ++ [q].
Proof.
  intros Hi. destruct (wf_walk id N t None None) as (fs & q & kvs & lo & hi & -> & Hp & Hw & Hall); [done|apply Hi|].
  exists fs, q, kvs, lo, hi. split; [done|]. pose proof (path_frames _ _ _ _ _ _ _ Hp) as Hl.
  rewrite (collect_fill leaves) by done. simpl.
  assert (Forall (picks (λ n, m ← inner_size n; get_left_child n m)) fs ∧ afters leaves fs = []) as [? ->]; [|done].
  clear Hi Hw. revert N Hp Hall Hl. generalize (None (A:=K)) at 1. generalize (None (A:=K)).
  induction fs as [|f fs IH]; [done|]. intros hi0 lo0 N (m & -> & Hf & Hp) [Hk Hall]%Forall_cons [Hl1 Hl]%Forall_cons.
  destruct (IH _ _ m Hp Hall Hl) as [Hps Ha]. unfold f_keys in Hk. rewrite length_app in Hk.
  assert (f_ks2 f = []) as Hk2 by (apply nil_length_inv; unfold id in Hk; lia).
  pose proof (rights_length _ _ _ _ (fr_rights _ _ _ _ _ Hf)) as Hr. rewrite Hk2 in Hr. apply nil_length_inv in Hr.
  simpl. rewrite Ha, Hr. split; [constructor; [by apply picks_last|done]|done].
Qed.
Lemma first_leaf s N t :
  inv s N t → ∃ fs q kvs lo hi, at_leaf N t fs q kvs lo hi
    ∧ Forall (picks (λ n, get_left_child n 0)) fs ∧ leaves t = q :: afters leaves fs.
Proof.
  intros Hi. destruct (wf_walk (λ _, O) N t None None) as (fs & q & kvs & lo & hi & -> & Hp & Hw & Hall); [lia|apply Hi|].
  exists fs, q, kvs, lo, hi. split; [done|]. apply path_frames in Hp.
  rewrite (collect_fill leaves) by done. simpl.
  assert (Forall (picks (λ n, get_left_child n 0)) fs ∧ befores leaves fs = []) as [? ->]; [|done].
  clear Hi Hw. induction fs as [|f fs IH]; [done|]. apply Forall_cons in Hp as [Hl Hp], Hall as [Hk Hall].
  destruct IH as [Hps Hb]; [done..|]. rewrite Hk in Hl. apply nil_length_inv in Hl.
  simpl. rewrite Hl, Hb. split; [constructor; [by apply picks_first|done]|done].
Qed.

(** ** Iterators *)
Definition end_at (N : nat) t (it : Z * nat) : Prop :=
  ∃ xs kvs, leaves t = xs ++ [it.1] ∧ (it.1, CLeaf kvs) ∈ cells N t ∧ it.2 = length kvs.

Lemma cell_unique h (cl : list (Z * cell (K:=K) (V:=V))) p d d' :
  exact slots h cl → (p, d) ∈ cl → (p, d') ∈ cl → d = d'.
Proof.
  intros Hex H1 H2. pose proof (ex_nodup _ _ _ Hex) as Hnd.
  apply list_elem_of_lookup in H1 as [i Hi], H2 as [j Hj].
  assert (i = j) as ->; [|congruence].
  eapply NoDup_lookup; [exact Hnd|by rewrite list_lookup_fmap, Hi|by rewrite list_lookup_fmap, Hj].
Qed.
(** An iterator at an entry is not the end. *)
Lemma at_entry_not_end s N t it e : inv s N t → at_entry N t it e → ¬ end_at N t it.
Proof.
  intros Hi (kvs & Hc & He) (xs & kvs' & _ & Hc' & Hl).
  pose proof (cell_unique _ _ _ _ _ (iv_exact _ _ _ _ _ Hi) Hc Hc') as [= ->].
  apply lookup_lt_Some in He. lia.
Qed.
Lemma end_at_unique s N t it it' : inv s N t → end_at N t it → end_at N t it' → it = it'.
Proof.
  intros Hi (xs & kvs & Hl & Hc & Hn) (xs' & kvs' & Hl' & Hc' & Hn'). destruct it as [p i], it' as [p' i']. simpl in *.
  rewrite Hl in Hl'. apply app_inj_tail in Hl' as [_ ->].
  pose proof (cell_unique _ _ _ _ _ (iv_exact _ _ _ _ _ Hi) Hc Hc') as [= ->]. congruence.
Qed.

Lemma end_wp s N t E (Q : Z * nat → bt → Prop) :
  inv s N t → (∀ it s', inv s' N t → size (nodes s') = size (nodes s) → end_at N t it → Q it s') → wp end_ E Q s.
Proof.
  intros Hi HQ. destruct (last_leaf _ _ _ Hi) as (fs & q & kvs & lo & hi & Hat & Hp & Hl).
  unfold end_, rightmost_leaf. rewrite wp_bind, wp_bind, wp_get, (inv_root_not_null _ _ _ Hi), wp_bind.
  eapply descend_to; [done..|]. rewrite wp_bind. eapply check_leaf_wp; [done..|]. intros s' Hi' Hs'. rewrite wp_ret.
  pose proof (at_leaf_in _ _ _ _ _ _ _ Hat) as Hin.
  destruct (exact_leaf _ _ _ _ _ (iv_exact _ _ _ _ _ Hi') Hin) as (l & Hlq & Hok).
  assert (q ≠ 0) as H0%Z.eqb_neq.
  { intros ->. apply (ex_null _ _ _ (iv_exact _ _ _ _ _ Hi')). by apply (list_elem_of_fmap_2 fst) in Hin. }
  rewrite H0, wp_bind, (wp_cast_leaf _ _ _ _ _ Hlq), (wp_bind_returns _ _ _ _ _ _ (leaf_size_returns _ _ _ Hok)), wp_ret.
  apply HQ; [done..|]. by exists (befores leaves fs), kvs.
Qed.

(** ** The abstract map *)
Context `{!EqDecision K, !Countable K}.
Implicit Types m : gmap K V.

Definition holds m (kvs : list (K * V)) : Prop := ∀ k v, m !! k = Some v ↔ (k, v) ∈ kvs.

Lemma holds_perm m kvs kvs' : kvs ≡ₚ kvs' → holds m kvs → holds m kvs'.
Proof. intros Hp Hm k v. rewrite <- Hp. apply Hm. Qed.
Lemma holds_insert m k v kvs : m !! k = None → holds m kvs → holds (<[k := v]> m) ((k, v) :: kvs).
Proof.
  intros Hk Hm k' v'. specialize (Hm k' v'). rewrite elem_of_cons, <- Hm. destruct (decide (k = k')) as [<-|Hne].
  - rewrite lookup_insert_eq, Hk. naive_solver.
  - rewrite lookup_insert_ne by done. naive_solver.
Qed.
Lemma holds_fresh m k v kvs : k ∉ kvs.*1 → holds m ((k, v) :: kvs) → holds (delete k m) kvs.
Proof.
  intros Hk Hm k' v'. specialize (Hm k' v'). rewrite lookup_delete_Some, Hm, elem_of_cons. split; [naive_solver|].
  intros Hin. split; [|by right]. intros <-. apply Hk. by apply (list_elem_of_fmap_2 fst) in Hin.
Qed.
Lemma holds_none m k kvs : holds m kvs → k ∉ kvs.*1 → m !! k = None.
Proof.
  intros Hm Hk. apply eq_None_not_Some. intros [v Hv]. apply Hm in Hv. apply Hk. by apply (list_elem_of_fmap_2 fst) in Hv.
Qed.

(** The key is among all entries when it is among those of its leaf. *)
Lemma at_leaf_flat N t k fs q kvs lo hi :
  at_leaf N t fs q kvs lo hi → in_range lo hi k → flat t ≡ₚ kvs ++ (befores flat fs ++ afters flat fs)
    ∧ k ∉ (befores flat fs ++ afters flat fs).*1.
Proof.
  intros Hat Hr. destruct (path_range _ _ _ _ _ _ _ _ _ (al_path _ _ _ _ _ _ _ Hat) Hr) as (_ & Hb & Ha).
  split.
  - rewrite (al_fill _ _ _ _ _ _ _ Hat), (collect_fill flat) by done. simpl. apply Permutation_app_swap_app.
  - intros (e & He & [Hin|Hin]%elem_of_app)%list_elem_of_fmap; rewrite He in *.
    + by apply Hb, key_lt_irrefl in Hin.
    + by apply Ha, key_lt_irrefl in Hin.
Qed.
(** The entries of a leaf around a key. *)
Lemma wf_cut q kvs lo hi k :
  wf slots 0 (TLeaf q kvs) lo hi →
  (∃ kvs1 v kvs2, kvs = kvs1 ++ (k, v) :: kvs2)
  ∨ ∃ kvs1 kvs2, kvs = kvs1 ++ kvs2 ∧ k ∉ kvs.*1
      ∧ (∀ x, x ∈ kvs1 → key_lt x.1 k) ∧ (∀ x, x ∈ kvs2 → key_lt k x.1).
Proof.
  intros (_ & Hs & _ & _). destruct (sorted_cut fst kvs k Hs) as (kvs1 & kvs2 & -> & H1 & H2 & _).
  destruct (cut_head fst kvs1 kvs2 k Hs H1 H2) as [([k' v] & kvs' & -> & <-)|[Hn H3]].
  - left. by exists kvs1, v, kvs'.
  - right. by exists kvs1, kvs2.
Qed.
(** Entries of a leaf: one is removed, put in, or gets another value. *)
Lemma wf_leaf_remove q kvs1 e kvs2 lo hi :
  wf slots 0 (TLeaf q (kvs1 ++ e :: kvs2)) lo hi → wf slots 0 (TLeaf q (kvs1 ++ kvs2)) lo hi.
Proof.
  intros (? & Hs & Hr & Hl). split_and!; [done| | |].
  - rewrite fmap_app in Hs |- *. simpl in Hs. apply ksorted_app in Hs as (H1 & H2 & H3).
    apply (ksorted_app [e.1]) in H2 as (_ & H2 & _). apply ksorted_app. split_and!; [done..|].
    intros a b Ha Hb. apply H3; set_solver.
  - intros x Hx. apply Hr. set_solver.
  - rewrite length_app in Hl |- *. simpl in Hl. lia.
Qed.
Lemma wf_leaf_once q kvs1 e kvs2 lo hi :
  wf slots 0 (TLeaf q (kvs1 ++ e :: kvs2)) lo hi → e.1 ∉ (kvs1 ++ kvs2).*1.
Proof.
  intros (_ & Hs%ksorted_NoDup & _). rewrite fmap_app in Hs |- *. simpl in Hs.
  rewrite <- Permutation_middle in Hs. by apply NoDup_cons in Hs as [? _].
Qed.
Lemma wf_leaf_keys q kvs kvs' lo hi :
  wf slots 0 (TLeaf q kvs) lo hi → kvs'.*1 = kvs.*1 → wf slots 0 (TLeaf q kvs') lo hi.
Proof.
  intros (? & Hs & Hr & Hl) Hk. split_and!; [done|by rewrite Hk| |].
  - intros e He. apply (list_elem_of_fmap_2 fst) in He. rewrite Hk in He.
    apply list_elem_of_fmap in He as (e' & -> & He'). by apply Hr.
  - rewrite <- (length_fmap fst kvs'), Hk, length_fmap. done.
Qed.
Lemma wf_leaf_put q kvs1 kvs2 e lo hi :
  wf slots 0 (TLeaf q (kvs1 ++ kvs2)) lo hi → in_range lo hi e.1 → (length (kvs1 ++ kvs2) < slots)%nat →
  (∀ x, x ∈ kvs1 → key_lt x.1 e.1) → (∀ x, x ∈ kvs2 → key_lt e.1 x.1) →
  wf slots 0 (TLeaf q (kvs1 ++ e :: kvs2)) lo hi.
Proof.
  intros (? & Hs & Hr & Hl) He Hlen H1 H2. split_and!; [done|by apply ksorted_put| |].
  - intros x [Hx|[->|Hx]%elem_of_cons]%elem_of_app; [|done|]; apply Hr; set_solver.
  - rewrite length_app in Hlen |- *. simpl. lia.
Qed.

(** A tree for the map [m]. *)
Definition tree_of s (N : nat) t m : Prop := inv s N t ∧ holds m (flat t).

Lemma leaf_null s N t q kvs : inv s N t → (q, CLeaf kvs) ∈ cells N t → (q =? 0) = false.
Proof.
  intros Hi Hin. apply Z.eqb_neq. intros ->. apply (ex_null _ _ _ (iv_exact _ _ _ _ _ Hi)).
  by apply (list_elem_of_fmap_2 fst) in Hin.
Qed.
Lemma leaf_for_in N t k fs q kvs lo hi : leaf_for N t k fs q kvs lo hi → (q, CLeaf kvs) ∈ cells N t.
Proof. intros [Hat _]. by eapply at_leaf_in. Qed.

(** What the map says of the key, from its leaf. *)
Lemma leaf_for_there s N t k fs q kvs1 v kvs2 lo hi m :
  tree_of s N t m → leaf_for N t k fs q (kvs1 ++ (k, v) :: kvs2) lo hi → m !! k = Some v.
Proof. intros [_ Hm] (Hat & Hr & _). destruct (at_leaf_flat _ _ _ _ _ _ _ _ Hat Hr) as [Hp _]. apply Hm. rewrite Hp. set_solver. Qed.
Lemma leaf_for_absent s N t k fs q kvs lo hi m :
  tree_of s N t m → leaf_for N t k fs q kvs lo hi → k ∉ kvs.*1 → m !! k = None.
Proof.
  intros [_ Hm] (Hat & Hr & _) Hn. destruct (at_leaf_flat _ _ _ _ _ _ _ _ Hat Hr) as [Hp Hk]. eapply holds_none; [exact Hm|]. rewrite Hp, fmap_app. set_solver.
Qed.

(** Another leaf in place of the one for the key: the map changes as the leaf does. *)
Lemma replace_leaf s N t k fs q kvs lo hi m lf kvs' m' :
  tree_of s N t m → at_leaf N t fs q kvs lo hi → in_range lo hi k →
  wf slots 0 (TLeaf q kvs') lo hi → leaf_ok slots lf kvs' →
  link (nodes s) q = Some (prev lf, next lf) →
  (∀ rest, k ∉ rest.*1 → holds m (kvs ++ rest) → holds m' (kvs' ++ rest)) →
  let s' := s <| nodes := <[q := Leaf lf]> (nodes s) |> in
  let t' := fill fs (TLeaf q kvs') in
  tree_of s' N t' m' ∧ (q, CLeaf kvs') ∈ cells N t' ∧ size (nodes s') = size (nodes s).
Proof.
  intros [Hi Hm] Hat Hr Hwf Hok Hlk Hch. destruct (at_leaf_flat _ _ _ _ _ _ _ _ Hat Hr) as [Hp Hk].
  destruct (inv_store _ _ _ _ _ _ _ _ _ _ Hi Hat Hwf Hok Hlk) as (Hi' & Hat' & Hsz). cbv zeta.
  split; [split; [done|]|split; [by eapply at_leaf_in|done]].
  destruct (at_leaf_flat N (fill fs (TLeaf q kvs')) k fs q kvs' lo hi) as [Hp' _]; [done..|].
  eapply holds_perm; [symmetry; exact Hp'|]. apply Hch; [done|]. by eapply holds_perm.
Qed.

Lemma find_wp s N t m k E :
  tree_of s N t m →
  wp (find k) E (λ it s', tree_of s' N t m ∧ size (nodes s') = size (nodes s)
    ∧ match m !! k with Some v => at_entry N t it (k, v) | None => end_at N t it end) s.
Proof.
  intros [Hi Hm]. destruct (leaf_for_exists _ _ _ k Hi) as (fs & q & kvs & lo & hi & Hf).
  pose proof (leaf_for_in _ _ _ _ _ _ _ _ Hf) as Hin.
  unfold find. rewrite wp_bind. eapply find_leaf_node_wp; [done..|]. intros s' Hi' Hs'. rewrite (leaf_null _ _ _ _ _ Hi' Hin).
  destruct (exact_leaf _ _ _ _ _ (iv_exact _ _ _ _ _ Hi') Hin) as (l & Hl & Hok).
  rewrite wp_bind, (wp_cast_leaf _ _ _ _ _ Hl).
  destruct (wf_cut q kvs lo hi k (al_wf _ _ _ _ _ _ _ (proj1 Hf))) as [(kvs1 & v & kvs2 & ->)|(_ & _ & _ & Hn & _)].
  - rewrite (wp_bind_returns _ _ _ _ _ _ (leaf_find_there _ _ _ (k, v) _ Hok)).
    rewrite (wp_bind_returns _ _ _ _ _ _ (leaf_size_returns _ _ _ Hok)).
    rewrite (proj2 (Nat.eqb_neq _ _)), wp_ret by (rewrite length_app; simpl; lia).
    split_and!; [done..|]. erewrite leaf_for_there; [|by split|done].
    eexists. split; [done|]. by apply list_lookup_middle.
  - rewrite (wp_bind_returns _ _ _ _ _ _ (leaf_find_absent _ _ _ k Hok Hn)).
    rewrite (wp_bind_returns _ _ _ _ _ _ (leaf_size_returns _ _ _ Hok)), Nat.eqb_refl.
    eapply end_wp; [done|]. intros it s'' Hi'' Hs'' He. split_and!; [done|congruence|].
    by erewrite leaf_for_absent by first [by split|done].
Qed.

Lemma erase_wp s N t m k E :
  tree_of s N t m →
  wp (erase k) E (λ r s', (∃ t', tree_of s' N t' (delete k m)) ∧ size (nodes s') = size (nodes s)
    ∧ r = match m !! k with Some _ => 1%nat | None => O end) s.
Proof.
  intros [Hi Hm]. destruct (leaf_for_exists _ _ _ k Hi) as (fs & q & kvs & lo & hi & Hf).
  pose proof (leaf_for_in _ _ _ _ _ _ _ _ Hf) as Hin.
  unfold erase. rewrite wp_bind. eapply find_leaf_node_wp; [done..|]. intros s' Hi' Hs'. rewrite (leaf_null _ _ _ _ _ Hi' Hin).
  destruct (exact_leaf _ _ _ _ _ (iv_exact _ _ _ _ _ Hi') Hin) as (l & Hl & Hok).
  rewrite wp_bind, (wp_cast_leaf _ _ _ _ _ Hl). pose proof (al_wf _ _ _ _ _ _ _ (proj1 Hf)) as Hwf.
  assert (link (nodes s') q = Some (prev l, next l)) as Hlk by (unfold link; by rewrite Hl).
  destruct (wf_cut q kvs lo hi k Hwf) as [(kvs1 & v & kvs2 & ->)|(_ & _ & _ & Hn & _)].
  - destruct (leaf_erase_there slots (S:=bt) l kvs1 (k, v) kvs2 Hok) as (l' & Hr & Hok' & Hpr & Hnx).
    rewrite (wp_bind_returns _ _ _ _ _ _ Hr), wp_bind. unfold BTree.store. rewrite wp_modify, wp_ret.
    destruct (replace_leaf s' N t k fs q (kvs1 ++ (k, v) :: kvs2) lo hi m l' (kvs1 ++ kvs2) (delete k m)) as (Ht & _ & Hsz); try first [done|by apply Hf].
    + by eapply wf_leaf_remove.
    + by rewrite Hpr, Hnx.
    + intros rest Hk Hh. apply (holds_fresh _ _ v).
      * rewrite fmap_app. apply wf_leaf_once in Hwf. set_solver.
      * eapply holds_perm; [|exact Hh]. rewrite <- !app_assoc. symmetry. apply Permutation_middle.
    + erewrite leaf_for_there; [|by split|done]. split; [by eexists|]. split; [|done]. by etransitivity.
  - rewrite (wp_bind_returns _ _ _ _ _ _ (leaf_erase_absent slots _ _ k Hok Hn)), wp_bind.
    unfold BTree.store. rewrite wp_modify, wp_ret.
    assert (m !! k = None) as Hmk by (by eapply leaf_for_absent; [split|..]).
    destruct (replace_leaf s' N t k fs q kvs lo hi m l kvs m) as (Ht & _ & Hsz); try first [done|by apply Hf].
    rewrite Hmk, delete_id by done. split; [by eexists|]. split; [|done]. by etransitivity.
Qed.

(** Every leaf is at the end of a path, and the keys in it are in its range. *)
Lemma wf_leaf_at n t lo0 hi0 q kvs :
  wf slots n t lo0 hi0 → (q, CLeaf kvs) ∈ cells n t →
  ∃ fs lo hi, t = fill fs (TLeaf q kvs) ∧ path_ok slots n fs lo0 hi0 0 lo hi ∧ wf slots 0 (TLeaf q kvs) lo hi.
Proof.
  revert t lo0 hi0. induction n as [|n IH]; intros [p kvs'|p ks cs] lo hi Hwf Hin; try done.
  - apply list_elem_of_singleton in Hin as [= -> ->]. by exists [], lo, hi.
  - simpl in Hin. apply elem_of_cons in Hin as [|Hin]; [done|]. apply list_elem_of_In, in_flat_map in Hin as (c & Hc%list_elem_of_In & Hin%list_elem_of_In).
    apply list_elem_of_split in Hc as (cs1 & cs2 & ->).
    pose proof Hwf as [_ Hl%kids_length]. rewrite length_app in Hl. simpl in Hl.
    set (f := Frame p (take (length cs1) ks) (drop (length cs1) ks) cs1 cs2).
    assert (f_keys f = ks) as Hks by apply take_drop.
    destruct (wf_plug_inv slots n f c lo hi) as [Hf Hc]; [unfold plug; by rewrite Hks|simpl; rewrite length_take; lia|].
    destruct (IH c _ _ Hc Hin) as (fs & lo' & hi' & -> & Hp & Hw).
    exists (f :: fs), lo', hi'. split_and!; [|by exists n|done]. simpl. unfold plug. by rewrite Hks.
Qed.

(** Reading and writing through an iterator. *)
Lemma it_deref_wp s N t it e E (Q : K * V → bt → Prop) :
  inv s N t → at_entry N t it e → Q e s → wp (it_deref it) E Q s.
Proof.
  intros Hi (kvs & Hin & He) HQ. destruct (exact_leaf _ _ _ _ _ (iv_exact _ _ _ _ _ Hi) Hin) as (l & Hl & Hok).
  unfold it_deref. rewrite wp_bind, (wp_cast_leaf _ _ _ _ _ Hl). by apply (wp_returns _ _ _ _ _ (leaf_at_returns _ _ _ _ _ Hok He)).
Qed.
Lemma it_assign_wp s N t m it k v x E :
  tree_of s N t m → at_entry N t it (k, v) →
  wp (it_assign it x) E (λ _ s', (∃ t', tree_of s' N t' (<[k := x]> m) ∧ at_entry N t' it (k, x))
    ∧ size (nodes s') = size (nodes s)) s.
Proof.
  intros [Hi Hm] (kvs & Hin & He). destruct it as [q pos]. simpl in Hin, He.
  destruct (exact_leaf _ _ _ _ _ (iv_exact _ _ _ _ _ Hi) Hin) as (l & Hl & Hok).
  destruct (wf_leaf_at _ _ _ _ _ _ (iv_wf _ _ _ _ _ Hi) Hin) as (fs & lo & hi & Ht & Hp & Hwf).
  destruct (lf_index _ _ _ Hok) as (c & w & Hv & Hix). destruct (index_at _ _ _ _ _ _ _ Hix He) as (i & Hci & Hei).
  unfold it_assign. rewrite wp_bind, (wp_cast_leaf _ _ _ _ _ Hl). simpl.
  rewrite (wp_bind_returns _ _ _ _ _ _ (consistent_returns _ _ _ Hv)).
  rewrite (wp_bind_returns _ _ _ _ _ _ (returns_deref _ _ Hci)), (wp_bind_returns _ _ _ _ _ _ (returns_deref _ _ Hei)).
  unfold BTree.store. rewrite wp_modify. simpl.
  apply list_elem_of_split_length in He as (kvs1 & kvs2 & -> & ->).
  pose proof (wf_leaf_once _ _ _ _ _ _ Hwf) as Honce. simpl in Honce.
  destruct (replace_leaf s N t k fs q (kvs1 ++ (k, v) :: kvs2) lo hi m (l <| entries := <[i := (k, x)]> (entries l) |>)
    (kvs1 ++ (k, x) :: kvs2) (<[k := x]> m)) as (Ht' & Hin' & Hsz); try done.
  - destruct Hwf as (_ & _ & Hr & _). apply (Hr (k, v)). set_solver.
  - eapply wf_leaf_keys; [exact Hwf|]. by rewrite !fmap_app.
  - by apply (assign_ok slots l kvs1 (k, v) kvs2 c w).
  - unfold link. by rewrite Hl.
  - intros rest Hk Hh. eapply holds_perm; [rewrite <- app_assoc; apply Permutation_middle|].
    rewrite <- (insert_delete_eq m). apply holds_insert; [apply lookup_delete_eq|].
    apply (holds_fresh _ _ v).
    + rewrite app_assoc, fmap_app. set_solver.
    + eapply holds_perm; [|exact Hh]. rewrite <- app_assoc. symmetry. apply Permutation_middle.
  - split; [|done]. eexists. split; [done|]. eexists. split; [done|]. by apply list_lookup_middle.
Qed.
End safe.
