(* ===== verification/BTreeInsert.v ===== *)
(** Insertion into the B-tree: the full nodes on the way to the leaf are split from the
    lowest node that has room downward, then the leaf; and the refinement of all
    operations of the tree to those of a finite map. *)

From stdpp Require Import sorting.
From S2P Require Import Prelude BTree BTreeNode BTreeRep BTreeSplit BTreeLeafSplit BTreeSafe.

#[local] Arguments Nat.div : simpl never.

Section insert.
Context {K V : Type} `{!Key K, !KeyLaws K, !Key V, !KeyEq V, !Inhabited K, !Inhabited V}.
Context (slots : nat) (Hslots : (2 ≤ slots)%nat).
Context (pool_room : nat) (Hroom : Z.of_nat pool_room < 2 ^ 64).
Context (fresh : gmap Z (node_t (K:=K) (V:=V)) → Z).
Context (Hfresh : ∀ h, h !! fresh h = None ∧ fresh h ≠ 0).
Abbreviation bt := (b_tree (K:=K) (V:=V)).
Abbreviation inv := (inv slots pool_room).
Implicit Types (s : bt) (t tl : tree (K:=K) (V:=V)) (f g : frame (K:=K) (V:=V)) (k : K) (lo hi : bound (K:=K)).
Implicit Types (kvs : list (K * V)) (fs pre rest : list (frame (K:=K) (V:=V))) (lf : leaf_node_t (K:=K) (V:=V)).

(** ** Nodes on the path *)
Lemma path_cell N pre f rest tl :
  f_cell (N - length pre) f (ptr (fill rest tl)) ∈ cells N (fill (pre ++ f :: rest) tl).
Proof.
  rewrite fill_app, cells_fill. apply elem_of_app. right. cbn [fill foldr]. rewrite cells_plug. by apply elem_of_cons; left.
Qed.
Lemma path_node s N pre f rest tl :
  inv s N (fill (pre ++ f :: rest) tl) →
  ∃ i lv, nodes s !! f_ptr f = Some (Inner i)
    ∧ inner_ok slots i lv (f_keys f) (map ptr (f_cs1 f) ++ ptr (fill rest tl) :: map ptr (f_cs2 f)).
Proof.
  intros Hi. destruct (exact_inner _ _ _ _ _ _ _ (iv_exact _ _ _ _ _ Hi) (path_cell N pre f rest tl)) as (i & ? & ?).
  by exists i, (Z.of_nat (N - length pre)).
Qed.

Definition full f : Prop := length (f_keys f) = slots.

(** The lowest node with room, or the root. *)
Lemma find_full_node_wp s N fs tl j E (Q : nat → bt → Prop) :
  inv s N (fill fs tl) → (j < length fs)%nat →
  (∀ i f pre rest, fs = pre ++ f :: rest → length pre = i → (i ≤ j)%nat → (i = O ∨ ¬ full f) →
    Forall full (take (j - i) rest) → Q i s) →
  wp (find_full_node slots (map f_ptr fs) j) E Q s.
Proof.
  intros Hi. induction j as [|j IH]; intros Hj HQ.
  - cbn [find_full_node]. rewrite wp_ret. destruct fs as [|f fs]; simpl in Hj; [lia|]. apply (HQ O f [] fs); auto.
  - destruct (lookup_lt_is_Some_2 fs (S j)) as [f Hf]; [lia|].
    pose proof Hf as (pre & rest & -> & Hpre)%list_elem_of_split_length.
    destruct (path_node _ _ _ _ _ _ Hi) as (nd & lv & Hnd & Hok).
    cbn [find_full_node]. 
    assert (map f_ptr (pre ++ f :: rest) !! S j = Some (f_ptr f)) as Hptr.
    { rewrite list_lookup_fmap. by rewrite Hf. }
    rewrite (wp_bind_returns _ _ _ _ _ _ (returns_deref _ _ Hptr)).
    rewrite wp_bind, (wp_cast_inner _ _ _ _ _ Hnd), (wp_bind_returns _ _ _ _ _ _ (inner_full_returns _ _ _ _ _ Hok)).
    destruct (Nat.eqb_spec (length (f_keys f)) slots) as [Hfull|Hfull].
    + apply IH; [lia|]. intros i f' pre' rest' Heq Hi' Hij Hf' Hall.
      apply (HQ i f' pre' rest'); [done..|lia|done|].
      replace (S j - i)%nat with (S (j - i)) by lia. rewrite (take_S_r _ _ f); [by apply Forall_app_2; [|constructor]|].
      rewrite Heq, lookup_app_r in Hf by lia. rewrite <- Hf. replace (S j - length pre')%nat with (S (j - i)) by lia. done.
    + rewrite wp_ret. eapply (HQ (S j) f pre rest); [done|lia|lia|by right|]. rewrite Nat.sub_diag. constructor.
Qed.

(** A split keeps the entries. *)
Lemma splits_flat N pre f g rest tl n' lo' hi' k e l r f' g' :
  splits slots N pre f g rest tl n' lo' hi' k e l r f' g' →
  flat (fill (pre ++ f' :: g' :: rest) tl) = flat (fill (pre ++ f :: g :: rest) tl).
Proof.
  intros (-> & _). rewrite fill_app, !(collect_fill flat (λ _ _ _, eq_refl) pre).
  by rewrite (collect_split flat (λ _ _ _, eq_refl)).
Qed.

(** The child of a node on the path toward the key. *)
Lemma path_child s N pre f rest tl n' lo' hi' k E (Q : Z → bt → Prop) :
  inv s N (fill (pre ++ f :: rest) tl) → path_ok slots N (pre ++ f :: rest) None None n' lo' hi' → f_cut k f →
  Q (ptr (fill rest tl)) s → wp (n ← cast_inner (f_ptr f); get_child n k) E Q s.
Proof.
  intros Hi Hp Hc HQ. destruct (path_node _ _ _ _ _ _ Hi) as (nd & lv & Hnd & Hok).
  apply path_frames in Hp. apply Forall_app in Hp as [_ [Hl _]%Forall_cons].
  rewrite wp_bind, (wp_cast_inner _ _ _ _ _ Hnd).
  by apply (wp_returns _ _ _ _ _ (picks_cut slots k f Hl Hc _ _ _ Hok)).
Qed.

(** The loop: below a node with room, every node is full. *)
Lemma split_path_wp lo hi tl k c rest : ∀ s N pre f,
  inv s N (fill (pre ++ f :: rest) tl) → path_ok slots N (pre ++ f :: rest) None None 0 lo hi →
  Forall (f_cut k) (f :: rest) → (length (f_keys f) < slots)%nat → Forall full rest →
  (size (nodes s) + length rest ≤ c)%nat →
  wp (split_path slots pool_room fresh (map f_ptr rest) (f_ptr f) k) (full_pool pool_room c)
    (λ parent s', ∃ pre' f', parent = f_ptr f' ∧ inv s' N (fill (pre' ++ [f']) tl)
       ∧ path_ok slots N (pre' ++ [f']) None None 0 lo hi ∧ (length (f_keys f') < slots)%nat
       ∧ flat (fill (pre' ++ [f']) tl) = flat (fill (pre ++ f :: rest) tl)
       ∧ size (nodes s') = (size (nodes s) + length rest)%nat) s.
Proof.
  induction rest as [|g rest IH]; intros s N pre f Hi Hp Hcut Hlen Hfull Hc.
  - cbn [split_path map]. rewrite wp_ret. exists pre, f. split_and!; [done..|simpl; lia].
  - apply Forall_cons in Hcut as [Hcf Hcut]. pose proof Hcut as [Hcg Hcr]%Forall_cons.
    apply Forall_cons in Hfull as [Hg Hfull]. simpl in Hc. cbn [split_path map]. rewrite wp_bind.
    eapply wp_mono; [by eapply (split_inner_wp slots Hslots pool_room fresh Hfresh s N pre f g)| |].
    { intros ?. apply full_pool_mono. lia. }
    intros ? s1 (e & f1 & g1 & Hsp & Hi1 & Hs1). pose proof (splits_flat _ _ _ _ _ _ _ _ _ _ _ _ _ _ _ Hsp) as Hflat.
    destruct Hsp as (_ & Hp1 & _ & Hcf1 & Hcg1 & Hptr & Hg1). rewrite <- Hptr.
    assert (wp (n ← cast_inner (f_ptr f1); get_child n k) (full_pool pool_room c) (λ p s', p = f_ptr g1 ∧ s' = s1) s1) as Hch.
    { by eapply path_child; [exact Hi1|exact Hp1|..]. }
    rewrite wp_bind. eapply wp_mono; [exact (proj1 (wp_bind _ _ _ _ _) Hch)|done|]. clear Hch.
    intros n s1' Hch. rewrite wp_bind. eapply wp_mono; [exact Hch|done|]. clear Hch s1'. intros ? ? [-> ->].
    rewrite (cons_middle f1 pre (g1 :: rest)), app_assoc in Hi1, Hp1.
    eapply wp_mono; [apply (IH s1 N (pre ++ [f1]) g1); [done|done|by constructor|done|done|lia]|done|].
    intros parent s2 (pre' & f' & -> & Hi2 & Hp2 & Hf2 & Hfl2 & Hs2). exists pre', f'. split_and!; [done..| |simpl; lia].
    rewrite Hfl2, <- Hflat. by rewrite <- app_assoc.
Qed.

(** ** Insertion *)
Definition has_parent s (N : nat) pre f tl lo hi (F : list (K * V)) (c : nat) : Prop :=
  inv s N (fill (pre ++ [f]) tl) ∧ path_ok slots N (pre ++ [f]) None None 0 lo hi
  ∧ (length (f_keys f) < slots)%nat ∧ flat (fill (pre ++ [f]) tl) = F ∧ (size (nodes s) ≤ c)%nat.

(** From the lowest node with room down to the parent of the leaf. *)
Lemma make_room_wp s N fs tl k lo hi c A (kont : Z → M bt A) Q :
  inv s N (fill fs tl) → path_ok slots N fs None None 0 lo hi → Forall (f_cut k) fs → fs ≠ [] →
  (size (nodes s) + length fs + 1 ≤ c)%nat →
  (∀ s' N' pre f, has_parent s' N' pre f tl lo hi (flat (fill fs tl)) (size (nodes s) + length fs + 1) →
    wp (kont (f_ptr f)) (full_pool pool_room c) Q s') →
  wp (i ← find_full_node slots (map f_ptr fs) (length (map f_ptr fs) - 1);
      p ← deref (map f_ptr fs !! i);
      inner ← cast_inner p;
      full ← inner_full slots inner;
      (if full : bool then
         split_inner_node slots pool_room fresh p 0 ;; s ← get; r ← cast_inner (root s); get_child r k
       else mret p) ≫= λ parent_node,
      parent_node ← split_path slots pool_room fresh (drop (i + 1) (map f_ptr fs)) parent_node k;
      kont parent_node) (full_pool pool_room c) Q s.
Proof.
  intros Hi Hp Hcut Hne Hc Hk. rewrite wp_bind. rewrite length_map.
  assert (0 < length fs)%nat as Hpos by (destruct fs; [done|simpl; lia]).
  eapply find_full_node_wp; [done|lia|]. intros i f pre rest -> Hpre Hij Hf Hall.
  rewrite length_app in Hpos, Hij, Hall, Hc, Hk. simpl in Hpos, Hij, Hall, Hc, Hk. rewrite take_ge in Hall by lia.
  assert (map f_ptr (pre ++ f :: rest) !! i = Some (f_ptr f)) as Hptr.
  { rewrite list_lookup_fmap, list_lookup_middle by done. done. }
  assert (drop (i + 1) (map f_ptr (pre ++ f :: rest)) = map f_ptr rest) as ->.
  { rewrite map_app. simpl. rewrite drop_app_ge by (rewrite length_map; lia). rewrite length_map, <- Hpre.
    replace (length pre + 1 - length pre)%nat with 1%nat by lia. done. }
  rewrite (wp_bind_returns _ _ _ _ _ _ (returns_deref _ _ Hptr)).
  destruct (path_node _ _ _ _ _ _ Hi) as (nd & lv & Hnd & Hok).
  rewrite wp_bind, (wp_cast_inner _ _ _ _ _ Hnd), (wp_bind_returns _ _ _ _ _ _ (inner_full_returns _ _ _ _ _ Hok)).
  apply Forall_app in Hcut as [_ Hcut]. rewrite wp_bind.
  destruct (Nat.eqb_spec (length (f_keys f)) slots) as [Hfull|Hfull].
  - destruct Hf as [->|]; [|done]. destruct pre; [|done]. clear Hpre. simpl in Hi, Hp, Hk. rewrite wp_bind.
    pose proof Hcut as [Hcf Hcr]%Forall_cons.
    eapply wp_mono; [by eapply (split_root_wp slots Hslots pool_room Hroom fresh Hfresh s N f rest)| |].
    { intros ?. apply full_pool_mono. simpl in Hc. lia. }
    intros ? s1 (e & f1 & g1 & Hsp & Hi1 & Hs1). pose proof (splits_flat _ _ _ _ _ _ _ _ _ _ _ _ _ _ _ Hsp) as Hflat.
    destruct Hsp as (_ & Hp1 & _ & Hcf1 & Hcg1 & Hptr1 & Hg1). rewrite wp_bind, wp_get.
    rewrite (iv_root _ _ _ _ _ Hi1). eapply (path_child s1 (S N) [] f1 (g1 :: rest)); [done..|]. rewrite wp_bind.
    eapply wp_mono; [eapply (split_path_wp lo hi tl k c rest s1 (S N) [f1] g1); [done|done|by constructor|done|done|simpl in Hc; lia]|done|].
    intros parent s2 (pre' & f' & -> & Hi2 & Hp2 & Hf2 & Hfl2 & Hs2). apply (Hk s2 (S N) pre' f').
    split_and!; [done..| |lia]. rewrite Hfl2. simpl in Hflat |- *. rewrite Hflat. apply app_nil_r.
  - rewrite wp_ret, wp_bind. pose proof (inner_len _ _ _ _ _ Hok) as [Hle _].
    eapply wp_mono; [eapply (split_path_wp lo hi tl k c rest s N pre f); [done|done|done|lia|done|lia]|done|].
    intros parent s2 (pre' & f' & -> & Hi2 & Hp2 & Hf2 & Hfl2 & Hs2). apply (Hk s2 N pre' f').
    split_and!; [done..|lia].
Qed.

Context `{!EqDecision K, !Countable K}.
Implicit Types (m : gmap K V) (entry : K * V).
Abbreviation tree_of := (tree_of slots pool_room).

(** The map after an insertion: an entry that was there stays. *)
Definition put m entry : gmap K V := <[entry.1 := default entry.2 (m !! entry.1)]> m.
Definition inserted m entry (r : Z * nat * bool) s' : Prop :=
  r.2 = bool_decide (m !! entry.1 = None)
  ∧ ∃ N t, tree_of s' N t (put m entry) ∧ at_entry N t r.1 (entry.1, default entry.2 (m !! entry.1)).

Lemma inserted_old s N t m entry v it :
  tree_of s N t m → m !! entry.1 = Some v → at_entry N t it (entry.1, v) → inserted m entry (it, false) s.
Proof.
  intros Ht Hm Hit. unfold inserted, put. rewrite Hm. simpl. split; [done|]. exists N, t. by rewrite insert_id.
Qed.
Lemma inserted_new s N t m entry it F :
  inv s N t → m !! entry.1 = None → holds m F → flat t ≡ₚ entry :: F → at_entry N t it entry →
  inserted m entry (it, true) s.
Proof.
  intros Hi Hm HF Hflat Hit. unfold inserted, put. rewrite Hm. simpl. split; [done|]. exists N, t.
  destruct entry as [k v]. split; [|done]. split; [done|].
  eapply holds_perm; [symmetry; exact Hflat|]. by apply holds_insert.
Qed.

Lemma splitted s' entry F F' m it n c :
  split_done slots pool_room F' entry n it s' → F' ≡ₚ entry :: F → holds m F → m !! entry.1 = None → (n ≤ c)%nat →
  inserted m entry (it, true) s' ∧ (size (nodes s') ≤ c)%nat.
Proof.
  intros (N' & t' & Hi & Hfl & Hit & Hsz) HF Hm Hn Hc. split; [|lia].
  eapply inserted_new; [done..| |done]. by rewrite Hfl.
Qed.

(** The leaf is full and the key is new. *)
Lemma insert_full_wp s N t m fs q kvs1 kvs2 lo hi entry :
  tree_of s N t m → leaf_for slots N t entry.1 fs q (kvs1 ++ kvs2) lo hi →
  entry.1 ∉ (kvs1 ++ kvs2).*1 → length (kvs1 ++ kvs2) = slots →
  (∀ x, x ∈ kvs1 → key_lt x.1 entry.1) → (∀ x, x ∈ kvs2 → key_lt entry.1 x.1) →
  wp (match map f_ptr fs with
      | [] => '(p, it) ← split_leaf_node slots pool_room fresh 0 q entry; mret (p, it, true)
      | _ =>
        i ← find_full_node slots (map f_ptr fs) (length (map f_ptr fs) - 1);
        p ← deref (map f_ptr fs !! i);
        inner ← cast_inner p;
        full ← inner_full slots inner;
        (if full : bool then
           split_inner_node slots pool_room fresh p 0 ;; s ← get; r ← cast_inner (root s); get_child r entry.1
         else mret p) ≫= λ parent_node,
        parent_node ← split_path slots pool_room fresh (drop (i + 1) (map f_ptr fs)) parent_node entry.1;
        '(p, it) ← split_leaf_node slots pool_room fresh parent_node q entry;
        mret (p, it, true)
      end) (full_pool pool_room (size (nodes s) + N + 2))
    (λ r s', inserted m entry r s' ∧ (size (nodes s') ≤ size (nodes s) + N + 2)%nat) s.
Proof.
  intros [Hi Hm] Hf Hn Hlen H1 H2. pose proof (leaf_for_absent _ _ _ _ _ _ _ _ _ _ _ _ (conj Hi Hm) Hf Hn) as Hmk.
  destruct Hf as ([-> Hp Hwf] & Hr & Hcut). pose proof (path_length _ _ _ _ _ _ _ _ Hp) as HN.
  assert (∀ a b, a ++ (kvs1 ++ entry :: kvs2) ++ b ≡ₚ entry :: a ++ (kvs1 ++ kvs2) ++ b) as Hput.
  { intros a b. rewrite <- (Permutation_middle kvs1 kvs2). simpl. by rewrite <- Permutation_middle. }
  destruct fs as [|f0 fs0] eqn:Hfs.
  - simpl in HN. subst N. cbn [map]. rewrite wp_bind.
    eapply wp_mono; [eapply (split_leaf_root_wp slots Hslots pool_room Hroom fresh Hfresh); done| |].
    { intros ?. apply full_pool_mono. lia. }
    intros it s' Hd. destruct it as [p i]. rewrite wp_ret. eapply splitted; [done| |exact Hm|done|lia].
    pose proof (Hput [] []) as Hx. by rewrite !app_nil_r in Hx.
  - rewrite <- Hfs in *. change (f_ptr f0 :: map f_ptr fs0) with (map f_ptr (f0 :: fs0)).
    assert (∀ A (a b : A), match map f_ptr fs with [] => a | _ => b end = b) as Hmatch by (by rewrite Hfs).
    rewrite Hmatch. apply (make_room_wp s N fs (TLeaf q (kvs1 ++ kvs2)) entry.1 lo hi); [done..|by rewrite Hfs|lia|].
    intros s1 N1 pre f (Hi1 & Hp1 & Hf1 & Hfl1 & Hs1). rewrite wp_bind.
    eapply wp_mono; [eapply (split_leaf_parent_wp slots Hslots pool_room Hroom fresh Hfresh); done| |].
    { intros ?. apply full_pool_mono. lia. }
    intros it s' Hd. destruct it as [p i]. rewrite wp_ret. eapply splitted; [done| |exact Hm|done|lia].
    rewrite Hput, <- Hfl1. by rewrite (collect_fill flat) by done.
Qed.

Lemma insert_descend_wp s N t m entry :
  tree_of s N t m →
  wp (insert_descend slots pool_room fresh entry) (full_pool pool_room (size (nodes s) + N + 2))
    (λ r s', inserted m entry r s' ∧ (size (nodes s') ≤ size (nodes s) + N + 2)%nat) s.
Proof.
  intros [Hi Hm]. destruct (leaf_for_exists _ _ _ _ _ entry.1 Hi) as (fs & q & kvs & lo & hi & Hf).
  pose proof (leaf_for_in _ _ _ _ _ _ _ _ _ Hf) as Hin. unfold insert_descend. cbv zeta. rewrite wp_bind.
  eapply find_leaf_to_insert_wp; [done..|]. intros s1 Hi1 Hs1. rewrite <- Hs1.
  destruct (exact_leaf _ _ _ _ _ (iv_exact _ _ _ _ _ Hi1) Hin) as (l & Hl & Hok).
  rewrite wp_bind, (wp_cast_leaf _ _ _ _ _ Hl), (wp_bind_returns _ _ _ _ _ _ (leaf_full_returns _ _ _ Hok)).
  pose proof (al_wf _ _ _ _ _ _ _ _ (proj1 Hf)) as Hwf. pose proof (leaf_len _ _ _ Hok) as Hlen.
  assert (link (nodes s1) q = Some (prev l, next l)) as Hlk by (unfold link; by rewrite Hl).
  destruct (wf_cut _ q kvs lo hi entry.1 Hwf) as [(kvs1 & v & kvs2 & ->)|(kvs1 & kvs2 & -> & Hn & H1 & H2)].
  - assert (m !! entry.1 = Some v) as Hmk by (by eapply (leaf_for_there slots pool_room s1); [split|]).
    assert (inserted m entry (q, length kvs1, false) s1) as Hold.
    { eapply inserted_old; [by split|done|]. eexists. split; [done|]. by apply list_lookup_middle. }
    destruct (Nat.eqb_spec (length (kvs1 ++ (entry.1, v) :: kvs2)) slots) as [Hfull|Hfull].
    + rewrite (wp_bind_returns _ _ _ _ _ _ (leaf_find_there _ _ _ (entry.1, v) _ Hok)).
      rewrite (wp_bind_returns _ _ _ _ _ _ (leaf_size_returns _ _ _ Hok)).
      rewrite (proj2 (Nat.eqb_neq _ _)) by (rewrite length_app; simpl; lia). cbn [negb]. rewrite wp_ret. split; [done|lia].
    + pose proof (leaf_insert_old slots (S:=bt) l kvs1 (entry.1, v) kvs2 entry.2 Hok ltac:(lia)) as Hr.
      destruct entry as [k x]. rewrite (wp_bind_returns _ _ _ _ _ _ Hr), wp_bind.
      unfold BTree.store. rewrite wp_modify, wp_ret.
      replace (s1 <| nodes := _ |>) with s1 by (destruct s1; simpl in *; by rewrite insert_id).
      split; [done|lia].
  - assert (m !! entry.1 = None) as Hmk by (by eapply (leaf_for_absent slots pool_room s1); [split|..]).
    destruct (Nat.eqb_spec (length (kvs1 ++ kvs2)) slots) as [Hfull|Hfull].
    + rewrite (wp_bind_returns _ _ _ _ _ _ (leaf_find_absent _ _ _ _ Hok Hn)).
      rewrite (wp_bind_returns _ _ _ _ _ _ (leaf_size_returns _ _ _ Hok)), Nat.eqb_refl. cbn [negb].
      by eapply (insert_full_wp s1 N t m fs q kvs1 kvs2).
    + destruct (leaf_insert_new slots (S:=bt) l kvs1 kvs2 entry Hok) as (l' & Hr & Hok' & Hpr & Hnx); [lia|done..|].
      rewrite (wp_bind_returns _ _ _ _ _ _ Hr), wp_bind. unfold BTree.store. rewrite wp_modify, wp_ret.
      destruct (replace_leaf slots pool_room s1 N t entry.1 fs q (kvs1 ++ kvs2) lo hi m l' (kvs1 ++ entry :: kvs2)
        (<[entry.1 := entry.2]> m)) as (Ht & Hin' & Hsz); try first [done|by apply Hf].
      * apply wf_leaf_put; [done|by apply Hf|lia|done..].
      * by rewrite Hpr, Hnx.
      * intros rest Hk Hh. eapply holds_perm; [rewrite <- app_assoc; apply Permutation_middle|].
        destruct entry as [k x]. apply holds_insert; [done|]. by rewrite app_assoc.
      * split; [|simpl; simpl in Hsz; lia]. split; [by rewrite bool_decide_true|].
        eexists _, _. unfold put. rewrite Hmk. split; [exact Ht|]. eexists. split; [exact Hin'|]. destruct entry. by apply list_lookup_middle.
Qed.

(** ** The tree as a map *)
Definition repr s m : Prop :=
  (s = s <| nodes := ∅ |> <| root := 0 |> <| split_node := 0 |> ∧ m = ∅) ∨ ∃ N t, tree_of s N t m.

Lemma new_leaf_tree s r :
  r ≠ 0 → (0 < pool_room)%nat →
  tree_of (s <| nodes := {[r := Leaf (raw_leaf slots (epoch s) 0 0)]} |> <| root := r |> <| split_node := 0 |>) 0 (TLeaf r []) ∅.
Proof.
  intros Hr Hp. destruct (new_leaf_ok (K:=K) (V:=V) slots (S:=bt) (epoch s)) as [_ Hok]. split; [split|]; simpl.
  - done.
  - rewrite <- insert_empty. apply exact_alloc; [apply lookup_empty|done|done|].
    split; [constructor|set_solver|intros p [x Hx]; by rewrite lookup_empty in Hx|set_solver].
  - split; [|done]. unfold link. by rewrite lookup_singleton_eq.
  - split_and!; [done|constructor|set_solver|lia].
  - done.
  - rewrite map_size_singleton. lia.
  - intros k v. rewrite lookup_empty. set_solver.
Qed.
Lemma insert_wp s m entry :
  repr s m →
  wp (insert slots pool_room fresh entry) (full_pool pool_room (2 * size (nodes s) + 3))
    (λ r s', inserted m entry r s') s.
Proof.
  unfold insert. intros [[Hs ->]|(N & t & Ht)].
  - rewrite wp_bind, wp_get, wp_bind. assert (root s = 0) as Hr by (by rewrite Hs). rewrite Hr. cbn [when Z.eqb].
    destruct (new_leaf_ok (K:=K) (V:=V) slots (S:=bt) (epoch s)) as [Hnew _]. rewrite (wp_bind_returns _ _ _ _ _ _ Hnew).
    apply wp_allocate; [done|lia|]. cbv zeta. intros _ Hf Hp. rewrite wp_bind, wp_get, wp_bind, wp_assert.
    cbn [assign_member]. simpl. rewrite (proj2 (Z.eqb_neq _ _) Hf). simpl.
    assert (nodes s = ∅) as Hn by (by rewrite Hs). rewrite Hn, map_size_empty in Hp |- *.
    pose proof (new_leaf_tree s (fresh ∅)) as Hnl. rewrite Hn in Hf. specialize (Hnl Hf Hp).
    assert (split_node s = 0) as Hsp by (by rewrite Hs). simpl in Hnl. rewrite insert_empty, Hsp.
    eapply wp_mono; [by eapply insert_descend_wp|intros ?; apply full_pool_mono|by intros ? ? [? _]].
    simpl. rewrite map_size_singleton. lia.
  - pose proof Ht as [Hi _]. rewrite wp_bind, wp_get, wp_bind, (inv_root_not_null _ _ _ _ _ Hi). cbn [when]. rewrite wp_ret.
    rewrite wp_bind, wp_get, wp_bind, wp_assert, (inv_root_not_null _ _ _ _ _ Hi). simpl.
    eapply wp_mono; [by eapply insert_descend_wp|intros ?; apply full_pool_mono|by intros ? ? [? _]].
    pose proof (cells_height _ _ _ _ _ (iv_wf _ _ _ _ _ Hi)) as Hh. rewrite <- (exact_size _ _ _ (iv_exact _ _ _ _ _ Hi)) in Hh. lia.
Qed.
End insert.
