(* ===== verification/BTreeEngine.v ===== *)
(** The strings the B-tree engine stores (tree/btree/pstring.h), its operations on the
    tree (tree/btree.cc), and their refinement: a run of them on the tree gives the
    answers of a finite map. *)

From stdpp Require Import sorting strings pretty.
From S2P Require Import Prelude BTree BTreeNode BTreeRep BTreeSplit BTreeLeafSplit BTreeSafe BTreeInsert.

(** ** Strings of bounded length *)

(** [char] is signed. *)
Definition char (x : Z) : Z := if x <? 128 then x else x - 256.
Fixpoint lexicographical_compare (l r : list Z) : bool :=
  match l, r with
  | _, [] => false
  | [], _ :: _ => true
  | x :: l, y :: r =>
    if char x <? char y then true else if char y <? char x then false else lexicographical_compare l r
  end.
Definition pstring_eq (l r : list Z) : bool := (length l =? length r)%nat && equal Z.eqb l r.
Definition bytes (s : string) : list Z := map (λ a, Z.of_N (Ascii.N_of_ascii a)) (String.list_ascii_of_string s).

#[export] Instance bytes_key : Key (list Z) := { key_ltb := lexicographical_compare; key_eqb := pstring_eq }.
#[export] Instance string_key : Key string := {
  key_ltb a b := lexicographical_compare (bytes a) (bytes b);
  key_eqb a b := pstring_eq (bytes a) (bytes b)
}.
#[export] Instance string_inhabited : Inhabited string := populate ""%string.

(** [init]: an exception nothing catches. *)
Definition length_error : fault := Exit 134.
Definition init {S} (CAPACITY size : nat) : M S () :=
  if (CAPACITY <? size)%nat then fail length_error else mret tt.

(** ** Operations of the engine *)
Section operations.
Context {K V : Type} `{!Key K, !Key V, !Inhabited K, !Inhabited V}.
Context (slots pool_room : nat) (fresh : gmap Z (node_t (K:=K) (V:=V)) → Z).
Abbreviation T := (M (b_tree (K:=K) (V:=V))).

Definition tree_exists (key : K) : T bool := it ← find key; e ← end_; mret (negb (bool_decide (it = e))).
(** [get]: [find], the comparison with [end], then the value. *)
Definition tree_get (key : K) : T (option V) :=
  it ← find key;
  e ← end_;
  if decide (it = e) then mret None else
  x ← it_deref it;
  mret (Some x.2).
(** [put]: [insert], then an assignment when the key was there. *)
Definition tree_put (key : K) (x : V) : T () :=
  '(it, isnew) ← insert slots pool_room fresh (key, x);
  when (negb isnew) (it_assign it x).
End operations.

Definition DEGREE : nat := 64.
Definition MAX_KEY_SIZE : nat := 20.
Definition MAX_VALUE_SIZE : nat := 200.

Abbreviation btree_type := (b_tree (K:=string) (V:=list Z)).
Section engine.
Context (pool_room : nat) (fresh : gmap Z (node_t (K:=string) (V:=list Z)) → Z).

(** [pstring<MAX_KEY_SIZE>(std::to_string(key))]. *)
Definition key_of (key : Z) : M btree_type string :=
  let s := pretty (Z.to_N key) in init MAX_KEY_SIZE (String.length s) ;; mret s.
Definition btree_exists (key : Z) : M btree_type bool := k ← key_of key; tree_exists k.
Definition btree_get (key : Z) : M btree_type (option (list Z)) := k ← key_of key; tree_get k.
Definition btree_put (key : Z) (x : list Z) : M btree_type () :=
  k ← key_of key;
  init MAX_VALUE_SIZE (length x) ;;
  tree_put (DEGREE - 1) pool_room fresh k x.
Definition btree_erase (key : Z) : M btree_type nat := k ← key_of key; erase k.
(** [Recover], on a pool that has a tree. *)
Definition btree_recover : M btree_type () := garbage_collection (DEGREE - 1) pool_room fresh.
End engine.

(** ** Order of strings *)
Definition is_byte (x : Z) : Prop := 0 ≤ x < 256.
Lemma bytes_are s : Forall is_byte (bytes s).
Proof.
  unfold bytes. apply Forall_map, Forall_forall. intros a _. pose proof (Ascii.N_ascii_bounded a). unfold is_byte. lia.
Qed.
Lemma bytes_inj s s' : bytes s = bytes s' → s = s'.
Proof.
  intros H. rewrite <- (String.string_of_list_ascii_of_string s), <- (String.string_of_list_ascii_of_string s').
  f_equal. revert H. unfold bytes. generalize (String.list_ascii_of_string s), (String.list_ascii_of_string s').
  induction l as [|a l IH]; intros [|b l']; simpl; try done. intros [= Hab Hl]. f_equal; [|by apply IH].
  apply N2Z.inj in Hab. by rewrite <- (Ascii.ascii_N_embedding a), <- (Ascii.ascii_N_embedding b), Hab.
Qed.
Lemma length_bytes s : length (bytes s) = String.length s.
Proof. unfold bytes. rewrite length_map. induction s as [|a s IH]; simpl; [done|]. by rewrite IH. Qed.

Lemma lex_irrefl l : lexicographical_compare l l = false.
Proof. induction l as [|x l IH]; simpl; [done|]. by rewrite Z.ltb_irrefl. Qed.
Lemma lex_trans a b c :
  lexicographical_compare a b = true → lexicographical_compare b c = true → lexicographical_compare a c = true.
Proof.
  revert b c. induction a as [|x a IH]; intros [|y b] [|z c]; simpl; try done.
  destruct (Z.ltb_spec (char x) (char y)), (Z.ltb_spec (char y) (char x)), (Z.ltb_spec (char y) (char z)),
    (Z.ltb_spec (char z) (char y)), (Z.ltb_spec (char x) (char z)), (Z.ltb_spec (char z) (char x)); try done; try lia.
  intros. by eapply IH.
Qed.
Lemma lex_total a b :
  Forall is_byte a → Forall is_byte b →
  lexicographical_compare a b = false → lexicographical_compare b a = false → a = b.
Proof.
  intros Ha. revert b. induction Ha as [|x a Hx Ha IH]; intros [|y b] Hb; simpl; try done.
  apply Forall_cons in Hb as [Hy Hb].
  destruct (Z.ltb_spec (char x) (char y)), (Z.ltb_spec (char y) (char x)); try done; try lia.
  intros H1 H2. f_equal; [|by apply IH]. unfold char, is_byte in *. destruct (Z.ltb_spec x 128), (Z.ltb_spec y 128); lia.
Qed.
Lemma pstring_eq_iff a b : pstring_eq a b = true ↔ a = b.
Proof.
  unfold pstring_eq. rewrite andb_true_iff, Nat.eqb_eq. split.
  - revert b. induction a as [|x a IH]; intros [|y b] [Hl He]; simpl in *; try done.
    apply andb_true_iff in He as [->%Z.eqb_eq He]. f_equal. apply IH. split; [lia|done].
  - intros ->. split; [done|]. induction b as [|y b IH]; simpl; [done|]. by rewrite Z.eqb_refl.
Qed.
#[export] Instance string_key_laws : KeyLaws string.
Proof.
  split; simpl.
  - intros a. apply lex_irrefl.
  - intros a b c. apply lex_trans.
  - intros a b H1 H2. apply bytes_inj, lex_total; [apply bytes_are..|done|done].
  - intros a b. rewrite pstring_eq_iff. split; [apply bytes_inj|by intros ->].
Qed.
#[export] Instance bytes_key_eq : KeyEq (list Z).
Proof. intros a. by apply pstring_eq_iff. Qed.

(** A key of 64 bits has at most 20 digits. *)
Lemma pretty_N_go_length n s k : (n < 10 ^ N.of_nat k)%N → (String.length (pretty_N_go n s) ≤ k + String.length s)%nat.
Proof.
  revert s k. induction (N.lt_wf_0 n) as [n _ IH]. intros s k Hn.
  destruct (decide (n = 0%N)) as [->|Hn0]; [rewrite pretty_N_go_0; lia|].
  rewrite pretty_N_go_step by lia. destruct k as [|k]; [simpl in Hn; lia|].
  etransitivity; [apply (IH (n `div` 10)%N) with (k := k)|cbn [String.length]; lia].
  - apply N.div_lt; lia.
  - rewrite Nat2N.inj_succ, N.pow_succ_r' in Hn. apply N.Div0.div_lt_upper_bound; lia.
Qed.
Lemma key_fits n : 0 ≤ n < 2 ^ 64 → (String.length (pretty (Z.to_N n)) ≤ MAX_KEY_SIZE)%nat.
Proof.
  intros Hn. unfold pretty, pretty_N. destruct (decide _) as [|Hn0]; [simpl; unfold MAX_KEY_SIZE; lia|].
  pose proof (pretty_N_go_length (Z.to_N n) "" 20) as H. rewrite Nat.add_0_r in H. apply H. change (10 ^ N.of_nat 20)%N with 100000000000000000000%N. lia.
Qed.

(** ** Refinement *)
Section refinement.
Context {K V : Type} `{!Key K, !KeyLaws K, !Key V, !KeyEq V, !Inhabited K, !Inhabited V}.
Context `{!EqDecision K, !Countable K}.
Context (slots : nat) (pool_room : nat) (fresh : gmap Z (node_t (K:=K) (V:=V)) → Z).
Abbreviation bt := (b_tree (K:=K) (V:=V)).
Abbreviation repr := (repr slots pool_room).
Implicit Types (s : bt) (m : gmap K V) (k : K) (v : V).

(** The operations on the tree, and on a map. *)
Inductive map_op := MGet (k : K) | MPut (k : K) (v : V) | MErase (k : K) | MRecover.
Inductive map_res := RValue (o : option V) | RCount (n : nat) | RDone.
Definition run_op (op : map_op) : M bt map_res :=
  match op with
  | MGet k => o ← tree_get k; mret (RValue o)
  | MPut k v => tree_put slots pool_room fresh k v ;; mret RDone
  | MErase k => n ← erase k; mret (RCount n)
  | MRecover => garbage_collection slots pool_room fresh ;; mret RDone
  end.
Definition spec_op (op : map_op) m : map_res * gmap K V :=
  match op with
  | MGet k => (RValue (m !! k), m)
  | MPut k v => (RDone, <[k := v]> m)
  | MErase k => (RCount (if m !! k then 1 else 0), delete k m)
  | MRecover => (RDone, m)
  end.
Fixpoint spec_ops (ops : list map_op) m : list map_res * gmap K V :=
  match ops with
  | [] => ([], m)
  | op :: ops => let '(r, m) := spec_op op m in let '(rs, m) := spec_ops ops m in (r :: rs, m)
  end.

Lemma empty_end s E (Q : Z * nat → bt → Prop) : root s = 0 → Q (0, O) s → wp end_ E Q s.
Proof.
  intros Hr HQ. unfold end_, rightmost_leaf. rewrite wp_bind, wp_bind, wp_get, Hr. simpl. by rewrite !wp_ret.
Qed.

Lemma tree_get_wp s m k E :
  repr s m → wp (tree_get k) E (λ o s', o = m !! k ∧ repr s' m) s.
Proof.
  unfold tree_get. intros [[Hs ->]|(N & t & Ht)].
  - assert (root s = 0) as Hr by (by rewrite Hs). unfold find, find_leaf_node.
    rewrite wp_bind, wp_bind, wp_bind, wp_get, Hr. simpl. rewrite wp_ret. simpl. apply empty_end; [done|].
    rewrite wp_bind. apply empty_end; [done|]. rewrite decide_True by done. rewrite wp_ret. split; [done|]. by left.
  - rewrite wp_bind. eapply wp_mono; [by eapply find_wp|done|]. intros it s1 ([Hi1 Hm1] & _ & Hit). rewrite wp_bind.
    eapply end_wp; [done|]. intros e s2 Hi2 _ He. assert (repr s2 m) as Hr2 by (right; by exists N, t).
    destruct (m !! k) as [v|] eqn:Hmk.
    + rewrite decide_False by (intros ->; by eapply (at_entry_not_end slots pool_room s2)). rewrite wp_bind.
      eapply it_deref_wp; [done..|]. by rewrite wp_ret.
    + rewrite decide_True by (by eapply (end_at_unique slots pool_room s2)). by rewrite wp_ret.
Qed.
Lemma erase_repr_wp s m k E :
  repr s m → wp (erase k) E (λ n s', n = (if m !! k then 1 else 0)%nat ∧ repr s' (delete k m)) s.
Proof.
  intros [[Hs ->]|(N & t & Ht)].
  - assert (root s = 0) as Hr by (by rewrite Hs). unfold erase, find_leaf_node.
    rewrite wp_bind, wp_bind, wp_get, Hr. simpl. rewrite !wp_ret. simpl. split; [by rewrite lookup_empty|]. left. by rewrite delete_empty.
  - eapply wp_mono; [by eapply erase_wp|done|]. intros n s' ([t' Ht'] & _ & ->).
    split; [by destruct (m !! k)|]. right. by exists N, t'.
Qed.
Lemma recover_repr_wp s m E : repr s m → wp (garbage_collection slots pool_room fresh) E (λ _ s', repr s' m) s.
Proof.
  intros Hr. unfold garbage_collection. rewrite wp_bind, wp_modify, wp_bind, wp_get.
  assert (split_node s = 0) as Hsp.
  { destruct Hr as [[-> _]|(N & t & [Hi _])]; [done|by apply Hi]. }
  simpl. rewrite Hsp. simpl. rewrite wp_ret.
  destruct Hr as [[Hs ->]|(N & t & [[] Hm])]; [left|right].
  - split; [|done]. rewrite Hs. done.
  - exists N, t. by split; [split|].
Qed.

Section put.
Context (Hslots : (2 ≤ slots)%nat) (Hroom : Z.of_nat pool_room < 2 ^ 64).
Context (Hfresh : ∀ h, h !! fresh h = None ∧ fresh h ≠ 0).

Lemma tree_put_wp s m k v :
  repr s m →
  wp (tree_put slots pool_room fresh k v) (full_pool pool_room (2 * size (nodes s) + 3)) (λ _ s', repr s' (<[k := v]> m)) s.
Proof.
  intros Hr. unfold tree_put. rewrite wp_bind.
  eapply wp_mono; [by eapply (insert_wp slots Hslots pool_room Hroom fresh Hfresh)|done|].
  intros [it isnew] s1 [Hn (N & t & Ht & Hit)]. unfold put in Ht. simpl in *. subst isnew.
  destruct (m !! k) as [v0|] eqn:Hmk; simpl.
  - eapply wp_mono; [by eapply it_assign_wp|done|]. intros _ s2 ((t' & Ht' & _) & _). right. exists N, t'.
    by rewrite insert_insert_eq in Ht'.
  - rewrite wp_ret. right. by exists N, t.
Qed.

(** An operation stops only when the pool has no room for a split. *)
Lemma run_op_wp op s m :
  repr s m →
  wp (run_op op) (full_pool pool_room (2 * size (nodes s) + 3)) (λ r s', r = (spec_op op m).1 ∧ repr s' (spec_op op m).2) s.
Proof.
  intros Hr. destruct op as [k|k v|k|]; simpl; rewrite wp_bind.
  - eapply wp_mono; [by apply tree_get_wp|done|]. intros o s' [-> Hr']. by rewrite wp_ret.
  - eapply wp_mono; [by apply tree_put_wp|done|]. intros ? s' Hr'. by rewrite wp_ret.
  - eapply wp_mono; [by apply erase_repr_wp|done|]. intros n s' [-> Hr']. rewrite wp_ret. by destruct (m !! k).
  - eapply wp_mono; [by apply recover_repr_wp|done|]. intros ? s' Hr'. by rewrite wp_ret.
Qed.
Lemma run_ops_wp ops s m :
  repr s m →
  wp (mapM run_op ops) (λ f, f = bad_alloc) (λ rs s', rs = (spec_ops ops m).1 ∧ repr s' (spec_ops ops m).2) s.
Proof.
  revert s m. induction ops as [|op ops IH]; intros s m Hr; simpl.
  - by rewrite wp_ret.
  - rewrite wp_bind. eapply wp_mono; [by apply run_op_wp|by intros f [-> _]|]. intros r s1 [-> Hr1].
    rewrite wp_bind. eapply wp_mono; [by apply IH|done|]. intros rs s2 [-> Hr2]. rewrite wp_ret.
    destruct (spec_op op m) as [r m1]. simpl in *. by destruct (spec_ops ops m1).
Qed.
End put.
End refinement.

(** C11: the B-tree is a map.  On any tree the operations can build, any sequence of
    lookups, insertions with the assignment that follows them, removals and reopenings
    answers what a finite map answers and leaves a tree of the new map; it stops only
    with the exception of an allocation that fails, never with a failed assertion, a
    null or dangling pointer, an index out of range or an endless loop.  An operation
    on a tree that fills less than half of the pool does not stop at all. *)
Theorem btree_refines {K V} `{!Key K, !KeyLaws K, !Key V, !KeyEq V, !Inhabited K, !Inhabited V}
    `{!EqDecision K, !Countable K} slots pool_room (fresh : gmap Z (node_t (K:=K) (V:=V)) → Z) ops s m :
  (2 ≤ slots)%nat → Z.of_nat pool_room < 2 ^ 64 → (∀ h, h !! fresh h = None ∧ fresh h ≠ 0) →
  repr slots pool_room s m →
  wp (mapM (run_op slots pool_room fresh) ops) (λ f, f = bad_alloc)
    (λ rs s', rs = (spec_ops ops m).1 ∧ repr slots pool_room s' (spec_ops ops m).2) s
  ∧ ∀ op, (2 * size (nodes s) + 3 < pool_room)%nat →
    wp (run_op slots pool_room fresh op) none
      (λ r s', r = (spec_op op m).1 ∧ repr slots pool_room s' (spec_op op m).2) s.
Proof.
  intros Hslots Hroom Hfresh Hr. split; [by apply run_ops_wp|]. intros op Hsz.
  eapply wp_mono; [by apply run_op_wp| |done]. intros f [_ Hf]. unfold none. lia.
Qed.

(** An allocator: an address that is not in use. *)
Definition new_address {A} (h : gmap Z A) : Z := base.fresh ({[0]} ∪ dom h : gset Z).
Lemma new_address_fresh {A} (h : gmap Z A) : h !! new_address h = None ∧ new_address h ≠ 0.
Proof.
  unfold new_address. pose proof (is_fresh ({[0]} ∪ dom h : gset Z)) as Hf. split.
  - apply not_elem_of_dom. set_solver.
  - set_solver.
Qed.
Lemma new_btree_repr {K V} `{!Key K, !Key V, !Inhabited K, !Inhabited V} `{!EqDecision K, !Countable K} slots pool_room :
  repr slots pool_room (new_btree (K:=K) (V:=V)) ∅.
Proof. by left. Qed.

Definition demo_ops : list (map_op (K:=string) (V:=list Z)) :=
  [MPut "1" [65]; MPut "2" [66]; MPut "3" [67]; MPut "1" [68]; MErase "2"; MRecover; MGet "1"; MGet "2"].
Lemma btree_refines_witness :
  wp (mapM (run_op 2 100 new_address) demo_ops) (λ f, f = bad_alloc)
    (λ rs s', rs = [RDone; RDone; RDone; RDone; RCount 1; RDone; RValue (Some [68]); RValue None]
       ∧ repr 2 100 s' (spec_ops demo_ops ∅).2) new_btree.
Proof.
  destruct (btree_refines 2 100 new_address demo_ops new_btree ∅ (le_n 2) eq_refl new_address_fresh (new_btree_repr 2 100)) as [H _].
  exact H.
Defined.
