(* ===== verification/BTreeRecovery.v ===== *)
(** Recovery of the B-tree after a crash in the middle of a split of a leaf
    ([garbage_collection], [repair_leaf_split]): an insertion that a crash stops when it
    has set [split_node], and what the next opening of the tree makes of it. *)

From stdpp Require Import strings pretty sorting.
From S2P Require Import Prelude BTree BTreeNode BTreeRep BTreeSplit BTreeLeafSplit BTreeSafe BTreeInsert BTreeEngine.

#[local] Arguments Nat.div : simpl never.

(** A run is known by its weakest preconditions. *)
Lemma wp_run_eq {S A} (m m' : M S A) s s' : (∀ E Q, wp m' E Q s' → wp m E Q s) → m s = m' s'.
Proof.
  intros H. specialize (H (λ f, m' s' = Stop f) (λ a s2, m' s' = Ret a s2)).
  unfold wp in H. destruct (m' s') as [a s2|f] eqn:He, (m s) as [a' s3|f'].
  all: by rewrite (H eq_refl).
Qed.

(** ** Comparing a leaf with its halves *)
Section includes.
Context {A : Type} (lt : A → A → bool).
Lemma includes_prefix l1 l2 : (∀ x, lt x x = false) → includes lt (l1 ++ l2) l1 = true.
Proof. intros Hlt. induction l1 as [|x l1 IH]; simpl; [by destruct l2|]. by rewrite Hlt. Qed.
Lemma includes_elem l1 l2 y :
  includes lt l1 l2 = true → y ∈ l2 → ∃ x, x ∈ l1 ∧ lt y x = false ∧ lt x y = false.
Proof.
  revert l2. induction l1 as [|x l1 IH]; intros [|z l2]; simpl; try done; try by intros _ ?%not_elem_of_nil.
  destruct (lt z x) eqn:H1; [done|]. destruct (lt x z) eqn:H2; intros Hi Hy.
  - destruct (IH _ Hi Hy) as (w & Hw & ?). exists w. split; [by right|done].
  - apply elem_of_cons in Hy as [->|Hy]; [exists x; split; [by left|done]|].
    destruct (IH _ Hi Hy) as (w & Hw & ?). exists w. split; [by right|done].
Qed.
End includes.

Section recovery.
Context {K V : Type} `{!Key K, !KeyLaws K, !Key V, !KeyEq V, !Inhabited K, !Inhabited V}.
Context `{!EqDecision K, !Countable K}.
Context (slots pool_room : nat) (fresh : gmap Z (node_t (K:=K) (V:=V)) → Z).
Abbreviation bt := (b_tree (K:=K) (V:=V)).
Abbreviation inv := (inv slots pool_room).
Abbreviation leaf := (leaf_node_t (K:=K) (V:=V)).
Implicit Types (s : bt) (t : tree (K:=K) (V:=V)) (f : frame (K:=K) (V:=V)) (k : K) (lo hi : bound (K:=K)).
Implicit Types (kvs : list (K * V)) (fs : list (frame (K:=K) (V:=V))) (l : leaf) (p q : Z).

(** [insert] for a key whose leaf is full, up to the assignment of [split_node]. *)
Definition insert_interrupted (k : K) : M bt () :=
  '(node, _) ← find_leaf_to_insert k;
  split_leaf_begin slots node ;;
  mret tt.

(** ** The way down, whatever [split_node] is *)
Lemma path_cut n fs lo hi n' lo' hi' k :
  path_ok slots n fs lo hi n' lo' hi' → in_range lo' hi' k → Forall (f_cut k) fs.
Proof.
  revert n lo hi. induction fs as [|f fs IH]; intros n lo hi; simpl; [constructor|].
  intros (m & -> & [_ _ Hl Hr] & Hp) Hk. constructor; [|by eapply IH].
  destruct (path_range _ _ _ _ _ _ _ _ _ Hp Hk) as ([Hlo Hhi] & _). split.
  - clear Hr Hhi Hp IH. unfold f_lo in Hlo. revert lo Hl Hlo. generalize (f_cs1 f).
    induction (f_ks1 f) as [|x ks IHk]; intros [|c cs] lo Hl Hlo; simpl in *; try done; [set_solver|].
    destruct Hl as [_ Hl]. intros y [->|Hy]%elem_of_cons; [|by eapply IHk].
    by destruct (lefts_range _ _ _ _ _ None _ Hl (conj Hlo I)) as [[? _] _].
  - unfold f_hi in Hhi. destruct (f_ks2 f) as [|x ks]; simpl in *; [set_solver|].
    apply (kids_sorted _ (wf_blt slots m)) in Hr as (_ & _ & Hr).
    intros y [->|Hy]%elem_of_cons; [done|]. apply Hr in Hy as [Hy _]. simpl in Hy. apply key_lt_le.
    by eapply key_le_lt_trans.
Qed.
Lemma at_leaf_for N t fs q kvs lo hi k :
  at_leaf slots N t fs q kvs lo hi → in_range lo hi k → leaf_for slots N t k fs q kvs lo hi.
Proof. intros Hat Hk. split_and!; [done..|]. by eapply path_cut; [apply Hat|]. Qed.
Lemma at_leaf_key N t fs q kvs lo hi (e : K * V) :
  at_leaf slots N t fs q kvs lo hi → e ∈ kvs → leaf_for slots N t e.1 fs q kvs lo hi.
Proof. intros Hat He. apply at_leaf_for; [done|]. by apply (al_wf _ _ _ _ _ _ _ _ Hat). Qed.

(** The tree, but for the mark of a split. *)
Definition inv_but s (N : nat) t : Prop := inv (s <| split_node := 0 |>) N t.
Definition visited q l s : bt := s <| nodes := <[q := Leaf (check_consistency (epoch s) l)]> (nodes s) |>.

Lemma descend_but s N t k fs q kvs lo hi E Q :
  inv_but s N t → leaf_for slots N t k fs q kvs lo hi → Q (q, map f_ptr fs) s →
  wp (descend (depth_fuel s) (λ n, get_child n k) (root s) []) E Q s.
Proof.
  intros Hi Hf HQ. pose proof Hf as [Hat _].
  pose proof (path_length _ _ _ _ _ _ _ _ (al_path _ _ _ _ _ _ _ _ Hat)) as HN.
  pose proof (cells_height _ _ _ _ _ (iv_wf _ _ _ _ _ Hi)) as Hh.
  rewrite <- (exact_size _ _ _ (iv_exact _ _ _ _ _ Hi)) in Hh. simpl in Hh.
  pose proof (iv_root _ _ _ _ _ Hi) as Hr. simpl in Hr. rewrite Hr, (al_fill _ _ _ _ _ _ _ _ Hat), ptr_fill. cbn [ptr].
  eapply (descend_wp slots _ fs _ N q kvs); [lia|apply Hi|by eapply at_leaf_cell|by eapply leaf_for_picks| |done].
  unfold depth_fuel. lia.
Qed.
Lemma find_but s N t k fs q kvs lo hi l :
  inv_but s N t → leaf_for slots N t k fs q kvs lo hi → nodes s !! q = Some (Leaf l) →
  find_leaf_to_insert k s = Ret (q, map f_ptr fs) (visited q l s).
Proof.
  intros Hi Hf Hl. apply (wp_run_eq _ (mret (q, map f_ptr fs)) s (visited q l s)). intros E Q HQ.
  unfold find_leaf_to_insert. rewrite wp_bind, wp_get, wp_bind, wp_assert.
  pose proof (inv_root_not_null _ _ _ _ _ Hi) as Hr. simpl in Hr. rewrite Hr. simpl. rewrite wp_bind.
  eapply descend_but; [done..|]. rewrite wp_bind. unfold check_leaf.
  rewrite wp_bind, (wp_cast_leaf _ _ _ _ _ Hl), wp_bind, wp_get. unfold BTree.store. by rewrite wp_modify.
Qed.
Lemma visited_but s N t fs q kvs lo hi l :
  inv_but s N t → at_leaf slots N t fs q kvs lo hi → nodes s !! q = Some (Leaf l) → leaf_ok slots l kvs →
  inv_but (visited q l s) N t.
Proof.
  intros Hi Hat Hl Hok.
  destruct (inv_store slots pool_room (s <| split_node := 0 |>) N t fs q kvs lo hi (check_consistency (epoch s) l) kvs)
    as (Hi' & _); try done.
  - by apply Hat.
  - by apply check_consistency_ok.
  - unfold link. simpl. rewrite Hl. unfold check_consistency. by destruct (epoch s =? l_epoch l).
  - by rewrite <- (al_fill _ _ _ _ _ _ _ _ Hat) in Hi'.
Qed.
Lemma leaf_of s N t q kvs :
  inv_but s N t → (q, CLeaf kvs) ∈ cells N t → ∃ l, nodes s !! q = Some (Leaf l) ∧ leaf_ok slots l kvs.
Proof. intros Hi Hin. by apply (exact_leaf _ _ _ _ _ (iv_exact _ _ _ _ _ Hi)). Qed.
(** Two leaves have no key in common. *)
Lemma leaves_apart s N t fs q kvs lo hi r kvr (e e' : K * V) :
  inv_but s N t → at_leaf slots N t fs q kvs lo hi → (r, CLeaf kvr) ∈ cells N t → r ≠ q →
  e ∈ kvs → e' ∈ kvr → e.1 ≠ e'.1.
Proof.
  intros Hi Hat Hr Hne He He' Heq.
  destruct (wf_leaf_at _ _ _ _ _ _ _ (iv_wf _ _ _ _ _ Hi) Hr) as (fs' & lo' & hi' & Ht & Hp & Hw).
  assert (at_leaf slots N t fs' r kvr lo' hi') as Hat' by done.
  destruct (leaf_of _ _ _ _ _ Hi Hr) as (rl & Hrl & _).
  destruct (leaf_of _ _ _ _ _ Hi (at_leaf_in _ _ _ _ _ _ _ _ Hat)) as (l & Hl & _).
  pose proof (find_but _ _ _ _ _ _ _ _ _ _ Hi (at_leaf_key _ _ _ _ _ _ _ _ Hat He) Hl) as H1.
  pose proof (find_but _ _ _ _ _ _ _ _ _ _ Hi (at_leaf_key _ _ _ _ _ _ _ _ Hat' He') Hrl) as H2.
  rewrite Heq, H2 in H1. by injection H1.
Qed.

(** ** The repair *)
Context (Hirr : ∀ v : V, key_ltb v v = false).
Lemma pair_lt_irrefl (x : K * V) : pair_lt x x = false.
Proof. unfold pair_lt. rewrite Hirr, andb_false_r, orb_false_r. apply not_true_is_false, key_lt_irrefl. Qed.
Lemma pair_lt_key (x y : K * V) : pair_lt x y = false → pair_lt y x = false → x.1 = y.1.
Proof.
  unfold pair_lt. intros [H1 _]%orb_false_iff [H2 _]%orb_false_iff.
  by destruct (key_le_cases y.1 x.1 H1) as [Hlt|]; [rewrite Hlt in H2|].
Qed.

(** A leaf is taken for the left half of itself, and another leaf not for its right
    half. *)
Lemma is_left_node_self l kvs : leaf_ok slots l kvs → returns (is_left_node l l : M bt bool) true.
Proof.
  intros Hok. unfold is_left_node. eapply returns_bind; [by apply (leaf_size_returns slots)|].
  eapply returns_bind; [by apply (leaf_all_returns slots)|].
  eapply returns_bind; [apply (leaf_range_returns slots); [done|]|].
  { apply Nat.Div0.div_le_upper_bound. lia. }
  rewrite drop_0. intros s. unfold mret, M_ret. f_equal.
  rewrite <- (take_drop (length kvs / 2) kvs) at 1. apply includes_prefix, pair_lt_irrefl.
Qed.
Lemma is_right_node_other l kvs0 (b : K * V) rl kvr :
  leaf_ok slots l (kvs0 ++ [b]) → leaf_ok slots rl kvr → (∀ e, e ∈ kvr → b.1 ≠ e.1) →
  returns (is_right_node l rl : M bt bool) false.
Proof.
  intros Hok Hokr Hb. unfold is_right_node. eapply returns_bind; [by apply (leaf_size_returns slots)|].
  eapply returns_bind; [by apply (leaf_all_returns slots)|].
  eapply returns_bind; [apply (leaf_range_returns slots); [done|done]|]. intros s. unfold mret, M_ret. f_equal.
  apply not_true_is_false. intros Hinc. apply (includes_elem _ _ _ b) in Hinc as (x & Hx & H1 & H2).
  - by apply (Hb x Hx), pair_lt_key.
  - rewrite take_ge by done. rewrite drop_app_le; [set_solver|]. rewrite length_app. simpl.
    pose proof (Nat.div_mod_eq (length kvs0 + 1) 2). lia.
Qed.

Lemma no_right_half s N t fs q kvs0 (b : K * V) lo hi l r E :
  inv_but s N t → at_leaf slots N t fs q (kvs0 ++ [b]) lo hi → leaf_ok slots l (kvs0 ++ [b]) →
  (r = 0 ∨ ∃ kvr, r ≠ q ∧ (r, CLeaf kvr) ∈ cells N t) →
  wp (if r =? 0 then mret false else rnode ← cast_leaf r; is_right_node l rnode) E (λ x s', x = false ∧ s' = s) s.
Proof.
  intros Hi Hat Hok Hright. destruct (Z.eqb_spec r 0) as [|Hr0]; [by rewrite wp_ret|].
  destruct Hright as [|(kvr & Hrq & Hrin)]; [done|]. destruct (leaf_of _ _ _ _ _ Hi Hrin) as (rl & Hrl & Hokr).
  rewrite wp_bind, (wp_cast_leaf _ _ _ _ _ Hrl). apply (wp_returns _ false); [|done].
  eapply is_right_node_other; [done|exact Hokr|]. intros e He.
  eapply (leaves_apart s); [exact Hi|exact Hat|exact Hrin|done|set_solver|done].
Qed.

(** What the repair leaves: the leaf is freed. *)
Definition freed q s : bt :=
  s <| epoch := u64 (epoch s + 1) |> <| nodes := delete q (nodes s) |> <| left_node := 0 |> <| split_node := 0 |>.
Lemma recovery_frees s N t fs q kvs0 (b : K * V) lo hi :
  inv_but s N t → at_leaf slots N t fs q (kvs0 ++ [b]) lo hi → fs ≠ [] → split_node s = q → left_node s = q →
  (right_node s = 0 ∨ ∃ kvr, right_node s ≠ q ∧ (right_node s, CLeaf kvr) ∈ cells N t) →
  garbage_collection slots pool_room fresh s = Ret tt (freed q s).
Proof.
  intros Hi Hat Hne Hsp Hleft Hright. pose proof (at_leaf_in _ _ _ _ _ _ _ _ Hat) as Hin.
  pose proof (leaf_null _ _ _ _ _ _ _ Hi Hin) as Hq0. destruct (leaf_of _ _ _ _ _ Hi Hin) as (l & Hl & Hok).
  set (s0 := s <| epoch := u64 (epoch s + 1) |>). assert (inv_but s0 N t) as Hi0 by by destruct Hi.
  pose proof (visited_but _ _ _ _ _ _ _ _ _ Hi0 Hat Hl Hok) as Hi1. set (s1 := visited q l s0) in *.
  set (l1 := check_consistency (epoch s0) l). assert (leaf_ok slots l1 (kvs0 ++ [b])) as Hok1 by by apply check_consistency_ok.
  assert (nodes s1 !! q = Some (Leaf l1)) as Hl1 by apply lookup_insert_eq.
  apply (wp_run_eq _ (mret tt) s (freed q s)). intros E Q HQ. rewrite wp_ret in HQ.
  unfold garbage_collection. rewrite wp_bind, wp_modify, wp_bind, wp_get. fold s0.
  change (split_node s0) with (split_node s). rewrite Hsp, Hq0, wp_bind, (wp_node_at _ _ _ _ _ (Hl : nodes s0 !! q = _)).
  simpl. unfold repair_leaf_split. rewrite wp_bind, wp_get, wp_bind, wp_assert.
  pose proof (inv_root_not_null _ _ _ _ _ Hi0) as Hr. simpl in Hr. change (root s0) with (root s). rewrite Hr. simpl.
  change (split_node s0) with (split_node s). rewrite Hsp, wp_bind, (wp_cast_leaf _ _ _ _ _ (Hl : nodes s0 !! q = _)).
  rewrite (wp_bind_returns _ _ _ _ _ _ (leaf_back_returns _ _ _ _ Hok)), wp_bind.
  assert (leaf_for slots N t b.1 fs q (kvs0 ++ [b]) lo hi) as Hfor by (eapply at_leaf_key; [done|set_solver]).
  rewrite (wp_run _ _ _ _ _ _ (find_but _ _ _ _ _ _ _ _ _ _ Hi0 Hfor Hl)). fold s1.
  destruct fs as [|f fs]; [done|]. cbn [map]. rewrite wp_bind, wp_deref. cbn [lookup list_lookup].
  assert (root s = f_ptr f) as Hroot.
  { pose proof (iv_root _ _ _ _ _ Hi) as Hx. simpl in Hx. by rewrite Hx, (al_fill _ _ _ _ _ _ _ _ Hat). }
  rewrite Hroot, wp_bind, wp_assert, Z.eqb_refl. simpl. rewrite wp_bind, wp_get, wp_bind.
  change (split_node s1) with (split_node s). change (left_node s1) with (left_node s).
  change (right_node s1) with (right_node s). rewrite Hsp, Hleft, Z.eqb_refl, Hq0.
  rewrite wp_bind, (wp_cast_leaf _ _ _ _ _ Hl1), wp_bind, wp_bind, (wp_cast_leaf _ _ _ _ _ Hl1).
  rewrite (wp_returns _ _ _ _ _ (is_left_node_self _ _ Hok1)), wp_bind.
  eapply wp_mono; [by eapply (no_right_half s1)|done|]. intros ? ? [-> ->]. unfold deallocate.
  rewrite wp_bind, wp_get. cbn [member_of]. change (left_node s1) with (left_node s). rewrite Hleft, Hq0.
  rewrite wp_bind, (wp_node_at _ _ _ _ _ Hl1), wp_modify. unfold assignment. rewrite wp_modify.
  cbn [assign_member member_of]. change (left_node s1) with (left_node s). rewrite Hleft.
  replace (_ <| split_node := 0 |>) with (freed q s); [done|].
  unfold freed, s1, visited. simpl. by rewrite delete_insert_eq.
Qed.

(** ** After the repair *)
Lemma descend_freed child fs : ∀ fuel n q kvs h cl path s,
  n = length fs → exact slots h cl → outer n fs q ++ [(q, CLeaf kvs)] ⊆ cl → nodes s = delete q h →
  Forall (picks slots child) fs → (length fs ≤ fuel)%nat →
  wp (descend fuel child (top fs q) path) (λ x, x = UB) (λ _ _, False) s.
Proof.
  induction fs as [|f fs IH]; intros fuel n q kvs h cl path s Hn Hex Hcl Hs Hp Hf.
  - destruct fuel; cbn [descend top]; rewrite wp_bind; unfold node_at; rewrite wp_bind, wp_get, wp_deref, Hs;
      by rewrite lookup_delete_eq.
  - simpl in Hf. destruct fuel as [|fuel]; [lia|]. apply Forall_cons in Hp as [Hpf Hp].
    assert ((f_ptr f, CNode (Z.of_nat n) (f_keys f) (map ptr (f_cs1 f) ++ top fs q :: map ptr (f_cs2 f))) ∈ cl) as Hfc.
    { apply Hcl. simpl. unfold f_cell. set_solver. }
    destruct (exact_inner slots h cl _ _ _ _ Hex Hfc) as (i & Hi & Hok).
    assert (nodes s !! f_ptr f = Some (Inner i)) as His.
    { rewrite Hs, lookup_delete_ne; [done|]. intros Heq. rewrite <- Heq in Hfc.
      assert ((q, CLeaf kvs) ∈ cl) as Hq by (apply Hcl; set_solver).
      by pose proof (cell_unique _ _ _ _ _ _ Hex Hfc Hq). }
    cbn [descend top]. rewrite wp_bind, (wp_node_at _ _ _ _ _ His).
    simpl in Hn. assert (is_leaf (Inner i : node_t (K:=K) (V:=V)) = false) as ->.
    { unfold is_leaf. simpl. rewrite (in_level _ _ _ _ _ Hok), Hn. apply Z.eqb_neq. lia. }
    rewrite wp_bind, (wp_cast_inner _ _ _ _ _ His), (wp_bind_returns _ _ _ _ _ _ (Hpf _ _ _ Hok)).
    eapply (IH fuel (pred n) q kvs h cl); [by rewrite Hn|done| |done|done|lia]. simpl in Hcl. set_solver.
Qed.
Lemma find_freed s N t k fs q kvs lo hi :
  inv_but s N t → leaf_for slots N t k fs q kvs lo hi → find k (freed q s) = Stop UB.
Proof.
  intros Hi Hf. pose proof Hf as [Hat _].
  enough (wp (find k) (λ x, x = UB) (λ _ _, False) (freed q s)) as Hwp.
  { unfold wp in Hwp. destruct (find k (freed q s)); [done|by subst]. }
  unfold find, find_leaf_node. rewrite wp_bind, wp_bind, wp_get.
  pose proof (inv_root_not_null _ _ _ _ _ Hi) as Hr. simpl in Hr. change (root (freed q s)) with (root s). rewrite Hr, wp_bind.
  pose proof (path_length _ _ _ _ _ _ _ _ (al_path _ _ _ _ _ _ _ _ Hat)) as HN.
  pose proof (cells_height _ _ _ _ _ (iv_wf _ _ _ _ _ Hi)) as Hh.
  rewrite <- (exact_size _ _ _ (iv_exact _ _ _ _ _ Hi)) in Hh. simpl in Hh.
  destruct (leaf_of _ _ _ _ _ Hi (at_leaf_in _ _ _ _ _ _ _ _ Hat)) as (l & Hl & _).
  pose proof (iv_root _ _ _ _ _ Hi) as Hrt. simpl in Hrt. rewrite Hrt, (al_fill _ _ _ _ _ _ _ _ Hat), ptr_fill. cbn [ptr].
  eapply wp_mono; [eapply (descend_freed _ fs _ N q kvs (nodes s)); [lia|apply Hi|by eapply at_leaf_cell|done|by eapply leaf_for_picks|]|done|done].
  unfold depth_fuel. simpl. rewrite map_size_delete, Hl. lia.
Qed.
(** ** The interrupted insertion *)
Lemma find_full_last (pre : list Z) pp i s E Q :
  nodes s !! pp = Some (Inner i) → inner_full slots i s = Ret false s → Q (length pre) s →
  wp (find_full_node slots (pre ++ [pp]) (length (pre ++ [pp]) - 1)) E Q s.
Proof.
  intros Hi Hfull HQ. rewrite length_app, Nat.add_sub. destruct (length pre) as [|n] eqn:Hn; cbn [find_full_node].
  - by rewrite wp_ret.
  - rewrite wp_bind, wp_deref, list_lookup_middle by done.
    by rewrite wp_bind, (wp_cast_inner _ _ _ _ _ Hi), wp_bind, (wp_run _ _ _ _ _ _ Hfull), wp_ret.
Qed.

(** A tree with the way to a key whose leaf is full, below a node that has room. *)
Record full_leaf s m k q pp l s0 : Prop := {
  fl_repr : repr slots pool_room s m;
  fl_absent : m !! k = None;
  fl_find : ∃ pre, find_leaf_to_insert k s = Ret (q, pre ++ [pp]) s0;
  fl_leaf : nodes s0 !! q = Some (Leaf l);
  fl_full : leaf_full slots l s0 = Ret true s0;
  fl_parent : ∃ i, nodes s0 !! pp = Some (Inner i) ∧ inner_full slots i s0 = Ret false s0
}.
Lemma full_leaf_tree s m k q pp l s0 :
  (0 < slots)%nat → full_leaf s m k q pp l s0 →
  ∃ N t fs kvs0 b lo hi, inv_but s0 N t ∧ inv_but s N t ∧ leaf_for slots N t k fs q (kvs0 ++ [b]) lo hi ∧ fs ≠ []
    ∧ leaf_ok slots l (kvs0 ++ [b]) ∧ k ∉ (kvs0 ++ [b]).*1 ∧ left_node s0 = left_node s ∧ right_node s0 = right_node s.
Proof.
  intros Hslots [Hr Hk [pre Hfind] Hl Hfull _]. destruct Hr as [[Hs _]|(N & t & [Hi Hm])].
  { unfold find_leaf_to_insert, mbind at 1, M_bind at 1, get in Hfind. by rewrite Hs in Hfind. }
  assert (inv_but s N t) as Hib by by destruct Hi.
  destruct (leaf_for_exists _ _ _ _ _ k Hi) as (fs & q' & kvs & lo & hi & Hf).
  destruct (leaf_of _ _ _ _ _ Hib (leaf_for_in _ _ _ _ _ _ _ _ _ Hf)) as (l' & Hl' & Hok').
  pose proof (find_but _ _ _ _ _ _ _ _ _ _ Hib Hf Hl') as Hrun. rewrite Hrun in Hfind. injection Hfind as -> Hpath <-.
  simpl in Hl. rewrite lookup_insert_eq in Hl. injection Hl as <-.
  assert (leaf_ok slots (check_consistency (epoch s) l') kvs) as Hok by by apply check_consistency_ok.
  rewrite (leaf_full_returns slots _ _ Hok) in Hfull. injection Hfull as Hlen%Nat.eqb_eq.
  destruct kvs as [|b kvs0 _] using rev_ind; [simpl in Hlen; lia|].
  exists N, t, fs, kvs0, b, lo, hi. split_and!; [|done|done| |done| |done|done].
  - eapply visited_but; [done|apply Hf|done..].
  - intros ->. by destruct pre.
  - intros Hin. destruct Hf as (Hat & Hrange & Hcut).
    destruct (wf_cut _ q (kvs0 ++ [b]) lo hi k (al_wf _ _ _ _ _ _ _ _ Hat)) as [(kvs1 & v & kvs2 & Heq)|(? & ? & _ & ? & _)]; [|done].
    rewrite Heq in *. by rewrite (leaf_for_there slots pool_room s N t k fs q kvs1 v kvs2 lo hi m) in Hk.
Qed.

Lemma insert_passes s m k v q pp l s0 :
  (0 < slots)%nat → full_leaf s m k q pp l s0 →
  insert_interrupted k s = Ret tt (s0 <| split_node := q |>)
  ∧ insert slots pool_room fresh (k, v) s
    = ('(p, it) ← split_leaf_rest slots pool_room fresh pp q (k, v) l; mret (p, it, true)) (s0 <| split_node := q |>).
Proof.
  intros Hslots Hfl. destruct (full_leaf_tree _ _ _ _ _ _ _ Hslots Hfl) as (N & t & fs & kvs0 & b & lo & hi & Hi0 & Hi & Hf & _ & Hok & Hk & _).
  destruct Hfl as [_ _ [pre Hfind] Hl Hfull (i & Hpi & Hpf)].
  assert (∀ E Q, Q l (s0 <| split_node := q |>) → wp (split_leaf_begin slots q) E Q s0) as Hbegin.
  { intros E Q HQ. unfold split_leaf_begin. rewrite wp_bind, (wp_cast_leaf _ _ _ _ _ Hl), wp_bind, (wp_run _ _ _ _ _ _ Hfull).
    rewrite wp_bind, wp_assert, wp_bind. simpl. unfold assignment. by rewrite wp_modify, wp_ret. }
  pose proof (inv_root_not_null _ _ _ _ _ Hi) as Hr. simpl in Hr. split.
  - apply (wp_run_eq _ (mret tt)). intros E Q HQ. rewrite wp_ret in HQ. unfold insert_interrupted.
    rewrite wp_bind, (wp_run _ _ _ _ _ _ Hfind), wp_bind. apply Hbegin. by rewrite wp_ret.
  - apply wp_run_eq. intros E Q HQ. unfold insert. rewrite wp_bind, wp_get, wp_bind, Hr. cbn [when].
    rewrite wp_ret, wp_bind, wp_get, wp_bind, wp_assert, Hr. simpl. unfold insert_descend. cbv zeta. simpl fst.
    rewrite wp_bind, (wp_run _ _ _ _ _ _ Hfind), wp_bind, (wp_cast_leaf _ _ _ _ _ Hl), wp_bind, (wp_run _ _ _ _ _ _ Hfull).
    rewrite (wp_bind_returns _ _ _ _ _ _ (leaf_find_absent _ _ _ _ Hok Hk)).
    rewrite (wp_bind_returns _ _ _ _ _ _ (leaf_size_returns _ _ _ Hok)), Nat.eqb_refl. cbn [negb].
    assert (∀ A (x y : A), match pre ++ [pp] with [] => x | _ => y end = y) as -> by (by destruct pre).
    rewrite wp_bind. eapply find_full_last; [done..|].
    rewrite wp_bind, wp_deref, list_lookup_middle by done. rewrite wp_bind, (wp_cast_inner _ _ _ _ _ Hpi).
    rewrite wp_bind, (wp_run _ _ _ _ _ _ Hpf), wp_bind, wp_ret.
    rewrite drop_ge by (rewrite length_app; simpl; lia). cbn [split_path]. rewrite wp_bind, wp_ret, wp_bind.
    unfold split_leaf_node. rewrite wp_bind. apply Hbegin. by rewrite wp_bind in HQ.
Qed.

Lemma other_leaf s N t r rl : inv_but s N t → nodes s !! r = Some (Leaf rl) → ∃ kvr, (r, CLeaf kvr) ∈ cells N t.
Proof.
  intros Hi Hr. pose proof (iv_exact _ _ _ _ _ Hi) as Hex.
  assert (r ∈ (cells N t).*1) as ([r' d] & -> & Hin)%list_elem_of_fmap by (apply (ex_dom _ _ _ Hex); by eexists).
  destruct (ex_holds _ _ _ Hex _ _ Hin) as (nd & Hnd & Hd). simpl in *. rewrite Hr in Hnd. injection Hnd as <-.
  destruct d as [kvr|]; [by exists kvr|done].
Qed.
Lemma interrupted_freed s m k q pp l s0 :
  (0 < slots)%nat → full_leaf s m k q pp l s0 → left_node s = q →
  (right_node s = 0 ∨ (right_node s ≠ q ∧ ∃ r, nodes s !! right_node s = Some (Leaf r))) →
  garbage_collection slots pool_room fresh (s0 <| split_node := q |>) = Ret tt (freed q (s0 <| split_node := q |>))
  ∧ ∀ k' path s', find_leaf_to_insert k' s = Ret (q, path) s' → find k' (freed q (s0 <| split_node := q |>)) = Stop UB.
Proof.
  intros Hslots Hfl Hleft Hright.
  destruct (full_leaf_tree _ _ _ _ _ _ _ Hslots Hfl) as (N & t & fs & kvs0 & b & lo & hi & Hi0 & Hi & Hf & Hne & _ & _ & Hl0 & Hr0).
  assert (inv_but (s0 <| split_node := q |>) N t) as Hi1 by exact Hi0. split.
  - eapply recovery_frees; [exact Hi1|apply Hf|done|done|simpl; congruence|]. simpl. rewrite Hr0.
    destruct Hright as [|[Hq [rl Hrl]]]; [by left|right]. destruct (other_leaf _ _ _ _ _ Hi Hrl) as [kvr Hin]. by exists kvr.
  - intros k' path s' Hfind. assert (inv s N t) as Hinv.
    { destruct (fl_repr _ _ _ _ _ _ _ Hfl) as [[Hs _]|(? & ? & [Hx _])].
      - unfold find_leaf_to_insert, mbind at 1, M_bind at 1, get in Hfind. by rewrite Hs in Hfind.
      - pose proof (iv_split _ _ _ _ _ Hx). by replace s with (s <| split_node := 0 |>) by (destruct s; simpl in *; by subst). }
    destruct (leaf_for_exists _ _ _ _ _ k' Hinv) as (fs' & q' & kvs' & lo' & hi' & Hf').
    destruct (leaf_of _ _ _ _ _ Hi (leaf_for_in _ _ _ _ _ _ _ _ _ Hf')) as (l' & Hl' & _).
    pose proof (find_but _ _ _ _ _ _ _ _ _ _ Hi Hf' Hl') as Hrun. rewrite Hrun in Hfind. injection Hfind as -> _ _.
    by eapply find_freed.
Qed.
End recovery.

(** C39: recovery frees a leaf that is in use.  [left_child] keeps the left half of the
    last split.  When that leaf is full, in any tree the operations can build, and an
    insertion of a new key has to split it (its parent has room, and [right_child] is
    null or another leaf), the insertion passes a state in which [split_node] is the
    leaf and [left_child] is the leaf still; opening the tree in that state, which a
    crash leaves since the assignment of [split_node] is persisted at once, takes the
    leaf for its own left half and frees it, and the tree keeps the pointer: the lookup
    of every key that belongs to that leaf then reads freed memory. *)
Theorem recovery_frees_live_leaf {K V} `{!Key K, !KeyLaws K, !Key V, !KeyEq V, !Inhabited K, !Inhabited V}
    `{!EqDecision K, !Countable K} slots pool_room (fresh : gmap Z (node_t (K:=K) (V:=V)) → Z) s m k v pp l s0 :
  (0 < slots)%nat → (∀ x : V, key_ltb x x = false) →
  full_leaf slots pool_room s m k (left_node s) pp l s0 →
  (right_node s = 0 ∨ (right_node s ≠ left_node s ∧ ∃ r, nodes s !! right_node s = Some (Leaf r))) →
  ∃ s1 s2, insert_interrupted slots k s = Ret tt s1
    ∧ insert slots pool_room fresh (k, v) s
      = ('(p, it) ← split_leaf_rest slots pool_room fresh pp (left_node s) (k, v) l; mret (p, it, true)) s1
    ∧ garbage_collection slots pool_room fresh s1 = Ret tt s2
    ∧ root s2 = root s ∧ nodes s2 !! left_node s = None
    ∧ ∀ k' path s', find_leaf_to_insert k' s = Ret (left_node s, path) s' → find k' s2 = Stop UB.
Proof.
  intros Hslots Hirr Hfl Hright. destruct (insert_passes slots pool_room fresh s m k v _ pp l s0 Hslots Hfl) as [H1 H2].
  destruct (interrupted_freed slots pool_room fresh Hirr s m k _ pp l s0 Hslots Hfl eq_refl Hright) as [H3 H4].
  destruct (full_leaf_tree _ _ _ _ _ _ _ _ _ Hslots Hfl) as (N & t & fs & kvs0 & b & lo & hi & Hi0 & Hi & _).
  do 2 eexists. split_and!; [exact H1|exact H2|exact H3| |apply lookup_delete_eq|exact H4].
  simpl. pose proof (iv_root _ _ _ _ _ Hi0) as Hr0. pose proof (iv_root _ _ _ _ _ Hi) as Hr. simpl in *. congruence.
Qed.

(** Two keys to a leaf: the first split leaves its left half in [left_child]; the half is
    filled, and one more key splits it. *)
Definition state_after {S A} (m : M S A) (s : S) : S := match m s with Ret _ s => s | Stop _ => s end.
Definition split_once_ops : list (map_op (K:=string) (V:=list Z)) :=
  [MPut "3" [65]; MPut "5" [66]; MPut "7" [67]; MPut "1" [68]].
Definition split_once : btree_type := state_after (mapM (run_op 2 100 new_address) split_once_ops) new_btree.
Lemma split_once_run :
  mapM (run_op 2 100 new_address) split_once_ops new_btree = Ret [RDone; RDone; RDone; RDone] split_once.
Proof. by vm_compute. Qed.
Lemma split_once_repr : repr 2 100 split_once (spec_ops split_once_ops ∅).2.
Proof.
  pose proof (run_ops_wp 2 100 new_address (le_n 2) eq_refl new_address_fresh split_once_ops new_btree ∅ (new_btree_repr 2 100)) as Hwp.
  unfold wp in Hwp. rewrite split_once_run in Hwp. apply Hwp.
Qed.
Definition split_once_leaf : leaf_node_t (K:=string) (V:=list Z) :=
  match nodes split_once !! left_node split_once with Some (Leaf l) => l | _ => raw_leaf 2 0 0 0 end.
Lemma split_once_full :
  full_leaf 2 100 split_once (spec_ops split_once_ops ∅).2 "2" (left_node split_once) (root split_once)
    split_once_leaf split_once.
Proof.
  split.
  - apply split_once_repr.
  - by vm_compute.
  - exists []. by vm_compute.
  - by vm_compute.
  - by vm_compute.
  - eexists. by split; vm_compute.
Qed.
Lemma recovery_frees_live_leaf_witness :
  ∃ s1 s2, insert_interrupted 2 "2" split_once = Ret tt s1 ∧ garbage_collection 2 100 new_address s1 = Ret tt s2
    ∧ nodes s2 !! left_node split_once = None ∧ find "1" s2 = Stop UB ∧ find "3" s2 = Stop UB.
Proof.
  destruct (recovery_frees_live_leaf 2 100 new_address split_once (spec_ops split_once_ops ∅).2 "2" [69]
    (root split_once) split_once_leaf split_once) as (s1 & s2 & H1 & _ & H2 & _ & H3 & H4).
  - lia.
  - intros x. apply lex_irrefl.
  - exact split_once_full.
  - right. split; [by vm_compute|]. eexists. by vm_compute.
  - exists s1, s2. split_and!; [exact H1|exact H2|exact H3|..];
      apply (H4 _ [root split_once] split_once); by vm_compute.
Defined.

(** The first split of all: the root is a leaf, the path to it is empty, and recovery
    reads its first element. *)
Definition one_leaf_ops : list (map_op (K:=string) (V:=list Z)) := [MPut "3" [65]; MPut "5" [66]].
Definition one_leaf : btree_type := state_after (mapM (run_op 2 100 new_address) one_leaf_ops) new_btree.
Theorem recovery_of_root_leaf_undefined :
  ∃ s1, insert_interrupted 2 "7" one_leaf = Ret tt s1 ∧ garbage_collection 2 100 new_address s1 = Stop UB.
Proof. eexists. split; [by vm_compute|by vm_compute]. Qed.
