(* ===== verification/PmemDS.v ===== *)
(** The application library on persistent memory (pmemds/src/pmemds.cc and the
    engines under pmemds/src): the request and response words, the engines and the
    routing of requests to them.

    The B-tree engine runs on the tree of BTree.v.  The other containers are PMDK's
    hash maps, used through [Container], whose laws are what a map does.  [objs] are
    the contents of pools, [disk] the pool a path names, [engine_map] the engines that
    are open; each engine's pool is shared with its file. *)

From stdpp Require Import strings pretty.
From S2P Require Import Prelude BTree BTreeEngine PriorityQueue.

(** ** Requests and responses *)
Definition MAX_VAL_LENGTH : Z := 16.
Definition MAX_PARTITIONS : Z := 4.
Definition NTOP_K : Z := 8.
Definition MAX_NODES : Z := 15066954.

Inductive opnames :=
| OPEN | CLOSE | CREATE_DS | CLOSE_DS | REMOVE_DS | GET | PUT | DELETE | INSERT | INCREASE_PRIO
| DECREASE_PRIO | GET_TOPK | ADD_EDGE | REMOVE_EDGE | ADD_NODE | REMOVE_NODE | VERTEX_OUTDEGREE
| INCIDENT_TRIANGLES.
Definition op_code (o : opnames) : Z :=
  match o with
  | OPEN => 0 | CLOSE => 1 | CREATE_DS => 2 | CLOSE_DS => 3 | REMOVE_DS => 4 | GET => 5 | PUT => 6
  | DELETE => 7 | INSERT => 8 | INCREASE_PRIO => 9 | DECREASE_PRIO => 10 | GET_TOPK => 11
  | ADD_EDGE => 12 | REMOVE_EDGE => 13 | ADD_NODE => 14 | REMOVE_NODE => 15 | VERTEX_OUTDEGREE => 16
  | INCIDENT_TRIANGLES => 17
  end.
Inductive dstypes :=
| SORTED_BTREE | CONCURRENT_HASHMAP | SHARDED_HASHMAP | SHARDED_PRIORITY_QUEUE | ADJACENCY_VECTOR
| VECTOR.
Definition type_code (t : dstypes) : Z :=
  match t with
  | SORTED_BTREE => 0 | CONCURRENT_HASHMAP => 1 | SHARDED_HASHMAP => 2 | SHARDED_PRIORITY_QUEUE => 3
  | ADJACENCY_VECTOR => 4 | VECTOR => 5
  end.
Definition FAILED : Z := 255.
Definition OK : Z := 0.
Definition NOT_FOUND : Z := 1.
Definition INVALID_OP : Z := 2.

Definition OP_ID (x : Z) : Z := Z.land x 255.
Definition TYPE_ID (x : Z) : Z := Z.land (Z.shiftr x 8) 15.
Definition DS_ID (x : Z) : Z := Z.land (Z.shiftr x 12) 255.
Definition SET_OP_ID (x y : Z) : Z := u32 (Z.lor x y).
Definition SET_TYPE_ID (x y : Z) : Z := u32 (Z.lor x (Z.shiftl y 8)).
Definition SET_DS_ID (x y : Z) : Z := u32 (Z.lor x (Z.shiftl y 12)).
Definition STATUS (x : Z) : Z := Z.land (Z.shiftr x 20) 15.
Definition SET_STATUS (x y : Z) : Z := u32 (Z.lor x (Z.shiftl y 20)).

(** [value] is the bytes of the union, [rkey] the key. *)
Record pm_rpc_t := mk_pm { meta : Z; rkey : Z; value : list Z }.
#[export] Instance pm_rpc_fields : FieldsOf pm_rpc_t := λ r, mk_pm (meta r) (rkey r) (value r).
Definition zero_rpc : pm_rpc_t := mk_pm 0 0 (replicate 16 0).

(** A number as bytes, the lowest first, and back. *)
Fixpoint to_bytes (n : nat) (x : Z) : list Z :=
  match n with O => [] | S n => x mod 2 ^ 8 :: to_bytes n (x / 2 ^ 8) end.
Fixpoint of_bytes (l : list Z) : Z :=
  match l with [] => 0 | x :: l => x + 2 ^ 8 * of_bytes l end.

(** A C string in a buffer; [None] when there is no zero in it. *)
Fixpoint c_string (l : list Z) : option (list Z) :=
  match l with
  | [] => None
  | x :: l => if x =? 0 then Some [] else (λ s, x :: s) <$> c_string l
  end.
(** [snprintf(buf, n, "%s", s)] on a buffer of [n] bytes. *)
Definition print_string (n : nat) (s buf : list Z) : list Z :=
  let t := take (n - 1) s in t ++ 0 :: drop (length t + 1) buf.

(** ** Containers *)
Class Container (C K V : Type) := {
  c_empty : C;
  c_find : C → K → option V;
  c_insert : C → K → V → C;
  c_assign : C → K → V → C;
  c_erase : C → K → C
}.
Class ContainerLaws (C K V : Type) `{Container C K V} := {
  find_empty k : c_find c_empty k = None;
  find_insert_new c k v : c_find c k = None → c_find (c_insert c k v) k = Some v;
  find_insert_old c k v v' : c_find c k = Some v' → c_find (c_insert c k v) k = Some v';
  find_insert_ne c k v k' : k ≠ k' → c_find (c_insert c k v) k' = c_find c k';
  find_assign c k v : c_find (c_assign c k v) k = Some v;
  find_assign_ne c k v k' : k ≠ k' → c_find (c_assign c k v) k' = c_find c k';
  find_erase c k : c_find (c_erase c k) k = None;
  find_erase_ne c k k' : k ≠ k' → c_find (c_erase c k) k' = c_find c k'
}.

Section pmlib.
Context {CS C : Type}.
Context `{Container CS (list Z) (list Z)} `{Container C Z (list Z)}.
Context (abandon : pqueue → pqueue → pqueue).
(** The nodes a pool has room for, and the addresses it gives them. *)
Context (pool_room : nat) (fresh : gmap Z (node_t (K:=string) (V:=list Z)) → Z).

(** ** Engines *)
Inductive engine :=
| EBtree (t : btree_type)
| EHash (c : CS)
| ESharded (cs : list C)
| EPq (qs : list pqueue)
| EAdj (adj : gmap Z (list Z)).

Definition status (st : Z) (r : pm_rpc_t) : pm_rpc_t := r <| meta := SET_STATUS (meta r) st |>.
(** [get]: the value found, as a string in the response. *)
Definition found_value (o : option (list Z)) : pm_rpc_t :=
  match o with
  | None => status NOT_FOUND zero_rpc
  | Some v => (status OK zero_rpc) <| value := print_string 16 v (value zero_rpc) |>
  end.
(** [put]: insert, and assign when the key was there. *)
Definition put_value {Cn K} `{Container Cn K (list Z)} (c : Cn) (k : K) (v : list Z) : Cn :=
  match c_find c k with
  | Some _ => c_assign c k v
  | None => c_insert c k v
  end.

(** [exists] and [remove], which no request reaches; the B-tree's [remove] goes on to
    set NOT_FOUND after it has set OK. *)
Definition exists_value {Cn K} `{Container Cn K (list Z)} (c : Cn) (k : K) : pm_rpc_t :=
  status (if c_find c k then OK else NOT_FOUND) zero_rpc.
Definition remove_value {Cn K} `{Container Cn K (list Z)} (c : Cn) (k : K) : Cn * pm_rpc_t :=
  (c_erase c k, status (if c_find c k then OK else NOT_FOUND) zero_rpc).
(** An operation on the tree of a pool. *)
Definition on_tree {A} (op : M btree_type A) (t : btree_type) : M engine A :=
  match op t with
  | Stop f => fail f
  | Ret a t => modify (λ _, EBtree t) ;; mret a
  end.
Definition btree_present (t : btree_type) (k : Z) : M engine pm_rpc_t :=
  b ← on_tree (btree_exists k) t;
  mret (status (if b : bool then OK else NOT_FOUND) zero_rpc).
Definition btree_remove (t : btree_type) (k : Z) : M engine pm_rpc_t :=
  result ← on_tree (btree_erase k) t;
  mret (status NOT_FOUND (if (result =? 1)%nat then status OK zero_rpc else zero_rpc)).

Definition btree_exec (t : btree_type) (op_id : Z) (req : pm_rpc_t) : M engine pm_rpc_t :=
  if op_id =? op_code GET then
    o ← on_tree (btree_get (rkey req)) t;
    mret (found_value o)
  else if op_id =? op_code PUT then
    v ← deref (c_string (value req));
    on_tree (btree_put pool_room fresh (rkey req) v) t ;;
    mret (status OK zero_rpc)
  else mret (status INVALID_OP zero_rpc).
Definition hashmap_exec (c : CS) (op_id : Z) (req : pm_rpc_t) : M engine pm_rpc_t :=
  if op_id =? op_code GET then mret (found_value (c_find c (to_bytes 8 (rkey req))))
  else if op_id =? op_code PUT then
    v ← deref (c_string (value req));
    modify (λ _, EHash (put_value c (to_bytes 8 (rkey req)) v)) ;;
    mret (status OK zero_rpc)
  else mret (status INVALID_OP zero_rpc).
Definition sharded_exec (cs : list C) (thread_id op_id : Z) (req : pm_rpc_t) : M engine pm_rpc_t :=
  if op_id =? op_code GET then
    c ← aget cs thread_id;
    mret (found_value (c_find c (rkey req)))
  else if op_id =? op_code PUT then
    v ← deref (c_string (value req));
    c ← aget cs thread_id;
    modify (λ _, ESharded (zinsert cs thread_id (put_value c (rkey req) v))) ;;
    mret (status OK zero_rpc)
  else mret (status INVALID_OP zero_rpc).

(** An operation on the queue of a partition; the key of a change is an
    [unsigned int]. *)
Definition on_queue (qs : list pqueue) (thread_id key : Z) (op : M pqueue Z) : M engine pm_rpc_t :=
  q ← aget qs thread_id;
  match op q with
  | Stop f => fail f
  | Ret ret q =>
    modify (λ _, EPq (zinsert qs thread_id q)) ;;
    mret (status (if ret =? 0 then OK else FAILED) (zero_rpc <| rkey := key |>))
  end.
Definition parse_priority (data : list Z) : Z := of_bytes (take 8 data).
Definition pq_exec (qs : list pqueue) (minheap_size thread_id op_id : Z) (req : pm_rpc_t) : M engine pm_rpc_t :=
  let priority := parse_priority (value req) in
  if op_id =? op_code INSERT then
    on_queue qs thread_id (rkey req) (insert minheap_size abandon (rkey req) priority)
  else if op_id =? op_code INCREASE_PRIO then
    on_queue qs thread_id (u32 (rkey req)) (increase_prio minheap_size abandon (u32 (rkey req)) priority)
  else if op_id =? op_code DECREASE_PRIO then
    on_queue qs thread_id (u32 (rkey req)) (decrease_prio minheap_size abandon (u32 (rkey req)) priority)
  else mret (status INVALID_OP zero_rpc).

Definition add_edge (adj : gmap Z (list Z)) (from_node to_node : Z) : M engine pm_rpc_t :=
  if (MAX_NODES - 1 <? from_node) || (MAX_NODES - 1 <? to_node) then mret (status FAILED zero_rpc) else
  let adj := if adj !! from_node then adj else <[from_node := []]> adj in
  let adj := if adj !! to_node then adj else <[to_node := []]> adj in
  modify (λ _, EAdj (<[from_node := default [] (adj !! from_node) ++ [to_node]]> adj)) ;;
  mret (status OK zero_rpc).
Definition vertex_outdegree (adj : gmap Z (list Z)) (node_id : Z) : M engine pm_rpc_t :=
  if MAX_NODES - 1 <? node_id then fail (Exit 1) else
  mret (status OK zero_rpc <| rkey := Z.of_nat (length (default [] (adj !! node_id))) |>).
(** The array of a pool that was there before is not loaded: [ready] is [false]. *)
Definition adj_exec (adj : gmap Z (list Z)) (ready : bool) (op_id : Z) (req : pm_rpc_t) : M engine pm_rpc_t :=
  if op_id =? op_code ADD_NODE then mret zero_rpc
  else if op_id =? op_code ADD_EDGE then
    if ready then add_edge adj (rkey req) (parse_priority (value req)) else fail UB
  else if op_id =? op_code VERTEX_OUTDEGREE then
    if ready then vertex_outdegree adj (rkey req) else fail UB
  else mret (status INVALID_OP zero_rpc).

Definition engine_exec (minheap_size : Z) (ready : bool) (thread_id op_id : Z) (req : pm_rpc_t) : M engine pm_rpc_t :=
  e ← get;
  match e with
  | EBtree t => btree_exec t op_id req
  | EHash c => hashmap_exec c op_id req
  | ESharded cs => sharded_exec cs thread_id op_id req
  | EPq qs => pq_exec qs minheap_size thread_id op_id req
  | EAdj adj => adj_exec adj ready op_id req
  end.

(** ** The library *)
Record pmlib := mk_pmlib {
  objs : gmap Z engine;
  new_obj : Z;
  disk : gmap Z Z;
  pq_disk : gmap Z Z;
  engine_map : option (gmap Z (Z * bool));
  npartitions : Z
}.
#[export] Instance pmlib_fields : FieldsOf pmlib :=
  λ r, mk_pmlib (objs r) (new_obj r) (disk r) (pq_disk r) (engine_map r) (npartitions r).
Abbreviation L := (M pmlib).

(** What a request answers: a word, the list of [vote_topk], or nothing, when the
    caller's pointer is not set. *)
Inductive response := RWord (r : pm_rpc_t) | RTopk (l : list (Z * list Z)) | RNone.

Definition engines : L (gmap Z (Z * bool)) := s ← get; deref (engine_map s).
Definition partitions (s : pmlib) : Z := if npartitions s <? 1 then 1 else npartitions s.

Definition find_ds (id : Z) : L (Z * bool) := m ← engines; deref (m !! id).
Definition on_obj {A} (o : Z) (op : M engine A) : L A :=
  s ← get;
  e ← deref (objs s !! o);
  match op e with
  | Stop f => fail f
  | Ret a e => modify (λ s, s <| objs := <[o := e]> (objs s) |>) ;; mret a
  end.

(** The contents of a new pool, by type. *)
Definition new_pool (ds_type n : Z) : option engine :=
  if ds_type =? type_code SORTED_BTREE then Some (EBtree new_btree)
  else if ds_type =? type_code CONCURRENT_HASHMAP then Some (EHash c_empty)
  else if ds_type =? type_code SHARDED_HASHMAP then Some (ESharded (replicate (Z.to_nat n) c_empty))
  else if ds_type =? type_code SHARDED_PRIORITY_QUEUE then Some (EPq (replicate (Z.to_nat (Z.max 1 n)) empty_queue))
  else if ds_type =? type_code ADJACENCY_VECTOR then Some (EAdj ∅)
  else None.
Definition has_type (ds_type : Z) (e : engine) : bool :=
  ds_type =? match e with
  | EBtree _ => type_code SORTED_BTREE | EHash _ => type_code CONCURRENT_HASHMAP
  | ESharded _ => type_code SHARDED_HASHMAP | EPq _ => type_code SHARDED_PRIORITY_QUEUE
  | EAdj _ => type_code ADJACENCY_VECTOR end.
(** An engine's constructor: it opens the pool at its path, or creates it.  A pool
    that is open already cannot be opened again: the exception ends the process.  The
    B-tree engine repairs the tree it finds. *)
Definition open_pool (ds_type ds_id : Z) : L (Z * bool) :=
  s ← get;
  let is_pq := ds_type =? type_code SHARDED_PRIORITY_QUEUE in
  let files := if is_pq then pq_disk s else disk s in
  match files !! ds_id with
  | Some o =>
    m ← engines;
    if existsb (λ e, e.2.1 =? o) (map_to_list m) then fail Assert else
    e ← deref (objs s !! o);
    if has_type ds_type e then
      (if e is EBtree t then on_obj o (on_tree (btree_recover pool_room fresh) t) else mret tt) ;;
      mret (o, negb (ds_type =? type_code ADJACENCY_VECTOR))
    else fail UB
  | None =>
    e ← deref (new_pool ds_type (npartitions s));
    let o := new_obj s in
    modify (λ s, s <| objs := <[o := e]> (objs s) |> <| new_obj := o + 1 |>
      <| disk := if is_pq then disk s else <[ds_id := o]> (disk s) |>
      <| pq_disk := if is_pq then <[ds_id := o]> (pq_disk s) else pq_disk s |>) ;;
    mret (o, true)
  end.

Definition create_ds (ds_type ds_id : Z) : L Z :=
  if type_code VECTOR <? ds_type then fail (Exit (-1))
  else if ds_type =? type_code VECTOR then mret (-1)
  else
    s ← get;
    (if (ds_type =? type_code SHARDED_HASHMAP) || (ds_type =? type_code SHARDED_PRIORITY_QUEUE)
     then if MAX_PARTITIONS <? npartitions s then fail UB else mret tt else mret tt) ;;
    h ← open_pool ds_type ds_id;
    m ← engines;
    modify (λ s, s <| engine_map := Some (if m !! ds_id then m else <[ds_id := h]> m) |>) ;;
    mret 0.
Definition close_ds (ds_id : Z) : L Z :=
  m ← engines;
  match m !! ds_id with
  | Some _ => modify (λ s, s <| engine_map := Some (delete ds_id m) |>) ;; mret 0
  | None => mret (-1)
  end.
Definition remove_ds (ds_id : Z) : L Z :=
  s ← get;
  match disk s !! ds_id with
  | Some _ => modify (λ s, s <| disk := delete ds_id (disk s) |>) ;; mret 0
  | None => mret (-1)
  end.
Definition pm_open : L Z := modify (λ s, s <| engine_map := Some ∅ |>) ;; mret OK.
(** [close] erases the element its iterator is at and advances it. *)
Definition pm_close : L Z := m ← engines; if decide (m = ∅) then mret OK else fail UB.

(** The vote application's stored procedure, over the partitions from [i] on; [None]
    when a title is missing. *)
Fixpoint titles (c : C) (ks : list Z) : option (list (Z * list Z)) :=
  match ks with
  | [] => Some []
  | k :: ks =>
    match c_find c k with
    | None => None
    | Some v => (λ l, (k, take 15 v) :: l) <$> titles c ks
    end
  end.
Fixpoint topk_loop (n : nat) (i : Z) (cs : list C) (qs : list pqueue) : L (option (list (Z * list Z))) :=
  match n with
  | O => mret (Some [])
  | S n =>
    c ← aget cs i;
    q ← aget qs i;
    match read_topK q with
    | Stop f => fail f
    | Ret (ks, _) _ =>
      match titles c ks with
      | None => mret None
      | Some l => o ← topk_loop n (i + 1) cs qs; mret ((λ l', l ++ l') <$> o)
      end
    end
  end.
Definition vote_topk : L response :=
  h ← find_ds 0;
  g ← find_ds 1;
  s ← get;
  match objs s !! h.1, objs s !! g.1 with
  | Some (ESharded cs), Some (EPq qs) =>
    o ← topk_loop (Z.to_nat (npartitions s)) 0 cs qs;
    mret (match o with Some l => RTopk l | None => RNone end)
  | _, _ => fail UB
  end.

Definition answer (op : L Z) : L response :=
  r ← op; mret (RWord (status (if r =? 0 then OK else FAILED) zero_rpc)).
Definition pm_exec (thread_id : Z) (req : pm_rpc_t) : L response :=
  let ds_type := TYPE_ID (meta req) in
  let op_id := OP_ID (meta req) in
  let ds_id := DS_ID (meta req) in
  if op_id =? op_code OPEN then answer pm_open
  else if op_id =? op_code CLOSE then answer pm_close
  else if op_id =? op_code CREATE_DS then answer (create_ds ds_type ds_id)
  else if op_id =? op_code CLOSE_DS then answer (close_ds ds_id)
  else if op_id =? op_code REMOVE_DS then answer (remove_ds ds_id)
  else if op_id =? op_code GET_TOPK then vote_topk
  else
    h ← find_ds ds_id;
    s ← get;
    r ← on_obj h.1 (engine_exec (NTOP_K / partitions s) h.2 thread_id op_id req);
    mret (RWord r).
End pmlib.
Arguments engine : clear implicits.
Arguments pmlib : clear implicits.

(** ** Requests as the clients build them *)
Definition ds_meta (op type_id ds_id : Z) : Z :=
  SET_DS_ID (SET_TYPE_ID (SET_OP_ID 0 op) type_id) ds_id.
Definition create_request (type_id ds_id : Z) : pm_rpc_t :=
  zero_rpc <| meta := ds_meta (op_code CREATE_DS) type_id ds_id |>.
Definition kv_meta (op type_id ds_id : Z) : Z :=
  SET_TYPE_ID (SET_OP_ID (SET_DS_ID 0 ds_id) op) type_id.
Definition get_request (type_id ds_id k : Z) : pm_rpc_t :=
  zero_rpc <| meta := kv_meta (op_code GET) type_id ds_id |> <| rkey := k |>.
Definition put_request (type_id ds_id k : Z) (v : list Z) : pm_rpc_t :=
  zero_rpc <| meta := kv_meta (op_code PUT) type_id ds_id |> <| rkey := k |>
    <| value := print_string 16 v (value zero_rpc) |>.
(** [STATUS(response->meta) != OK], then the value as a string. *)
Definition get_result (r : pm_rpc_t) : option (list Z) :=
  if STATUS (meta r) =? OK then c_string (value r) else None.
