(* ===== verification/PmemSafe.v ===== *)
(** The library's request words decode to what the clients encoded, a value that is
    put is the value that is read, and where keys and operations are lost. *)

From stdpp Require Import strings pretty.
From S2P Require Import Prelude BTree BTreeNode BTreeInsert BTreeEngine PriorityQueue PmemDS.

(** ** The meta word *)
Lemma log2_below n x : 0 < n → 0 ≤ x < 2 ^ n → Z.log2 x < n.
Proof.
  intros Hn Hx. destruct (Z.eq_dec x 0) as [->|]; [done|]. apply Z.log2_lt_pow2; lia.
Qed.
Lemma lor_bound n a b : 0 < n → 0 ≤ a < 2 ^ n → 0 ≤ b < 2 ^ n → 0 ≤ Z.lor a b < 2 ^ n.
Proof.
  intros Hn Ha Hb. assert (0 ≤ Z.lor a b) as Hpos by (apply Z.lor_nonneg; lia). split; [done|].
  destruct (Z.eq_dec (Z.lor a b) 0) as [->|Hne]; [apply Z.pow_pos_nonneg; lia|].
  apply Z.log2_lt_pow2; [lia|]. rewrite Z.log2_lor by lia. by apply Z.max_lub_lt; apply log2_below.
Qed.
Lemma shiftl_bound x k n : 0 ≤ k → 0 ≤ n → 0 ≤ x < 2 ^ n → 0 ≤ Z.shiftl x k < 2 ^ (n + k).
Proof.
  intros Hk Hn Hx. rewrite Z.shiftl_mul_pow2, Z.pow_add_r by lia. nia.
Qed.

Definition word (op t ds : Z) : Z := Z.lor op (Z.lor (Z.shiftl t 8) (Z.shiftl ds 12)).
Definition fields_ok (op t ds : Z) : Prop := 0 ≤ op < 2 ^ 8 ∧ 0 ≤ t < 2 ^ 4 ∧ 0 ≤ ds < 2 ^ 8.

Lemma word_parts op t ds : fields_ok op t ds →
  0 ≤ op < 2 ^ 32 ∧ 0 ≤ Z.shiftl t 8 < 2 ^ 32 ∧ 0 ≤ Z.shiftl ds 12 < 2 ^ 32.
Proof.
  intros (Ho & Ht & Hd). pose proof (shiftl_bound t 8 4 ltac:(lia) ltac:(lia) Ht).
  pose proof (shiftl_bound ds 12 8 ltac:(lia) ltac:(lia) Hd). simpl in *. lia.
Qed.
Lemma kv_meta_word op t ds : fields_ok op t ds → kv_meta op t ds = word op t ds ∧ ds_meta op t ds = word op t ds.
Proof.
  intros (Ho & Ht & Hd)%word_parts.
  unfold kv_meta, ds_meta, SET_DS_ID, SET_OP_ID, SET_TYPE_ID, u32, word. rewrite !Z.lor_0_l.
  rewrite !(Z.mod_small (Z.shiftl ds 12)), !(Z.mod_small op) by lia.
  pose proof (lor_bound 32 _ _ ltac:(lia) Hd Ho) as H1. pose proof (lor_bound 32 _ _ ltac:(lia) Ho Ht) as H2.
  rewrite (Z.mod_small (Z.lor (Z.shiftl ds 12) op)), (Z.mod_small (Z.lor op (Z.shiftl t 8))) by done.
  rewrite !Z.mod_small by (apply lor_bound; done || lia). split.
  - rewrite (Z.lor_comm (Z.shiftl ds 12) op), <- Z.lor_assoc. f_equal. apply Z.lor_comm.
  - by rewrite Z.lor_assoc.
Qed.

Lemma land_shiftl x k m : 0 ≤ m ≤ k → Z.land (Z.shiftl x k) (Z.ones m) = 0.
Proof.
  intros Hm. rewrite Z.land_ones, Z.shiftl_mul_pow2 by lia.
  replace k with (k - m + m) by lia. rewrite Z.pow_add_r, Z.mul_assoc by lia. apply Z_mod_mult.
Qed.
Lemma land_small x m : 0 ≤ m → 0 ≤ x < 2 ^ m → Z.land x (Z.ones m) = x.
Proof. intros Hm Hx. by rewrite Z.land_ones, Z.mod_small by lia. Qed.

Lemma word_fields op t ds : fields_ok op t ds →
  OP_ID (word op t ds) = op ∧ TYPE_ID (word op t ds) = t ∧ DS_ID (word op t ds) = ds.
Proof.
  intros (Ho & Ht & Hd). unfold OP_ID, TYPE_ID, DS_ID, word.
  change 255 with (Z.ones 8). change 15 with (Z.ones 4).
  assert (Z.shiftr op 8 = 0 ∧ Z.shiftr op 12 = 0) as [Ho8 Ho12].
  { rewrite !Z.shiftr_div_pow2 by lia. rewrite !Z.div_small by lia. done. }
  assert (Z.shiftr (Z.shiftl t 8) 12 = 0) as Ht12.
  { rewrite Z.shiftr_shiftl_r by lia. simpl. rewrite Z.shiftr_div_pow2, Z.div_small by lia. done. }
  assert (Z.shiftr (Z.shiftl t 8) 8 = t ∧ Z.shiftr (Z.shiftl ds 12) 12 = ds) as [Ht8 Hd12].
  { rewrite !Z.shiftr_shiftl_l by lia. by rewrite !Z.sub_diag, !Z.shiftl_0_r. }
  assert (Z.shiftr (Z.shiftl ds 12) 8 = Z.shiftl ds 4) as Hd8 by by rewrite Z.shiftr_shiftl_l by lia.
  rewrite !Z.shiftr_lor, Ho8, Ho12, Ht12, Ht8, Hd12, Hd8, !Z.lor_0_l, !Z.land_lor_distr_l.
  rewrite !land_shiftl, !land_small, !Z.lor_0_r by lia. done.
Qed.

(** ** Strings *)
Definition no_zero (v : list Z) : Prop := Forall (λ x, x ≠ 0) v.
Lemma c_string_app v l : no_zero v → c_string (v ++ 0 :: l) = Some v.
Proof.
  induction 1 as [|x v Hx Hv IH]; simpl; [done|]. replace (x =? 0) with false by lia. by rewrite IH.
Qed.
Lemma printed_string v buf : no_zero v → c_string (print_string 16 v buf) = Some (take 15 v).
Proof. intros Hv. unfold print_string. apply c_string_app. by apply Forall_take. Qed.

Section store.
Context {CS C : Type}.
Context `{HCS : Container CS (list Z) (list Z)} `{HC : Container C Z (list Z)}.
Context `{!ContainerLaws C Z (list Z)}.
Context (abandon : pqueue → pqueue → pqueue).
Context (pool_room : nat) (fresh : gmap Z (node_t (K:=string) (V:=list Z)) → Z).
Abbreviation lib := (pmlib CS C).
Abbreviation pm_exec := (pm_exec (CS := CS) (C := C) abandon pool_room fresh).

Lemma put_value_find (c : C) k k' v :
  c_find (put_value c k v) k' = if decide (k = k') then Some v else c_find c k'.
Proof.
  unfold put_value. destruct (decide (k = k')) as [<-|Hne], (c_find c k) eqn:Hk.
  - by rewrite find_assign.
  - by rewrite find_insert_new.
  - by rewrite find_assign_ne.
  - by rewrite find_insert_ne.
Qed.

(** An engine that is open as [ds], and a sharded hash map. *)
Definition engine_at (s : lib) (ds : Z) (e : engine CS C) : Prop :=
  ∃ m o b, engine_map s = Some m ∧ m !! ds = Some (o, b) ∧ objs s !! o = Some e.
Definition sharded_at (s : lib) (ds : Z) (cs : list C) : Prop := engine_at s ds (ESharded cs).

(** A request for an engine reaches it, and its state is what the engine leaves. *)
Lemma exec_engine t req s ds e op ty :
  engine_at s ds e → 0 ≤ ds < 2 ^ 8 → 0 ≤ ty < 2 ^ 4 → op = op_code GET ∨ op = op_code PUT → meta req = word op ty ds →
  ∃ o b, objs s !! o = Some e ∧
  pm_exec t req s = match engine_exec abandon pool_room fresh (NTOP_K / partitions s) b t op req e with
    | Stop f => Stop f
    | Ret r e => Ret (RWord r) (s <| objs := <[o := e]> (objs s) |>)
    end ∧ ∀ e', engine_at (s <| objs := <[o := e']> (objs s) |>) ds e'.
Proof.
  intros (m & o & b & Hm & Ho & He) Hds Hty Hop Hmeta. exists o, b. split; [done|]. split.
  - destruct (word_fields op ty ds) as (Hg & _ & Hg'); [unfold fields_ok; destruct Hop as [-> | ->]; simpl; lia|].
    unfold PmemDS.pm_exec. rewrite Hmeta, Hg, Hg'. unfold find_ds, engines, on_obj, mbind, M_bind, get.
    destruct Hop as [-> | ->]; simpl; rewrite Hm; simpl; rewrite Ho; simpl; rewrite He; simpl;
      destruct (engine_exec _ _ _ _ _ _ _ _ _); simpl; by rewrite ?Hm.
  - intros e'. exists m, o, b. split_and!; [done|done|]. simpl. by rewrite lookup_insert_eq.
Qed.
Lemma engine_exec_sharded K b t n req cs :
  engine_exec abandon pool_room fresh K b t n req (ESharded cs : engine CS C) = sharded_exec cs t n req (ESharded cs).
Proof. done. Qed.

(** What reading a key of partition [t] answers. *)
Lemma get_answer t k s ds cs c :
  sharded_at s ds cs → 0 ≤ ds < 2 ^ 8 → zlookup cs t = Some c →
  pm_exec t (get_request (type_code SHARDED_HASHMAP) ds k) s = Ret (RWord (found_value (c_find c k))) s.
Proof.
  intros Hs Hds Hc. assert (fields_ok (op_code GET) (type_code SHARDED_HASHMAP) ds) as Hok by (split_and!; simpl; lia).
  assert (meta (get_request (type_code SHARDED_HASHMAP) ds k) = word (op_code GET) (type_code SHARDED_HASHMAP) ds) as Hm
    by by apply kv_meta_word.
  destruct (exec_engine t _ s ds _ _ (type_code SHARDED_HASHMAP) Hs Hds ltac:(simpl; lia) (or_introl eq_refl) Hm) as (o & w & Ho & -> & _).
  rewrite engine_exec_sharded. unfold sharded_exec, aget, mbind, M_bind. simpl.
  rewrite Hc. simpl. f_equal. rewrite insert_id by done. by destruct s.
Qed.
Lemma put_answer t k v s ds cs c :
  sharded_at s ds cs → 0 ≤ ds < 2 ^ 8 → zlookup cs t = Some c → no_zero v →
  ∃ s', pm_exec t (put_request (type_code SHARDED_HASHMAP) ds k v) s = Ret (RWord (status OK zero_rpc)) s'
    ∧ sharded_at s' ds (zinsert cs t (put_value c k (take 15 v))).
Proof.
  intros Hs Hds Hc Hv. assert (fields_ok (op_code PUT) (type_code SHARDED_HASHMAP) ds) as Hok by (split_and!; simpl; lia).
  assert (meta (put_request (type_code SHARDED_HASHMAP) ds k v) = word (op_code PUT) (type_code SHARDED_HASHMAP) ds) as Hm
    by by apply kv_meta_word.
  destruct (exec_engine t _ s ds _ _ (type_code SHARDED_HASHMAP) Hs Hds ltac:(simpl; lia) (or_intror eq_refl) Hm) as (o & w & Ho & -> & Hat).
  rewrite engine_exec_sharded. unfold sharded_exec, aget, mbind, M_bind, deref.
  change (value (put_request _ ds k v)) with (print_string 16 v (replicate 16 0)). rewrite printed_string by done.
  simpl. rewrite Hc. simpl. eexists. split; [reflexivity|]. apply Hat.
Qed.

(** What is put is what is read.  On an open sharded hash map, a put request as
    the client builds it is answered with OK; a get request for the same key then
    yields the value, cut to the 15 characters a request holds, and every other key of
    every partition reads as before. *)
Theorem put_then_get t k v s ds cs :
  sharded_at s ds cs → 0 ≤ ds < 2 ^ 8 → 0 ≤ t < Z.of_nat (length cs) → no_zero v →
  ∃ r s', pm_exec t (put_request (type_code SHARDED_HASHMAP) ds k v) s = Ret (RWord r) s' ∧ STATUS (meta r) = OK
    ∧ (∃ g, pm_exec t (get_request (type_code SHARDED_HASHMAP) ds k) s' = Ret (RWord g) s'
         ∧ get_result g = Some (take 15 v))
    ∧ ∀ t' k', 0 ≤ t' < Z.of_nat (length cs) → (t', k') ≠ (t, k) →
      ∃ g, pm_exec t' (get_request (type_code SHARDED_HASHMAP) ds k') s' = Ret (RWord g) s'
        ∧ pm_exec t' (get_request (type_code SHARDED_HASHMAP) ds k') s = Ret (RWord g) s.
Proof.
  intros Hs Hds Ht Hv. destruct (proj2 (zlookup_is_Some cs t) Ht) as [c Hc].
  destruct (put_answer t k v s ds cs c Hs Hds Hc Hv) as (s' & Hput & Hs'). eexists _, s'. split; [exact Hput|].
  split; [done|]. assert (∀ t', zlookup (zinsert cs t (put_value c k (take 15 v))) t'
    = if t' =? t then Some (put_value c k (take 15 v)) else zlookup cs t') as Hz by (intros; by apply zlookup_zinsert).
  split.
  - eexists. split; [eapply get_answer; [done|done|by rewrite Hz, Z.eqb_refl]|].
    rewrite put_value_find, decide_True by done. unfold get_result. simpl. rewrite printed_string by by apply Forall_take.
    by rewrite take_take, Nat.min_id.
  - intros t' k' Ht' Hne. destruct (proj2 (zlookup_is_Some cs t') Ht') as [c' Hc'].
    exists (found_value (c_find c' k')). split; [|by eapply get_answer].
    destruct (Z.eqb_spec t' t) as [->|Htt].
    + rewrite (get_answer t k' s' ds _ (put_value c k (take 15 v)) Hs' Hds) by by rewrite Hz, Z.eqb_refl.
      rewrite put_value_find, decide_False by naive_solver. by simplify_eq.
    + eapply get_answer; [done|done|]. rewrite Hz. by replace (t' =? t) with false by lia.
Qed.
End store.

(** ** The B-tree engine *)
Section btree_store.
Context {CS C : Type}.
Context `{HCS : Container CS (list Z) (list Z)} `{HC : Container C Z (list Z)}.
Context (abandon : pqueue → pqueue → pqueue).
Context (pool_room : nat) (fresh : gmap Z (node_t (K:=string) (V:=list Z)) → Z).
Abbreviation lib := (pmlib CS C).
Abbreviation pm_exec := (pm_exec (CS := CS) (C := C) abandon pool_room fresh).
Implicit Types (ms : gmap string (list Z)) (m : gmap Z (list Z)).

(** The tree's map by number: keys are stored as decimal strings. *)
Definition is_key (k : Z) : Prop := 0 ≤ k < 2 ^ 64.
Definition keyed ms m : Prop := ∀ k, is_key k → ms !! pretty (Z.to_N k) = m !! k.
Definition tree_map (t : btree_type) m : Prop :=
  ∃ ms, repr (DEGREE - 1) pool_room t ms ∧ keyed ms m ∧ map_Forall (λ _ v, no_zero v ∧ (length v ≤ 15)%nat) m.
Definition btree_at (s : lib) (ds : Z) m : Prop := ∃ t, engine_at s ds (EBtree t) ∧ tree_map t m.

Lemma keyed_insert ms m k v : is_key k → keyed ms m → keyed (<[pretty (Z.to_N k) := v]> ms) (<[k := v]> m).
Proof.
  unfold keyed, is_key. intros Hk Hm k' Hk'. destruct (decide (k = k')) as [<-|Hne]; [by rewrite !lookup_insert_eq|].
  rewrite !lookup_insert_ne; [by apply Hm|done|]. intros Heq%(inj _). apply Hne. lia.
Qed.
Lemma key_of_returns k : is_key k → returns (key_of k) (pretty (Z.to_N k)).
Proof.
  intros Hk%key_fits s. unfold key_of, init, mbind, M_bind. cbv zeta. by rewrite (proj2 (Nat.ltb_ge _ _) Hk).
Qed.
Lemma on_tree_wp {A} (op : M btree_type A) t E (Q : A → engine CS C → Prop) e :
  wp op E (λ a t', Q a (EBtree t')) t → wp (on_tree op t) E Q e.
Proof. unfold on_tree, wp. by destruct (op t). Qed.
Lemma get_tree_wp t m k E : is_key k → tree_map t m → wp (btree_get k) E (λ o t', o = m !! k ∧ tree_map t' m) t.
Proof.
  intros Hk (ms & Hr & Hms & Hm). unfold btree_get. rewrite (wp_bind_returns _ _ _ _ _ _ (key_of_returns _ Hk)).
  eapply wp_mono; [by apply tree_get_wp|done|]. intros o t' [-> Hr']. split; [by apply Hms|]. by exists ms.
Qed.

(** A request for the engine that is open as [ds]. *)
Lemma exec_btree t req s ds tr op E (Q : response → lib → Prop) :
  engine_at s ds (EBtree tr) → 0 ≤ ds < 2 ^ 8 → op = op_code GET ∨ op = op_code PUT →
  meta req = word op (type_code SORTED_BTREE) ds →
  wp (btree_exec pool_room fresh tr op req) E
    (λ r e, ∀ s', engine_at s' ds e → Q (RWord r) s') (EBtree tr : engine CS C) →
  wp (pm_exec t req) E Q s.
Proof.
  intros Hs Hds Hop Hm Hwp.
  destruct (exec_engine abandon pool_room fresh t req s ds _ op (type_code SORTED_BTREE) Hs Hds ltac:(simpl; lia) Hop Hm)
    as (o & w & Ho & Heq & Hat).
  unfold wp. rewrite Heq. unfold engine_exec, mbind, M_bind. simpl. unfold wp in Hwp.
  destruct (btree_exec _ _ _ _ _ _) as [r e|f]; [|exact Hwp]. apply Hwp, Hat.
Qed.

(** What is put into the B-tree engine is what is read from it.  On an open tree
    whose contents are the map [m], a put request as the client builds it is answered
    with OK and leaves the map with the new value, cut to the 15 characters a request
    holds, unless the pool is full; a get request is always answered, with the value
    the map has for its key.  The tree is the one of persistent_b_tree.h, with keys
    stored as decimal strings of at most 20 characters and nodes of 63 entries. *)
Theorem btree_put_then_get t k v s ds m :
  Z.of_nat pool_room < 2 ^ 64 → (∀ h, h !! fresh h = None ∧ fresh h ≠ 0) →
  btree_at s ds m → 0 ≤ ds < 2 ^ 8 → is_key k → no_zero v →
  wp (pm_exec t (put_request (type_code SORTED_BTREE) ds k v)) (λ f, f = bad_alloc)
    (λ r s', r = RWord (status OK zero_rpc) ∧ btree_at s' ds (<[k := take 15 v]> m)) s
  ∧ ∀ k', is_key k' →
    wp (pm_exec t (get_request (type_code SORTED_BTREE) ds k')) none
      (λ r s', r = RWord (found_value (m !! k')) ∧ btree_at s' ds m) s.
Proof.
  intros Hroom Hfresh (tr & Hs & Htm) Hds Hk Hv.
  assert (∀ op, op = op_code GET ∨ op = op_code PUT → kv_meta op (type_code SORTED_BTREE) ds = word op (type_code SORTED_BTREE) ds) as Hw.
  { intros op Hop. apply kv_meta_word. unfold fields_ok. destruct Hop as [-> | ->]; simpl; lia. }
  split.
  - eapply (exec_btree t _ s ds tr (op_code PUT)); [done..|by right|by apply Hw; right|]. unfold btree_exec. simpl.
    rewrite wp_bind. change (print_string 16 v _) with (print_string 16 v (replicate 16 0)). rewrite printed_string by done.
    apply wp_deref.
    rewrite wp_bind. apply on_tree_wp. unfold btree_put. rewrite (wp_bind_returns _ _ _ _ _ _ (key_of_returns _ Hk)).
    destruct Htm as (ms & Hr & Hms & Hm). pose proof (length_take v 15) as Hlen.
    rewrite wp_bind. unfold init. rewrite (proj2 (Nat.ltb_ge _ _)) by (unfold MAX_VALUE_SIZE; lia). rewrite wp_ret.
    eapply wp_mono; [eapply tree_put_wp; [unfold DEGREE; simpl; lia|done..]|by intros f [-> _]|].
    intros ? t' Hr'. rewrite wp_ret. intros s' Hat. split; [done|]. exists t'. split; [done|].
    eexists. split_and!; [exact Hr'|by apply keyed_insert|]. apply map_Forall_insert_2; [|done]. split; [by apply Forall_take|lia].
  - intros k' Hk'. eapply (exec_btree t _ s ds tr (op_code GET)); [done..|by left|by apply Hw; left|]. unfold btree_exec. simpl.
    rewrite wp_bind. apply on_tree_wp. eapply wp_mono; [by apply (get_tree_wp tr m)|done|].
    intros o t' [-> Htm']. rewrite wp_ret. intros s' Hat. split; [done|]. by exists t'.
Qed.
End btree_store.

(** ** Containers that are finite maps *)
#[export] Instance map_container `{Countable K} V : Container (gmap K V) K V := {
  c_empty := ∅;
  c_find c k := c !! k;
  c_insert c k v := if c !! k then c else <[k := v]> c;
  c_assign c k v := <[k := v]> c;
  c_erase c k := delete k c
}.
#[export] Instance map_container_laws `{Countable K} V : ContainerLaws (gmap K V) K V.
Proof.
  split; simpl; intros.
  - apply lookup_empty.
  - match goal with Hn : _ = None |- _ => rewrite Hn end. apply lookup_insert_eq.
  - match goal with Hn : _ = Some _ |- _ => by rewrite Hn end.
  - destruct (c !! k); [done|]. by apply lookup_insert_ne.
  - apply lookup_insert_eq.
  - by apply lookup_insert_ne.
  - apply lookup_delete_eq.
  - by apply lookup_delete_ne.
Qed.

Abbreviation map_lib := (pmlib (gmap (list Z) (list Z)) (gmap Z (list Z))).
Definition fresh_lib : map_lib := mk_pmlib ∅ 0 ∅ ∅ (Some ∅) 2.
Definition demo_exec (t : Z) (req : pm_rpc_t) : M map_lib response := pm_exec (λ _ s, s) 100 new_address t req.
Definition lib_after (t : Z) (req : pm_rpc_t) (s : map_lib) : map_lib :=
  match demo_exec t req s with Ret _ s => s | Stop _ => s end.
Definition demo_lib : map_lib :=
  lib_after 0 (create_request (type_code SHARDED_HASHMAP) 7) fresh_lib.

Lemma put_then_get_witness :
  ∃ s' g, demo_exec 1 (put_request (type_code SHARDED_HASHMAP) 7 42 [104; 105]) demo_lib
      = Ret (RWord (status OK zero_rpc)) s'
    ∧ demo_exec 1 (get_request (type_code SHARDED_HASHMAP) 7 42) s' = Ret (RWord g) s'
    ∧ get_result g = Some [104; 105].
Proof.
  assert (sharded_at demo_lib 7 [∅; ∅]) as Hs.
  { exists {[7 := (0, true)]}, 0, true. vm_compute. split_and!; reflexivity. }
  assert (no_zero [104; 105]) as Hv by (repeat constructor; lia).
  destruct (put_then_get (λ _ s, s) 100 new_address 1 42 [104; 105] demo_lib 7 [∅; ∅] Hs ltac:(lia) ltac:(simpl; lia) Hv)
    as (r & s' & Hput & _ & (g & Hget & Hg) & _).
  exists s', g. split_and!; [|exact Hget|exact Hg]. revert Hput. unfold demo_exec.
  destruct (put_answer (λ _ s, s) 100 new_address 1 42 [104; 105] demo_lib 7 [∅; ∅] ∅ Hs ltac:(lia) eq_refl Hv) as (s2 & Hrun & _).
  rewrite Hrun. by intros [= <- <-].
Defined.

Definition tree_lib : map_lib := lib_after 0 (create_request (type_code SORTED_BTREE) 7) fresh_lib.
Lemma tree_lib_empty : btree_at 100 tree_lib 7 ∅.
Proof.
  exists new_btree. split.
  - exists {[7 := (0, true)]}, 0, true. vm_compute. split_and!; reflexivity.
  - exists ∅. split_and!; [apply new_btree_repr|intros k _; by rewrite !lookup_empty|apply map_Forall_empty].
Qed.
Lemma btree_put_then_get_witness :
  wp (demo_exec 0 (put_request (type_code SORTED_BTREE) 7 42 [104; 105])) (λ f, f = bad_alloc)
    (λ r s', r = RWord (status OK zero_rpc) ∧ btree_at 100 s' 7 {[42 := [104; 105]]}) tree_lib.
Proof.
  assert (no_zero [104; 105]) as Hv by (repeat constructor; lia).
  assert (is_key 42) as Hk by (unfold is_key; lia).
  destruct (btree_put_then_get (λ _ s, s) 100 new_address 0 42 [104; 105] tree_lib 7 ∅ eq_refl new_address_fresh
    tree_lib_empty ltac:(lia) Hk Hv) as [H _].
  exact H.
Defined.

(** A change of priority takes only the lower half of its key: raising key 2^32 + 1
    changes the priority of key 1. *)
Definition pq_request (op : opnames) (ds k prio : Z) : pm_rpc_t :=
  mk_pm (kv_meta (op_code op) (type_code SHARDED_PRIORITY_QUEUE) ds) k (to_bytes 8 prio ++ replicate 8 0).
Definition pq_lib : map_lib :=
  lib_after 0 (pq_request INCREASE_PRIO 1 (2 ^ 32 + 1) 3)
    (lib_after 0 (pq_request INSERT 1 1 5)
      (lib_after 0 (create_request (type_code SHARDED_PRIORITY_QUEUE) 1) fresh_lib)).
Theorem wide_key_truncated :
  ∃ q qs, objs pq_lib !! 0 = Some (EPq (q :: qs)) ∧ pq_store q !! 1 = Some (mk_pqelem 1 8).
Proof. vm_compute. do 2 eexists. split; reflexivity. Qed.

(** The status FAILED does not fit its field: it reads back as 15. *)
Theorem failed_status_truncated r : meta r = 0 → STATUS (meta (status FAILED r)) = 15.
Proof. intros Hr. simpl. by rewrite Hr. Qed.

(** A request for a data structure that is not open dereferences the end of the map;
    the test for a NULL engine comes too late. *)
Theorem unknown_ds_undefined {CS C} `{Container CS (list Z) (list Z)} `{Container C Z (list Z)}
    abandon pool_room fresh t req (s : pmlib CS C) m :
  engine_map s = Some m → m !! DS_ID (meta req) = None → OP_ID (meta req) = op_code GET →
  pm_exec abandon pool_room fresh t req s = Stop UB.
Proof.
  intros Hm Hid Hop. unfold pm_exec, find_ds, engines, mbind, M_bind, get. rewrite Hop. simpl.
  rewrite Hm. simpl. by rewrite Hid.
Qed.

(** Removing a key from the B-tree reports that it was not there, also when it was. *)
Theorem btree_remove_not_found {CS C} t k (e e' : engine CS C) r :
  btree_remove t k e = Ret r e' → STATUS (meta r) = NOT_FOUND.
Proof.
  unfold btree_remove, on_tree, mbind, M_bind. destruct (btree_erase k t) as [n t'|]; [|done]. simpl.
  intros [= <- _]. by destruct (n =? 1)%nat.
Qed.
