(* ===== verification/PmemClient.v ===== *)
(** The clients of the application library (pmemds/src/pmemds-client.cc, dpdk_client.cc
    and the wrappers for hash maps, B-trees, priority queues and adjacency lists): the
    requests they build, what they make of the answers, and their transports.

    [Transport] is the interface [PMClient] hides the network behind; its instances are
    the DPDK client, on top of [Client], and a direct call of the library.  A response is
    the bytes behind the pointer the transport sets, [None] when it sets none. *)

From stdpp Require Import strings pretty.
From S2P Require Import Prelude Comm Cyclone Client BTree BTreeEngine PriorityQueue PmemDS.

Definition UPDATE_OPERATION : Z := 0.
Definition READ_OPERATION : Z := 1.
Definition ART_ARRAY_SIZE : nat := 16.

(** ** Words in memory *)
Definition u8 (x : Z) : Z := x mod 2 ^ 8.
Definition sizeof_pm_rpc : Z := 32.
Definition sizeof_vote_payload : Z := 24.
Definition pm_bytes (r : pm_rpc_t) : list Z :=
  to_bytes 4 (meta r) ++ replicate 4 0 ++ to_bytes 8 (rkey r) ++ value r.

(** [PMClient]: the result of [sendmsg] is the size of the response, 0 for a failure. *)
Class Transport (W : Type) := {
  sendmsg : pm_rpc_t → Z → Z → M W (Z * option (list Z));
  sendmsg_async : pm_rpc_t → Z → Z → Z → M W Z
}.

Section client.
Context {W : Type} `{Transport W}.
Abbreviation R := (M W).

(** The fields of a response. *)
Definition response_meta (r : list Z) : R Z :=
  if (length r <? 4)%nat then fail UB else mret (of_bytes (take 4 r)).
Definition response_key (r : list Z) : R Z :=
  if (length r <? 16)%nat then fail UB else mret (of_bytes (take 8 (drop 8 r))).
Definition response_value (r : list Z) : list Z := drop 16 r.

(** A request that waits: a failure is logged, and the response is read all the same. *)
Definition call (payload : pm_rpc_t) (core_mask rpc_flags : Z) : R (Z * list Z) :=
  '(resp_size, response) ← sendmsg payload core_mask rpc_flags;
  r ← deref response;
  mret (resp_size, r).
Definition call_status (payload : pm_rpc_t) (core_mask rpc_flags : Z) : R Z :=
  '(_, r) ← call payload core_mask rpc_flags;
  m ← response_meta r;
  mret (if STATUS m =? OK then OK else FAILED).
(** One that does not; also a failure is logged only. *)
Definition cast (payload : pm_rpc_t) (core_mask rpc_flags cb : Z) : R Z :=
  sendmsg_async payload core_mask rpc_flags cb ;; mret OK.

(** ** The library as a whole *)
Definition app_word (op : opnames) (appname : list Z) : pm_rpc_t :=
  zero_rpc <| meta := SET_OP_ID 0 (op_code op) |> <| value := print_string 16 appname (value zero_rpc) |>.
Definition client_open (appname : list Z) : R Z := call_status (app_word OPEN appname) 1 UPDATE_OPERATION.
Definition client_open_async (appname : list Z) (cb : Z) : R Z :=
  cast (app_word OPEN appname) 1 UPDATE_OPERATION cb.
(** The member that [close] names is a string nothing assigns, so it is empty.  The mask
    and the flags are in the wrong order in the routine that waits. *)
Definition this_appname : list Z := [].
Definition client_close : R Z := call_status (app_word CLOSE this_appname) UPDATE_OPERATION 1.
Definition client_close_async (cb : Z) : R Z := cast (app_word CLOSE this_appname) 1 UPDATE_OPERATION cb.

Definition topk_request : pm_rpc_t := zero_rpc <| meta := SET_OP_ID 0 (op_code GET_TOPK) |>.
(** The lines that are printed: an index and a title. *)
Fixpoint print_votes (n : nat) (r : list Z) : R (list (Z * list Z)) :=
  match n with
  | O => mret []
  | S n =>
    if (length r <? 8)%nat then fail UB else
    art ← deref (c_string (drop 8 r));
    l ← print_votes n (drop (Z.to_nat sizeof_vote_payload) r);
    mret ((of_bytes (take 8 r), art) :: l)
  end.
Definition client_topk : R (Z * list (Z * list Z)) :=
  '(resp_size, r) ← call topk_request 1 READ_OPERATION;
  m ← response_meta r;
  if negb (STATUS m =? OK) then mret (FAILED, []) else
  let var_length := i32 (u32 (resp_size - (sizeof_pm_rpc - Z.of_nat ART_ARRAY_SIZE))) in
  assert (u64 var_length mod sizeof_vote_payload =? 0) ;;
  let array_size := i32 (u32 (u64 var_length / sizeof_vote_payload)) in
  l ← print_votes (Z.to_nat array_size) (response_value r);
  mret (OK, l).
Definition client_topk_async (cb : Z) : R Z := cast topk_request 1 READ_OPERATION cb.

(** ** Data structures *)
Record ds_handle := mk_handle { ds_id : Z; type_id : Z; h_core_mask : Z }.
Implicit Types h : ds_handle.

Definition ds_request (op : opnames) h : pm_rpc_t :=
  zero_rpc <| meta := ds_meta (op_code op) (type_id h) (ds_id h) |>.
Definition key_request (op : opnames) h (k : Z) : pm_rpc_t :=
  zero_rpc <| meta := kv_meta (op_code op) (type_id h) (ds_id h) |> <| rkey := k |>.
Definition update h (payload : pm_rpc_t) : R Z := call_status payload (h_core_mask h) UPDATE_OPERATION.
Definition update_async h (payload : pm_rpc_t) (cb : Z) : R Z := cast payload (h_core_mask h) UPDATE_OPERATION cb.

(** *** B-trees *)
Definition btree_handle (ds mask : Z) : ds_handle := mk_handle ds (type_code SORTED_BTREE) mask.
Definition bt_create h : R Z := update h (create_request (type_id h) (ds_id h)).
Definition bt_create_async h (cb : Z) : R Z := update_async h (create_request (type_id h) (ds_id h)) cb.
Definition bt_close h : R Z := update h (ds_request CLOSE_DS h).
Definition bt_close_async h (cb : Z) : R Z := update_async h (ds_request CLOSE_DS h) cb.
Definition bt_remove_ds h : R Z := update h (ds_request REMOVE_DS h).
Definition bt_remove_ds_async h (cb : Z) : R Z := update_async h (ds_request REMOVE_DS h) cb.
(** [std::string] of a null pointer is undefined; the value is all 16 characters. *)
Definition bt_get h (k : Z) : R (list Z) :=
  '(_, r) ← call (get_request (type_id h) (ds_id h) k) (h_core_mask h) READ_OPERATION;
  m ← response_meta r;
  if negb (STATUS m =? OK) then fail UB else
  let v := response_value r in
  if (length v <? 16)%nat then fail UB else mret (take 16 v).
Definition bt_get_async h (k cb : Z) : R Z :=
  cast (get_request (type_id h) (ds_id h) k) (h_core_mask h) READ_OPERATION cb.
Definition bt_put h (k : Z) (v : list Z) : R Z := update h (put_request (type_id h) (ds_id h) k v).
Definition bt_put_async h (k : Z) (v : list Z) (cb : Z) : R Z :=
  update_async h (put_request (type_id h) (ds_id h) k v) cb.
Definition bt_delete h (k : Z) : R Z := update h (key_request DELETE h k).
Definition bt_delete_async h (k cb : Z) : R Z := update_async h (key_request DELETE h k) cb.

(** *** Hash maps *)
Definition hashmap_handle (ds mask : Z) : ds_handle := mk_handle ds (type_code CONCURRENT_HASHMAP) mask.
Definition sharded_handle (ds mask : Z) : ds_handle := mk_handle ds (type_code SHARDED_HASHMAP) mask.
Definition hm_create h : R Z := update h (create_request (type_id h) (ds_id h)).
Definition hm_create_async h (cb : Z) : R Z := update_async h (create_request (type_id h) (ds_id h)) cb.
Definition hm_close h : R Z := update h (ds_request CLOSE_DS h).
(** Three of the routines end without a [return]. *)
Definition hm_close_async h (cb : Z) : R Z := update_async h (ds_request CLOSE_DS h) cb ;; fail UB.
Definition hm_remove_ds h : R Z := update h (ds_request REMOVE_DS h).
Definition hm_remove_ds_async h (cb : Z) : R Z := update_async h (ds_request REMOVE_DS h) cb ;; fail UB.
Definition hm_get h (k : Z) : R (list Z) :=
  '(_, r) ← call (get_request (type_id h) (ds_id h) k) (h_core_mask h) READ_OPERATION;
  m ← response_meta r;
  if negb (STATUS m =? OK) then fail UB else
  deref (c_string (response_value r)).
Definition hm_get_async h (k cb : Z) : R Z :=
  cast (get_request (type_id h) (ds_id h) k) (h_core_mask h) READ_OPERATION cb ;; fail UB.
Definition hm_put h (k : Z) (v : list Z) : R Z := update h (put_request (type_id h) (ds_id h) k v).
Definition hm_put_async h (k : Z) (v : list Z) (cb : Z) : R Z :=
  update_async h (put_request (type_id h) (ds_id h) k v) cb.
Definition hm_delete h (k : Z) : R Z := update h (key_request DELETE h k).
Definition hm_delete_async h (k cb : Z) : R Z := update_async h (key_request DELETE h k) cb.

(** *** Priority queues *)
Definition pq_handle (npartitions : option Z) (ds mask : Z) : R ds_handle :=
  match npartitions with
  | None => fail (Exit 1)
  | Some _ => mret (mk_handle ds (type_code SHARDED_PRIORITY_QUEUE) mask)
  end.
Definition pq_create h : R Z := update h (create_request (type_id h) (ds_id h)).
Definition pq_create_async h (cb : Z) : R Z := update_async h (create_request (type_id h) (ds_id h)) cb.
Definition pq_close h : R Z := update h (ds_request CLOSE_DS h).
Definition pq_close_async h (cb : Z) : R Z := update_async h (ds_request CLOSE_DS h) cb.
Definition pq_remove_ds h : R Z := update h (ds_request REMOVE_DS h).
Definition pq_remove_ds_async h (cb : Z) : R Z := update_async h (ds_request REMOVE_DS h) cb.
Definition prio_request (op : opnames) h (k prio : Z) : pm_rpc_t :=
  zero_rpc <| meta := SET_TYPE_ID (SET_DS_ID (SET_OP_ID 0 (op_code op)) (ds_id h)) (type_id h) |> <| rkey := k |>
    <| value := to_bytes 8 prio ++ drop 8 (value zero_rpc) |>.
Definition pq_insert h (k prio : Z) : R Z := update h (prio_request INSERT h k prio).
Definition pq_insert_async h (k prio cb : Z) : R Z := update_async h (prio_request INSERT h k prio) cb.
(** The key of a change is an [unsigned]. *)
Definition pq_increase h (k delta : Z) : R Z := update h (prio_request INCREASE_PRIO h (u32 k) delta).
Definition pq_increase_async h (k delta cb : Z) : R Z := update_async h (prio_request INCREASE_PRIO h (u32 k) delta) cb.
(** The status itself is returned. *)
Definition pq_decrease h (k delta : Z) : R Z :=
  '(_, r) ← call (prio_request DECREASE_PRIO h (u32 k) delta) (h_core_mask h) UPDATE_OPERATION;
  m ← response_meta r;
  mret (STATUS m).
Definition pq_decrease_async h (k delta cb : Z) : R Z := update_async h (prio_request DECREASE_PRIO h (u32 k) delta) cb.

(** *** Adjacency lists *)
Definition adj_handle (ds mask : Z) : ds_handle := mk_handle ds (type_code ADJACENCY_VECTOR) mask.
Definition edge_request h (from_node to_node : Z) : pm_rpc_t :=
  key_request ADD_EDGE h from_node <| value := to_bytes 8 to_node ++ drop 8 (value zero_rpc) |>.
Definition adj_create h : R Z := update h (create_request (type_id h) (ds_id h)).
Definition adj_create_async h (cb : Z) : R Z := update_async h (create_request (type_id h) (ds_id h)) cb.
Definition adj_close h : R Z := update h (ds_request CLOSE_DS h).
Definition adj_close_async h (cb : Z) : R Z := update_async h (ds_request CLOSE_DS h) cb.
(** [remove] sends nothing. *)
Definition adj_remove_ds h : R Z := mret 0.
Definition adj_remove_ds_async h (cb : Z) : R Z := mret 0.
Definition adj_add_edge h (from_node to_node : Z) : R Z := update h (edge_request h from_node to_node).
Definition adj_add_edge_async h (from_node to_node cb : Z) : R Z := update_async h (edge_request h from_node to_node) cb.
Definition adj_outdegree h (node : Z) : R Z :=
  '(_, r) ← call (key_request VERTEX_OUTDEGREE h node) (h_core_mask h) READ_OPERATION;
  m ← response_meta r;
  if negb (STATUS m =? OK) then mret FAILED else response_key r.
Definition adj_outdegree_async h (node cb : Z) : R Z :=
  cast (key_request VERTEX_OUTDEGREE h node) (h_core_mask h) READ_OPERATION cb.
End client.

(** ** The library in the same process: the clients of tests/test_client.h

    [ShardedTestClient] chooses the partition by the request, [TestClient] takes 0.
    [SAFECALLOC] clears a response; of the titles of [vote_topk], which are copied
    whole, the bytes behind the end are what the array [vpayload] held. *)
Section direct.
Context {CS C : Type}.
Context `{Container CS (list Z) (list Z)} `{Container C Z (list Z)}.
Context (abandon : pqueue → pqueue → pqueue).
Context (pool_room : nat) (fresh : gmap Z (node_t (K:=string) (V:=list Z)) → Z).
Context (art_junk : nat → list Z) (partition : pm_rpc_t → Z).

Definition vote_bytes (i : nat) (e : Z * list Z) : list Z :=
  to_bytes 8 e.1 ++ print_string ART_ARRAY_SIZE e.2 (art_junk i).
Definition topk_bytes (l : list (Z * list Z)) : list Z :=
  replicate 16 0 ++ concat (imap vote_bytes l).
Definition topk_size (l : list (Z * list Z)) : Z :=
  sizeof_vote_payload * Z.of_nat (length l) + (sizeof_pm_rpc - Z.of_nat ART_ARRAY_SIZE).
(** Without a response the size is not set either. *)
Definition direct_sendmsg (req : pm_rpc_t) (core_mask rpc_flags : Z)
  : M (pmlib CS C) (Z * option (list Z)) :=
  r ← pm_exec abandon pool_room fresh (u8 (partition req)) req;
  match r with
  | RWord g => mret (sizeof_pm_rpc, Some (pm_bytes g))
  | RTopk l => mret (topk_size l, Some (topk_bytes l))
  | RNone => fail UB
  end.
Definition direct_sendmsg_async (req : pm_rpc_t) (core_mask rpc_flags cb : Z) : M (pmlib CS C) Z := mret 1.
Definition direct_transport : Transport (pmlib CS C) :=
  {| sendmsg := direct_sendmsg; sendmsg_async := direct_sendmsg_async |}.
End direct.

(** ** The network: [DPDKPMClient] *)
Record cb_st := mk_cb { request_type : Z; cb_request_id : Z; callback : Z }.
(** The client, with the callback contexts that are allocated and the counters of the
    measurement. *)
Record dpdk_pm (D : Type) := mk_dpdk {
  dpdk_client : rpc_client_t D;
  request_id : Z;
  contexts : gmap Z cb_st;
  tx_wr_block_cnt : Z;
  tx_ro_block_cnt : Z;
  tx_failed_cnt : Z;
  total_latency : Z;
  tx_begin_time : Z
}.
Arguments mk_dpdk {D} _ _ _ _ _ _ _ _.
Arguments dpdk_client {D} _.
Arguments request_id {D} _.
Arguments contexts {D} _.
Arguments tx_wr_block_cnt {D} _.
Arguments tx_ro_block_cnt {D} _.
Arguments tx_failed_cnt {D} _.
Arguments total_latency {D} _.
Arguments tx_begin_time {D} _.
#[export] Instance dpdk_fields D : FieldsOf (dpdk_pm D) :=
  λ r, mk_dpdk (dpdk_client r) (request_id r) (contexts r) (tx_wr_block_cnt r) (tx_ro_block_cnt r)
         (tx_failed_cnt r) (total_latency r) (tx_begin_time r).

Section dpdk.
Context {D : Type} (cfg : client_cfg).
Context (pktmbuf_alloc : Z → M D (option rte_mbuf)) (pktmbuf_free : rte_mbuf → M D ())
  (tx_buffer : Z → Z → Z → rte_mbuf → M D Z) (tx_buffer_flush : Z → Z → Z → M D Z)
  (rx_burst : Z → Z → Z → M D (list rte_mbuf)) (current_time : M D Z)
  (comm_malloc ring_full : M D bool).
Context (rpc_bytes : rpc_t → list Z) (rpc_of : list Z → rpc_t).
Context (out_junk aux_junk : rpc_t) (nonce_junk : list Z).
(** What the listener's thread does to the client between two attempts, and the address
    [rte_malloc] gives, 0 when memory is out. *)
Context (other_thread : M (rpc_client_t D) ()) (rte_malloc : gmap Z cb_st → Z).
Abbreviation P := (M (dpdk_pm D)).

Definition on_client {A} (op : M (rpc_client_t D) A) : P A := λ s,
  match op (dpdk_client s) with
  | Ret a c => Ret a (s <| dpdk_client := c |>)
  | Stop f => Stop f
  end.

(** The flags are dropped. *)
Definition dpdk_sendmsg (fuel : nat) (msg : pm_rpc_t) (core_mask rpc_flags : Z) : P (Z * option (list Z)) :=
  '(n, r) ← on_client (make_rpc cfg pktmbuf_alloc pktmbuf_free tx_buffer tx_buffer_flush rx_burst current_time
    rpc_bytes rpc_of out_junk aux_junk nonce_junk fuel (pm_bytes msg) sizeof_pm_rpc core_mask 0);
  mret (n, Some r).

Fixpoint send_loop (fuel : nat) (msg : list Z) (ctxt core_mask rpc_flags : Z) : P () :=
  match fuel with
  | O => fail Hang
  | S fuel =>
    ret ← on_client (make_rpc_async cfg pktmbuf_alloc tx_buffer tx_buffer_flush current_time comm_malloc ring_full
      rpc_bytes out_junk msg sizeof_pm_rpc ctxt core_mask rpc_flags);
    if ret =? 0 then mret tt else
    on_client other_thread ;;
    send_loop fuel msg ctxt core_mask rpc_flags
  end.
Definition dpdk_sendmsg_async (fuel : nat) (msg : pm_rpc_t) (core_mask rpc_flags cb : Z) : P Z :=
  s ← get;
  let ctxt := rte_malloc (contexts s) in
  if ctxt =? 0 then fail UB else
  modify (λ s, s <| contexts := <[ctxt := mk_cb (u8 rpc_flags) (request_id s) cb]> (contexts s) |>
                 <| request_id := u64 (request_id s + 1) |>) ;;
  send_loop fuel (pm_bytes msg) ctxt core_mask rpc_flags ;;
  mret 0.

(** The measurement handler; the context's own callback is not called. *)
Definition async_callback (args code msg_latency : Z) : P () :=
  s ← get;
  ctxt ← deref (contexts s !! args);
  if negb (code =? REP_SUCCESS) then fail (Exit (-1)) else
  (if request_type ctxt =? UPDATE_OPERATION
   then modify (λ s, s <| tx_wr_block_cnt := u64 (tx_wr_block_cnt s + 1) |>)
   else modify (λ s, s <| tx_ro_block_cnt := u64 (tx_ro_block_cnt s + 1) |>)) ;;
  modify (λ s, s <| contexts := delete args (contexts s) |>
                 <| total_latency := u64 (total_latency s + msg_latency) |>) ;;
  s ← get;
  if 5000 <=? u64 (tx_wr_block_cnt s + tx_ro_block_cnt s) then
    on_client (on_cdev current_time) ;;
    modify (λ s, s <| tx_wr_block_cnt := 0 |> <| tx_ro_block_cnt := 0 |> <| tx_failed_cnt := 0 |>
                   <| total_latency := 0 |>) ;;
    now ← on_client (on_cdev current_time);
    modify (λ s, s <| tx_begin_time := now |>)
  else mret tt.

Definition new_dpdk (clnt : rpc_client_t D) : dpdk_pm D := mk_dpdk clnt 0 ∅ 0 0 0 0 0.
Definition dpdk_transport (fuel : nat) : Transport (dpdk_pm D) :=
  {| sendmsg := dpdk_sendmsg fuel; sendmsg_async := dpdk_sendmsg_async fuel |}.
End dpdk.
