(* ===== verification/PmemClientSafe.v ===== *)
(** The clients of the application library, end to end: what a client stores is what
    it reads, through the request and response words and the engines; the list of
    [vote_topk] arrives as it was sent; and the measurement of the DPDK client. *)

From stdpp Require Import strings pretty.
From S2P Require Import Prelude Comm Cyclone Client ClientSafe BTree BTreeNode BTreeInsert BTreeEngine PriorityQueue PmemDS PmemSafe PmemClient.

(** ** Numbers as bytes *)
Lemma length_to_bytes n x : length (to_bytes n x) = n.
Proof. revert x. induction n as [|n IH]; intros x; simpl; [done|]. by rewrite IH. Qed.
Lemma of_to_bytes n x : of_bytes (to_bytes n x) = x mod 2 ^ (8 * Z.of_nat n).
Proof.
  revert x. induction n as [|n IH]; intros x; [by rewrite Z.mod_1_r|].
  cbn [to_bytes of_bytes]. rewrite IH. replace (8 * Z.of_nat (S n)) with (8 + 8 * Z.of_nat n) by lia.
  rewrite Z.pow_add_r, Z.rem_mul_r by lia. lia.
Qed.
Lemma drop_bytes n x l : drop n (to_bytes n x ++ l) = l.
Proof. by rewrite drop_app_length' by by rewrite length_to_bytes. Qed.
Lemma take_bytes n x l : take n (to_bytes n x ++ l) = to_bytes n x.
Proof. by rewrite take_app_length' by by rewrite length_to_bytes. Qed.

Lemma length_pm_bytes r : length (pm_bytes r) = (16 + length (value r))%nat.
Proof. unfold pm_bytes. rewrite !length_app, !length_to_bytes, length_replicate. lia. Qed.
Lemma pm_bytes_meta r : of_bytes (take 4 (pm_bytes r)) = u32 (meta r).
Proof. unfold pm_bytes. by rewrite take_bytes, of_to_bytes. Qed.
Lemma pm_bytes_value r : response_value (pm_bytes r) = value r.
Proof.
  unfold response_value, pm_bytes. change 16%nat with (4 + (4 + 8))%nat. rewrite <- !drop_drop.
  rewrite drop_bytes, (drop_app_length' (replicate 4 0)) by done. by rewrite drop_bytes.
Qed.

(** ** The words of the priority queue's and the adjacency list's clients *)
Lemma prio_request_decodes op h k prio :
  0 ≤ prio < 2 ^ 64 → parse_priority (value (prio_request op h k prio)) = prio.
Proof. intros Hp. unfold parse_priority. change (value _) with (to_bytes 8 prio ++ replicate 8 0). rewrite take_bytes, of_to_bytes. by apply Z.mod_small. Qed.
Lemma edge_request_decodes h a b :
  0 ≤ b < 2 ^ 64 → of_bytes (take 8 (value (edge_request h a b))) = b.
Proof. intros Hp. change (value _) with (to_bytes 8 b ++ replicate 8 0). rewrite take_bytes, of_to_bytes. by apply Z.mod_small. Qed.

(** ** Calls of the library *)
Section direct.
Context {CS C : Type}.
Context `{HCS : Container CS (list Z) (list Z)} `{HC : Container C Z (list Z)}.
Context (abandon : pqueue → pqueue → pqueue).
Context (pool_room : nat) (fresh : gmap Z (node_t (K:=string) (V:=list Z)) → Z).
Context (art_junk : nat → list Z) (partition : pm_rpc_t → Z).
Abbreviation lib := (pmlib CS C).
Abbreviation exec := (pm_exec (CS := CS) (C := C) abandon pool_room fresh).
#[local] Instance direct : Transport lib := direct_transport abandon pool_room fresh art_junk partition.
Abbreviation part req := (u8 (partition req)).

Lemma call_word_wp req mask fl E (Q : Z * list Z → lib → Prop) s :
  wp (exec (part req) req) E (λ r s', ∃ g, r = RWord g ∧ Q (sizeof_pm_rpc, pm_bytes g) s') s →
  wp (call req mask fl) E Q s.
Proof.
  intros Hwp. unfold call. rewrite wp_bind. simpl. unfold direct_sendmsg. rewrite wp_bind.
  eapply wp_mono; [exact Hwp|done|]. intros r s' (g & -> & HQ). by rewrite wp_ret, wp_bind, wp_deref, wp_ret.
Qed.
Lemma response_meta_wp (g : pm_rpc_t) E (Q : Z → lib → Prop) s :
  Q (u32 (meta g)) s → wp (response_meta (pm_bytes g)) E Q s.
Proof.
  intros HQ. unfold response_meta. rewrite (proj2 (Nat.ltb_ge _ _)) by (rewrite length_pm_bytes; lia).
  by rewrite wp_ret, pm_bytes_meta.
Qed.

(** A word with status OK makes an update succeed. *)
Lemma update_ok h req E (Q : Z → lib → Prop) s :
  wp (exec (part req) req) E (λ r s', r = RWord (status OK zero_rpc) ∧ Q OK s') s → wp (update h req) E Q s.
Proof.
  intros Hwp. unfold update, call_status. rewrite wp_bind. apply call_word_wp. eapply wp_mono; [exact Hwp|done|].
  intros r s' [-> HQ]. eexists. split; [done|]. rewrite wp_bind. apply response_meta_wp. by rewrite wp_ret.
Qed.

(** What the two routines that read make of an answer. *)
Definition padded (v : list Z) : list Z := v ++ replicate (16 - length v) 0.
Lemma padded_print v : (length v ≤ 15)%nat → print_string 16 v (replicate 16 0) = padded v.
Proof.
  intros Hv. unfold print_string, padded. rewrite take_ge by lia. f_equal. rewrite drop_replicate.
  by replace (16 - length v)%nat with (S (16 - (length v + 1))) by lia.
Qed.
Lemma hm_get_wp h k o E (Q : list Z → lib → Prop) s :
  let req := get_request (type_id h) (ds_id h) k in
  wp (exec (part req) req) E (λ r s', r = RWord (found_value o)
    ∧ wp (match o with None => fail UB | Some v => deref (c_string (print_string 16 v (replicate 16 0))) end) E Q s') s →
  wp (hm_get h k) E Q s.
Proof.
  intros req Hwp. unfold hm_get. rewrite wp_bind. apply call_word_wp. eapply wp_mono; [exact Hwp|done|].
  intros r s' [-> HQ]. eexists. split; [done|]. rewrite wp_bind. apply response_meta_wp.
  destruct o as [v|]; [|exact HQ]. by rewrite pm_bytes_value.
Qed.
Lemma bt_get_wp h k o E (Q : list Z → lib → Prop) s :
  let req := get_request (type_id h) (ds_id h) k in
  (∀ v, o = Some v → (length v ≤ 15)%nat) →
  wp (exec (part req) req) E (λ r s', r = RWord (found_value o)
    ∧ wp (match o with None => fail UB | Some v => mret (padded v) end) E Q s') s →
  wp (bt_get h k) E Q s.
Proof.
  intros req Ho Hwp. unfold bt_get. rewrite wp_bind. apply call_word_wp. eapply wp_mono; [exact Hwp|done|].
  intros r s' [-> HQ]. eexists. split; [done|]. rewrite wp_bind. apply response_meta_wp.
  destruct o as [v|]; [|exact HQ]. specialize (Ho v eq_refl). rewrite pm_bytes_value.
  change (value (found_value (Some v))) with (print_string 16 v (replicate 16 0)). rewrite padded_print by done.
  assert (length (padded v) = 16)%nat as Hl by (unfold padded; rewrite length_app, length_replicate; lia).
  cbv zeta. rewrite Hl. simpl. by rewrite take_ge by lia.
Qed.

(** ** Hash maps *)
Section hash.
Context `{!ContainerLaws C Z (list Z)}.

(** C21: a client reads from a hash map what it has stored.  Through the client of
    a sharded hash map, with the library called directly, the partition chosen by
    the key and maps that never run out of room, [put] returns OK; [get] of the key then returns the value, cut to the 15
    characters a request holds; and [get] of any other key does what it did before. *)
Theorem client_put_then_get k v s ds mask cs :
  let h := sharded_handle ds mask in
  let at_key k := part (get_request (type_id h) ds k) in
  sharded_at s ds cs → 0 ≤ ds < 2 ^ 8 → no_zero v →
  part (put_request (type_id h) ds k v) = at_key k → (∀ k, at_key k < Z.of_nat (length cs)) →
  ∃ s', hm_put h k v s = Ret OK s' ∧ hm_get h k s' = Ret (take 15 v) s'
    ∧ ∀ k', k' ≠ k → hm_get h k' s' = match hm_get h k' s with Ret x _ => Ret x s' | Stop f => Stop f end.
Proof.
  intros h at_key Hs Hds Hv Hput Hpart.
  assert (∀ k, ∃ c, zlookup cs (at_key k) = Some c) as Hc.
  { intros k0. apply zlookup_is_Some. split; [|apply Hpart]. unfold at_key, u8. pose proof (Z.mod_pos_bound (partition (get_request (type_id h) ds k0)) (2 ^ 8)). lia. }
  destruct (Hc k) as [c Hk]. rewrite <- Hput in Hk.
  destruct (put_answer abandon pool_room fresh _ k v s ds cs c Hs Hds Hk Hv) as (s' & Hrun & Hs').
  assert (∀ s cs k c Q, sharded_at s ds cs → zlookup cs (at_key k) = Some c →
    wp (match c_find c k with None => fail UB | Some v => deref (c_string (print_string 16 v (replicate 16 0))) end) (λ f, Q (Stop f)) (λ a s, Q (Ret a s)) s →
    Q (hm_get h k s)) as Hget.
  { intros s0 cs0 k0 c0 Q Hs0 Hc0 HQ. enough (wp (hm_get h k0) (λ f, Q (Stop f)) (λ a s, Q (Ret a s)) s0) as Hwp
      by (unfold wp in Hwp; by destruct (hm_get h k0 s0)).
    apply (hm_get_wp h k0 (c_find c0 k0)). unfold wp at 1. simpl ds_id.
    rewrite (get_answer abandon pool_room fresh _ k0 s0 ds cs0 c0) by done. by split. }
  pose proof (λ j x, zlookup_zinsert cs (part (put_request (type_id h) ds k v)) j x (proj1 (zlookup_is_Some _ _) (mk_is_Some _ _ Hk))) as Hz.
  exists s'. split_and!.
  - enough (wp (hm_put h k v) none (λ r s2, r = OK ∧ s2 = s') s) as (? & ? & -> & -> & ->)%wp_none_ret by done.
    apply update_ok. refine (_ : wp (exec (part (put_request (type_id h) ds k v)) (put_request (type_code SHARDED_HASHMAP) ds k v)) _ _ s).
    unfold wp. by rewrite Hrun.
  - eapply (Hget s' _ k (put_value c k (take 15 v)) (λ o, o = Ret _ s')); [exact Hs'|by rewrite <- Hput, Hz, Z.eqb_refl|].
    rewrite put_value_find, decide_True by done. rewrite printed_string by by apply Forall_take. by rewrite take_take.
  - intros k' Hne. destruct (Hc k') as [c' Hk'].
    assert (∃ c2, zlookup (zinsert cs (part (put_request (type_id h) ds k v)) (put_value c k (take 15 v))) (at_key k') = Some c2
      ∧ c_find c2 k' = c_find c' k') as (c2 & Hc2 & Hf).
    { rewrite Hz. destruct (Z.eqb_spec (at_key k') (part (put_request (type_id h) ds k v))) as [Heq|]; [|by exists c'].
      eexists. split; [done|]. rewrite put_value_find, decide_False by congruence. rewrite Heq in Hk'. congruence. }
    apply (Hget s cs k' c' (λ o, _ = match o with Ret x _ => Ret x s' | Stop f => Stop f end) Hs Hk').
    apply (Hget s' _ k' c2 (λ o, wp _ (λ f, o = _) (λ a s, o = _) s) Hs' Hc2). rewrite Hf.
    destruct (c_find c' k') as [x|]; [|done]. by destruct (c_string _).
Qed.
End hash.

(** ** B-trees *)

(** C22: a client reads from a B-tree what it has stored, with zeros behind it.
    Through the client of a B-tree whose contents are the map [m], [put] returns OK and
    leaves the map with the value, cut to 15 characters, unless the pool is full.  [get]
    of a key of the map returns its value filled up with zeros to 16 characters, so a
    string that differs from the one stored; for a key that is not there it is
    undefined, a string made of a null pointer. *)
Theorem client_btree_put_then_get k v s ds mask m :
  let h := btree_handle ds mask in
  Z.of_nat pool_room < 2 ^ 64 → (∀ h, h !! fresh h = None ∧ fresh h ≠ 0) →
  btree_at pool_room s ds m → 0 ≤ ds < 2 ^ 8 → is_key k → no_zero v →
  wp (bt_put h k v) (λ f, f = bad_alloc) (λ r s', r = OK ∧ btree_at pool_room s' ds (<[k := take 15 v]> m)) s
  ∧ ∀ k', is_key k' →
    wp (bt_get h k') (λ f, f = UB ∧ m !! k' = None)
      (λ x s', (∃ w, m !! k' = Some w ∧ x = padded w) ∧ btree_at pool_room s' ds m) s.
Proof.
  intros h Hroom Hfresh Hs Hds Hk Hv.
  pose proof (λ t, btree_put_then_get abandon pool_room fresh t k v s ds m Hroom Hfresh Hs Hds Hk Hv) as Hpg. split.
  - apply update_ok. eapply wp_mono; [apply (proj1 (Hpg _))|done|]. naive_solver.
  - intros k' Hk'. apply (bt_get_wp h k' (m !! k')).
    + intros w Hw. destruct Hs as (t & _ & ms & _ & _ & Hm). by apply (Hm _ _ Hw).
    + eapply wp_mono; [apply (proj2 (Hpg _) k' Hk')|by intros f []|]. intros r s' [-> Hat]. split; [done|].
      destruct (m !! k') as [w|]; [|done]. rewrite wp_ret. eauto.
Qed.

(** ** The list of [vote_topk] *)
Lemma int_small x : 0 ≤ x < 2 ^ 31 → i32 (u32 x) = x.
Proof. intros Hx. unfold i32, u32. rewrite (Z.mod_small x), Z.mod_small by lia. lia. Qed.
Definition vote_ok (e : Z * list Z) : Prop := 0 ≤ e.1 < 2 ^ 64 ∧ no_zero e.2 ∧ (length e.2 ≤ 15)%nat.
Lemma length_vote_bytes (junk : nat → list Z) i e :
  (∀ i, length (junk i) = 16%nat) → vote_ok e → length (vote_bytes junk i e) = Z.to_nat sizeof_vote_payload.
Proof.
  intros Hj (_ & _ & He). unfold vote_bytes, print_string, ART_ARRAY_SIZE. cbv zeta.
  rewrite !length_app, length_to_bytes. simpl length. rewrite length_drop, length_take, Hj.
  unfold sizeof_vote_payload. lia.
Qed.
Lemma print_votes_run (junk : nat → list Z) l s : (∀ i, length (junk i) = 16%nat) → Forall vote_ok l →
  print_votes (length l) (concat (imap (vote_bytes junk) l)) s = Ret l (s : lib).
Proof.
  intros Hj Hl. revert junk Hj. induction Hl as [|e l He Hl IH]; intros junk Hj; [done|].
  cbn [length print_votes]. rewrite imap_cons. cbn [concat].
  pose proof (length_vote_bytes junk 0 e Hj He) as Hlen. destruct He as (Hk & Hv & Ht).
  rewrite (proj2 (Nat.ltb_ge _ _)) by (rewrite length_app, Hlen; unfold sizeof_vote_payload; lia).
  rewrite (drop_app_length' (vote_bytes junk 0 e)) by done.
  unfold mbind, M_bind. change (vote_bytes junk ∘ S) with (vote_bytes (junk ∘ S)).
  set (rest := concat _). unfold vote_bytes.
  rewrite <- !app_assoc, drop_bytes, take_bytes, of_to_bytes. unfold print_string, ART_ARRAY_SIZE. cbv zeta.
  rewrite <- app_assoc, <- app_comm_cons, take_ge, c_string_app by (done || lia). cbn [deref mret M_ret].
  subst rest. rewrite (IH (junk ∘ S)) by (intros; apply Hj). cbn. rewrite Z.mod_small by done. by destruct e.
Qed.

(** C37: the top articles arrive as they were chosen.  When the library answers
    [vote_topk] with the list [l], at most as long as the array it is built in, with
    titles of at most 15 characters, the client's [topk] takes the length of the list
    from the size of the response, passes its assertion, and prints exactly [l]; the
    bytes behind the titles, which are not initialised, do not matter. *)
Theorem topk_roundtrip l s s' :
  exec (part topk_request) topk_request s = Ret (RTopk l) s' →
  (∀ i, length (art_junk i) = 16%nat) → (length l ≤ 100)%nat → Forall vote_ok l →
  client_topk s = Ret (OK, l) s'.
Proof.
  intros Hrun Hj Hlen Hl. unfold client_topk, call, mbind, M_bind. simpl sendmsg. unfold direct_sendmsg, mbind, M_bind.
  rewrite Hrun. cbn [deref mret M_ret]. unfold response_meta.
  assert (length (topk_bytes art_junk l) <? 4 = false)%nat as -> by (apply Nat.ltb_ge; unfold topk_bytes; rewrite length_app, length_replicate; lia).
  cbn [mret M_ret]. change (of_bytes (take 4 (topk_bytes art_junk l))) with 0. simpl negb. cbv iota.
  assert (i32 (u32 (topk_size l - (sizeof_pm_rpc - Z.of_nat ART_ARRAY_SIZE))) = 24 * Z.of_nat (length l)) as ->.
  { unfold topk_size, sizeof_vote_payload. rewrite int_small; lia. }
  assert (u64 (24 * Z.of_nat (length l)) = Z.of_nat (length l) * 24) as -> by (unfold u64; rewrite Z.mod_small by lia; lia).
  unfold sizeof_vote_payload. rewrite Z_mod_mult, Z_div_mult by lia. simpl assert.
  rewrite int_small by lia.
  rewrite Nat2Z.id. change (response_value (topk_bytes art_junk l)) with (concat (imap (vote_bytes art_junk) l)).
  change (negb (STATUS 0 =? OK)) with false. cbv iota beta. change (assert (0 =? 0) s') with (Ret tt s').
  cbv iota beta. by rewrite print_votes_run.
Qed.
End direct.

(** ** The measurement of the DPDK client *)
Section dpdk.
Context {D : Type} (current_time : M D Z).

Definition counts_ok (s : dpdk_pm D) : Prop :=
  0 ≤ tx_wr_block_cnt s ∧ 0 ≤ tx_ro_block_cnt s ∧ tx_wr_block_cnt s + tx_ro_block_cnt s < 5000.

(** Each answer is counted once, by its kind; the counters start again at 5000, so they
    do not overflow; and the context is given back, so that it cannot be used again. *)
Theorem callback_counts args code lat s :
  counts_ok s →
  wp (async_callback current_time args code lat) any (λ _ s', counts_ok s'
    ∧ contexts s' = delete args (contexts s) ∧ request_id s' = request_id s
    ∧ let n := tx_wr_block_cnt s + tx_ro_block_cnt s + 1 in
      tx_wr_block_cnt s' + tx_ro_block_cnt s' = if n <? 5000 then n else 0) s.
Proof.
  intros (Hw & Hr & Hlt). apply wp_any_intro. intros [] s'. unfold async_callback, mbind, M_bind, get.
  destruct (contexts s !! args) as [c|]; [|done]. cbn [deref mret M_ret].
  destruct (negb (code =? REP_SUCCESS)); [done|].
  assert (∀ x, 0 ≤ x ≤ 5000 → u64 x = x) as Hu by (intros x Hx; unfold u64; apply Z.mod_small; lia).
  destruct (request_type c =? UPDATE_OPERATION); cbn; rewrite ?(Hu (_ + 1)) by lia; rewrite (Hu (_ + _)) by lia;
    match goal with |- context [5000 <=? ?n] => destruct (Z.leb_spec 5000 n) end; cbn.
  2,4: intros [= <-]; cbn; rewrite (proj2 (Z.ltb_lt _ _)) by lia; unfold counts_ok; cbn; split_and!; done || lia.
  all: unfold on_client, on_cdev; cbn; destruct (current_time _) as [? d|]; [cbn|done]; destruct (current_time d); [cbn|done];
    intros [= <-]; cbn; rewrite (proj2 (Z.ltb_ge _ _)) by lia; unfold counts_ok; cbn; split_and!; done || lia.
Qed.
End dpdk.

(** ** Witnesses *)
Definition demo_junk (_ : nat) : list Z := replicate 16 7.
Definition demo_direct (partition : pm_rpc_t → Z) : Transport map_lib :=
  direct (λ _ s, s) 100 new_address demo_junk partition.
Definition by_key (req : pm_rpc_t) : Z := rkey req mod 2.

Lemma client_put_then_get_witness :
  let T := demo_direct by_key in
  ∃ s', hm_put (H := T) (sharded_handle 7 1) 43 [104; 105] demo_lib = Ret OK s'
    ∧ hm_get (H := T) (sharded_handle 7 1) 43 s' = Ret [104; 105] s'.
Proof.
  intros T. assert (sharded_at demo_lib 7 [∅; ∅]) as Hs.
  { exists {[7 := (0, true)]}, 0, true. vm_compute. split_and!; reflexivity. }
  assert (no_zero [104; 105]) as Hv by (repeat constructor; lia).
  assert (∀ k, u8 (by_key (get_request (type_code SHARDED_HASHMAP) 7 k)) < Z.of_nat (length [∅; ∅ : gmap Z (list Z)])) as Hp.
  { intros k. unfold by_key, u8. simpl rkey. pose proof (Z.mod_pos_bound k 2). rewrite Z.mod_small by lia. simpl. lia. }
  destruct (client_put_then_get (λ _ s, s) 100 new_address demo_junk by_key 43 [104; 105] demo_lib 7 1 [∅; ∅]
    Hs ltac:(lia) Hv eq_refl Hp) as (s' & Hput & Hget & _).
  by exists s'.
Defined.

Lemma client_btree_put_then_get_witness :
  let T := demo_direct (λ _, 0) in
  wp (bt_put (H := T) (btree_handle 7 1) 42 [104; 105]) (λ f, f = bad_alloc)
    (λ r s', r = OK ∧ btree_at 100 s' 7 {[42 := [104; 105]]}) tree_lib.
Proof.
  assert (no_zero [104; 105]) as Hv by (repeat constructor; lia).
  assert (is_key 42) as Hk by (unfold is_key; lia).
  destruct (client_btree_put_then_get (λ _ s, s) 100 new_address demo_junk (λ _, 0) 42 [104; 105] tree_lib 7 1 ∅
    eq_refl new_address_fresh tree_lib_empty ltac:(lia) Hk Hv) as [H _].
  exact H.
Defined.

(** Article 3 with a title and 5 votes, in partition 0. *)
Definition vote_lib : map_lib :=
  lib_after 0 (pq_request INSERT 1 3 5)
    (lib_after 0 (put_request (type_code SHARDED_HASHMAP) 0 3 [104; 105])
      (lib_after 0 (create_request (type_code SHARDED_PRIORITY_QUEUE) 1)
        (lib_after 0 (create_request (type_code SHARDED_HASHMAP) 0) fresh_lib))).
Lemma topk_roundtrip_witness :
  client_topk (H := demo_direct (λ _, 0)) vote_lib = Ret (OK, [(3, [104; 105])]) vote_lib.
Proof.
  apply (topk_roundtrip (λ _ s, s) 100 new_address demo_junk (λ _, 0) [(3, [104; 105])] vote_lib vote_lib).
  - vm_compute. reflexivity.
  - done.
  - simpl. lia.
  - repeat constructor; simpl; lia.
Defined.

(** Closing the library through the network names no core: the mask is 0. *)
Definition recorder : Transport (list (Z * Z * Z)) :=
  {| sendmsg r mask fl := λ s, Ret (sizeof_pm_rpc, Some (pm_bytes (status OK zero_rpc))) (s ++ [(OP_ID (meta r), mask, fl)]);
     sendmsg_async r mask fl cb := λ s, Ret 0 (s ++ [(OP_ID (meta r), mask, fl)]) |}.
Theorem close_names_no_core name :
  client_open (H := recorder) name [] = Ret OK [(op_code OPEN, 1, UPDATE_OPERATION)]
  ∧ client_close (H := recorder) [] = Ret OK [(op_code CLOSE, 0, 1)].
Proof. split; reflexivity. Qed.

(** A read that waits is sent without its flag: the server treats it as an update. *)
Theorem read_sent_as_update :
  ∃ r s' pkt data, dpdk_sendmsg demo_cfg net_alloc (λ _, mret tt) net_tx net_flush net_rx net_clock
      demo_header demo_rpc_of demo_blank demo_blank [] 10 (get_request (type_code SORTED_BTREE) 7 42) 1 READ_OPERATION
      (new_dpdk demo_client) = Ret r s'
    ∧ last (sent (dpdk_client s')) = Some (2, pkt, data) ∧ flags pkt = 0
    ∧ data = pm_bytes (get_request (type_code SORTED_BTREE) 7 42).
Proof. vm_compute. do 4 eexists. split_and!; reflexivity. Qed.
